(* ===== verification/_CoqProject ===== *)
-Q . S2P
Prelude.v
GoStd.v
Kube.v
Cloud.v
Config.v
Meta.v
Pages.v
ServiceLock.v
Balancer.v
Ports.v
PublicIP.v
Rule.v
Nodes.v
Panics.v
State.v
Queue.v
Workers.v
Hosts.v
Converge.v
Goroutines.v
Handlers.v
Ensure.v
Interleaving.v
Startup.v
HandlerPanics.v
Instances.v
Fake.v
FakeSafety.v
FakeClient.v
FakeWorld.v
Demo.v
