(* ===== verification/Prelude.v ===== *)
(** * custom-cloudstack-ccm: a verification development

    custom-cloudstack-ccm is a Kubernetes cloud provider: it keeps one CloudStack
    load balancer rule per service of type LoadBalancer, behind it the machines
    of the cluster's nodes, in front of it a public IP; it answers questions
    about machines and zones; and it brings rules in line with the node registry
    through a queue that a few workers serve.  This library models the Go package
    src/cloudstack and proves what it does against every behaviour of CloudStack,
    Kubernetes, DNS and the clock.

    ** Parts and their correspondence to the source

    - Prelude: tactics and lemmas on lists and finite maps.
    - GoStd: what the sources use of the Go language and its standard library:
      errors, results (a value, an error, a panic, or [Blocked]), the state monad
      [M], defer, the weakest-precondition calculus [wp] with its rules,
      [preserves], and strings, strconv, sort.
    - Kube: the fields of the Kubernetes objects that the sources read or write;
      serviceKey and svcKey.
    - Cloud: the world outside the repository.  [ev] lists the calls the code
      makes, each with the type of its answer; an instance of the class [Cloud] is
      an arbitrary implementation of them, so every theorem holds for all
      answers; the log of calls, [logs], says what was asked for.
    - Config: cloudstack.go (readConfig, newCSCloud, the capability getters) and
      newCloudstackManager of helpers.go.
    - Meta: getLabelOrAnnotation, environmentForMeta, projectForMeta,
      clientForEnvironment (instances.go), getLoadBalancerName (loadbalancer.go).
    - Pages: the page loop with its removal of duplicates and the machine cache
      (helpers.go).
    - ServiceLock: servicelock.go, as single atomic steps of any number of
      goroutines, and as the composed operations that a handler uses when nobody
      contends.
    - Balancer, Ports, PublicIP, Rule: loadbalancer.go below the interface: the
      balancer record and who owns what, ports and health checks, public IPs,
      rules with their machines, networks and pools.
    - Nodes: nodes.go, the registry of nodes and of the nodes of each service.
    - Panics, HandlerPanics: which operations cannot panic, for a balancer with a
      rule, and the handlers under answers that fit together.
    - State, Queue, Workers: the state of a running provider (registry, queue, locks), and
      service_queue.go: push, pop, processQueueEntry, one round of a worker, and
      the loop of a worker with its timer over its wake-ups, and the drain of the
      queue.
    - Hosts: what an update achieves, against [RuleHosts], the interface of a
      CloudStack that keeps its word about the machines of its rules.
    - Converge: updates succeed against [Obliging], the interface of a CloudStack
      that accepts the calls of an update.
    - Handlers: the load balancer interface of loadbalancer.go, and the provider
      as a transition system over its handlers, worker rounds and endpoint events.
    - Ensure: what EnsureLoadBalancer has done to the rule when it succeeds.
    - Goroutines, Interleaving: the same handlers, workers and the informer as
      programs of atomic steps that run at the same time, with start and stopWait
      of service_queue.go; the sequential operations are their runs without
      interference ([goroutines_alone]).
    - Startup: Initialize and SetInformers (cloudstack.go), from a new provider to
      its goroutines.
    - Instances: instances.go and zones.go.
    - Fake, FakeSafety, FakeClient: fake/cloudstack.go, the server that stands for
      CloudStack in the tests: one definition per command of ServeHTTP and per
      job; what it keeps in every state that requests, Hooks and the methods and
      fields that tests use can bring about; how it fits the provider.
    - FakeWorld: the test server as an instance of [Cloud] that satisfies
      [RuleHosts] and [Obliging].
    - Demo: a small concrete cluster on which the definitions are run and the
      theorems applied.

    An operation of the source is one Definition of the same name.  A method of
    *loadBalancer is a computation over [lbst] (the world and the balancer object
    it mutates), one of *nodeRegistry over [regst], one of the queue or of CSCloud
    over [state]; [with_lb], [on_registry] and [with_lock] run the former inside
    the latter, as the code calls them.  The service a balancer points to is the
    caller's object: what the code writes to it (the project label, the sorted
    ports) is kept in the balancer.

    ** What the theorems show

    - The interface (Handlers): nothing that is not the provider's is changed or
      deleted, by EnsureLoadBalancer, EnsureLoadBalancerDeleted or a worker; a
      balancer that is as wanted is left alone; an Ensure that succeeds leaves the
      balancer in the queue with a rule that was as wanted and is kept, or with a new
      one (Ensure).  Where these theorems speak of the rule that was found they mean
      the answer of CloudStack to the lookup at that point ([ensure_shown],
      [entry_shown]).  In every reachable state the queue is well formed and no lock is left behind.
    - From the queue to CloudStack (Hosts): the success of an update that a worker
      records means that the rule of the service has exactly the machines of the
      registered nodes that serve it; against a CloudStack that accepts its calls
      (Converge) one round of a worker does that.
    - The queue: no update is lost by a round, the most urgent entry is taken
      first, the order is a strict weak order, a push changes one entry only, a
      worker never panics, and one that is told to stop drains the queue in a
      bounded number of rounds.
    - Concurrency: under every interleaving no update is lost, CloudStack is
      changed only by the holder of a service's lock, nothing deadlocks, no worker
      dies of a panic or waits for ever, and after stopWait no update is in
      anybody's hands.
    - Rules, IPs and ports: the search for a rule, the check whether it can be
      kept, creation followed by the check, the machines of a rule after a
      synchronisation, tagging an IP or giving it back (with the answer of
      CloudStack to each call), the ports and health checks that are sent.
    - The test server, whatever tests add to it and whatever their Hooks do: the
      rules that requests make have entries of the types that the code asserts, it
      panics exactly in the cases of [breaks], and it does what the theorems on
      rules and machines ask of CloudStack.
    - The service lock refines one mutex per service, leaks no entry and never
      blocks a goroutine on a free service.
    - Nodes, instances, configuration: functional specifications of each
      operation on all branches, round trip of provider IDs, totality of index
      accesses.

    ** Modelling decisions and bounds

    - The page loop is the only unbounded loop of an operation.  It takes fuel;
      out of fuel is [Blocked], and [listAllPagesUnsafe_complete] shows that one
      unit per page is enough against a server that answers in pages.  The other
      loops are structural.
    - Iteration over a Go map takes an order from the world ([shuffle]), so the
      theorems hold for every order.
    - sort.Sort, sort.Slice and sort.Strings are insertion sorts; where the
      result depends on the order of equal elements, nothing is claimed of it.
      time.Until is evaluated by each comparison of the sort; the model reads the
      clock once for all of them.  Instants are nanoseconds in Z.
    - A timer is whether its expiry is ahead and whether its channel is full; when
      it expires is left open, so durations do not matter.  Which case a select
      statement takes is given by the list of wake-ups, over which the theorems
      quantify.
    - In Handlers and Queue an operation runs without interference on the memory
      of the provider; the world changes arbitrarily at every call.  In
      Interleaving every access to the registry or the queue is a step of its own
      (the code holds a mutex for it), taking a service's lock is two steps, and
      a stretch of calls between them is one: the world may answer anything in
      any case.  pop reads the registry in one step, where the code locks it once
      per entry; only the order of the entries depends on that.
    - In Hosts nobody but the provider changes the machines of a rule; a call that
      reports success did what it says, one that reports an error may have changed
      anything.  The requests with which FakeWorld carries a call to the test server
      are those of a client for the interface; it refuses identifiers that are empty or
      hold a comma.
    - A test may add any rule to the test server.  The Rule map of an added rule
      is not nil, and the test keeps no reference to it; a job that a test registers
      returns a value.  A Hook is a list of operations, chosen by the request, and
      perhaps an answer.
    - In Ensure the ports of the service are node ports of one protocol, so that
      they are the same when the rule is checked and when it is created; with the
      target-port label they are read from the endpoints each time.
    - Revisions of nodes are 64-bit with wrap-around; ports and indexes are the
      integers of the API objects.

    ** Not modelled

    cmd/controller/main.go (flags and start of the Kubernetes controller
    manager); the goroutine of Initialize that cancels the context (the wake-up
    [CtxDone] may come at any time); logging, metrics and event texts; the HTTP
    transport and the JSON text of the test server's replies.  The CloudStack
    client, client-go, gcfg, ristretto and the rate limiter are code of other
    repositories: they are calls of [ev] or parameters. *)
From stdpp Require Import base list strings gmap sorting.

(** ** Tactics of the development *)

Create HintDb ccm.

(** Case analysis on the scrutinee of a match in the goal or in a
    hypothesis, keeping the equation. *)
Ltac case_goal :=
  match goal with
  | |- context [match ?x with _ => _ end] =>
      lazymatch x with
      | context [match _ with _ => _ end] => fail
      | _ => let E := fresh "E" in destruct x eqn:E
      end
  end.

Ltac case_hyp H :=
  match type of H with
  | context [match ?x with _ => _ end] =>
      lazymatch x with
      | context [match _ with _ => _ end] => fail
      | _ => let E := fresh "E" in destruct x eqn:E
      end
  end.

(** ** Lists *)

Section lists.
Context {A : Type}.
Implicit Types l k : list A.

Lemma list_last_In (l : list A) x : last l = Some x → x ∈ l.
Proof.
  intros Hl. apply last_Some in Hl as [l' ->]. set_solver.
Qed.
End lists.

(** ** Finite maps *)

Section maps.
Context {K A : Type} `{Countable K}.
Implicit Types m : gmap K A.

Lemma map_size_one m : size m = 1 → ∃ k x, m = {[ k := x ]}.
Proof.
  intros Hs. rewrite <- length_map_to_list in Hs.
  destruct (map_to_list m) as [|[k x] [|]] eqn:E; simplify_eq/=.
  exists k, x. by rewrite <- (list_to_map_to_list m), E.
Qed.

(** Maps that differ at one key only differ in size by one. *)
Lemma map_size_but_one m m' k :
  (∀ k', k' ≠ k → m' !! k' = m !! k') → size m' ≤ S (size m).
Proof.
  intros Hm. assert (delete k m' = delete k m) as Hd.
  { apply map_eq. intros k'. destruct (decide (k' = k)) as [->|Hk].
    - by rewrite !lookup_delete_eq.
    - rewrite !lookup_delete_ne by done. by apply Hm. }
  pose proof (map_size_delete k m) as H1. pose proof (map_size_delete k m') as H2.
  rewrite Hd in H2. destruct (m !! k), (m' !! k); simpl in *; lia.
Qed.

(** The keys that a permutation of the entries of a map visits. *)
Lemma entries_lookup m l k x : l ≡ₚ map_to_list m → (k, x) ∈ l ↔ m !! k = Some x.
Proof. intros ->. apply elem_of_map_to_list. Qed.

Lemma entries_NoDup m l : l ≡ₚ map_to_list m → NoDup l.*1.
Proof. intros ->. apply NoDup_fst_map_to_list. Qed.

Lemma entries_keys m l k : l ≡ₚ map_to_list m → k ∈ l.*1 ↔ is_Some (m !! k).
Proof.
  intros Hl. rewrite list_elem_of_fmap. split.
  - intros [[k' x] [-> Hin]]. exists x. by eapply entries_lookup.
  - intros [x Hx]. exists (k, x). split; [done|]. by eapply entries_lookup.
Qed.
End maps.

Lemma omap_nil_iff {A B} (f : A → option B) (l : list A) :
  omap f l = [] ↔ Forall (λ x, f x = None) l.
Proof.
  induction l as [|x l IH]; [by split|]. rewrite Forall_cons. simpl.
  destruct (f x); [naive_solver|]. rewrite IH. naive_solver.
Qed.

Lemma list_filter_nil_iff {A} (P : A → Prop) `{∀ x, Decision (P x)} (l : list A) :
  filter P l = [] ↔ Forall (λ x, ¬ P x) l.
Proof.
  induction l as [|x l IH]; [by split|]. rewrite filter_cons, Forall_cons.
  case_decide; [naive_solver|]. rewrite IH. naive_solver.
Qed.

Lemma fmap_Permutation_inj {A B} (f : A → B) (l k : list A) :
  Inj (=) (=) f → f <$> l ≡ₚ f <$> k → l ≡ₚ k.
Proof.
  intros Hinj. revert k. induction l as [|x l IH]; intros k Hp; simpl in Hp.
  - apply Permutation_nil in Hp. by destruct k.
  - assert (f x ∈ f <$> k) as Hx by (rewrite <- Hp; by left).
    apply list_elem_of_fmap in Hx as (y & Hxy%Hinj & Hy). subst y.
    apply list_elem_of_split in Hy as (k1 & k2 & ->).
    rewrite fmap_app in Hp. simpl in Hp. rewrite <- Permutation_middle in Hp.
    apply Permutation_cons_inv in Hp. rewrite <- fmap_app in Hp.
    rewrite <- Permutation_middle. by constructor; apply IH.
Qed.
