(* ===== verification/GoStd.v ===== *)
(** * The Go runtime and standard library, as far as the program uses them

    Results and panics, the state monad of the embedding, [for ... range]
    loops, [defer], and the parts of the packages strings, strconv, sort and
    errors that the sources call. *)
From Stdlib Require Import Ascii.
From stdpp Require Import base list strings gmap sorting pretty.
From S2P Require Import Prelude.

(** ** Errors and results *)

(** The error values the program creates, returns or compares.  Sentinels and
    error types that the code tests have a constructor of their own; an
    [ApiError] carries the text of an error made outside the repository (a
    CloudStack or Kubernetes client); [Errorf] keeps the format string and the
    values of an error built by fmt.Errorf or errors.New. *)
Inductive error :=
  | ErrVMNotFound
  | InstanceNotFound
  | IPNotFoundError (ip : string)
  | ApiError (text : string)
  | Errorf (format : string) (args : list string).

#[export] Instance error_eq_dec : EqDecision error.
Proof. solve_decision. Defined.

(** Outcome of running a piece of Go code: a value, an error that is returned
    to the caller, a run-time panic, or no return at all: the goroutine waits on
    a mutex that is held, or a loop has used up the fuel it was given. *)
Inductive res (A : Type) :=
  | Ok (a : A)
  | Err (e : error)
  | Panic (msg : string)
  | Blocked.
Arguments Ok {A} _.
Arguments Err {A} _.
Arguments Panic {A} _.
Arguments Blocked {A}.

(** The code returns to its caller, with a value or with an error. *)
Definition returns {A} (r : res A) : Prop := match r with Ok _ | Err _ => True | _ => False end.

(** ** The state monad of the embedding

    State changes survive errors and panics, as they do in Go. *)
Definition M (S A : Type) : Type := S → S * res A.

Section monad.
Context {S : Type}.

#[export] Instance M_ret : MRet (M S) := λ A a s, (s, Ok a).
#[export] Instance M_bind : MBind (M S) := λ A B f m s,
  match m s with
  | (s', Ok a) => f a s'
  | (s', Err e) => (s', Err e)
  | (s', Panic p) => (s', Panic p)
  | (s', Blocked) => (s', Blocked)
  end.

Definition throw {A} (e : error) : M S A := λ s, (s, Err e).
Definition panic {A} (p : string) : M S A := λ s, (s, Panic p).
Definition block {A} : M S A := λ s, (s, Blocked).
Definition get : M S S := λ s, (s, Ok s).
Definition gets {A} (f : S → A) : M S A := λ s, (s, Ok (f s)).
Definition modify (f : S → S) : M S unit := λ s, (f s, Ok tt).

(** [x, err := m]: the error becomes a value. *)
Definition try {A} (m : M S A) : M S (error + A) := λ s,
  match m s with
  | (s', Ok a) => (s', Ok (inr a))
  | (s', Err e) => (s', Ok (inl e))
  | (s', Panic p) => (s', Panic p)
  | (s', Blocked) => (s', Blocked)
  end.

(** A value-and-error pair turned back into a result. *)
Definition of_sum {A} (x : error + A) : M S A :=
  match x with inl e => throw e | inr a => mret a end.

(** [defer d] around [m]: [d] runs on return and on panic, and what [m]
    returned is kept unless [d] itself panics or blocks.  A blocked goroutine
    never gets there. *)
Definition defer {A} (d : M S unit) (m : M S A) : M S A := λ s,
  match m s with
  | (s', Blocked) => (s', Blocked)
  | (s', r) =>
      match d s' with
      | (s'', Panic p) => (s'', Panic p)
      | (s'', Blocked) => (s'', Blocked)
      | (s'', _) => (s'', r)
      end
  end.

(** Dereference of a pointer that may be nil. *)
Definition deref {A} (o : option A) : M S A :=
  match o with Some a => mret a | None => panic "nil pointer dereference" end.

(** Indexing of a slice. *)
Definition index {A} (l : list A) (i : nat) : M S A :=
  match l !! i with Some a => mret a | None => panic "index out of range" end.

(** [for _, x := range l { body }] where the body may return early by an
    error. *)
Fixpoint for_each {A} (l : list A) (body : A → M S unit) : M S unit :=
  match l with
  | [] => mret tt
  | x :: l => body x ;; for_each l body
  end.
End monad.

(** Running code that works on a part [T] of the state. *)
Definition zoom {S T A} (getT : S → T) (setT : T → S → S) (m : M T A) : M S A := λ s,
  let '(t, r) := m (getT s) in (setT t s, r).

(** ** Package strings: strings are sequences of bytes *)

Definition HasPrefix (s prefix : string) : bool := String.prefix prefix s.

Fixpoint drop_prefix (prefix s : string) : option string :=
  match prefix, s with
  | "", _ => Some s
  | String a prefix, String b s => if decide (a = b) then drop_prefix prefix s else None
  | String _ _, "" => None
  end.

Definition TrimPrefix (s prefix : string) : string := default s (drop_prefix prefix s).

Fixpoint Contains (s substr : string) : bool :=
  String.prefix substr s || match s with "" => false | String _ s => Contains s substr end.

(** strings.Split with a separator of one byte. *)
Fixpoint Split (s : string) (sep : ascii) : list string :=
  match s with
  | "" => [""]
  | String a s =>
      if decide (a = sep) then "" :: Split s sep
      else match Split s sep with
           | [] => [String a ""]
           | w :: ws => String a w :: ws
           end
  end.

Fixpoint Join (elems : list string) (sep : string) : string :=
  match elems with
  | [] => ""
  | [w] => w
  | w :: ws => w +:+ sep +:+ Join ws sep
  end.

(** strings.ToUpper on ASCII letters; other bytes are left alone. *)
Definition upper_byte (a : ascii) : ascii :=
  let n := Ascii.N_of_ascii a in
  if decide (97 ≤ n ∧ n ≤ 122)%N then Ascii.ascii_of_N (n - 32)%N else a.

Fixpoint ToUpper (s : string) : string :=
  match s with "" => "" | String a s => String (upper_byte a) (ToUpper s) end.

Fixpoint has_byte (c : ascii) (s : string) : bool :=
  match s with "" => false | String a s => bool_decide (a = c) || has_byte c s end.

(** ** Package strconv *)

(** What the verb %q prints for a string of plain characters. *)
Definition quoted (s : string) : string := String "034" s +:+ String "034" "".

Definition Itoa (i : Z) : string := pretty i.

Definition digit (a : ascii) : option Z :=
  let n := Z.of_N (Ascii.N_of_ascii a) in
  if decide (48 ≤ n ∧ n ≤ 57)%Z then Some (n - 48)%Z else None.

Fixpoint digits (s : string) (acc : Z) : option Z :=
  match s with
  | "" => Some acc
  | String a s => match digit a with Some d => digits s (10 * acc + d)%Z | None => None end
  end.

Definition in_int64 (z : Z) : bool := bool_decide (- 2 ^ 63 ≤ z < 2 ^ 63)%Z.

(** strconv.Atoi: an optional sign, at least one decimal digit, nothing else,
    and a value that fits an int of 64 bits. *)
Definition Atoi (s : string) : option Z :=
  let parse sign body :=
    match body with
    | "" => None
    | _ => match digits body 0%Z with
           | Some n => if in_int64 (sign * n)%Z then Some (sign * n)%Z else None
           | None => None
           end
    end in
  match s with
  | String "-" body => parse (-1)%Z body
  | String "+" body => parse 1%Z body
  | _ => parse 1%Z s
  end.

Definition ParseBool (s : string) : option bool :=
  if decide (s ∈ ["1"; "t"; "T"; "TRUE"; "true"; "True"]) then Some true
  else if decide (s ∈ ["0"; "f"; "F"; "FALSE"; "false"; "False"]) then Some false
  else None.

(** ** Package fmt and the text of errors *)

(** fmt.Sprintf on a format whose verbs all print a string argument. *)
Fixpoint Sprintf (format : string) (args : list string) : string :=
  match format with
  | "" => ""
  | String "%" (String "#" (String _ f)) => hd "" args +:+ Sprintf f (tl args)
  | String "%" (String "q" f) => quoted (hd "" args) +:+ Sprintf f (tl args)
  | String "%" (String _ f) => hd "" args +:+ Sprintf f (tl args)
  | String a f => String a (Sprintf f args)
  end.

(** err.Error() *)
Definition Error (e : error) : string :=
  match e with
  | ErrVMNotFound => "vm not found in cloudstack"
  | InstanceNotFound => "instance not found"
  | IPNotFoundError ip => "could not find IP address " +:+ ip
  | ApiError text => text
  | Errorf format args => Sprintf format args
  end.

(** [if err != nil { return fmt.Errorf(format, ..., err) }]: the error of [m] is
    replaced. *)
Definition wrap {S A} (f : error → error) (m : M S A) : M S A := λ s,
  match m s with
  | (s', Err e) => (s', Err (f e))
  | r => r
  end.

(** sort.Strings: strings are compared byte by byte. *)
Definition sort_Strings (l : list string) : list string := merge_sort String.le l.

(** ** Facts on strings *)

Section string_lemmas.
Implicit Types s w p : string.
Implicit Types c : ascii.

Lemma app_nil_r_str s : s +:+ "" = s.
Proof. induction s as [|a s IH]; [done|]. change (String a (s +:+ "") = String a s). by rewrite IH. Qed.

Lemma app_assoc_str s1 s2 s3 : s1 +:+ (s2 +:+ s3) = (s1 +:+ s2) +:+ s3.
Proof.
  induction s1 as [|a s1 IH]; [done|].
  change (String a (s1 +:+ (s2 +:+ s3)) = String a ((s1 +:+ s2) +:+ s3)). by rewrite IH.
Qed.

Lemma app_cons_str a s1 s2 : String a s1 +:+ s2 = String a (s1 +:+ s2).
Proof. done. Qed.

Lemma has_byte_app c s1 s2 : has_byte c (s1 +:+ s2) = has_byte c s1 || has_byte c s2.
Proof.
  induction s1 as [|a s1 IH]; [done|]. rewrite app_cons_str. simpl.
  by rewrite IH, orb_assoc.
Qed.

Lemma drop_prefix_app p s : drop_prefix p (p +:+ s) = Some s.
Proof. induction p as [|a p IH]; [by destruct s|]. rewrite app_cons_str. simpl. by rewrite decide_True. Qed.

Lemma drop_prefix_Some p s s' : drop_prefix p s = Some s' ↔ s = p +:+ s'.
Proof.
  split.
  - revert s. induction p as [|a p IH]; intros s Hd; [by destruct s; simplify_eq/=|].
    destruct s as [|b s]; simpl in Hd; [done|]. case_decide; [|done]. subst.
    rewrite app_cons_str. f_equal. by apply IH.
  - intros ->. apply drop_prefix_app.
Qed.

Lemma HasPrefix_spec s p : HasPrefix s p = true ↔ is_Some (drop_prefix p s).
Proof.
  unfold HasPrefix. revert s. induction p as [|a p IH]; intros s; simpl.
  - destruct s; simpl; split; intros; eauto.
  - destruct s as [|b s]; [split; [done|by intros [??]]|].
    change (String.prefix (String a p) (String b s))
      with (if ascii_dec a b then String.prefix p s else false).
    destruct (ascii_dec a b); case_decide; try congruence; [apply IH|].
    split; [done|by intros [??]].
Qed.

Lemma TrimPrefix_app p s : TrimPrefix (p +:+ s) p = s.
Proof. unfold TrimPrefix. by rewrite drop_prefix_app. Qed.

Lemma append_inj_l s s1 s2 : s +:+ s1 = s +:+ s2 → s1 = s2.
Proof. apply String.app_inj. Qed.

Lemma Split_no_sep c s : has_byte c s = false → Split s c = [s].
Proof.
  induction s as [|a s IH]; simpl; [done|]. intros [Ha Hs]%orb_false_iff.
  rewrite bool_decide_eq_false in Ha. rewrite decide_False by done. by rewrite (IH Hs).
Qed.

Lemma Split_app_sep c w s :
  has_byte c w = false → Split (w +:+ String c s) c = w :: Split s c.
Proof.
  induction w as [|a w IH]; intros Hw.
  - change ("" +:+ String c s) with (String c s). simpl. by rewrite decide_True.
  - simpl in Hw. apply orb_false_iff in Hw as [Ha Hs].
    rewrite bool_decide_eq_false in Ha. rewrite app_cons_str. simpl.
    rewrite decide_False by done. by rewrite IH.
Qed.

Lemma Split_not_nil c s : Split s c ≠ [].
Proof. destruct s as [|a s]; simpl; [done|]. case_decide; [done|]. by destruct (Split s c). Qed.

(** Split undoes Join on parts that do not contain the separator. *)
Lemma Split_Join c ws :
  ws ≠ [] → Forall (λ w, has_byte c w = false) ws → Split (Join ws (String c "")) c = ws.
Proof.
  intros Hne Hws. induction Hws as [|w ws Hw Hws IH]; [done|]. clear Hne.
  destruct ws as [|w' ws]; [by apply Split_no_sep|].
  change (Join (w :: w' :: ws) (String c "")) with
    (w +:+ (String c "" +:+ Join (w' :: ws) (String c ""))).
  rewrite app_cons_str. change ("" +:+ ?x) with x. rewrite Split_app_sep by done.
  by rewrite IH.
Qed.

(** Two texts with the separator after a part without it are equal only
    when both halves are. *)
Lemma sep_inj c w1 w2 s1 s2 :
  has_byte c w1 = false → has_byte c w2 = false →
  w1 +:+ String c s1 = w2 +:+ String c s2 → w1 = w2 ∧ s1 = s2.
Proof.
  revert w2. induction w1 as [|a w1 IH]; intros w2 H1 H2 Heq.
  - destruct w2 as [|b w2]; [by simplify_eq|].
    rewrite app_cons_str in Heq. change ("" +:+ ?x) with x in Heq. simplify_eq.
    simpl in H2. by rewrite bool_decide_true in H2.
  - destruct w2 as [|b w2].
    + rewrite app_cons_str in Heq. change ("" +:+ ?x) with x in Heq. simplify_eq.
      simpl in H1. by rewrite bool_decide_true in H1.
    + rewrite !app_cons_str in Heq. simplify_eq. simpl in H1, H2.
      apply orb_false_iff in H1 as [_ H1], H2 as [_ H2].
      edestruct IH as [-> ->]; eauto.
Qed.

(** Itoa is injective and writes digits and a sign only. *)
Lemma Itoa_inj i j : Itoa i = Itoa j → i = j.
Proof. unfold Itoa. apply (inj pretty). Qed.

Lemma pretty_N_go_bytes c x s :
  (∀ d, pretty_N_char d ≠ c) → has_byte c (pretty_N_go x s) = has_byte c s.
Proof.
  intros Hc. revert s. induction (N.lt_wf_0 x) as [x _ IH]; intros s.
  assert (x = 0 ∨ 0 < x)%N as [->|Hx] by lia; [by rewrite pretty_N_go_0|].
  rewrite pretty_N_go_step, IH by (done || by apply N.div_lt).
  simpl. by rewrite bool_decide_false.
Qed.

Lemma Itoa_bytes c i : c ≠ "-"%char → (∀ d, pretty_N_char d ≠ c) → has_byte c (Itoa i) = false.
Proof.
  intros Hdash Hc. unfold Itoa.
  assert (∀ n : N, has_byte c (pretty n) = false) as HN.
  { intros n. unfold pretty, pretty_N. case_decide; [|by rewrite pretty_N_go_bytes].
    simpl. specialize (Hc 0%N). simpl in Hc. by rewrite bool_decide_false. }
  unfold pretty, pretty_Z. destruct i; [|apply HN|].
  - simpl. specialize (Hc 0%N). simpl in Hc. by rewrite bool_decide_false.
  - rewrite has_byte_app. simpl. rewrite bool_decide_false by done. apply HN.
Qed.

Lemma Itoa_no_colon i : has_byte ":" (Itoa i) = false.
Proof. apply Itoa_bytes; [done|]. intros d. unfold pretty_N_char. by repeat case_match. Qed.

Lemma Itoa_no_comma i : has_byte "," (Itoa i) = false.
Proof. apply Itoa_bytes; [done|]. intros d. unfold pretty_N_char. by repeat case_match. Qed.

(** sort.Strings returns the strings in order, and the order of the input
    does not matter. *)
Lemma sort_Strings_perm l : sort_Strings l ≡ₚ l.
Proof. apply merge_sort_Permutation. Qed.

Lemma sort_Strings_sorted l : Sorted String.le (sort_Strings l).
Proof. apply Sorted_merge_sort. apply _. Qed.

Lemma sort_Strings_unique l k : l ≡ₚ k → sort_Strings l = sort_Strings k.
Proof.
  intros Hp. apply (Sorted_unique String.le); try apply sort_Strings_sorted; try apply _.
  by rewrite !sort_Strings_perm.
Qed.

Lemma sort_Strings_eq_iff l k : sort_Strings l = sort_Strings k ↔ l ≡ₚ k.
Proof.
  split; [|apply sort_Strings_unique]. intros Heq.
  by rewrite <- (sort_Strings_perm l), <- (sort_Strings_perm k), Heq.
Qed.

Lemma sort_Strings_nil_iff l : sort_Strings l = [] ↔ l = [].
Proof.
  split; [|by intros ->]. intros Heq. apply Permutation_nil_r.
  by rewrite <- Heq, sort_Strings_perm.
Qed.
End string_lemmas.

#[export] Hint Resolve sort_Strings_perm sort_Strings_sorted : ccm.

(** ** Weakest preconditions

    [wp m Q s]: running [m] from [s] ends in a result and a state that
    satisfy [Q].  The rules below follow the structure of the code. *)
Definition wp {S A} (m : M S A) (Q : res A → S → Prop) (s : S) : Prop :=
  Q (m s).2 (m s).1.

(** How a result that is not a value is passed on. *)
Definition on_ok {S A B} (Q : res B → S → Prop) (K : A → S → Prop) (r : res A) (s : S) : Prop :=
  match r with
  | Ok a => K a s
  | Err e => Q (Err e) s
  | Panic p => Q (Panic p) s
  | Blocked => Q Blocked s
  end.

Section wp.
Context {S : Type}.
Implicit Types s : S.

Lemma wp_mono {A} (m : M S A) (Q Q' : res A → S → Prop) s :
  wp m Q s → (∀ r s', Q r s' → Q' r s') → wp m Q' s.
Proof. unfold wp. eauto. Qed.

(** The run itself, next to what is known of it. *)
Lemma wp_run {A} (m : M S A) (Q Q' : res A → S → Prop) s :
  wp m Q s → (∀ r s', m s = (s', r) → Q r s' → Q' r s') → wp m Q' s.
Proof. unfold wp. intros H HQ. by apply HQ; [apply surjective_pairing|]. Qed.

Lemma wp_and {A} (m : M S A) (Q Q' : res A → S → Prop) s :
  wp m Q s → wp m Q' s → wp m (λ r s', Q r s' ∧ Q' r s') s.
Proof. by unfold wp. Qed.

Lemma wp_ret {A} (a : A) (Q : res A → S → Prop) s : Q (Ok a) s → wp (mret a) Q s.
Proof. done. Qed.

Lemma wp_throw {A} e (Q : res A → S → Prop) s : Q (Err e) s → wp (throw e) Q s.
Proof. done. Qed.

Lemma wp_bind {A B} (m : M S A) (f : A → M S B) (Q : res B → S → Prop) s :
  wp m (on_ok Q (λ a, wp (f a) Q)) s → wp (m ≫= f) Q s.
Proof.
  unfold wp, mbind, M_bind. destruct (m s) as [s' []]; simpl; auto.
Qed.

(** A step of which only the fact that it ends matters. *)
Lemma wp_bind_any {A B} (m : M S A) (f : A → M S B) (Q : res B → S → Prop) s :
  (∀ r s', (∀ b, r ≠ Ok b) → Q r s') → (∀ a s', wp (f a) Q s') → wp (m ≫= f) Q s.
Proof.
  intros Hfail Hok. apply wp_bind. unfold wp at 1. destruct (m s) as [s' [a|e|p|]]; simpl; auto.
Qed.

Lemma wp_try {A} (m : M S A) (Q : res (error + A) → S → Prop) s :
  wp m (λ r s', match r with
                | Ok a => Q (Ok (inr a)) s'
                | Err e => Q (Ok (inl e)) s'
                | Panic p => Q (Panic p) s'
                | Blocked => Q Blocked s'
                end) s → wp (try m) Q s.
Proof. unfold wp, try. destruct (m s) as [s' []]; simpl; auto. Qed.

Lemma wp_wrap {A} (f : error → error) (m : M S A) (Q : res A → S → Prop) s :
  wp m (λ r s', match r with Err e => Q (Err (f e)) s' | _ => Q r s' end) s → wp (wrap f m) Q s.
Proof. unfold wp, wrap. destruct (m s) as [s' []]; simpl; auto. Qed.

Lemma wp_zoom {T A} (getT : S → T) (setT : T → S → S) (m : M T A) (Q : res A → S → Prop) s :
  wp m (λ r t, Q r (setT t s)) (getT s) → wp (zoom getT setT m) Q s.
Proof. unfold wp, zoom. by destruct (m (getT s)) as [t r]. Qed.

Lemma wp_for_each {A} (I : list A → S → Prop) (Q : res unit → S → Prop)
    (body : A → M S unit) (l : list A) s :
  I l s →
  (∀ x l' s', I (x :: l') s' → wp (body x) (on_ok Q (λ _, I l')) s') →
  (∀ s', I [] s' → Q (Ok tt) s') →
  wp (for_each l body) Q s.
Proof.
  intros HI Hbody Hend. revert s HI. induction l as [|x l IH]; intros s HI; simpl.
  - by apply wp_ret, Hend.
  - apply wp_bind. eapply wp_mono; [by apply Hbody|].
    intros [] s'; simpl; auto.
Qed.

(** A relation between states that every run of [m] respects. *)
Definition preserves (R : S → S → Prop) {A} (m : M S A) : Prop :=
  ∀ s, R s (m s).1.

Section preserves.
Context (R : S → S → Prop) `{!PreOrder R}.

Lemma preserves_ret {A} (a : A) : preserves R (mret a).
Proof. intros s. simpl. reflexivity. Qed.
Lemma preserves_throw {A} e : preserves R (throw (A:=A) e).
Proof. intros s. simpl. reflexivity. Qed.
Lemma preserves_panic {A} p : preserves R (panic (A:=A) p).
Proof. intros s. simpl. reflexivity. Qed.
Lemma preserves_block {A} : preserves R (block (A:=A)).
Proof. intros s. simpl. reflexivity. Qed.
Lemma preserves_gets {A} (f : S → A) : preserves R (gets f).
Proof. intros s. simpl. reflexivity. Qed.
Lemma preserves_get : preserves R get.
Proof. intros s. simpl. reflexivity. Qed.
Lemma preserves_of_sum {A} (x : error + A) : preserves R (of_sum x).
Proof. destruct x; [apply preserves_throw|apply preserves_ret]. Qed.
Lemma preserves_deref {A} (o : option A) : preserves R (deref o).
Proof. destruct o; [apply preserves_ret|apply preserves_panic]. Qed.
Lemma preserves_index {A} (l : list A) i : preserves R (index l i).
Proof. unfold index. destruct (l !! i); [apply preserves_ret|apply preserves_panic]. Qed.
Lemma preserves_bind {A B} (m : M S A) (f : A → M S B) :
  preserves R m → (∀ a, preserves R (f a)) → preserves R (m ≫= f).
Proof.
  intros Hm Hf s. unfold mbind, M_bind. pose proof (Hm s) as HR.
  destruct (m s) as [s' [a|e|p|]]; simpl in *; [|done..].
  etrans; [exact HR|apply Hf].
Qed.
Lemma preserves_try {A} (m : M S A) : preserves R m → preserves R (try m).
Proof. intros Hm s. unfold try. pose proof (Hm s). by destruct (m s) as [s' []]. Qed.
Lemma preserves_wrap {A} f (m : M S A) : preserves R m → preserves R (wrap f m).
Proof. intros Hm s. unfold wrap. pose proof (Hm s). by destruct (m s) as [s' []]. Qed.
Lemma preserves_for_each {A} (l : list A) (body : A → M S unit) :
  (∀ x, preserves R (body x)) → preserves R (for_each l body).
Proof.
  intros Hb. induction l as [|x l IH]; simpl; [apply preserves_ret|].
  apply preserves_bind; [apply Hb|done].
Qed.
Lemma preserves_wp {A} (m : M S A) s : preserves R m → wp m (λ _ s', R s s') s.
Proof. intros Hm. apply Hm. Qed.
End preserves.
End wp.

Lemma preserves_zoom {S T A} (R : S → S → Prop) (RT : T → T → Prop)
    (getT : S → T) (setT : T → S → S) (m : M T A) :
  (∀ s t, RT (getT s) t → R s (setT t s)) →
  preserves RT m → preserves R (zoom getT setT m).
Proof.
  intros HR Hm s. unfold zoom. pose proof (Hm (getT s)) as H.
  destruct (m (getT s)) as [t r]. simpl in *. auto.
Qed.

#[export] Hint Resolve preserves_ret preserves_throw preserves_panic preserves_block
  preserves_gets preserves_get preserves_of_sum preserves_deref preserves_index
  preserves_try preserves_wrap : ccm.

(** Walks through the code of a computation and closes the leaves with the
    hints of the database. *)
Ltac preserve :=
  repeat first
    [ progress intros
    | solve [eauto with ccm typeclass_instances]
    | apply preserves_bind; [try apply _| |]
    | apply preserves_for_each; [try apply _|]
    | apply preserves_try
    | apply preserves_wrap
    | case_goal ].

(** ** time.Timer *)

(** A timer runs towards its expiry or has none ahead of it; when it expires it
    puts an instant into its channel, which has room for one. *)
Record timer := { armed : bool; buffered : bool }.

Definition NewTimer : timer := {| armed := true; buffered := false |}.
Definition Timer_Reset (t : timer) : timer := {| armed := true; buffered := buffered t |}.
(** The result says whether the call stopped the timer before its expiry; the
    channel is not emptied. *)
Definition Timer_Stop (t : timer) : bool * timer :=
  (armed t, {| armed := false; buffered := buffered t |}).
Definition expire (t : timer) : timer :=
  if armed t then {| armed := false; buffered := true |} else t.

(** [<-t.C]: waits for the expiry when there is one ahead; [None] when it waits
    for ever. *)
Definition receive (t : timer) : option timer :=
  if buffered t then Some {| armed := armed t; buffered := false |}
  else if armed t then Some {| armed := false; buffered := false |}
  else None.

Lemma receive_Reset t : is_Some (receive (Timer_Reset t)).
Proof. unfold receive. simpl. case_goal; eauto. Qed.
