(* ===== verification/Kube.v ===== *)
(** * Kubernetes objects

    The fields of the Kubernetes API types that the sources read or write.
    The types belong to k8s.io/api; only data is declared here. *)
From stdpp Require Import base list strings gmap.
From S2P Require Import Prelude GoStd.

(** metav1.ObjectMeta.  [Labels] is written by the code, so a nil map is told
    apart from an empty one; [Annotations] is only read. *)
Record ObjectMeta := {
  Name : string;
  Namespace : string;
  Labels : option (gmap string string);
  Annotations : gmap string string;
}.

(** intstr.IntOrString. *)
Inductive IntOrString :=
  | FromInt (i : Z)
  | FromString (s : string).

(** IntValue: the number, or the number the string spells, or 0. *)
Definition IntValue (t : IntOrString) : Z :=
  match t with FromInt i => i | FromString s => default 0%Z (Atoi s) end.

Definition IntOrString_String (t : IntOrString) : string :=
  match t with FromInt i => Itoa i | FromString s => s end.

Definition ProtocolTCP : string := "TCP".
Definition ProtocolUDP : string := "UDP".

Record ServicePort := {
  sp_Name : string;
  sp_Protocol : string;
  sp_Port : Z;             (* int32 *)
  sp_TargetPort : IntOrString;
  sp_NodePort : Z;         (* int32 *)
}.

Record LoadBalancerIngress := { ing_IP : string; ing_Hostname : string }.

Record Service := {
  svc_meta : ObjectMeta;
  Ports : list ServicePort;
  SessionAffinity : string;
  LoadBalancerIP : string;
  Ingress : list LoadBalancerIngress;   (* Status.LoadBalancer.Ingress *)
}.

Record LoadBalancerStatus := { st_Ingress : list LoadBalancerIngress }.

Record Node := { node_meta : ObjectMeta; ProviderID : string }.

Record EndpointAddress := { NodeName : option string }.
Record EndpointPort := { ep_Name : string; ep_Port : Z }.
Record EndpointSubset := { Addresses : list EndpointAddress; ep_Ports : list EndpointPort }.
Record Endpoints := { ep_meta : ObjectMeta; Subsets : list EndpointSubset }.

Inductive NodeAddressType := NodeHostName | NodeInternalIP | NodeExternalIP.
Record NodeAddress := { addr_Type : NodeAddressType; Address : string }.

Record Zone := { FailureDomain : string; Region : string }.

#[export] Instance IntOrString_eq_dec : EqDecision IntOrString.
Proof. solve_decision. Defined.
#[export] Instance ServicePort_eq_dec : EqDecision ServicePort.
Proof. solve_decision. Defined.
#[export] Instance Ingress_eq_dec : EqDecision LoadBalancerIngress.
Proof. solve_decision. Defined.
#[export] Instance ObjectMeta_eq_dec : EqDecision ObjectMeta.
Proof. solve_decision. Defined.
#[export] Instance Service_eq_dec : EqDecision Service.
Proof. solve_decision. Defined.
#[export] Instance Node_eq_dec : EqDecision Node.
Proof. solve_decision. Defined.
#[export] Instance NodeAddressType_eq_dec : EqDecision NodeAddressType.
Proof. solve_decision. Defined.
#[export] Instance NodeAddress_eq_dec : EqDecision NodeAddress.
Proof. solve_decision. Defined.

(** Reading a possibly nil map of strings: a missing key gives "". *)
Definition map_get (m : gmap string string) (k : string) : string := default "" (m !! k).
Definition labels (o : ObjectMeta) : gmap string string := default ∅ (Labels o).

Definition svc_Name (s : Service) : string := Name (svc_meta s).
Definition svc_Namespace (s : Service) : string := Namespace (svc_meta s).

(** The services of the cluster are told apart by namespace and name
    (serviceKey in servicelock.go). *)
Record serviceKey := { namespace : string; name : string }.

#[export] Instance serviceKey_eq_dec : EqDecision serviceKey.
Proof. solve_decision. Defined.
#[export] Program Instance serviceKey_countable : Countable serviceKey :=
  inj_countable' (λ k, (namespace k, name k)) (λ p, {| namespace := p.1; name := p.2 |}) _.
Next Obligation. by intros []. Qed.

Definition svcKey (svc : Service) : serviceKey :=
  {| namespace := svc_Namespace svc; name := svc_Name svc |}.
