(* ===== verification/Cloud.v ===== *)
(** * The world outside the repository

    The CloudStack client library, the Kubernetes client, the VM cache, the
    rate limiter, DNS, the clock and the environment are not code of the
    repository: the development quantifies over them.  [ev A] is the type of
    the calls the code makes to them, with the type of the answer; an
    implementation is an instance of [Cloud], a function from a call and a
    state [W] of the world to the next state and the answer.  The state of a
    computation also keeps the log of the calls made so far, so that theorems
    can speak of what the code asked of CloudStack, whatever it answers. *)
From stdpp Require Import base list strings gmap.
From S2P Require Import Prelude GoStd Kube.

(** ** Values exchanged with CloudStack *)

(** Values that CustomServiceParams.SetParam is given. *)
Inductive pval :=
  | PStr (s : string)
  | PBool (b : bool)
  | PInt (i : Z)
  | PList (l : list string).

Abbreviation params := (gmap string pval).

Record Tags := { Key : string; Value : string }.

Record PublicIpAddress := {
  ip_Id : string; Ipaddress : string; ip_Networkid : string; ip_Tags : list Tags;
}.

Record Nic := { nic_Networkid : string; nic_Ipaddress : string }.

Record VirtualMachine := {
  vm_Id : string; vm_Name : string; Hostname : string; vm_Nic : list Nic;
  vm_Publicip : string; Zonename : string; vm_State : string;
  Serviceofferingid : string; Serviceofferingname : string;
}.

Record Network := { net_Id : string; Vpcid : string }.

(** cloudstack.LoadBalancerRule and the [AdditionalPortMap] that
    loadbalancer.go adds to it (type loadBalancerRule). *)
Record loadBalancerRule := {
  lbr_Id : string; lbr_Name : string; lbr_Algorithm : string; lbr_Cidrlist : string;
  lbr_Networkid : string; Privateport : string; Publicport : string;
  Publicip : string; Publicipid : string; Zoneid : string; lbr_Protocol : string;
  lbr_Tags : list Tags;
  AdditionalPortMap : list string;
}.

Record globoNetworkPool := {
  pool_Port : Z; VipPort : Z; HealthCheckType : string; HealthCheck : string;
  HealthCheckExpected : string; pool_Id : Z;
}.

Record AssociateIpAddressResponse := {
  as_Id : string; as_Ipaddress : string; as_Networkid : string; as_JobID : string;
}.

Record CreateLoadBalancerRuleResponse := {
  cr_Id : string; cr_Algorithm : string; cr_Cidrlist : string; cr_Name : string;
  cr_Networkid : string; cr_Privateport : string; cr_Publicport : string;
  cr_Publicip : string; cr_Publicipid : string; cr_Zoneid : string;
  cr_Protocol : string; cr_JobID : string;
}.

Record UpdateGloboNetworkPoolResponse := { pu_JobID : string; Jobstatus : Z }.

#[export] Instance pval_eq_dec : EqDecision pval. Proof. solve_decision. Defined.
#[export] Instance Tags_eq_dec : EqDecision Tags. Proof. solve_decision. Defined.
#[export] Instance PublicIp_eq_dec : EqDecision PublicIpAddress. Proof. solve_decision. Defined.
#[export] Instance Nic_eq_dec : EqDecision Nic. Proof. solve_decision. Defined.
#[export] Instance VM_eq_dec : EqDecision VirtualMachine. Proof. solve_decision. Defined.
#[export] Instance rule_eq_dec : EqDecision loadBalancerRule. Proof. solve_decision. Defined.
#[export] Instance pool_eq_dec : EqDecision globoNetworkPool. Proof. solve_decision. Defined.

(** ** Result structures

    CustomRequest and the wait for an asynchronous job fill in a structure the
    caller passes by pointer.  [rkind] names the structures the code passes. *)
Inductive rkind :=
  | KListRules | KAssociate | KDisassociate | KCreateRule | KDeleteRule
  | KListPools | KUpdatePool | KJob.

Definition rtype (k : rkind) : Type :=
  match k with
  | KListRules => Z * list loadBalancerRule       (* Count, LoadBalancerRules *)
  | KAssociate => AssociateIpAddressResponse
  | KCreateRule => CreateLoadBalancerRuleResponse
  | KListPools => Z * list globoNetworkPool       (* Count, GloboNetworkPools *)
  | KUpdatePool => UpdateGloboNetworkPoolResponse
  | KDisassociate | KDeleteRule | KJob => string  (* JobID *)
  end.

(** The zero value of each structure. *)
Definition rzero (k : rkind) : rtype k :=
  match k with
  | KListRules => (0%Z, [])
  | KAssociate => {| as_Id := ""; as_Ipaddress := ""; as_Networkid := ""; as_JobID := "" |}
  | KCreateRule => Build_CreateLoadBalancerRuleResponse "" "" "" "" "" "" "" "" "" "" "" ""
  | KListPools => (0%Z, [])
  | KUpdatePool => {| pu_JobID := ""; Jobstatus := 0 |}
  | KDisassociate | KDeleteRule | KJob => ""
  end.

(** JSON documents (json.RawMessage). *)
#[warnings="-register-all"]
Inductive json :=
  | JNull
  | JBool (b : bool)
  | JNum (z : Z)
  | JStr (s : string)
  | JArr (l : list json)
  | JObj (fields : list (string * json)).

(** ** Calls *)

(** A CloudStack client, by the arguments of NewAsyncClient. *)
Record client := {
  apiURL : string; apiKey : string; secretKey : string; verifySSL : bool;
}.
#[export] Instance client_eq_dec : EqDecision client. Proof. solve_decision. Defined.

(** The query parameters of the typed list calls; [None] when not set. *)
Record ListPublicIpAddressesParams := {
  lp_Id : option string; lp_Ipaddress : option string; lp_Listall : option bool;
  lp_Tags : option (gmap string string); lp_Projectid : option string;
  lp_Page : option Z; lp_Pagesize : option Z;
}.
Definition NewListPublicIpAddressesParams : ListPublicIpAddressesParams :=
  Build_ListPublicIpAddressesParams None None None None None None None.

Record ListLoadBalancerRuleInstancesParams := {
  li_Id : string; li_Page : option Z; li_Pagesize : option Z;
}.

(** The answer of a list call: the count of all matches and one page. *)
Record page (A : Type) := { Count : Z; Items : list A }.
Arguments Count {A} _.
Arguments Items {A} _.
Arguments Build_page {A} _ _.

(** The answer of a Get…ByID or Get…ByName call: object, count and error. *)
Record got (A : Type) := { g_obj : option A; g_count : Z; g_err : option error }.
Arguments g_obj {A} _.
Arguments g_count {A} _.
Arguments g_err {A} _.
Arguments Build_got {A} _ _ _.

Inductive ev : Type → Type :=
  (* CloudStack *)
  | CustomRequest (c : client) (cmd : string) (p : params) (k : rkind) (r : rtype k) :
      ev (error + rtype k)
  | GetAsyncJobResult (c : client) (jobid : string) (timeout : Z) : ev (error + json)
  | ListPublicIpAddresses (c : client) (p : ListPublicIpAddressesParams) :
      ev (error + page PublicIpAddress)
  | ListLoadBalancerRuleInstances (c : client) (p : ListLoadBalancerRuleInstancesParams) :
      ev (error + page VirtualMachine)
  | ListVirtualMachines (c : client) (name : string) (projectid : option string) :
      ev (error + list VirtualMachine)
  | GetVirtualMachineByID (c : client) (id : string) (project : string) : ev (got VirtualMachine)
  | GetVirtualMachineByName (c : client) (name : string) (project : string) : ev (got VirtualMachine)
  | GetNetworkByID (c : client) (id : string) (project : string) : ev (got Network)
  | UpdateLoadBalancerRule (c : client) (id : string) (algorithm : string) : ev (error + unit)
  | AssignToLoadBalancerRule (c : client) (id : string) (vms : list string) : ev (error + unit)
  | RemoveFromLoadBalancerRule (c : client) (id : string) (vms : list string) : ev (error + unit)
  | CreateTags (c : client) (ids : list string) (resource : string) (tags : gmap string string) :
      ev (error + unit)
  (* Kubernetes *)
  | PatchService (ns name : string) (patch : string) : ev (error + unit)
  | GetEndpoints (ns name : string) : ev (error + Endpoints)
  | GetNode (name : string) : ev (error + Node)
  | RecordEvent (svc : Service) (warning : bool) (reason : string) : ev unit
  (* VM cache of a manager (ristretto) *)
  | CacheGet (c : client) (key : string) : ev (option VirtualMachine)
  | CacheSet (c : client) (key : string) (vm : VirtualMachine) : ev unit
  (* rate limiter of the queue (workqueue) *)
  | RateLimiterWhen (k : serviceKey) : ev Z
  | RateLimiterForget (k : serviceKey) : ev unit
  (* operating system *)
  | Now : ev Z
  | LookupAddr (addr : string) : ev (list string)
  | LookupHost (host : string) : ev (list string)
  | Getenv (var : string) : ev string
  (* ristretto.NewCache for the manager of a client *)
  | NewCache (c : client) : ev (option error).

(** An implementation of the outside world.  [shuffle] chooses the order in
    which Go iterates over a map each time it does; [Unmarshal] is the decoding
    of a JSON document into one of the client library's structures, over the
    value it holds already. *)
Class Cloud (W : Type) := {
  exec : ∀ {A}, ev A → W → W * A;
  shuffle : ∀ {A}, list A → W → W * list A;
  shuffle_perm : ∀ {A} (l : list A) w, (shuffle l w).2 ≡ₚ l;
  Unmarshal : ∀ k, json → rtype k → rtype k * option error;
}.

(** ** Computations that call the world *)

Definition event : Type := { A : Type & ev A }.
Definition Ev {A} (e : ev A) : event := existT A e.

Record env (W : Type) := Env { ew : W; elog : list event }.
Arguments Env {W} _ _.
Arguments ew {W} _.
Arguments elog {W} _.

Section calls.
Context {W} `{!Cloud W}.

Definition call {A} (e : ev A) : M (env W) A := λ s,
  let '(w, a) := exec e (ew s) in (Env w (elog s ++ [Ev e]), Ok a).

(** A call whose answer is a value or an error: the error is returned. *)
Definition call_err {A} (e : ev (error + A)) : M (env W) A :=
  r ← call e; of_sum r.

(** [for k, v := range m]: the entries in the order Go picks. *)
Definition range {A} (l : list A) : M (env W) (list A) := λ s,
  let '(w, l') := shuffle l (ew s) in (Env w (elog s), Ok l').
End calls.

(** ** The log *)

(** Does the call change the state of CloudStack?  A custom request does
    unless its command is one of the two list commands of the sources. *)
Definition changes_cloud (e : event) : bool :=
  match projT2 e with
  | CustomRequest _ cmd _ _ _ =>
      negb (bool_decide (cmd ∈ ["listLoadBalancerRules"; "listGloboNetworkPools"]))
  | UpdateLoadBalancerRule _ _ _ | AssignToLoadBalancerRule _ _ _
  | RemoveFromLoadBalancerRule _ _ _ | CreateTags _ _ _ _ => true
  | _ => false
  end.

(** A call that only reads from CloudStack and Kubernetes. *)
Definition reads_only (e : event) : Prop :=
  changes_cloud e = false ∧
  match projT2 e with
  | PatchService _ _ _ | RecordEvent _ _ _ => False
  | CustomRequest _ _ _ k _ => match k with KListRules | KListPools => True | _ => False end
  | _ => True
  end.

(** [logs P]: the log of the second state extends the one of the first by
    calls that satisfy [P]. *)
Definition logs {W} (P : event → Prop) (s s' : env W) : Prop :=
  ∃ l, elog s' = elog s ++ l ∧ Forall P l.

#[export] Instance logs_preorder {W} (P : event → Prop) : PreOrder (@logs W P).
Proof.
  split.
  - intros s. exists []. by rewrite app_nil_r.
  - intros s1 s2 s3 [l1 [H1 F1]] [l2 [H2 F2]]. exists (l1 ++ l2).
    split; [by rewrite H2, H1, app_assoc|by apply Forall_app].
Qed.

Lemma logs_mono {W} (P Q : event → Prop) (s s' : env W) :
  (∀ e, P e → Q e) → logs P s s' → logs Q s s'.
Proof. intros HPQ [l [Hl HF]]. exists l. split; [done|]. by eapply Forall_impl. Qed.

#[export] Hint Extern 1 (reads_only _) => (by split) : ccm.

Lemma logs_call {W} (P : event → Prop) (w : W) (s : env W) e :
  P e → logs P s (Env w (elog s ++ [e])).
Proof. intros HP. exists [e]. split; [done|]. by apply Forall_singleton. Qed.

Lemma logs_refl {W} (P : event → Prop) (s : env W) : logs P s s.
Proof. reflexivity. Qed.

#[export] Hint Resolve logs_call logs_refl : ccm.

Section log_rules.
Context {W} `{!Cloud W}.

Lemma wp_call {A} (e : ev A) (Q : res A → env W → Prop) s :
  (∀ w a, exec e (ew s) = (w, a) → Q (Ok a) (Env w (elog s ++ [Ev e]))) →
  wp (call e) Q s.
Proof. intros H. unfold wp, call. destruct (exec e (ew s)) as [w a]. by apply H. Qed.

Lemma wp_call_err {A} (e : ev (error + A)) (Q : res A → env W → Prop) s :
  (∀ w err, exec e (ew s) = (w, inl err) → Q (Err err) (Env w (elog s ++ [Ev e]))) →
  (∀ w a, exec e (ew s) = (w, inr a) → Q (Ok a) (Env w (elog s ++ [Ev e]))) →
  wp (call_err e) Q s.
Proof.
  intros Herr Hok. unfold call_err. apply wp_bind, wp_call. intros w [err|a] He; simpl.
  - by apply wp_throw, Herr.
  - by apply wp_ret, Hok.
Qed.

Lemma wp_range {A} (l : list A) (Q : res (list A) → env W → Prop) s :
  (∀ w l', l' ≡ₚ l → Q (Ok l') (Env w (elog s))) → wp (range l) Q s.
Proof.
  intros H. unfold wp, range. pose proof (shuffle_perm l (ew s)) as Hp.
  destruct (shuffle l (ew s)) as [w l']. simpl in *. by apply H.
Qed.

Lemma preserves_call {A} (P : event → Prop) (e : ev A) :
  P (Ev e) → preserves (logs P) (call e).
Proof.
  intros HP s. unfold call. destruct (exec e (ew s)) as [w a]. simpl.
  exists [Ev e]. split; [done|]. by apply Forall_singleton.
Qed.

Lemma preserves_call_err {A} (P : event → Prop) (e : ev (error + A)) :
  P (Ev e) → preserves (logs P) (call_err e).
Proof.
  intros HP. apply preserves_bind; [apply _|by apply preserves_call|].
  intros a. apply preserves_of_sum. apply _.
Qed.

Lemma preserves_range {A} (P : event → Prop) (l : list A) : preserves (logs P) (range l).
Proof.
  intros s. unfold range. destruct (shuffle l (ew s)) as [w l']. simpl.
  exists []. by rewrite app_nil_r.
Qed.
End log_rules.

#[export] Hint Resolve preserves_call preserves_call_err preserves_range : ccm.


(** ** Replaying calls

    The world after some calls were made one after the other, with no choice of
    the runtime in between: what the next call is answered there is what the code
    saw. *)
Section replay.
Context {W} `{!Cloud W}.

Definition replay (l : list event) (w : W) : W := foldl (λ w e, (exec (projT2 e) w).1) w l.

Lemma replay_snoc {A} (e : ev A) l w : replay (l ++ [Ev e]) w = (exec e (replay l w)).1.
Proof. unfold replay. by rewrite foldl_app. Qed.
End replay.

(** ** Worlds without state

    For concrete runs: a world that answers every call by a function, iterates
    over maps in the order of their entries, and decodes nothing. *)
Definition oracle (answer : ∀ A, ev A → A) : Cloud unit := {|
  exec A e w := (w, answer A e);
  shuffle A l w := (w, l);
  shuffle_perm A l w := reflexivity l;
  Unmarshal k j r := (r, None);
|}.

(** Every call fails, every lookup misses. *)
Definition no_answer {A} (e : ev A) : A :=
  let err := ApiError "no answer" in
  match e in ev A return A with
  | CustomRequest _ _ _ _ _ => inl err
  | GetAsyncJobResult _ _ _ => inl err
  | ListPublicIpAddresses _ _ => inl err
  | ListLoadBalancerRuleInstances _ _ => inl err
  | ListVirtualMachines _ _ _ => inl err
  | GetVirtualMachineByID _ _ _ => Build_got None (-1)%Z (Some err)
  | GetVirtualMachineByName _ _ _ => Build_got None (-1)%Z (Some err)
  | GetNetworkByID _ _ _ => Build_got None (-1)%Z (Some err)
  | UpdateLoadBalancerRule _ _ _ => inl err
  | AssignToLoadBalancerRule _ _ _ => inl err
  | RemoveFromLoadBalancerRule _ _ _ => inl err
  | CreateTags _ _ _ _ => inl err
  | PatchService _ _ _ => inl err
  | GetEndpoints _ _ => inl err
  | GetNode _ => inl err
  | RecordEvent _ _ _ => tt
  | CacheGet _ _ => None
  | CacheSet _ _ _ => tt
  | RateLimiterWhen _ => 0%Z
  | RateLimiterForget _ => tt
  | Now => 0%Z
  | LookupAddr _ => []
  | LookupHost _ => []
  | Getenv _ => ""
  | NewCache _ => None
  end.
