(* ===== verification/Config.v ===== *)
(** * Configuration and start-up (cloudstack.go)

    The configuration records, reading them, building the provider with one
    client and one manager per environment, and the capability getters. *)
From stdpp Require Import base list strings gmap.
From S2P Require Import Prelude GoStd Kube Cloud.

Definition ProviderName : string := "custom-cloudstack".

(** [asyncJobWaitTimeout]: five minutes in seconds. *)
Definition asyncJobWaitTimeout : Z := 5 * 60.

Record globalConfig := {
  ServiceFilterLabel : string;
  NodeFilterLabel : string;
  NodeNameLabel : string;
  ProjectIDLabel : string;
  EnvironmentLabel : string;
  InternalIPIndex : Z;
  ExternalIPIndex : Z;
  UpdateLBWorkers : Z;
}.

Record environmentConfig := {
  APIURL : string;
  APIKey : string;
  SecretKey : string;
  LBEnvironmentID : string;
  LBDomain : string;
  ProjectID : string;
  SSLNoVerify : bool;
  RemoveLBs : bool;
}.

Record commandConfig := {
  AssociateIP : string;
  DisassociateIP : string;
  AssignNetworks : string;
  DeleteLBRule : string;
}.

(** [Names] and [Idx] come from gcfg.Idxer: the declared names, and the index
    of a name, which the model takes to be the name itself. *)
Record commandArgsConfig := {
  Names : list string;
  Vals : gmap string (option string);
}.

Record CSConfig := {
  Global : globalConfig;
  Environment : gmap string environmentConfig;
  Command : commandConfig;
  CommandArgs : gmap string commandArgsConfig;
}.

(** ToMap on a possibly nil receiver: the declared names that have a value. *)
Definition ToMap (c : option commandArgsConfig) : gmap string string :=
  match c with
  | None => ∅
  | Some c =>
      foldl (λ result k,
        match Vals c !! k with
        | Some (Some value) => <[k := value]> result
        | _ => result
        end) ∅ (Names c)
  end.

(** The manager of an environment is known by its client (helpers.go). *)
Record cloudstackManager := { mgr_client : client }.

Record CSEnvironment := {
  env_client : option client;
  env_manager : option cloudstackManager;
  lbEnvironmentID : string;
  lbDomain : string;
  removeLBs : bool;
}.

(** The zero CSEnvironment, read from the map for an unknown name. *)
Definition no_environment : CSEnvironment :=
  {| env_client := None; env_manager := None; lbEnvironmentID := "";
     lbDomain := ""; removeLBs := false |}.

(** The part of CSCloud that does not change after start-up; the node registry,
    the queue and the service lock are the state of the files Nodes, Queue and
    ServiceLock. *)
Record CSCloud := {
  environments : gmap string CSEnvironment;
  config : CSConfig;
}.

(** [cs.environments[name]]. *)
Definition environment_of (cs : CSCloud) (name : string) : CSEnvironment :=
  default no_environment (environments cs !! name).

Definition zero_config : CSConfig :=
  {| Global := Build_globalConfig "" "" "" "" "" 0 0 0; Environment := ∅;
     Command := Build_commandConfig "" "" "" ""; CommandArgs := ∅ |}.

Section startup.
Context {W} `{!Cloud W}.

(** gcfg.ReadInto: parses the text of the configuration file. *)
Context (ReadInto : string → error + CSConfig).

(** [if field == "" { field = os.Getenv(...) }] *)
Definition or_env (value var : string) : M (env W) string :=
  if decide (value = "") then call (Getenv var) else mret value.

Definition environment_from_env (k : string) (v : environmentConfig) :
    M (env W) environmentConfig :=
  url ← or_env (APIURL v) ("CLOUDSTACK_" +:+ ToUpper k +:+ "_API_URL");
  key ← or_env (APIKey v) ("CLOUDSTACK_" +:+ ToUpper k +:+ "_API_KEY");
  secret ← or_env (SecretKey v) ("CLOUDSTACK_" +:+ ToUpper k +:+ "_SECRET_KEY");
  mret {| APIURL := url; APIKey := key; SecretKey := secret;
          LBEnvironmentID := LBEnvironmentID v; LBDomain := LBDomain v;
          ProjectID := ProjectID v; SSLNoVerify := SSLNoVerify v;
          RemoveLBs := RemoveLBs v |}.

Fixpoint environments_from_env (l : list (string * environmentConfig))
    (acc : gmap string environmentConfig) : M (env W) (gmap string environmentConfig) :=
  match l with
  | [] => mret acc
  | (k, v) :: l =>
      v' ← environment_from_env k v; environments_from_env l (<[k := v']> acc)
  end.

Definition readConfig (reader : option string) : M (env W) CSConfig :=
  match reader with
  | None => mret zero_config
  | Some text =>
      match ReadInto text with
      | inl err => throw (Errorf "could not parse cloud provider config: %v" [Error err])
      | inr cfg =>
          l ← range (map_to_list (Environment cfg));
          envs ← environments_from_env l (Environment cfg);
          mret {| Global := Global cfg; Environment := envs;
                  Command := Command cfg; CommandArgs := CommandArgs cfg |}
      end
  end.

(** newCloudstackManager (helpers.go): the manager keeps the client and a
    fresh cache. *)
Definition newCloudstackManager (c : client) : M (env W) cloudstackManager :=
  err ← call (NewCache c);
  match err with
  | Some e => throw e
  | None => mret {| mgr_client := c |}
  end.

Fixpoint newEnvironments (l : list (string * environmentConfig))
    (acc : gmap string CSEnvironment) : M (env W) (gmap string CSEnvironment) :=
  match l with
  | [] => mret acc
  | (k, v) :: l =>
      if decide (APIURL v = "" ∨ APIKey v = "" ∨ SecretKey v = "") then
        throw (Errorf "missing credentials for environment %q" [k])
      else
        let csCli := {| apiURL := APIURL v; apiKey := APIKey v;
                        secretKey := SecretKey v; verifySSL := negb (SSLNoVerify v) |} in
        manager ← newCloudstackManager csCli;
        newEnvironments l
          (<[k := {| env_client := Some csCli; env_manager := Some manager;
                     lbEnvironmentID := LBEnvironmentID v; lbDomain := LBDomain v;
                     removeLBs := RemoveLBs v |}]> acc)
  end.

Definition newCSCloud (cfg : CSConfig) : M (env W) CSCloud :=
  l ← range (map_to_list (Environment cfg));
  envs ← newEnvironments l ∅;
  mret {| environments := envs; config := cfg |}.

(** The factory registered under [ProviderName] by init(). *)
Definition provider_factory (reader : option string) : M (env W) CSCloud :=
  cfg ← readConfig reader; newCSCloud cfg.
End startup.

(** ** Capability getters of the cloud provider interface *)

(** [(cs, true)] when there is at least one environment, else [(nil, false)]. *)
Definition when_configured (cs : CSCloud) : option CSCloud :=
  if decide (size (environments cs) = 0) then None else Some cs.
Definition LoadBalancer (cs : CSCloud) : option CSCloud := when_configured cs.
Definition Instances (cs : CSCloud) : option CSCloud := when_configured cs.
Definition Zones (cs : CSCloud) : option CSCloud := when_configured cs.
Definition Clusters (cs : CSCloud) : option CSCloud := None.
Definition Routes (cs : CSCloud) : option CSCloud := None.
Definition CSCloud_ProviderName (cs : CSCloud) : string := ProviderName.
Definition HasClusterID (cs : CSCloud) : bool := true.

(** ** What start-up builds *)

Definition has_credentials (v : environmentConfig) : Prop :=
  APIURL v ≠ "" ∧ APIKey v ≠ "" ∧ SecretKey v ≠ "".

(** The environment a configuration section stands for. *)
Definition environment_for (v : environmentConfig) : CSEnvironment :=
  let c := {| apiURL := APIURL v; apiKey := APIKey v; secretKey := SecretKey v;
              verifySSL := negb (SSLNoVerify v) |} in
  {| env_client := Some c; env_manager := Some {| mgr_client := c |};
     lbEnvironmentID := LBEnvironmentID v; lbDomain := LBDomain v;
     removeLBs := RemoveLBs v |}.

Section startup_facts.
Context {W} `{!Cloud W}.

(** Where an error of the loop comes from. *)
Definition startup_error (l : list (string * environmentConfig)) (e : error) : Prop :=
  (∃ k v, (k, v) ∈ l ∧ ¬ has_credentials v ∧
          e = Errorf "missing credentials for environment %q" [k]) ∨
  (∃ c w, (exec (NewCache c) w).2 = Some e).

Lemma newEnvironments_spec l acc (s : env W) :
  NoDup (l.*1) →
  wp (newEnvironments l acc) (λ r _,
    match r with
    | Ok envs =>
        (∀ k v, (k, v) ∈ l → has_credentials v ∧ envs !! k = Some (environment_for v)) ∧
        (∀ k, k ∉ l.*1 → envs !! k = acc !! k)
    | Err e => startup_error l e
    | _ => False
    end) s.
Proof.
  revert acc s. induction l as [|[k v] l IH]; intros acc s Hnd; simpl.
  - apply wp_ret. split; [set_solver|done].
  - apply NoDup_cons in Hnd as [Hk Hnd]. case_decide as Hcred.
    { apply wp_throw. left. exists k, v. unfold has_credentials. set_solver by tauto. }
    apply wp_bind. unfold newCloudstackManager. apply wp_bind, wp_call.
    intros w [err|] Hw; simpl.
    { apply wp_throw. simpl. right. eexists _, _. by rewrite Hw. }
    apply wp_ret. simpl. eapply wp_mono; [by apply IH|].
    intros [envs|e|p|] _; [|..|done|done].
    + intros [Hin Hout]. split.
      * intros k' v' [[= -> ->]|Hin']%elem_of_cons; [|by apply Hin].
        split; [by unfold has_credentials; tauto|].
        rewrite Hout by done. by rewrite lookup_insert_eq.
      * intros k' Hk'. rewrite Hout by set_solver. apply lookup_insert_ne. set_solver.
    + intros [(k'&v'&Hin&?)|?]; [left|by right]. exists k', v'. by split; [right|].
Qed.

(** Start-up succeeds only when every environment section has an API
    URL, an API key and a secret key, and then the provider has exactly one
    environment per section, with that section's client, manager, domain,
    identifier and removal flag, in whatever order the sections are visited.
    It fails only because a section lacks credentials or because the VM cache
    of a client cannot be created, and it never panics or blocks. *)
Theorem newCSCloud_environments (cfg : CSConfig) (s : env W) :
  wp (newCSCloud cfg) (λ r _,
    match r with
    | Ok cs => map_Forall (λ _ v, has_credentials v) (Environment cfg) ∧
               environments cs = environment_for <$> Environment cfg ∧ config cs = cfg
    | Err e => startup_error (map_to_list (Environment cfg)) e
    | _ => False
    end) s.
Proof.
  unfold newCSCloud. apply wp_bind, wp_range. intros w l Hl. simpl. apply wp_bind.
  assert (NoDup l.*1) as Hnd by (rewrite Hl; apply NoDup_fst_map_to_list).
  assert (∀ k v, (k, v) ∈ l ↔ (k, v) ∈ map_to_list (Environment cfg)) as Hmem by (by intros; rewrite Hl).
  eapply wp_mono; [by apply newEnvironments_spec|].
  intros [envs|e|p|] s' Hr; simpl; [|..|done|done].
  - apply wp_ret. destruct Hr as [Hin Hout]. setoid_rewrite elem_of_map_to_list in Hmem.
    split_and!; [|simpl|done].
    + intros k v Hv. by apply (Hin k v), Hmem.
    + apply map_eq. intros k. rewrite lookup_fmap.
      destruct (Environment cfg !! k) as [v|] eqn:Hv; simpl; [by apply (Hin k v), Hmem|].
      rewrite Hout; [apply lookup_empty|].
      intros [[k' v'] [-> Hk']]%list_elem_of_fmap. apply Hmem in Hk'. simpl in Hv. congruence.
  - destruct Hr as [(k&v&Hin&?)|?]; [left|by right]. exists k, v. by rewrite <- Hmem.
Qed.
End startup_facts.
