(* ===== verification/Meta.v ===== *)
(** * Labels, environments, projects and names

    The functions of instances.go and loadbalancer.go that read what a
    Kubernetes object says about its environment, its CloudStack project and
    the name of its load balancer. *)
From stdpp Require Import base list strings gmap.
From S2P Require Import Prelude GoStd Kube Cloud Config.

(** ** Definitions *)

(** A label wins over an annotation; the empty name is never found. *)
Definition getLabelOrAnnotation (obj : ObjectMeta) (name : string) : option string :=
  if decide (name = "") then None
  else match labels obj !! name with
       | Some n => Some n
       | None => Annotations obj !! name
       end.

(** The value alone, "" when there is none ([v, _ := getLabelOrAnnotation]). *)
Definition label_value (obj : ObjectMeta) (name : string) : string :=
  default "" (getLabelOrAnnotation obj name).

Definition has_label (obj : ObjectMeta) (name : string) : bool :=
  bool_decide (is_Some (getLabelOrAnnotation obj name)).

Definition environmentForMeta (cs : CSCloud) (meta : ObjectMeta) : string :=
  let environment := label_value meta (EnvironmentLabel (Global (config cs))) in
  if decide (environment = "" ∧ size (environments cs) = 1) then
    (* [for k := range cs.environments { environment = k }] *)
    foldl (λ _ k, k) environment (map_to_list (environments cs)).*1
  else environment.

Definition projectForMeta (cs : CSCloud) (meta : ObjectMeta) (environment : string) :
    error + string :=
  match getLabelOrAnnotation meta (ProjectIDLabel (Global (config cs))) with
  | Some projectID => inr projectID
  | None =>
      let projectID :=
        match Environment (config cs) !! environment with
        | Some envConfig => ProjectID envConfig
        | None => ""
        end in
      if decide (projectID = "") then inl (Errorf "no projectID found" []) else inr projectID
  end.

(** [project, _ := cs.projectForMeta(...)] *)
Definition project_value (cs : CSCloud) (meta : ObjectMeta) (environment : string) : string :=
  match projectForMeta cs meta environment with inl _ => "" | inr p => p end.

Definition clientForEnvironment (cs : CSCloud) (environment : string) : error + client :=
  match env_client (environment_of cs environment) with
  | None => inl (Errorf "unable to retrieve client for environment %v, available environments: %#v"
                   [environment])
  | Some c => inr c
  end.

Definition lbNameLabel : string := "csccm.cloudprovider.io/loadbalancer-name".
Definition lbNameSuffix : string := "csccm.cloudprovider.io/loadbalancer-name-suffix".

(** getLoadBalancerName *)
Definition getLoadBalancerName (cs : CSCloud) (service : Service) : string :=
  let meta := svc_meta service in
  let name := label_value meta lbNameLabel in
  if decide (name ≠ "") then name else
  let suffix := label_value meta lbNameSuffix in
  if decide (suffix ≠ "") then svc_Name service +:+ "." +:+ suffix else
  let environment := environmentForMeta cs meta in
  let domain := match environments cs !! environment with
                | Some e => lbDomain e
                | None => ""
                end in
  svc_Name service +:+ "." +:+ domain.

(** GetLoadBalancerName, the exported method on a possibly nil service. *)
Definition GetLoadBalancerName (cs : CSCloud) (service : option Service) : string :=
  match service with None => "" | Some s => getLoadBalancerName cs s end.

(** ** Properties *)

Section meta.
Implicit Types (cs : CSCloud) (m : ObjectMeta).

Lemma getLabelOrAnnotation_label m n v :
  n ≠ "" → labels m !! n = Some v → getLabelOrAnnotation m n = Some v.
Proof. intros Hn Hl. unfold getLabelOrAnnotation. rewrite decide_False by done. by rewrite Hl. Qed.

Lemma getLabelOrAnnotation_annotation m n :
  n ≠ "" → labels m !! n = None → getLabelOrAnnotation m n = Annotations m !! n.
Proof. intros Hn Hl. unfold getLabelOrAnnotation. rewrite decide_False by done. by rewrite Hl. Qed.

Lemma getLabelOrAnnotation_empty m : getLabelOrAnnotation m "" = None.
Proof. done. Qed.

(** The single environment of a provider that has one. *)
Lemma environmentForMeta_single cs m k e :
  environments cs = {[ k := e ]} →
  label_value m (EnvironmentLabel (Global (config cs))) = "" →
  environmentForMeta cs m = k.
Proof.
  intros He Hl. unfold environmentForMeta. rewrite Hl, He.
  rewrite decide_True by (split; [done|apply map_size_singleton]).
  by rewrite map_to_list_singleton.
Qed.

Lemma environmentForMeta_labelled cs m :
  label_value m (EnvironmentLabel (Global (config cs))) ≠ "" →
  environmentForMeta cs m = label_value m (EnvironmentLabel (Global (config cs))).
Proof. intros Hl. unfold environmentForMeta. rewrite decide_False by tauto. done. Qed.

(** The environment of an object is the one its label names; an object
    without a label belongs to the only environment, or to none. *)
Lemma environmentForMeta_cases cs m :
  environmentForMeta cs m = label_value m (EnvironmentLabel (Global (config cs))) ∨
  (label_value m (EnvironmentLabel (Global (config cs))) = "" ∧
   ∃ e, environments cs = {[ environmentForMeta cs m := e ]}).
Proof.
  unfold environmentForMeta. case_decide as Hd; [|by left]. right.
  destruct Hd as [-> Hs]. split; [done|].
  apply map_size_one in Hs as (k & e & ->).
  rewrite map_to_list_singleton. by exists e.
Qed.

(** The name of a service's load balancer: the explicit name label when it
    is set, else the service name with the suffix label, else the service name
    with the domain of the service's environment; a label always wins over an
    annotation of the same key, and an unset key falls through. *)
Lemma getLoadBalancerName_spec cs (svc : Service) :
  getLoadBalancerName cs svc =
    match getLabelOrAnnotation (svc_meta svc) lbNameLabel,
          getLabelOrAnnotation (svc_meta svc) lbNameSuffix with
    | Some (String a n), _ => String a n
    | _, Some (String a x) => svc_Name svc +:+ "." +:+ String a x
    | _, _ => svc_Name svc +:+ "." +:+
        lbDomain (environment_of cs (environmentForMeta cs (svc_meta svc)))
    end.
Proof.
  unfold getLoadBalancerName, label_value, environment_of.
  destruct (getLabelOrAnnotation _ lbNameLabel) as [[|a n]|];
    destruct (getLabelOrAnnotation _ lbNameSuffix) as [[|b x]|];
    destruct (environments cs !! _); simpl; repeat case_decide; naive_solver.
Qed.

(** A project is found for an object exactly when it has the project
    label (even an empty one) or its environment section names a project;
    the label wins. *)
Lemma projectForMeta_spec cs m e :
  projectForMeta cs m e =
    match getLabelOrAnnotation m (ProjectIDLabel (Global (config cs))) with
    | Some p => inr p
    | None =>
        match ProjectID <$> Environment (config cs) !! e with
        | Some (String a p) => inr (String a p)
        | _ => inl (Errorf "no projectID found" [])
        end
    end.
Proof.
  unfold projectForMeta. destruct (getLabelOrAnnotation _ _); [done|].
  destruct (Environment (config cs) !! e) as [ec|]; simpl; [|done].
  destruct (ProjectID ec) eqn:E; by rewrite ?E.
Qed.
End meta.
