(* ===== verification/Pages.v ===== *)
(** * Listing all pages and finding machines (helpers.go)

    [virtualMachineByName] with its cache, and [listAllPagesUnsafe] with its
    page loop and its in-place removal of duplicates. *)
From Stdlib Require Import Ascii.
From stdpp Require Import base list strings gmap sets.
From S2P Require Import Prelude GoStd Kube Cloud Config.

(** ** Machines by name *)

Definition vmCacheKey (name projectID : string) : string :=
  Join [name; projectID] (String "000"%char "").

(** ** Pages *)

(** pageParams and resultWithID: what the page loop needs of a list command,
    its parameters [P] and the elements [A] it lists. *)
Class Paged (P A : Type) := {
  SetPagesize : Z → P → P;
  SetPage : Z → P → P;
  list_page : client → P → ev (error + page A);
  ID : A → string;
  SetPage_SetPage n n' p : SetPage n (SetPage n' p) = SetPage n p;
}.

#[export] Instance vmWrapper : Paged ListLoadBalancerRuleInstancesParams VirtualMachine := {|
  SetPagesize n p := {| li_Id := li_Id p; li_Page := li_Page p; li_Pagesize := Some n |};
  SetPage n p := {| li_Id := li_Id p; li_Page := Some n; li_Pagesize := li_Pagesize p |};
  list_page := ListLoadBalancerRuleInstances;
  ID := vm_Id;
  SetPage_SetPage n n' p := eq_refl;
|}.

#[export] Instance ipWrapper : Paged ListPublicIpAddressesParams PublicIpAddress := {|
  SetPagesize n p := {|
    lp_Id := lp_Id p; lp_Ipaddress := lp_Ipaddress p; lp_Listall := lp_Listall p;
    lp_Tags := lp_Tags p; lp_Projectid := lp_Projectid p;
    lp_Page := lp_Page p; lp_Pagesize := Some n |};
  SetPage n p := {|
    lp_Id := lp_Id p; lp_Ipaddress := lp_Ipaddress p; lp_Listall := lp_Listall p;
    lp_Tags := lp_Tags p; lp_Projectid := lp_Projectid p;
    lp_Page := Some n; lp_Pagesize := lp_Pagesize p |};
  list_page := ListPublicIpAddresses;
  ID := ip_Id;
  SetPage_SetPage n n' p := eq_refl;
|}.

Section dedup.
Context {P A} `{!Paged P A}.

(** One run of the loop over [result] from index [i]: an element whose ID was
    seen is overwritten by the last element, which is cut off, and the index
    stays; another element is remembered and the index moves on.  [n] is the
    number of elements from [i] to the end, which every round decreases. *)
Fixpoint dedup_from (n i : nat) (existingSet : gset string) (result : list A) : list A :=
  match n with
  | 0 => result
  | S n =>
      match result !! i with
      | None => result
      | Some el =>
          if decide (ID el ∈ existingSet) then
            let result :=
              match last result with Some x => <[i := x]> result | None => result end in
            dedup_from n i existingSet (take (length result - 1) result)
          else dedup_from n (S i) ({[ID el]} ∪ existingSet) result
      end
  end.

Definition dedup (result : list A) : list A := dedup_from (length result) 0 ∅ result.
End dedup.

Section pages.
Context {W} `{!Cloud W}.

Definition virtualMachineByName (m : cloudstackManager) (name projectID : string) :
    M (env W) VirtualMachine :=
  let key := vmCacheKey name projectID in
  found ← call (CacheGet (mgr_client m) key);
  match found with
  | Some vm => mret vm
  | None =>
      vms ← call_err (ListVirtualMachines (mgr_client m) name
                        (if decide (projectID = "") then None else Some projectID));
      match vms with
      | [] => throw ErrVMNotFound
      | [vm] => call (CacheSet (mgr_client m) key vm) ;; mret vm
      | _ => throw (Errorf "more than one machine found with name %q in project %q"
                      [name; projectID])
      end
  end.

Section loop.
Context {P A} `{!Paged P A}.

(** The [for] loop: one page per round, until a page is empty or as many
    elements were collected as the server counts. *)
Fixpoint pages_loop (fuel : nat) (c : client) (params : P) (pg : Z) (result : list A) :
    M (env W) (list A) :=
  match fuel with
  | 0 => block
  | S fuel =>
      let params := SetPage pg params in
      l ← call_err (list_page c params);
      let result := result ++ Items l in
      let resultSize := length (Items l) in
      if decide (resultSize = 0 ∨ (Count l ≤ Z.of_nat (length result))%Z)
      then mret result
      else pages_loop fuel c params (pg + 1)%Z result
  end.

Definition listAllPagesUnsafe (fuel : nat) (c : client) (pageSize : Z) (params : P) :
    M (env W) (list A) :=
  result ← pages_loop fuel c (SetPagesize pageSize params) 1%Z [];
  mret (dedup result).
End loop.

Definition listAllLBInstancesPages (fuel : nat) (c : client)
    (params : ListLoadBalancerRuleInstancesParams) : M (env W) (list VirtualMachine) :=
  listAllPagesUnsafe fuel c 50%Z params.

Definition listAllIPPages (fuel : nat) (c : client) (params : ListPublicIpAddressesParams) :
    M (env W) (list PublicIpAddress) :=
  listAllPagesUnsafe fuel c 50%Z params.
End pages.

(** ** Machines by name *)

(** Names and projects without a NUL byte have a cache key of their own. *)
Lemma vmCacheKey_inj n p n' p' :
  has_byte "000" n = false → has_byte "000" n' = false →
  vmCacheKey n p = vmCacheKey n' p' → n = n' ∧ p = p'.
Proof.
  intros Hn Hn' Heq. unfold vmCacheKey in Heq.
  change (n +:+ String "000" p = n' +:+ String "000" p') in Heq. by apply sep_inj in Heq.
Qed.

(** A machine is found by name in one project: a cached machine is
    returned without asking CloudStack; otherwise the one machine that CloudStack
    lists is returned, and is cached under a key that no other name and project
    share; no machine is [ErrVMNotFound], several are an error, a failed call is
    passed on, and in none of these cases is anything cached. *)
Lemma virtualMachineByName_spec {W} `{!Cloud W} (m : cloudstackManager) (name project : string)
    (s : env W) :
  let c := mgr_client m in
  let key := vmCacheKey name project in
  let listing := ListVirtualMachines c name (if decide (project = "") then None else Some project) in
  wp (virtualMachineByName m name project) (λ r s',
    let '(w, hit) := exec (CacheGet c key) (ew s) in
    let log := elog s ++ [Ev (CacheGet c key)] in
    match hit with
    | Some vm => r = Ok vm ∧ elog s' = log
    | None =>
        let log := log ++ [Ev listing] in
        match (exec listing w).2 with
        | inl e => r = Err e ∧ elog s' = log
        | inr [] => r = Err ErrVMNotFound ∧ elog s' = log
        | inr [vm] => r = Ok vm ∧ elog s' = log ++ [Ev (CacheSet c key vm)]
        | inr _ => (∃ f args, r = Err (Errorf f args)) ∧ elog s' = log
        end
    end) s ∧
  ∀ name' project', has_byte "000" name = false → has_byte "000" name' = false →
    vmCacheKey name' project' = key → name' = name ∧ project' = project.
Proof.
  intros c key listing. split; [|intros n' p' H1 H2; by apply vmCacheKey_inj].
  unfold virtualMachineByName. apply wp_bind, wp_call. fold c key. intros w hit Hw.
  rewrite Hw. cbn [on_ok].
  destruct hit as [vm|]; [apply wp_ret; simpl; split; reflexivity|].
  subst listing. apply wp_bind, wp_call_err; intros w' x Hw'; cbn [ew] in Hw';
    rewrite Hw'; cbn [snd on_ok]; [split; reflexivity|].
  destruct x as [|vm [|vm' l]];
    [split; reflexivity| |split; [eexists _, _|]; reflexivity].
  apply wp_bind, wp_call; intros w2 u _. split; reflexivity.
Qed.

(** ** Removing duplicates *)

Section dedup_facts.
Context {P A} `{!Paged P A}.
Implicit Types l pre rest : list A.

(** What the overwriting of a seen element by the last one leaves. *)
Lemma cut_last pre el rest :
  ∃ rest', take (length (pre ++ el :: rest) - 1)
      (match last (pre ++ el :: rest) with
       | Some x => <[length pre := x]> (pre ++ el :: rest)
       | None => pre ++ el :: rest
       end) = pre ++ rest' ∧ rest' ≡ₚ rest.
Proof.
  rewrite last_app_cons. destruct rest as [|z rest' _] using rev_ind; simpl.
  - exists []. split; [|done]. rewrite length_app; simpl.
    rewrite insert_app_r_alt by lia. rewrite Nat.sub_diag. simpl.
    replace (length pre + 1 - 1) with (length pre + 0) by lia.
    by rewrite take_app_add.
  - exists (z :: rest'). split; [|by rewrite Permutation_app_comm].
    rewrite app_comm_cons, last_snoc.
    rewrite insert_app_r_alt by lia. rewrite Nat.sub_diag. simpl.
    rewrite !length_app; simpl. rewrite length_app; simpl.
    replace (length pre + S (length rest' + 1) - 1) with (length pre + S (length rest')) by lia.
    rewrite take_app_add. simpl. by rewrite take_app_length.
Qed.

Lemma dedup_from_spec n seen pre rest :
  n = length rest →
  ∃ k, dedup_from n (length pre) seen (pre ++ rest) = pre ++ k ∧
    k ⊆+ rest ∧ NoDup (ID <$> k) ∧ Forall (λ x, ID x ∉ seen) k ∧
    Forall (λ x, ID x ∈ seen ∨ ID x ∈ ID <$> k) rest.
Proof.
  revert seen pre rest. induction n as [|n IH]; intros seen pre rest Hn; simpl.
  { apply symmetry, length_zero_iff_nil in Hn as ->.
    exists []. split_and!; eauto using NoDup_nil_2. }
  destruct rest as [|el rest]; simplify_eq/=.
  rewrite lookup_app_r, Nat.sub_diag by lia. simpl. case_decide as Hseen.
  - destruct (cut_last pre el rest) as (rest' & Hcut & Hperm).
    assert (∀ (o : option A), length (match o with Some x => <[length pre := x]> (pre ++ el :: rest)
               | None => pre ++ el :: rest end) = length (pre ++ el :: rest)) as Hlen.
    { intros [x|]; [apply length_insert|done]. }
    rewrite Hlen, Hcut.
    destruct (IH seen pre rest') as (k & -> & Hk & Hnd & Hns & Hall); [by rewrite Hperm|].
    exists k. split_and!; [done| |done|done|].
    + rewrite Hk, Hperm. by apply submseteq_cons.
    + rewrite Hperm in Hall. constructor; [by left|done].
  - destruct (IH ({[ID el]} ∪ seen) (pre ++ [el]) rest) as (k & Hk & Hsub & Hnd & Hns & Hall); [done|].
    rewrite length_app in Hk. simpl in Hk. rewrite Nat.add_1_r in Hk.
    rewrite <- !app_assoc in Hk. simpl in Hk. exists (el :: k). split_and!; [done| | | |]; simpl.
    + by apply submseteq_skip.
    + apply NoDup_cons. split; [|done]. intros [x [Hx Hin]]%list_elem_of_fmap.
      rewrite Forall_forall in Hns. specialize (Hns x Hin). set_solver.
    + constructor; [done|]. eapply Forall_impl; [exact Hns|]. set_solver.
    + constructor; [set_solver|]. eapply Forall_impl; [exact Hall|]. set_solver.
Qed.

Lemma dedup_spec l :
  dedup l ⊆+ l ∧ NoDup (ID <$> dedup l) ∧ ∀ x, x ∈ l → ID x ∈ ID <$> dedup l.
Proof.
  destruct (dedup_from_spec (length l) ∅ [] l eq_refl) as (k & Hk & Hsub & Hnd & _ & Hall).
  unfold dedup. simpl in Hk. rewrite Hk. split_and!; [done..|].
  rewrite Forall_forall in Hall. set_solver.
Qed.

(** Nothing is removed, and nothing moves, when the IDs are distinct. *)
Lemma dedup_from_distinct n seen pre rest :
  n = length rest → NoDup (ID <$> rest) → Forall (λ x, ID x ∉ seen) rest →
  dedup_from n (length pre) seen (pre ++ rest) = pre ++ rest.
Proof.
  revert seen pre rest. induction n as [|n IH]; intros seen pre rest Hn Hnd Hns; simpl; [done|].
  destruct rest as [|el rest]; simplify_eq/=.
  rewrite lookup_app_r, Nat.sub_diag by lia. simpl.
  apply NoDup_cons in Hnd as [Hel Hnd]. apply Forall_cons in Hns as [Hel' Hns].
  rewrite decide_False by done.
  specialize (IH ({[ID el]} ∪ seen) (pre ++ [el]) rest eq_refl Hnd).
  rewrite length_app, Nat.add_1_r, <- app_assoc in IH. apply IH.
  rewrite Forall_forall in Hns |- *. intros x Hx. specialize (Hns x Hx).
  assert (ID x ≠ ID el) by (intros Heq; apply Hel; rewrite <- Heq; by apply list_elem_of_fmap_2).
  set_solver.
Qed.

Lemma dedup_distinct l : NoDup (ID <$> l) → dedup l = l.
Proof.
  intros Hnd. apply (dedup_from_distinct _ ∅ [] l); [done|done|].
  apply Forall_true. set_solver.
Qed.
End dedup_facts.

(** ** Visiting all pages *)

Section pages_facts.
Context {W} `{!Cloud W} {P A} `{!Paged P A}.
Implicit Types all : list A.

(** A server that holds the elements [all] and cuts them in pages of [size]:
    every page carries the count of all of them. *)
Definition serves_pages (c : client) (p : P) (size : nat) all : Prop :=
  ∀ (k : nat) (w : W), (exec (list_page c (SetPage (Z.of_nat k + 1) p)) w).2 =
    inr {| Count := Z.of_nat (length all); Items := take size (drop (k * size) all) |}.

Lemma pages_loop_serves c p size all fuel k (s : env W) :
  0 < size → serves_pages c p size all → 0 < fuel →
  length all ≤ (k + fuel) * size →
  wp (pages_loop fuel c p (Z.of_nat k + 1) (take (k * size) all)) (λ r _, r = Ok all) s.
Proof.
  intros Hsize Hserve. revert k p Hserve s.
  induction fuel as [|fuel IH]; intros k p Hserve s Hfuel Hlen; [lia|]. simpl.
  apply wp_bind, wp_call_err; intros w x Hw; pose proof (Hserve k (ew s)) as Hs;
    rewrite Hw in Hs; simplify_eq/=.
  assert (take (k * size) all ++ take size (drop (k * size) all) = take (S k * size) all) as Htake.
  { rewrite take_take_drop. f_equal. lia. }
  rewrite Htake. case_decide as Hstop.
  - apply wp_ret. f_equal. apply take_ge.
    rewrite length_take, length_drop, length_take in Hstop. lia.
  - rewrite length_take, length_drop, length_take in Hstop.
    replace (Z.of_nat k + 1 + 1)%Z with (Z.of_nat (S k) + 1)%Z by lia.
    apply IH; [|lia..]. intros k' w'. rewrite SetPage_SetPage. apply Hserve.
Qed.

(** (C28) Against a server that holds [all] and answers in pages, the page loop
    ends with a fuel of one unit per page, and returns a list
    in which no ID occurs twice, whose elements are elements of [all], and in
    which every ID of [all] occurs. *)
Theorem listAllPagesUnsafe_complete c p size all fuel (s : env W) :
  0 < size →
  serves_pages c (SetPagesize (Z.of_nat size) p) size all →
  0 < fuel → length all ≤ fuel * size →
  wp (listAllPagesUnsafe fuel c (Z.of_nat size) p) (λ r _, ∃ l,
    r = Ok l ∧ NoDup (ID <$> l) ∧ l ⊆+ all ∧ ∀ x, x ∈ all → ID x ∈ ID <$> l) s.
Proof.
  intros Hsize Hserve Hfuel Hlen. unfold listAllPagesUnsafe. apply wp_bind.
  eapply wp_mono; [apply (pages_loop_serves _ _ size all _ 0); eauto with lia|].
  intros r s' ->. simpl. apply wp_ret. exists (dedup all).
  destruct (dedup_spec all) as (?&?&?). by split_and!.
Qed.

(** Whatever the server answers, a list that is returned has distinct IDs. *)
Lemma listAllPagesUnsafe_distinct fuel c size p (s : env W) :
  wp (listAllPagesUnsafe fuel c size p) (λ r _, ∀ l, r = Ok l → NoDup (ID <$> l)) s.
Proof.
  unfold listAllPagesUnsafe. apply wp_bind.
  eapply wp_mono; [apply (preserves_wp (λ _ _, True)); by intros ?|].
  intros [l| | |] s' _; simpl; try done. apply wp_ret. intros ? [= <-].
  apply dedup_spec.
Qed.

(** The loop makes list calls and nothing else. *)
Lemma listAllPagesUnsafe_logs (Q : event → Prop) fuel c size (p : P) :
  (∀ c p, Q (Ev (list_page c p))) →
  preserves (logs Q) (listAllPagesUnsafe (W:=W) fuel c size p).
Proof.
  intros HQ. apply preserves_bind; [apply _| |by preserve].
  generalize (SetPagesize size p) 1%Z (@nil A). intros p' pg l. revert p' pg l.
  induction fuel as [|fuel IH]; intros p' pg l; simpl; preserve.
Qed.
End pages_facts.
