(* ===== verification/ServiceLock.v ===== *)
(** * One lock per service (servicelock.go)

    The table of reference-counted mutexes, the operations Lock and Unlock, and
    the interleavings of goroutines that use them.  The mutex [mu] of the table
    is held for the whole of getLocker-and-count in Lock and for the whole of
    Unlock, and everything else happens on the mutex of one entry: a goroutine
    therefore moves in three atomic steps, [enter] (the critical section of
    Lock), [acquire] (m.lock.Lock()) and [release] (Unlock). *)
From stdpp Require Import base list strings gmap.
From S2P Require Import Prelude GoStd Kube.

(** ** The table *)

(** refCounter: the number of goroutines that use the entry, and whether its
    mutex is held. *)
Record refCounter := { counter : Z; lock : bool }.

(** serviceLock: the map holds pointers, and a goroutine keeps its pointer
    between the two halves of Lock, so entries live in a heap.  Entries that
    left the map stay in the heap (as garbage), so an address is never reused. *)
Record serviceLock := {
  inUse : gmap serviceKey nat;
  heap : gmap nat refCounter;
}.

Definition new_serviceLock : serviceLock := {| inUse := ∅; heap := ∅ |}.

Definition getLocker (key : serviceKey) (l : serviceLock) : serviceLock * nat :=
  match inUse l !! key with
  | Some p => (l, p)
  | None =>
      let p := fresh (dom (heap l)) in
      ({| inUse := <[key := p]> (inUse l);
          heap := <[p := {| counter := 0; lock := false |}]> (heap l) |}, p)
  end.

(** Writing through the pointer of an entry. *)
Definition set_entry (p : nat) (f : refCounter → refCounter) (l : serviceLock) : serviceLock :=
  {| inUse := inUse l; heap := alter f p (heap l) |}.

(** The first half of Lock: [l.mu.Lock(); m := l.getLocker(key); m.counter++;
    l.mu.Unlock()]. *)
Definition enter (key : serviceKey) (l : serviceLock) : serviceLock * nat :=
  let '(l, p) := getLocker key l in
  (set_entry p (λ m, {| counter := counter m + 1; lock := lock m |}) l, p).

(** The second half, [m.lock.Lock()]: possible when the mutex is free. *)
Definition acquire (p : nat) (l : serviceLock) : option serviceLock :=
  match heap l !! p with
  | Some m =>
      if lock m then None
      else Some (set_entry p (λ m, {| counter := counter m; lock := true |}) l)
  | None => None
  end.

(** Unlock; [None] is the fatal error of unlocking a mutex that is not held. *)
Definition release (key : serviceKey) (l : serviceLock) : option serviceLock :=
  let '(l, p) := getLocker key l in
  match heap l !! p with
  | Some m =>
      if lock m then
        let l := set_entry p (λ m, {| counter := counter m - 1; lock := false |}) l in
        if decide (counter m - 1 ≤ 0)%Z
        then Some {| inUse := delete key (inUse l); heap := heap l |}
        else Some l
      else None
  | None => None
  end.

(** Lock and Unlock of one goroutine that runs alone: Lock waits for ever on a
    mutex that is held. *)
Definition Lock (svc : Service) : M serviceLock unit := λ l,
  let '(l, p) := enter (svcKey svc) l in
  match acquire p l with
  | Some l => (l, Ok tt)
  | None => (l, Blocked)
  end.

Definition Unlock (svc : Service) : M serviceLock unit := λ l,
  match release (svcKey svc) l with
  | Some l => (l, Ok tt)
  | None => (l, Panic "sync: unlock of unlocked mutex")
  end.

(** ** Goroutines *)

(** Where a goroutine is: not using the lock, past [enter] for a key with the
    pointer it was given, or holding the mutex of the key. *)
Inductive gstate :=
  | Idle
  | Waiting (key : serviceKey) (p : nat)
  | Holding (key : serviceKey) (p : nat).

#[export] Instance gstate_eq_dec : EqDecision gstate.
Proof. solve_decision. Defined.

Record system := { slock : serviceLock; threads : gmap nat gstate }.

(** The system in which the goroutines [ts] have not called Lock yet. *)
Definition system_init (ts : gset nat) : system :=
  {| slock := new_serviceLock; threads := gset_to_gmap Idle ts |}.

(** One atomic step of goroutine [t]. *)
Inductive lock_step : system → system → Prop :=
  | step_enter t k l p σ :
      threads σ !! t = Some Idle → enter k (slock σ) = (l, p) →
      lock_step σ {| slock := l; threads := <[t := Waiting k p]> (threads σ) |}
  | step_acquire t k p l σ :
      threads σ !! t = Some (Waiting k p) → acquire p (slock σ) = Some l →
      lock_step σ {| slock := l; threads := <[t := Holding k p]> (threads σ) |}
  | step_release t k p l σ :
      threads σ !! t = Some (Holding k p) → release k (slock σ) = Some l →
      lock_step σ {| slock := l; threads := <[t := Idle]> (threads σ) |}.

Definition lock_reachable (ts : gset nat) (σ : system) : Prop :=
  rtc lock_step (system_init ts) σ.

(** ** The invariant *)

Definition uses (k : serviceKey) (g : gstate) : Prop :=
  match g with Idle => False | Waiting k' _ | Holding k' _ => k = k' end.
#[export] Instance uses_dec k g : Decision (uses k g).
Proof. destruct g; simpl; apply _. Defined.

Definition pointer (g : gstate) : option nat :=
  match g with Idle => None | Waiting _ p | Holding _ p => Some p end.

(** The number of goroutines that use a key. *)
Definition users (k : serviceKey) (ths : gmap nat gstate) : nat :=
  size (filter (λ tg, uses k tg.2) ths).

Definition held (k : serviceKey) (ths : gmap nat gstate) : Prop :=
  ∃ t p, ths !! t = Some (Holding k p).

Record lock_inv (σ : system) : Prop := {
  (* a goroutine's pointer is the one in the table *)
  inv_pointer t k g :
    threads σ !! t = Some g → uses k g → inUse (slock σ) !! k = pointer g;
  (* an entry of the table counts its users, of which there is one at least,
     and is locked exactly when one of them holds it *)
  inv_entry k p :
    inUse (slock σ) !! k = Some p →
    ∃ m, heap (slock σ) !! p = Some m ∧ counter m = Z.of_nat (users k (threads σ)) ∧
         (0 < users k (threads σ)) ∧ (lock m = true ↔ held k (threads σ));
  (* one holder per key *)
  inv_one k t1 t2 p1 p2 :
    threads σ !! t1 = Some (Holding k p1) → threads σ !! t2 = Some (Holding k p2) → t1 = t2;
  (* no entry is shared by two keys *)
  inv_inj k1 k2 p :
    inUse (slock σ) !! k1 = Some p → inUse (slock σ) !! k2 = Some p → k1 = k2;
}.

Section users.
Implicit Types ths : gmap nat gstate.

Definition one (k : serviceKey) (g : gstate) : nat := if decide (uses k g) then 1 else 0.

Lemma users_split k t g ths :
  ths !! t = Some g → users k ths = users k (delete t ths) + one k g.
Proof.
  intros Ht. unfold users, one. rewrite <- (insert_delete_id ths t g Ht) at 1.
  case_decide as Hu.
  - rewrite map_filter_insert_True by done. rewrite map_size_insert_None; [lia|].
    apply map_lookup_filter_None. left. apply lookup_delete_eq.
  - rewrite map_filter_insert_False by done. rewrite delete_delete_eq. lia.
Qed.

Lemma users_insert k t g ths :
  users k (<[t := g]> ths) = users k (delete t ths) + one k g.
Proof.
  rewrite (users_split k t g) by apply lookup_insert_eq. by rewrite delete_insert_eq.
Qed.

Lemma one_uses k g : uses k g → one k g = 1.
Proof. intros. unfold one. by rewrite decide_True. Qed.
Lemma one_not_uses k g : ¬ uses k g → one k g = 0.
Proof. intros. unfold one. by rewrite decide_False. Qed.

Lemma users_pos k t g ths : ths !! t = Some g → uses k g → 0 < users k ths.
Proof. intros Ht Hu. rewrite (users_split _ _ _ _ Ht), one_uses by done. lia. Qed.

Lemma users_pos_inv k ths : 0 < users k ths → ∃ t g, ths !! t = Some g ∧ uses k g.
Proof.
  unfold users. intros Hs. assert (size (filter (λ tg, uses k tg.2) ths) ≠ 0) as Hne by lia.
  apply map_size_ne_0_lookup_1 in Hne as [t [g Hg]].
  apply map_lookup_filter_Some in Hg as [??]. eauto.
Qed.

Lemma held_uses k ths : held k ths → 0 < users k ths.
Proof. intros (t & p & Ht). by apply (users_pos _ _ _ _ Ht). Qed.

(** The holders after the goroutine [t] moved from [g] to [g']. *)
Lemma held_insert k t g' ths :
  held k (<[t := g']> ths) ↔ (∃ p, g' = Holding k p) ∨ held k (delete t ths).
Proof.
  split.
  - intros (t' & p & Ht'). destruct (decide (t = t')) as [<-|Hne].
    + rewrite lookup_insert_eq in Ht'. simplify_eq. eauto.
    + rewrite lookup_insert_ne in Ht' by done. right. exists t', p.
      by rewrite lookup_delete_ne.
  - intros [[p ->]|(t' & p & Ht')].
    + exists t, p. apply lookup_insert_eq.
    + apply lookup_delete_Some in Ht' as [Hne Ht']. exists t', p.
      by rewrite lookup_insert_ne.
Qed.

Lemma held_delete k t g ths :
  ths !! t = Some g → (∀ p, g ≠ Holding k p) → held k (delete t ths) ↔ held k ths.
Proof.
  intros Ht Hg. split; intros (t' & p & Ht'); exists t', p.
  - by apply lookup_delete_Some in Ht' as [_ ?].
  - rewrite lookup_delete_ne; [done|]. intros ->. naive_solver.
Qed.
End users.

(** ** Preservation *)

Section preservation.
Implicit Types σ : system.

Lemma inv_init ts : lock_inv (system_init ts).
Proof.
  split; simpl.
  - intros t k g Hg Hu. apply lookup_gset_to_gmap_Some in Hg as [_ <-]. done.
  - intros k p. by rewrite lookup_empty.
  - intros k t1 t2 p1 p2 H1. apply lookup_gset_to_gmap_Some in H1 as [_ ?]. done.
  - intros k1 k2 p. by rewrite lookup_empty.
Qed.

(** A move of goroutine [t] does not touch the keys it uses neither before
    nor after. *)
Lemma other_key k t g g' ths :
  ths !! t = Some g → ¬ uses k g → ¬ uses k g' →
  users k (<[t := g']> ths) = users k ths ∧ (held k (<[t := g']> ths) ↔ held k ths).
Proof.
  intros Ht Hg Hg'. split.
  - rewrite users_insert, (users_split _ _ _ _ Ht), !one_not_uses; done.
  - rewrite held_insert, (held_delete _ _ _ _ Ht); [|intros p ->; by apply Hg].
    split; [intros [[p ->]|?]; [by destruct Hg'|done]|by right].
Qed.

(** The entry that the table has for [k] is the one a waiting or holding
    goroutine points to. *)
Lemma waiting_entry σ t k p :
  lock_inv σ → threads σ !! t = Some (Waiting k p) → inUse (slock σ) !! k = Some p.
Proof. intros Hi Ht. by rewrite (inv_pointer _ Hi t k _ Ht). Qed.
Lemma holding_entry σ t k p :
  lock_inv σ → threads σ !! t = Some (Holding k p) → inUse (slock σ) !! k = Some p.
Proof. intros Hi Ht. by rewrite (inv_pointer _ Hi t k _ Ht). Qed.

Lemma no_entry_no_users σ k :
  lock_inv σ → inUse (slock σ) !! k = None → users k (threads σ) = 0.
Proof.
  intros Hi Hk. destruct (users k (threads σ)) eqn:E; [done|].
  destruct (users_pos_inv k (threads σ)) as (t & g & Ht & Hu); [lia|].
  rewrite (inv_pointer _ Hi t k g Ht Hu) in Hk. by destruct g.
Qed.

Lemma getLocker_some k p l : inUse l !! k = Some p → getLocker k l = (l, p).
Proof. intros Hk. unfold getLocker. by rewrite Hk. Qed.

Lemma heap_bound σ k p : lock_inv σ → inUse (slock σ) !! k = Some p → p ∈ dom (heap (slock σ)).
Proof. intros Hi Hk. destruct (inv_entry _ Hi k p Hk) as (m & Hm & _). by apply elem_of_dom. Qed.

(** The steps that keep the domain of the table: the entry [p] of [k] is
    changed by [f] while goroutine [t] goes from [g] to [g']. *)
Lemma inv_update σ t k p g g' f :
  lock_inv σ → threads σ !! t = Some g → inUse (slock σ) !! k = Some p →
  (∀ k', k' ≠ k → ¬ uses k' g ∧ ¬ uses k' g') →
  (uses k g' → pointer g' = Some p) →
  (∀ p', g' = Holding k p' → ∀ t' q, t' ≠ t → threads σ !! t' ≠ Some (Holding k q)) →
  (∀ m, counter m = Z.of_nat (users k (threads σ)) → (lock m = true ↔ held k (threads σ)) →
    counter (f m) = Z.of_nat (users k (<[t := g']> (threads σ))) ∧
    0 < users k (<[t := g']> (threads σ)) ∧
    (lock (f m) = true ↔ held k (<[t := g']> (threads σ)))) →
  lock_inv {| slock := set_entry p f (slock σ); threads := <[t := g']> (threads σ) |}.
Proof.
  intros Hi Ht Hk Hother Hptr Hone Hf. split; simpl.
  - intros t' k' g'' Hg Hu. apply lookup_insert_Some in Hg as [[<- <-]|[Hne Hg]];
      [|by apply (inv_pointer _ Hi t')].
    destruct (decide (k' = k)) as [->|Hk']; [by rewrite Hptr|].
    by destruct (Hother k' Hk') as [_ []].
  - intros k' p' Hk'. destruct (inv_entry _ Hi k' p' Hk') as (m & Hm & Hc & Hpos & Hl).
    destruct (decide (k' = k)) as [->|Hne]; simplify_eq.
    + exists (f m). rewrite lookup_alter_eq, Hm. destruct (Hf m Hc Hl) as (?&?&?). by split_and!.
    + exists m. destruct (Hother k' Hne) as [H1 H2].
      destruct (other_key k' t g g' (threads σ) Ht H1 H2) as [-> Hh].
      rewrite Hh, lookup_alter_ne; [by split_and!|]. intros ->. by apply Hne, (inv_inj _ Hi _ _ p').
  - intros k' t1 t2 p1 p2 H1 H2.
    assert (∀ q, g' = Holding k' q → k' = k) as Heq.
    { intros q ->. destruct (decide (k' = k)) as [|Hk']; [done|]. by destruct (Hother k' Hk') as [_ []]. }
    apply lookup_insert_Some in H1 as [[<- Hg1]|[Hn1 H1]];
      apply lookup_insert_Some in H2 as [[<- Hg2]|[Hn2 H2]]; [done| | |by apply (inv_one _ Hi k' _ _ p1 p2)].
    + pose proof (Heq _ Hg1) as ->. by destruct (Hone p1 Hg1 t2 p2).
    + pose proof (Heq _ Hg2) as ->. by destruct (Hone p2 Hg2 t1 p1).
  - apply (inv_inj _ Hi).
Qed.

Lemma inv_enter σ t k l p :
  lock_inv σ → threads σ !! t = Some Idle → enter k (slock σ) = (l, p) →
  lock_inv {| slock := l; threads := <[t := Waiting k p]> (threads σ) |}.
Proof.
  intros Hi Ht Henter. unfold enter in Henter.
  destruct (inUse (slock σ) !! k) as [q|] eqn:Hk.
  - rewrite (getLocker_some _ _ _ Hk) in Henter. simplify_eq.
    eapply inv_update; eauto.
    intros m Hc Hl. simpl. rewrite users_insert, one_uses by done.
    rewrite (users_split _ _ _ _ Ht), one_not_uses in Hc by auto.
    rewrite held_insert, (held_delete _ _ _ _ Ht) by done. rewrite Hl.
    split_and!; [lia..|]. split; [by right|]. by intros [[]|].
  - unfold getLocker in Henter. rewrite Hk in Henter. simplify_eq.
    set (q := fresh (dom (heap (slock σ)))) in *.
    pose proof (no_entry_no_users _ _ Hi Hk) as H0.
    assert (∀ k', inUse (slock σ) !! k' ≠ Some q) as Hq.
    { intros k' Hk'. by apply (heap_bound _ _ _ Hi), is_fresh in Hk'. }
    split; simpl.
    + intros t' k' g Hg Hu. apply lookup_insert_Some in Hg as [[<- <-]|[Hne Hg]].
      { simpl in Hu. subst k'. by rewrite lookup_insert_eq. }
      rewrite lookup_insert_ne; [by apply (inv_pointer _ Hi t')|].
      intros <-. pose proof (users_pos k t' g _ Hg Hu). lia.
    + intros k' p' Hk'. apply lookup_insert_Some in Hk' as [[<- <-]|[Hne Hk']].
      * exists {| counter := 1; lock := false |}.
        rewrite lookup_alter_eq, lookup_insert_eq. simpl. rewrite users_insert, one_uses by done.
        rewrite (users_split _ _ _ _ Ht), one_not_uses in H0 by auto.
        split_and!; [done|lia..|]. rewrite held_insert, (held_delete _ _ _ _ Ht) by done.
        split; [done|]. intros [[]|Hh%held_uses]; [done|].
        rewrite (users_split _ _ _ _ Ht), one_not_uses in Hh by auto. lia.
      * destruct (inv_entry _ Hi k' p' Hk') as (m & Hm & Hc & Hpos & Hl). exists m.
        destruct (other_key k' t Idle (Waiting k q) (threads σ) Ht) as [-> ->]; [by intros []|naive_solver|].
        rewrite lookup_alter_ne, lookup_insert_ne by (intros ->; by apply (Hq k')).
        by split_and!.
    + intros k' t1 t2 p1 p2 H1 H2.
      apply lookup_insert_Some in H1 as [[<- ?]|[Hn1 H1]]; [done|].
      apply lookup_insert_Some in H2 as [[<- ?]|[Hn2 H2]]; [done|].
      by apply (inv_one _ Hi k' _ _ p1 p2).
    + intros k1 k2 p H1 H2.
      apply lookup_insert_Some in H1 as [[<- <-]|[Hn1 H1]];
        apply lookup_insert_Some in H2 as [[<- Hp]|[Hn2 H2]]; [done|by destruct (Hq k2)| |].
      * subst p. by destruct (Hq k1).
      * by apply (inv_inj _ Hi _ _ p).
Qed.

Lemma inv_acquire σ t k p l :
  lock_inv σ → threads σ !! t = Some (Waiting k p) → acquire p (slock σ) = Some l →
  lock_inv {| slock := l; threads := <[t := Holding k p]> (threads σ) |}.
Proof.
  intros Hi Ht Hacq. pose proof (waiting_entry _ _ _ _ Hi Ht) as Hk.
  destruct (inv_entry _ Hi k p Hk) as (m & Hm & _ & _ & Hl).
  unfold acquire in Hacq. rewrite Hm in Hacq. destruct (lock m) eqn:Hlock; [done|]. simplify_eq.
  eapply inv_update; eauto.
  - intros p' [= <-] t' q _ Ht'. assert (held k (threads σ)) as Hh by (by exists t', q).
    by apply Hl in Hh.
  - intros m' Hc _. simpl. rewrite users_insert, one_uses by done.
    rewrite (users_split _ _ _ _ Ht), one_uses in Hc by done.
    split_and!; [lia..|]. rewrite held_insert. naive_solver.
Qed.

Lemma inv_release σ t k p l :
  lock_inv σ → threads σ !! t = Some (Holding k p) → release k (slock σ) = Some l →
  lock_inv {| slock := l; threads := <[t := Idle]> (threads σ) |}.
Proof.
  intros Hi Ht Hrel. pose proof (holding_entry _ _ _ _ Hi Ht) as Hk.
  destruct (inv_entry _ Hi k p Hk) as (m & Hm & Hc & _ & Hl).
  unfold release in Hrel. rewrite (getLocker_some _ _ _ Hk), Hm in Hrel.
  destruct (lock m) eqn:Hlock; [|done].
  assert (¬ held k (<[t := Idle]> (threads σ))) as Hfree.
  { rewrite held_insert. intros [[? [=]]|(t' & q & Ht')].
    apply lookup_delete_Some in Ht' as [Hne Ht']. by apply Hne, (inv_one _ Hi k _ _ p q). }
  assert (users k (<[t := Idle]> (threads σ)) = users k (delete t (threads σ))) as Husers.
  { rewrite users_insert, one_not_uses by auto. lia. }
  rewrite (users_split _ _ _ _ Ht), one_uses in Hc by done.
  case_decide as Hlast; simplify_eq.
  - assert (users k (<[t := Idle]> (threads σ)) = 0) as Hz by lia.
    split; simpl.
    + intros t' k' g Hg Hu. destruct (decide (k' = k)) as [->|Hne].
      { pose proof (users_pos k t' g _ Hg Hu). lia. }
      rewrite lookup_delete_ne by done.
      apply lookup_insert_Some in Hg as [[<- <-]|[_ Hg]]; [done|by apply (inv_pointer _ Hi t')].
    + intros k' p' Hk'. apply lookup_delete_Some in Hk' as [Hne Hk'].
      destruct (inv_entry _ Hi k' p' Hk') as (m' & Hm' & Hc' & Hpos & Hl'). exists m'.
      destruct (other_key k' t (Holding k p) Idle (threads σ) Ht) as [-> ->]; [naive_solver|by intros []|].
      rewrite lookup_alter_ne; [by split_and!|]. intros ->. by apply Hne, (inv_inj _ Hi _ _ p').
    + intros k' t1 t2 p1 p2 H1 H2.
      apply lookup_insert_Some in H1 as [[<- ?]|[Hn1 H1]]; [done|].
      apply lookup_insert_Some in H2 as [[<- ?]|[Hn2 H2]]; [done|].
      by apply (inv_one _ Hi k' _ _ p1 p2).
    + intros k1 k2 q [_ H1]%lookup_delete_Some [_ H2]%lookup_delete_Some.
      by apply (inv_inj _ Hi _ _ q).
  - eapply inv_update; eauto; [naive_solver|].
    intros m' Hc' _. simpl. rewrite (users_split _ _ _ _ Ht), one_uses in Hc' by done.
    split_and!; [lia..|]. split; [done|]. by intros ?%Hfree.
Qed.

Lemma inv_step σ σ' : lock_inv σ → lock_step σ σ' → lock_inv σ'.
Proof. intros Hi Hs. inversion Hs; subst; eauto using inv_enter, inv_acquire, inv_release. Qed.

Lemma inv_reachable ts σ : lock_reachable ts σ → lock_inv σ.
Proof. apply (rtc_ind_r lock_inv); [apply inv_init|eauto using inv_step]. Qed.
End preservation.

#[export] Hint Resolve inv_reachable : ccm.

(** ** Executable schedules *)

Inductive action := AEnter (t : nat) (k : serviceKey) | AAcquire (t : nat) | ARelease (t : nat).

Definition run_action (a : action) (σ : system) : option system :=
  match a with
  | AEnter t k =>
      match threads σ !! t with
      | Some Idle =>
          let '(l, p) := enter k (slock σ) in
          Some {| slock := l; threads := <[t := Waiting k p]> (threads σ) |}
      | _ => None
      end
  | AAcquire t =>
      match threads σ !! t with
      | Some (Waiting k p) =>
          l ← acquire p (slock σ); Some {| slock := l; threads := <[t := Holding k p]> (threads σ) |}
      | _ => None
      end
  | ARelease t =>
      match threads σ !! t with
      | Some (Holding k p) =>
          l ← release k (slock σ); Some {| slock := l; threads := <[t := Idle]> (threads σ) |}
      | _ => None
      end
  end.

Fixpoint run_actions (l : list action) (σ : system) : option system :=
  match l with
  | [] => Some σ
  | a :: l => σ' ← run_action a σ; run_actions l σ'
  end.

Lemma run_action_step a σ σ' : run_action a σ = Some σ' → lock_step σ σ'.
Proof.
  destruct a as [t k|t|t]; simpl; repeat case_match; intros; simplify_option_eq.
  - by eapply step_enter.
  - by eapply step_acquire.
  - by eapply step_release.
Qed.

Lemma run_actions_reachable ts l σ :
  run_actions l (system_init ts) = Some σ → lock_reachable ts σ.
Proof.
  unfold lock_reachable. generalize (system_init ts). induction l as [|a l IH]; intros σ0 Hr.
  - simplify_eq/=. constructor.
  - simpl in Hr. destruct (run_action a σ0) as [σ1|] eqn:Ha; simplify_eq/=.
    eapply rtc_l; [by eapply run_action_step|by apply IH].
Qed.

(** ** Properties *)

(** What a lock per key promises: a holder per key, taken when there is none. *)
Abbreviation holders := (gmap serviceKey nat).

Inductive mutex_step : holders → holders → Prop :=
  | mutex_lock k t h : h !! k = None → mutex_step h (<[k := t]> h)
  | mutex_unlock k t h : h !! k = Some t → mutex_step h (delete k h).

Definition holders_of (σ : system) (h : holders) : Prop :=
  ∀ k t, h !! k = Some t ↔ ∃ p, threads σ !! t = Some (Holding k p).

Lemma holders_sim σ σ' h :
  lock_inv σ → lock_step σ σ' → holders_of σ h →
  ∃ h', rtc mutex_step h h' ∧ holders_of σ' h'.
Proof.
  intros Hi Hs Hh. inversion Hs as [t k l p ? Ht Henter|t k p l ? Ht Hacq|t k p l ? Ht Hrel]; subst.
  - exists h. split; [constructor|]. intros k' t'. simpl. rewrite (Hh k' t').
    destruct (decide (t = t')) as [<-|Hne].
    + rewrite lookup_insert_eq, Ht. naive_solver.
    + by rewrite lookup_insert_ne.
  - assert (h !! k = None) as Hk.
    { destruct (h !! k) as [t'|] eqn:Hk; [|done]. apply Hh in Hk as [q Hq].
      pose proof (waiting_entry _ _ _ _ Hi Ht) as Hp.
      destruct (inv_entry _ Hi k p Hp) as (m & Hm & _ & _ & Hl).
      unfold acquire in Hacq. rewrite Hm in Hacq.
      rewrite (proj2 Hl) in Hacq; [done|by exists t', q]. }
    exists (<[k := t]> h). split; [apply rtc_once; by constructor|].
    intros k' t'. simpl. destruct (decide (k = k')) as [<-|Hk'].
    + rewrite lookup_insert_eq. destruct (decide (t = t')) as [<-|Hne].
      * rewrite lookup_insert_eq. naive_solver.
      * rewrite lookup_insert_ne, <- (Hh k t'), Hk by done. naive_solver.
    + rewrite lookup_insert_ne, (Hh k' t') by done. destruct (decide (t = t')) as [<-|Hne].
      * rewrite lookup_insert_eq, Ht. naive_solver.
      * by rewrite lookup_insert_ne.
  - assert (h !! k = Some t) as Hk by (apply Hh; eauto).
    exists (delete k h). split; [apply rtc_once; by econstructor|].
    intros k' t'. simpl. destruct (decide (k = k')) as [<-|Hk'].
    + rewrite lookup_delete_eq. destruct (decide (t = t')) as [<-|Hne].
      * rewrite lookup_insert_eq. naive_solver.
      * rewrite lookup_insert_ne by done. split; [done|]. intros [q Hq].
        by destruct Hne; eapply (inv_one _ Hi k).
    + rewrite lookup_delete_ne, (Hh k' t') by done. destruct (decide (t = t')) as [<-|Hne].
      * rewrite lookup_insert_eq, Ht. naive_solver.
      * by rewrite lookup_insert_ne.
Qed.

(** (C17) The reference-counted table behaves as one mutex per service: whatever
    the interleaving of the goroutines, who holds which service is a state that
    a lock per key can reach by taking free keys and giving back held ones; so
    no two goroutines ever hold the same service. *)
Theorem serviceLock_refines_mutex (ts : gset nat) (σ : system) (Hr : lock_reachable ts σ) :
  ∃ h, rtc mutex_step ∅ h ∧ holders_of σ h.
Proof.
  assert (∃ h, rtc mutex_step ∅ h ∧ holders_of σ h ∧ lock_inv σ) as (h & ? & ? & _); [|by exists h].
  revert σ Hr. apply (rtc_ind_r (λ σ, ∃ h, rtc mutex_step ∅ h ∧ holders_of σ h ∧ lock_inv σ)).
  - exists ∅. split_and!; [constructor| |apply inv_init].
    intros k t. rewrite lookup_empty. split; [done|]. intros [p Hp].
    simpl in Hp. by apply lookup_gset_to_gmap_Some in Hp as [_ ?].
  - intros σ1 σ2 _ Hs (h & Hm & Hh & Hi). destruct (holders_sim _ _ _ Hi Hs Hh) as (h' & ? & ?).
    exists h'. split_and!; [by etrans|done|by eapply inv_step].
Qed.

(** (C34) No entry leaks and none is lost: in every reachable state the table has
    an entry for exactly the services that some goroutine waits for or holds,
    and its counter is their number; when all goroutines are done it is empty. *)
Theorem serviceLock_no_leak (ts : gset nat) (σ : system) (Hr : lock_reachable ts σ) :
  (∀ k p, inUse (slock σ) !! k = Some p →
    ∃ m, heap (slock σ) !! p = Some m ∧ counter m = Z.of_nat (users k (threads σ))) ∧
  (∀ k, is_Some (inUse (slock σ) !! k) ↔ ∃ t g, threads σ !! t = Some g ∧ uses k g) ∧
  (map_Forall (λ _ g, g = Idle) (threads σ) → inUse (slock σ) = ∅).
Proof.
  apply inv_reachable in Hr as Hi.
  assert (∀ k, is_Some (inUse (slock σ) !! k) ↔ ∃ t g, threads σ !! t = Some g ∧ uses k g) as Hdom.
  { intros k. split.
    - intros [p Hp]. destruct (inv_entry _ Hi k p Hp) as (_ & _ & _ & Hpos & _).
      by apply users_pos_inv in Hpos.
    - intros (t & g & Ht & Hu). rewrite (inv_pointer _ Hi t k g Ht Hu). by destruct g. }
  split_and!; [|done|].
  - intros k p Hp. destruct (inv_entry _ Hi k p Hp) as (m & ? & ? & _). by exists m.
  - intros Hidle. apply map_empty. intros k. apply eq_None_not_Some.
    intros (t & g & Ht & Hu)%Hdom. by rewrite (Hidle t g Ht) in Hu.
Qed.

(** A holder can unlock. *)
Lemma holding_release σ t k p :
  lock_inv σ → threads σ !! t = Some (Holding k p) → is_Some (release k (slock σ)).
Proof.
  intros Hi Ht. pose proof (holding_entry _ _ _ _ Hi Ht) as Hp.
  destruct (inv_entry _ Hi k p Hp) as (m & Hm & _ & _ & Hl).
  unfold release. rewrite (getLocker_some _ _ _ Hp), Hm, (proj2 Hl); [|by exists t, p].
  case_decide; eauto.
Qed.

(** A waiter can go on unless the key is held. *)
Lemma waiting_acquire σ t k p :
  lock_inv σ → threads σ !! t = Some (Waiting k p) →
  is_Some (acquire p (slock σ)) ∨ held k (threads σ).
Proof.
  intros Hi Ht. pose proof (waiting_entry _ _ _ _ Hi Ht) as Hp.
  destruct (inv_entry _ Hi k p Hp) as (m & Hm & _ & _ & Hl).
  unfold acquire. rewrite Hm. destruct (lock m); [right; by apply Hl|left; eauto].
Qed.

(** A goroutine that does not use the lock yet. *)
Lemma inv_start σ t :
  lock_inv σ → threads σ !! t = None →
  lock_inv {| slock := slock σ; threads := <[t := Idle]> (threads σ) |}.
Proof.
  intros Hi Ht.
  assert (∀ k, users k (<[t := Idle]> (threads σ)) = users k (threads σ)) as Hu.
  { intros k. rewrite users_insert, delete_id, one_not_uses by (done || intros []). lia. }
  assert (∀ k, held k (<[t := Idle]> (threads σ)) ↔ held k (threads σ)) as Hh.
  { intros k. rewrite held_insert, delete_id by done. split; [by intros [[? [=]]|]|by right]. }
  split; simpl.
  - intros t' k g Hg Huse. apply lookup_insert_Some in Hg as [[<- <-]|[Hne Hg]]; [done|].
    by apply (inv_pointer _ Hi t').
  - intros k p Hk. destruct (inv_entry _ Hi k p Hk) as (m & ? & ? & ? & ?). exists m.
    rewrite Hu, Hh. by split_and!.
  - intros k t1 t2 p1 p2 H1 H2.
    apply lookup_insert_Some in H1 as [[<- ?]|[Hn1 H1]]; [done|].
    apply lookup_insert_Some in H2 as [[<- ?]|[Hn2 H2]]; [done|].
    by apply (inv_one _ Hi k _ _ p1 p2).
  - apply (inv_inj _ Hi).
Qed.

(** A goroutine that holds a service can always give it back: Unlock never
    meets a mutex that is not held; and one that waits can go on unless another
    one holds the same service, so no goroutine waits for a free service. *)
Theorem serviceLock_progress (ts : gset nat) (σ : system) (Hr : lock_reachable ts σ) :
  (∀ t k p, threads σ !! t = Some (Holding k p) → is_Some (release k (slock σ))) ∧
  (∀ t k p, threads σ !! t = Some (Waiting k p) →
    is_Some (acquire p (slock σ)) ∨ held k (threads σ)).
Proof.
  apply inv_reachable in Hr as Hi. split; eauto using holding_release, waiting_acquire.
Qed.

(** ** One goroutine alone *)

(** A service nobody uses is locked and given back without a trace in the
    table: this is what a handler does around its body. *)
Lemma Lock_Unlock (svc : Service) (l : serviceLock) :
  inUse l !! svcKey svc = None →
  ∃ l', Lock svc l = (l', Ok tt) ∧
    ∃ l'', Unlock svc l' = (l'', Ok tt) ∧ inUse l'' = inUse l.
Proof.
  intros Hk. unfold Lock, enter, getLocker. rewrite Hk.
  set (p := fresh (dom (heap l))). unfold acquire, set_entry. simpl.
  rewrite lookup_alter_eq, lookup_insert_eq. simpl. eexists. split; [done|].
  unfold Unlock, release, getLocker. cbn [inUse heap]. rewrite lookup_insert_eq. cbn [inUse heap].
  rewrite !lookup_alter_eq, lookup_insert_eq. simpl.
  eexists. split; [done|]. simpl. by rewrite delete_insert_id.
Qed.

(** ** A concrete interleaving: two goroutines and one service *)

Section demo.
Let k := {| namespace := "default"; name := "svc" |}.
Definition demo_schedule : list action := [AEnter 0 k; AEnter 1 k; AAcquire 1].

Definition demo_system : system :=
  default (system_init ∅) (run_actions demo_schedule (system_init {[0; 1]})).

Lemma demo_reachable : lock_reachable {[0; 1]} demo_system.
Proof.
  apply (run_actions_reachable _ demo_schedule). unfold demo_system.
  destruct (run_actions demo_schedule (system_init {[0; 1]})) eqn:E; [done|].
  by vm_compute in E.
Qed.

Lemma serviceLock_refines_mutex_witness : ∃ h, rtc mutex_step ∅ h ∧ holders_of demo_system h.
Proof. exact (serviceLock_refines_mutex _ _ demo_reachable). Defined.

Lemma serviceLock_no_leak_witness :
  is_Some (inUse (slock demo_system) !! k) ↔
  ∃ t g, threads demo_system !! t = Some g ∧ uses k g.
Proof. exact (proj1 (proj2 (serviceLock_no_leak _ _ demo_reachable)) k). Defined.

Lemma serviceLock_progress_witness :
  ∃ p, threads demo_system !! 0 = Some (Waiting k p) ∧
    (is_Some (acquire p (slock demo_system)) ∨ held k (threads demo_system)).
Proof.
  exists 0. split; [by vm_compute|].
  apply (proj2 (serviceLock_progress _ _ demo_reachable) 0). by vm_compute.
Defined.
End demo.
