(* ===== verification/Balancer.v ===== *)
(** * The load balancer of a service: data and ownership (loadbalancer.go)

    The records projectCloud, loadBalancer and cloudstackIP, the tags that mark
    what belongs to a service, and the decisions taken from them: may the
    provider touch this IP, this rule, may it delete it. *)
From stdpp Require Import base list strings gmap.
From S2P Require Import Prelude GoStd Kube Cloud Config Meta.

(** ** Data *)

Definition cloudProviderTag : string := "cloudprovider".
Definition serviceTag : string := "kubernetes_service".
Definition namespaceTag : string := "kubernetes_namespace".
Definition cloudProviderIgnoreTag : string := "cloudprovider-ignore".
Definition removeLBsOnDeleteLabelKey : string := "csccm.cloudprovider.io/remove-loadbalancers-on-delete".

Record projectCloud := {
  pc_cs : CSCloud;
  projectID : string;
  environment : string;
}.

Record cloudstackIP := {
  id : string;
  address : string;
  networkid : string;
}.

Definition no_ip : cloudstackIP := {| id := ""; address := ""; networkid := "" |}.

(** [service] is a pointer to the object of the caller: what the code writes
    to the service is kept here. *)
Record loadBalancer := {
  cloud : projectCloud;
  lb_name : string;
  algorithm : string;
  mainNetworkID : string;
  ip : cloudstackIP;
  rule : option loadBalancerRule;
  service : Service;
}.

Definition ip_String (i : cloudstackIP) : string :=
  "ip(" +:+ id i +:+ ", " +:+ address i +:+ ")".

Definition rule_String (r : option loadBalancerRule) : string :=
  match r with
  | None => "lbrule(nil)"
  | Some r => "lbrule(" +:+ lbr_Id r +:+ ", " +:+ lbr_Name r +:+ ")"
  end.

(** String of a possibly nil *loadBalancer. *)
Definition lb_String (lb : option loadBalancer) : string :=
  match lb with
  | None => "lb(nil)"
  | Some lb =>
      let svcName := svc_Namespace (service lb) +:+ "/" +:+ svc_Name (service lb) in
      let projID := if decide (projectID (cloud lb) = "") then "nil" else projectID (cloud lb) in
      "lb(" +:+ lb_name lb +:+ ", " +:+ projID +:+ ", " +:+ rule_String (rule lb) +:+ ", "
        +:+ ip_String (ip lb) +:+ ", svc(" +:+ svcName +:+ "))"
  end.

Definition isValid (i : cloudstackIP) : bool :=
  bool_decide (id i ≠ "" ∧ address i ≠ "").

(** projectCloud.getClient and getLBEnvironmentID. *)
Definition pc_environment (pc : projectCloud) : CSEnvironment :=
  environment_of (pc_cs pc) (environment pc).

Definition getClient (pc : projectCloud) : error + client :=
  match env_client (pc_environment pc) with
  | None => inl (Errorf "unable to retrieve cloudstack client for env: %#v" [environment pc])
  | Some c => inr c
  end.

Definition getLBEnvironmentID (pc : projectCloud) : string := lbEnvironmentID (pc_environment pc).

(** ** Tags *)

Definition tagsForService (svc : Service) : gmap string string :=
  {[ cloudProviderTag := ProviderName;
     serviceTag := svc_Name svc;
     namespaceTag := svc_Namespace svc ]}.

Fixpoint getTag (tags : list Tags) (k : string) : option string :=
  match tags with
  | [] => None
  | tag :: tags => if decide (Key tag = k) then Some (Value tag) else getTag tags k
  end.

(** The loop of matchAllTags: [validCount] is incremented for a tag whose value
    is the one wanted for its key (which is "" for a key that is not wanted),
    and the function returns true when it reaches the number of wanted tags. *)
Fixpoint matchAllTags_loop (tags : gmap string string) (csTags : list Tags) (validCount : nat) : bool :=
  match csTags with
  | [] => false
  | tag :: csTags =>
      if decide (map_get tags (Key tag) = Value tag) then
        let validCount := S validCount in
        if decide (validCount = size tags) then true
        else matchAllTags_loop tags csTags validCount
      else matchAllTags_loop tags csTags validCount
  end.

Definition matchAllTags (csTags : list Tags) (tags : gmap string string) : bool :=
  matchAllTags_loop tags csTags 0.

(** shouldManageIP: every wanted tag is set to the wanted value.  The entries
    are visited in map order, which only decides what is logged. *)
Definition shouldManageIP (i : PublicIpAddress) (svc : Service) : bool :=
  forallb (λ '(tagKey, wantedValue),
    match getTag (ip_Tags i) tagKey with
    | Some value => bool_decide (wantedValue = value)
    | None => false
    end) (map_to_list (tagsForService svc)).

(** The message for one wanted tag, when it is missing. *)
Definition missing_tag (tags : list Tags) (kv : string * string) : option string :=
  let '(tagKey, wantedValue) := kv in
  match getTag tags tagKey with
  | None =>
      if decide (tagKey = namespaceTag) then None   (* optional tag *)
      else Some ("tag " +:+ quoted tagKey +:+ ": expected: " +:+ quoted wantedValue
                   +:+ ", got: " +:+ quoted "")
  | Some value =>
      if decide (wantedValue ≠ value) then
        Some ("tag " +:+ quoted tagKey +:+ ": expected: " +:+ quoted wantedValue
                +:+ ", got: " +:+ quoted value)
      else None
  end.

(** shouldManageLB: [None] is the nil error. *)
Definition shouldManageLB (lb : loadBalancer) : option error :=
  match rule lb with
  | None => None
  | Some r =>
      if decide (is_Some (getTag (lbr_Tags r) cloudProviderIgnoreTag)) then
        Some (Errorf "should not manage %v, tag %q is set"
                [lb_String (Some lb); cloudProviderIgnoreTag])
      else
        let missingTags := omap (missing_tag (lbr_Tags r)) (map_to_list (tagsForService (service lb))) in
        let refuse statusHostname :=
          Some (Errorf "should not manage %v - status hostname: %q - missing tags: %s"
                  [lb_String (Some lb); statusHostname; Join (sort_Strings missingTags) " - "]) in
        match missingTags with
        | [] => None
        | _ =>
            match Ingress (service lb) with
            | [ing] =>
                let statusHostname := ing_Hostname ing in
                if decide (statusHostname = lb_name lb) then None else refuse statusHostname
            | _ => refuse ""
            end
        end
  end.

(** hasMissingTags of a balancer that has a rule. *)
Definition hasMissingTags (r : loadBalancerRule) : bool :=
  let tagMap := foldl (λ m t, <[Key t := Value t]> m) (∅ : gmap string string) (lbr_Tags r) in
  existsb (λ t, bool_decide (tagMap !! t = None)) [cloudProviderTag; serviceTag; namespaceTag].

(** isLBRemovalEnabled: the label or annotation of the service when it spells a
    boolean, else the flag of the environment. *)
Definition isLBRemovalEnabled (lb : loadBalancer) (svc : Service) : bool :=
  let default := removeLBs (pc_environment (cloud lb)) in
  match getLabelOrAnnotation (svc_meta svc) removeLBsOnDeleteLabelKey with
  | Some removeLBFlag => match ParseBool removeLBFlag with Some b => b | None => default end
  | None => default
  end.

(** ** Facts *)

Lemma tags_differ :
  cloudProviderTag ≠ serviceTag ∧ cloudProviderTag ≠ namespaceTag ∧ serviceTag ≠ namespaceTag.
Proof. by vm_compute. Qed.

Lemma tagsForService_lookup svc k v :
  tagsForService svc !! k = Some v ↔
    (k = cloudProviderTag ∧ v = ProviderName) ∨ (k = serviceTag ∧ v = svc_Name svc) ∨
    (k = namespaceTag ∧ v = svc_Namespace svc).
Proof.
  destruct tags_differ as (?&?&?). unfold tagsForService.
  rewrite !lookup_insert_Some, lookup_singleton_Some. naive_solver.
Qed.

Lemma tagsForService_size svc : size (tagsForService svc) = 3.
Proof.
  destruct tags_differ as (?&?&?). unfold tagsForService.
  rewrite !map_size_insert_None, map_size_singleton; [done|..].
  all: by rewrite ?lookup_insert_ne, ?lookup_singleton_ne by done.
Qed.

Lemma tagsForService_entries svc :
  map_to_list (tagsForService svc) ≡ₚ
    [(cloudProviderTag, ProviderName); (serviceTag, svc_Name svc); (namespaceTag, svc_Namespace svc)].
Proof.
  destruct tags_differ as (?&?&?). unfold tagsForService.
  rewrite !map_to_list_insert, map_to_list_singleton; [done|..].
  all: by rewrite ?lookup_insert_ne, ?lookup_singleton_ne by done.
Qed.

Lemma tagsForService_dom svc k :
  k ∈ dom (tagsForService svc) ↔ k ∈ [cloudProviderTag; serviceTag; namespaceTag].
Proof. unfold tagsForService. rewrite !dom_insert_L, dom_singleton_L. set_solver. Qed.

Lemma getTag_Some tags k v : getTag tags k = Some v → ∃ t, t ∈ tags ∧ Key t = k ∧ Value t = v.
Proof.
  induction tags as [|t tags IH]; simpl; [done|]. case_decide; intros Hg.
  - simplify_eq. exists t. set_solver.
  - destruct (IH Hg) as (t' & ? & ?). exists t'. set_solver.
Qed.

Lemma getTag_None tags k : getTag tags k = None ↔ k ∉ Key <$> tags.
Proof.
  induction tags as [|t tags IH]; simpl; [set_solver|]. case_decide; [set_solver|].
  rewrite IH. set_solver.
Qed.

Lemma getTag_distinct tags t :
  NoDup (Key <$> tags) → t ∈ tags → getTag tags (Key t) = Some (Value t).
Proof.
  induction tags as [|t' tags IH]; simpl; [set_solver|].
  intros [Hk Hnd]%NoDup_cons [->|Hin]%elem_of_cons; [by rewrite decide_True|].
  rewrite decide_False; [by apply IH|]. intros Heq. apply Hk. rewrite Heq.
  by apply list_elem_of_fmap_2.
Qed.

(** *** matchAllTags *)

Section matchAllTags.
Implicit Types (tags : gmap string string) (csTags : list Tags).

(** The tags the loop counts. *)
Definition counted tags csTags : list Tags :=
  filter (λ t, map_get tags (Key t) = Value t) csTags.

Lemma matchAllTags_loop_count tags csTags n :
  n < size tags →
  matchAllTags_loop tags csTags n = bool_decide (size tags ≤ n + length (counted tags csTags)).
Proof.
  unfold counted. revert n. induction csTags as [|t csTags IH]; intros n Hn;
    cbn [matchAllTags_loop].
  - symmetry. apply bool_decide_eq_false. simpl. lia.
  - rewrite filter_cons. case_decide as Ht; [|by apply IH]. case_decide as Hs; simpl.
    + symmetry. apply bool_decide_eq_true. lia.
    + rewrite IH by lia. apply bool_decide_ext. lia.
Qed.

(** What the function computes on any list: does it count at least as many
    tags as there are wanted ones? *)
Lemma matchAllTags_count tags csTags :
  tags ≠ ∅ → matchAllTags csTags tags = bool_decide (size tags ≤ length (counted tags csTags)).
Proof.
  intros Hne. unfold matchAllTags. rewrite matchAllTags_loop_count; [done|].
  apply map_size_non_empty_iff in Hne. lia.
Qed.

(** The wanted tags that the list has. *)
Definition has_all tags csTags : Prop :=
  ∀ k v, tags !! k = Some v → ∃ t, t ∈ csTags ∧ Key t = k ∧ Value t = v.

Lemma counted_keys tags csTags :
  (∀ t, t ∈ csTags → Value t = "" → is_Some (tags !! Key t)) →
  ∀ k, k ∈ Key <$> counted tags csTags → k ∈ dom tags.
Proof.
  intros Hfor k [t [-> [Hc Hin]%list_elem_of_filter]]%list_elem_of_fmap.
  apply elem_of_dom. unfold map_get in Hc.
  destruct (tags !! Key t) eqn:E; [eauto|]. simpl in Hc. rewrite <- E. by apply Hfor.
Qed.

(** On a resource whose tags have distinct keys, and whose tags with an
    empty value all have wanted keys, matchAllTags is the conjunction its
    comment asks for: it accepts exactly the resources that carry every wanted
    tag with the wanted value. *)
Lemma matchAllTags_spec tags csTags
    (Hne : tags ≠ ∅) (Hnd : NoDup (Key <$> csTags))
    (Hfor : ∀ t, t ∈ csTags → Value t = "" → is_Some (tags !! Key t)) :
  matchAllTags csTags tags = true ↔ has_all tags csTags.
Proof.
  rewrite matchAllTags_count by done. rewrite bool_decide_eq_true.
  assert (NoDup (Key <$> counted tags csTags)) as Hnd'.
  { eapply sublist_NoDup; [done|]. apply fmap_sublist, sublist_filter. }
  pose proof (counted_keys tags csTags Hfor) as Hkeys.
  set (ks := list_to_set (Key <$> counted tags csTags) : gset string).
  assert (size ks = length (counted tags csTags)) as Hsize.
  { unfold ks. rewrite size_list_to_set by done. by rewrite length_fmap. }
  assert (ks ⊆ dom tags) as Hsub by (intros k; unfold ks; rewrite elem_of_list_to_set; apply Hkeys).
  rewrite <- Hsize, <- size_dom. split.
  - intros Hle k v Hkv.
    assert (k ∈ ks) as Hk.
    { rewrite (set_subseteq_size_eq ks (dom tags)); [|done..]. apply elem_of_dom. eauto. }
    apply elem_of_list_to_set, list_elem_of_fmap in Hk as [t [-> [Hc Hin]%list_elem_of_filter]].
    exists t. unfold map_get in Hc. rewrite Hkv in Hc. by split_and!.
  - intros Hall. apply subseteq_size. intros k [v Hkv]%elem_of_dom.
    destruct (Hall k v Hkv) as (t & Hin & <- & <-). apply elem_of_list_to_set, list_elem_of_fmap_2.
    apply list_elem_of_filter. split; [|done]. unfold map_get. by rewrite Hkv.
Qed.
End matchAllTags.

(** Without that proviso the conjunction is lost: tags of any other keys
    with empty values are counted as matches, so a resource that shares only
    its service name with the service, and carries two such tags, is accepted
    although it lacks the provider and the namespace tag. *)
Theorem matchAllTags_counts_foreign_tags (svc : Service) (a b : string)
    (Ha : a ∉ [cloudProviderTag; serviceTag; namespaceTag])
    (Hb : b ∉ [cloudProviderTag; serviceTag; namespaceTag]) (Hab : a ≠ b) :
  let csTags := [ {| Key := serviceTag; Value := svc_Name svc |};
                  {| Key := a; Value := "" |}; {| Key := b; Value := "" |} ] in
  matchAllTags csTags (tagsForService svc) = true ∧
  NoDup (Key <$> csTags) ∧ ¬ has_all (tagsForService svc) csTags.
Proof.
  assert (∀ k, k ∉ [cloudProviderTag; serviceTag; namespaceTag] →
    map_get (tagsForService svc) k = "") as Hforeign.
  { intros k Hk. unfold map_get. destruct (tagsForService svc !! k) eqn:E; [|done].
    apply tagsForService_lookup in E. set_solver. }
  split_and!.
  - unfold matchAllTags. cbn [matchAllTags_loop Key Value].
    assert (map_get (tagsForService svc) serviceTag = svc_Name svc) as Hsvc.
    { unfold map_get. rewrite (proj2 (tagsForService_lookup svc serviceTag (svc_Name svc))); [done|].
      by right; left. }
    rewrite Hsvc, (Hforeign a), (Hforeign b), tagsForService_size by done.
    by rewrite !decide_True by done.
  - simpl. repeat constructor; set_solver.
  - intros Hall. destruct (Hall cloudProviderTag ProviderName) as (t & Hin & Hk & Hv).
    { apply tagsForService_lookup. by left. }
    destruct tags_differ as (?&?&?). set_solver.
Qed.

(** *** Ownership *)

Lemma shouldManageIP_getTag i svc :
  shouldManageIP i svc = true ↔ ∀ k v, tagsForService svc !! k = Some v → getTag (ip_Tags i) k = Some v.
Proof.
  unfold shouldManageIP. rewrite forallb_forall. setoid_rewrite <- list_elem_of_In. split.
  - intros Hall k v Hkv. specialize (Hall (k, v)). simpl in Hall.
    rewrite elem_of_map_to_list in Hall. specialize (Hall Hkv).
    destruct (getTag (ip_Tags i) k); [|done]. apply bool_decide_eq_true in Hall. by subst.
  - intros Hall [k v] Hin. rewrite elem_of_map_to_list in Hin. rewrite (Hall k v Hin).
    by apply bool_decide_eq_true.
Qed.

(** The provider manages an IP exactly when the IP carries the three tags
    of the service (provider, service name and namespace, with these values):
    on tags with distinct keys this is the same decision as the search by tags
    makes with matchAllTags, as long as no tag has an empty value. *)
Theorem shouldManageIP_spec i svc
    (Hnd : NoDup (Key <$> ip_Tags i)) (Hval : ∀ t, t ∈ ip_Tags i → Value t ≠ "") :
  (shouldManageIP i svc = true ↔ has_all (tagsForService svc) (ip_Tags i)) ∧
  shouldManageIP i svc = matchAllTags (ip_Tags i) (tagsForService svc).
Proof.
  assert (shouldManageIP i svc = true ↔ has_all (tagsForService svc) (ip_Tags i)) as Hiff.
  { rewrite shouldManageIP_getTag. split.
    - intros Hall k v Hkv. by apply getTag_Some, Hall.
    - intros Hall k v Hkv. destruct (Hall k v Hkv) as (t & Hin & <- & <-). by apply getTag_distinct. }
  split; [done|]. apply eq_bool_prop_intro. rewrite !Is_true_true, Hiff, matchAllTags_spec.
  - done.
  - intros He. apply (f_equal size) in He. by rewrite tagsForService_size, map_size_empty in He.
  - done.
  - intros t Hin Hv. by destruct (Hval t Hin).
Qed.

(** A tag of a rule does not contradict the service: it has the wanted value,
    or it is the namespace tag and is absent. *)
Definition tag_agrees (tags : list Tags) (k v : string) : Prop :=
  getTag tags k = Some v ∨ (k = namespaceTag ∧ getTag tags k = None).

Lemma missing_tag_None tags k v : missing_tag tags (k, v) = None ↔ tag_agrees tags k v.
Proof.
  unfold missing_tag, tag_agrees. destruct (getTag tags k) as [v'|].
  - case_decide; naive_solver.
  - case_decide; naive_solver.
Qed.

(** (C31) The provider manages a rule exactly when the service has no rule yet,
    or the rule does not carry the ignore tag and either its provider and
    service tags are the service's and its namespace tag is the service's or
    absent, or the service's status names this very balancer as its only
    ingress. *)
Theorem shouldManageLB_spec (lb : loadBalancer) :
  shouldManageLB lb = None ↔
    match rule lb with
    | None => True
    | Some r =>
        getTag (lbr_Tags r) cloudProviderIgnoreTag = None ∧
        ((tag_agrees (lbr_Tags r) cloudProviderTag ProviderName ∧
          tag_agrees (lbr_Tags r) serviceTag (svc_Name (service lb)) ∧
          tag_agrees (lbr_Tags r) namespaceTag (svc_Namespace (service lb))) ∨
         ing_Hostname <$> Ingress (service lb) = [lb_name lb])
    end.
Proof.
  unfold shouldManageLB. destruct (rule lb) as [r|]; [|done].
  case_decide as Hign.
  { split; [done|]. intros [Hn _]. rewrite Hn in Hign. by destruct Hign. }
  apply eq_None_not_Some in Hign.
  set (l := map_to_list (tagsForService (service lb))).
  assert (omap (missing_tag (lbr_Tags r)) l = [] ↔
    tag_agrees (lbr_Tags r) cloudProviderTag ProviderName ∧
    tag_agrees (lbr_Tags r) serviceTag (svc_Name (service lb)) ∧
    tag_agrees (lbr_Tags r) namespaceTag (svc_Namespace (service lb))) as Hmissing.
  { rewrite <- !missing_tag_None. rewrite omap_nil_iff. subst l.
    rewrite (tagsForService_entries (service lb)). rewrite !Forall_cons, Forall_nil. tauto. }
  rewrite <- Hmissing. destruct (omap _ l) as [|m ms]; [tauto|].
  destruct (Ingress (service lb)) as [|ing [|]]; simpl;
    [split; [done|]; by intros [_ [?|?]]| |split; [done|]; by intros [_ [?|?]]].
  case_decide as Hhost.
  - split; [|done]. intros _. split; [done|]. right. by rewrite Hhost.
  - split; [done|]. intros [_ [?|?]]; by simplify_eq.
Qed.

(** Tags are assigned again to an existing rule exactly when one of the
    three tag keys is absent from it; a rule that is managed by its tags and
    needs none carries all three of the service's tags. *)
Lemma hasMissingTags_spec (lb : loadBalancer) (r : loadBalancerRule) :
  (hasMissingTags r = true ↔
    ∃ k, k ∈ dom (tagsForService (service lb)) ∧ getTag (lbr_Tags r) k = None) ∧
  (hasMissingTags r = false →
   (∀ k v, tagsForService (service lb) !! k = Some v → tag_agrees (lbr_Tags r) k v) →
   has_all (tagsForService (service lb)) (lbr_Tags r)).
Proof.
  assert (∀ k, foldl (λ m t, <[Key t := Value t]> m) (∅ : gmap string string) (lbr_Tags r) !! k = None
      ↔ getTag (lbr_Tags r) k = None) as Hmap.
  { intros k. rewrite getTag_None.
    assert (∀ m : gmap string string, foldl (λ m t, <[Key t := Value t]> m) m (lbr_Tags r) !! k = None
      ↔ m !! k = None ∧ k ∉ Key <$> lbr_Tags r) as ->; [|by rewrite lookup_empty; naive_solver].
    induction (lbr_Tags r) as [|t ts IH]; intros m; simpl; [set_solver|].
    rewrite IH, lookup_insert_None. set_solver. }
  assert (hasMissingTags r = true ↔
    ∃ k, k ∈ dom (tagsForService (service lb)) ∧ getTag (lbr_Tags r) k = None) as Hiff.
  { unfold hasMissingTags. rewrite existsb_exists. setoid_rewrite bool_decide_eq_true.
    setoid_rewrite Hmap. setoid_rewrite <- list_elem_of_In.
    by setoid_rewrite (tagsForService_dom (service lb)). }
  split; [done|]. intros Hf Hag k v Hkv.
  destruct (Hag k v Hkv) as [Hg|[_ Hg]]; [by apply getTag_Some|].
  assert (hasMissingTags r = true) as Ht; [|by rewrite Hf in Ht].
  apply Hiff. exists k. split; [|done]. apply elem_of_dom. eauto.
Qed.

(** ** The state of a method of a load balancer

    The world with its log, and the balancer the method is called on. *)
Record lbst (W : Type) := LB { lenv : env W; lobj : loadBalancer }.
Arguments LB {W} _ _.
Arguments lenv {W} _.
Arguments lobj {W} _.

Section state.
Context {W : Type}.

(** Code that does not touch the balancer. *)
Definition on_env {A} (m : M (env W) A) : M (lbst W) A :=
  zoom lenv (λ e s, LB e (lobj s)) m.
Definition the_lb : M (lbst W) loadBalancer := gets lobj.
Definition modify_lb (f : loadBalancer → loadBalancer) : M (lbst W) unit :=
  modify (λ s, LB (lenv s) (f (lobj s))).

Definition lb_client : M (lbst W) client := lb ← the_lb; of_sum (getClient (cloud lb)).
End state.

Definition set_rule (r : option loadBalancerRule) (lb : loadBalancer) : loadBalancer :=
  {| cloud := cloud lb; lb_name := lb_name lb; algorithm := algorithm lb;
     mainNetworkID := mainNetworkID lb; ip := ip lb; rule := r; service := service lb |}.
Definition set_ip (i : cloudstackIP) (lb : loadBalancer) : loadBalancer :=
  {| cloud := cloud lb; lb_name := lb_name lb; algorithm := algorithm lb;
     mainNetworkID := mainNetworkID lb; ip := i; rule := rule lb; service := service lb |}.
Definition set_algorithm (a : string) (lb : loadBalancer) : loadBalancer :=
  {| cloud := cloud lb; lb_name := lb_name lb; algorithm := a;
     mainNetworkID := mainNetworkID lb; ip := ip lb; rule := rule lb; service := service lb |}.
Definition set_mainNetworkID (n : string) (lb : loadBalancer) : loadBalancer :=
  {| cloud := cloud lb; lb_name := lb_name lb; algorithm := algorithm lb;
     mainNetworkID := n; ip := ip lb; rule := rule lb; service := service lb |}.
Definition set_service (s : Service) (lb : loadBalancer) : loadBalancer :=
  {| cloud := cloud lb; lb_name := lb_name lb; algorithm := algorithm lb;
     mainNetworkID := mainNetworkID lb; ip := ip lb; rule := rule lb; service := s |}.

Definition set_Ports (ps : list ServicePort) (s : Service) : Service :=
  {| svc_meta := svc_meta s; Ports := ps; SessionAffinity := SessionAffinity s;
     LoadBalancerIP := LoadBalancerIP s; Ingress := Ingress s |}.

(** The balancer's method only made calls that satisfy [P]. *)
Definition lb_logs {W} (P : event → Prop) (s s' : lbst W) : Prop := logs P (lenv s) (lenv s').

#[export] Instance lb_logs_preorder {W} (P : event → Prop) : PreOrder (@lb_logs W P).
Proof.
  split; [intros s; unfold lb_logs; reflexivity|]. intros s1 s2 s3 H1 H2.
  unfold lb_logs in *. by etrans.
Qed.

Section state_facts.
Context {W : Type}.

Lemma wp_on_env {A} (m : M (env W) A) (Q : res A → lbst W → Prop) s :
  wp m (λ r e, Q r (LB e (lobj s))) (lenv s) → wp (on_env m) Q s.
Proof. intros H. unfold on_env. by apply wp_zoom. Qed.

Lemma preserves_on_env {A} (P : event → Prop) (m : M (env W) A) :
  preserves (logs P) m → preserves (lb_logs P) (on_env m).
Proof. apply preserves_zoom. by intros s t. Qed.

Lemma preserves_modify_lb (P : event → Prop) f : preserves (@lb_logs W P) (modify_lb f).
Proof. intros s. unfold lb_logs. simpl. reflexivity. Qed.

Lemma preserves_lb_client (P : event → Prop) : preserves (@lb_logs W P) lb_client.
Proof. unfold lb_client, the_lb. preserve. Qed.
End state_facts.

#[export] Hint Resolve preserves_on_env preserves_modify_lb preserves_lb_client : ccm.

(** Code that, in addition, leaves the balancer as it is. *)
Definition lb_keeps {W} (P : event → Prop) (s s' : lbst W) : Prop :=
  lobj s' = lobj s ∧ lb_logs P s s'.

#[export] Instance lb_keeps_preorder {W} (P : event → Prop) : PreOrder (@lb_keeps W P).
Proof.
  split; [by intros s|]. intros s1 s2 s3 [H1 L1] [H2 L2]. split; [congruence|by etrans].
Qed.

Section keeps_facts.
Context {W : Type}.

Lemma keeps_on_env {A} (P : event → Prop) (m : M (env W) A) :
  preserves (logs P) m → preserves (lb_keeps P) (on_env m).
Proof. apply preserves_zoom. by intros s t. Qed.

Lemma keeps_the_lb (P : event → Prop) : preserves (@lb_keeps W P) the_lb.
Proof. apply preserves_gets. apply _. Qed.

Lemma keeps_lb_client (P : event → Prop) : preserves (@lb_keeps W P) lb_client.
Proof. unfold lb_client, the_lb. preserve. Qed.

Lemma keeps_logs {A} (P : event → Prop) (m : M (lbst W) A) :
  preserves (lb_keeps P) m → preserves (lb_logs P) m.
Proof. intros Hm s. apply Hm. Qed.

(** The client of the balancer's environment. *)
Lemma wp_lb_client (Q : res client → lbst W → Prop) s :
  match getClient (cloud (lobj s)) with inl e => Q (Err e) s | inr c => Q (Ok c) s end →
  wp lb_client Q s.
Proof.
  intros H. unfold lb_client, the_lb. apply wp_bind. unfold wp. simpl.
  by destruct (getClient (cloud (lobj s))).
Qed.
End keeps_facts.

#[export] Hint Resolve keeps_on_env keeps_the_lb keeps_lb_client : ccm.

(** ** Code under an invariant of the balancer

    [guarded I P m]: run on a balancer that satisfies [I], the code [m] leaves
    one that satisfies [I] and only makes calls that satisfy [P]. *)
Definition guarded {W} (I : loadBalancer → Prop) (P : event → Prop) {A} (m : M (lbst W) A) : Prop :=
  ∀ s, I (lobj s) → I (lobj (m s).1) ∧ lb_logs P s (m s).1.

Section guarded_facts.
Context {W : Type} (I : loadBalancer → Prop) (P : event → Prop).

Lemma guarded_keeps {A} (m : M (lbst W) A) : preserves (lb_keeps P) m → guarded I P m.
Proof. intros Hm s Hs. destruct (Hm s) as [Ho Hl]. by rewrite Ho. Qed.

Lemma guarded_bind {A B} (m : M (lbst W) A) (f : A → M (lbst W) B) :
  guarded I P m → (∀ a, guarded I P (f a)) → guarded I P (m ≫= f).
Proof.
  intros Hm Hf s Hs. destruct (Hm s Hs) as [Hs1 Hl1]. unfold mbind, M_bind.
  destruct (m s) as [s1 [a|e|p|]]; simpl in *; try done.
  destruct (Hf a s1 Hs1) as [Hs2 Hl2]. split; [done|by etrans].
Qed.

Lemma guarded_lb {B} (f : loadBalancer → M (lbst W) B) :
  (∀ lb, I lb → guarded I P (f lb)) → guarded I P (the_lb ≫= f).
Proof. intros Hf s Hs. by apply (Hf (lobj s)). Qed.

Lemma guarded_deref {A B} (o : option A) (f : A → M (lbst W) B) :
  (∀ a, o = Some a → guarded I P (f a)) → guarded I P (deref o ≫= f).
Proof.
  intros Hf s Hs. destruct o as [a|]; [by apply Hf|]. split; [done|].
  unfold lb_logs. simpl. reflexivity.
Qed.

Lemma guarded_ret {A} (a : A) : guarded I P (mret a : M (lbst W) A).
Proof. apply guarded_keeps, preserves_ret. apply _. Qed.

Lemma guarded_throw {A} e : guarded I P (throw e : M (lbst W) A).
Proof. apply guarded_keeps, preserves_throw. apply _. Qed.

Lemma guarded_client : guarded (W:=W) I P lb_client.
Proof. apply guarded_keeps, keeps_lb_client. Qed.

Lemma guarded_modify f : (∀ lb, I lb → I (f lb)) → guarded (W:=W) I P (modify_lb f).
Proof. intros Hf s Hs. split; [by apply Hf|]. apply preserves_modify_lb. Qed.

Lemma guarded_for_each {A} (l : list A) (body : A → M (lbst W) unit) :
  (∀ x, guarded I P (body x)) → guarded I P (for_each l body).
Proof.
  intros Hb. induction l as [|x l IH]; cbn [for_each]; [apply guarded_ret|by apply guarded_bind].
Qed.

Lemma guarded_env {A} (m : M (env W) A) : preserves (logs P) m → guarded I P (on_env m).
Proof. intros Hm. by apply guarded_keeps, keeps_on_env. Qed.

Lemma guarded_wrap {A} f (m : M (lbst W) A) : guarded I P m → guarded I P (wrap f m).
Proof. intros Hm s Hs. unfold wrap. pose proof (Hm s Hs). by destruct (m s) as [s' []]. Qed.

Lemma guarded_call `{!Cloud W} {A} (e : ev (error + A)) :
  P (Ev e) → guarded I P (on_env (call_err e)).
Proof. intros He. by apply guarded_env, preserves_call_err. Qed.
End guarded_facts.

Lemma guarded_mono {W} I (P Q : event → Prop) {A} (m : M (lbst W) A) :
  (∀ e, P e → Q e) → guarded I P m → guarded I Q m.
Proof. intros HPQ Hm s Hs. destruct (Hm s Hs). split; [done|]. by eapply logs_mono. Qed.

(** Walks through the code of a guarded computation; the case of a balancer read
    from the state keeps that it satisfies the invariant. *)
Ltac guarding :=
  repeat first
    [ progress intros
    | solve [eauto with ccm]
    | apply guarded_ret | apply guarded_throw | apply guarded_client
    | apply guarded_lb; intros ? ? | apply guarded_deref; intros ? ?
    | apply guarded_bind
    | apply guarded_wrap
    | apply guarded_for_each
    | solve [apply guarded_env; eauto with ccm typeclass_instances]
    | case_goal ].

(** The same for code that exchanges the invariant [I] for [I']. *)
Definition leads {W} (I I' : loadBalancer → Prop) (P : event → Prop) {A} (m : M (lbst W) A) : Prop :=
  ∀ s, I (lobj s) → I' (lobj (m s).1) ∧ lb_logs P s (m s).1.

Section leads_facts.
Context {W : Type} (I I' : loadBalancer → Prop) (P : event → Prop) (HI : ∀ lb, I lb → I' lb).

Lemma leads_bind {A B} (m : M (lbst W) A) (f : A → M (lbst W) B) :
  guarded I P m → (∀ a, leads I I' P (f a)) → leads I I' P (m ≫= f).
Proof using HI.
  intros Hm Hf s Hs. destruct (Hm s Hs) as [Hs1 Hl1]. unfold mbind, M_bind.
  destruct (m s) as [s1 [a|e|p|]]; simpl in *; auto.
  destruct (Hf a s1 Hs1) as [Hs2 Hl2]. split; [done|by etrans].
Qed.

Lemma leads_lb {B} (f : loadBalancer → M (lbst W) B) :
  (∀ lb, I lb → leads I I' P (f lb)) → leads I I' P (the_lb ≫= f).
Proof. intros Hf s Hs. by apply (Hf (lobj s)). Qed.

Lemma leads_guarded {A} (m : M (lbst W) A) : guarded I' P m → leads I I' P m.
Proof using HI. intros Hm s Hs. by apply Hm, HI. Qed.
End leads_facts.
