(* ===== verification/Ports.v ===== *)
(** * Ports and health checks (loadbalancer.go)

    From the ports of a service to the ports of a rule, the comparison that
    decides whether a rule must be made again, and the health checks of the
    pools behind a rule. *)
From Stdlib Require Import Ascii.
From stdpp Require Import base list strings gmap sorting pretty.
From S2P Require Import Prelude GoStd Kube Cloud Config Meta Balancer.

Definition lbUseTargetPort : string := "csccm.cloudprovider.io/loadbalancer-use-targetport".
Definition lbCustomHealthCheckMessagePrefix : string :=
  "csccm.cloudprovider.io/loadbalancer-custom-healthcheck-msg-".
Definition lbCustomHealthCheckResponsePrefix : string :=
  "csccm.cloudprovider.io/loadbalancer-custom-healthcheck-rsp-".

(** ** Data *)

Record lbPortInfo := { publicPort : Z; privatePort : Z; lpi_name : string }.
Record lbPorts := { ports : list lbPortInfo; protocol : string }.

(** lbPorts.publicPort and lbPorts.privatePort. *)
Definition first_publicPort (p : lbPorts) : Z :=
  match ports p with [] => 0 | p0 :: _ => publicPort p0 end.
Definition first_privatePort (p : lbPorts) : Z :=
  match ports p with [] => 0 | p0 :: _ => privatePort p0 end.

Definition port_pair (p : lbPortInfo) : string :=
  Itoa (publicPort p) +:+ ":" +:+ Itoa (privatePort p).

(** A nil slice is []. *)
Definition additionalPorts (p : lbPorts) : list string :=
  if decide (length (ports p) < 2) then []
  else sort_Strings (port_pair <$> tail (ports p)).

(** ** Sorting the ports of a service, in place

    sort.Slice on at most twelve elements is an insertion sort: every element
    moves left past the elements that are greater. *)
Fixpoint insert_port (p : ServicePort) (l : list ServicePort) : list ServicePort :=
  match l with
  | [] => [p]
  | q :: l => if decide (sp_Port p < sp_Port q)%Z then p :: q :: l else q :: insert_port p l
  end.

Definition sortPorts (l : list ServicePort) : list ServicePort :=
  foldl (λ sorted p, insert_port p sorted) [] l.

(** ** From service ports to balancer ports *)

Section service_ports.
Context {W} `{!Cloud W}.

Definition getTargetPort (targetPort : IntOrString) : M (lbst W) Z :=
  if decide (0 < IntValue targetPort)%Z then mret (IntValue targetPort) else
  lb ← the_lb;
  r ← on_env (call (GetEndpoints (svc_Namespace (service lb)) (svc_Name (service lb))));
  match r with
  | inl err => throw (Errorf "error get endpoints: %v" [Error err])
  | inr endpoint =>
      match Subsets endpoint with
      | [] => throw (Errorf "no endpoints found for %v" [lb_String (Some lb)])
      | subset :: _ =>
          match filter (λ p, ep_Name p = IntOrString_String targetPort) (ep_Ports subset) with
          | port :: _ => mret (ep_Port port)
          | [] => throw (Errorf "no port name %s found for endpoint for %v"
                            [IntOrString_String targetPort; lb_String (Some lb)])
          end
      end
  end.

Fixpoint convert_ports (useTargetPort : bool) (proto : string) (ps : list ServicePort) :
    M (lbst W) (list lbPortInfo) :=
  match ps with
  | [] => mret []
  | p :: ps =>
      if decide (sp_Protocol p ≠ proto) then
        throw (Errorf "unsupported load balancer with multiple protocols: %q and %q"
                 [proto; sp_Protocol p])
      else
        targetPort ← (if useTargetPort then getTargetPort (sp_TargetPort p)
                      else mret (sp_NodePort p));
        rest ← convert_ports useTargetPort proto ps;
        mret ({| publicPort := sp_Port p; privatePort := targetPort; lpi_name := sp_Name p |}
                :: rest)
  end.

Definition serviceToLBPorts : M (lbst W) lbPorts :=
  lb ← the_lb;
  match Ports (service lb) with
  | [] => throw (Errorf "service ports are empty" [])
  | _ =>
      let ps := sortPorts (Ports (service lb)) in
      modify_lb (set_service (set_Ports ps (service lb))) ;;
      p0 ← index ps 0;
      let proto := sp_Protocol p0 in
      if decide (proto ≠ ProtocolTCP ∧ proto ≠ ProtocolUDP) then
        throw (Errorf "unsupported load balancer protocol: %v" [proto])
      else
        infos ← convert_ports (has_label (svc_meta (service lb)) lbUseTargetPort) proto ps;
        mret {| ports := infos; protocol := proto |}
  end.
End service_ports.

(** ** Comparing with a rule

    The additional ports of the rule are sorted in place. *)
Definition sort_rule (r : loadBalancerRule) : loadBalancerRule :=
  {| lbr_Id := lbr_Id r; lbr_Name := lbr_Name r; lbr_Algorithm := lbr_Algorithm r;
     lbr_Cidrlist := lbr_Cidrlist r; lbr_Networkid := lbr_Networkid r;
     Privateport := Privateport r; Publicport := Publicport r; Publicip := Publicip r;
     Publicipid := Publicipid r; Zoneid := Zoneid r; lbr_Protocol := lbr_Protocol r;
     lbr_Tags := lbr_Tags r; AdditionalPortMap := sort_Strings (AdditionalPortMap r) |}.

Definition comparePorts (ps : lbPorts) (r : loadBalancerRule) : loadBalancerRule * bool :=
  let r := sort_rule r in
  (r, bool_decide (additionalPorts ps = AdditionalPortMap r ∧
                   Privateport r = Itoa (first_privatePort ps) ∧
                   Publicport r = Itoa (first_publicPort ps) ∧
                   lbr_Protocol r = protocol ps)).

(** ** Health checks *)

Record hcPortInfo := { hc_protocol : string; requiresMsg : bool }.

Definition supportedHCProtocols : gmap string bool :=
  {[ "HTTP" := true; "HTTPS" := true; "TCP" := false; "UDP" := false ]}.

Definition portToHCProtocol (ps : lbPorts) (portInfo : lbPortInfo) : hcPortInfo :=
  let svcNamePrefix :=
    match Split (lpi_name portInfo) "-" with w :: _ => ToUpper w | [] => "" end in
  match supportedHCProtocols !! svcNamePrefix with
  | Some hasMsg => {| hc_protocol := svcNamePrefix; requiresMsg := hasMsg |}
  | None => {| hc_protocol := protocol ps; requiresMsg := false |}
  end.

Definition set_check (message response proto : string) (p : globoNetworkPool) : globoNetworkPool :=
  {| pool_Port := pool_Port p; VipPort := VipPort p; HealthCheckType := proto;
     HealthCheck := message; HealthCheckExpected := response; pool_Id := pool_Id p |}.

(** The search for the first pool of the port whose check differs: it is
    changed in place and returned. *)
Fixpoint update_first_pool (vipPort dstPort : Z) (message response proto : string)
    (pools : list globoNetworkPool) : option globoNetworkPool * list globoNetworkPool :=
  match pools with
  | [] => (None, [])
  | pool :: pools =>
      if decide ((VipPort pool = vipPort ∧ pool_Port pool = dstPort) ∧
                 (HealthCheck pool ≠ message ∨ HealthCheckExpected pool ≠ response ∨
                  HealthCheckType pool ≠ proto))
      then let pool' := set_check message response proto pool in (Some pool', pool' :: pools)
      else let '(found, pools') := update_first_pool vipPort dstPort message response proto pools in
           (found, pool :: pools')
  end.

Definition generateGloboNetworkPool (ps : lbPorts) (portInfo : lbPortInfo) (svc : Service)
    (pools : list globoNetworkPool) : option globoNetworkPool * list globoNetworkPool :=
  let hc := portToHCProtocol ps portInfo in
  let response := label_value (svc_meta svc) (lbCustomHealthCheckResponsePrefix +:+ lpi_name portInfo) in
  let message := label_value (svc_meta svc) (lbCustomHealthCheckMessagePrefix +:+ lpi_name portInfo) in
  if decide (requiresMsg hc = true ∧ message = "") then (None, pools)
  else update_first_pool (publicPort portInfo) (privatePort portInfo) message response
         (hc_protocol hc) pools.

(** ** Facts on sorting *)

Definition port_le (p q : ServicePort) : Prop := (sp_Port p ≤ sp_Port q)%Z.

#[export] Instance port_le_trans : Transitive port_le.
Proof. intros p q r. unfold port_le. lia. Qed.

Lemma insert_port_perm p l : insert_port p l ≡ₚ p :: l.
Proof.
  induction l as [|q l IH]; simpl; [done|]. case_decide; [done|].
  rewrite IH. apply Permutation_swap.
Qed.

Lemma insert_port_sorted p l : StronglySorted port_le l → StronglySorted port_le (insert_port p l).
Proof.
  induction 1 as [|q l Hs IH Hall]; simpl; [by repeat constructor|]. case_decide as Hpq.
  - constructor; [by constructor|]. constructor; [unfold port_le; lia|].
    eapply Forall_impl; [done|]. unfold port_le. intros; lia.
  - constructor; [done|]. rewrite insert_port_perm. constructor; [unfold port_le; lia|done].
Qed.

Lemma sortPorts_snoc l p : sortPorts (l ++ [p]) = insert_port p (sortPorts l).
Proof. unfold sortPorts. by rewrite foldl_app. Qed.

Lemma sortPorts_perm l : sortPorts l ≡ₚ l.
Proof.
  induction l as [|p l IH] using rev_ind; [done|].
  rewrite sortPorts_snoc, insert_port_perm, IH. apply Permutation_cons_append.
Qed.

Lemma sortPorts_sorted l : StronglySorted port_le (sortPorts l).
Proof.
  induction l as [|p l IH] using rev_ind; [constructor|].
  rewrite sortPorts_snoc. by apply insert_port_sorted.
Qed.

Lemma insert_port_last p l : Forall (λ q, port_le q p) l → insert_port p l = l ++ [p].
Proof.
  induction 1 as [|q l Hq _ IH]; simpl; [done|]. unfold port_le in Hq.
  rewrite decide_False by lia. by rewrite IH.
Qed.

(** Sorting sorted ports changes nothing: sorting again, in place, at the next
    call is harmless. *)
Lemma sortPorts_id l : StronglySorted port_le l → sortPorts l = l.
Proof.
  induction l as [|p l IH] using rev_ind; [done|]. intros Hs.
  rewrite sortPorts_snoc. apply StronglySorted_app in Hs as (Hle & Hs & _).
  rewrite IH by done. apply insert_port_last. apply Forall_forall. intros q Hq.
  apply Hle; set_solver.
Qed.

Lemma sortPorts_idemp l : sortPorts (sortPorts l) = sortPorts l.
Proof. apply sortPorts_id, sortPorts_sorted. Qed.

Lemma sortPorts_nil_iff l : sortPorts l = [] ↔ l = [].
Proof.
  split; [|by intros ->]. intros Hs. apply Permutation_nil_r. by rewrite <- Hs, sortPorts_perm.
Qed.

(** ** Ports of a service *)

Section service_ports_facts.
Context {W} `{!Cloud W}.
Implicit Types s : lbst W.

Definition node_port (p : ServicePort) : lbPortInfo :=
  {| publicPort := sp_Port p; privatePort := sp_NodePort p; lpi_name := sp_Name p |}.

Lemma convert_ports_nodeports proto ps s :
  (Forall (λ p, sp_Protocol p = proto) ps ∧
   convert_ports false proto ps s = (s, Ok (node_port <$> ps))) ∨
  (¬ Forall (λ p, sp_Protocol p = proto) ps ∧ ∃ e, convert_ports false proto ps s = (s, Err e)).
Proof.
  induction ps as [|p ps IH]; [by left|]. cbn [convert_ports]. rewrite Forall_cons.
  case_decide as Hp; [right; split; [tauto|]; by eexists|].
  unfold mbind, M_bind, mret, M_ret.
  destruct IH as [[Hall ->]|[Hall [e ->]]].
  - left. by split_and!.
  - right. split; [tauto|]. by exists e.
Qed.

#[local] Arguments convert_ports : simpl never.

Definition single_protocol (proto : string) (ps : list ServicePort) : Prop :=
  ps ≠ [] ∧ (proto = ProtocolTCP ∨ proto = ProtocolUDP) ∧ Forall (λ p, sp_Protocol p = proto) ps.

Lemma serviceToLBPorts_nodeports s proto :
  has_label (svc_meta (service (lobj s))) lbUseTargetPort = false →
  single_protocol proto (Ports (service (lobj s))) →
  let svc := service (lobj s) in
  serviceToLBPorts s =
    (LB (lenv s) (set_service (set_Ports (sortPorts (Ports svc)) svc) (lobj s)),
     Ok {| ports := node_port <$> sortPorts (Ports svc); protocol := proto |}).
Proof.
  intros Hlabel (Hne & Hproto & Hall) svc. unfold serviceToLBPorts, the_lb, gets.
  unfold mbind at 1, M_bind. change (service (lobj s)) with svc in Hlabel, Hne, Hall |- *.
  pose proof (sortPorts_perm (Ports svc)) as Hperm.
  assert (Forall (λ p, sp_Protocol p = proto) (sortPorts (Ports svc))) as Hall' by (by rewrite Hperm).
  destruct (Ports svc) as [|p ps]; [done|].
  destruct (sortPorts (p :: ps)) as [|p0 ps0]; [by apply Permutation_nil_l in Hperm|].
  pose proof (Forall_inv Hall') as Hp0. simpl in Hp0.
  unfold mbind at 1, M_bind, modify_lb, modify. unfold mbind at 1, M_bind, index. simpl.
  rewrite Hp0, decide_False by naive_solver. rewrite Hlabel. unfold mbind at 1, M_bind.
  match goal with |- context [convert_ports false proto ?l ?st] =>
    destruct (convert_ports_nodeports proto l st) as [[_ ->]|[Hn _]] end; [done|by destruct Hn].
Qed.

(** (C32) Without the target-port label, the ports of a rule are found without
    any call, for exactly the services that have a port and whose ports are
    all TCP or all UDP; they are then the service's ports with their node
    ports, in ascending order of the public port, and the ports of the
    service object are left sorted.  Every other service is refused with an
    error. *)
Theorem serviceToLBPorts_spec s (Hlabel : has_label (svc_meta (service (lobj s))) lbUseTargetPort = false) :
  let svc := service (lobj s) in
  wp serviceToLBPorts (λ r s',
    lenv s' = lenv s ∧
    Ports (service (lobj s')) = sortPorts (Ports svc) ∧
    match r with
    | Ok lp => single_protocol (protocol lp) (Ports svc) ∧
               ports lp = node_port <$> sortPorts (Ports svc) ∧
               Sorted Z.le (publicPort <$> ports lp)
    | Err _ => ∀ proto, ¬ single_protocol proto (Ports svc)
    | _ => False
    end) s.
Proof.
  unfold serviceToLBPorts, single_protocol. apply wp_bind. unfold wp at 1. simpl.
  destruct (Ports (service (lobj s))) as [|p ps] eqn:Hps.
  { apply wp_throw. split_and!; [done|by rewrite Hps|]. naive_solver. }
  rewrite <- Hps. set (l := Ports (service (lobj s))) in *.
  apply wp_bind. unfold wp at 1. simpl.
  destruct (sortPorts l) as [|p0 ps0] eqn:Hsort.
  { apply (proj1 (sortPorts_nil_iff l)) in Hsort. congruence. }
  apply wp_bind. unfold wp at 1. simpl.
  pose proof (sortPorts_perm l) as Hperm. rewrite Hsort in Hperm.
  assert (p0 ∈ l) as Hin by (rewrite <- Hperm; set_solver).
  case_decide as Hproto.
  { apply wp_throw. simpl. split_and!; [done..|]. intros proto (_ & Hp & Hall).
    rewrite Forall_forall in Hall. specialize (Hall _ Hin). naive_solver. }
  rewrite Hlabel. apply wp_bind. unfold wp at 1.
  match goal with |- context [convert_ports false _ _ ?st] =>
    destruct (convert_ports_nodeports (sp_Protocol p0) (p0 :: ps0) st)
      as [[Hall ->]|[Hall [e ->]]] end; simpl.
  - apply wp_ret. simpl. split_and!; try done; [by rewrite Hps|..].
    + destruct (decide (sp_Protocol p0 = ProtocolTCP)); [by left|].
      destruct (decide (sp_Protocol p0 = ProtocolUDP)); [by right|]. tauto.
    + by rewrite <- Hperm.
    + change (Sorted Z.le (publicPort <$> (node_port <$> (p0 :: ps0)))).
      rewrite <- Hsort, <- list_fmap_compose. apply StronglySorted_Sorted.
      eapply StronglySorted_fmap; [|apply sortPorts_sorted]. done.
  - split_and!; [done..|]. intros proto (_ & _ & Hall'). apply Hall.
    rewrite Hperm.
    rewrite Forall_forall in Hall'. rewrite (Hall' _ Hin). by apply Forall_forall.
Qed.

Lemma getTargetPort_keeps t : preserves (@lb_keeps W reads_only) (getTargetPort t).
Proof. unfold getTargetPort. preserve. Qed.

#[local] Hint Resolve getTargetPort_keeps : ccm.

Lemma convert_ports_keeps b proto ps : preserves (@lb_keeps W reads_only) (convert_ports b proto ps).
Proof.
  induction ps as [|p ps IH]; [by eauto with ccm typeclass_instances|].
  unfold convert_ports; fold (convert_ports b proto ps). preserve.
Qed.

Lemma convert_ports_returns b proto ps s :
  wp (convert_ports b proto ps) (λ r _, returns r ∧ ∀ l, r = Ok l → length l = length ps) s.
Proof.
  revert s. induction ps as [|p ps IH]; intros s.
  { apply wp_ret. split; [done|]. by intros l [= <-]. }
  unfold convert_ports; fold (convert_ports b proto ps). case_decide; [by apply wp_throw|]. apply wp_bind.
  assert (∀ t, wp (getTargetPort t) (λ r _, returns r) s) as Ht.
  { intros t. unfold getTargetPort. case_decide; [done|]. apply wp_bind. unfold wp at 1. simpl.
    apply wp_bind, wp_on_env, wp_call. intros w [e|x] Hw; simpl; [done|].
    destruct (Subsets x) as [|sub l]; [done|]. by destruct (filter _ _). }
  match goal with |- wp ?m _ _ => apply (wp_mono m (λ r _, returns r)) end.
  { destruct b; [apply Ht|done]. }
  intros [t|e| |] s1; simpl; try done. intros _. apply wp_bind.
  eapply wp_mono; [apply IH|]. intros [l|e| |] s2 [? Hl]; simpl; try done.
  apply wp_ret. split; [done|]. intros ? [= <-]. simpl. by rewrite Hl.
Qed.

(** Finding the ports reads at most the endpoints of the service, sorts the
    ports of the service object and changes nothing else. *)
Lemma serviceToLBPorts_frame s :
  wp serviceToLBPorts (λ r s', returns r ∧ lb_logs reads_only s s' ∧
    lobj s' = set_service (set_Ports (sortPorts (Ports (service (lobj s)))) (service (lobj s))) (lobj s) ∧
    ∀ lp, r = Ok lp → ports lp ≠ []) s.
Proof.
  unfold serviceToLBPorts. apply wp_bind. unfold wp at 1. simpl.
  assert (∀ lb, Ports (service lb) = [] → lb = set_service (set_Ports [] (service lb)) lb) as Heta.
  { intros [??????[]] H. simpl in H. by subst. }
  destruct (Ports (service (lobj s))) as [|p ps] eqn:Hps.
  { apply wp_throw. split_and!; [done|unfold lb_logs; done|by apply Heta|done]. }
  rewrite <- Hps. set (l := Ports (service (lobj s))) in *.
  apply wp_bind. unfold wp at 1. simpl.
  destruct (sortPorts l) as [|p0 ps0] eqn:Hsort.
  { apply (proj1 (sortPorts_nil_iff l)) in Hsort. congruence. }
  apply wp_bind. unfold wp at 1. simpl.
  case_decide; [apply wp_throw; simpl; unfold lb_logs; by eauto with ccm|].
  apply wp_bind. eapply wp_mono.
  { apply wp_and; [apply convert_ports_returns|eapply (preserves_wp (lb_keeps reads_only)), convert_ports_keeps]. }
  unfold lb_keeps, lb_logs. simpl.
  intros [infos|e| |] s' ((Hret & Hlen) & Hobj & Hlog); simpl; try done.
  apply wp_ret. split_and!; [done..|]. intros lp [= <-]. simpl.
  specialize (Hlen infos eq_refl). by destruct infos.
Qed.

Lemma serviceToLBPorts_reads : preserves (@lb_logs W reads_only) serviceToLBPorts.
Proof. intros s. apply serviceToLBPorts_frame. Qed.
End service_ports_facts.

#[export] Hint Resolve serviceToLBPorts_reads : ccm.

(** ** Comparing with a rule *)

Lemma port_pair_inj p q :
  port_pair p = port_pair q → publicPort p = publicPort q ∧ privatePort p = privatePort q.
Proof.
  unfold port_pair. intros Heq. change (":" +:+ ?x) with (String ":" x) in Heq.
  apply sep_inj in Heq as [Ha Hb]; auto using Itoa_no_colon, Itoa_inj.
Qed.

Lemma additionalPorts_perm ps : additionalPorts ps ≡ₚ port_pair <$> tail (ports ps).
Proof.
  unfold additionalPorts. case_decide as Hlen; [|apply sort_Strings_perm].
  destruct (ports ps) as [|p [|q l]]; simpl in *; [done..|lia].
Qed.

Lemma additionalPorts_sorted ps :
  additionalPorts ps = sort_Strings (port_pair <$> tail (ports ps)).
Proof.
  unfold additionalPorts. case_decide as Hlen; [|done].
  destruct (ports ps) as [|p [|q l]]; simpl in *; [done..|lia].
Qed.

(** The rule has the protocol, the first pair of ports and, in any order, the
    further pairs of the balancer ports. *)
Definition describes (r : loadBalancerRule) (ps : lbPorts) : Prop :=
  AdditionalPortMap r ≡ₚ port_pair <$> tail (ports ps) ∧
  Privateport r = Itoa (first_privatePort ps) ∧
  Publicport r = Itoa (first_publicPort ps) ∧
  lbr_Protocol r = protocol ps.

Definition port_numbers (p : lbPortInfo) : Z * Z := (publicPort p, privatePort p).

Lemma port_pairs_perm (l1 l2 : list lbPortInfo) :
  port_pair <$> l1 ≡ₚ port_pair <$> l2 → port_numbers <$> l1 ≡ₚ port_numbers <$> l2.
Proof.
  assert (∀ l : list lbPortInfo, port_pair <$> l =
    (λ n : Z * Z, Itoa n.1 +:+ ":" +:+ Itoa n.2) <$> (port_numbers <$> l)) as Hf.
  { intros l. by rewrite <- list_fmap_compose. }
  rewrite !Hf. apply fmap_Permutation_inj. intros [a b] [c d]. simpl.
  intros Heq. change (":" +:+ ?x) with (String ":" x) in Heq.
  apply sep_inj in Heq as [Ha Hb]; auto using Itoa_no_colon.
  by rewrite (Itoa_inj _ _ Ha), (Itoa_inj _ _ Hb).
Qed.

Lemma comparePorts_iff (ps : lbPorts) (r : loadBalancerRule) :
  ((comparePorts ps r).2 = true ↔ describes r ps) ∧ (comparePorts ps r).1 = sort_rule r.
Proof.
  split; [|done]. unfold comparePorts, describes. simpl. rewrite bool_decide_eq_true.
  rewrite additionalPorts_sorted, sort_Strings_eq_iff. naive_solver.
Qed.

(** (C16) comparePorts accepts a rule exactly when the rule describes the wanted
    ports, in whatever order CloudStack lists the additional ones; it only
    sorts those in the rule; and a rule describes one set of port numbers: two
    wishes accepted by the same rule have the same protocol, the same first
    pair and the same further pairs. *)
Theorem comparePorts_spec (ps : lbPorts) (r : loadBalancerRule) :
  ((comparePorts ps r).2 = true ↔ describes r ps) ∧
  (comparePorts ps r).1 = sort_rule r ∧
  (∀ ps', ports ps ≠ [] → ports ps' ≠ [] →
     (comparePorts ps r).2 = true → (comparePorts ps' r).2 = true →
     protocol ps = protocol ps' ∧
     port_numbers <$> head (ports ps) = port_numbers <$> head (ports ps') ∧
     port_numbers <$> tail (ports ps) ≡ₚ port_numbers <$> tail (ports ps')).
Proof.
  assert (∀ ps, (comparePorts ps r).2 = true ↔ describes r ps) as Hiff by (intros; apply comparePorts_iff).
  split_and!; [apply Hiff..|done|]. intros ps' Hps Hps'. rewrite !Hiff.
  intros (Ha & Hb & Hc & Hd) (Ha' & Hb' & Hc' & Hd'). split_and!.
  - congruence.
  - rewrite Hb in Hb'. rewrite Hc in Hc'. apply Itoa_inj in Hb', Hc'.
    unfold first_privatePort, first_publicPort in *.
    destruct (ports ps) as [|p l], (ports ps') as [|p' l']; try done. simpl.
    unfold port_numbers. congruence.
  - apply port_pairs_perm. by rewrite <- Ha, <- Ha'.
Qed.

(** What CloudStack stores for the additional ports that createLoadBalancerRule
    sends, and lists back: the parts of the comma-separated parameter. *)
Lemma additional_ports_roundtrip ps :
  additionalPorts ps ≠ [] → Split (Join (additionalPorts ps) ",") "," = additionalPorts ps.
Proof.
  intros Hne. apply Split_Join; [done|]. rewrite additionalPorts_perm.
  apply Forall_fmap, Forall_true. intros p. simpl. unfold port_pair.
  rewrite !has_byte_app, !Itoa_no_comma. done.
Qed.

(** ** Health checks *)

(** The pool serves the port, and checks it as wanted. *)
Definition pool_of_port (vip dst : Z) (p : globoNetworkPool) : Prop :=
  VipPort p = vip ∧ pool_Port p = dst.
Definition up_to_date (message response proto : string) (p : globoNetworkPool) : Prop :=
  HealthCheck p = message ∧ HealthCheckExpected p = response ∧ HealthCheckType p = proto.

Lemma update_first_pool_spec vip dst m rsp proto pools :
  match update_first_pool vip dst m rsp proto pools with
  | (None, pools') =>
      pools' = pools ∧ Forall (λ p, pool_of_port vip dst p → up_to_date m rsp proto p) pools
  | (Some p', pools') =>
      ∃ pre p post, pools = pre ++ p :: post ∧ pools' = pre ++ p' :: post ∧
        p' = set_check m rsp proto p ∧ pool_of_port vip dst p ∧ ¬ up_to_date m rsp proto p ∧
        Forall (λ p, pool_of_port vip dst p → up_to_date m rsp proto p) pre
  end.
Proof.
  unfold pool_of_port, up_to_date.
  induction pools as [|pool pools IH]; simpl; [done|]. case_decide as Hd.
  - exists [], pool, pools. split_and!; [done..|tauto|tauto|tauto|constructor].
  - destruct (update_first_pool vip dst m rsp proto pools) as [[p'|] pools'].
    + destruct IH as (pre & p & post & -> & -> & -> & ? & ? & Hpre).
      exists (pool :: pre), p, post. split_and!; [done|done|done|tauto|tauto|done|].
      constructor; [|done]. intros Hp. apply dec_stable. tauto.
    + destruct IH as [-> Hall]. split; [done|]. constructor; [|done].
      intros Hp. apply dec_stable. tauto.
Qed.

(** What the service asks of the health check of a port. *)
Definition wanted_check (ps : lbPorts) (pi : lbPortInfo) (svc : Service) : string * string * string :=
  (label_value (svc_meta svc) (lbCustomHealthCheckMessagePrefix +:+ lpi_name pi),
   label_value (svc_meta svc) (lbCustomHealthCheckResponsePrefix +:+ lpi_name pi),
   hc_protocol (portToHCProtocol ps pi)).

Definition outdated (ps : lbPorts) (pi : lbPortInfo) (svc : Service) (p : globoNetworkPool) : Prop :=
  let '(m, rsp, proto) := wanted_check ps pi svc in
  pool_of_port (publicPort pi) (privatePort pi) p ∧ ¬ up_to_date m rsp proto p.
#[export] Instance outdated_dec ps pi svc p : Decision (outdated ps pi svc p).
Proof. unfold outdated, pool_of_port, up_to_date. simpl. apply _. Defined.

(** A port of an HTTP or HTTPS check without a message needs no update.
    Otherwise a pool is returned exactly when a pool of the port is outdated:
    it is the first one, with the wanted check set and nothing else changed in
    the list, so that one outdated pool less is left. *)
Theorem generateGloboNetworkPool_spec ps pi svc pools :
  match generateGloboNetworkPool ps pi svc pools with
  | (None, pools') =>
      pools' = pools ∧
      ((requiresMsg (portToHCProtocol ps pi) = true ∧ (wanted_check ps pi svc).1.1 = "") ∨
       filter (outdated ps pi svc) pools = [])
  | (Some p', pools') =>
      ∃ p rest, filter (outdated ps pi svc) pools = p :: rest ∧
        filter (outdated ps pi svc) pools' = rest ∧
        p' = set_check (wanted_check ps pi svc).1.1 (wanted_check ps pi svc).1.2
               (wanted_check ps pi svc).2 p ∧
        pool_Id <$> pools' = pool_Id <$> pools
  end.
Proof.
  unfold generateGloboNetworkPool. case_decide as Hmsg; [split; [done|by left]|].
  set (m := label_value _ (lbCustomHealthCheckMessagePrefix +:+ _)) in *.
  set (rsp := label_value _ (lbCustomHealthCheckResponsePrefix +:+ _)) in *.
  pose proof (update_first_pool_spec (publicPort pi) (privatePort pi) m rsp
    (hc_protocol (portToHCProtocol ps pi)) pools) as H.
  assert (∀ p, (pool_of_port (publicPort pi) (privatePort pi) p →
      up_to_date m rsp (hc_protocol (portToHCProtocol ps pi)) p) → ¬ outdated ps pi svc p) as Hup.
  { intros p Hp. unfold outdated, wanted_check. simpl. fold m rsp. tauto. }
  destruct (update_first_pool _ _ _ _ _ pools) as [[p'|] pools'].
  - destruct H as (pre & p & post & -> & -> & -> & Hport & Hnot & Hpre).
    assert (filter (outdated ps pi svc) pre = []) as Hf.
    { apply list_filter_nil_iff. eapply Forall_impl; [exact Hpre|]. simpl. intros q Hq. by apply Hup. }
    exists p, (filter (outdated ps pi svc) post). rewrite !filter_app, Hf, !filter_cons. simpl.
    rewrite decide_True by done. rewrite decide_False by (apply Hup; by intros _).
    split_and!; [done..|]. by rewrite !fmap_app.
  - destruct H as [-> Hall]. split; [done|]. right.
    apply list_filter_nil_iff. eapply Forall_impl; [exact Hall|]. simpl. intros q Hq. by apply Hup.
Qed.
