(* ===== verification/PublicIP.v ===== *)
(** * Public IPs (loadbalancer.go)

    Finding the public IP of a service, allocating one, tagging it and giving
    it back; and the wait for asynchronous jobs that these and the rule
    commands share. *)
From stdpp Require Import base list strings gmap.
From S2P Require Import Prelude GoStd Kube Cloud Config Meta Pages Balancer.

Definition associateIPAddressExtraParamPrefix : string :=
  "csccm.cloudprovider.io/associateipaddress-extra-param-".
Definition CloudstackResourceIPAdress : string := "PublicIpAddress".

(** ** Extra parameters from annotations and labels *)

(** One [range] loop of setExtraParams, over the entries in some order. *)
Definition set_extra (prefix : string) (l : list (string * string)) (p : params) : params :=
  foldl (λ p '(key, value),
    if HasPrefix key prefix then <[TrimPrefix key prefix := PStr value]> p else p) p l.

(** The keys of a map are distinct and share the prefix, so the order of the
    entries does not matter ([setExtraParams_lookup]). *)
Definition setExtraParams (svc : Service) (prefix : string) (p : params) : params :=
  set_extra prefix (map_to_list (labels (svc_meta svc)))
    (set_extra prefix (map_to_list (Annotations (svc_meta svc))) p).

(** The command of the configuration, or the standard one. *)
Definition command_or (cmd standard : string) : string :=
  if decide (cmd = "") then standard else cmd.

(** [if s != "" { params.SetParam(key, s) }] *)
Definition set_unless_empty (key s : string) (p : params) : params :=
  if decide (s = "") then p else <[key := PStr s]> p.

(** The answer of an IP command as a cloudstackIP. *)
Definition ip_of (i : PublicIpAddress) : cloudstackIP :=
  {| id := ip_Id i; address := Ipaddress i; networkid := ip_Networkid i |}.

(** The parameters of a list of public IPs in a project. *)
Definition list_params (id ipaddress : option string) (tags : option (gmap string string))
    (pc : projectCloud) : ListPublicIpAddressesParams :=
  {| lp_Id := id; lp_Ipaddress := ipaddress; lp_Listall := Some true; lp_Tags := tags;
     lp_Projectid := if decide (projectID pc = "") then None else Some (projectID pc);
     lp_Page := None; lp_Pagesize := None |}.

Section ip.
Context {W} `{!Cloud W}.

(** ** Jobs *)

(** The first value of a JSON object, in the order Go visits the map. *)
Definition getFirstRawValue (raw : json) : M (env W) json :=
  let none := throw (Errorf "unable to extract the raw value from: %q" [""]) in
  match raw with
  | JObj fields =>
      l ← range (map_to_list (list_to_map (reverse fields) : gmap string json));
      match l with
      | (_, v) :: _ => mret v
      | [] => none
      end
  | JNull => none
  | _ => throw (Errorf "json: cannot unmarshal into Go value" [])
  end.

(** waitJob with a structure to fill in. *)
Definition waitJob {k : rkind} (c : client) (jobID : string) (result : rtype k) :
    M (env W) (rtype k) :=
  data ← call_err (GetAsyncJobResult c jobID asyncJobWaitTimeout);
  firstData ← getFirstRawValue data;
  match Unmarshal k firstData result with
  | (result, None) => mret result
  | (result, Some _) =>
      match Unmarshal k data result with
      | (result, None) => mret result
      | (_, Some err) => throw err
      end
  end.

(** waitJob with a nil result. *)
Definition waitJob_nil (c : client) (jobID : string) : M (env W) unit :=
  call_err (GetAsyncJobResult c jobID asyncJobWaitTimeout) ;; mret tt.

(** ** Tags *)

Definition already_exist (e : error) : bool := Contains (Error e) "already exist".

Definition setResourceTags (pc : projectCloud) (resourceType resourceID : string)
    (tags : gmap string string) : M (env W) unit :=
  c ← of_sum (getClient pc);
  for_each (sort_Strings (map_to_list tags).*1) (λ k,
    r ← call (CreateTags c [resourceID] resourceType {[ k := map_get tags k ]});
    match r with
    | inl err =>
        if already_exist err then mret tt
        else throw (Errorf "error adding tags to %s %s: %v" [resourceType; resourceID; Error err])
    | inr _ => mret tt
    end).

Definition setDefaultTags (pc : projectCloud) (resourceType resourceID : string) (svc : Service) :
    M (env W) unit :=
  setResourceTags pc resourceType resourceID (tagsForService svc).

Definition assignTagsToIP (pc : projectCloud) (i : cloudstackIP) (svc : Service) : M (env W) unit :=
  setDefaultTags pc CloudstackResourceIPAdress (id i) svc.

(** ** Finding an IP *)

(** [fuel] bounds the number of pages. *)
Definition tryPublicIPAddressByTags (fuel : nat) (pc : projectCloud) (svc : Service) :
    M (env W) (option cloudstackIP) :=
  c ← of_sum (getClient pc);
  let tags := tagsForService svc in
  let p := list_params None None (Some {[ serviceTag := map_get tags serviceTag ]}) pc in
  publicIPAddresses ←
    wrap (λ e, Errorf "error retrieving IP address: %v" [Error e]) (listAllIPPages fuel c p);
  let validIPs := ip_of <$> filter (λ i, matchAllTags (ip_Tags i) tags = true) publicIPAddresses in
  match validIPs with
  | [] => mret None
  | [i] => mret (Some i)
  | _ => throw (Errorf "multiple IP addresses for service %v/%v" [svc_Namespace svc; svc_Name svc])
  end.

Definition getPublicIPAddressByIP (pc : projectCloud) (loadBalancerIP : string) :
    M (env W) cloudstackIP :=
  c ← of_sum (getClient pc);
  l ← wrap (λ e, Errorf "error retrieving IP address: %v" [Error e])
        (call_err (ListPublicIpAddresses c (list_params None (Some loadBalancerIP) None pc)));
  if decide (Count l = 0%Z) then throw (IPNotFoundError loadBalancerIP)
  else if decide (1 < Count l)%Z then
    throw (Errorf "multiple IP address found for %v" [loadBalancerIP])
  else publicIP ← index (Items l) 0; mret (ip_of publicIP).

Definition getPublicIPAddressByID (pc : projectCloud) (ipID : string) : M (env W) PublicIpAddress :=
  c ← of_sum (getClient pc);
  l ← wrap (λ e, Errorf "error retrieving IP ID %v: %v" [ipID; Error e])
        (call_err (ListPublicIpAddresses c (list_params (Some ipID) None None pc)));
  if decide (Count l = 0%Z) then throw (Errorf "could not find IP ID %v" [ipID])
  else if decide (1 < Count l)%Z then throw (Errorf "multiple IP ID found for %v" [ipID])
  else index (Items l) 0.

(** ** Allocating and releasing *)

Definition associatePublicIPAddress (pc : projectCloud) (svc : Service) (networkID : string) :
    M (env W) cloudstackIP :=
  c ← of_sum (getClient pc);
  n ← call (GetNetworkByID c networkID (projectID pc));
  match g_err n with
  | Some err =>
      if decide (g_count n = 0%Z) then throw (Errorf "could not find network %v" [networkID])
      else throw (Errorf "error retrieving network: %v" [Error err])
  | None =>
      network ← deref (g_obj n);
      let p : params :=
        if decide (Vpcid network ≠ "") then {[ "vpcid" := PStr (Vpcid network) ]}
        else {[ "networkid" := PStr networkID ]} in
      let p := set_unless_empty "projectid" (projectID pc) p in
      let p := set_unless_empty "lbenvironmentid" (getLBEnvironmentID pc) p in
      let associateCommand :=
        command_or (AssociateIP (Command (config (pc_cs pc)))) "associateIpAddress" in
      let p := setExtraParams svc associateIPAddressExtraParamPrefix p in
      result ← wrap (λ e, Errorf "error associate new IP address using endpoint %q: %v"
                            [associateCommand; Error e])
        (call_err (CustomRequest c associateCommand p KAssociate (rzero KAssociate)));
      let i := {| id := as_Id result; address := as_Ipaddress result;
                  networkid := as_Networkid result |} in
      if decide (as_JobID result ≠ "") then
        result ← waitJob (k:=KAssociate) c (as_JobID result) result;
        mret {| id := id i; address := as_Ipaddress result; networkid := networkid i |}
      else mret i
  end.

Definition releaseLoadBalancerIP (pc : projectCloud) (i : cloudstackIP) : M (env W) unit :=
  c ← of_sum (getClient pc);
  let p := set_unless_empty "projectid" (projectID pc) {[ "id" := PStr (id i) ]} in
  let disassociateCommand :=
    command_or (DisassociateIP (Command (config (pc_cs pc)))) "disassociateIpAddress" in
  jobID ← wrap (λ e, Errorf "error disassociate IP address using endpoint %q: %v"
                       [disassociateCommand; Error e])
    (call_err (CustomRequest c disassociateCommand p KDisassociate (rzero KDisassociate)));
  if decide (jobID ≠ "") then waitJob_nil c jobID else mret tt.

Definition releaseIPIfManaged (pc : projectCloud) (i : cloudstackIP) (svc : Service) :
    M (env W) unit :=
  publicIP ← getPublicIPAddressByID pc (id i);
  if shouldManageIP publicIP svc then releaseLoadBalancerIP pc i else mret tt.

(** ** The IP of a load balancer *)

(** The end of getLoadBalancerIP: tag the IP, and release it when that fails. *)
Definition tag_or_release (pc : projectCloud) (i : cloudstackIP) (svc : Service) :
    M (env W) cloudstackIP :=
  r ← try (assignTagsToIP pc i svc);
  match r with
  | inr _ => mret i
  | inl err =>
      rollback ← try (releaseLoadBalancerIP pc i);
      match rollback with
      | inl rollbackErr =>
          throw (Errorf "%v: error rolling back IP address: %v" [Error err; Error rollbackErr])
      | inr _ => throw err
      end
  end.

Definition getLoadBalancerIP (fuel : nat) (pc : projectCloud) (svc : Service) (networkID : string) :
    M (env W) cloudstackIP :=
  tagged ← tryPublicIPAddressByTags fuel pc svc;
  match tagged with
  | Some i => mret i
  | None =>
      if decide (LoadBalancerIP svc ≠ "") then getPublicIPAddressByIP pc (LoadBalancerIP svc) else
      found ←
        match Ingress svc with
        | ing :: _ =>
            if decide (ing_IP ing ≠ "") then
              r ← try (getPublicIPAddressByIP pc (ing_IP ing));
              match r with
              | inr i => mret (Some i)
              | inl (IPNotFoundError _) => mret None
              | inl err => throw err
              end
            else mret None
        | [] => mret None
        end;
      i ← match found with
          | Some i => mret i
          | None => associatePublicIPAddress pc svc networkID
          end;
      tag_or_release pc i svc
  end.
End ip.

(** ** Extra parameters *)

Lemma set_extra_fold prefix l (p : params) k :
  NoDup l.*1 →
  set_extra prefix l p !! k =
  match (list_to_map l : gmap string string) !! (prefix +:+ k) with
  | Some v => Some (PStr v)
  | None => p !! k
  end.
Proof.
  unfold set_extra. revert p. induction l as [|[key v] l IH]; intros p Hnd; [done|].
  apply NoDup_cons in Hnd as [Hkey Hnd]. cbn [foldl]. rewrite IH by done. cbn [list_to_map foldr].
  destruct (HasPrefix key prefix) eqn:Hpre.
  - apply HasPrefix_spec in Hpre as [rest Hrest]. apply drop_prefix_Some in Hrest as ->.
    rewrite TrimPrefix_app. destruct (decide (rest = k)) as [->|Hne].
    + apply not_elem_of_list_to_map in Hkey. simpl in Hkey.
      rewrite Hkey. simpl. by rewrite !lookup_insert_eq.
    + simpl. rewrite !lookup_insert_ne; [done|intros ?%append_inj_l; done|done].
  - simpl. rewrite lookup_insert_ne; [done|]. intros ->.
    assert (HasPrefix (prefix +:+ k) prefix = true); [|congruence].
    apply HasPrefix_spec. rewrite drop_prefix_app. eauto.
Qed.

(** The loop gives the same parameters in every order of the entries. *)
Lemma set_extra_lookup prefix m l (p : params) k :
  l ≡ₚ map_to_list m →
  set_extra prefix l p !! k =
  match m !! (prefix +:+ k) with Some v => Some (PStr v) | None => p !! k end.
Proof.
  intros Hl. rewrite set_extra_fold by (by eapply entries_NoDup).
  rewrite (list_to_map_proper l (map_to_list m)); [|by eapply entries_NoDup|done].
  by rewrite list_to_map_to_list.
Qed.

Lemma setExtraParams_entry svc prefix (p : params) k :
  setExtraParams svc prefix p !! k =
    match labels (svc_meta svc) !! (prefix +:+ k), Annotations (svc_meta svc) !! (prefix +:+ k) with
    | Some v, _ => Some (PStr v)
    | None, Some v => Some (PStr v)
    | None, None => p !! k
    end.
Proof.
  unfold setExtraParams. rewrite (set_extra_lookup _ (labels (svc_meta svc))) by done.
  rewrite (set_extra_lookup _ (Annotations (svc_meta svc))) by done.
  by destruct (labels (svc_meta svc) !! _).
Qed.

(** A parameter of a request is the one that the service's label
    prefix-plus-name gives, else the one its annotation gives, else the one the
    code had set: labels win over annotations, both win over the code's own
    parameters, and the order in which the maps are visited is irrelevant. *)
Theorem setExtraParams_lookup svc prefix (p : params) :
  (∀ k, setExtraParams svc prefix p !! k =
    match labels (svc_meta svc) !! (prefix +:+ k), Annotations (svc_meta svc) !! (prefix +:+ k) with
    | Some v, _ => Some (PStr v)
    | None, Some v => Some (PStr v)
    | None, None => p !! k
    end) ∧
  ∀ ll la, ll ≡ₚ map_to_list (labels (svc_meta svc)) → la ≡ₚ map_to_list (Annotations (svc_meta svc)) →
    set_extra prefix ll (set_extra prefix la p) = setExtraParams svc prefix p.
Proof.
  split; [apply setExtraParams_entry|].
  - unfold setExtraParams. intros ll la Hl Ha. apply map_eq. intros k'.
    rewrite !(set_extra_lookup prefix (labels (svc_meta svc)) _ (set_extra _ _ _)) by done.
    by rewrite !(set_extra_lookup prefix (Annotations (svc_meta svc)) _ p) by done.
Qed.

(** ** What the functions ask of CloudStack *)

(** The call disassociates the IP, with any command: it gives the identifier. *)
Definition disassociates (i : cloudstackIP) (e : event) : Prop :=
  match projT2 e with
  | CustomRequest _ _ p KDisassociate _ => p !! "id" = Some (PStr (id i))
  | _ => False
  end.

Section ip_facts.
Context {W} `{!Cloud W}.
Implicit Types (pc : projectCloud) (svc : Service) (s : env W).

Lemma listAllIPPages_reads fuel c p : preserves (logs reads_only) (listAllIPPages (W:=W) fuel c p).
Proof. apply listAllPagesUnsafe_logs. intros c' p'. by split. Qed.

Lemma listAllLBInstancesPages_reads fuel c p :
  preserves (logs reads_only) (listAllLBInstancesPages (W:=W) fuel c p).
Proof. apply listAllPagesUnsafe_logs. intros c' p'. by split. Qed.

#[local] Hint Resolve listAllIPPages_reads listAllLBInstancesPages_reads : ccm.

(** Waiting for a job asks for the job's result and nothing else. *)
Lemma waitJob_logs (P : event → Prop) {k} c j (r : rtype k) :
  P (Ev (GetAsyncJobResult c j asyncJobWaitTimeout)) →
  preserves (logs (W:=W) P) (waitJob c j r).
Proof. intros HP. unfold waitJob, getFirstRawValue. preserve. Qed.

Lemma waitJob_nil_logs (P : event → Prop) c j :
  P (Ev (GetAsyncJobResult c j asyncJobWaitTimeout)) →
  preserves (logs (W:=W) P) (waitJob_nil c j).
Proof. intros HP. unfold waitJob_nil. preserve. Qed.

Lemma tryPublicIPAddressByTags_reads fuel pc svc :
  preserves (logs (W:=W) reads_only) (tryPublicIPAddressByTags fuel pc svc).
Proof. unfold tryPublicIPAddressByTags. preserve. Qed.

Lemma getPublicIPAddressByIP_reads pc a :
  preserves (logs (W:=W) reads_only) (getPublicIPAddressByIP pc a).
Proof. unfold getPublicIPAddressByIP. preserve. Qed.

Lemma getPublicIPAddressByID_reads pc a :
  preserves (logs (W:=W) reads_only) (getPublicIPAddressByID pc a).
Proof. unfold getPublicIPAddressByID. preserve. Qed.

(** The call for one tag, and an answer the code is content with. *)
Definition tag_call (c : client) (kind rid : string) (tags : gmap string string) (k : string) : ev (error + unit) :=
  CreateTags c [rid] kind {[ k := map_get tags k ]}.
Definition tag_calls c kind rid tags (ks : list string) : list event :=
  (λ k, Ev (tag_call c kind rid tags k)) <$> ks.
Definition content (answer : error + unit) : Prop :=
  match answer with inl err => already_exist err = true | inr _ => True end.

(** What CloudStack answers to the call for [k], after those for [done]. *)
Definition tag_answer c kind rid tags s (done : list string) (k : string) : error + unit :=
  (exec (tag_call c kind rid tags k) (replay (tag_calls c kind rid tags done) (ew s))).2.

(** After the calls for the keys [done]. *)
Definition after_tags c kind rid tags s (done : list string) : env W :=
  Env (replay (tag_calls c kind rid tags done) (ew s)) (elog s ++ tag_calls c kind rid tags done).

(** Each of the calls for [done] was answered as wanted. *)
Definition all_content c kind rid tags s (done : list string) : Prop :=
  ∀ l1 k l2, done = l1 ++ k :: l2 → content (tag_answer c kind rid tags s l1 k).

Definition tag_keys (tags : gmap string string) : list string := sort_Strings (map_to_list tags).*1.

(** CloudStack rejects the tag [k] with [err], and took the earlier ones. *)
Definition rejected_at c kind rid tags s (done : list string) (k : string) (err : error) : Prop :=
  (∃ rest, tag_keys tags = done ++ k :: rest) ∧ all_content c kind rid tags s done ∧
  tag_answer c kind rid tags s done k = inl err ∧ already_exist err = false.

Lemma after_tags_snoc c kind rid tags s dn k w :
  (exec (tag_call c kind rid tags k) (ew (after_tags c kind rid tags s dn))).1 = w →
  Env w (elog (after_tags c kind rid tags s dn) ++ [Ev (tag_call c kind rid tags k)]) =
    after_tags c kind rid tags s (dn ++ [k]).
Proof.
  intros <-. unfold after_tags, tag_calls. rewrite fmap_app. cbn [fmap list_fmap]. rewrite replay_snoc.
  cbn [ew elog]. by rewrite <- app_assoc.
Qed.

Lemma all_content_snoc c kind rid tags s dn k :
  all_content c kind rid tags s dn → content (tag_answer c kind rid tags s dn k) →
  all_content c kind rid tags s (dn ++ [k]).
Proof.
  intros Hall Hk l1 k' l2 Heq. destruct l2 as [|x l2 _] using rev_ind.
  - apply app_inj_tail in Heq as [<- <-]. exact Hk.
  - rewrite app_comm_cons, app_assoc in Heq. apply app_inj_tail in Heq as [-> _]. by eapply Hall.
Qed.

(** Tags are created one by one in the order of their keys, each with one
    call; an answer that says the tag exists already is ignored, any other
    failure ends the loop there with an error, and success means that each call
    was answered with success or with "already exist". *)
Lemma setResourceTags_spec pc kind rid (tags : gmap string string) s :
  wp (setResourceTags pc kind rid tags) (λ r s',
    match r with
    | Ok _ => ∃ c, getClient pc = inr c ∧ s' = after_tags c kind rid tags s (tag_keys tags) ∧
        all_content c kind rid tags s (tag_keys tags)
    | Err e => (getClient pc = inl e ∧ s' = s) ∨
        ∃ c done k err, getClient pc = inr c ∧ rejected_at c kind rid tags s done k err ∧
          s' = after_tags c kind rid tags s (done ++ [k]) ∧
          e = Errorf "error adding tags to %s %s: %v" [kind; rid; Error err]
    | _ => False
    end) s.
Proof.
  unfold setResourceTags. apply wp_bind. destruct (getClient pc) as [e|c] eqn:Hc; simpl.
  { apply wp_throw. by left. }
  apply wp_ret. simpl. fold (tag_keys tags).
  apply (wp_for_each (λ ks s', ∃ done, tag_keys tags = done ++ ks ∧
    s' = after_tags c kind rid tags s done ∧ all_content c kind rid tags s done)).
  - exists []. split; [done|]. split.
    + unfold after_tags. cbn. rewrite app_nil_r. by destruct s.
    + intros [] ? ? [=].
  - intros k rest s' (dn & Hk & -> & Hall).
    apply wp_bind, wp_call. intros w x Hw.
    fold (tag_call c kind rid tags k) in *. rewrite (after_tags_snoc c kind rid tags s dn k w) by by rewrite Hw.
    assert (tag_answer c kind rid tags s dn k = x) as Hx by (unfold tag_answer; exact (f_equal snd Hw)).
    assert (content x → ∃ done, tag_keys tags = done ++ rest ∧
      after_tags c kind rid tags s (dn ++ [k]) = after_tags c kind rid tags s done ∧
      all_content c kind rid tags s done) as Hnext.
    { intros Hok. exists (dn ++ [k]). rewrite <- app_assoc. split_and!; [done..|].
      apply all_content_snoc; [done|by rewrite Hx]. }
    destruct x as [err|u]; cbn [content] in Hnext; cbn [on_ok]; [|apply wp_ret; by apply Hnext].
    destruct (already_exist err) eqn:He; [apply wp_ret; by apply Hnext|].
    apply wp_throw. right. exists c, dn, k, err. split_and!; [done| |done..]. split_and!; [by exists rest|done..].
  - intros s' (dn & Hk & -> & Hall). exists c. rewrite app_nil_r in Hk. by rewrite Hk.
Qed.

Lemma setResourceTags_no_panic pc kind rid tags s :
  wp (setResourceTags pc kind rid tags) (λ r _, match r with Ok _ | Err _ => True | _ => False end) s.
Proof. eapply wp_mono; [apply setResourceTags_spec|]. by intros [] ?. Qed.

(** One release of the IP was asked for, and besides that at most the result
    of its job. *)
Definition asked_release (i : cloudstackIP) s s' : Prop :=
  ∃ req l, elog s' = elog s ++ req :: l ∧ disassociates i req ∧ Forall reads_only l.

(** releaseLoadBalancerIP asks for the release of the IP whenever there is a
    client. *)
Lemma releaseLoadBalancerIP_asks pc i c s :
  getClient pc = inr c →
  wp (releaseLoadBalancerIP pc i) (λ r s', asked_release i s s' ∧ returns r) s.
Proof.
  intros Hc. unfold releaseLoadBalancerIP, asked_release. rewrite Hc. apply wp_bind, wp_ret. simpl.
  apply wp_bind, wp_wrap.
  assert (set_unless_empty "projectid" (projectID pc) {[ "id" := PStr (id i) ]} !! "id" =
    Some (PStr (id i))) as Hp.
  { unfold set_unless_empty. case_decide; [by rewrite lookup_singleton_eq|].
    by rewrite lookup_insert_ne, lookup_singleton_eq. }
  apply wp_call_err; intros w x Hw; simpl.
  - split; [|done]. eexists _, []. by split_and!.
  - case_decide.
    + unfold waitJob_nil. apply wp_bind, wp_call_err; intros w' y Hw'; simpl.
      * split; [|done]. eexists _, [_]. rewrite <- app_assoc. split_and!; [done..|]. by repeat constructor.
      * apply wp_ret. split; [|done]. eexists _, [_]. rewrite <- app_assoc. split_and!; [done..|]. by repeat constructor.
    + apply wp_ret. split; [|done]. eexists _, []. by split_and!.
Qed.

(** The error of a rollback: the first one, with that of the release. *)
Definition rolled_back (err : error) (rollback : res unit) : error :=
  match rollback with
  | Err rollbackErr => Errorf "%v: error rolling back IP address: %v" [Error err; Error rollbackErr]
  | _ => err
  end.

(** (C24) An IP that getLoadBalancerIP is about to hand out is returned exactly
    when CloudStack took all three tags of the service, each with one call on
    this IP, answered with success or that the tag exists already.  When it
    rejects one, no later tag is tried, one release of that very IP is asked
    for, and the error says which call failed, with the error of the release when
    that failed too.  Without a client nothing is asked for. *)
Theorem tag_or_release_spec pc (i : cloudstackIP) svc s :
  let kind := CloudstackResourceIPAdress in
  let tags := tagsForService svc in
  wp (tag_or_release pc i svc) (λ r s',
    match r with
    | Ok i' => i' = i ∧ ∃ c, getClient pc = inr c ∧
        elog s' = elog s ++ ((λ k, Ev (CreateTags c [id i] kind {[ k := map_get tags k ]})) <$> tag_keys tags) ∧
        ∀ l1 k l2, tag_keys tags = l1 ++ k :: l2 → content (tag_answer c kind (id i) tags s l1 k)
    | Err e => (∃ err, getClient pc = inl err ∧ s' = s ∧ e = rolled_back err (Err err)) ∨
        ∃ c done k err, getClient pc = inr c ∧ rejected_at c kind (id i) tags s done k err ∧
          let s1 := after_tags c kind (id i) tags s (done ++ [k]) in
          let release := releaseLoadBalancerIP pc i s1 in
          s' = release.1 ∧ asked_release i s1 s' ∧
          e = rolled_back (Errorf "error adding tags to %s %s: %v" [kind; id i; Error err]) release.2
    | _ => False
    end) s.
Proof.
  simpl. unfold tag_or_release. apply wp_bind, wp_try.
  unfold assignTagsToIP, setDefaultTags.
  eapply wp_mono; [apply setResourceTags_spec|]. intros [[]|err|p|] s1 Hr; cbn [on_ok]; try done.
  { destruct Hr as (c & Hc & -> & Hall). apply wp_ret. split; [done|]. by exists c. }
  apply wp_bind, wp_try. destruct Hr as [[Hc ->]|(c & dn & k & err' & Hc & Hrej & -> & ->)].
  { unfold releaseLoadBalancerIP. rewrite Hc. apply wp_bind, wp_throw. cbn [on_ok].
    apply wp_throw. left. by exists err. }
  eapply wp_run; [by eapply releaseLoadBalancerIP_asks|].
  intros r s2 E [Hask Hret].
  destruct r as [[]|err2|p|]; cbn [on_ok]; try done; apply wp_throw; right;
    exists c, dn, k, err'; rewrite E; by split_and!.
Qed.

(** *** Releasing an IP *)

(** Where the key [k] comes first among the tags it has the value [v]. *)
Definition carries (tags : list Tags) (k v : string) : Prop :=
  ∃ l1 l2, tags = l1 ++ {| Key := k; Value := v |} :: l2 ∧ k ∉ Key <$> l1.

(** The three tags of the service. *)
Definition tagged_for (svc : Service) (tags : list Tags) : Prop :=
  carries tags cloudProviderTag ProviderName ∧ carries tags serviceTag (svc_Name svc) ∧
  carries tags namespaceTag (svc_Namespace svc).

Lemma getTag_carries tags k v : getTag tags k = Some v ↔ carries tags k v.
Proof.
  unfold carries. induction tags as [|[x y] tags IH]; cbn [getTag Key Value].
  { split; [done|]. by intros ([] & l2 & [=] & _). }
  case_decide as Hx; [subst x|rewrite IH]; split.
  - intros [= ->]. exists [], tags. split; [done|]. set_solver.
  - intros ([|t l1] & l2 & [= ? ?] & Hk); subst; [done|]. exfalso. set_solver.
  - intros (l1 & l2 & -> & Hk). exists ({| Key := x; Value := y |} :: l1), l2. split; [done|].
    rewrite fmap_cons, not_elem_of_cons. by split.
  - intros ([|t l1] & l2 & [= ? ?] & Hk); subst; [done|]. exists l1, l2. split; [done|]. set_solver.
Qed.

Lemma shouldManageIP_tagged i svc : shouldManageIP i svc = true ↔ tagged_for svc (ip_Tags i).
Proof.
  rewrite shouldManageIP_getTag. unfold tagged_for. rewrite <- !getTag_carries. unfold tagsForService. split.
  - intros H. split_and!; by apply H.
  - intros (H1 & H2 & H3) k v [[<- <-]|[_ Hk]]%lookup_insert_Some; [done|].
    apply lookup_insert_Some in Hk as [[<- <-]|[_ Hk]]; [done|]. by apply lookup_singleton_Some in Hk as [<- <-].
Qed.

(** The one address of an answer to a question for an identifier. *)
Definition only_address (answer : error + page PublicIpAddress) : option PublicIpAddress :=
  match answer with
  | inr l => if decide (Count l = 0 ∨ 1 < Count l)%Z then None else head (Items l)
  | inl _ => None
  end.

(** (C23) Before an IP is released on behalf of a service CloudStack is asked for
    it by its identifier.  When the answer is one address and it carries the
    three tags of the service, one release is asked for, of this very IP, and
    its outcome is the answer.  In every other case nothing but that question was
    asked: an address without the tags is left alone with success, and without an
    address, or without a client, there is an error. *)
Theorem releaseIPIfManaged_safe pc (i : cloudstackIP) svc s :
  wp (releaseIPIfManaged pc i svc) (λ r s',
    match getClient pc with
    | inl err => r = Err err ∧ s' = s
    | inr c =>
        let question := ListPublicIpAddresses c (list_params (Some (id i)) None None pc) in
        let s1 := Env (exec question (ew s)).1 (elog s ++ [Ev question]) in
        match only_address (exec question (ew s)).2 with
        | Some publicIP =>
            (tagged_for svc (ip_Tags publicIP) →
               asked_release i s1 s' ∧ releaseLoadBalancerIP pc i s1 = (s', r)) ∧
            (¬ tagged_for svc (ip_Tags publicIP) → r = Ok tt ∧ s' = s1)
        | None => r ≠ Ok tt ∧ s' = s1
        end
    end) s.
Proof.
  unfold releaseIPIfManaged, getPublicIPAddressByID. apply wp_bind, wp_bind.
  destruct (getClient pc) as [e|c] eqn:Hc; [by apply wp_throw|].
  apply wp_ret. cbn [on_ok]. set (question := ListPublicIpAddresses _ _).
  apply wp_bind, wp_wrap, wp_call_err; intros w l Hw; rewrite Hw; cbn [on_ok fst snd only_address]; [done|].
  do 2 (case_decide; [rewrite decide_True by lia; by apply wp_throw|]).
  rewrite decide_False by lia. unfold index.
  destruct (Items l) as [|publicIP rest]; [done|]. apply wp_ret. cbn [on_ok head].
  pose proof (shouldManageIP_tagged publicIP svc) as Htag.
  destruct (shouldManageIP publicIP svc).
  2: { apply wp_ret. split; [|done]. by intros ?%Htag. }
  eapply wp_run; [by eapply releaseLoadBalancerIP_asks|]. intros r s' E [Hask _].
  split; [done|]. intros Hno. by destruct Hno; apply Htag.
Qed.

(** A service that asks for an address never makes the provider allocate,
    tag or release anything when its IP is looked up: the answer is the IP
    tagged for the service when there is one, else the requested address as
    CloudStack lists it, whatever the service's status says. *)
Theorem getLoadBalancerIP_requested fuel pc svc netid s (Hreq : LoadBalancerIP svc ≠ "") :
  wp (getLoadBalancerIP fuel pc svc netid) (λ r s',
    logs reads_only s s' ∧
    ∃ s1, logs reads_only s s1 ∧
      match (tryPublicIPAddressByTags fuel pc svc s).2 with
      | Ok (Some i) => r = Ok i
      | Ok None => r = (getPublicIPAddressByIP pc (LoadBalancerIP svc) s1).2
      | Err e => r = Err e
      | Panic p => r = Panic p
      | Blocked => r = Blocked
      end) s.
Proof.
  unfold getLoadBalancerIP. apply wp_bind. unfold wp at 1.
  pose proof (tryPublicIPAddressByTags_reads fuel pc svc s) as Hr.
  destruct (tryPublicIPAddressByTags fuel pc svc s) as [s1 [[i|]|e|p|]]; simpl in *.
  - apply wp_ret. eauto.
  - rewrite decide_True by done. unfold wp.
    pose proof (getPublicIPAddressByIP_reads pc (LoadBalancerIP svc) s1). split; [|by exists s1].
    by etrans.
  - eauto.
  - eauto.
  - eauto.
Qed.
End ip_facts.

#[export] Hint Resolve waitJob_logs waitJob_nil_logs listAllIPPages_reads listAllLBInstancesPages_reads
  tryPublicIPAddressByTags_reads getPublicIPAddressByIP_reads getPublicIPAddressByID_reads : ccm.

(** ** What a release may do *)

(** The call reads, or asks for the release of the IP. *)
Definition reads_or_releases (i : cloudstackIP) (e : event) : Prop := reads_only e ∨ disassociates i e.

Lemma releaseIPIfManaged_logs {W} `{!Cloud W} pc i svc :
  preserves (logs (W:=W) (reads_or_releases i)) (releaseIPIfManaged pc i svc).
Proof.
  unfold releaseIPIfManaged. apply preserves_bind; [apply _| |].
  - intros s. eapply logs_mono; [|apply getPublicIPAddressByID_reads]. by left.
  - intros publicIP. destruct (shouldManageIP publicIP svc); [|by eauto with ccm typeclass_instances].
    unfold releaseLoadBalancerIP. apply preserves_bind; [apply _|by eauto with ccm typeclass_instances|].
    intros c. apply preserves_bind; [apply _| |].
    + apply preserves_wrap, preserves_call_err. right. simpl. unfold set_unless_empty.
      case_decide; by simplify_map_eq.
    + intros j. case_decide; [|by eauto with ccm typeclass_instances].
      apply waitJob_nil_logs. by left.
Qed.

Lemma releaseIPIfManaged_unblocked {W} `{!Cloud W} pc i svc (s : env W) :
  wp (releaseIPIfManaged pc i svc) (λ r _, r ≠ Blocked) s.
Proof.
  unfold releaseIPIfManaged, getPublicIPAddressByID. apply wp_bind, wp_bind.
  destruct (getClient pc) as [e|c] eqn:Hc; [done|].
  apply wp_ret. simpl. apply wp_bind, wp_wrap, wp_call_err; intros w l Hw; simpl; [done|].
  repeat (case_decide; [done|]). unfold index. destruct (Items l !! 0) as [publicIP|]; [|done].
  apply wp_ret. simpl. destruct (shouldManageIP publicIP svc); [|done].
  eapply wp_mono; [by eapply releaseLoadBalancerIP_asks|].
  intros r s' [_ Hr]. by destruct r.
Qed.

(** What may be asked on behalf of a service while its IP is found. *)
Definition ip_event (svc : Service) (e : event) : Prop :=
  reads_only e ∨
  match projT2 e with
  | CreateTags _ _ _ tags => tags ⊆ tagsForService svc
  | CustomRequest _ _ _ KAssociate _ | CustomRequest _ _ _ KDisassociate _ => True
  | _ => False
  end.

Section ip_logs.
Context {W} `{!Cloud W} (P : event → Prop) (svc : Service).
Context (HP : ∀ e, ip_event svc e → P e).

Lemma reads_logs {A} (m : M (env W) A) : preserves (logs reads_only) m → preserves (logs P) m.
Proof. intros Hm s. eapply logs_mono; [|apply Hm]. intros e He. apply HP. by left. Qed.

Lemma setDefaultTags_logs pc kind rid : preserves (logs (W:=W) P) (setDefaultTags pc kind rid svc).
Proof.
  unfold setDefaultTags, setResourceTags.
  apply preserves_bind; [apply _|by eauto with ccm typeclass_instances|]. intros c.
  assert (∀ keys, (∀ k, k ∈ keys → is_Some (tagsForService svc !! k)) →
    preserves (logs (W:=W) P) (for_each keys (λ k,
    r ← call (CreateTags c [rid] kind {[ k := map_get (tagsForService svc) k ]});
    match r with
    | inl err =>
        if already_exist err then mret tt
        else throw (Errorf "error adding tags to %s %s: %v" [kind; rid; Error err])
    | inr _ => mret tt
    end))) as Hall.
  { induction keys as [|k keys IH]; intros Hkeys; cbn [for_each]; [by eauto with ccm typeclass_instances|].
    apply preserves_bind; [apply _| |intros _; apply IH; set_solver].
    destruct (Hkeys k) as [v Hv]; [by left|].
    apply preserves_bind; [apply _| |by intros []; preserve].
    apply preserves_call, HP. right. simpl. unfold map_get. rewrite Hv. simpl.
    by apply map_singleton_subseteq_l. }
  apply Hall. intros k. rewrite sort_Strings_perm. intros ([k' v] & -> & Hin)%list_elem_of_fmap.
  apply elem_of_map_to_list in Hin. by eexists.
Qed.

#[local] Hint Resolve reads_logs setDefaultTags_logs : ccm.

Lemma releaseLoadBalancerIP_logs pc i : preserves (logs (W:=W) P) (releaseLoadBalancerIP pc i).
Proof.
  unfold releaseLoadBalancerIP. apply preserves_bind; [apply _|by eauto with ccm typeclass_instances|].
  intros c. apply preserves_bind; [apply _| |].
  - apply preserves_wrap, preserves_call_err, HP. by right.
  - intros j. case_decide; [|by eauto with ccm typeclass_instances].
    apply waitJob_nil_logs, HP. by left.
Qed.

Lemma associatePublicIPAddress_logs pc net :
  preserves (logs (W:=W) P) (associatePublicIPAddress pc svc net).
Proof.
  unfold associatePublicIPAddress. apply preserves_bind; [apply _|by eauto with ccm typeclass_instances|].
  intros c. apply preserves_bind; [apply _|apply preserves_call, HP; by left|]. intros n.
  destruct (g_err n); [by case_decide; eauto with ccm typeclass_instances|].
  apply preserves_bind; [apply _|by eauto with ccm typeclass_instances|]. intros network.
  apply preserves_bind; [apply _|by apply preserves_wrap, preserves_call_err, HP; right|].
  intros result. case_decide; [|by eauto with ccm typeclass_instances].
  apply preserves_bind; [apply _|apply (waitJob_logs P (k:=KAssociate)), HP; by left|].
  intros result'. by eauto with ccm typeclass_instances.
Qed.

#[local] Hint Resolve releaseLoadBalancerIP_logs associatePublicIPAddress_logs : ccm.

Lemma getLoadBalancerIP_logs fuel pc net : preserves (logs (W:=W) P) (getLoadBalancerIP fuel pc svc net).
Proof. unfold getLoadBalancerIP, tag_or_release, assignTagsToIP. preserve. Qed.
End ip_logs.
