(* ===== verification/Rule.v ===== *)
(** * Rules (loadbalancer.go)

    Finding the rule of a service by name or by tags, creating, updating and
    deleting it, and keeping its machines, networks and pools in line with the
    service. *)
From Stdlib Require Import Ascii.
From stdpp Require Import base list strings gmap sets.
From S2P Require Import Prelude GoStd Kube Cloud Config Meta Pages Balancer Ports PublicIP.

Definition createLoadBalancerExtraParamPrefix : string :=
  "csccm.cloudprovider.io/createloadbalancer-extra-param-".
Definition lbCustomHealthCheck : string := "csccm.cloudprovider.io/loadbalancer-custom-healthcheck".
Definition CloudstackResourceLoadBalancer : string := "LoadBalancer".

(** ** Finding the rule *)

Section find.
Context {W} `{!Cloud W}.

(** The only rule that passes a test, if any; more than one is an error. *)
Definition only_rule (err : error) (matching : list loadBalancerRule) :
    M (env W) (option loadBalancerRule) :=
  match matching with
  | [] => mret None
  | [r] => mret (Some r)
  | _ => throw err
  end.

Definition by_name_params (lbName projectID : string) : params :=
  set_unless_empty "projectid" projectID {[ "keyword" := PStr lbName; "listall" := PBool true ]}.

Definition by_tags_params (svc : Service) (projectID : string) : params :=
  <["tags[0].value" := PStr (map_get (tagsForService svc) serviceTag)]>
    (<["tags[0].key" := PStr serviceTag]>
      (set_unless_empty "projectid" projectID {[ "listall" := PBool true ]})).

Definition list_rules (c : client) (p : params) : ev (error + rtype KListRules) :=
  CustomRequest c "listLoadBalancerRules" p KListRules (rzero KListRules).

Definition getLoadBalancerRuleByName (c : client) (lbName projectID : string) :
    M (env W) (option loadBalancerRule) :=
  result ← call_err (list_rules c (by_name_params lbName projectID));
  let '(count, rules) := (result : Z * list loadBalancerRule) in
  if decide (count = 0%Z) then mret None
  else only_rule (Errorf "lb %q too many rules associated: %#v" [lbName])
         (filter (λ r, lbr_Name r = lbName) rules).

Definition getLoadBalancerByTags (c : client) (svc : Service) (projectID : string) :
    M (env W) (option loadBalancerRule) :=
  let tags := tagsForService svc in
  result ← call_err (list_rules c (by_tags_params svc projectID));
  let '(count, rules) := (result : Z * list loadBalancerRule) in
  if decide (count = 0%Z) then mret None
  else only_rule (Errorf "tags %#v with too many rules associated: %#v" [])
         (filter (λ r, matchAllTags (lbr_Tags r) tags = true) rules).

Definition getLoadBalancerRule (c : client) (svc : Service) (lbName projectID : string) :
    M (env W) (option loadBalancerRule) :=
  byName ← getLoadBalancerRuleByName c lbName projectID;
  match byName with
  | Some r => mret (Some r)
  | None => getLoadBalancerByTags c svc projectID
  end.

Definition getLoadBalancer (cs : CSCloud) (svc : Service) (projectID : string)
    (networkIDs : list string) : M (env W) loadBalancer :=
  let environment := environmentForMeta cs (svc_meta svc) in
  let projectID := if decide (projectID = "") then project_value cs (svc_meta svc) environment
                   else projectID in
  let pc := {| pc_cs := cs; projectID := projectID; environment := environment |} in
  let name := getLoadBalancerName cs svc in
  let mainNetworkID := match networkIDs with n :: _ => n | [] => "" end in
  c ← of_sum (getClient pc);
  found ← wrap (λ e, Errorf "load balancer %s for service %v/%v get rule error: %v"
                       [name; svc_Namespace svc; svc_Name svc; Error e])
    (getLoadBalancerRule c svc name projectID);
  mret match found with
       | Some r =>
           {| cloud := pc; lb_name := name; algorithm := ""; mainNetworkID := lbr_Networkid r;
              ip := {| id := Publicipid r; address := Publicip r; networkid := lbr_Networkid r |};
              rule := Some r; service := svc |}
       | None =>
           {| cloud := pc; lb_name := name; algorithm := ""; mainNetworkID := mainNetworkID;
              ip := no_ip; rule := None; service := svc |}
       end.
End find.

(** ** Algorithm *)

Definition affinity_algorithm (affinity : string) : option string :=
  if decide (affinity = "None" ∨ affinity = "") then Some "roundrobin"
  else if decide (affinity = "ClientIP") then Some "source"
  else None.

(** ** Operations on the rule of a balancer *)

Record checkLBResult := { needsTags : bool; needsUpdate : bool; exists_ : bool }.

(** The hosts to assign to and to remove from a rule: the loop over the machines
    of the rule.  [new] holds the wanted hosts that were not met yet. *)
Fixpoint difference_loop (new : gset string) (lbInstances : list VirtualMachine) :
    gset string * list string :=
  match lbInstances with
  | [] => (new, [])
  | instance :: rest =>
      if decide (vm_Id instance ∈ new) then difference_loop (new ∖ {[vm_Id instance]}) rest
      else let '(new, remove) := difference_loop new rest in (new, vm_Id instance :: remove)
  end.

Section rule.
Context {W} `{!Cloud W}.

Definition symmetricDifference (hostIDs : list string) (lbInstances : list VirtualMachine) :
    M (env W) (list string * list string) :=
  let '(new, remove) := difference_loop (list_to_set hostIDs) lbInstances in
  assign ← range (elements new);
  mret (assign, remove).

Definition setAlgorithm (svc : Service) : M (lbst W) unit :=
  match affinity_algorithm (SessionAffinity svc) with
  | Some a => modify_lb (set_algorithm a)
  | None => throw (Errorf "unsupported load balancer affinity: %v" [SessionAffinity svc])
  end.

(** The arguments configured for the command win over the ID of the rule. *)
Definition delete_request (cfg : CSConfig) (c : client) (ruleID : string) :
    ev (error + rtype KDeleteRule) :=
  let deleteLBCommand := command_or (DeleteLBRule (Command cfg)) "deleteLoadBalancerRule" in
  let p : params := (PStr <$> ToMap (CommandArgs cfg !! deleteLBCommand))
                      ∪ {[ "id" := PStr ruleID ]} in
  CustomRequest c deleteLBCommand p KDeleteRule (rzero KDeleteRule).

Definition deleteLoadBalancerRule : M (lbst W) unit :=
  lb ← the_lb;
  c ← lb_client;
  r ← deref (rule lb);
  jobID ← wrap (λ e, Errorf "error deleting load balancer rule %v: %v" [lb_String (Some lb); Error e])
    (on_env (call_err (delete_request (config (pc_cs (cloud lb))) c (lbr_Id r))));
  (if decide (jobID ≠ "") then on_env (waitJob_nil c jobID) else mret tt) ;;
  modify_lb (set_rule None).

Definition checkLoadBalancerRule : M (lbst W) checkLBResult :=
  lb ← the_lb;
  let none := {| needsTags := false; needsUpdate := false; exists_ := false |} in
  match rule lb with
  | None => mret none
  | Some _ =>
      newPorts ← serviceToLBPorts;
      r ← deref (rule lb);
      let '(r, portsEqual) := comparePorts newPorts r in
      modify_lb (set_rule (Some r)) ;;
      if decide (portsEqual = true ∧ lb_name lb = lbr_Name r) then
        mret {| needsTags := hasMissingTags r;
                needsUpdate := bool_decide (lbr_Algorithm r ≠ algorithm lb);
                exists_ := true |}
      else deleteLoadBalancerRule ;; mret none
  end.

Definition updateLoadBalancerRule : M (lbst W) unit :=
  lb ← the_lb;
  c ← lb_client;
  r ← deref (rule lb);
  wrap (λ e, Errorf "unable to update load balancer %v: %v" [lb_String (Some lb); Error e])
    (on_env (call_err (UpdateLoadBalancerRule c (lbr_Id r) (algorithm lb)))).

Definition create_params (lb : loadBalancer) (ps : lbPorts) : params :=
  let p : params :=
    {[ "algorithm" := PStr (algorithm lb); "name" := PStr (lb_name lb);
       "privateport" := PInt (first_privatePort ps); "publicport" := PInt (first_publicPort ps);
       "networkid" := PStr (mainNetworkID lb); "publicipid" := PStr (id (ip lb));
       "protocol" := PStr (protocol ps) ]} in
  let p := if decide (0 < length (additionalPorts ps))
           then <["additionalportmap" := PStr (Join (additionalPorts ps) ",")]> p else p in
  setExtraParams (service lb) createLoadBalancerExtraParamPrefix
    (<["openfirewall" := PBool false]> p).

Definition rule_of_response (r : CreateLoadBalancerRuleResponse) : loadBalancerRule :=
  {| lbr_Id := cr_Id r; lbr_Name := cr_Name r; lbr_Algorithm := cr_Algorithm r;
     lbr_Cidrlist := cr_Cidrlist r; lbr_Networkid := cr_Networkid r;
     Privateport := cr_Privateport r; Publicport := cr_Publicport r; Publicip := cr_Publicip r;
     Publicipid := cr_Publicipid r; Zoneid := cr_Zoneid r; lbr_Protocol := cr_Protocol r;
     lbr_Tags := []; AdditionalPortMap := [] |}.

Definition createLoadBalancerRule : M (lbst W) loadBalancerRule :=
  c ← lb_client;
  ps ← serviceToLBPorts;
  lb ← the_lb;
  r ← wrap (λ e, Errorf "error creating load balancer rule for %v: %v" [lb_String (Some lb); Error e])
    (on_env (call_err (CustomRequest c "createLoadBalancerRule" (create_params lb ps)
                         KCreateRule (rzero KCreateRule))));
  r ← (if decide (cr_JobID r ≠ "") then
         wrap (λ e, Errorf "error waiting for load balancer rule job for %v: %v"
                      [lb_String (Some lb); Error e])
           (on_env (waitJob (k:=KCreateRule) c (cr_JobID r) r))
       else mret r);
  mret (rule_of_response r).

Definition assignTagsToRule : M (lbst W) unit :=
  lb ← the_lb;
  r ← deref (rule lb);
  on_env (setDefaultTags (cloud lb) CloudstackResourceLoadBalancer (lbr_Id r) (service lb)).

(** *** Machines and networks *)

Definition assignHostsToRule (hostIDs : list string) : M (lbst W) unit :=
  lb ← the_lb;
  c ← lb_client;
  r ← deref (rule lb);
  wrap (λ e, Errorf "error assigning hosts to %v: %v" [lb_String (Some lb); Error e])
    (on_env (call_err (AssignToLoadBalancerRule c (lbr_Id r) hostIDs))).

Definition removeHostsFromRule (hostIDs : list string) : M (lbst W) unit :=
  lb ← the_lb;
  c ← lb_client;
  r ← deref (rule lb);
  wrap (λ e, Errorf "error removing hosts from %v: %v" [lb_String (Some lb); Error e])
    (on_env (call_err (RemoveFromLoadBalancerRule c (lbr_Id r) hostIDs))).

Definition already_mapped (e : error) : bool := Contains (Error e) "is already mapped".

Definition assignNetworkToRule (networkID : string) : M (lbst W) unit :=
  lb ← the_lb;
  r ← deref (rule lb);
  let p := <["networkids" := PList [networkID]]> (<["id" := PStr (lbr_Id r)]>
    (set_unless_empty "projectid" (projectID (cloud lb)) ∅)) in
  c ← lb_client;
  let cmd := AssignNetworks (Command (config (pc_cs (cloud lb)))) in
  jobID ← wrap (λ e, Errorf "error assigning networks to %v using cmd %q: %v "
                       [lb_String (Some lb); cmd; Error e])
    (on_env (call_err (CustomRequest c cmd p KJob (rzero KJob))));
  if decide (jobID ≠ "") then
    r ← on_env (try (waitJob_nil c jobID));
    match r with
    | inl err => if already_mapped err then mret tt else throw err
    | inr _ => mret tt
    end
  else mret tt.

Definition assignNetworksToRule (networkIDs : list string) : M (lbst W) unit :=
  lb ← the_lb;
  if decide (AssignNetworks (Command (config (pc_cs (cloud lb)))) = "") then mret tt
  else for_each networkIDs assignNetworkToRule.

Definition syncNodes (fuel : nat) (hostIDs networkIDs : list string) : M (lbst W) unit :=
  c ← lb_client;
  lb ← the_lb;
  r ← deref (rule lb);
  vms ← wrap (λ e, Errorf "error retrieving associated instances: %v" [Error e])
    (on_env (listAllLBInstancesPages fuel c
               {| li_Id := lbr_Id r; li_Page := None; li_Pagesize := None |}));
  d ← on_env (symmetricDifference hostIDs vms);
  let '(assign, remove) := (d : list string * list string) in
  (if decide (0 < length assign)
   then assignNetworksToRule networkIDs ;; assignHostsToRule assign
   else mret tt) ;;
  (if decide (0 < length remove) then removeHostsFromRule remove else mret tt).

(** *** Health checks of the pools *)

Definition pool_params (r : loadBalancerRule) (pool : globoNetworkPool) (p : params) : params :=
  let p :=
    <["maxconn" := PInt 0]> (<["zoneid" := PStr (Zoneid r)]>
    (<["expectedhealthcheck" := PStr (HealthCheckExpected pool)]>
    (<["healthcheck" := PStr (HealthCheck pool)]>
    (<["healthchecktype" := PStr (ToUpper (HealthCheckType pool))]>
    (<["lbruleid" := PStr (lbr_Id r)]> (<["poolids" := PInt (pool_Id pool)]> p)))))) in
  if decide (HealthCheckType pool = ProtocolUDP) then
    <["redeploy" := PBool true]> (<["l7protocol" := PStr "Outros"]>
      (<["l4protocol" := PStr (ToUpper (HealthCheckType pool))]> p))
  else p.

(** The loop over the ports.  The parameters [p], the answer [rsp] and the pools
    are declared before the loop and changed by its rounds. *)
Fixpoint update_pools (c : client) (lb : loadBalancer) (r : loadBalancerRule) (ps : lbPorts)
    (infos : list lbPortInfo) (pools : list globoNetworkPool) (p : params)
    (rsp : UpdateGloboNetworkPoolResponse) : M (env W) unit :=
  match infos with
  | [] => mret tt
  | portInfo :: infos =>
      match generateGloboNetworkPool ps portInfo (service lb) pools with
      | (None, pools) => update_pools c lb r ps infos pools p rsp
      | (Some pool, pools) =>
          let p := pool_params r pool p in
          rsp ← wrap (λ e, Errorf "error updating globo network pool for %v: %v"
                             [lb_String (Some lb); Error e])
            (call_err (CustomRequest c "updateGloboNetworkPool" p KUpdatePool rsp));
          rsp ← (if decide (pu_JobID rsp ≠ "") then
                   wrap (λ e, Errorf "error waiting for globo network pool for rule for %v: %v"
                                [lb_String (Some lb); Error e])
                     (waitJob (k:=KUpdatePool) c (pu_JobID rsp) rsp)
                 else mret rsp);
          update_pools c lb r ps infos pools p rsp
      end
  end.

Definition updateLoadBalancerPool : M (lbst W) unit :=
  c ← lb_client;
  lb ← the_lb;
  r ← deref (rule lb);
  if decide (has_label (svc_meta (service lb)) lbCustomHealthCheck = false ∧
             lbr_Protocol r ≠ ProtocolUDP) then mret tt
  else
    result ← wrap (λ e, Errorf "error list load balancer pools for %v: %v"
                          [lb_String (Some lb); Error e])
      (on_env (call_err (CustomRequest c "listGloboNetworkPools"
         {[ "lbruleid" := PStr (lbr_Id r); "zoneid" := PStr (Zoneid r) ]}
         KListPools (rzero KListPools))));
    let '(count, pools) := (result : Z * list globoNetworkPool) in
    if decide (count = 0%Z) then
      throw (Errorf "error list load balancer pools for %v: no LB pools found" [lb_String (Some lb)])
    else
      ps ← serviceToLBPorts;
      lb ← the_lb;
      on_env (update_pools c lb r ps (ports ps) pools ∅ (rzero KUpdatePool)).

(** *** The IP of the balancer *)

Definition loadLoadBalancerIP (fuel : nat) : M (lbst W) unit :=
  lb ← the_lb;
  if isValid (ip lb) then mret tt
  else
    i ← on_env (getLoadBalancerIP fuel (cloud lb) (service lb) (mainNetworkID lb));
    modify_lb (set_ip i) ;; modify_lb (set_mainNetworkID (networkid i)).

Definition updateLoadBalancerIP : M (lbst W) unit :=
  lb ← the_lb;
  publicIP ← on_env (getPublicIPAddressByIP (cloud lb) (LoadBalancerIP (service lb)));
  let oldIP := ip lb in
  modify_lb (set_ip publicIP) ;;
  match rule lb with
  | Some _ => deleteLoadBalancerRule ;; modify_lb (set_rule None)
  | None => mret tt
  end ;;
  if isValid oldIP then on_env (releaseIPIfManaged (cloud lb) oldIP (service lb)) else mret tt.
End rule.

(** ** Finding the rule *)

Section find_facts.
Context {W} `{!Cloud W}.
Implicit Types s : env W.

Lemma getLoadBalancerRule_reads c svc n p :
  preserves (logs (W:=W) reads_only) (getLoadBalancerRule c svc n p).
Proof.
  unfold getLoadBalancerRule, getLoadBalancerRuleByName, getLoadBalancerByTags, only_rule. preserve.
Qed.

#[local] Hint Resolve getLoadBalancerRule_reads : ccm.

Lemma getLoadBalancer_reads cs svc p nets :
  preserves (logs (W:=W) reads_only) (getLoadBalancer cs svc p nets).
Proof. unfold getLoadBalancer. preserve. Qed.

(** The rules of an answer to a search; an answer with count 0 has none. *)
Definition listed (answer : Z * list loadBalancerRule) : list loadBalancerRule :=
  if decide (answer.1 = 0%Z) then [] else answer.2.

(** The result of a search among the rules that qualify. *)
Definition unique_rule (l : list loadBalancerRule) (r : res (option loadBalancerRule)) : Prop :=
  match l with
  | [] => r = Ok None
  | [x] => r = Ok (Some x)
  | _ => ∃ format args, r = Err (Errorf format args)
  end.

(** (C21) The search for the rule of a service makes one or two list calls and
    changes nothing.  Among the rules of the first answer those with the
    balancer's name count, and only when there is none those of the second
    answer whose tags match the service's; exactly one candidate is returned,
    several are an error and never a choice, and a failed call is passed on. *)
Theorem getLoadBalancerRule_spec c svc n p s :
  wp (getLoadBalancerRule c svc n p) (λ r s',
    let '(w, byName) := exec (list_rules c (by_name_params n p)) (ew s) in
    let log := elog s ++ [Ev (list_rules c (by_name_params n p))] in
    match byName with
    | inl e => r = Err e ∧ elog s' = log
    | inr answer =>
        match filter (λ r, lbr_Name r = n) (listed answer) with
        | [] =>
            elog s' = log ++ [Ev (list_rules c (by_tags_params svc p))] ∧
            match (exec (list_rules c (by_tags_params svc p)) w).2 with
            | inl e => r = Err e
            | inr answer =>
                unique_rule (filter (λ r, matchAllTags (lbr_Tags r) (tagsForService svc) = true)
                               (listed answer)) r
            end
        | named => unique_rule named r ∧ elog s' = log
        end
    end) s.
Proof.
  unfold getLoadBalancerRule. apply wp_bind. unfold getLoadBalancerRuleByName at 1.
  apply wp_bind, wp_call_err; intros w x Hw; simpl in *; rewrite Hw; [done|].
  set (named := filter _ (listed x)). set (t := Env w _).
  assert (wp (let '(count, rules) := x in
      if decide (count = 0%Z) then mret None
      else only_rule (Errorf "lb %q too many rules associated: %#v" [n])
             (filter (λ r, lbr_Name r = n) rules))
    (λ r t', t' = t ∧ unique_rule named r) t) as Hname.
  { subst named. destruct x as [cnt rules]. unfold listed. simpl. case_decide; [done|].
    destruct (filter _ rules) as [|r [|r' l]]; unfold wp, unique_rule; simpl; eauto. }
  eapply wp_mono; [exact Hname|]. intros r t' [-> Hr].
  destruct named as [|r1 [|r2 l]]; simpl in Hr.
  - subst r. simpl. unfold getLoadBalancerByTags. cbv zeta.
    apply wp_bind, wp_call_err; intros w' y Hw'; simpl in *; rewrite Hw'; [done|]. simpl.
    destruct y as [cnt rules]. unfold listed. simpl. case_decide; [done|].
    destruct (filter _ rules) as [|r [|r' l]]; unfold wp, unique_rule; simpl; eauto.
  - subst r. by apply wp_ret.
  - destruct Hr as (f & args & ->). unfold unique_rule. simpl. eauto.
Qed.

Lemma getLoadBalancerRule_total c svc n p s :
  wp (getLoadBalancerRule c svc n p)
    (λ r _, match r with Ok _ | Err _ => True | _ => False end) s.
Proof.
  assert (∀ err l (t : env W), wp (only_rule err l)
    (λ r _, match r with Ok _ | Err _ => True | _ => False end) t) as Honly.
  { intros err [|r [|]] t; by unfold wp. }
  unfold getLoadBalancerRule, getLoadBalancerRuleByName, getLoadBalancerByTags.
  apply wp_bind, wp_bind, wp_call_err; intros w x Hw; simpl; [done|]; destruct x as [cnt rules].
  match goal with |- wp ?m _ _ => eapply (wp_mono m (λ r _, match r with Ok _ | Err _ => True | _ => False end)) end.
  { case_decide; [done|apply Honly]. }
  intros [[r|]|e| |] t; simpl; try done. intros _.
  apply wp_bind, wp_call_err; intros w' x' Hw'; simpl; [done|]; destruct x' as [cnt' rules'].
  case_decide; [done|apply Honly].
Qed.

(** The parts of a balancer that getLoadBalancer returns. *)
Definition built_for (cs : CSCloud) (svc : Service) (lb : loadBalancer) : Prop :=
  pc_cs (cloud lb) = cs ∧ service lb = svc ∧ lb_name lb = getLoadBalancerName cs svc ∧
  environment (cloud lb) = environmentForMeta cs (svc_meta svc) ∧
  (∃ c, getClient (cloud lb) = inr c) ∧
  match rule lb with
  | Some r => ip lb = {| id := Publicipid r; address := Publicip r; networkid := lbr_Networkid r |} ∧
              mainNetworkID lb = lbr_Networkid r
  | None => ip lb = no_ip
  end.

Lemma getLoadBalancer_spec cs svc p nets s :
  wp (getLoadBalancer cs svc p nets) (λ r s', logs reads_only s s' ∧
    match r with
    | Ok lb => built_for cs svc lb ∧
        (p ≠ "" → projectID (cloud lb) = p) ∧
        (rule lb = None → mainNetworkID lb = default "" (head nets))
    | Err _ => True
    | _ => False
    end) s.
Proof.
  apply wp_and; [apply getLoadBalancer_reads|]. unfold getLoadBalancer.
  set (pc := {| pc_cs := cs |}). apply wp_bind.
  destruct (getClient pc) as [e|c] eqn:Hc; [by apply wp_throw|]. apply wp_ret. simpl.
  apply wp_bind, wp_wrap. eapply wp_mono; [apply getLoadBalancerRule_total|].
  intros r s1 Hr. destruct r as [found|e| |]; simpl; try done. apply wp_ret.
  unfold built_for.
  destruct found; simpl; (split; [split_and!; eauto|split]; try done).
  all: try (intros Hp; by rewrite decide_False).
  by destruct nets.
Qed.
End find_facts.

#[export] Hint Resolve getLoadBalancerRule_reads getLoadBalancer_reads : ccm.

(** ** The machines of a rule *)

(** What the assignments and removals of a log make of the machines of a rule. *)
Definition host_step (rid : string) (hosts : gset string) (e : event) : gset string :=
  match projT2 e with
  | AssignToLoadBalancerRule _ i vms => if decide (i = rid) then hosts ∪ list_to_set vms else hosts
  | RemoveFromLoadBalancerRule _ i vms => if decide (i = rid) then hosts ∖ list_to_set vms else hosts
  | _ => hosts
  end.
Definition hosts_after (rid : string) : gset string → list event → gset string :=
  foldl (host_step rid).

(** Every set of machines the rule goes through. *)
Fixpoint hosts_trace (rid : string) (hosts : gset string) (l : list event) : list (gset string) :=
  hosts :: match l with [] => [] | e :: l => hosts_trace rid (host_step rid hosts e) l end.

Definition host_call (e : event) : Prop :=
  match projT2 e with
  | AssignToLoadBalancerRule _ _ _ | RemoveFromLoadBalancerRule _ _ _ => True
  | _ => False
  end.

Section hosts.
Implicit Types (X wanted : gset string) (l : list event).

Lemma filter_new (new new' : gset string) (ids : list string) :
  (∀ i, i ∈ ids → i ∈ new' ↔ i ∈ new) → filter (λ i, i ∉ new') ids = filter (λ i, i ∉ new) ids.
Proof.
  induction ids as [|i ids IH]; intros Hi; [done|]. rewrite !filter_cons, IH by set_solver.
  assert (i ∈ new' ↔ i ∈ new) by set_solver. repeat case_decide; tauto.
Qed.

Lemma difference_loop_spec new vms :
  NoDup (vm_Id <$> vms) →
  difference_loop new vms =
    (new ∖ list_to_set (vm_Id <$> vms), filter (λ i, i ∉ new) (vm_Id <$> vms)).
Proof.
  revert new. induction vms as [|vm vms IH]; intros new Hnd; cbn [difference_loop].
  - f_equal. set_solver.
  - rewrite fmap_cons in Hnd |- *. apply NoDup_cons in Hnd as [Hvm Hnd].
    rewrite filter_cons. case_decide as Hin.
    + rewrite IH by done. rewrite decide_False by tauto. f_equal; [set_solver|].
      apply filter_new. intros i Hi. set_solver.
    + rewrite IH by done. rewrite decide_True by done. f_equal. set_solver.
Qed.

Lemma host_step_other rid X e : ¬ host_call e → host_step rid X e = X.
Proof. unfold host_call, host_step. by destruct (projT2 e). Qed.

Lemma hosts_after_other rid X l : Forall (λ e, ¬ host_call e) l → hosts_after rid X l = X.
Proof. induction 1 as [|e l He _ IH]; simpl; [done|]. by rewrite host_step_other. Qed.

Lemma hosts_trace_other rid X l (P : gset string → Prop) :
  Forall (λ e, ¬ host_call e) l → P X → Forall P (hosts_trace rid X l).
Proof.
  intros Hl HP. induction Hl as [|e l He _ IH]; simpl; [by repeat constructor|].
  rewrite host_step_other by done. by constructor.
Qed.

Lemma hosts_trace_app rid X l1 l2 (P : gset string → Prop) :
  Forall P (hosts_trace rid X l1) → Forall P (hosts_trace rid (hosts_after rid X l1) l2) →
  Forall P (hosts_trace rid X (l1 ++ l2)).
Proof.
  revert X. induction l1 as [|e l1 IH]; intros X H1 H2; simpl in *; [done|].
  apply Forall_cons in H1 as [HX H1]. constructor; [done|]. by apply IH.
Qed.

Lemma hosts_after_app rid X l1 l2 :
  hosts_after rid X (l1 ++ l2) = hosts_after rid (hosts_after rid X l1) l2.
Proof. apply foldl_app. Qed.
End hosts.

Definition not_host (e : event) : Prop := ¬ host_call e.
#[export] Hint Extern 1 (not_host _) => (intros []) : ccm.

Lemma reads_only_not_host e : reads_only e → not_host e.
Proof. destruct e as [A []]; unfold reads_only, not_host; simpl; naive_solver. Qed.

Section sync_facts.
Context {W} `{!Cloud W}.
Implicit Types s : lbst W.

Lemma symmetricDifference_spec hostIDs vms (s : env W) :
  NoDup (vm_Id <$> vms) →
  let wanted := list_to_set hostIDs : gset string in
  let current := list_to_set (vm_Id <$> vms) : gset string in
  wp (symmetricDifference hostIDs vms) (λ r (s' : env W), elog s' = elog s ∧
    ∃ assign remove, r = Ok (assign, remove) ∧
      list_to_set assign = wanted ∖ current ∧ list_to_set remove = current ∖ wanted) s.
Proof.
  intros Hnd wanted current. unfold symmetricDifference. rewrite difference_loop_spec by done.
  apply wp_bind, wp_range. intros w l Hl. simpl. apply wp_ret. split; [done|].
  exists l, (filter (λ i, i ∉ (list_to_set hostIDs : gset string)) (vm_Id <$> vms)).
  split_and!; [done| |].
  - apply set_eq. intros i. rewrite elem_of_list_to_set, Hl, elem_of_elements. done.
  - apply set_eq. intros i. rewrite elem_of_list_to_set, list_elem_of_filter. set_solver.
Qed.

Lemma assignNetworksToRule_keeps nets :
  preserves (@lb_keeps W not_host) (assignNetworksToRule nets).
Proof. unfold assignNetworksToRule, assignNetworkToRule. preserve. Qed.

Lemma assignNetworksToRule_total nets s c r :
  getClient (cloud (lobj s)) = inr c → rule (lobj s) = Some r →
  wp (assignNetworksToRule nets) (λ r _, match r with Ok _ | Err _ => True | _ => False end) s.
Proof.
  intros Hc Hr. unfold assignNetworksToRule. apply wp_bind. unfold wp at 1. simpl.
  case_decide; [done|].
  apply (wp_for_each (λ _ s', lobj s' = lobj s)); [done| |done].
  intros n l s' Hs. unfold assignNetworkToRule.
  apply wp_bind. unfold wp at 1. simpl. rewrite Hs, Hr.
  apply wp_bind, wp_ret. simpl. apply wp_bind, wp_lb_client. rewrite Hs, Hc. simpl.
  apply wp_bind, wp_wrap, wp_on_env, wp_call_err; intros w x Hw; simpl; [done|].
  case_decide; [|by apply wp_ret].
  apply wp_bind, wp_on_env, wp_try. unfold waitJob_nil.
  apply wp_bind, wp_call_err; intros w' y Hw'; simpl.
  - by destruct (already_mapped y).
  - by apply wp_ret.
Qed.

Section phases.
Context (c : client) (r : loadBalancerRule) (s : lbst W).
Context (Hc : getClient (cloud (lobj s)) = inr c) (Hr : rule (lobj s) = Some r).

Lemma assignHostsToRule_spec assign :
  wp (assignHostsToRule assign) (λ res s', lobj s' = lobj s ∧ returns res ∧
    elog (lenv s') = elog (lenv s) ++ [Ev (AssignToLoadBalancerRule c (lbr_Id r) assign)]) s.
Proof.
  unfold assignHostsToRule. apply wp_bind. unfold wp at 1. simpl.
  apply wp_bind, wp_lb_client. rewrite Hc, Hr. simpl. apply wp_bind, wp_ret. simpl.
  by apply wp_wrap, wp_on_env, wp_call_err; intros w x Hw.
Qed.

Lemma remove_phase remove :
  wp (if decide (0 < length remove) then removeHostsFromRule remove else mret tt)
    (λ res s', lobj s' = lobj s ∧ returns res ∧ ∃ tr, elog (lenv s') = elog (lenv s) ++ tr ∧
      (tr = [] ∨ tr = [Ev (RemoveFromLoadBalancerRule c (lbr_Id r) remove)]) ∧
      (remove = [] ∨ tr ≠ []) ∧ (remove = [] → res = Ok tt ∧ tr = [])) s.
Proof.
  case_decide as Hlen.
  - unfold removeHostsFromRule. apply wp_bind. unfold wp at 1. simpl.
    apply wp_bind, wp_lb_client. rewrite Hc, Hr. simpl. apply wp_bind, wp_ret. simpl.
    apply wp_wrap, wp_on_env, wp_call_err; intros w x Hw; simpl.
    all: split_and!; [done..|]; eexists; split_and!; [done|by right|by right|by intros ->; inversion Hlen].
  - apply wp_ret. split_and!; [done..|]. exists []. rewrite app_nil_r.
    assert (remove = []) as -> by (destruct remove; simpl in *; [done|lia]). by split_and!; [|left|left|].
Qed.
End phases.

Lemma assign_phase c r s nets assign :
  getClient (cloud (lobj s)) = inr c → rule (lobj s) = Some r →
  wp (if decide (0 < length assign) then assignNetworksToRule nets ;; assignHostsToRule assign
      else mret tt)
    (λ res s', lobj s' = lobj s ∧ returns res ∧ ∃ l ta, elog (lenv s') = elog (lenv s) ++ l ++ ta ∧
      Forall not_host l ∧ (ta = [] ∨ ta = [Ev (AssignToLoadBalancerRule c (lbr_Id r) assign)]) ∧
      (res = Ok tt → assign = [] ∨ ta ≠ []) ∧ (assign = [] → res = Ok tt ∧ l = [] ∧ ta = [])) s.
Proof.
  intros Hc Hr. case_decide as Hlen.
  - assert (assign ≠ []) as Hne by (intros ->; inversion Hlen).
    apply wp_bind. eapply wp_mono.
    { apply wp_and; [by eapply assignNetworksToRule_total|eapply (preserves_wp (lb_keeps not_host)), assignNetworksToRule_keeps]. }
    intros [[]|e| |] s1 (Htot & Hobj & l & Hlog & HF); simpl in *; try done.
    + rewrite <- Hobj in Hc, Hr. eapply wp_mono; [by eapply assignHostsToRule_spec|].
      intros res s2 (Hobj2 & Hret & Hlog2). split_and!; [congruence|done|]. eexists l, _.
      rewrite Hlog2, Hlog, <- app_assoc. by split_and!; [| |right|right|].
    + split_and!; [done..|]. exists l, []. rewrite app_nil_r. by split_and!; [| |left| |].
  - apply wp_ret. split_and!; [done..|]. exists [], []. rewrite !app_nil_r.
    assert (assign = []) as -> by (destruct assign; simpl in *; [done|lia]). by split_and!; [| |left|left|].
Qed.

Lemma list_to_set_nil_inv (X : gset string) (l : list string) :
  (list_to_set l : gset string) ⊆ ∅ → l = [].
Proof. destruct l as [|i l]; [done|]. intros H. set_solver. Qed.

Lemma sync_log c rid (wanted current : gset string) assign remove l ta tr :
  list_to_set assign = wanted ∖ current → list_to_set remove = current ∖ wanted →
  Forall not_host l →
  (ta = [] ∨ ta = [Ev (AssignToLoadBalancerRule c rid assign)]) →
  (tr = [] ∨ tr = [Ev (RemoveFromLoadBalancerRule c rid remove)]) →
  Forall (λ X, wanted ∩ current ⊆ X ∧ X ⊆ wanted ∪ current) (hosts_trace rid current (l ++ ta ++ tr)) ∧
  ((assign = [] ∨ ta ≠ []) → (remove = [] ∨ tr ≠ []) →
   hosts_after rid current (l ++ ta ++ tr) = wanted).
Proof.
  intros Ha Hr Hl Hta Htr. split.
  - apply hosts_trace_app; [apply hosts_trace_other; [done|set_solver]|].
    rewrite hosts_after_other by done.
    destruct Hta as [->| ->], Htr as [->| ->]; simpl; unfold host_step; simpl;
      rewrite ?decide_True, ?Ha, ?Hr by done; repeat constructor; set_solver.
  - intros Hda Hdr. rewrite hosts_after_app, (hosts_after_other rid current l), hosts_after_app by done.
    assert (hosts_after rid current ta = current ∪ (wanted ∖ current)) as ->.
    { rewrite <- Ha. destruct Hta as [->| ->]; simpl; unfold host_step; simpl.
      - destruct Hda as [->|]; [simpl; set_solver|done].
      - by rewrite decide_True. }
    assert (∀ X, hosts_after rid X tr = X ∖ (current ∖ wanted)) as ->.
    { intros X. rewrite <- Hr. destruct Htr as [->| ->]; simpl; unfold host_step; simpl.
      - destruct Hdr as [->|]; [simpl; set_solver|done].
      - by rewrite decide_True. }
    apply set_eq. intros i. destruct (decide (i ∈ wanted)), (decide (i ∈ current)); set_solver.
Qed.

(** (C14) Bringing the machines of a rule in line with the wanted ones: the
    machines that are both wanted and in the rule are in it throughout, only
    wanted machines are ever added, and success means that the rule has exactly
    the wanted machines; when it has them already nothing is asked of
    CloudStack but the listing.  This holds whatever CloudStack lists and
    answers, errors included. *)
Theorem syncNodes_spec fuel hostIDs nets s c r
    (Hc : getClient (cloud (lobj s)) = inr c) (Hr : rule (lobj s) = Some r) :
  let request := {| li_Id := lbr_Id r; li_Page := None; li_Pagesize := None |} in
  let wanted := list_to_set hostIDs : gset string in
  wp (syncNodes fuel hostIDs nets) (λ res s', lobj s' = lobj s ∧
    ∃ l, elog (lenv s') = elog (lenv s) ++ l ∧
    match (listAllLBInstancesPages fuel c request (lenv s)).2 with
    | Ok vms =>
        let current := list_to_set (vm_Id <$> vms) : gset string in
        returns res ∧
        Forall (λ X, wanted ∩ current ⊆ X ∧ X ⊆ wanted ∪ current)
          (hosts_trace (lbr_Id r) current l) ∧
        (res = Ok tt → hosts_after (lbr_Id r) current l = wanted) ∧
        (current = wanted → res = Ok tt ∧ Forall reads_only l)
    | _ => res ≠ Ok tt ∧ Forall reads_only l
    end) s.
Proof.
  intros request wanted. unfold syncNodes. apply wp_bind, wp_lb_client. rewrite Hc.
  apply wp_bind. unfold wp at 1. simpl. rewrite Hr. apply wp_bind, wp_ret. simpl.
  apply wp_bind, wp_wrap, wp_on_env. fold request. unfold wp at 1.
  pose proof (listAllLBInstancesPages_reads fuel c request (lenv s)) as (l1 & Hl1 & Hread).
  pose proof (listAllPagesUnsafe_distinct fuel c 50 request (lenv s)) as Hnd. unfold wp in Hnd.
  fold (listAllLBInstancesPages (W:=W)) in Hnd.
  change (listAllPagesUnsafe fuel c 50 request (lenv s))
    with (listAllLBInstancesPages fuel c request (lenv s)) in Hnd.
  destruct (listAllLBInstancesPages fuel c request (lenv s)) as [e1 [vms|e| |]]; simpl in *;
    [|split; [done|]; by exists l1..].
  specialize (Hnd vms eq_refl). apply wp_bind, wp_on_env. simpl.
  eapply wp_mono; [by apply symmetricDifference_spec|].
  intros r' e2 (Hlog2 & assign & remove & -> & Hassign & Hremove). simpl.
  set (current := list_to_set (vm_Id <$> vms)) in *.
  apply wp_bind. eapply wp_mono; [by eapply (assign_phase c r)|].
  assert (Forall not_host l1) as Hl1h by (eapply Forall_impl; eauto using reads_only_not_host).
  intros res s3 (Hobj3 & Hret3 & l & ta & Hl & Hno & Hta & Hok & Hnone). simpl in Hobj3, Hl.
  assert (Forall not_host (l1 ++ l)) as Hno2 by by apply Forall_app.
  rewrite Hlog2, Hl1, <- app_assoc, (app_assoc l1) in Hl.
  assert (current = wanted → assign = [] ∧ remove = []) as Hsame.
  { intros Hcur. split; apply (list_to_set_nil_inv wanted); set_solver. }
  destruct res as [[]|e| |]; simpl; try done.
  - rewrite <- Hobj3 in Hc, Hr. eapply wp_mono; [by eapply remove_phase|].
    intros res s4 (Hobj4 & Hret4 & tr & Hl4 & Htr & Hok4 & Hnone4). split; [congruence|].
    exists ((l1 ++ l) ++ ta ++ tr). rewrite Hl4, Hl, <- !app_assoc. split; [done|]. split; [done|].
    destruct (sync_log c (lbr_Id r) wanted current assign remove (l1 ++ l) ta tr) as [Htrace Hafter];
      [done..|]. rewrite <- app_assoc in Htrace, Hafter.
    split_and!; [done|by intros _; apply Hafter; [apply Hok|]|].
    intros [Ha Hrm]%Hsame. destruct (Hnone Ha) as (_ & -> & ->), (Hnone4 Hrm) as (-> & ->). by rewrite !app_nil_r.
  - split; [done|]. exists ((l1 ++ l) ++ ta ++ []). rewrite app_nil_r. split; [done|].
    destruct (sync_log c (lbr_Id r) wanted current assign remove (l1 ++ l) ta []) as [Htrace _];
      [done|done|done|done|by left|]. rewrite app_nil_r in Htrace. split_and!; [done..|].
    intros [Ha _]%Hsame. by destruct (Hnone Ha).
Qed.
End sync_facts.

(** ** Checking and deleting a rule *)

Section check_facts.
Context {W} `{!Cloud W}.
Implicit Types s : lbst W.

(** The request of lb's client for the deletion of a rule, as an event. *)
Definition deletion (lb : loadBalancer) (c : client) (r : loadBalancerRule) : event :=
  Ev (delete_request (config (pc_cs (cloud lb))) c (lbr_Id r)).

Lemma deleteLoadBalancerRule_spec s r :
  rule (lobj s) = Some r →
  wp deleteLoadBalancerRule (λ res s', returns res ∧
    lobj s' = match res with Ok _ => set_rule None (lobj s) | _ => lobj s end ∧
    match getClient (cloud (lobj s)) with
    | inl e => res = Err e ∧ lenv s' = lenv s
    | inr c => ∃ l, elog (lenv s') = elog (lenv s) ++ deletion (lobj s) c r :: l ∧ Forall reads_only l
    end) s.
Proof.
  intros Hr. unfold deleteLoadBalancerRule. apply wp_bind. unfold wp at 1. simpl.
  apply wp_bind, wp_lb_client. destruct (getClient (cloud (lobj s))) as [e|c] eqn:Hc; simpl; [done|].
  rewrite Hr. apply wp_bind, wp_ret. simpl. apply wp_bind, wp_wrap, wp_on_env.
  apply wp_call_err; intros w j Hw; simpl; [by eauto|]. apply wp_bind.
  unfold deletion. case_decide as Hj.
  - apply wp_on_env. unfold waitJob_nil. apply wp_bind, wp_call_err; intros w' x Hw'; simpl.
    + split_and!; [done..|]. eexists [_]. rewrite <- app_assoc. split; [done|].
      apply Forall_singleton. by split.
    + apply wp_ret. unfold wp. simpl. split_and!; [done..|]. eexists [_]. rewrite <- app_assoc.
      split; [done|]. apply Forall_singleton. by split.
  - apply wp_ret. unfold wp. simpl. by eauto.
Qed.

#[local] Opaque comparePorts.

Definition no_result : checkLBResult :=
  {| needsTags := false; needsUpdate := false; exists_ := false |}.

(** The rule is the one the service wants, but for its algorithm and tags. *)
Definition reusable (lb : loadBalancer) (r : loadBalancerRule) (ps : lbPorts) : Prop :=
  describes r ps ∧ lb_name lb = lbr_Name r.

(** (C18) A balancer without a rule is left alone.  An existing rule is kept
    exactly when it has the balancer's name and describes the ports of the
    service, and then nothing is asked of CloudStack and the result says which
    of its algorithm and its tags are out of date.  Every other rule is
    deleted by one request, and forgotten only when that succeeded; ports that
    cannot be worked out are an error, and the rule stays. *)
Theorem checkLoadBalancerRule_spec s :
  wp checkLoadBalancerRule (λ res s', returns res ∧
    match rule (lobj s) with
    | None => res = Ok no_result ∧ s' = s
    | Some r =>
        match (serviceToLBPorts s).2 with
        | Ok ps =>
            (reusable (lobj s) r ps →
              res = Ok {| needsTags := hasMissingTags r;
                          needsUpdate := bool_decide (lbr_Algorithm r ≠ algorithm (lobj s));
                          exists_ := true |} ∧
              rule (lobj s') = Some (sort_rule r) ∧ lb_logs reads_only s s') ∧
            (¬ reusable (lobj s) r ps →
              match res with
              | Ok result => result = no_result ∧ rule (lobj s') = None
              | _ => rule (lobj s') = Some (sort_rule r)
              end ∧
              match getClient (cloud (lobj s)) with
              | inl e => res = Err e ∧ lb_logs reads_only s s'
              | inr c => ∃ l1 l2, elog (lenv s') =
                  elog (lenv s) ++ l1 ++ deletion (lobj s) c r :: l2 ∧
                  Forall reads_only l1 ∧ Forall reads_only l2
              end)
        | Err e => res = Err e ∧ rule (lobj s') = Some r ∧ lb_logs reads_only s s'
        | _ => False
        end
    end) s.
Proof.
  unfold checkLoadBalancerRule. apply wp_bind. unfold wp at 1. simpl.
  destruct (rule (lobj s)) as [r|] eqn:Hr; [|done].
  apply wp_bind. unfold wp at 1. pose proof (serviceToLBPorts_frame s) as H. unfold wp in H.
  destruct (serviceToLBPorts s) as [s1 [ps|e| |]]; cbn [fst snd on_ok] in *;
    destruct H as (Hret & Hlog & Hobj & Hports); try done; [|by rewrite Hobj].
  apply wp_bind, wp_ret. cbn [on_ok].
  pose proof (comparePorts_iff ps r) as (Hiff & Hsort).
  destruct (comparePorts ps r) as [r' eq]. simpl in Hiff, Hsort. subst r'.
  apply wp_bind. unfold wp at 1. simpl.
  case_decide as Heq.
  - assert (reusable (lobj s) r ps) as Hre.
    { destruct Heq as [Heq1 Heq2]. split; [exact (proj1 Hiff Heq1)|exact Heq2]. }
    apply wp_ret. simpl. split; [done|]. split; [|by intros []].
    intros _. split_and!; done.
  - assert (¬ reusable (lobj s) r ps) as Hre.
    { intros [Hd Hname]. apply Heq. split; [exact (proj2 Hiff Hd)|exact Hname]. }
    apply wp_bind. eapply wp_mono; [by eapply (deleteLoadBalancerRule_spec _ (sort_rule r))|].
    simpl. rewrite Hobj. simpl. intros res s2 (Hret2 & Hobj2 & Hc2).
    assert (match getClient (cloud (lobj s)) with
      | inl e => res = Err e ∧ lb_logs reads_only s s2
      | inr c => ∃ l1 l2, elog (lenv s2) = elog (lenv s) ++ l1 ++ deletion (lobj s) c r :: l2 ∧
          Forall reads_only l1 ∧ Forall reads_only l2 end) as Hlog2.
    { destruct (getClient (cloud (lobj s))) as [e|c].
      - destruct Hc2 as [-> He]. split; [done|]. unfold lb_logs in *. by rewrite He.
      - destruct Hc2 as (l & Hl & HF), Hlog as (l1 & Hl1 & HF1). exists l1, l.
        split; [|done]. rewrite Hl, Hl1, <- app_assoc. done. }
    destruct res as [[]|e| |]; simpl; try done.
    + apply wp_ret. split; [done|]. split; [done|]. intros _. rewrite Hobj2. split; [done|].
      destruct (getClient (cloud (lobj s))); [by destruct Hlog2|done].
    + split; [done|]. split; [done|]. intros _. rewrite Hobj2. split; [done|].
      destruct (getClient (cloud (lobj s))); [|done]. destruct Hlog2 as [[= ->] ?]. done.
Qed.
End check_facts.

(** ** Creating a rule *)

(** The text of a parameter as it is sent and stored. *)
Definition param_text (p : params) (k : string) : string :=
  match p !! k with Some (PStr s) => s | Some (PInt i) => Itoa i | _ => "" end.

(** A rule as CloudStack lists it after creating it from the parameters [p]: it
    shows the name, the ports and the protocol it was created with, and the
    additional ports in an order of its own. *)
Definition created_from (p : params) (r : loadBalancerRule) : Prop :=
  lbr_Name r = param_text p "name" ∧ lbr_Protocol r = param_text p "protocol" ∧
  Privateport r = param_text p "privateport" ∧ Publicport r = param_text p "publicport" ∧
  AdditionalPortMap r ≡ₚ
    match p !! "additionalportmap" with
    | Some (PStr s) => Split s ","
    | _ => []
    end.

(** The service does not set this creation parameter by a label or an
    annotation of its own. *)
Definition not_overridden (svc : Service) (k : string) : Prop :=
  labels (svc_meta svc) !! (createLoadBalancerExtraParamPrefix +:+ k) = None ∧
  Annotations (svc_meta svc) !! (createLoadBalancerExtraParamPrefix +:+ k) = None.

Lemma create_params_own lb k (p : params) : not_overridden (service lb) k →
  setExtraParams (service lb) createLoadBalancerExtraParamPrefix p !! k = p !! k.
Proof. intros [Hl Ha]. by rewrite setExtraParams_entry, Hl, Ha. Qed.

(** The parameters that say where a new rule belongs and what it serves. *)
Lemma create_params_entries lb ps
    (Hover : Forall (not_overridden (service lb))
               ["name"; "protocol"; "privateport"; "publicport"; "additionalportmap"]) :
  let p := create_params lb ps in
  p !! "name" = Some (PStr (lb_name lb)) ∧ p !! "protocol" = Some (PStr (protocol ps)) ∧
  p !! "privateport" = Some (PInt (first_privatePort ps)) ∧
  p !! "publicport" = Some (PInt (first_publicPort ps)) ∧
  p !! "additionalportmap" =
    if decide (additionalPorts ps = []) then None else Some (PStr (Join (additionalPorts ps) ",")).
Proof.
  rewrite !Forall_cons in Hover. destruct Hover as (H1 & H2 & H3 & H4 & H5 & _).
  unfold create_params. cbv zeta.
  rewrite !create_params_own by done. clear H1 H2 H3 H4 H5.
  destruct (additionalPorts ps); simpl; by simplify_map_eq.
Qed.

Lemma create_params_ip lb ps : not_overridden (service lb) "publicipid" →
  create_params lb ps !! "publicipid" = Some (PStr (id (ip lb))).
Proof.
  intros H. unfold create_params. cbv zeta. rewrite create_params_own by done. clear H.
  case_decide; by simplify_map_eq.
Qed.

Lemma reusable_intro lb ps r :
  lbr_Name r = lb_name lb → lbr_Protocol r = protocol ps →
  Privateport r = Itoa (first_privatePort ps) → Publicport r = Itoa (first_publicPort ps) →
  AdditionalPortMap r ≡ₚ additionalPorts ps → reusable lb r ps.
Proof. intros ???? Hadd. rewrite additionalPorts_perm in Hadd. by repeat split. Qed.

(** (C19) A rule made from the parameters that createLoadBalancerRule sends is
    one that checkLoadBalancerRule keeps as long as the service's ports and name
    stay the same: creating and checking do not fight each other.  The service
    may still set every other parameter of the request. *)
Theorem created_rule_reusable (lb : loadBalancer) (ps : lbPorts) (r : loadBalancerRule)
    (Hover : Forall (not_overridden (service lb))
               ["name"; "protocol"; "privateport"; "publicport"; "additionalportmap"])
    (Hcreated : created_from (create_params lb ps) r) :
  reusable lb r ps.
Proof.
  destruct Hcreated as (Hname & Hproto & Hpriv & Hpub & Hadd).
  destruct (create_params_entries lb ps Hover) as (E1 & E2 & E3 & E4 & E5).
  unfold param_text in *. rewrite E1 in Hname. rewrite E2 in Hproto. rewrite E3 in Hpriv.
  rewrite E4 in Hpub. rewrite E5 in Hadd. apply reusable_intro; [done..|]. rewrite Hadd.
  case_decide as Hnil; [by rewrite Hnil|]. by rewrite additional_ports_roundtrip.
Qed.

(** ** Health checks *)

(** A request for the update of a pool carries a parameter. *)
Definition update_with (k : string) (v : pval) (e : event) : Prop :=
  match projT2 e with
  | CustomRequest _ _ p KUpdatePool _ => p !! k = Some v
  | _ => True
  end.

(** The request sets the check the service wants for a port on a pool of that
    port, for the rule [r]. *)
Definition wanted_update (r : loadBalancerRule) (ps : lbPorts) (svc : Service)
    (pools : list globoNetworkPool) (e : event) : Prop :=
  match projT2 e with
  | CustomRequest _ _ p KUpdatePool _ =>
      ∃ pi pool, pi ∈ ports ps ∧ pool ∈ pools ∧
        pool_of_port (publicPort pi) (privatePort pi) pool ∧
        let '(m, rsp, proto) := wanted_check ps pi svc in
        p !! "poolids" = Some (PInt (pool_Id pool)) ∧
        p !! "lbruleid" = Some (PStr (lbr_Id r)) ∧ p !! "zoneid" = Some (PStr (Zoneid r)) ∧
        p !! "healthcheck" = Some (PStr m) ∧ p !! "expectedhealthcheck" = Some (PStr rsp) ∧
        p !! "healthchecktype" = Some (PStr (ToUpper proto))
  | _ => changes_cloud e = false
  end.

Section pool_facts.
Context {W} `{!Cloud W}.

(** The pools of a list stand for the same ports and IDs as those of another. *)
Definition same_pools (pools pools' : list globoNetworkPool) : Prop :=
  ∀ p, p ∈ pools' → ∃ q, q ∈ pools ∧ pool_Id q = pool_Id p ∧ VipPort q = VipPort p ∧
    pool_Port q = pool_Port p.

Lemma generate_same ps pi svc pools :
  match generateGloboNetworkPool ps pi svc pools with
  | (None, pools') => pools' = pools
  | (Some p', pools') => same_pools pools pools' ∧
      ∃ p, p ∈ pools ∧ pool_of_port (publicPort pi) (privatePort pi) p ∧
        p' = set_check (wanted_check ps pi svc).1.1 (wanted_check ps pi svc).1.2
               (wanted_check ps pi svc).2 p
  end.
Proof.
  unfold generateGloboNetworkPool. case_decide; [done|]. unfold wanted_check. simpl.
  match goal with |- context [update_first_pool ?a ?b ?c ?d ?e ?f] =>
    pose proof (update_first_pool_spec a b c d e f) as Hu;
    destruct (update_first_pool a b c d e f) as [[p'|] l'] end; [|by destruct Hu].
  destruct Hu as (pre & p & post & -> & -> & -> & Hport & _). split; [|exists p; set_solver].
  intros q. rewrite elem_of_app, elem_of_cons. intros [?|[->|?]]; [exists q; set_solver|exists p|exists q; set_solver].
  simpl. set_solver.
Qed.

Lemma pool_params_lookup r pool p :
  let q := pool_params r pool p in
  q !! "poolids" = Some (PInt (pool_Id pool)) ∧ q !! "lbruleid" = Some (PStr (lbr_Id r)) ∧
  q !! "zoneid" = Some (PStr (Zoneid r)) ∧ q !! "healthcheck" = Some (PStr (HealthCheck pool)) ∧
  q !! "expectedhealthcheck" = Some (PStr (HealthCheckExpected pool)) ∧
  q !! "healthchecktype" = Some (PStr (ToUpper (HealthCheckType pool))).
Proof. unfold pool_params. case_decide; by simplify_map_eq. Qed.

Lemma update_pools_wanted c lb r ps infos pools pools0 p rsp :
  infos ⊆ ports ps → same_pools pools0 pools →
  preserves (logs (W:=W) (wanted_update r ps (service lb) pools0))
    (update_pools c lb r ps infos pools p rsp).
Proof.
  revert pools p rsp. induction infos as [|pi infos IH]; intros pools p rsp Hin Hsame;
    cbn [update_pools]; [by eauto with ccm typeclass_instances|].
  assert (infos ⊆ ports ps) as Hin' by set_solver.
  pose proof (generate_same ps pi (service lb) pools) as Hgen.
  destruct (generateGloboNetworkPool ps pi (service lb) pools) as [[p'|] pools'].
  - destruct Hgen as (Hsame' & q & Hq & Hport & ->).
    assert (same_pools pools0 pools') as Hsame0.
    { intros x (y & Hy & Hid & Hv & Hp)%Hsame'. destruct (Hsame y Hy) as (z & Hz & ?&?&?).
      exists z. split_and!; [done|congruence..]. }
    destruct (Hsame q Hq) as (z & Hz & Hzi & Hzv & Hzp).
    set (pool := set_check _ _ _ q). destruct (pool_params_lookup r pool p) as (?&?&?&?&?&?).
    apply preserves_bind; [apply _| |].
    + apply preserves_wrap, preserves_call_err. exists pi, z.
      split_and!; [set_solver|done| |by rewrite Hzi|done..].
      unfold pool_of_port in *. by rewrite Hzv, Hzp.
    + intros rsp1. apply preserves_bind; [apply _| |by intros; apply IH].
      case_decide; [|by eauto with ccm typeclass_instances].
      by apply preserves_wrap, waitJob_logs.
  - subst. by apply IH.
Qed.

Lemma reads_wanted r ps svc pools e : reads_only e → wanted_update r ps svc pools e.
Proof.
  destruct e as [A []]; unfold reads_only, wanted_update; simpl; try tauto.
  destruct k; tauto.
Qed.

(** (C33) The health checks of a balancer are touched only for a service that
    asks for it by the label or annotation, or for a UDP rule: otherwise there
    is not a single call.  Every update that is sent, in any run, is for a pool
    that CloudStack listed for a port of the service, and sets the health check
    that the service wants for that very port, on this rule; no listed pools is
    an error. *)
Theorem updateLoadBalancerPool_requests (s : lbst W) c r
    (Hc : getClient (cloud (lobj s)) = inr c) (Hr : rule (lobj s) = Some r) :
  let svc := service (lobj s) in
  let listing := CustomRequest c "listGloboNetworkPools"
    {[ "lbruleid" := PStr (lbr_Id r); "zoneid" := PStr (Zoneid r) ]}
    KListPools (rzero KListPools) in
  wp updateLoadBalancerPool (λ res s',
    if decide (has_label (svc_meta svc) lbCustomHealthCheck = false ∧ lbr_Protocol r ≠ ProtocolUDP)
    then res = Ok tt ∧ s' = s
    else
      let '(w, answer) := exec listing (ew (lenv s)) in
      let s1 := LB (Env w (elog (lenv s) ++ [Ev listing])) (lobj s) in
      match answer, (serviceToLBPorts s1).2 with
      | inr (count, pools), Ok ps =>
          (count = 0%Z → res ≠ Ok tt ∧ s' = s1) ∧
          lb_logs (wanted_update r ps svc pools) s1 s'
      | _, _ => res ≠ Ok tt ∧ lb_logs reads_only s1 s'
      end) s.
Proof.
  intros svc listing. unfold updateLoadBalancerPool. apply wp_bind, wp_lb_client. rewrite Hc.
  apply wp_bind. unfold wp at 1. cbn [fst snd the_lb gets on_ok]. rewrite Hr.
  apply wp_bind, wp_ret. cbn [on_ok].
  fold svc. case_decide; [done|]. fold listing.
  apply wp_bind, wp_wrap, wp_on_env, wp_call_err; intros w x Hw;
    cbn [rtype on_ok lenv lobj]; rewrite Hw.
  { split; [done|]. unfold lb_logs. simpl. apply logs_refl. }
  set (s1 := LB _ _). destruct x as [count pools].
  pose proof (serviceToLBPorts_frame s1) as Hf. unfold wp in Hf.
  case_decide as Hcount.
  { apply wp_throw. destruct (serviceToLBPorts s1).2; (split; [done || by intros _|]);
      apply lb_logs_preorder. }
  apply wp_bind. unfold wp at 1.
  destruct (serviceToLBPorts s1) as [s2 [ps|e| |]]; cbn [fst snd on_ok] in *;
    destruct Hf as (_ & Hlog & Hobj & Hports); try done.
  apply wp_bind. unfold wp at 1. cbn [fst snd the_lb gets on_ok].
  split; [done|]. etrans; [eapply logs_mono; [apply reads_wanted|exact Hlog]|].
  assert (∀ e, wanted_update r ps (service (lobj s2)) pools e → wanted_update r ps svc pools e) as Hsvc.
  { intros e. unfold wanted_update. by rewrite Hobj. }
  eapply logs_mono; [exact Hsvc|].
  eapply (preserves_on_env _ _ (update_pools_wanted c (lobj s2) r ps (ports ps) pools pools _ _ _ _)).
  Unshelve. all: done || intros p Hp; by exists p.
Qed.

(** The parameters of an update are not cleared between the ports: once a
    UDP pool was updated, every later update of the same run is sent with the
    layer-4 protocol UDP, the layer-7 protocol "Outros" and the redeploy flag,
    whatever the health check of its own pool is. *)
Theorem update_pools_keeps_udp c lb r ps infos pools p rsp pool
    (Hudp : HealthCheckType pool = ProtocolUDP) :
  preserves (logs (W:=W) (λ e, update_with "l4protocol" (PStr "UDP") e ∧
                               update_with "l7protocol" (PStr "Outros") e ∧
                               update_with "redeploy" (PBool true) e))
    (update_pools c lb r ps infos pools (pool_params r pool p) rsp).
Proof.
  set (stale (p : params) := p !! "l4protocol" = Some (PStr "UDP") ∧
    p !! "l7protocol" = Some (PStr "Outros") ∧ p !! "redeploy" = Some (PBool true)).
  assert (stale (pool_params r pool p)) as Hp.
  { unfold stale, pool_params. rewrite decide_True by done. rewrite Hudp. by simplify_map_eq. }
  revert Hp. generalize (pool_params r pool p). clear p pool Hudp.
  revert pools rsp. induction infos as [|pi infos IH]; intros pools rsp p Hp;
    cbn [update_pools]; [by eauto with ccm typeclass_instances|].
  destruct (generateGloboNetworkPool ps pi (service lb) pools) as [[pool|] pools'];
    [|by apply IH].
  assert (stale (pool_params r pool p)) as Hp'.
  { unfold stale, pool_params in *. destruct Hp as (?&?&?).
    case_decide as Hu; [rewrite Hu|]; by simplify_map_eq. }
  apply preserves_bind; [apply _| |].
  - by apply preserves_wrap, preserves_call_err.
  - intros rsp1. apply preserves_bind; [apply _| |by intros; apply IH].
    case_decide; [|by eauto with ccm typeclass_instances].
    by apply preserves_wrap, waitJob_logs.
Qed.
End pool_facts.

(** ** What is done to a rule once it exists *)

(** The call reads, or changes the machines, the networks or the pools of the
    rule [rid]. *)
Definition touches (rid : string) (e : event) : Prop :=
  reads_only e ∨
  match projT2 e with
  | AssignToLoadBalancerRule _ i _ | RemoveFromLoadBalancerRule _ i _ => i = rid
  | CustomRequest _ _ p KJob _ => p !! "id" = Some (PStr rid)
  | CustomRequest _ _ p KUpdatePool _ => p !! "lbruleid" = Some (PStr rid)
  | _ => False
  end.

Section touch_facts.
Context {W} `{!Cloud W}.
Context (rid : string).

Definition has_rule (lb : loadBalancer) : Prop := lbr_Id <$> rule lb = Some rid.

Lemma touches_reads e : reads_only e → touches rid e.
Proof. by left. Qed.

Lemma has_rule_id lb r : rule lb = Some r → has_rule lb → lbr_Id r = rid.
Proof. unfold has_rule. intros Hr Hl. rewrite Hr in Hl. by simplify_eq/=. Qed.

Lemma on_rule_reads {A} (m : M (env W) A) : preserves (logs reads_only) m → guarded has_rule (touches rid) (on_env m).
Proof. intros Hm. apply (guarded_mono _ reads_only); [apply touches_reads|by apply guarded_env]. Qed.

Lemma assignNetworksToRule_on_rule nets :
  guarded (W:=W) has_rule (touches rid) (assignNetworksToRule nets).
Proof.
  unfold assignNetworksToRule, assignNetworkToRule. guarding.
  - apply guarded_call. right. simpl. erewrite has_rule_id by done. by simplify_map_eq.
  - apply on_rule_reads. preserve.
Qed.

#[local] Hint Resolve assignNetworksToRule_on_rule : ccm.

Lemma syncNodes_on_rule fuel hostIDs nets :
  guarded (W:=W) has_rule (touches rid) (syncNodes fuel hostIDs nets).
Proof.
  unfold syncNodes. guarding.
  - apply on_rule_reads, listAllLBInstancesPages_reads.
  - apply on_rule_reads. unfold symmetricDifference. preserve.
  - unfold assignHostsToRule. guarding. apply guarded_call. right. by eapply has_rule_id.
  - unfold removeHostsFromRule. guarding. apply guarded_call. right. by eapply has_rule_id.
Qed.

Lemma update_pools_on_rule c lb r ps infos pools p rsp :
  lbr_Id r = rid → preserves (logs (W:=W) (touches rid)) (update_pools c lb r ps infos pools p rsp).
Proof.
  intros Hid. revert pools p rsp. induction infos as [|pi infos IH]; intros pools p rsp;
    cbn [update_pools]; [by eauto with ccm typeclass_instances|].
  destruct (generateGloboNetworkPool ps pi (service lb) pools) as [[pool|] pools']; [|by apply IH].
  destruct (pool_params_lookup r pool p) as (_ & Hp & _).
  apply preserves_bind; [apply _| |].
  - apply preserves_wrap, preserves_call_err. right. simpl. by rewrite <- Hid.
  - intros rsp1. apply preserves_bind; [apply _| |by intros; apply IH].
    case_decide; [|by eauto with ccm typeclass_instances].
    apply preserves_wrap, waitJob_logs. by left.
Qed.

Lemma serviceToLBPorts_guarded (I : loadBalancer → Prop) (P : event → Prop) :
  (∀ lb ps, I lb → I (set_service (set_Ports ps (service lb)) lb)) →
  (∀ e, reads_only e → P e) → guarded (W:=W) I P serviceToLBPorts.
Proof.
  intros HI HP s Hs. destruct (serviceToLBPorts_frame s) as (_ & Hlog & Hobj & _).
  split; [by rewrite Hobj; apply HI|]. by eapply logs_mono.
Qed.

Lemma serviceToLBPorts_touches : guarded (W:=W) has_rule (touches rid) serviceToLBPorts.
Proof. by apply serviceToLBPorts_guarded; [|apply touches_reads]. Qed.

#[local] Hint Resolve serviceToLBPorts_touches : ccm.

Lemma updateLoadBalancerPool_on_rule :
  guarded (W:=W) has_rule (touches rid) updateLoadBalancerPool.
Proof.
  unfold updateLoadBalancerPool. guarding.
  - apply guarded_call. by left.
  - apply guarded_env, update_pools_on_rule. by eapply has_rule_id.
Qed.
End touch_facts.
