(* ===== verification/Nodes.v ===== *)
(** * The node registry (nodes.go)

    The nodes of the cluster with the CloudStack machines they run on, the
    nodes that serve each service, and the choice of machines and networks for
    the load balancer of a service. *)
From stdpp Require Import base list strings gmap sets sorting.
From S2P Require Import Prelude GoStd Kube Cloud Config Meta Pages.

(** ** Data *)

Record nodeInfo := {
  ni_name : string; vmID : string; networkID : string; hostName : string;
  ni_projectID : string; environmentID : string; filterValue : string;
  ni_revision : Z;       (* uint64 *)
}.

#[export] Instance nodeInfo_eq_dec : EqDecision nodeInfo. Proof. solve_decision. Defined.

Record nodeRegistry := {
  nodes : gmap string nodeInfo;
  svcNodes : gmap serviceKey (gset string);
  revision : Z;          (* uint64 *)
}.

Definition newNodeRegistry : nodeRegistry := {| nodes := ∅; svcNodes := ∅; revision := 0 |}.

Definition uint64 (z : Z) : Z := z mod 2 ^ 64.

Definition nodeInfoNames (l : list nodeInfo) : string := Join (ni_name <$> l) ",".
Definition nodeNames (l : list Node) : string := Join ((λ n, Name (node_meta n)) <$> l) ",".

Definition set_nodes (ns : gmap string nodeInfo) (r : nodeRegistry) : nodeRegistry :=
  {| nodes := ns; svcNodes := svcNodes r; revision := revision r |}.
Definition set_svcNodes (sn : gmap serviceKey (gset string)) (r : nodeRegistry) : nodeRegistry :=
  {| nodes := nodes r; svcNodes := sn; revision := revision r |}.
Definition set_revision (n : Z) (r : nodeRegistry) : nodeRegistry :=
  {| nodes := nodes r; svcNodes := svcNodes r; revision := n |}.

(** The world with its log, and the registry. *)
Record regst (W : Type) := Reg { renv : env W; reg : nodeRegistry }.
Arguments Reg {W} _ _.
Arguments renv {W} _.
Arguments reg {W} _.

(** ** Endpoints *)

(** The names of the nodes that the addresses of an endpoints object are on. *)
Definition endpoints_nodes (e : Endpoints) : gset string :=
  list_to_set (omap NodeName (Subsets e ≫= Addresses)).

Definition endpoints_key (e : Endpoints) : serviceKey :=
  {| namespace := Namespace (ep_meta e); name := Name (ep_meta e) |}.

Definition updateEndpointsNodes (e : Endpoints) (r : nodeRegistry) : nodeRegistry :=
  set_svcNodes (<[endpoints_key e := endpoints_nodes e]> (svcNodes r)) r.

Definition deleteEndpointsNodes (e : Endpoints) (r : nodeRegistry) : nodeRegistry :=
  set_svcNodes (delete (endpoints_key e) (svcNodes r)) r.

(** What an informer hands to its handlers: an endpoints object, the tombstone
    of an object (cache.DeletedFinalStateUnknown), or something else. *)
Inductive informer_obj :=
  | ObjEndpoints (e : Endpoints)
  | ObjTombstone (o : informer_obj)
  | ObjOther.

Inductive informer_event :=
  | AddFunc (obj : informer_obj)
  | UpdateFunc (old obj : informer_obj)
  | DeleteFunc (obj : informer_obj).

Definition handleEndpoints (ev : informer_event) (r : nodeRegistry) : nodeRegistry :=
  match ev with
  | AddFunc (ObjEndpoints e) | UpdateFunc _ (ObjEndpoints e) => updateEndpointsNodes e r
  | DeleteFunc (ObjEndpoints e) | DeleteFunc (ObjTombstone (ObjEndpoints e)) => deleteEndpointsNodes e r
  | _ => r
  end.

(** ** Nodes *)

(** externalNIC (loadbalancer.go). *)
Definition externalNIC (cs : CSCloud) (instance : VirtualMachine) : error + Nic :=
  match vm_Nic instance with
  | [] => inl (Errorf "instance does not have any nics" [])
  | nic0 :: _ =>
      let i := ExternalIPIndex (Global (config cs)) in
      if decide (0 ≤ i < Z.of_nat (length (vm_Nic instance)))%Z
      then inr (default nic0 (vm_Nic instance !! Z.to_nat i)) else inr nic0
  end.

(** updateLabels: the fields of [n] set so far, and the error if there is one. *)
Definition updateLabels (cs : CSCloud) (n : nodeInfo) (node : Node) : nodeInfo * option error :=
  let g := Global (config cs) in
  let meta := node_meta node in
  let env := environmentForMeta cs meta in
  let filter := if decide (NodeFilterLabel g ≠ "") then label_value meta (NodeFilterLabel g)
                else filterValue n in
  let set host project :=
    {| ni_name := ni_name n; vmID := vmID n; networkID := networkID n; hostName := host;
       ni_projectID := project; environmentID := env; filterValue := filter;
       ni_revision := ni_revision n |} in
  match projectForMeta cs meta env with
  | inl err =>
      (set (hostName n) "",
       Some (Errorf "unable to retrieve projectID for node %q in environment %q: %v"
               [Name meta; env; Error err]))
  | inr project =>
      (set (default (Name meta) (getLabelOrAnnotation meta (NodeNameLabel g))) project, None)
  end.

Definition zero_node (name : string) : nodeInfo :=
  {| ni_name := name; vmID := ""; networkID := ""; hostName := ""; ni_projectID := "";
     environmentID := ""; filterValue := ""; ni_revision := 0 |}.

Section nodes.
Context {W} `{!Cloud W}.

(** A node whose machine CloudStack does not know is [None]. *)
Definition newNodeInfo (cs : CSCloud) (node : Node) : M (env W) (option nodeInfo) :=
  let '(n, err) := updateLabels cs (zero_node (Name (node_meta node))) node in
  match err with
  | Some err => throw err
  | None =>
      match environments cs !! environmentID n ≫= env_manager with
      | None => throw (Errorf "unable to retrieve cloudstack manager for environment %q"
                         [environmentID n])
      | Some manager =>
          r ← try (virtualMachineByName manager (hostName n) (ni_projectID n));
          match r with
          | inl ErrVMNotFound => mret None
          | inl err => throw err
          | inr vm =>
              nic ← of_sum (externalNIC cs vm);
              mret (Some {| ni_name := ni_name n; vmID := vm_Id vm; networkID := nic_Networkid nic;
                            hostName := hostName n; ni_projectID := ni_projectID n;
                            environmentID := environmentID n; filterValue := filterValue n;
                            ni_revision := ni_revision n |})
          end
      end
  end.

Definition on_renv {A} (m : M (env W) A) : M (regst W) A :=
  zoom renv (λ e s, Reg e (reg s)) m.
Definition modify_reg (f : nodeRegistry → nodeRegistry) : M (regst W) unit :=
  modify (λ s, Reg (renv s) (f (reg s))).
Definition put_node (k : string) (n : nodeInfo) : M (regst W) unit :=
  modify_reg (λ r, set_nodes (<[k := n]> (nodes r)) r).

Definition with_revision (n : nodeInfo) (rev : Z) : nodeInfo :=
  {| ni_name := ni_name n; vmID := vmID n; networkID := networkID n; hostName := hostName n;
     ni_projectID := ni_projectID n; environmentID := environmentID n;
     filterValue := filterValue n; ni_revision := rev |}.

(** One round of the loop of updateNodes. *)
Definition updateNode (cs : CSCloud) (n : Node) : M (regst W) unit :=
  let k := Name (node_meta n) in
  r ← gets reg;
  match nodes r !! k with
  | Some info =>
      let '(info, err) := updateLabels cs info n in
      put_node k info ;;
      match err with Some err => throw err | None => mret tt end
  | None =>
      nInfo ← on_renv (newNodeInfo cs n);
      match nInfo with
      | None => mret tt
      | Some nInfo => r ← gets reg; put_node k (with_revision nInfo (revision r))
      end
  end.

Definition updateNodes (cs : CSCloud) (ns : list Node) : M (regst W) unit :=
  match ns with
  | [] => throw (Errorf "no nodes available to add to load balancer" [])
  | _ =>
      modify_reg (λ r, set_revision (uint64 (revision r + 1)) r) ;;
      for_each ns (updateNode cs) ;;
      let visitedNodes := list_to_set ((λ n, Name (node_meta n)) <$> ns) : gset string in
      modify_reg (λ r, set_nodes (filter (λ kn, kn.1 ∈ visitedNodes) (nodes r)) r) ;;
      r ← gets reg;
      if decide (size (nodes r) = 0) then
        throw (Errorf "unable to map kubernetes nodes to cloudstack instances for nodes: %v" [nodeNames ns])
      else mret tt
  end.

(** *** Choosing nodes *)

(** The nodes that run an endpoint of the service. *)
Definition nodesContainingService (key : serviceKey) : M (regst W) (list nodeInfo) :=
  r ← gets reg;
  names ← on_renv (range (elements (default ∅ (svcNodes r !! key))));
  mret (omap (λ n, nodes r !! n) names).

Definition service_filter (cs : CSCloud) (svc : Service) : string :=
  let l := ServiceFilterLabel (Global (config cs)) in
  if decide (l ≠ "") then label_value (svc_meta svc) l else "".

(** The node is not skipped by any [continue]. *)
Definition serves (cs : CSCloud) (svc : Service) (n : nodeInfo) : Prop :=
  let environment := environmentForMeta cs (svc_meta svc) in
  let project := project_value cs (svc_meta svc) environment in
  environmentID n = environment ∧
  (service_filter cs svc = "" ∨ filterValue n = service_filter cs svc) ∧
  (project = "" ∨ ni_projectID n = project).
#[export] Instance serves_dec cs svc n : Decision (serves cs svc n).
Proof. unfold serves. apply _. Defined.

Definition nodesForService (cs : CSCloud) (svc : Service) : M (regst W) (list nodeInfo) :=
  r ← gets reg;
  infos ← on_renv (range (map_to_list (nodes r)).*2);
  match filter (serves cs svc) infos with
  | [] => throw (Errorf "no nodes available to add to service %s/%s" [svc_Namespace svc; svc_Name svc])
  | l => mret l
  end.

(** Host IDs, network IDs and the project of the last node. *)
Definition idsForNodes (l : list nodeInfo) : list string * list string * string :=
  (vmID <$> l,
   sort_Strings (elements (list_to_set (networkID <$> l) : gset string)),
   default "" (ni_projectID <$> last l)).

Definition idsForService (cs : CSCloud) (svc : Service) :
    M (regst W) (list string * list string * string) :=
  l ← nodesForService cs svc; mret (idsForNodes l).
End nodes.

(** ** Endpoints *)

(** The service an event is about, and the nodes it says run the service. *)
Definition reported (ev : informer_event) : option (serviceKey * option (gset string)) :=
  match ev with
  | AddFunc (ObjEndpoints e) | UpdateFunc _ (ObjEndpoints e) =>
      Some (endpoints_key e, Some (endpoints_nodes e))
  | DeleteFunc (ObjEndpoints e) | DeleteFunc (ObjTombstone (ObjEndpoints e)) =>
      Some (endpoints_key e, None)
  | _ => None
  end.

(** What the last event about a service said; [before] when there was none. *)
Definition last_report (key : serviceKey) (before : option (gset string)) (evs : list informer_event) :
    option (gset string) :=
  match last (filter (λ kn, kn.1 = key) (omap reported evs)) with
  | Some (_, report) => report
  | None => before
  end.

Definition after_events (evs : list informer_event) (r : nodeRegistry) : nodeRegistry :=
  foldl (λ r ev, handleEndpoints ev r) r evs.

Lemma handleEndpoints_lookup ev r key :
  svcNodes (handleEndpoints ev r) !! key =
    match reported ev with
    | Some (k, report) => if decide (k = key) then report else svcNodes r !! key
    | None => svcNodes r !! key
    end.
Proof.
  destruct ev as [[e|[]|]|old [e|[]|]|[e|[]|]]; simpl; try done; case_decide; subst;
    by rewrite ?lookup_insert_eq, ?lookup_insert_ne, ?lookup_delete_eq, ?lookup_delete_ne by done.
Qed.

Lemma after_events_lookup evs r key :
  svcNodes (after_events evs r) !! key = last_report key (svcNodes r !! key) evs.
Proof.
  unfold after_events. induction evs as [|ev evs IH] using rev_ind; [done|].
  rewrite foldl_app. simpl. rewrite handleEndpoints_lookup, IH. unfold last_report.
  rewrite omap_app, filter_app, last_app. simpl.
  destruct (reported ev) as [[k report]|]; simpl; [|done].
  rewrite filter_cons. simpl. by case_decide.
Qed.

Lemma after_events_nodes evs r :
  nodes (after_events evs r) = nodes r ∧ revision (after_events evs r) = revision r.
Proof.
  unfold after_events. induction evs as [|ev evs IH] using rev_ind; [done|].
  rewrite foldl_app. simpl. rewrite <- (proj1 IH), <- (proj2 IH).
  by destruct ev as [[e|[]|]|old [e|[]|]|[e|[]|]].
Qed.

Section node_facts.
Context {W} `{!Cloud W}.
Implicit Types (cs : CSCloud) (s : regst W).

Lemma wp_on_renv {A} (m : M (env W) A) (Q : res A → regst W → Prop) s :
  wp m (λ r e, Q r (Reg e (reg s))) (renv s) → wp (on_renv m) Q s.
Proof. intros H. unfold on_renv. by apply wp_zoom. Qed.

(** (C30) After any sequence of informer events, the nodes of a service are the
    registered nodes that the last event about its endpoints named: none after
    a deletion (tombstones included), the same as before when there was no
    event, and events about other services or other kinds of objects do not
    matter.  Finding them makes no call. *)
Theorem nodesContainingService_after_events evs (r : nodeRegistry) key (e : env W) :
  wp (nodesContainingService key) (λ res s', elog (renv s') = elog e ∧
    reg s' = after_events evs r ∧ ∃ l, res = Ok l ∧
    ∀ n, n ∈ l ↔ ∃ k, nodes r !! k = Some n ∧
                      k ∈ default ∅ (last_report key (svcNodes r !! key) evs))
    (Reg e (after_events evs r)).
Proof.
  unfold nodesContainingService. apply wp_bind. unfold wp at 1. simpl.
  apply wp_bind, wp_on_renv, wp_range. intros w names Hnames. simpl. apply wp_ret.
  split_and!; [done..|]. eexists. split; [done|]. intros n.
  rewrite list_elem_of_omap, (proj1 (after_events_nodes evs r)), <- after_events_lookup.
  setoid_rewrite Hnames. setoid_rewrite elem_of_elements. naive_solver.
Qed.

(** *** Choosing nodes *)

Definition nodesForService_post cs svc (r : nodeRegistry) (res : res (list nodeInfo)) : Prop :=
  match res with
  | Ok l => l ≠ [] ∧ l ≡ₚ filter (serves cs svc) (map_to_list (nodes r)).*2
  | Err _ => ∀ k n, nodes r !! k = Some n → ¬ serves cs svc n
  | _ => False
  end.

Lemma nodesForService_spec cs svc s :
  wp (nodesForService cs svc) (λ res s', reg s' = reg s ∧ elog (renv s') = elog (renv s) ∧
    nodesForService_post cs svc (reg s) res) s.
Proof.
  unfold nodesForService. apply wp_bind. unfold wp at 1. simpl.
  apply wp_bind, wp_on_renv, wp_range. intros w infos Hinfos. simpl.
  pose proof (filter_Permutation (serves cs svc) _ _ Hinfos) as Hf.
  destruct (filter (serves cs svc) infos) as [|n l] eqn:Hl.
  - apply wp_throw. split_and!; [done..|]. intros k n Hn Hs.
    assert (n ∈ filter (serves cs svc) infos) as Hin; [|rewrite Hl in Hin; set_solver].
    apply list_elem_of_filter. split; [done|]. rewrite Hinfos.
    apply list_elem_of_fmap. exists (k, n). split; [done|]. by apply elem_of_map_to_list.
  - apply wp_ret. by split_and!.
Qed.

Lemma idsForService_wp cs svc s :
  wp (idsForService cs svc) (λ _ s', elog (renv s') = elog (renv s)) s.
Proof.
  unfold idsForService. apply wp_bind. eapply wp_mono; [apply nodesForService_spec|].
  intros r s1 (_ & Hlog & _). by destruct r; cbn [on_ok].
Qed.

(** The machines, networks and project of a service's load balancer: it
    is an error exactly when no registered node serves the service; otherwise
    the host IDs are those of all nodes that serve it and of no others, the
    network IDs are theirs, sorted and without repetition, whatever the order in
    which the registry is visited, and the project is that of one of them, the
    service's own project when it has one. *)
Theorem idsForService_spec cs svc s :
  wp (idsForService cs svc) (λ res s', reg s' = reg s ∧ elog (renv s') = elog (renv s) ∧
    let chosen := filter (serves cs svc) (map_to_list (nodes (reg s))).*2 in
    match res with
    | Ok (hostIDs, networkIDs, project) =>
        chosen ≠ [] ∧ hostIDs ≡ₚ vmID <$> chosen ∧
        networkIDs = sort_Strings (remove_dups (networkID <$> chosen)) ∧
        NoDup networkIDs ∧ networkIDs ≠ [] ∧
        project ∈ ni_projectID <$> chosen ∧
        let own := project_value cs (svc_meta svc) (environmentForMeta cs (svc_meta svc)) in
        (own ≠ "" → project = own)
    | Err _ => chosen = []
    | _ => False
    end) s.
Proof.
  unfold idsForService. apply wp_bind. eapply wp_mono; [apply nodesForService_spec|].
  intros res s1 (Hreg & Hlog & Hpost). destruct res as [l|e| |]; simpl in *; try done.
  - destruct Hpost as [Hne Hl]. apply wp_ret. split_and!; [done|done|].
    set (chosen := filter _ _) in *. simpl. split_and!.
    + intros Hc. apply Hne. apply Permutation_nil_r. by rewrite <- Hc.
    + by rewrite Hl.
    + apply sort_Strings_unique. apply NoDup_Permutation; [apply NoDup_elements|apply NoDup_remove_dups|].
      intros x. rewrite elem_of_elements, elem_of_list_to_set, elem_of_remove_dups. by rewrite Hl.
    + rewrite sort_Strings_perm. apply NoDup_elements.
    + rewrite sort_Strings_nil_iff. destruct l as [|n l]; [done|].
      intros He. apply elements_empty_inv in He. set_solver.
    + destruct (last l) as [n|] eqn:Hlast; [|by apply last_None in Hlast].
      simpl. apply (list_elem_of_fmap_2 ni_projectID). rewrite <- Hl. by apply list_last_In.
    + intros Hown. destruct (last l) as [n|] eqn:Hlast; [|by apply last_None in Hlast].
      apply list_last_In in Hlast. rewrite Hl in Hlast.
      apply list_elem_of_filter in Hlast as [(_ & _ & [?|?]) _]; done.
  - split_and!; [done..|]. apply list_filter_nil_iff, Forall_forall.
    intros n Hn Hs. apply list_elem_of_fmap in Hn as ([k n'] & -> & Hin).
    apply elem_of_map_to_list in Hin. by eapply Hpost.
Qed.
End node_facts.

(** ** Updating the nodes *)

(** The entry says of the node what the node's labels say. *)
Definition labelled (cs : CSCloud) (n : nodeInfo) (node : Node) : Prop :=
  let g := Global (config cs) in
  let meta := node_meta node in
  environmentID n = environmentForMeta cs meta ∧
  projectForMeta cs meta (environmentID n) = inr (ni_projectID n) ∧
  hostName n = default (Name meta) (getLabelOrAnnotation meta (NodeNameLabel g)) ∧
  (NodeFilterLabel g ≠ "" → filterValue n = label_value meta (NodeFilterLabel g)).

(** What an entry keeps when its labels are brought up to date. *)
Definition machine_of (n : nodeInfo) : string * string * string * Z :=
  (ni_name n, vmID n, networkID n, ni_revision n).

Lemma updateLabels_spec cs n node :
  machine_of (updateLabels cs n node).1 = machine_of n ∧
  ((updateLabels cs n node).2 = None → labelled cs (updateLabels cs n node).1 node).
Proof.
  unfold updateLabels, labelled. destruct (projectForMeta _ _ _) eqn:Hp; simpl; [done|].
  split; [done|]. intros _. split_and!; [done..|]. intros Hf. by rewrite decide_True.
Qed.

Section update_facts.
Context {W} `{!Cloud W}.
Implicit Types (cs : CSCloud) (s : regst W).

Lemma virtualMachineByName_reads m n p :
  preserves (logs (W:=W) reads_only) (virtualMachineByName m n p).
Proof. unfold virtualMachineByName. preserve. Qed.

Lemma virtualMachineByName_returns m n p (e : env W) :
  wp (virtualMachineByName m n p) (λ r _, returns r) e.
Proof.
  unfold virtualMachineByName. apply wp_bind, wp_call. intros w [vm|] Hw; simpl; [done|].
  apply wp_bind, wp_call_err; intros w' x Hw'; simpl; [done|].
  destruct x as [|vm [|]]; [done| |done]. apply wp_bind, wp_call. by intros.
Qed.

(** The machines that CloudStack, or the cache in front of it, has in the world
    [w] for a host of a project.  The sentinel of the code, as an answer, counts
    as none. *)
Definition machines_for (m : cloudstackManager) (host project : string) (w : W) (vms : list VirtualMachine) : Prop :=
  let c := mgr_client m in
  let listing := ListVirtualMachines c host (if decide (project = "") then None else Some project) in
  let '(w1, hit) := exec (CacheGet c (vmCacheKey host project)) w in
  match hit with
  | Some vm => vms = [vm]
  | None => (exec listing w1).2 = inr vms ∨ vms = [] ∧ (exec listing w1).2 = inl ErrVMNotFound
  end.

(** They are those of a node, by its labels. *)
Definition machines_of cs (node : Node) (w : W) (vms : list VirtualMachine) : Prop :=
  ∃ n m, updateLabels cs (zero_node (Name (node_meta node))) node = (n, None) ∧
    environments cs !! environmentID n ≫= env_manager = Some m ∧
    machines_for m (hostName n) (ni_projectID n) w vms.

(** CloudStack does not know a machine for the node. *)
Definition unknown cs (node : Node) : Prop := ∃ w, machines_of cs node w [].

(** CloudStack knows exactly one machine for the node, and the entry has it with
    the network of its external interface. *)
Definition found_machine cs (node : Node) (n : nodeInfo) : Prop :=
  ∃ w vm nic, machines_of cs node w [vm] ∧ externalNIC cs vm = inr nic ∧
    vmID n = vm_Id vm ∧ networkID n = nic_Networkid nic.

Lemma virtualMachineByName_machines m host project (e : env W) :
  wp (virtualMachineByName m host project) (λ r _, match r with
    | Ok vm => machines_for m host project (ew e) [vm]
    | Err ErrVMNotFound => machines_for m host project (ew e) []
    | _ => True
    end) e.
Proof.
  eapply wp_mono; [apply (virtualMachineByName_spec m host project e)|]. intros r e' H. unfold machines_for.
  destruct (exec (CacheGet _ _) (ew e)) as [w hit]. destruct hit as [vm|]; [by destruct H as [-> _]|].
  destruct (exec (ListVirtualMachines _ _ _) w) as [w1 [err|[|vm [|vm2 vms]]]]; cbn [snd] in *.
  - destruct H as [-> _]. destruct err; auto.
  - destruct H as [-> _]. by left.
  - destruct H as [-> _]. by left.
  - by destruct H as [(f & args & ->) _].
Qed.

(** Why an update of the registry stops at a node: its labels cannot be read, or
    it is new and its machine cannot be found out. *)
Definition refused cs (node : Node) (err : error) : Prop :=
  (∃ info, (updateLabels cs info node).2 = Some err) ∨
  ∃ e : env W, (newNodeInfo cs node e).2 = Err err.

Lemma newNodeInfo_spec cs node (e : env W) :
  wp (newNodeInfo cs node) (λ r e', returns r ∧ logs reads_only e e' ∧
    match r with
    | Ok (Some n) => labelled cs n node ∧ ni_name n = Name (node_meta node) ∧ found_machine cs node n
    | Ok None => unknown cs node
    | Err err => refused cs node err
    | _ => True
    end) e.
Proof.
  assert (∀ err, (newNodeInfo cs node e).2 = Err err → refused cs node err) as Hrefused.
  { intros err Herr. right. by exists e. }
  apply (wp_run _ (λ r e', returns r ∧ logs reads_only e e' ∧
    match r with
    | Ok (Some n) => labelled cs n node ∧ ni_name n = Name (node_meta node) ∧ found_machine cs node n
    | Ok None => unknown cs node
    | _ => True
    end)).
  2: { intros r e' E (Hret & Hlog & Hr). split_and!; [done..|]. destruct r; try done.
       apply Hrefused. by rewrite E. }
  clear Hrefused. unfold newNodeInfo.
  pose proof (updateLabels_spec cs (zero_node (Name (node_meta node))) node) as [Hm Hl].
  destruct (updateLabels cs _ node) as [n [err|]] eqn:Hup; simpl in *; [by apply wp_throw|].
  destruct (environments cs !! environmentID n ≫= env_manager) as [m|] eqn:Hman; [|by apply wp_throw].
  assert (∀ w vms, machines_for m (hostName n) (ni_projectID n) w vms → machines_of cs node w vms) as Hof.
  { intros w vms Hvms. by exists n, m. }
  apply wp_bind, wp_try. eapply wp_mono.
  { apply wp_and; [apply (preserves_wp (logs reads_only)), virtualMachineByName_reads|].
    apply wp_and; [apply virtualMachineByName_returns|apply virtualMachineByName_machines]. }
  intros [vm|err| |] e1 (Hr & Ht & Hvm); cbn [on_ok]; try done.
  - apply wp_bind. destruct (externalNIC cs vm) as [err|nic] eqn:Hnic; [by apply wp_throw|].
    apply wp_ret. simpl. apply wp_ret. split_and!; [done|done|by apply Hl|by simplify_eq|].
    exists (ew e), vm, nic. split_and!; [by apply Hof|done..].
  - destruct err; try by apply wp_throw. apply wp_ret. split_and!; [done..|].
    exists (ew e). by apply Hof.
Qed.

(** The machine of an entry [n] under [k], when the entry was [old] before the
    nodes [visited] were visited in the revision [rev]: it is the old one, or the
    one that CloudStack has for a node that was visited. *)
Definition machine_after cs (rev : Z) (visited : list Node) (k : string)
    (old : option nodeInfo) (n : nodeInfo) : Prop :=
  match old with
  | Some o => machine_of n = machine_of o
  | None => ni_name n = k ∧ ni_revision n = rev ∧
      ∃ node, node ∈ visited ∧ Name (node_meta node) = k ∧ found_machine cs node n
  end.

Lemma machine_after_mono cs rev visited visited' k old n :
  visited ⊆ visited' → machine_after cs rev visited k old n → machine_after cs rev visited' k old n.
Proof.
  intros Hsub. destruct old; [done|]. intros (Hn & Hr & node & Hin & Hnode). split_and!; [done..|].
  exists node. split; [by apply Hsub|done].
Qed.

(** The machine of an entry is not in its labels. *)
Lemma machine_after_same cs rev visited k old n n' :
  machine_of n' = machine_of n → machine_after cs rev visited k old n → machine_after cs rev visited k old n'.
Proof.
  intros Hm. destruct old; cbn; [by rewrite Hm|]. unfold machine_of in Hm. injection Hm as H1 H2 H3 H4.
  unfold found_machine. by rewrite H1, H2, H3, H4.
Qed.

(** One entry of the registry after some nodes were visited in the revision
    [rev], when it was [old] before. *)
Definition entry_after cs (rev : Z) (visited : list Node) (k : string)
    (old new : option nodeInfo) : Prop :=
  match new with
  | None => old = None ∧ ∀ node, node ∈ visited → Name (node_meta node) = k → unknown cs node
  | Some n => machine_after cs rev visited k old n ∧
      ((old = Some n ∧ ∀ node, node ∈ visited → Name (node_meta node) ≠ k) ∨
       ∃ node, node ∈ visited ∧ Name (node_meta node) = k ∧ labelled cs n node)
  end.

Definition visited_inv cs (r0 : nodeRegistry) (e0 : env W) (visited : list Node) s : Prop :=
  logs reads_only e0 (renv s) ∧ svcNodes (reg s) = svcNodes r0 ∧
  revision (reg s) = revision r0 ∧
  ∀ k, entry_after cs (revision r0) visited k (nodes r0 !! k) (nodes (reg s) !! k).

(** No entry was dropped, and each has the machine it had or that of a node that
    was visited. *)
Definition grown cs (rev : Z) (visited : list Node) (r0 r : nodeRegistry) : Prop :=
  dom (nodes r0) ⊆ dom (nodes r) ∧
  ∀ k n, nodes r !! k = Some n → machine_after cs rev visited k (nodes r0 !! k) n.

Lemma visited_inv_grown cs r0 e0 visited s :
  visited_inv cs r0 e0 visited s → grown cs (revision r0) visited r0 (reg s).
Proof.
  intros (_ & _ & _ & He). split.
  - intros k [o Ho]%elem_of_dom. specialize (He k). rewrite Ho in He.
    apply elem_of_dom. destruct (nodes (reg s) !! k); [eauto|by destruct He].
  - intros k n Hn. specialize (He k). rewrite Hn in He. apply He.
Qed.

Lemma grown_mono cs rev visited visited' r0 r :
  visited ⊆ visited' → grown cs rev visited r0 r → grown cs rev visited' r0 r.
Proof. intros Hsub [Hd Hm]. split; [done|]. intros k n Hn. eapply machine_after_mono; eauto. Qed.

Lemma grown_insert cs rev visited r0 r k n :
  grown cs rev visited r0 r → machine_after cs rev visited k (nodes r0 !! k) n →
  grown cs rev visited r0 (set_nodes (<[k := n]> (nodes r)) r).
Proof.
  intros [Hd Hm] Hn. split; [simpl; rewrite dom_insert_L; set_solver|].
  intros k' n' Hk'. cbn [set_nodes nodes] in Hk'.
  apply lookup_insert_Some in Hk' as [[<- <-]|[_ Hk']]; [done|by apply Hm].
Qed.

Definition node_post cs r0 e0 visited (stops : error → Prop) (res : res unit) s' : Prop :=
  returns res ∧ grown cs (revision r0) visited r0 (reg s') ∧
  logs reads_only e0 (renv s') ∧ svcNodes (reg s') = svcNodes r0 ∧
  revision (reg s') = revision r0 ∧
  (res = Ok tt → visited_inv cs r0 e0 visited s') ∧ ∀ err, res = Err err → stops err.

Lemma visited_other cs rev visited node k old new :
  k ≠ Name (node_meta node) → entry_after cs rev visited k old new →
  entry_after cs rev (visited ++ [node]) k old new.
Proof.
  intros Hk. assert (visited ⊆ visited ++ [node]) as Hsub by set_solver.
  destruct new as [n|]; cbn.
  - intros [Hm Hc]. split; [by eapply machine_after_mono|].
    destruct Hc as [[-> Hv]|(node' & Hin & Hnode)]; [left|right; exists node'; split; [set_solver|done]].
    split; [done|]. intros node' [?| ->%list_elem_of_singleton]%elem_of_app; auto.
  - intros [-> Hv]. split; [done|].
    intros node' [?| ->%list_elem_of_singleton]%elem_of_app ?; [by apply Hv|by subst].
Qed.

Lemma updateNode_spec cs r0 e0 visited node s :
  visited_inv cs r0 e0 visited s →
  wp (updateNode cs node) (node_post cs r0 e0 (visited ++ [node]) (refused cs node)) s.
Proof.
  intros Hinv. assert (visited ⊆ visited ++ [node]) as Hsub by set_solver.
  pose proof (grown_mono _ _ _ _ _ _ Hsub (visited_inv_grown _ _ _ _ _ Hinv)) as Hgrown.
  destruct Hinv as (Hlog & Hsvc & Hrev & He).
  set (k := Name (node_meta node)). unfold updateNode. fold k. apply wp_bind. unfold wp at 1. simpl.
  specialize (He k) as Hk. unfold node_post.
  destruct (nodes (reg s) !! k) as [info|] eqn:Hinfo.
  - destruct (updateLabels_spec cs info node) as [Hm Hl].
    destruct (updateLabels cs info node) as [info' err] eqn:Hup. simpl in Hm, Hl.
    apply wp_bind. unfold wp at 1, put_node, modify_reg, modify. cbn [fst snd on_ok].
    assert (machine_after cs (revision r0) (visited ++ [node]) k (nodes r0 !! k) info') as Hafter.
    { eapply machine_after_same; [exact Hm|]. eapply machine_after_mono, Hk. done. }
    pose proof (grown_insert _ _ _ _ _ k info' Hgrown Hafter) as Hgrown'.
    destruct err as [err|].
    { apply wp_throw. split_and!; try done. intros ? [= <-]. left. exists info. by rewrite Hup. }
    apply wp_ret. split_and!; try done. intros _. split_and!; try done. simpl. intros k'.
    destruct (decide (k' = k)) as [->|Hk']; [|rewrite lookup_insert_ne by done; by apply visited_other].
    rewrite lookup_insert_eq. split; [done|]. right. exists node. split_and!; [set_solver|done|by apply Hl].
  - apply wp_bind, wp_on_renv. eapply wp_mono; [apply newNodeInfo_spec|].
    intros [[n|]|err| |] e1 (Hret & Hlog1 & Hn); cbn [on_ok]; try done.
    all: assert (logs reads_only e0 e1) as Hlog2 by (by etrans).
    + apply wp_bind. unfold wp, put_node, modify_reg, modify, gets. cbn [fst snd on_ok reg renv].
      destruct Hn as (Hlab & Hname & Hfound). destruct Hk as [Hold Hun].
      set (n' := with_revision n (revision (reg s))).
      assert (machine_after cs (revision r0) (visited ++ [node]) k (nodes r0 !! k) n') as Hafter.
      { rewrite Hold. split_and!; [done|done|]. exists node. split_and!; [set_solver|done|exact Hfound]. }
      split_and!; try done; [by apply grown_insert|].
      intros _. split_and!; try done. simpl. intros k'.
      destruct (decide (k' = k)) as [->|Hk']; [|rewrite lookup_insert_ne by done; by apply visited_other].
      rewrite lookup_insert_eq. split; [done|]. right. exists node. by split_and!; [set_solver|..].
    + apply wp_ret. split_and!; try done. intros _. split_and!; try done. simpl. intros k'.
      destruct (decide (k' = k)) as [->|Hk']; [|by apply visited_other].
      rewrite Hinfo. destruct Hk as [Hold Hun]. split; [done|].
      intros node' [?| ->%list_elem_of_singleton]%elem_of_app; [by apply Hun|done].
    + split_and!; try done. by intros ? [= <-].
Qed.

Lemma updateNode_loop cs r0 e0 visited ns s :
  visited_inv cs r0 e0 visited s →
  wp (for_each ns (updateNode cs))
    (node_post cs r0 e0 (visited ++ ns) (λ err, ∃ node, node ∈ ns ∧ refused cs node err)) s.
Proof.
  revert visited s. induction ns as [|node ns IH]; intros visited s Hinv; cbn [for_each].
  - apply wp_ret. unfold node_post. rewrite app_nil_r. split; [done|]. split; [by eapply visited_inv_grown|].
    destruct Hinv as (?&?&?&?). by split_and!.
  - apply wp_bind. eapply wp_mono; [by apply updateNode_spec|].
    assert (visited ++ node :: ns = (visited ++ [node]) ++ ns) as Happ by by rewrite <- app_assoc.
    intros [[]|e| |] s1 (Hret & Hg & Hl & Hs & Hr & Hnext & Hstop); cbn [on_ok]; try done.
    + rewrite Happ. eapply wp_mono; [by apply IH, Hnext|].
      intros res s2 (?&?&?&?&?&?&Hstop2). split_and!; [done..|].
      intros err Herr. destruct (Hstop2 err Herr) as (node' & Hin & Hno). exists node'. split; [by right|done].
    + split_and!; try done.
      * eapply grown_mono, Hg. rewrite Happ. set_solver.
      * intros err Herr. exists node. split; [by left|]. by apply Hstop.
Qed.

Definition updateNodes_post cs (ns : list Node) s (res : res unit) s' : Prop :=
  let rev := uint64 (revision (reg s) + 1) in
  logs reads_only (renv s) (renv s') ∧ svcNodes (reg s') = svcNodes (reg s) ∧
  match res with
  | Ok _ =>
      revision (reg s') = rev ∧ nodes (reg s') ≠ ∅ ∧
      (∀ k n, nodes (reg s') !! k = Some n →
         machine_after cs rev ns k (nodes (reg s) !! k) n ∧
         ∃ node, node ∈ ns ∧ Name (node_meta node) = k ∧ labelled cs n node) ∧
      (∀ node, node ∈ ns → nodes (reg s') !! Name (node_meta node) = None →
         unknown cs node ∧ nodes (reg s) !! Name (node_meta node) = None)
  | Err err =>
      (ns = [] ∧ s' = s) ∨
      (∃ node, node ∈ ns ∧ refused cs node err ∧ grown cs rev ns (reg s) (reg s')) ∨
      (err = Errorf "unable to map kubernetes nodes to cloudstack instances for nodes: %v" [nodeNames ns] ∧
       nodes (reg s') = ∅ ∧
       ∀ node, node ∈ ns → unknown cs node ∧ nodes (reg s) !! Name (node_meta node) = None)
  | _ => False
  end.

Lemma updateNodes_runs cs ns s : wp (updateNodes cs ns) (updateNodes_post cs ns s) s.
Proof.
  unfold updateNodes_post. set (rev := uint64 (revision (reg s) + 1)). destruct ns as [|n0 ns0].
  { apply wp_throw. split_and!; [done..|]. by left. }
  cbn [updateNodes]. set (ns := n0 :: ns0) in *.
  apply wp_bind. unfold wp at 1, modify_reg, modify. cbn [fst snd on_ok].
  set (r0 := set_revision rev (reg s)).
  apply wp_bind. eapply wp_mono; [apply (updateNode_loop cs r0 (renv s) [])|].
  { split_and!; [done..|]. intros k. simpl.
    destruct (nodes (reg s) !! k) as [n|]; simpl; [|split; set_solver].
    split; [done|]. left. split; set_solver. }
  intros [[]|e| |] s1 (Hret & Hg & Hl & Hs & Hr & Hnext & Hstop); cbn [on_ok]; try done.
  2: { split_and!; [done..|]. right. left. destruct (Hstop e eq_refl) as (node & Hin & Hno).
       exists node. by split_and!. }
  destruct (Hnext eq_refl) as (_ & _ & _ & He). clear Hnext. simpl in He.
  apply wp_bind. unfold wp at 1. cbn [fst snd on_ok].
  apply wp_bind. unfold wp at 1. cbn [fst snd on_ok gets reg].
  set (visited := list_to_set _ : gset string).
  set (kept := filter (λ kn, kn.1 ∈ visited) (nodes (reg s1))).
  assert (∀ k, k ∈ visited ↔ ∃ node, node ∈ ns ∧ Name (node_meta node) = k) as Hvis.
  { intros k. unfold visited. rewrite elem_of_list_to_set, list_elem_of_fmap. naive_solver. }
  assert (∀ node, node ∈ ns → kept !! Name (node_meta node) = None →
    unknown cs node ∧ nodes (reg s) !! Name (node_meta node) = None) as Hmissing.
  { intros node Hin Hnone. specialize (He (Name (node_meta node))).
    destruct (nodes (reg s1) !! Name (node_meta node)) as [n|] eqn:Hn.
    - unfold kept in Hnone. apply map_lookup_filter_None in Hnone as [Hnone|Hnone]; [congruence|].
      destruct (Hnone n Hn). apply Hvis. eauto.
    - destruct He as [? Hun]. split; [by apply Hun|done]. }
  assert (∀ k n, kept !! k = Some n → machine_after cs rev ns k (nodes (reg s) !! k) n ∧
    ∃ node, node ∈ ns ∧ Name (node_meta node) = k ∧ labelled cs n node) as Hentry.
  { intros k n [Hn Hin]%map_lookup_filter_Some. specialize (He k). rewrite Hn in He.
    destruct He as [Hm [[_ Hno]|He]]; [|done].
    apply Hvis in Hin as (node & Hin & Hname). by destruct (Hno node Hin). }
  case_decide as Hsize.
  - apply wp_throw. split_and!; [done..|]. right. right. cbn [reg set_nodes nodes] in *.
    apply map_size_empty_iff in Hsize. fold kept in Hsize |- *. split_and!; [done..|].
    intros node Hin. apply Hmissing; [done|]. by rewrite Hsize, lookup_empty.
  - apply wp_ret. split_and!; [done..| | |exact Hentry|exact Hmissing]; [exact Hr|].
    intros He'. apply Hsize. cbn [reg set_nodes nodes] in *. by rewrite He', map_size_empty.
Qed.

Lemma updateNodes_wp cs ns s :
  wp (updateNodes cs ns) (λ res s', returns res ∧ logs reads_only (renv s) (renv s') ∧
    svcNodes (reg s') = svcNodes (reg s)) s.
Proof.
  eapply wp_mono; [apply updateNodes_runs|]. intros res s' (Hl & Hs & Hr). split_and!; [by destruct res|done..].
Qed.

(** (C29) Updating the registry with the nodes of the cluster.  CloudStack is only
    read, and the nodes of the services stay.  On success every entry is for a
    node of the given list and says what that node's labels say; an entry that
    existed keeps its machine, network and revision; a new one has the new
    revision, the one machine that CloudStack or the cache has for a given node
    of this name, and the network of its external interface; every given node
    that is missing had no entry, and CloudStack has no machine for it; and the
    registry is not empty.  An update that stops at a node whose labels or
    machine cannot be found out drops no entry, keeps the machines of the old
    ones, and has only found machines in new ones.  The one other failure is that
    none of the given nodes had an entry and CloudStack has no machine for any: the
    registry is then empty, of nodes that are not given. *)
Theorem updateNodes_spec cs ns s : wp (updateNodes cs ns) (updateNodes_post cs ns s) s.
Proof. apply updateNodes_runs. Qed.
End update_facts.
