(* ===== verification/Panics.v ===== *)
(** * Run-time panics

    A panic in a worker goroutine ends the process.  [calm m]: the code [m]
    never panics, whatever the world answers.  [triple P Q m]: run on a balancer
    that satisfies [P], [m] does not panic, and leaves a balancer that satisfies
    [Q] when it returns a value.  The operations below dereference the rule of
    the balancer, which may be nil, so their triples ask for one. *)
From stdpp Require Import base list strings gmap sets.
From S2P Require Import Prelude GoStd Kube Cloud Config Meta Pages Balancer Ports PublicIP Rule Nodes.

(** ** Code that never panics *)

Definition no_panic {A} (r : res A) : Prop := match r with Panic _ => False | _ => True end.

Definition calm {S A} (m : M S A) : Prop := ∀ s, no_panic (m s).2.

Lemma returns_no_panic {A} (r : res A) : returns r → no_panic r.
Proof. by destruct r. Qed.

Section calm.
Context {S : Type}.

Lemma calm_ret {A} (a : A) : calm (S:=S) (mret a).
Proof. by intros s. Qed.
Lemma calm_throw {A} e : calm (S:=S) (throw (A:=A) e).
Proof. by intros s. Qed.
Lemma calm_block {A} : calm (S:=S) (block (A:=A)).
Proof. by intros s. Qed.
Lemma calm_gets {A} (f : S → A) : calm (gets f).
Proof. by intros s. Qed.
Lemma calm_modify (f : S → S) : calm (modify f).
Proof. by intros s. Qed.
Lemma calm_of_sum {A} (x : error + A) : calm (S:=S) (of_sum x).
Proof. by destruct x. Qed.

Lemma calm_bind {A B} (m : M S A) (f : A → M S B) :
  calm m → (∀ a, calm (f a)) → calm (m ≫= f).
Proof.
  intros Hm Hf s. unfold mbind, M_bind. pose proof (Hm s) as H.
  destruct (m s) as [s' []]; [apply Hf|done..].
Qed.
Lemma calm_try {A} (m : M S A) : calm m → calm (try m).
Proof. intros Hm s. unfold try. pose proof (Hm s). by destruct (m s) as [s' []]. Qed.
Lemma calm_wrap {A} f (m : M S A) : calm m → calm (wrap f m).
Proof. intros Hm s. unfold wrap. pose proof (Hm s). by destruct (m s) as [s' []]. Qed.
Lemma calm_for_each {A} (l : list A) (body : A → M S unit) :
  (∀ x, calm (body x)) → calm (for_each l body).
Proof.
  intros Hb. induction l as [|x l IH]; cbn [for_each]; [apply calm_ret|by apply calm_bind].
Qed.
Lemma calm_zoom {T A} (getT : S → T) (setT : T → S → S) (m : M T A) :
  calm m → calm (zoom getT setT m).
Proof. intros Hm s. unfold zoom. pose proof (Hm (getT s)). by destruct (m (getT s)). Qed.
End calm.

Section calm_calls.
Context {W} `{!Cloud W}.

Lemma calm_call {A} (e : ev A) : calm (call e).
Proof. intros s. unfold call. by destruct (exec e (ew s)). Qed.
Lemma calm_call_err {A} (e : ev (error + A)) : calm (call_err e).
Proof. apply calm_bind; [apply calm_call|intros; apply calm_of_sum]. Qed.
Lemma calm_range {A} (l : list A) : calm (range l).
Proof. intros s. unfold range. by destruct (shuffle l (ew s)). Qed.
End calm_calls.

#[export] Hint Resolve calm_ret calm_throw calm_block calm_gets calm_modify calm_of_sum
  calm_try calm_wrap calm_zoom calm_call calm_call_err calm_range : ccm.

(** Walks through the code. *)
Ltac calming :=
  repeat first
    [ progress intros
    | solve [eauto with ccm]
    | apply calm_bind
    | apply calm_for_each
    | apply calm_try
    | apply calm_wrap
    | case_goal ].

Section calm_operations.
Context {W} `{!Cloud W}.
Implicit Types (cs : CSCloud) (svc : Service) (pc : projectCloud).

Lemma listAllPagesUnsafe_calm {P A} `{!Paged P A} fuel c size (p : P) :
  calm (listAllPagesUnsafe (W:=W) fuel c size p).
Proof.
  apply calm_bind; [|by calming].
  generalize (SetPagesize size p) 1%Z (@nil A). revert fuel. intros fuel.
  induction fuel as [|fuel IH]; intros p' pg l; cbn [pages_loop]; calming.
Qed.

Lemma virtualMachineByName_calm m n p : calm (virtualMachineByName (W:=W) m n p).
Proof. unfold virtualMachineByName. calming. Qed.

Lemma getFirstRawValue_calm j : calm (getFirstRawValue (W:=W) j).
Proof. unfold getFirstRawValue. calming. Qed.

Lemma waitJob_calm {k} c jobid (r : rtype k) : calm (waitJob (W:=W) c jobid r).
Proof. pose proof getFirstRawValue_calm. unfold waitJob. calming. Qed.

Lemma waitJob_nil_calm c jobid : calm (waitJob_nil (W:=W) c jobid).
Proof. unfold waitJob_nil. calming. Qed.

Lemma setDefaultTags_calm pc kind rid svc : calm (setDefaultTags (W:=W) pc kind rid svc).
Proof. unfold setDefaultTags, setResourceTags. calming. Qed.

Lemma getLoadBalancerRule_calm c svc n p : calm (getLoadBalancerRule (W:=W) c svc n p).
Proof.
  unfold getLoadBalancerRule, getLoadBalancerRuleByName, getLoadBalancerByTags, only_rule. calming.
Qed.

Lemma getLoadBalancer_calm cs svc p nets : calm (getLoadBalancer (W:=W) cs svc p nets).
Proof. pose proof getLoadBalancerRule_calm. unfold getLoadBalancer. calming. Qed.

Lemma symmetricDifference_calm hosts vms : calm (symmetricDifference (W:=W) hosts vms).
Proof. unfold symmetricDifference. calming. Qed.

Lemma update_pools_calm c lb r ps infos pools p rsp :
  calm (update_pools (W:=W) c lb r ps infos pools p rsp).
Proof.
  pose proof @waitJob_calm. revert pools p rsp.
  induction infos as [|pi infos IH]; intros pools p rsp; cbn [update_pools]; [calming|].
  destruct (generateGloboNetworkPool ps pi (service lb) pools) as [[pool|] pools']; [|apply IH].
  calming.
Qed.

Lemma newNodeInfo_calm cs n : calm (newNodeInfo (W:=W) cs n).
Proof. pose proof virtualMachineByName_calm. unfold newNodeInfo. calming. Qed.

Lemma updateNodes_calm cs ns : calm (updateNodes (W:=W) cs ns).
Proof.
  pose proof newNodeInfo_calm. unfold updateNodes, updateNode, put_node, modify_reg, on_renv. calming.
Qed.

Lemma nodesForService_calm cs svc : calm (nodesForService (W:=W) cs svc).
Proof. unfold nodesForService, on_renv. calming. Qed.

Lemma nodesContainingService_calm key : calm (nodesContainingService (W:=W) key).
Proof. unfold nodesContainingService, on_renv. calming. Qed.

Lemma idsForService_calm cs svc : calm (idsForService (W:=W) cs svc).
Proof. pose proof nodesForService_calm. unfold idsForService. calming. Qed.
End calm_operations.

#[export] Hint Resolve listAllPagesUnsafe_calm virtualMachineByName_calm waitJob_calm waitJob_nil_calm
  setDefaultTags_calm getLoadBalancer_calm symmetricDifference_calm update_pools_calm
  updateNodes_calm nodesForService_calm nodesContainingService_calm idsForService_calm : ccm.

(** ** Operations of a balancer *)

Definition triple {W} (P : loadBalancer → Prop) {A} (Q : A → loadBalancer → Prop)
    (m : M (lbst W) A) : Prop :=
  ∀ s, P (lobj s) →
    match (m s).2 with Ok a => Q a (lobj (m s).1) | Panic _ => False | _ => True end.

(** The balancer has a rule. *)
Definition ruled (lb : loadBalancer) : Prop := is_Some (rule lb).

Section triples.
Context {W : Type}.
Implicit Types P : loadBalancer → Prop.

Lemma triple_bind {A B} P (Q : A → loadBalancer → Prop) (R : B → loadBalancer → Prop)
    (m : M (lbst W) A) f :
  triple P Q m → (∀ a, triple (Q a) R (f a)) → triple P R (m ≫= f).
Proof.
  intros Hm Hf s Hs. pose proof (Hm s Hs) as H. unfold mbind, M_bind.
  destruct (m s) as [s' [a|e|p|]]; [by apply Hf|done..].
Qed.

Lemma triple_weaken {A} P P' (Q Q' : A → loadBalancer → Prop) (m : M (lbst W) A) :
  triple P Q m → (∀ lb, P' lb → P lb) → (∀ a lb, Q a lb → Q' a lb) → triple P' Q' m.
Proof. intros Hm HP HQ s Hs. pose proof (Hm s (HP _ Hs)). destruct (m s) as [s' []]; simpl in *; auto. Qed.

(** Reading the balancer. *)
Lemma triple_lb {B} P (R : B → loadBalancer → Prop) (f : loadBalancer → M (lbst W) B) :
  (∀ lb, P lb → triple (λ lb', lb' = lb ∧ P lb') R (f lb)) → triple P R (the_lb ≫= f).
Proof. intros Hf s Hs. by apply (Hf (lobj s) Hs s). Qed.

Lemma triple_ret {A} P (a : A) : triple P (λ _, P) (mret a : M (lbst W) A).
Proof. by intros s Hs. Qed.

Lemma triple_throw {A} P (Q : A → loadBalancer → Prop) e : triple P Q (throw e : M (lbst W) A).
Proof. by intros s Hs. Qed.

Lemma triple_deref {A} P (o : option A) : is_Some o → triple P (λ _, P) (deref o : M (lbst W) A).
Proof. by intros [a ->] s Hs. Qed.

Lemma triple_modify P P' f : (∀ lb, P lb → P' (f lb)) → triple (W:=W) P (λ _, P') (modify_lb f).
Proof. intros Hf s Hs. by apply Hf. Qed.

Lemma triple_env {A} P (m : M (env W) A) : calm m → triple P (λ _, P) (on_env m).
Proof.
  intros Hm s Hs. pose proof (Hm (lenv s)) as H. unfold on_env, zoom.
  destruct (m (lenv s)) as [e []]; simpl in *; done.
Qed.

Lemma triple_client P : triple (W:=W) P (λ _, P) lb_client.
Proof.
  apply triple_lb. intros lb _ s [<- Hs]. by destruct (getClient _).
Qed.

Lemma triple_wrap {A} P (Q : A → loadBalancer → Prop) f (m : M (lbst W) A) :
  triple P Q m → triple P Q (wrap f m).
Proof. intros Hm s Hs. unfold wrap. pose proof (Hm s Hs). by destruct (m s) as [s' []]. Qed.

Lemma triple_for_each {A} P (l : list A) (body : A → M (lbst W) unit) :
  (∀ x, triple P (λ _, P) (body x)) → triple P (λ _, P) (for_each l body).
Proof.
  intros Hb. induction l as [|x l IH]; cbn [for_each]; [apply triple_ret|].
  eapply triple_bind; [apply Hb|]. by intros [].
Qed.
End triples.

#[export] Hint Resolve triple_ret triple_throw triple_deref triple_client : ccm.
#[export] Hint Extern 2 (triple _ _ (on_env _)) => (apply triple_env; solve [calming]) : ccm.

(** Walks through code that keeps [P], the precondition of the goal. *)
Ltac hoare :=
  repeat first
    [ progress intros
    | progress cbn beta
    | solve [eauto with ccm]
    | solve [eapply triple_weaken; [solve [eauto with ccm]|exact (λ _ H, H)|naive_solver]]
    | apply triple_lb
    | apply triple_wrap
    | eapply triple_bind
    | case_goal ].

Section triple_operations.
Context {W} `{!Cloud W}.

(** Code that keeps the balancer and returns, as a triple. *)
Lemma triple_keeps {A} P Q (m : M (lbst W) A) :
  preserves (lb_keeps Q) m → (∀ s, returns (m s).2) → triple P (λ _, P) m.
Proof.
  intros Hk Hr s Hs. destruct (Hk s) as [Ho _]. pose proof (Hr s) as H.
  destruct (m s) as [s' []]; simpl in *; try done. by rewrite Ho.
Qed.

(** serviceToLBPorts only changes the service. *)
Lemma serviceToLBPorts_triple P :
  (∀ lb svc, P lb → P (set_service svc lb)) → triple (W:=W) P (λ _, P) serviceToLBPorts.
Proof.
  intros HP s Hs. destruct (serviceToLBPorts_frame s) as (Hret & _ & Hobj & _).
  destruct (serviceToLBPorts s) as [s' []]; simpl in *; try done.
  rewrite Hobj. by apply HP.
Qed.

Lemma assignHostsToRule_triple hosts : triple (W:=W) ruled (λ _, ruled) (assignHostsToRule hosts).
Proof. unfold assignHostsToRule. hoare. Qed.

Lemma removeHostsFromRule_triple hosts : triple (W:=W) ruled (λ _, ruled) (removeHostsFromRule hosts).
Proof. unfold removeHostsFromRule. hoare. Qed.

Lemma assignNetworkToRule_triple net : triple (W:=W) ruled (λ _, ruled) (assignNetworkToRule net).
Proof. unfold assignNetworkToRule. hoare. Qed.

Lemma assignNetworksToRule_triple nets : triple (W:=W) ruled (λ _, ruled) (assignNetworksToRule nets).
Proof.
  unfold assignNetworksToRule. apply triple_lb. intros lb _. case_decide; [hoare|].
  eapply triple_weaken; [apply triple_for_each, assignNetworkToRule_triple|naive_solver|done].
Qed.

Lemma syncNodes_triple fuel hosts nets : triple (W:=W) ruled (λ _, ruled) (syncNodes fuel hosts nets).
Proof.
  pose proof assignHostsToRule_triple. pose proof removeHostsFromRule_triple.
  pose proof assignNetworksToRule_triple. unfold syncNodes.
  eapply triple_bind; [apply triple_client|intros c; cbn beta].
  apply triple_lb; intros lb Hr.
  eapply (triple_bind _ (λ _, ruled)); [hoare|intros r].
  eapply (triple_bind _ (λ _, ruled)); [hoare|intros vms].
  eapply (triple_bind _ (λ _, ruled)); [hoare|intros [assign remove]].
  eapply (triple_bind _ (λ _, ruled)); [|intros []]; case_decide; hoare.
Qed.

Lemma updateLoadBalancerPool_triple : triple (W:=W) ruled (λ _, ruled) updateLoadBalancerPool.
Proof.
  pose proof (serviceToLBPorts_triple ruled (λ _ _ H, H)). unfold updateLoadBalancerPool.
  eapply triple_bind; [apply triple_client|intros c; cbn beta].
  apply triple_lb; intros lb Hr.
  eapply (triple_bind _ (λ _, ruled)); [hoare|intros r].
  case_decide; [hoare|].
  eapply (triple_bind _ (λ _, ruled)); [hoare|intros [count pools]].
  case_decide; hoare.
Qed.

Lemma updateLoadBalancerRule_triple : triple (W:=W) ruled (λ _, ruled) updateLoadBalancerRule.
Proof. unfold updateLoadBalancerRule. hoare. Qed.

Lemma assignTagsToRule_triple : triple (W:=W) ruled (λ _, ruled) assignTagsToRule.
Proof. unfold assignTagsToRule. hoare. Qed.

Lemma deleteLoadBalancerRule_triple : triple (W:=W) ruled (λ _ _, True) deleteLoadBalancerRule.
Proof.
  unfold deleteLoadBalancerRule. apply triple_lb; intros lb Hr.
  eapply (triple_bind _ (λ _, ruled)); [hoare|intros c].
  eapply (triple_bind _ (λ _, ruled)); [hoare|intros r].
  eapply (triple_bind _ (λ _, ruled)); [hoare|intros jobID].
  eapply (triple_bind _ (λ _, ruled)); [case_decide; hoare|intros []].
  by apply triple_modify.
Qed.

(** What the check found can be acted on: only a balancer with a rule is said to
    need an update or tags. *)
Definition actionable (r : checkLBResult) (lb : loadBalancer) : Prop :=
  needsUpdate r = true ∨ needsTags r = true ∨ exists_ r = true → ruled lb.

Lemma checkLoadBalancerRule_triple : triple (W:=W) (λ _, True) actionable checkLoadBalancerRule.
Proof.
  unfold checkLoadBalancerRule. apply triple_lb; intros lb _.
  assert (∀ P, triple (W:=W) P actionable (mret no_result)) as Hnone.
  { intros P s _ H. exfalso. by destruct H as [H|[H|H]]. }
  destruct (rule lb) as [r|] eqn:Hr; [|apply Hnone].
  eapply (triple_bind _ (λ _ _, True)).
  { eapply triple_weaken; [by apply (serviceToLBPorts_triple (λ _, True))|done|done]. }
  intros ps. eapply (triple_bind _ (λ _ _, True)); [hoare|intros r'].
  destruct (comparePorts ps r') as [r2 eq].
  eapply (triple_bind _ (λ _, ruled)); [apply triple_modify; intros; by eexists|intros []].
  case_decide; [by intros s Hs _|].
  eapply triple_bind; [apply deleteLoadBalancerRule_triple|intros []; apply Hnone].
Qed.

Lemma createLoadBalancerRule_triple P :
  (∀ lb svc, P lb → P (set_service svc lb)) → triple (W:=W) P (λ _, P) createLoadBalancerRule.
Proof.
  intros HP. pose proof (serviceToLBPorts_triple P HP). unfold createLoadBalancerRule.
  eapply triple_bind; [apply triple_client|intros c; cbn beta].
  eapply (triple_bind _ (λ _, P)); [hoare|intros ps].
  apply triple_lb; intros lb Hr.
  eapply (triple_bind _ (λ _, P)); [hoare|intros r].
  eapply (triple_bind _ (λ _, P)); [case_decide; [|hoare]|intros r'; hoare].
  apply triple_wrap. eapply triple_weaken;
    [apply triple_env, (waitJob_calm (k:=KCreateRule))|exact (λ _ H, H)|naive_solver].
Qed.
End triple_operations.
