(* ===== verification/State.v ===== *)
(** * The state of a running provider

    A CSCloud has, besides its configuration, a node registry, a queue of
    services whose machines must be updated, and one lock per service.  This
    file declares that state, runs the code of the other components on its
    parts, and brackets a body with the lock of a service. *)
From stdpp Require Import base list strings gmap.
From S2P Require Import Prelude GoStd Kube Cloud Config ServiceLock Balancer Nodes.

(** queueEntry (service_queue.go).  Instants are nanoseconds since 1970; the
    zero time.Time is [zero_time]. *)
Record queueEntry := {
  qe_service : Service;
  qe_lb : option loadBalancer;
  updatePool : bool;
  start : Z;
  backoffUntil : Z;
}.

Definition zero_time : Z := -62135596800 * 10 ^ 9.

Record state (W : Type) := St {
  genv : env W;
  registry : nodeRegistry;
  queue : gmap serviceKey queueEntry;
  svcLock : serviceLock;
}.
Arguments St {W} _ _ _ _.
Arguments genv {W} _.
Arguments registry {W} _.
Arguments queue {W} _.
Arguments svcLock {W} _.

Section run.
Context {W : Type}.

Definition set_genv (e : env W) (s : state W) : state W :=
  St e (registry s) (queue s) (svcLock s).
Definition set_queue (q : gmap serviceKey queueEntry) (s : state W) : state W :=
  St (genv s) (registry s) q (svcLock s).
Definition set_svcLock (l : serviceLock) (s : state W) : state W :=
  St (genv s) (registry s) (queue s) l.

Definition on_genv {A} (m : M (env W) A) : M (state W) A := zoom genv set_genv m.
Definition on_registry {A} (m : M (regst W) A) : M (state W) A :=
  zoom (λ s, Reg (genv s) (registry s)) (λ r s, St (renv r) (reg r) (queue s) (svcLock s)) m.
Definition on_svcLock {A} (m : M serviceLock A) : M (state W) A := zoom svcLock set_svcLock m.

(** Running methods of a balancer: the balancer as they leave it is returned
    with their result. *)
Definition with_lb {A} (lb : loadBalancer) (m : M (lbst W) A) : M (state W) (loadBalancer * A) := λ s,
  let '(s', r) := m (LB (genv s) lb) in
  (set_genv (lenv s') s,
   match r with Ok a => Ok (lobj s', a) | Err e => Err e | Panic p => Panic p | Blocked => Blocked end).

(** [cs.svcLock.Lock(service); defer cs.svcLock.Unlock(service)] *)
Definition with_lock {A} (svc : Service) (m : M (state W) A) : M (state W) A :=
  on_svcLock (Lock svc) ;; defer (on_svcLock (Unlock svc)) m.
End run.

(** ** Facts *)

Section run_facts.
Context {W : Type}.
Implicit Types s : state W.

Lemma wp_on_genv {A} (m : M (env W) A) (Q : res A → state W → Prop) s :
  wp m (λ r e, Q r (set_genv e s)) (genv s) → wp (on_genv m) Q s.
Proof. intros H. unfold on_genv. by apply wp_zoom. Qed.

Lemma wp_on_registry {A} (m : M (regst W) A) (Q : res A → state W → Prop) s :
  wp m (λ r t, Q r (St (renv t) (reg t) (queue s) (svcLock s))) (Reg (genv s) (registry s)) →
  wp (on_registry m) Q s.
Proof. intros H. unfold on_registry. by apply wp_zoom. Qed.

Lemma wp_with_lb {A} lb (m : M (lbst W) A) (Q : res (loadBalancer * A) → state W → Prop) s :
  wp m (λ r t, Q (match r with Ok a => Ok (lobj t, a) | Err e => Err e | Panic p => Panic p
                  | Blocked => Blocked end) (set_genv (lenv t) s)) (LB (genv s) lb) →
  wp (with_lb lb m) Q s.
Proof. unfold wp, with_lb. by destruct (m (LB (genv s) lb)). Qed.

(** The calls of a run. *)
Definition st_logs (P : event → Prop) s s' : Prop := logs P (genv s) (genv s').

#[export] Instance st_logs_preorder (P : event → Prop) : PreOrder (st_logs P).
Proof.
  split; [intros s; unfold st_logs; reflexivity|]. intros s1 s2 s3 H1 H2.
  unfold st_logs in *. by etrans.
Qed.

Lemma preserves_on_genv {A} P (m : M (env W) A) :
  preserves (logs P) m → preserves (st_logs P) (on_genv m).
Proof. apply preserves_zoom. by intros s t. Qed.

Lemma preserves_on_registry {A} P (m : M (regst W) A) :
  preserves (λ t t' : regst W, logs P (renv t) (renv t')) m → preserves (st_logs P) (on_registry m).
Proof. apply preserves_zoom. by intros s t. Qed.

Lemma preserves_with_lb {A} P lb (m : M (lbst W) A) :
  preserves (lb_logs P) m → preserves (st_logs P) (with_lb lb m).
Proof. intros Hm s. unfold with_lb. pose proof (Hm (LB (genv s) lb)). by destruct (m _). Qed.

(** A body that runs under the lock of a service nobody else is using starts
    with the lock held, and when it comes back (by return or panic) the lock
    table has the entries it had. *)
Definition locked_start svc s : state W :=
  set_svcLock (Lock svc (svcLock s)).1 s.

Lemma wp_with_lock {A} svc (m : M (state W) A) (Q : res A → state W → Prop) s :
  inUse (svcLock s) !! svcKey svc = None →
  wp m (λ r s', svcLock s' = svcLock (locked_start svc s) ∧
    match r with
    | Blocked => Q Blocked s'
    | _ => ∀ l, inUse l = inUse (svcLock s) → Q r (set_svcLock l s')
    end) (locked_start svc s) →
  wp (with_lock svc m) Q s.
Proof.
  intros Hfree Hm. unfold with_lock. apply wp_bind. unfold wp at 1, on_svcLock, zoom.
  unfold wp, locked_start in Hm.
  destruct (Lock_Unlock svc (svcLock s) Hfree) as (l' & HL & l'' & HU & Hin).
  rewrite HL in *. cbn [fst snd on_ok] in *. unfold wp, defer.
  destruct (m (set_svcLock l' s)) as [s' r]. cbn [fst snd svcLock set_svcLock] in *.
  destruct Hm as [Hl Hm]. rewrite Hl, HU. destruct r; cbn [fst snd]; auto.
Qed.

(** A result of the body, whether or not the lock was free. *)
Lemma with_lock_ok {A} svc (m : M (state W) A) a (P : state W → Prop) s :
  (∀ s' l, P s' → P (set_svcLock l s')) →
  (∀ l, wp m (λ r s', r = Ok a → P s') (set_svcLock l s)) →
  wp (with_lock svc m) (λ r s', r = Ok a → P s') s.
Proof.
  intros HP Hm. unfold with_lock, on_svcLock, zoom, mbind, M_bind, wp.
  destruct (Lock svc (svcLock s)) as [l [[]|e|x|]]; try done. specialize (Hm l). unfold wp in Hm. unfold defer.
  destruct (m (set_svcLock l s)) as [s' [b|e|x|]]; cbn [fst snd] in *; try done;
    destruct (Unlock svc (svcLock s')) as [l' [[]|e'|x'|]]; try done.
  all: cbn [fst snd]; intros ?; simplify_eq; by apply HP, Hm.
Qed.
End run_facts.

#[export] Hint Resolve preserves_on_genv preserves_with_lb : ccm.
