(* ===== verification/Queue.v ===== *)
(** * The update queue (service_queue.go)

    Services whose machines must be updated wait in a queue with at most one
    entry per service.  Workers take the most urgent entry that is not backing
    off, bring the load balancer of its service in line with the node registry,
    and put the entry back with a delay when that failed. *)
From stdpp Require Import base list strings gmap sets sorting.
From S2P Require Import Prelude GoStd Kube Cloud Config Meta Pages ServiceLock Balancer Ports PublicIP Rule Nodes Panics State.

Definition eventReasonUpdateFailed : string := "QueuedUpdateLoadBalancerFailed".
Definition eventReasonUpdateSuccess : string := "QueuedUpdatedLoadBalancer".

(** An entry with the revision of the newest node that runs its service. *)
Record queueEntryWithNodeRecent := { entry : queueEntry; topRevision : Z }.

(** Less, with the clock at [now]. *)
Definition Less (now : Z) (a b : queueEntryWithNodeRecent) : bool :=
  let ea := entry a in
  let eb := entry b in
  if decide ((now < backoffUntil ea ∨ now < backoffUntil eb) ∧ backoffUntil ea ≠ backoffUntil eb)%Z
  then bool_decide (backoffUntil ea < backoffUntil eb)%Z
  else if decide (topRevision a = topRevision b)
       then bool_decide (start ea < start eb)%Z
       else bool_decide (topRevision b < topRevision a)%Z.

(** sort.Sort: every element moves left past the elements that are greater. *)
Fixpoint insert_entry (now : Z) (x : queueEntryWithNodeRecent) (l : list queueEntryWithNodeRecent) :
    list queueEntryWithNodeRecent :=
  match l with
  | [] => [x]
  | y :: l => if Less now x y then x :: y :: l else y :: insert_entry now x l
  end.

Definition sort_entries (now : Z) (l : list queueEntryWithNodeRecent) : list queueEntryWithNodeRecent :=
  foldl (λ sorted x, insert_entry now x sorted) [] l.

Definition with_service (svc : Service) (e : queueEntry) : queueEntry :=
  {| qe_service := svc; qe_lb := None; updatePool := updatePool e; start := start e;
     backoffUntil := backoffUntil e |}.

Definition topRevision_of (l : list nodeInfo) : Z :=
  foldl (λ top n, if decide (top < ni_revision n)%Z then ni_revision n else top) 0%Z l.

(** A worker between two rounds: at its select statement with the flag and the
    timer of its loop, returned, or in a receive from its timer that never ends. *)
Inductive worker := Selecting (exitWhenDone : bool) (waitTimer : timer) | Returned | Stuck.

(** [if !waitTimer.Stop() { <-waitTimer.C }; waitTimer.Reset(time.Second)];
    [expired]: the timer has expired by then, if it was running. *)
Definition wait_again (expired : bool) (waitTimer : timer) : option timer :=
  let '(stopped, t) := Timer_Stop (if expired then expire waitTimer else waitTimer) in
  Timer_Reset <$> (if stopped then Some t else receive t).

Definition nothing_popped (exitWhenDone expired : bool) (waitTimer : timer) : worker :=
  if exitWhenDone then Returned
  else match wait_again expired waitTimer with
       | Some waitTimer => Selecting exitWhenDone waitTimer
       | None => Stuck
       end.

Section queue.
Context {W} `{!Cloud W}.
Context (cs : CSCloud).

Definition modify_queue (f : gmap serviceKey queueEntry → gmap serviceKey queueEntry) :
    M (state W) unit := modify (λ s, set_queue (f (queue s)) s).

(** An entry of the same service that waits already only gets the newer
    service object; a new entry needs a node that serves the service. *)
Definition push (e : queueEntry) : M (state W) unit :=
  let key := svcKey (qe_service e) in
  q ← gets queue;
  match q !! key with
  | Some existing => modify_queue <[key := with_service (qe_service e) existing]>
  | None =>
      on_registry (nodesForService cs (qe_service e)) ;;
      modify_queue <[key := e]>
  end.

(** The error of the inner push is the second component. *)
Definition pushWithBackoff (e : queueEntry) : M (state W) (Z * option error) :=
  backoff ← on_genv (call (RateLimiterWhen (svcKey (qe_service e))));
  now ← on_genv (call Now);
  now' ← on_genv (call Now);
  r ← try (push {| qe_service := qe_service e; qe_lb := None; updatePool := updatePool e;
                   start := now'; backoffUntil := now + backoff |});
  mret (backoff, match r with inl err => Some err | inr _ => None end).

Fixpoint extend_entries (l : list (serviceKey * queueEntry)) :
    M (state W) (list queueEntryWithNodeRecent) :=
  match l with
  | [] => mret []
  | (key, e) :: l =>
      svcNodes ← on_registry (nodesContainingService key);
      rest ← extend_entries l;
      mret ({| entry := e; topRevision := topRevision_of svcNodes |} :: rest)
  end.

(** The clock is read once for the sort and once for the test after it. *)
Definition pop : M (state W) (option queueEntry) :=
  q ← gets queue;
  l ← on_genv (range (map_to_list q));
  entries ← extend_entries l;
  match entries with
  | [] => mret None
  | _ =>
      now ← on_genv (call Now);
      e ← index (sort_entries now entries) 0;
      now ← on_genv (call Now);
      if decide (now < backoffUntil (entry e))%Z then mret None
      else
        modify_queue (delete (svcKey (qe_service (entry e)))) ;;
        mret (Some (entry e))
  end.

(** The balancer an entry is processed with: the one Ensure left in it, or the
    one that is found now; [None] when there is nothing to do. *)
Definition entry_lb (e : queueEntry) (networkIDs : list string) (projectID : string) :
    M (state W) (option loadBalancer) :=
  match qe_lb e with
  | Some lb => mret (Some lb)
  | None =>
      lb ← on_genv (getLoadBalancer cs (qe_service e) projectID networkIDs);
      match rule lb with
      | None => mret None
      | Some _ =>
          match shouldManageLB lb with
          | Some _ => mret None
          | None => mret (Some lb)
          end
      end
  end.

Definition update_lb (fuel : nat) (updatePool : bool) (hostIDs networkIDs : list string) :
    M (lbst W) unit :=
  syncNodes fuel hostIDs networkIDs ;;
  if updatePool then updateLoadBalancerPool else mret tt.

Definition processQueueEntry (fuel : nat) (e : queueEntry) : M (state W) unit :=
  with_lock (qe_service e) (
    nodes ← on_registry (nodesForService cs (qe_service e));
    let '(hostIDs, networkIDs, projectID) := idsForNodes nodes in
    lb ← entry_lb e networkIDs projectID;
    match lb with
    | None => mret tt
    | Some lb => with_lb lb (update_lb fuel (updatePool e) hostIDs networkIDs) ;; mret tt
    end).

(** One round of a worker whose timer is [waitTimer]: the body of its loop
    after the select statement.  A worker that was told to stop goes on until
    nothing can be popped. *)
Definition worker_round (fuel : nat) (exitWhenDone expired : bool) (waitTimer : timer) :
    M (state W) worker :=
  item ← try pop;
  match item with
  | inl _ => mret (Selecting exitWhenDone waitTimer)
  | inr None => mret (nothing_popped exitWhenDone expired waitTimer)
  | inr (Some item) =>
      r ← try (processQueueEntry fuel item);
      match r with
      | inl err =>
          pushWithBackoff item ;;
          on_genv (call (RecordEvent (qe_service item) true eventReasonUpdateFailed)) ;;
          mret (Selecting exitWhenDone waitTimer)
      | inr _ =>
          on_genv (call (RateLimiterForget (svcKey (qe_service item)))) ;;
          on_genv (call (RecordEvent (qe_service item) false eventReasonUpdateSuccess)) ;;
          mret (Selecting exitWhenDone waitTimer)
      end
  end.
End queue.

(** The number of workers that start() launches. *)
Definition defaultUpdateLBWorkers : Z := 5.
Definition workers (cs : CSCloud) : Z :=
  if decide (UpdateLBWorkers (Global (config cs)) = 0)%Z then defaultUpdateLBWorkers
  else UpdateLBWorkers (Global (config cs)).

(** ** The order of the entries *)

(** What an entry is compared by: the end of its backoff (the past counts as
    now), then the newest revision first, then the earliest start. *)
Definition urgency (now : Z) (a : queueEntryWithNodeRecent) : Z * Z * Z :=
  (Z.max now (backoffUntil (entry a)), - topRevision a, start (entry a))%Z.

Definition lex_lt (x y : Z * Z * Z) : Prop :=
  (x.1.1 < y.1.1 ∨ x.1.1 = y.1.1 ∧ (x.1.2 < y.1.2 ∨ x.1.2 = y.1.2 ∧ x.2 < y.2))%Z.

Lemma Less_lex now a b : Less now a b = true ↔ lex_lt (urgency now a) (urgency now b).
Proof.
  unfold Less, lex_lt, urgency. simpl.
  repeat case_decide; rewrite bool_decide_eq_true; lia.
Qed.

Lemma Less_false now a b : Less now a b = false ↔ ¬ lex_lt (urgency now a) (urgency now b).
Proof. rewrite <- Less_lex. by destruct (Less now a b). Qed.

Lemma insert_entry_perm now x l : insert_entry now x l ≡ₚ x :: l.
Proof.
  induction l as [|y l IH]; simpl; [done|]. destruct (Less now x y); [done|].
  rewrite IH. apply Permutation_swap.
Qed.

Lemma sort_entries_snoc now l x : sort_entries now (l ++ [x]) = insert_entry now x (sort_entries now l).
Proof. unfold sort_entries. by rewrite foldl_app. Qed.

Lemma sort_entries_perm now l : sort_entries now l ≡ₚ l.
Proof.
  induction l as [|x l IH] using rev_ind; [done|].
  rewrite sort_entries_snoc, insert_entry_perm, IH. apply Permutation_cons_append.
Qed.

(** The first entry is one that no entry precedes. *)
Definition headed (now : Z) (l : list queueEntryWithNodeRecent) : Prop :=
  match l with [] => True | h :: t => Forall (λ x, Less now x h = false) t end.

Lemma sort_entries_headed now l : headed now (sort_entries now l).
Proof.
  induction l as [|x l IH] using rev_ind; [done|]. rewrite sort_entries_snoc.
  destruct (sort_entries now l) as [|h t]; simpl in *; [by constructor|].
  destruct (Less now x h) eqn:Hx; simpl.
  - apply Less_lex in Hx. constructor.
    + apply Less_false. unfold lex_lt in *. lia.
    + eapply Forall_impl; [exact IH|]. simpl. intros y. rewrite !Less_false. unfold lex_lt in *. lia.
  - rewrite insert_entry_perm. by constructor.
Qed.

(** The head of the sorted entries is least. *)
Lemma sort_entries_least now l x :
  x ∈ l → ∃ h, head (sort_entries now l) = Some h ∧ h ∈ l ∧ Less now x h = false.
Proof.
  intros Hx. pose proof (sort_entries_perm now l) as Hp.
  pose proof (sort_entries_headed now l) as Hh.
  destruct (sort_entries now l) as [|h t]; simpl in *; [rewrite <- Hp in Hx; set_solver|].
  exists h. split_and!; [done|rewrite <- Hp; set_solver|].
  rewrite <- Hp in Hx. apply elem_of_cons in Hx as [->|Hx].
  - apply Less_false. unfold lex_lt. lia.
  - rewrite Forall_forall in Hh. by apply Hh.
Qed.

(** (C27) With the clock fixed, Less is a strict weak order: no entry precedes
    itself, precedence is transitive, and so is being equally urgent.  Sorting
    by it puts in front an entry that none precedes, wherever the map iteration
    started: among entries that are not backing off the one with the newest
    node, and then the earliest start; and an entry that is backing off only
    when all are. *)
Theorem Less_strict_weak_order now :
  (∀ a, Less now a a = false) ∧
  (∀ a b c, Less now a b = true → Less now b c = true → Less now a c = true) ∧
  (∀ a b c, Less now a b = false → Less now b a = false →
            Less now b c = false → Less now c b = false →
            Less now a c = false ∧ Less now c a = false) ∧
  (∀ l x, x ∈ l → ∃ h, head (sort_entries now l) = Some h ∧ h ∈ l ∧ Less now x h = false ∧
     (backoffUntil (entry x) ≤ now → backoffUntil (entry h) ≤ now ∧
        (topRevision x < topRevision h ∨
         topRevision x = topRevision h ∧ start (entry h) ≤ start (entry x)))%Z).
Proof.
  split_and!.
  - intros a. apply Less_false. unfold lex_lt. lia.
  - intros a b c. rewrite !Less_lex. unfold lex_lt. lia.
  - intros a b c. rewrite !Less_false. unfold lex_lt. lia.
  - intros l x Hx. destruct (sort_entries_least now l x Hx) as (h & ? & ? & Hl). exists h.
    split_and!; [done..|]. apply Less_false in Hl. unfold lex_lt, urgency in Hl. simpl in Hl. lia.
Qed.

(** ** Taking an entry *)

Definition top_revision (r : nodeRegistry) (key : serviceKey) : Z :=
  topRevision_of (omap (λ n, nodes r !! n) (elements (default ∅ (svcNodes r !! key)))).

Definition extended (r : nodeRegistry) (ke : serviceKey * queueEntry) : queueEntryWithNodeRecent :=
  {| entry := ke.2; topRevision := top_revision r ke.1 |}.

Lemma topRevision_of_max l : topRevision_of l = foldr Z.max 0%Z (ni_revision <$> l).
Proof.
  unfold topRevision_of.
  induction l as [|n l IH] using rev_ind; [done|].
  rewrite foldl_app, IH, fmap_app, foldr_app. simpl.
  assert (∀ z l, foldr Z.max z l = Z.max z (foldr Z.max 0 l) ∨ z < 0)%Z as Hz.
  { intros z l'. induction l' as [|x l' IH']; simpl; [lia|]. lia. }
  destruct (Hz (Z.max (ni_revision n) 0) (ni_revision <$> l)) as [->|?]; [|lia].
  assert (∀ l', 0 ≤ foldr Z.max 0 l')%Z as Hp by (induction l'; simpl; lia).
  specialize (Hp (ni_revision <$> l)). case_decide; lia.
Qed.

Lemma topRevision_of_perm l l' : l ≡ₚ l' → topRevision_of l = topRevision_of l'.
Proof.
  intros Hp. rewrite !topRevision_of_max.
  apply (foldr_permutation_proper (=) Z.max 0%Z); [intros; lia|by rewrite Hp].
Qed.

(** Every entry is stored under the key of its service. *)
Definition keyed (q : gmap serviceKey queueEntry) : Prop :=
  ∀ k e, q !! k = Some e → svcKey (qe_service e) = k.

Section queue_facts.
Context {W} `{!Cloud W}.
Implicit Types (cs : CSCloud) (s : state W).

(** Nothing happened but choices of the runtime. *)
Definition quiet s s' : Prop :=
  elog (genv s') = elog (genv s) ∧ registry s' = registry s ∧ queue s' = queue s ∧
  svcLock s' = svcLock s.

Lemma nodesContainingService_spec key s :
  wp (on_registry (nodesContainingService key)) (λ r s', quiet s s' ∧
    ∃ l, r = Ok l ∧ topRevision_of l = top_revision (registry s) key) s.
Proof.
  apply wp_on_registry. unfold nodesContainingService. apply wp_bind. unfold wp at 1.
  cbn [fst snd on_ok gets reg]. apply wp_bind, wp_on_renv, wp_range. intros w l Hl. cbn [on_ok].
  apply wp_ret. split; [done|]. eexists. split; [done|].
  apply topRevision_of_perm. by rewrite Hl.
Qed.

Lemma extend_entries_spec l s :
  wp (extend_entries l) (λ r s', quiet s s' ∧ r = Ok (extended (registry s) <$> l)) s.
Proof.
  revert s. induction l as [|[key e] l IH]; intros s; cbn [extend_entries]; [done|].
  apply wp_bind. eapply wp_mono; [apply nodesContainingService_spec|].
  intros r s1 ((Hl1 & Hr1 & Hq1 & Hs1) & nl & -> & Hn). cbn [on_ok].
  apply wp_bind. eapply wp_mono; [apply IH|].
  intros r s2 ((Hl2 & Hr2 & Hq2 & Hs2) & ->). cbn [on_ok]. apply wp_ret.
  rewrite Hn. split; [split_and!; congruence|]. rewrite Hr1. done.
Qed.

(** Two consecutive readings of the clock. *)
Definition clock_reads (now now' : Z) : Prop :=
  ∃ w w' w'', exec Now w = (w', now) ∧ exec Now w' = (w'', now').

Definition pop_post s (r : res (option queueEntry)) s' : Prop :=
  registry s' = registry s ∧ svcLock s' = svcLock s ∧
    st_logs (λ e, e = Ev Now) s s' ∧
    match r with
    | Ok (Some e) =>
        let key := svcKey (qe_service e) in
        queue s !! key = Some e ∧ queue s' = delete key (queue s) ∧
        ∃ now now', clock_reads now now' ∧ (backoffUntil e ≤ now')%Z ∧
          ∀ k' e', queue s !! k' = Some e' →
            Less now (extended (registry s) (k', e')) (extended (registry s) (key, e)) = false
    | Ok None => queue s' = queue s ∧
        (queue s = ∅ ∨ ∃ now now', clock_reads now now' ∧
           (now ≤ now' → ∀ k e, queue s !! k = Some e → now' < backoffUntil e)%Z)
    | _ => False
    end.

Lemma pop_wp s : keyed (queue s) → wp pop (pop_post s) s.
Proof.
  intros Hkeyed. unfold pop_post, pop. apply wp_bind. unfold wp at 1. cbn [fst snd on_ok gets].
  apply wp_bind, wp_on_genv, wp_range. intros w l Hl. cbn [on_ok].
  apply wp_bind. eapply wp_mono; [apply extend_entries_spec|].
  intros r s1 ((Hlog & Hreg & Hq & Hsvc) & ->). cbn [on_ok].
  cbn [set_genv genv registry queue svcLock elog] in *.
  remember (extended (registry s) <$> l) as entries eqn:Hext.
  assert (∀ k e, queue s !! k = Some e → extended (registry s) (k, e) ∈ entries) as Hin.
  { intros k e Hke. rewrite Hext. apply list_elem_of_fmap_2. rewrite Hl. by apply elem_of_map_to_list. }
  destruct (decide (entries = [])) as [->|Hne].
  { apply wp_ret. split_and!; [done|done|exists []; by rewrite app_nil_r|done|left].
    apply map_empty. intros k. destruct (queue s !! k) as [e|] eqn:Hk; [|done].
    specialize (Hin k e Hk). set_solver. }
  assert (∃ x0, x0 ∈ entries) as [x0 Hx0] by (destruct entries; [done|eexists; by left]).
  match goal with |- wp ?m _ _ => replace m with
    (now ← on_genv (call Now); e ← index (sort_entries now entries) 0; now ← on_genv (call Now);
     if decide (now < backoffUntil (entry e))%Z then mret None
     else modify_queue (delete (svcKey (qe_service (entry e)))) ;; mret (Some (entry e)))
    by (by destruct entries) end.
  apply wp_bind, wp_on_genv, wp_call. intros w1 now Hnow. cbn [on_ok].
  destruct (sort_entries_least now entries x0) as (h & Hh & Hhin & _); [done|].
  assert (∀ x, x ∈ entries → Less now x h = false) as Hleast.
  { intros x Hx. destruct (sort_entries_least now entries x Hx) as (h' & Hh' & _ & Hl'). congruence. }
  apply wp_bind. unfold index. destruct (sort_entries now entries) as [|h' t] eqn:Hsort; [done|].
  simplify_eq/=. apply wp_ret. cbn [on_ok].
  apply wp_bind, wp_on_genv, wp_call. intros w2 now' Hnow'. cbn [on_ok].
  assert (clock_reads now now') as Hclock by (unfold clock_reads; eauto).
  assert (∃ k e, queue s !! k = Some e ∧ h = extended (registry s) (k, e)) as (k & e & Hke & ->).
  { apply list_elem_of_fmap in Hhin as ([k e] & -> & Hke). exists k, e.
    split; [|done]. rewrite Hl in Hke. by apply elem_of_map_to_list in Hke. }
  assert (st_logs (λ e, e = Ev Now) s (St (Env w2 ((elog (genv s1) ++ [Ev Now]) ++ [Ev Now]))
    (registry s1) (queue s1) (svcLock s1))) as Hlogs.
  { exists [Ev Now; Ev Now]. cbn [elog genv]. rewrite Hlog, <- app_assoc. split; [done|].
    by repeat constructor. }
  simpl. case_decide as Hback.
  - apply wp_ret. split_and!; [done|done|done|done|]. right. exists now, now'. split; [done|].
    intros Hle k' e' Hk'. specialize (Hleast _ (Hin k' e' Hk')). apply Less_false in Hleast.
    unfold lex_lt, urgency, extended in Hleast. simpl in Hleast. lia.
  - apply wp_bind. unfold wp at 1. cbn [fst snd on_ok]. apply wp_ret.
    pose proof (Hkeyed k e Hke) as Hkey. simpl. rewrite Hkey.
    split_and!; [done|done|done|done|by rewrite <- Hq|]. exists now, now'.
    split_and!; [done|lia|]. intros k' e' Hk'. by apply Hleast, Hin.
Qed.

(** (C25) Taking an entry from the queue only reads the clock.  The entry taken
    was in the queue, is the only one that leaves it, is not backing off, and no
    other entry is more urgent than it.  When nothing is taken the queue stays as
    it is, and, unless the clock went backwards, every entry in it is backing
    off. *)
Theorem pop_spec s (Hkeyed : keyed (queue s)) :
  wp pop (λ r s', registry s' = registry s ∧ svcLock s' = svcLock s ∧
    st_logs (λ e, e = Ev Now) s s' ∧
    match r with
    | Ok (Some e) =>
        let key := svcKey (qe_service e) in
        queue s !! key = Some e ∧ queue s' = delete key (queue s) ∧
        ∃ now now', clock_reads now now' ∧ (backoffUntil e ≤ now')%Z ∧
          ∀ k' e', queue s !! k' = Some e' →
            Less now (extended (registry s) (k', e')) (extended (registry s) (key, e)) = false
    | Ok None => queue s' = queue s ∧
        (queue s = ∅ ∨ ∃ now now', clock_reads now now' ∧
           (now ≤ now' → ∀ k e, queue s !! k = Some e → now' < backoffUntil e)%Z)
    | _ => False
    end) s.
Proof. by apply pop_wp. Qed.
End queue_facts.

(** ** Adding an entry *)

(** A registered node serves the service. *)
Definition served cs (r : nodeRegistry) (svc : Service) : Prop :=
  ∃ k n, nodes r !! k = Some n ∧ serves cs svc n.

Section push_facts.
Context {W} `{!Cloud W}.
Implicit Types (cs : CSCloud) (s : state W).

Lemma push_wp cs e s :
  wp (push cs e) (λ r s', registry s' = registry s ∧ svcLock s' = svcLock s ∧
    elog (genv s') = elog (genv s) ∧
    let key := svcKey (qe_service e) in
    match queue s !! key with
    | Some old => r = Ok tt ∧ queue s' = <[key := with_service (qe_service e) old]> (queue s)
    | None =>
        match r with
        | Ok _ => served cs (registry s) (qe_service e) ∧ queue s' = <[key := e]> (queue s)
        | Err _ => ¬ served cs (registry s) (qe_service e) ∧ queue s' = queue s
        | _ => False
        end
    end) s.
Proof.
  unfold push. apply wp_bind. unfold wp at 1. cbn [fst snd on_ok gets].
  destruct (queue s !! svcKey (qe_service e)) as [old|] eqn:Hold; [done|].
  apply wp_bind, wp_on_registry. eapply wp_mono; [apply nodesForService_spec|].
  intros r t (Hreg & Hlog & Hpost). cbn [reg renv] in *.
  destruct r as [l|err| |]; cbn [on_ok]; try done.
  - unfold wp. cbn. split_and!; [done..| |done]. destruct Hpost as [Hne Hl].
    destruct l as [|n l]; [done|]. assert (n ∈ filter (serves cs (qe_service e)) (map_to_list (nodes (registry s))).*2) as Hn.
    { rewrite <- Hl. by left. }
    apply list_elem_of_filter in Hn as [Hs ([k n'] & -> & Hin)%list_elem_of_fmap].
    apply elem_of_map_to_list in Hin. by exists k, n'.
  - cbn. split_and!; [done..| |done]. intros (k & n & Hn & Hs). by eapply Hpost.
Qed.

(** (C26) The queue holds at most one entry per service, under the service's
    own key.  Pushing for a service that waits already always succeeds, changes
    no other entry, and keeps what the waiting entry has but for the service
    object and the balancer: its start, its backoff and its pool flag, so a
    request to update the pools is lost when the waiting entry does not ask for
    it.  Pushing for another service succeeds exactly when a registered node
    serves it. *)
Theorem push_spec cs e s (Hkeyed : keyed (queue s)) :
  wp (push cs e) (λ r s', registry s' = registry s ∧ elog (genv s') = elog (genv s) ∧
    keyed (queue s') ∧
    (∀ k, k ≠ svcKey (qe_service e) → queue s' !! k = queue s !! k) ∧
    match queue s !! svcKey (qe_service e), r with
    | Some old, Ok _ => ∃ new, queue s' !! svcKey (qe_service e) = Some new ∧
        qe_service new = qe_service e ∧ qe_lb new = None ∧ updatePool new = updatePool old ∧
        start new = start old ∧ backoffUntil new = backoffUntil old
    | None, Ok _ => served cs (registry s) (qe_service e) ∧
        queue s' !! svcKey (qe_service e) = Some e
    | None, Err _ => ¬ served cs (registry s) (qe_service e) ∧ queue s' = queue s
    | _, _ => False
    end) s.
Proof.
  eapply wp_mono; [apply push_wp|]. intros r s' (Hreg & _ & Hlog & Hq).
  assert (∀ x, svcKey (qe_service x) = svcKey (qe_service e) →
    keyed (<[svcKey (qe_service e) := x]> (queue s))) as Hins.
  { intros x Hx k e' [[<- <-]|[_ Hk]]%lookup_insert_Some; [done|by apply Hkeyed]. }
  cbn zeta in Hq. destruct (queue s !! svcKey (qe_service e)) as [old|] eqn:Hold.
  - destruct Hq as [-> Hq]. rewrite Hq. split_and!; [done|done|by apply Hins| |].
    + intros k Hk. by rewrite lookup_insert_ne.
    + eexists. rewrite lookup_insert_eq. by split_and!.
  - destruct r as [[]|err| |]; try done; destruct Hq as [Hs Hq]; rewrite Hq.
    + split_and!; [done|done|by apply Hins| |done|by rewrite lookup_insert_eq].
      intros k Hk. by rewrite lookup_insert_ne.
    + by split_and!.
Qed.

(** The request that pushWithBackoff makes of push. *)
Lemma pushWithBackoff_wp cs e s :
  wp (pushWithBackoff cs e) (λ r s', registry s' = registry s ∧ svcLock s' = svcLock s ∧
    (∃ l, elog (genv s') = elog (genv s) ++ l) ∧ ∃ d err, r = Ok (d, err) ∧
    let key := svcKey (qe_service e) in
    (err = None → is_Some (queue s' !! key)) ∧
    (err ≠ None → ¬ served cs (registry s) (qe_service e)) ∧
    (∀ e', queue s' !! key = Some e' → qe_lb e' = None ∧ qe_service e' = qe_service e) ∧
    (∀ k, k ≠ key → queue s' !! k = queue s !! k) ∧ (keyed (queue s) → keyed (queue s'))) s.
Proof.
  unfold pushWithBackoff.
  apply wp_bind, wp_on_genv, wp_call. intros w d _. cbn [on_ok].
  apply wp_bind, wp_on_genv, wp_call. intros w1 now _. cbn [on_ok].
  apply wp_bind, wp_on_genv, wp_call. intros w2 now' _. cbn [on_ok].
  apply wp_bind, wp_try. eapply wp_mono; [apply push_wp|]. cbn [set_genv queue registry svcLock qe_service].
  intros r s' (Hreg & Hsvc & Hlog & Hq). cbn zeta in Hq.
  assert (∀ x, svcKey (qe_service x) = svcKey (qe_service e) → keyed (queue s) →
    keyed (<[svcKey (qe_service e) := x]> (queue s))) as Hins.
  { intros x Hx Hk0 k e' [[<- <-]|[_ Hk]]%lookup_insert_Some; [done|by apply Hk0]. }
  destruct (queue s !! svcKey (qe_service e)) as [old|] eqn:Hold.
  - destruct Hq as [-> Hq]. cbn [on_ok]. apply wp_ret. split_and!; [done|done|by rewrite Hlog; cbn [set_genv genv elog]; rewrite <- !app_assoc; eexists|].
    exists d, None. split_and!; [done|by rewrite Hq, lookup_insert_eq|done| | |].
    + intros e'. rewrite Hq, lookup_insert_eq. by intros [= <-].
    + intros k Hk. by rewrite Hq, lookup_insert_ne.
    + rewrite Hq. by apply Hins.
  - destruct r as [[]|err| |]; try done; destruct Hq as [Hs Hq]; cbn [on_ok]; apply wp_ret;
      (split_and!; [done|done|by rewrite Hlog; cbn [set_genv genv elog]; rewrite <- !app_assoc; eexists|]).
    + exists d, None. split_and!; [done|by rewrite Hq, lookup_insert_eq|done| | |].
      * intros e'. rewrite Hq, lookup_insert_eq. by intros [= <-].
      * intros k Hk. by rewrite Hq, lookup_insert_ne.
      * rewrite Hq. by apply Hins.
    + exists d, (Some err). rewrite Hq. split_and!; try done. intros e'. by rewrite Hold.
Qed.
End push_facts.

(** ** Processing an entry *)

(** No lock is held or waited for, and every entry is under its own key: what
    holds between two operations of a provider that is doing nothing else. *)
Definition at_rest {W} (s : state W) : Prop :=
  keyed (queue s) ∧ ∀ k, inUse (svcLock s) !! k = None.

(** The queue and the registry are as they were, and no lock is used. *)
Definition same_tables {W} (s s' : state W) : Prop :=
  registry s' = registry s ∧ queue s' = queue s ∧ inUse (svcLock s') = inUse (svcLock s).

Section process_facts.
Context {W} `{!Cloud W}.
Implicit Types (cs : CSCloud) (s : state W).

(** The balancer an entry is for: the one that waits with it, or the one that
    CloudStack shows in the project of the nodes that serve the service. *)
Definition entry_lookup cs (e : queueEntry) : M (regst W) loadBalancer :=
  nodes ← nodesForService cs (qe_service e);
  let '(_, networkIDs, projectID) := idsForNodes nodes in
  match qe_lb e with
  | Some lb => mret lb
  | None => on_renv (getLoadBalancer cs (qe_service e) projectID networkIDs)
  end.

Definition entry_shown cs (e : queueEntry) s : option loadBalancer :=
  match (entry_lookup cs e (Reg (genv s) (registry s))).2 with Ok lb => Some lb | _ => None end.

(** The rule that an update may touch: that of the balancer, unless the
    balancer was looked up and its rule is not the provider's. *)
Definition entry_rule (e : queueEntry) (lb : loadBalancer) : option loadBalancerRule :=
  match qe_lb e, shouldManageLB lb with
  | None, Some _ => None
  | _, _ => rule lb
  end.

(** The balancer that is updated, if any. *)
Definition entry_update (e : queueEntry) (lb : loadBalancer) : option loadBalancer :=
  match qe_lb e with
  | Some _ => Some lb
  | None => match entry_rule e lb with Some _ => Some lb | None => None end
  end.

(** The calls of an update: on the rule of the balancer that the entry has or
    that CloudStack shows, when the provider may manage it; without such a rule
    the world is only read. *)
Definition touched_managed cs (e : queueEntry) s s' : Prop :=
  match entry_shown cs e s ≫= entry_rule e with
  | Some r => st_logs (touches (lbr_Id r)) s s'
  | None => st_logs reads_only s s'
  end.

Lemma touched_managed_reads cs e s s' : st_logs reads_only s s' → touched_managed cs e s s'.
Proof.
  intros H. unfold touched_managed. destruct (_ ≫= _); [|done].
  eapply logs_mono; [apply touches_reads|exact H].
Qed.

(** What is looked up when the nodes have been found. *)
Definition entry_found cs (e : queueEntry) nets p s : res loadBalancer :=
  match qe_lb e with Some lb => Ok lb | None => (getLoadBalancer cs (qe_service e) p nets (genv s)).2 end.

Lemma entry_shown_found cs e s t ns :
  nodesForService cs (qe_service e) (Reg (genv s) (registry s)) = (t, Ok ns) →
  let '(_, nets, p) := idsForNodes ns in
  entry_shown cs e s =
    match entry_found cs e nets p (St (renv t) (reg t) (queue s) (svcLock s)) with
    | Ok lb => Some lb | _ => None end.
Proof.
  intros E. unfold entry_shown, entry_lookup, mbind, M_bind. rewrite E.
  destruct (idsForNodes ns) as [[hosts nets] p]. unfold entry_found.
  destruct (qe_lb e); [done|]. unfold on_renv, zoom. cbn [genv].
  by destruct (getLoadBalancer _ _ _ _ _).
Qed.

Lemma entry_lb_spec cs e nets p s :
  wp (entry_lb cs e nets p) (λ r s', returns r ∧ st_logs reads_only s s' ∧ same_tables s s' ∧
    svcLock s' = svcLock s ∧
    match entry_found cs e nets p s with
    | Ok lb => r = Ok (entry_update e lb) ∧
        (qe_lb e = None → built_for cs (qe_service e) lb)
    | Err err => r = Err err
    | _ => False
    end) s.
Proof.
  unfold entry_lb, entry_found, entry_update, entry_rule. destruct (qe_lb e) as [lb|] eqn:Hlb.
  { apply wp_ret. by split_and!; [|apply st_logs_preorder|..]. }
  apply wp_bind, wp_on_genv. eapply wp_run; [apply getLoadBalancer_spec|].
  intros r e1 E [Hlog Hr]. rewrite E. cbn [snd].
  destruct r as [lb|err| |]; cbn [on_ok]; try done.
  destruct Hr as (Hb & _). destruct (rule lb) as [r|] eqn:Hrule;
    destruct (shouldManageLB lb) eqn:Hm; by apply wp_ret.
Qed.

(** The balancer that an update goes on with, and its rule. *)
Lemma entry_lb_rule e lb lb' :
  (∀ lb, qe_lb e = Some lb → is_Some (rule lb)) → (∀ x, qe_lb e = Some x → x = lb) →
  entry_update e lb = Some lb' →
  lb' = lb ∧ ∃ r, rule lb = Some r ∧ entry_rule e lb = Some r.
Proof.
  intros Hrule Hsame. unfold entry_update, entry_rule. destruct (qe_lb e) as [x|] eqn:Hx.
  - intros [= <-]. split; [done|]. rewrite <- (Hsame x eq_refl). destruct (Hrule x eq_refl) as [r Hr].
    exists r. by rewrite Hr.
  - destruct (shouldManageLB lb); [done|]. destruct (rule lb) as [r|]; [|done].
    intros [= <-]. eauto.
Qed.

Lemma entry_lb_ruled cs e nets p s lb :
  (∀ lb, qe_lb e = Some lb → is_Some (rule lb)) →
  match entry_found cs e nets p s with
  | Ok lb0 => Ok (Some lb) = Ok (entry_update e lb0) ∧ (qe_lb e = None → built_for cs (qe_service e) lb0)
  | Err err => Ok (Some lb) = Err err
  | _ => False
  end → ∃ r, rule lb = Some r.
Proof.
  intros Hrule. destruct (entry_found cs e nets p s) as [lb0|err| |] eqn:Hf; try done.
  intros [[= Hlb] _]. symmetry in Hlb. apply entry_lb_rule in Hlb as (-> & r & Hr & _); [by exists r|done|].
  intros x Hx. unfold entry_found in Hf. rewrite Hx in Hf. by injection Hf.
Qed.

Lemma update_lb_spec fuel b hostIDs nets lb r s :
  rule lb = Some r →
  wp (with_lb lb (update_lb fuel b hostIDs nets)) (λ res s', no_panic res ∧
    st_logs (touches (lbr_Id r)) s s' ∧
    registry s' = registry s ∧ queue s' = queue s ∧ svcLock s' = svcLock s) s.
Proof.
  intros Hr. apply wp_with_lb.
  assert (triple ruled (λ _, ruled) (update_lb (W:=W) fuel b hostIDs nets)) as Hnp.
  { eapply triple_bind; [apply syncNodes_triple|intros []; cbn beta].
    destruct b; [apply updateLoadBalancerPool_triple|apply triple_ret]. }
  assert (guarded (has_rule (lbr_Id r)) (touches (lbr_Id r)) (update_lb (W:=W) fuel b hostIDs nets)) as Hon.
  { apply guarded_bind; [apply syncNodes_on_rule|]. intros _.
    destruct b; [apply updateLoadBalancerPool_on_rule|apply guarded_ret]. }
  destruct (Hon (LB (genv s) lb)) as [_ Hlog]; [unfold has_rule; simpl; by rewrite Hr|].
  specialize (Hnp (LB (genv s) lb) (ex_intro _ r Hr)). unfold wp.
  destruct (update_lb fuel b hostIDs nets (LB (genv s) lb)) as [t []]; by split_and!.
Qed.

(** The body under the lock. *)
Lemma processQueueEntry_wp cs fuel e s :
  inUse (svcLock s) !! svcKey (qe_service e) = None →
  (∀ lb, qe_lb e = Some lb → is_Some (rule lb)) →
  wp (processQueueEntry cs fuel e) (λ r s', no_panic r ∧ touched_managed cs e s s' ∧
    registry s' = registry s ∧ queue s' = queue s ∧
    (r ≠ Blocked → inUse (svcLock s') = inUse (svcLock s))) s.
Proof.
  intros Hfree Hrule. apply wp_with_lock; [done|].
  set (s0 := locked_start _ s).
  match goal with |- wp ?m _ _ => apply (wp_mono m (λ r s', no_panic r ∧ touched_managed cs e s s' ∧
    registry s' = registry s ∧ queue s' = queue s ∧ svcLock s' = svcLock s0)) end.
  2: { intros r s' (Hnp & Ht & Hreg & Hq & Hl). split; [done|].
       destruct r; try (intros l Hin; by split_and!). by split_and!. }
  assert (registry s0 = registry s ∧ queue s0 = queue s) as [Hr0 Hq0] by done.
  apply wp_bind, wp_on_registry. eapply wp_run; [apply nodesForService_spec|].
  intros r t E (Hreg & Hlog & Hpost). cbn [reg renv] in *.
  assert (st_logs reads_only s (St (renv t) (reg t) (queue s0) (svcLock s0))) as Hread.
  { exists []. by rewrite app_nil_r. }
  destruct r as [nodes|err| |]; cbn [on_ok]; try done;
    [|split_and!; [done|by apply touched_managed_reads|done..]].
  pose proof (entry_shown_found cs e s t nodes E) as Hshown.
  destruct (idsForNodes nodes) as [[hosts nets] p].
  apply wp_bind. eapply wp_mono; [apply entry_lb_spec|].
  intros r s1 (Hret & Hread1 & (Hreg1 & Hq1 & _) & Hl1 & Hlb). cbn [registry queue svcLock] in *.
  assert (st_logs reads_only s s1) as Hread2 by (by etrans).
  unfold entry_found in Hlb. cbn [genv] in Hlb. unfold entry_found in Hshown. cbn [genv] in Hshown.
  destruct r as [[lb|]|err| |]; cbn [on_ok]; try done.
  - destruct (match qe_lb e with Some lb => Ok lb | None => _ end) as [lb0|err| |] eqn:Hf; try done.
    destruct Hlb as [Hlb _]. injection Hlb as Hlb. symmetry in Hlb.
    apply entry_lb_rule in Hlb as (-> & r & Hr & Her); [|done|by intros x Hx; rewrite Hx in Hf; injection Hf].
    assert (∀ (s2 : state W), st_logs (touches (lbr_Id r)) s1 s2 → touched_managed cs e s s2) as Htm.
    { intros s2 Hl2. unfold touched_managed. rewrite Hshown. cbn. rewrite Her.
      etrans; [|exact Hl2]. eapply logs_mono; [apply touches_reads|exact Hread2]. }
    apply wp_bind. eapply wp_mono; [by apply update_lb_spec|].
    intros r' s2 (Hnp & Hl2 & Hreg2 & Hq2 & Hs2).
    assert (touched_managed cs e s s2 ∧ registry s2 = registry s ∧ queue s2 = queue s ∧
      svcLock s2 = svcLock s0) as Hend by (split_and!; [by apply Htm|congruence..]).
    destruct r'; done.
  - apply wp_ret. split_and!; [done|by apply touched_managed_reads|congruence..].
  - split_and!; [done|by apply touched_managed_reads|congruence..].
Qed.

(** (C13) A worker that processes an entry only touches one rule: that of the
    balancer that waits with the entry, or else the rule that CloudStack shows to
    the lookup the processing begins with, and that one only when it is the
    provider's.  It changes the machines, the networks or the health checks of
    that rule, never creates or deletes a rule and never takes or gives back an
    IP; when there is no such rule, or it is not the provider's, or the lookup
    fails, it only reads.  All of this holds whatever CloudStack answers.  The
    queue and the registry are left alone and the service's lock is given back
    when the processing comes back; it never panics. *)
Theorem processQueueEntry_safe cs fuel e s
    (Hrest : at_rest s) (Hrule : ∀ lb, qe_lb e = Some lb → is_Some (rule lb)) :
  wp (processQueueEntry cs fuel e) (λ r s', no_panic r ∧ touched_managed cs e s s' ∧
    registry s' = registry s ∧ queue s' = queue s ∧ (r ≠ Blocked → at_rest s')) s.
Proof.
  destruct Hrest as [Hk Hl].
  eapply wp_mono; [by apply processQueueEntry_wp|]. intros r s' (Hnp & Ht & Hreg & Hq & Hin).
  split_and!; try done. intros Hr. split; [by rewrite Hq|]. by rewrite Hin.
Qed.
End process_facts.

(** ** One round of a worker *)

Section worker_facts.
Context {W} `{!Cloud W}.
Implicit Types (cs : CSCloud) (s : state W).

(** The success of an update of the service was recorded between [s] and [s']. *)
Definition updated (k : serviceKey) s s' : Prop :=
  ∃ l svc, elog (genv s') = elog (genv s) ++ l ∧ svcKey svc = k ∧
    Ev (RecordEvent svc false eventReasonUpdateSuccess) ∈ l.

Definition extends s s' : Prop := ∃ l, elog (genv s') = elog (genv s) ++ l.

Lemma st_logs_extends P s s' : st_logs P s s' → extends s s'.
Proof. intros (l & Hl & _). by exists l. Qed.

Lemma touched_managed_extends cs e s s' : touched_managed cs e s s' → extends s s'.
Proof. unfold touched_managed. destruct (_ ≫= _); apply st_logs_extends. Qed.

(** A balancer that waits with its entry has a rule. *)
Definition queued_rules (q : gmap serviceKey queueEntry) : Prop :=
  ∀ k e lb, q !! k = Some e → qe_lb e = Some lb → is_Some (rule lb).

(** The worker has returned, or its timer will wake it up. *)
Definition awake (wk : worker) : Prop :=
  match wk with Selecting _ t => is_Some (receive t) | Returned => True | Stuck => False end.

Lemma wait_again_awake expired t :
  is_Some (receive t) → ∃ t', wait_again expired t = Some t' ∧ is_Some (receive t').
Proof. destruct t as [[] []], expired; intros [t' [=]]; vm_compute; eauto. Qed.

(** What becomes of a worker in a round that did not return it. *)
Definition goes_on (exitWhenDone : bool) (wk : worker) : Prop :=
  match wk with Selecting b _ => b = exitWhenDone | Returned => False | Stuck => True end.

Definition round_post cs (exitWhenDone : bool) (t : timer) s (r : res worker) s' : Prop :=
  match r with
  | Ok wk => at_rest s' ∧ queued_rules (queue s') ∧ registry s' = registry s ∧
      (∀ k e', queue s' !! k = Some e' → ∃ e, queue s !! k = Some e ∧ qe_service e' = qe_service e) ∧
      (∀ k e, queue s !! k = Some e →
         is_Some (queue s' !! k) ∨ updated k s s' ∨ ¬ served cs (registry s) (qe_service e)) ∧
      (is_Some (receive t) → awake wk) ∧
      (goes_on exitWhenDone wk ∨ exitWhenDone = true ∧ wk = Returned ∧ queue s' = queue s)
  | Err _ | Panic _ => False
  | Blocked => True
  end.

Lemma nothing_popped_post (b expired : bool) t :
  (is_Some (receive t) → awake (nothing_popped b expired t)) ∧
  (goes_on b (nothing_popped b expired t) ∨ b = true ∧ nothing_popped b expired t = Returned).
Proof.
  unfold nothing_popped. destruct b; [by split; [|right]|]. split.
  - intros Ht. destruct (wait_again_awake expired t Ht) as (t' & -> & ?). done.
  - left. by destruct (wait_again expired t).
Qed.

(** The entry [e] was taken from the queue of [s]; the rest is as it was. *)
Record taken (e : queueEntry) s s' : Prop := {
  taken_entry : queue s !! svcKey (qe_service e) = Some e;
  taken_queue : queue s' = delete (svcKey (qe_service e)) (queue s);
  taken_registry : registry s' = registry s;
  taken_locks : inUse (svcLock s') = inUse (svcLock s);
  taken_log : extends s s';
}.

Lemma taken_inv e s s' : taken e s s' → at_rest s → queued_rules (queue s) →
  at_rest s' ∧ queued_rules (queue s').
Proof.
  intros [_ Hq _ Hl _] [Hkeyed Hfree] Hrules. rewrite Hq. split; [split|].
  - intros k e' Hk. rewrite Hq in Hk. apply lookup_delete_Some in Hk as [_ Hk]. by apply Hkeyed.
  - intros k. by rewrite Hl.
  - intros k e' lb [_ Hk]%lookup_delete_Some. by eapply Hrules.
Qed.

(** Once it is processed it is still taken, whatever became of it. *)
Lemma pop_process cs fuel e s s1 :
  pop_post s (Ok (Some e)) s1 → at_rest s → queued_rules (queue s) →
  wp (processQueueEntry cs fuel e) (λ r s', no_panic r ∧ (r ≠ Blocked → taken e s s')) s1.
Proof.
  intros (Hreg1 & Hl1 & Hlog1 & Hke & Hq1 & _) [_ Hfree] Hrules. eapply wp_mono.
  { apply processQueueEntry_wp; [by rewrite Hl1|]. intros lb Hlb. by eapply Hrules. }
  intros r s2 (Hnp & Ht & Hreg2 & Hq2 & Hl2). split; [done|]. intros Hr.
  apply st_logs_extends in Hlog1 as [l1 Hlog1]. apply touched_managed_extends in Ht as [l2 Hlog2].
  split; [done|congruence|congruence|rewrite Hl2 by done; by rewrite Hl1|].
  exists (l1 ++ l2). by rewrite Hlog2, Hlog1, app_assoc.
Qed.

(** The end of a round whose update succeeded. *)
Lemma record_success_wp {A} svc (a : A) s :
  wp (on_genv (call (RateLimiterForget (svcKey svc))) ;;
      on_genv (call (RecordEvent svc false eventReasonUpdateSuccess)) ;; mret a)
    (λ r s', r = Ok a ∧ registry s' = registry s ∧ queue s' = queue s ∧ svcLock s' = svcLock s ∧
      elog (genv s') = elog (genv s) ++ [Ev (RateLimiterForget (svcKey svc));
                                         Ev (RecordEvent svc false eventReasonUpdateSuccess)]) s.
Proof.
  apply wp_bind, wp_on_genv, wp_call. intros w [] _. cbn [on_ok].
  apply wp_bind, wp_on_genv, wp_call. intros w' [] _. cbn [on_ok]. apply wp_ret.
  cbn [set_genv genv elog registry queue svcLock]. by rewrite <- app_assoc.
Qed.

Lemma round_succeeded cs b t e s s2 :
  taken e s s2 → at_rest s → queued_rules (queue s) →
  wp (on_genv (call (RateLimiterForget (svcKey (qe_service e)))) ;;
      on_genv (call (RecordEvent (qe_service e) false eventReasonUpdateSuccess)) ;; mret (Selecting b t))
    (round_post cs b t s) s2.
Proof.
  intros Hk Hrest Hrules. destruct (taken_inv e s s2 Hk Hrest Hrules) as [[Hkeyed2 Hfree2] Hrules2].
  destruct Hk as [Hke Hq Hreg Hl [l Hlog]]. eapply wp_mono; [apply record_success_wp|].
  intros r s3 (-> & Hreg3 & Hq3 & Hl3 & Hlog3). unfold round_post, at_rest. rewrite Hq3, Hl3. split_and!.
  - done.
  - done.
  - done.
  - congruence.
  - intros k e'. rewrite Hq. intros [_ Hk]%lookup_delete_Some. eauto.
  - intros k e' Hk. destruct (decide (k = svcKey (qe_service e))) as [->|Hne].
    + right. left. rewrite Hlog in Hlog3. eexists (l ++ [_; _]), (qe_service e).
      rewrite Hlog3, <- app_assoc. split_and!; [done|done|set_solver].
    + left. rewrite Hq, lookup_delete_ne by done. eauto.
  - done.
  - by left.
Qed.

Lemma round_failed cs b t e s s2 :
  taken e s s2 → at_rest s → queued_rules (queue s) →
  wp (pushWithBackoff cs e ;;
      on_genv (call (RecordEvent (qe_service e) true eventReasonUpdateFailed)) ;; mret (Selecting b t))
    (round_post cs b t s) s2.
Proof.
  intros Hk Hrest Hrules. destruct (taken_inv e s s2 Hk Hrest Hrules) as [[Hkeyed2 Hfree2] Hrules2].
  destruct Hk as [Hke Hq Hreg Hl [l Hlog]]. apply wp_bind. eapply wp_mono; [apply pushWithBackoff_wp|].
  intros r s3 (Hreg3 & Hl3 & _ & d & perr & -> & Hok & Hbad & Hnolb & Hother & Hkeyed3). cbn [on_ok].
  apply wp_bind, wp_on_genv, wp_call. intros w ? _. cbn [on_ok]. apply wp_ret. unfold round_post, at_rest.
  cbn [set_genv genv queue svcLock registry elog]. set (key := svcKey (qe_service e)) in *. split_and!.
  - by apply Hkeyed3.
  - intros k. by rewrite Hl3.
  - intros k e' lb Hk Hlb. destruct (decide (k = key)) as [->|Hne].
    + apply Hnolb in Hk as [Hk _]. congruence.
    + rewrite Hother in Hk by done. by eapply Hrules2.
  - congruence.
  - intros k e' Hk. destruct (decide (k = key)) as [->|Hne].
    + apply Hnolb in Hk as [_ Hk]. eauto.
    + rewrite Hother, Hq, lookup_delete_ne in Hk by done. eauto.
  - intros k e' Hk. destruct (decide (k = key)) as [->|Hne].
    + destruct perr as [perr|]; [|left; by apply Hok]. right. right.
      simplify_eq. rewrite <- Hreg. by apply Hbad.
    + left. rewrite Hother, Hq, lookup_delete_ne by done. eauto.
  - done.
  - by left.
Qed.

Lemma worker_round_wp cs fuel exitWhenDone expired t s :
  at_rest s → queued_rules (queue s) →
  wp (worker_round cs fuel exitWhenDone expired t) (round_post cs exitWhenDone t s) s.
Proof.
  intros Hrest Hrules. destruct (Hrest) as [Hkeyed Hfree]. unfold worker_round. apply wp_bind, wp_try.
  eapply wp_mono; [by apply pop_wp|]. intros r s1 Hpop. destruct r as [[e|]|err| |]; cbn [on_ok]; try by destruct Hpop as (?&?&?&?).
  - apply wp_bind, wp_try. eapply wp_mono; [by apply (pop_process cs fuel e s)|]. intros r s2 (Hnp & Ht).
    destruct r as [[]|err| |]; cbn [on_ok]; try done; specialize (Ht ltac:(done)).
    + by apply round_succeeded.
    + by apply round_failed.
  - destruct Hpop as (Hreg1 & Hl1 & _ & Hq1 & _). apply wp_ret. unfold round_post, at_rest. rewrite Hq1, Hl1. split_and!.
    1-4: done.
    + eauto.
    + intros k e Hk. left. by rewrite Hk.
    + apply nothing_popped_post.
    + destruct (nothing_popped_post exitWhenDone expired t) as [_ [?|[??]]]; [by left|by right].
Qed.

(** (C3) No update is lost: after a round of a worker every service that
    waited in the queue either waits there still, or was updated with success in
    this round, or has no node left that serves it.  The round never panics, adds
    no other service to the queue, leaves no lock behind, and ends the worker only when it
    was told to stop and there was nothing to take.  A worker whose timer can wake
    it never waits for a timer that has no expiry ahead, and can be woken again. *)
Theorem worker_round_loses_nothing cs fuel exitWhenDone expired t s
    (Hrest : at_rest s) (Hrules : queued_rules (queue s)) :
  wp (worker_round cs fuel exitWhenDone expired t) (round_post cs exitWhenDone t s) s.
Proof. by apply worker_round_wp. Qed.
End worker_facts.
