(* ===== verification/Workers.v ===== *)
(** * The loop of a worker (service_queue.go)

    A worker waits for the context, the stop channel or its timer, and then does
    a round.  Once it was told to stop it goes on until there is nothing to take
    from the queue: the drain that stopWait waits for. *)
From stdpp Require Import base list strings gmap sets.
From S2P Require Import Prelude GoStd Kube Cloud Config Balancer Nodes Panics State Queue.

(** What the select statement of the loop receives. *)
Inductive wakeup := CtxDone | StopCh | Timer.

Section loop.
Context {W} `{!Cloud W}.
Context (cs : CSCloud) (fuel : nat).

(** The loop from one select statement to the next; [expired]: a timer that runs
    expires before the worker stops it.  A timer that has no expiry ahead does
    not wake the worker. *)
Definition worker_step (w : wakeup) (expired : bool) (wk : worker) : M (state W) worker :=
  match wk with
  | Selecting exitWhenDone waitTimer =>
      match w with
      | CtxDone => mret Returned
      | StopCh => worker_round cs fuel true expired waitTimer
      | Timer =>
          match receive waitTimer with
          | Some waitTimer => worker_round cs fuel exitWhenDone expired (Timer_Reset waitTimer)
          | None => mret wk
          end
      end
  | Returned | Stuck => mret wk
  end.

(** The loop over the wake-ups that the worker gets. *)
Fixpoint worker_loop (wk : worker) (wakeups : list (wakeup * bool)) : M (state W) worker :=
  match wakeups with
  | [] => mret wk
  | (w, expired) :: wakeups => wk ← worker_step w expired wk; worker_loop wk wakeups
  end.
End loop.

(** The worker as start() launches it. *)
Definition new_worker : worker := Selecting false NewTimer.

(** ** Progress *)

(** The failed updates that a log records. *)
Definition is_failure (e : event) : bool :=
  match projT2 e with RecordEvent _ true _ => true | _ => false end.
Definition failures (l : list event) : nat := length (filter (λ e, is_failure e = true) l).

Lemma failures_app l1 l2 : failures (l1 ++ l2) = failures l1 + failures l2.
Proof. unfold failures. by rewrite filter_app, length_app. Qed.

Section progress.
Context {W} `{!Cloud W}.
Implicit Types (cs : CSCloud) (s : state W).

(** Nothing can be taken from the queue: it is empty or, unless the clock went
    backwards, every entry in it is backing off. *)
Definition drained s : Prop :=
  queue s = ∅ ∨ ∃ now now', clock_reads (W:=W) now now' ∧
    (now ≤ now' → ∀ k e, queue s !! k = Some e → now' < backoffUntil e)%Z.

(** A round that goes on took an entry, which only a failure puts back. *)
Lemma worker_round_progress cs fuel expired t s :
  at_rest s → queued_rules (queue s) →
  wp (worker_round cs fuel true expired t) (λ r s', ∀ wk, r = Ok wk →
    ∃ l, elog (genv s') = elog (genv s) ++ l ∧
      match wk with
      | Selecting _ _ => size (queue s') < size (queue s) + failures l
      | Returned => drained s'
      | Stuck => False
      end) s.
Proof.
  intros [Hkeyed Hfree] Hrules. unfold worker_round. apply wp_bind, wp_try.
  eapply wp_mono; [by apply pop_wp|].
  intros r s1 (Hreg1 & Hl1 & (l1 & Hlog1 & _) & Hr). destruct r as [[e|]|err| |]; cbn [on_ok]; try done.
  2: { apply wp_ret. intros wk [= <-]. exists l1. split; [done|]. simpl.
       destruct Hr as [Hq Hr]. unfold drained. by rewrite Hq. }
  destruct Hr as (Hke & Hq1 & _).
  assert (size (queue s) = S (size (queue s1))) as Hsize.
  { rewrite Hq1, map_size_delete_Some by eauto. destruct (size (queue s)) eqn:E; [|lia].
    apply map_size_empty_inv in E. rewrite E in Hke. by rewrite lookup_empty in Hke. }
  apply wp_bind, wp_try. eapply wp_mono.
  { apply processQueueEntry_wp; [by rewrite Hl1|]. intros lb Hlb. by eapply Hrules. }
  intros r s2 (_ & Ht & _ & Hq2 & _). apply touched_managed_extends in Ht as [l2 Hlog2].
  destruct r as [[]|err| |]; cbn [on_ok]; try done.
  - eapply wp_mono; [apply record_success_wp|]. intros r s3 (-> & _ & Hq3 & _ & Hlog3) wk [= <-].
    rewrite Hlog3, Hlog2, Hlog1, <- !app_assoc. eexists. split; [done|]. rewrite Hq3, Hq2. lia.
  - apply wp_bind. eapply wp_mono; [apply pushWithBackoff_wp|].
    intros r s3 (_ & _ & (l3 & Hlog3) & d & perr & -> & _ & _ & _ & Hother & _). cbn [on_ok].
    apply wp_bind, wp_on_genv, wp_call. intros w ? _. cbn [on_ok]. apply wp_ret.
    intros wk [= <-]. cbn [set_genv genv queue elog]. rewrite Hlog3, Hlog2, Hlog1.
    eexists. rewrite <- !app_assoc. split; [done|]. rewrite !failures_app.
    apply map_size_but_one in Hother. rewrite Hq2 in Hother.
    assert (failures [Ev (RecordEvent (qe_service e) true eventReasonUpdateFailed)] = 1) as -> by done. lia.
Qed.
End progress.

(** ** Draining *)

Section drain.
Context {W} `{!Cloud W}.
Implicit Types (cs : CSCloud) (s : state W).

(** What a run of a worker leaves of the services that waited before it. *)
Definition kept cs s s' : Prop :=
  ∀ k e, queue s !! k = Some e →
    is_Some (queue s' !! k) ∨ updated k s s' ∨ ¬ served cs (registry s) (qe_service e).

Lemma updated_mono k s1 s2 s3 s4 :
  extends s1 s2 → updated k s2 s3 → extends s3 s4 → updated k s1 s4.
Proof.
  intros [l1 H1] (l2 & svc & H2 & Hk & Hin) [l3 H3]. exists (l1 ++ l2 ++ l3), svc.
  rewrite H3, H2, H1, <- !app_assoc. split_and!; [done|done|set_solver].
Qed.

Lemma extends_refl s : extends s s.
Proof. exists []. by rewrite app_nil_r. Qed.

(** A round between two states of the loop, put together. *)
Lemma kept_trans cs s1 s2 s3 :
  extends s1 s2 → extends s2 s3 → registry s2 = registry s1 →
  (∀ k e', queue s2 !! k = Some e' → ∃ e, queue s1 !! k = Some e ∧ qe_service e' = qe_service e) →
  kept cs s1 s2 → kept cs s2 s3 → kept cs s1 s3.
Proof.
  intros Hx12 Hx23 Hreg Hq H12 H23 k e Hk.
  destruct (H12 k e Hk) as [[e' He']|[Hu|Hn]]; [|by right; left; eapply updated_mono; [apply extends_refl|..]|by right; right].
  destruct (H23 k e' He') as [?|[Hu|Hn]]; [by left| |].
  - right; left. eapply updated_mono; [done|done|apply extends_refl].
  - right; right. destruct (Hq k e' He') as (e0 & He0 & Hs). simplify_eq.
    by rewrite <- Hs, <- Hreg.
Qed.

(** The end of a run of a stopping worker over the wake-ups [ws]. *)
Definition drain_post cs (ws : list (wakeup * bool)) s (r : res worker) s' : Prop :=
  match r with
  | Ok wk => at_rest s' ∧ queued_rules (queue s') ∧ registry s' = registry s ∧ kept cs s s' ∧
      awake wk ∧
      ∃ l, elog (genv s') = elog (genv s) ++ l ∧
        match wk with
        | Selecting _ _ => length ws ≤ size (queue s) + failures l
        | Returned => CtxDone ∈ ws.*1 ∨ drained s'
        | Stuck => False
        end
  | Err _ | Panic _ => False
  | Blocked => True
  end.

Lemma kept_refl cs s : kept cs s s.
Proof. intros k e Hk. left. eauto. Qed.

Lemma worker_loop_returned cs fuel ws s : worker_loop cs fuel Returned ws s = (s, Ok Returned).
Proof. by induction ws as [|[w b] ws IH]. Qed.

Lemma drain_step cs fuel ws s :
  (∀ t s, at_rest s → queued_rules (queue s) → is_Some (receive t) →
    wp (worker_loop cs fuel (Selecting true t) ws) (drain_post cs ws s) s) →
  ∀ w expired t, at_rest s → queued_rules (queue s) → is_Some (receive t) →
  wp (wk ← worker_round cs fuel true expired t; worker_loop cs fuel wk ws)
    (drain_post cs (w :: ws) s) s.
Proof.
  intros IH w expired t Hrest Hrules Ht. apply wp_bind.
  eapply wp_mono; [by apply wp_and; [by apply (worker_round_wp _ _ _ expired t)|by apply worker_round_progress]|].
  intros r s1 [Hr Hp]. destruct r as [wk|e| |]; cbn [on_ok]; try done.
  destruct Hr as (Hrest1 & Hrules1 & Hreg1 & Hq1 & Hk1 & Ha1 & Hend1). specialize (Ha1 Ht).
  destruct (Hp wk eq_refl) as (l1 & Hl1 & Hgo). clear Hp.
  assert (extends s s1) as Hx by (by exists l1).
  destruct wk as [b t'| |]; [|..|done].
  - destruct Hend1 as [->|(_ & [=] & _)]. eapply wp_mono; [by apply IH|].
    intros r s2 Hd. destruct r as [wk|e| |]; try done.
    destruct Hd as (Hrest2 & Hrules2 & Hreg2 & Hk2 & Ha2 & l2 & Hl2 & Hend).
    assert (extends s1 s2) as Hx2 by (by exists l2).
    split_and!; [done|done|congruence|by eapply kept_trans|done|].
    exists (l1 ++ l2). rewrite Hl2, Hl1, app_assoc. split; [done|]. destruct wk; [| |done].
    + rewrite failures_app. simpl. lia.
    + destruct Hend; [left; by right|by right].
  - unfold wp. rewrite worker_loop_returned.
    split_and!; [done..|]. exists l1. split; [done|by right].
Qed.

Lemma worker_loop_wp cs fuel ws t s :
  at_rest s → queued_rules (queue s) → is_Some (receive t) →
  wp (worker_loop cs fuel (Selecting true t) ws) (drain_post cs ws s) s.
Proof.
  revert t s. induction ws as [|[w expired] ws IH]; intros t s Hrest Hrules Ht.
  { apply wp_ret. split_and!; [done|done|done|apply kept_refl|done|].
    exists []. rewrite app_nil_r. split; [done|]. simpl. lia. }
  destruct w; cbn [worker_loop worker_step].
  - unfold wp, mbind, M_bind. cbn. rewrite worker_loop_returned.
    split_and!; [done|done|done|apply kept_refl|done|].
    exists []. rewrite app_nil_r. split; [done|]. left. by left.
  - by apply drain_step.
  - destruct Ht as [t' ->]. apply drain_step; [done..|apply receive_Reset].
Qed.

(** (C9) A worker that was told to stop drains the queue and ends: as long as it
    has not returned, it can be woken up, and the number of its rounds is at most the number of services
    that waited plus the number of failed updates that it recorded.  When it
    returns, and not because its context is done, nothing can be taken from the
    queue any more; and every service that waited when it was told to stop waits
    still, was updated with success, or has no node left. *)
Theorem worker_drains cs fuel ws t s
    (Hrest : at_rest s) (Hrules : queued_rules (queue s)) (Ht : is_Some (receive t)) :
  wp (worker_loop cs fuel (Selecting true t) ws) (drain_post cs ws s) s.
Proof. by apply worker_loop_wp. Qed.
End drain.
