(* ===== verification/Hosts.v ===== *)
(** * The machines behind a rule

    What an update of a service achieves, against an interface: [RuleHosts] says
    what a CloudStack that keeps its word promises about the machines of its
    rules, for the listing, the assignment and the removal of machines, and that
    no other call touches them.  An update that succeeds then leaves the rule
    with exactly the machines of the registered nodes that serve the service,
    and the success that a worker records says so. *)
From stdpp Require Import base list strings gmap sets.
From S2P Require Import Prelude GoStd Kube Cloud Config Meta Pages ServiceLock Balancer Ports PublicIP Rule Nodes Panics State Queue Workers.

(** ** The interface *)

(** Page [n] of size [m] of a listing: the server cuts the list in pages, or
    answers the first request with all of it. *)
Definition page_of (cuts : bool) (n m : Z) (all : list string) (pg : page VirtualMachine) : Prop :=
  if cuts then
    Count pg = Z.of_nat (length all) ∧
    vm_Id <$> Items pg = take (Z.to_nat m) (drop (Z.to_nat (n - 1) * Z.to_nat m) all)
  else n = 1%Z → Count pg = Z.of_nat (length all) ∧ vm_Id <$> Items pg = all.

Definition deletes_rule (e : event) : Prop :=
  match projT2 e with CustomRequest _ _ _ KDeleteRule _ => True | _ => False end.
Definition no_deletion (e : event) : Prop := ¬ deletes_rule e.
#[export] Hint Extern 1 (no_deletion _) => (intros []) : ccm.

(** The machines of each rule, as the world keeps them. *)
Class RuleHosts (W : Type) `{!Cloud W} := {
  rule_hosts : W → string → list string;
  cuts_pages : bool;
  hosts_listed c p w w' pg n m :
    exec (ListLoadBalancerRuleInstances c p) w = (w', inr pg) →
    li_Page p = Some n → li_Pagesize p = Some m → (1 ≤ n)%Z → (1 ≤ m)%Z →
    page_of cuts_pages n m (rule_hosts w (li_Id p)) pg;
  hosts_assigned c i ids w w' rid :
    exec (AssignToLoadBalancerRule c i ids) w = (w', inr tt) →
    (list_to_set (rule_hosts w' rid) : gset string) =
      host_step rid (list_to_set (rule_hosts w rid)) (Ev (AssignToLoadBalancerRule c i ids));
  hosts_removed c i ids w w' rid :
    exec (RemoveFromLoadBalancerRule c i ids) w = (w', inr tt) →
    (list_to_set (rule_hosts w' rid) : gset string) =
      host_step rid (list_to_set (rule_hosts w rid)) (Ev (RemoveFromLoadBalancerRule c i ids));
  hosts_untouched {A} (e : ev A) w :
    not_host (Ev e) → no_deletion (Ev e) → rule_hosts (exec e w).1 = rule_hosts w;
  hosts_shuffle {A} (l : list A) w : rule_hosts (shuffle l w).1 = rule_hosts w;
}.

Section hosts.
Context {W} `{!Cloud W, !RuleHosts W}.

(** The set of machines of a rule. *)
Definition hosts_of (e : env W) (rid : string) : gset string := list_to_set (rule_hosts (ew e) rid).

(** ** Code that leaves the machines alone *)

Definition same_hosts (e e' : env W) : Prop := rule_hosts (ew e') = rule_hosts (ew e).

#[export] Instance same_hosts_preorder : PreOrder same_hosts.
Proof. split; [done|]. unfold same_hosts. intros ??? H1 H2. congruence. Qed.

Lemma same_hosts_of e e' rid : same_hosts e e' → hosts_of e' rid = hosts_of e rid.
Proof. unfold hosts_of. by intros ->. Qed.

Lemma call_same_hosts {A} (e : ev A) :
  not_host (Ev e) → no_deletion (Ev e) → preserves same_hosts (call e).
Proof.
  intros H1 H2 s. unfold call, same_hosts. pose proof (hosts_untouched e (ew s) H1 H2) as H.
  by destruct (exec e (ew s)).
Qed.

Lemma call_err_same_hosts {A} (e : ev (error + A)) :
  not_host (Ev e) → no_deletion (Ev e) → preserves same_hosts (call_err e).
Proof.
  intros H1 H2. apply preserves_bind; [apply _|by apply call_same_hosts|].
  intros a. apply preserves_of_sum. apply _.
Qed.

Lemma range_same_hosts {A} (l : list A) : preserves same_hosts (range l).
Proof.
  intros s. unfold range, same_hosts. pose proof (hosts_shuffle l (ew s)) as H.
  by destruct (shuffle l (ew s)).
Qed.

Definition same_lb_hosts (s s' : lbst W) : Prop := same_hosts (lenv s) (lenv s').
Definition same_st_hosts (s s' : state W) : Prop := same_hosts (genv s) (genv s').

#[export] Instance same_lb_hosts_preorder : PreOrder same_lb_hosts.
Proof. split; [intros s; unfold same_lb_hosts; reflexivity|]. intros s1 s2 s3 H1 H2. unfold same_lb_hosts in *. by etrans. Qed.
Definition same_reg_hosts (t t' : regst W) : Prop := same_hosts (renv t) (renv t').
#[export] Instance same_reg_hosts_preorder : PreOrder same_reg_hosts.
Proof. split; [intros s; unfold same_reg_hosts; reflexivity|]. intros s1 s2 s3 H1 H2. unfold same_reg_hosts in *. by etrans. Qed.
#[export] Instance same_st_hosts_preorder : PreOrder same_st_hosts.
Proof. split; [intros s; unfold same_st_hosts; reflexivity|]. intros s1 s2 s3 H1 H2. unfold same_st_hosts in *. by etrans. Qed.

Lemma on_env_same_hosts {A} (m : M (env W) A) : preserves same_hosts m → preserves same_lb_hosts (on_env m).
Proof. apply preserves_zoom. by intros s t. Qed.
Lemma modify_lb_same_hosts f : preserves same_lb_hosts (modify_lb f).
Proof. intros s. unfold same_lb_hosts. simpl. reflexivity. Qed.
Lemma on_renv_same_hosts {A} (m : M (env W) A) : preserves same_hosts m → preserves same_reg_hosts (on_renv m).
Proof. apply preserves_zoom. by intros s t. Qed.
Lemma on_registry_same_hosts {A} (m : M (regst W) A) :
  preserves same_reg_hosts m → preserves same_st_hosts (on_registry m).
Proof. apply preserves_zoom. by intros s t. Qed.
Lemma modify_queue_same_hosts f : preserves same_st_hosts (modify_queue f).
Proof. intros s. unfold same_st_hosts. simpl. reflexivity. Qed.
Lemma on_genv_same_hosts {A} (m : M (env W) A) : preserves same_hosts m → preserves same_st_hosts (on_genv m).
Proof. apply preserves_zoom. by intros s t. Qed.
End hosts.

#[export] Hint Resolve call_same_hosts call_err_same_hosts range_same_hosts on_env_same_hosts
  modify_lb_same_hosts on_genv_same_hosts on_renv_same_hosts on_registry_same_hosts
  modify_queue_same_hosts : ccm.

(** [preserve], also inside of the environment of a balancer or a provider. *)
Ltac keep_hosts :=
  repeat first [ progress preserve | apply on_env_same_hosts | apply on_genv_same_hosts
    | apply on_renv_same_hosts | apply on_registry_same_hosts ].

Section keepers.
Context {W} `{!Cloud W, !RuleHosts W}.

Lemma assignNetworksToRule_hosts nets : preserves same_lb_hosts (assignNetworksToRule (W:=W) nets).
Proof. unfold assignNetworksToRule, assignNetworkToRule, lb_client, the_lb, waitJob_nil. keep_hosts. Qed.

Lemma getLoadBalancer_hosts cs svc p nets : preserves same_hosts (getLoadBalancer (W:=W) cs svc p nets).
Proof.
  unfold getLoadBalancer, getLoadBalancerRule, getLoadBalancerRuleByName, getLoadBalancerByTags, only_rule, list_rules.
  keep_hosts.
Qed.

Lemma waitJob_hosts k c job (x : rtype k) : preserves same_hosts (waitJob (W:=W) c job x).
Proof. unfold waitJob, getFirstRawValue. keep_hosts. Qed.

Lemma serviceToLBPorts_hosts : preserves same_lb_hosts (serviceToLBPorts (W:=W)).
Proof.
  assert (∀ b proto l, preserves same_lb_hosts (convert_ports (W:=W) b proto l)) as Hports.
  { intros b proto l. induction l as [|sp l IH]; cbn [convert_ports]; unfold getTargetPort, the_lb; keep_hosts. }
  unfold serviceToLBPorts, the_lb. keep_hosts.
Qed.

Lemma updateLoadBalancerPool_hosts : preserves same_lb_hosts (updateLoadBalancerPool (W:=W)).
Proof.
  pose proof serviceToLBPorts_hosts. pose proof waitJob_hosts.
  assert (∀ c lb r ps infos pools p rsp, preserves same_hosts (update_pools (W:=W) c lb r ps infos pools p rsp)) as Hpools.
  { intros c lb r ps infos. induction infos as [|i infos IH]; intros; cbn [update_pools]; keep_hosts. }
  unfold updateLoadBalancerPool, lb_client, the_lb. keep_hosts.
Qed.

(** ** Listing *)

Lemma list_hosts c p (s : env W) n m (Q : res (page VirtualMachine) → env W → Prop) :
  li_Page p = Some n → li_Pagesize p = Some m → (1 ≤ n)%Z → (1 ≤ m)%Z →
  (∀ err s', same_hosts s s' → Q (Err err) s') →
  (∀ pg s', same_hosts s s' → page_of cuts_pages n m (rule_hosts (ew s) (li_Id p)) pg → Q (Ok pg) s') →
  wp (call_err (ListLoadBalancerRuleInstances c p)) Q s.
Proof.
  intros Hn Hm Hn1 Hm1 Herr Hok.
  pose proof (call_err_same_hosts (ListLoadBalancerRuleInstances c p) ltac:(intros []) ltac:(intros []) s) as Hs.
  revert Hs. unfold call_err, call, mbind, M_bind, wp. cbn.
  destruct (exec (ListLoadBalancerRuleInstances c p) (ew s)) as [w [err|pg]] eqn:E; cbn; intros Hs; [by apply Herr|].
  apply Hok; [done|]. by eapply hosts_listed.
Qed.

Lemma pages_loop_hosts fuel c p k m (result : list VirtualMachine) (s : env W) :
  li_Pagesize p = Some (Z.of_nat m) → 0 < m →
  (if cuts_pages then vm_Id <$> result = take (k * m) (rule_hosts (ew s) (li_Id p))
   else k = 0 ∧ result = []) →
  wp (pages_loop fuel c p (Z.of_nat k + 1) result) (λ r s', same_hosts s s' ∧
    ∀ l, r = Ok l → vm_Id <$> l = rule_hosts (ew s) (li_Id p)) s.
Proof.
  intros Hm Hm0. revert k p Hm result s. induction fuel as [|fuel IH]; intros k p Hm result s Hres; [done|].
  cbn [pages_loop]. apply wp_bind.
  eapply (list_hosts c (SetPage (Z.of_nat k + 1) p) s (Z.of_nat k + 1) (Z.of_nat m)); [done|done|lia|lia|..].
  { intros err s' Hs. by split. }
  intros pg s' Hs Hpg. cbn [on_ok]. change (li_Id (SetPage _ p)) with (li_Id p) in Hpg.
  set (all := rule_hosts (ew s) (li_Id p)) in *. unfold page_of in Hpg.
  destruct cuts_pages eqn:Hcuts.
  - destruct Hpg as [Hcount Hitems]. rewrite Nat2Z.id in Hitems.
    replace (Z.to_nat (Z.of_nat k + 1 - 1)) with k in Hitems by lia.
    assert (vm_Id <$> (result ++ Items pg) = take (S k * m) all) as Hall.
    { rewrite fmap_app, Hres, Hitems, take_take_drop. f_equal. lia. }
    assert (length (Items pg) = length (take m (drop (k * m) all))) as Hlen
      by by rewrite <- Hitems, length_fmap.
    rewrite length_take, length_drop in Hlen.
    case_decide as Hstop.
    + apply wp_ret. split; [done|]. intros l [= <-]. rewrite Hall. apply take_ge.
      apply (f_equal length) in Hall. rewrite length_fmap, length_take in Hall. lia.
    + replace (Z.of_nat k + 1 + 1)%Z with (Z.of_nat (S k) + 1)%Z by lia.
      eapply wp_mono; [apply (IH (S k) (SetPage (Z.of_nat k + 1) p))|]; [done|by rewrite Hs|].
      intros r s2 [Hs2 Hl]. split; [by etrans|]. intros l ->. rewrite (Hl l eq_refl). cbn. by rewrite Hs.
  - destruct Hres as [-> ->]. destruct (Hpg eq_refl) as [Hcount Hitems].
    assert (length (Items pg) = length all) as Hlen by by rewrite <- Hitems, length_fmap.
    rewrite decide_True by (right; simpl; lia). apply wp_ret. split; [done|]. by intros l [= <-].
Qed.

(** The machines that are listed for a rule are its machines. *)
Lemma listAllLBInstancesPages_hosts fuel c rid (s : env W) :
  wp (listAllLBInstancesPages fuel c {| li_Id := rid; li_Page := None; li_Pagesize := None |})
    (λ r s', same_hosts s s' ∧
      ∀ l, r = Ok l → NoDup (vm_Id <$> l) ∧ (list_to_set (vm_Id <$> l) : gset string) = hosts_of s rid) s.
Proof.
  unfold listAllLBInstancesPages, listAllPagesUnsafe. apply wp_bind.
  eapply wp_mono; [apply (pages_loop_hosts fuel c _ 0 50); [done|lia|by destruct cuts_pages]|].
  intros r s' [Hs Hl]. destruct r as [l|e|x|]; cbn [on_ok]; try by split.
  apply wp_ret. split; [done|]. intros l' [= <-]. specialize (Hl l eq_refl).
  destruct (dedup_spec (P:=ListLoadBalancerRuleInstancesParams) l) as (Hsub & Hnd & Hin).
  change (ID <$> dedup l) with (vm_Id <$> dedup l) in *. split; [exact Hnd|].
  unfold hosts_of. change (li_Id (SetPagesize 50 {| li_Id := rid; li_Page := None; li_Pagesize := None |})) with rid in Hl.
  rewrite <- Hl. apply set_eq. intros i. rewrite !elem_of_list_to_set, !list_elem_of_fmap. split.
  - intros (x & -> & Hx). exists x. split; [done|]. by eapply elem_of_submseteq.
  - intros (x & -> & Hx). specialize (Hin x Hx). by apply list_elem_of_fmap in Hin.
Qed.
End keepers.

(** ** Bringing a rule in line *)

Section sync.
Context {W} `{!Cloud W, !RuleHosts W}.

(** A call that changes machines, when it succeeds. *)
Definition changes_hosts (e : ev (error + unit)) : Prop := ∀ w w' rid, exec e w = (w', inr tt) →
  (list_to_set (rule_hosts w' rid) : gset string) = host_step rid (list_to_set (rule_hosts w rid)) (Ev e).

Lemma change_hosts (e : ev (error + unit)) (Q : res unit → env W → Prop) s :
  changes_hosts e →
  (∀ err s', Q (Err err) s') →
  (∀ s', (∀ rid, hosts_of s' rid = host_step rid (hosts_of s rid) (Ev e)) → Q (Ok tt) s') →
  wp (call_err e) Q s.
Proof.
  intros He Herr Hok. apply wp_call_err; intros w a Hw; [apply Herr|]. destruct a. apply Hok.
  intros rid. by apply He.
Qed.

Section on_rule.
Context (s : lbst W) (c : client) (r : loadBalancerRule).
Context (Hc : getClient (cloud (lobj s)) = inr c) (Hr : rule (lobj s) = Some r).

Lemma assignHostsToRule_hosts assign :
  wp (assignHostsToRule assign) (λ res s', lobj s' = lobj s ∧
    (res = Ok tt → hosts_of (lenv s') (lbr_Id r) = hosts_of (lenv s) (lbr_Id r) ∪ list_to_set assign)) s.
Proof using Hc Hr.
  unfold assignHostsToRule. apply wp_bind. unfold wp at 1. simpl.
  apply wp_bind, wp_lb_client. rewrite Hc, Hr. simpl. apply wp_bind, wp_ret. simpl.
  apply wp_wrap, wp_on_env, change_hosts; [intros w w' rid; apply hosts_assigned|by split|].
  intros s' Hs. split; [done|]. intros _. cbn [lenv]. rewrite Hs. unfold host_step. simpl. by rewrite decide_True.
Qed.

Lemma removeHostsFromRule_hosts remove :
  wp (removeHostsFromRule remove) (λ res s', lobj s' = lobj s ∧
    (res = Ok tt → hosts_of (lenv s') (lbr_Id r) = hosts_of (lenv s) (lbr_Id r) ∖ list_to_set remove)) s.
Proof using Hc Hr.
  unfold removeHostsFromRule. apply wp_bind. unfold wp at 1. simpl.
  apply wp_bind, wp_lb_client. rewrite Hc, Hr. simpl. apply wp_bind, wp_ret. simpl.
  apply wp_wrap, wp_on_env, change_hosts; [intros w w' rid; apply hosts_removed|by split|].
  intros s' Hs. split; [done|]. intros _. cbn [lenv]. rewrite Hs. unfold host_step. simpl. by rewrite decide_True.
Qed.

(** The two phases of a synchronisation. *)
Lemma remove_phase_hosts remove :
  wp (if decide (0 < length remove) then removeHostsFromRule remove else mret tt)
    (λ res s', res = Ok tt →
      hosts_of (lenv s') (lbr_Id r) = hosts_of (lenv s) (lbr_Id r) ∖ list_to_set remove) s.
Proof using Hc Hr.
  case_decide as Hlen.
  - eapply wp_mono; [apply removeHostsFromRule_hosts|]. naive_solver.
  - apply wp_ret. intros _. destruct remove; [set_solver|simpl in Hlen; lia].
Qed.
End on_rule.

Lemma assign_phase_hosts s c r nets assign :
  getClient (cloud (lobj s)) = inr c → rule (lobj s) = Some r →
  wp (if decide (0 < length assign) then assignNetworksToRule nets ;; assignHostsToRule assign else mret tt)
    (λ res s', lobj s' = lobj s ∧ (res = Ok tt →
      hosts_of (lenv s') (lbr_Id r) = hosts_of (lenv s) (lbr_Id r) ∪ list_to_set assign)) s.
Proof.
  intros Hc Hr. case_decide as Hlen.
  - apply wp_bind. eapply wp_mono.
    { apply wp_and; [eapply (preserves_wp (lb_keeps not_host)), assignNetworksToRule_keeps
                    |apply (preserves_wp same_lb_hosts), assignNetworksToRule_hosts]. }
    intros res s1 [[Ho _] Hs]. destruct res as [[]|e|x|]; cbn [on_ok]; try by split.
    rewrite <- Ho in Hc, Hr. eapply wp_mono; [by eapply assignHostsToRule_hosts|].
    intros res s2 [Ho2 Hh]. split; [congruence|]. intros Hok. rewrite (Hh Hok).
    by rewrite (same_hosts_of _ _ _ Hs).
  - apply wp_ret. split; [done|]. intros _. destruct assign; [set_solver|simpl in Hlen; lia].
Qed.

(** A synchronisation that succeeds leaves the rule with the wanted machines. *)
Lemma syncNodes_hosts fuel hostIDs nets (s : lbst W) r :
  rule (lobj s) = Some r →
  wp (syncNodes fuel hostIDs nets) (λ res s', res = Ok tt →
    hosts_of (lenv s') (lbr_Id r) = list_to_set hostIDs) s.
Proof.
  intros Hr. unfold syncNodes. apply wp_bind, wp_lb_client.
  destruct (getClient (cloud (lobj s))) as [e|c] eqn:Hc; [done|]. cbn [on_ok].
  apply wp_bind. unfold wp at 1. cbn [fst snd on_ok the_lb gets]. rewrite Hr. apply wp_bind, wp_ret. cbn [on_ok].
  apply wp_bind, wp_wrap, wp_on_env. eapply wp_mono; [apply listAllLBInstancesPages_hosts|].
  intros res e1 [Hs1 Hl]. destruct res as [vms|err|x|]; cbn [on_ok]; try done.
  destruct (Hl vms eq_refl) as [Hnd Hcur]. clear Hl.
  apply wp_bind, wp_on_env. eapply wp_mono.
  { apply wp_and; [by apply symmetricDifference_spec|]. apply (preserves_wp same_hosts).
    unfold symmetricDifference. keep_hosts. }
  intros res e2 [(_ & assign & remove & -> & Ha & Hrm) Hs2]. cbn [on_ok lenv lobj] in *.
  apply wp_bind. eapply wp_mono; [by eapply assign_phase_hosts|].
  intros res s3 [Ho3 Hh3]. destruct res as [[]|err|x|]; cbn [on_ok]; try done. specialize (Hh3 eq_refl).
  cbn [lobj lenv] in *. eapply wp_mono; [eapply (remove_phase_hosts s3 c r); by rewrite Ho3|].
  intros res s4 Hh4 Hok. rewrite (Hh4 Hok), Hh3, (same_hosts_of _ _ _ Hs2), (same_hosts_of _ _ _ Hs1), <- Hcur, Ha, Hrm.
  apply set_eq. intros i.
  destruct (decide (i ∈ (list_to_set hostIDs : gset string))), (decide (i ∈ (list_to_set (vm_Id <$> vms) : gset string)));
    set_solver.
Qed.
End sync.

(** ** Processing an entry *)

Section update.
Context {W} `{!Cloud W, !RuleHosts W}.
Implicit Types (cs : CSCloud) (s : state W).

(** The machines of the registered nodes that serve a service. *)
Definition wanted_machines cs svc (r : nodeRegistry) : gset string :=
  list_to_set (vmID <$> filter (serves cs svc) (map_to_list (nodes r)).*2).

(** What the success of an update from [s] to [s'] means, by the balancer that
    the entry has or that CloudStack shows in [s]. *)
Definition brought_in_line cs (e : queueEntry) s s' : Prop :=
  match entry_shown cs e s with
  | Some lb =>
      match entry_rule e lb with
      | Some r => wanted_machines cs (qe_service e) (registry s) ≠ ∅ ∧
          hosts_of (genv s') (lbr_Id r) = wanted_machines cs (qe_service e) (registry s)
      | None => qe_lb e = None ∧ same_st_hosts s s'
      end
  | None => False
  end.

Lemma entry_lb_hosts cs e nets p : preserves same_st_hosts (entry_lb (W:=W) cs e nets p).
Proof.
  pose proof getLoadBalancer_hosts. unfold entry_lb. keep_hosts.
Qed.

Lemma update_lb_hosts fuel b hostIDs nets lb r s :
  rule lb = Some r →
  wp (with_lb lb (update_lb fuel b hostIDs nets)) (λ res s', registry s' = registry s ∧
    ∀ x, res = Ok x → hosts_of (genv s') (lbr_Id r) = list_to_set hostIDs) s.
Proof.
  intros Hr. apply wp_with_lb. unfold update_lb. apply wp_bind.
  eapply wp_mono; [by apply (syncNodes_hosts fuel hostIDs nets (LB (genv s) lb) r)|].
  intros res t Hh. destruct res as [[]|e|x|]; cbn [on_ok]; try (split; [done|by intros ? [=]]).
  specialize (Hh eq_refl). destruct b; [|apply wp_ret; by split].
  eapply wp_mono; [apply (preserves_wp same_lb_hosts), updateLoadBalancerPool_hosts|].
  intros res t' Hs. split; [by destruct res|]. intros x _. cbn [genv set_genv].
  by rewrite (same_hosts_of _ _ _ Hs).
Qed.

(** The machines of the nodes that were found. *)
Lemma nodes_machines cs svc (r : nodeRegistry) l :
  l ≡ₚ filter (serves cs svc) (map_to_list (nodes r)).*2 → l ≠ [] →
  (list_to_set (idsForNodes l).1.1 : gset string) = wanted_machines cs svc r ∧ wanted_machines cs svc r ≠ ∅.
Proof.
  intros Hp Hne. unfold wanted_machines. rewrite <- Hp.
  assert ((idsForNodes l).1.1 = vmID <$> l) as -> by by destruct l. split; [done|].
  destruct l as [|n l]; [done|]. cbn. set_solver.
Qed.

Lemma nodesForService_hosts cs svc : preserves same_reg_hosts (nodesForService (W:=W) cs svc).
Proof. unfold nodesForService. keep_hosts. Qed.

Lemma pop_hosts : preserves same_st_hosts (pop (W:=W)).
Proof.
  assert (∀ l, preserves same_st_hosts (extend_entries (W:=W) l)) as Hext.
  { intros l. induction l as [|[k e] l IH]; cbn [extend_entries]; unfold nodesContainingService; keep_hosts. }
  unfold pop. keep_hosts.
Qed.

Lemma processQueueEntry_hosts cs fuel e s :
  wp (processQueueEntry cs fuel e) (λ res s', res = Ok tt → brought_in_line cs e s s') s.
Proof.
  apply with_lock_ok; [done|].
  intros l. apply wp_bind, wp_on_registry. eapply wp_run.
  { apply wp_and; [apply nodesForService_spec|apply (preserves_wp same_reg_hosts), nodesForService_hosts]. }
  intros res t E ((Hreg & _ & Hpost) & Hs0). cbn [reg renv registry genv set_svcLock] in *.
  destruct res as [ns|err|x|]; cbn [on_ok]; try done. destruct Hpost as [Hne Hp].
  destruct (nodes_machines cs _ _ ns Hp Hne) as [Hids Hwanted].
  pose proof (entry_shown_found cs e s t ns E) as Hshown. unfold brought_in_line.
  destruct (idsForNodes ns) as [[hostIDs nets] p]. cbn [fst] in Hids. rewrite Hshown. clear Hshown.
  apply wp_bind. eapply wp_mono.
  { apply wp_and; [apply (preserves_wp same_st_hosts), entry_lb_hosts|apply entry_lb_spec]. }
  intros res s1 [Hs1 (_ & _ & (Hreg1 & _) & _ & Hlb)]. cbn [registry genv] in *.
  unfold entry_found in *. cbn [genv] in *.
  destruct (match qe_lb e with Some lb => Ok lb | None => _ end) as [lb|err| |]; [|by subst res|done..].
  destruct Hlb as [-> _]. unfold entry_update. destruct (qe_lb e) as [x|] eqn:Hx; cbn [on_ok].
  - unfold entry_rule. rewrite Hx. destruct (rule lb) as [r|] eqn:Hr.
    + apply wp_bind. eapply wp_mono; [by eapply update_lb_hosts|].
      intros res s2 [Hreg2 Hh]. destruct res as [y|err|y|]; cbn [on_ok]; try done.
      apply wp_ret. intros _. split; [done|]. by rewrite (Hh y eq_refl), Hids.
    + (* without a rule the update panics *)
      apply wp_bind, wp_with_lb. unfold update_lb, syncNodes. apply wp_bind, wp_bind, wp_lb_client.
      cbn [lobj]. destruct (getClient (cloud lb)); [done|]. cbn [on_ok]. apply wp_bind. unfold wp at 1.
      cbn [fst snd on_ok the_lb gets lobj]. by rewrite Hr.
  - destruct (entry_rule e lb) as [r|] eqn:Her; cbn [on_ok].
    + assert (rule lb = Some r) as Hr by (unfold entry_rule in Her; rewrite Hx in Her; by destruct (shouldManageLB lb)).
      apply wp_bind. eapply wp_mono; [by eapply update_lb_hosts|].
      intros res s2 [Hreg2 Hh]. destruct res as [y|err|y|]; cbn [on_ok]; try done.
      apply wp_ret. intros _. split; [done|]. by rewrite (Hh y eq_refl), Hids.
    + apply wp_ret. intros _. split; [done|]. unfold same_st_hosts in *. by etrans.
Qed.

(** ** What a recorded success means *)

Definition success_of (svc : Service) : event := Ev (RecordEvent svc false eventReasonUpdateSuccess).

Definition recorded (e : event) : option Service :=
  match projT2 e with RecordEvent svc false _ => Some svc | _ => None end.

(** Not the record of a success. *)
Definition quiet (e : event) : Prop := ∀ svc, e ≠ success_of svc.

Lemma quiet_intro e : match projT2 e with RecordEvent _ false _ => False | _ => True end → quiet e.
Proof. intros He svc ->. exact He. Qed.
#[local] Hint Extern 1 (quiet _) => (apply quiet_intro; exact I) : ccm.

Lemma reads_quiet e : reads_only e → quiet e.
Proof. intros [_ He]. apply quiet_intro. by destruct (projT2 e). Qed.

Lemma touches_quiet rid e : touches rid e → quiet e.
Proof. intros [He|He]; [by apply reads_quiet|]. apply quiet_intro. by destruct (projT2 e). Qed.

Lemma touched_managed_quiet cs e s s' : touched_managed cs e s s' → st_logs quiet s s'.
Proof.
  unfold touched_managed. destruct (_ ≫= _); intros H; (eapply logs_mono; [|exact H]);
    eauto using reads_quiet, touches_quiet.
Qed.

Lemma pushWithBackoff_quiet cs e : preserves (st_logs quiet) (pushWithBackoff (W:=W) cs e).
Proof.
  assert (∀ e, preserves (st_logs quiet) (push (W:=W) cs e)) as Hpush.
  { intros e' s'. pose proof (push_wp cs e' s') as (_ & _ & H & _). exists []. rewrite app_nil_r. by split. }
  unfold pushWithBackoff. preserve; apply preserves_on_genv, preserves_call, quiet_intro, I.
Qed.

Lemma st_logs_one {A} (P : event → Prop) (ev : ev A) (w : W) s :
  P (Ev ev) → st_logs P s (set_genv (Env w (elog (genv s) ++ [Ev ev])) s).
Proof. intros He. exists [Ev ev]. split; [done|by repeat constructor]. Qed.

Lemma brought_frame cs e s s2 s3 :
  same_st_hosts s2 s3 → brought_in_line cs e s s2 → brought_in_line cs e s s3.
Proof.
  intros H3. unfold brought_in_line. destruct (entry_shown cs e s) as [lb|]; [|done].
  destruct (entry_rule e lb) as [r|].
  - intros [Hw Hh]. split; [done|]. by rewrite (same_hosts_of _ _ _ H3).
  - intros [Hn H2]. split; [done|]. by etrans.
Qed.

(** Recording a success leaves the machines alone. *)
Lemma record_success_hosts {A} svc (a : A) :
  preserves same_st_hosts (on_genv (call (RateLimiterForget (svcKey svc))) ;;
    on_genv (call (RecordEvent svc false eventReasonUpdateSuccess)) ;; mret a).
Proof. keep_hosts. Qed.

(** The calls of a round: a success is recorded for the entry that was taken
    and processed, and for no other service. *)
Lemma worker_round_success cs fuel b expired t s :
  at_rest s → queued_rules (queue s) →
  wp (worker_round cs fuel b expired t) (λ r s', r ≠ Blocked → ∃ l, elog (genv s') = elog (genv s) ++ l ∧
    ∀ svc, success_of svc ∈ l →
      ∃ e, (pop s).2 = Ok (Some e) ∧ queue s !! svcKey svc = Some e ∧ qe_service e = svc ∧
        brought_in_line cs e (pop s).1 s') s.
Proof.
  intros [Hkeyed Hfree] Hrules.
  assert (∀ s', st_logs quiet s s' → ∃ l, elog (genv s') = elog (genv s) ++ l ∧
    ∀ svc, success_of svc ∈ l → ∃ e, (pop s).2 = Ok (Some e) ∧ queue s !! svcKey svc = Some e ∧ qe_service e = svc ∧
        brought_in_line cs e (pop s).1 s')
    as Hquiet.
  { intros s' (l & Hl & HF). exists l. split; [done|]. intros svc Hin. rewrite Forall_forall in HF.
    by destruct (HF _ Hin svc). }
  unfold worker_round. apply wp_bind, wp_try. eapply wp_run; [by apply pop_wp|].
  intros r s1 E (Hreg1 & Hl1 & Hlog1 & Hr).
  assert (st_logs quiet s s1) as Hq1.
  { eapply logs_mono; [|exact Hlog1]. intros ? ->. by apply quiet_intro. }
  destruct r as [[e|]|err| |]; cbn [on_ok]; try done; [|apply wp_ret; intros _; by apply Hquiet].
  rewrite E in Hquiet |- *. cbn [fst snd] in *. destruct Hr as (Hke & Hqu1 & _). set (key := svcKey (qe_service e)) in *.
  apply wp_bind, wp_try. eapply wp_mono.
  { apply wp_and; [apply processQueueEntry_hosts|].
    apply processQueueEntry_wp; [by rewrite Hl1|]. intros lb Hlb. by eapply Hrules. }
  intros r s2 (Hline & _ & Ht & _). apply touched_managed_quiet in Ht as Hq2.
  destruct r as [[]|err|x|]; cbn [on_ok]; [|..|done].
  - eapply wp_mono; [apply wp_and; [apply record_success_wp|apply (preserves_wp same_st_hosts), record_success_hosts]|].
    intros r s3 [(_ & _ & _ & _ & Hlog3) Hs3] _.
    destruct (transitivity Hq1 Hq2) as (l & Hl & HF).
    exists (l ++ [Ev (RateLimiterForget key); success_of (qe_service e)]).
    rewrite Hlog3, Hl, <- !app_assoc. split; [done|].
    intros svc [Hin|Hin]%elem_of_app; [rewrite Forall_forall in HF; by destruct (HF _ Hin svc)|].
    assert (svc = qe_service e) as ->.
    { apply elem_of_cons in Hin as [Hin|Hin%list_elem_of_singleton]; apply (f_equal recorded) in Hin; [done|].
      by injection Hin. }
    exists e. split_and!; [done..|]. eapply brought_frame; [exact Hs3|by apply Hline].
  - apply wp_bind. eapply wp_mono.
    { apply wp_and; [apply (preserves_wp (st_logs quiet)), pushWithBackoff_quiet|apply pushWithBackoff_wp]. }
    intros r s3 (Hq3 & _ & _ & _ & d & perr & -> & _). cbn [on_ok].
    apply wp_bind, wp_on_genv, wp_call. intros w [] _. cbn [on_ok]. apply wp_ret. intros _. apply Hquiet.
    do 3 (etrans; [eassumption|]). by apply st_logs_one, quiet_intro.
  - intros _. apply Hquiet. by etrans.
Qed.

(** (C4) What a recorded success means: against a CloudStack that keeps its word,
    a worker records the success of an update only for the service whose entry
    it took.  When the entry has a balancer, or CloudStack shows one with a rule of
    the provider's in the project of the nodes, then at the end of that round this
    rule has exactly the machines of the registered nodes that serve the service,
    of which there is at least one.  The one other success that is recorded is for
    an entry without a balancer for which that lookup answered with no rule, or one
    that is not the provider's: then the machines of every rule are as they
    were.  Errors, empty registries and waits are never recorded as a success. *)
Theorem recorded_success cs fuel b expired t s
    (Hrest : at_rest s) (Hrules : queued_rules (queue s)) :
  wp (worker_round cs fuel b expired t) (λ r s', r ≠ Blocked → ∃ l, elog (genv s') = elog (genv s) ++ l ∧
    ∀ svc, success_of svc ∈ l →
      ∃ e, (pop s).2 = Ok (Some e) ∧ queue s !! svcKey svc = Some e ∧ qe_service e = svc ∧
        brought_in_line cs e (pop s).1 s') s.
Proof. by apply worker_round_success. Qed.
End update.
