(* ===== verification/Converge.v ===== *)
(** * Updates come through

    The other side of Hosts: a CloudStack that accepts the calls of an update
    ([Obliging]) lets it succeed: an entry then takes one round of a worker, and
    the rule has the wanted machines. *)
From stdpp Require Import base list strings gmap sets.
From S2P Require Import Prelude GoStd Kube Cloud Config Meta Pages ServiceLock Balancer Ports PublicIP Rule Nodes Panics State Queue Hosts.

(** The calls that an update makes are answered with success, for machines that
    CloudStack accepts. *)
Class Obliging (W : Type) `{!Cloud W} := {
  accepted : string → Prop;
  lists c p w : ∃ w' pg, exec (ListLoadBalancerRuleInstances c p) w = (w', inr pg);
  assigns c i ids w : Forall accepted ids → ∃ w', exec (AssignToLoadBalancerRule c i ids) w = (w', inr tt);
  removes c i ids w : Forall accepted ids → ∃ w', exec (RemoveFromLoadBalancerRule c i ids) w = (w', inr tt);
  networks c cmd p r w : ∃ w' j, exec (CustomRequest c cmd p KJob r) w = (w', inr j);
  jobs c j t w : ∃ w' d, exec (GetAsyncJobResult c j t) w = (w', inr d);
}.

Section converge.
Context {W} `{!Cloud W, !RuleHosts W, !Obliging W}.

(** A call that is accepted. *)
Lemma wp_accepted {A} (e : ev (error + A)) (Q : res A → env W → Prop) s :
  (∃ w a, exec e (ew s) = (w, inr a)) →
  (∀ w a, exec e (ew s) = (w, inr a) → Q (Ok a) (Env w (elog s ++ [Ev e]))) →
  wp (call_err e) Q s.
Proof.
  intros (w & a & He) HQ. apply wp_call_err; intros w' x Hx; [|by apply HQ].
  rewrite He in Hx. discriminate Hx.
Qed.

(** ** Listing *)

(** One unit of fuel per page is enough. *)
Lemma pages_loop_total fuel c p k m (result : list VirtualMachine) (s : env W) :
  li_Pagesize p = Some (Z.of_nat m) → 0 < m → 0 < fuel →
  length (rule_hosts (ew s) (li_Id p)) ≤ (k + fuel) * m →
  (if cuts_pages then vm_Id <$> result = take (k * m) (rule_hosts (ew s) (li_Id p))
   else k = 0 ∧ result = []) →
  wp (pages_loop fuel c p (Z.of_nat k + 1) result) (λ r _, ∃ l, r = Ok l) s.
Proof.
  intros Hm Hm0. revert k p Hm result s. induction fuel as [|fuel IH]; intros k p Hm result s Hf Hlen Hres; [lia|].
  cbn [pages_loop]. apply wp_bind, wp_accepted; [apply lists|]. intros w pg Hw. cbn [on_ok].
  pose proof (hosts_untouched (ListLoadBalancerRuleInstances c (SetPage (Z.of_nat k + 1) p)) (ew s)
    ltac:(intros []) ltac:(intros [])) as Hs.
  change (list_page c (SetPage (Z.of_nat k + 1) p)) with
    (ListLoadBalancerRuleInstances c (SetPage (Z.of_nat k + 1) p)) in Hw.
  pose proof (hosts_listed c (SetPage (Z.of_nat k + 1) p) _ _ _ (Z.of_nat k + 1) (Z.of_nat m) Hw
    eq_refl Hm ltac:(lia) ltac:(lia)) as Hpg.
  rewrite Hw in Hs. cbn [fst] in Hs. change (li_Id (SetPage _ p)) with (li_Id p) in Hpg.
  set (all := rule_hosts (ew s) (li_Id p)) in *. unfold page_of in Hpg.
  case_decide as Hstop; [by apply wp_ret; eexists|].
  destruct cuts_pages eqn:Hcuts.
  - destruct Hpg as [Hcount Hitems]. rewrite Nat2Z.id in Hitems.
    replace (Z.to_nat (Z.of_nat k + 1 - 1)) with k in Hitems by lia.
    assert (vm_Id <$> (result ++ Items pg) = take (S k * m) all) as Hall.
    { rewrite fmap_app, Hres, Hitems, take_take_drop. f_equal. lia. }
    assert (length (result ++ Items pg) = Nat.min (S k * m) (length all)) as Hn.
    { rewrite <- (length_fmap vm_Id), Hall. apply length_take. }
    replace (Z.of_nat k + 1 + 1)%Z with (Z.of_nat (S k) + 1)%Z by lia.
    apply (IH (S k) (SetPage (Z.of_nat k + 1) p)); [done|..].
    + destruct fuel; [|lia]. exfalso. apply Hstop. right. lia.
    + cbn [ew]. change (li_Id (SetPage _ p)) with (li_Id p). rewrite Hs. fold all. lia.
    + cbn [ew]. change (li_Id (SetPage _ p)) with (li_Id p). rewrite Hs. exact Hall.
  - destruct Hres as [-> ->]. destruct (Hpg eq_refl) as [Hcount Hitems].
    exfalso. apply Hstop. right. rewrite Hcount, <- Hitems, length_fmap. simpl. lia.
Qed.

Lemma listAllLBInstancesPages_total fuel c rid (s : env W) :
  0 < fuel → length (rule_hosts (ew s) rid) ≤ fuel * 50 →
  wp (listAllLBInstancesPages fuel c {| li_Id := rid; li_Page := None; li_Pagesize := None |})
    (λ r _, ∃ l, r = Ok l) s.
Proof.
  intros Hf Hlen. unfold listAllLBInstancesPages, listAllPagesUnsafe. apply wp_bind.
  eapply wp_mono; [apply (pages_loop_total fuel c _ 0 50); [done|lia|done|exact Hlen|by destruct cuts_pages]|].
  intros r s' [l ->]. cbn [on_ok]. apply wp_ret. by eexists.
Qed.

(** ** Bringing a rule in line *)

Section on_rule.
Context (c : client) (r : loadBalancerRule).

Definition on_balancer (s : lbst W) : Prop :=
  getClient (cloud (lobj s)) = inr c ∧ rule (lobj s) = Some r.

Lemma assignNetworkToRule_accepted net (s : lbst W) : on_balancer s →
  wp (assignNetworkToRule net) (λ res s', res = Ok tt ∧ lobj s' = lobj s) s.
Proof.
  intros [Hc Hr]. unfold assignNetworkToRule. apply wp_bind. unfold wp at 1. cbn [fst snd on_ok the_lb gets].
  rewrite Hr. apply wp_bind, wp_ret. cbn [on_ok]. apply wp_bind, wp_lb_client. rewrite Hc. cbn [on_ok].
  apply wp_bind, wp_wrap, wp_on_env, wp_accepted; [apply networks|]. intros w j _. cbn [on_ok].
  case_decide; [|by apply wp_ret]. apply wp_bind, wp_on_env, wp_try. unfold waitJob_nil.
  apply wp_bind, wp_accepted; [apply jobs|]. intros w' d _. cbn [on_ok]. by apply wp_ret.
Qed.

Lemma assignNetworksToRule_accepted nets (s : lbst W) : on_balancer s →
  wp (assignNetworksToRule nets) (λ res s', res = Ok tt ∧ lobj s' = lobj s) s.
Proof.
  intros Hb. unfold assignNetworksToRule. apply wp_bind. unfold wp at 1. cbn [fst snd on_ok the_lb gets].
  case_decide; [by apply wp_ret|]. apply (wp_for_each (λ _ s', lobj s' = lobj s)); [done| |done].
  intros net l s' Hs. eapply wp_mono; [apply assignNetworkToRule_accepted; unfold on_balancer; by rewrite Hs|].
  intros res s2 [-> Ho]. cbn [on_ok]. congruence.
Qed.

Lemma assignHostsToRule_accepted ids (s : lbst W) : on_balancer s → Forall accepted ids →
  wp (assignHostsToRule ids) (λ res s', res = Ok tt ∧ lobj s' = lobj s) s.
Proof.
  intros [Hc Hr] Hids. unfold assignHostsToRule. apply wp_bind. unfold wp at 1. cbn [fst snd on_ok the_lb gets].
  apply wp_bind, wp_lb_client. rewrite Hc, Hr. apply wp_bind, wp_ret. cbn [on_ok].
  apply wp_wrap, wp_on_env, wp_accepted; [|by intros w [] _].
  destruct (assigns c (lbr_Id r) ids (ew (lenv s)) Hids) as [w' Hw]. by exists w', tt.
Qed.

Lemma removeHostsFromRule_accepted ids (s : lbst W) : on_balancer s → Forall accepted ids →
  wp (removeHostsFromRule ids) (λ res s', res = Ok tt ∧ lobj s' = lobj s) s.
Proof.
  intros [Hc Hr] Hids. unfold removeHostsFromRule. apply wp_bind. unfold wp at 1. cbn [fst snd on_ok the_lb gets].
  apply wp_bind, wp_lb_client. rewrite Hc, Hr. apply wp_bind, wp_ret. cbn [on_ok].
  apply wp_wrap, wp_on_env, wp_accepted; [|by intros w [] _].
  destruct (removes c (lbr_Id r) ids (ew (lenv s)) Hids) as [w' Hw]. by exists w', tt.
Qed.

Lemma accepted_subset (X : gset string) (l l' : list string) :
  (list_to_set l : gset string) = list_to_set l' ∖ X → Forall accepted l' → Forall accepted l.
Proof. rewrite !Forall_forall. intros Hl Hacc i Hi. apply Hacc. set_solver. Qed.

Lemma syncNodes_accepted fuel hostIDs nets (s : lbst W) :
  on_balancer s → Forall accepted hostIDs → Forall accepted (rule_hosts (ew (lenv s)) (lbr_Id r)) →
  0 < fuel → length (rule_hosts (ew (lenv s)) (lbr_Id r)) ≤ fuel * 50 →
  wp (syncNodes fuel hostIDs nets) (λ res s', res = Ok tt ∧ lobj s' = lobj s) s.
Proof.
  intros [Hc Hr] Hnew Hold Hf Hlen. unfold syncNodes. apply wp_bind, wp_lb_client. rewrite Hc. cbn [on_ok].
  apply wp_bind. unfold wp at 1. cbn [fst snd on_ok the_lb gets]. rewrite Hr. apply wp_bind, wp_ret. cbn [on_ok].
  apply wp_bind, wp_wrap, wp_on_env. eapply wp_mono.
  { apply wp_and; [by apply listAllLBInstancesPages_total|apply listAllLBInstancesPages_hosts]. }
  intros res e1 [[vms ->] [_ Hl]]. cbn [on_ok]. destruct (Hl vms eq_refl) as [Hnd Hcur].
  apply wp_bind, wp_on_env. eapply wp_mono; [by apply symmetricDifference_spec|].
  intros res e2 (_ & assign & remove & -> & Ha & Hrm). cbn [on_ok lenv lobj].
  assert (Forall accepted assign) as Hassign by by eapply accepted_subset.
  assert (Forall accepted remove) as Hremove.
  { rewrite Hcur in Hrm. unfold hosts_of in Hrm. by eapply accepted_subset. }
  set (s2 := LB e2 (lobj s)). assert (on_balancer s2) as Hb2 by done. change (lobj s) with (lobj s2).
  apply wp_bind. eapply (wp_mono _ (λ res s', res = Ok tt ∧ lobj s' = lobj s2)).
  { case_decide; [|by apply wp_ret]. apply wp_bind. eapply wp_mono; [by apply assignNetworksToRule_accepted|].
    intros res s3 [-> Ho3]. cbn [on_ok]. rewrite <- Ho3. apply assignHostsToRule_accepted; [|done].
    unfold on_balancer. by rewrite Ho3. }
  intros res s3 [-> Ho3]. cbn [on_ok]. rewrite <- Ho3. case_decide; [|by apply wp_ret].
  apply removeHostsFromRule_accepted; [|done]. unfold on_balancer. by rewrite Ho3.
Qed.
End on_rule.
End converge.

(** ** A round *)

Section round.
Context {W} `{!Cloud W, !RuleHosts W, !Obliging W}.
Implicit Types (cs : CSCloud) (s : state W).

(** The health checks of a rule are not the provider's. *)
Definition no_checks (lb : loadBalancer) (r : loadBalancerRule) : Prop :=
  has_label (svc_meta (service lb)) lbCustomHealthCheck = false ∧ lbr_Protocol r ≠ ProtocolUDP.

Lemma update_lb_accepted fuel b hostIDs nets c r (s : lbst W) :
  on_balancer c r s → Forall accepted hostIDs → Forall accepted (rule_hosts (ew (lenv s)) (lbr_Id r)) →
  0 < fuel → length (rule_hosts (ew (lenv s)) (lbr_Id r)) ≤ fuel * 50 →
  (b = true → no_checks (lobj s) r) →
  wp (update_lb fuel b hostIDs nets) (λ res _, res = Ok tt) s.
Proof.
  intros Hb Hnew Hold Hf Hlen Hchecks. unfold update_lb. apply wp_bind.
  eapply wp_mono; [by eapply syncNodes_accepted|]. intros res s1 [-> Ho]. cbn [on_ok].
  destruct b; [|by apply wp_ret]. destruct Hb as [Hc Hr]. unfold updateLoadBalancerPool.
  apply wp_bind, wp_lb_client. rewrite Ho, Hc. cbn [on_ok].
  apply wp_bind. unfold wp at 1. cbn [fst snd on_ok the_lb gets]. rewrite Ho, Hr. apply wp_bind, wp_ret. cbn [on_ok].
  rewrite decide_True by by apply Hchecks. by apply wp_ret.
Qed.

Lemma with_lb_accepted fuel b hostIDs nets c r lb s :
  on_balancer c r (LB (genv s) lb) → Forall accepted hostIDs →
  Forall accepted (rule_hosts (ew (genv s)) (lbr_Id r)) →
  0 < fuel → length (rule_hosts (ew (genv s)) (lbr_Id r)) ≤ fuel * 50 → (b = true → no_checks lb r) →
  wp (with_lb lb (update_lb fuel b hostIDs nets)) (λ res s', (∃ x, res = Ok x) ∧ svcLock s' = svcLock s) s.
Proof.
  intros. apply wp_with_lb. eapply wp_mono; [by apply (update_lb_accepted fuel b hostIDs nets c r (LB (genv s) lb))|].
  intros res t ->. split; [by eexists|done].
Qed.

(** The balancer of an entry can be updated through client [c]: it has rule [r],
    whose health checks need no update. *)
Definition usable (e : queueEntry) (c : client) (r : loadBalancerRule) (lb : loadBalancer) : Prop :=
  rule lb = Some r ∧ getClient (cloud lb) = inr c ∧ (updatePool e = true → no_checks lb r).

(** The nodes that serve a service, in some order. *)
Definition serving cs svc (r : nodeRegistry) (ns : list nodeInfo) : Prop :=
  ns ≡ₚ filter (serves cs svc) (map_to_list (nodes r)).*2.

(** CloudStack shows rule [r], as the provider's, to whoever looks the balancer of
    the entry up. *)
Definition shown cs (e : queueEntry) (c : client) (r : loadBalancerRule) s : Prop :=
  ∀ ns en, serving cs (qe_service e) (registry s) ns → same_hosts (genv s) en →
    let '(_, nets, p) := idsForNodes ns in
    ∃ lb, (getLoadBalancer cs (qe_service e) p nets en).2 = Ok lb ∧ usable e c r lb ∧ shouldManageLB lb = None.

(** An update of the entry can succeed: its balancer is there, from an Ensure or
    to be looked up, some registered node serves its service, and the machines of the
    nodes and of the rule are acceptable, the latter not more than [fuel] pages. *)
Record updatable cs fuel (e : queueEntry) (c : client) (r : loadBalancerRule) s : Prop := {
  up_lb : match qe_lb e with Some lb => usable e c r lb | None => shown cs e c r s end;
  up_served : served cs (registry s) (qe_service e);
  up_nodes : ∀ k n, nodes (registry s) !! k = Some n → accepted (vmID n);
  up_hosts : Forall accepted (rule_hosts (ew (genv s)) (lbr_Id r));
  up_fuel : 0 < fuel ∧ length (rule_hosts (ew (genv s)) (lbr_Id r)) ≤ fuel * 50;
}.

Lemma updatable_frame cs fuel e c r s s' :
  registry s' = registry s → same_st_hosts s s' → updatable cs fuel e c r s → updatable cs fuel e c r s'.
Proof.
  intros Hreg Hs []. unfold same_st_hosts, same_hosts in Hs. split; rewrite ?Hreg, ?Hs; try done.
  destruct (qe_lb e); [done|]. unfold shown. rewrite Hreg. intros ns en Hns Hen.
  apply up_lb0; [done|]. by etrans.
Qed.

Lemma entry_lb_found cs fuel e c r ns s :
  updatable cs fuel e c r s → serving cs (qe_service e) (registry s) ns →
  let '(_, nets, p) := idsForNodes ns in
  wp (entry_lb cs e nets p) (λ res s', same_st_hosts s s' ∧ svcLock s' = svcLock s ∧
    ∃ lb, res = Ok (Some lb) ∧ usable e c r lb) s.
Proof.
  intros Hu Hns. pose proof (up_lb _ _ _ _ _ _ Hu) as Hlb. unfold entry_lb.
  destruct (qe_lb e) as [lb|].
  { cbn. apply wp_ret. split_and!; [reflexivity|done|by exists lb]. }
  specialize (Hlb ns (genv s) Hns ltac:(reflexivity)). cbn [idsForNodes] in *.
  destruct Hlb as (lb & Hok & Hus & Hm). apply wp_bind, wp_on_genv. unfold wp at 1.
  match type of Hok with (getLoadBalancer _ _ ?p ?nets _).2 = _ =>
    pose proof (getLoadBalancer_hosts cs (qe_service e) p nets (genv s)) as Hs end.
  rewrite Hok. cbn [on_ok]. pose proof Hus as (-> & _). rewrite Hm. apply wp_ret.
  split_and!; [exact Hs|done|by exists lb].
Qed.

(** Processing the entry brings the rule in line. *)
Lemma processQueueEntry_accepted cs fuel e c r s :
  inUse (svcLock s) !! svcKey (qe_service e) = None → updatable cs fuel e c r s →
  wp (processQueueEntry cs fuel e) (λ res s', res = Ok tt ∧
    hosts_of (genv s') (lbr_Id r) = wanted_machines cs (qe_service e) (registry s)) s.
Proof.
  intros Hfree Hu. apply wp_with_lock; [done|]. set (s0 := locked_start _ s).
  match goal with |- wp ?m _ _ => apply (wp_mono m (λ res s', (res = Ok tt ∧
    hosts_of (genv s') (lbr_Id r) = wanted_machines cs (qe_service e) (registry s)) ∧ svcLock s' = svcLock s0)) end.
  2: { intros res s' [[-> Hh] Hl]. by split. }
  apply wp_bind, wp_on_registry. eapply wp_mono.
  { apply wp_and; [apply nodesForService_spec|apply (preserves_wp same_reg_hosts), nodesForService_hosts]. }
  intros res t ((Hreg & _ & Hpost) & Hs). cbn [reg renv registry genv set_svcLock] in *.
  change (registry s0) with (registry s) in *.
  destruct res as [ns|err|x|]; cbn [on_ok]; try done.
  2: { destruct (up_served _ _ _ _ _ _ Hu) as (k & n & Hk & Hn). by destruct (Hpost k n Hk). }
  destruct Hpost as [Hne Hp]. destruct (nodes_machines cs _ _ ns Hp Hne) as [Hids _].
  assert (Forall accepted (vmID <$> ns)) as Hns.
  { apply Forall_fmap, Forall_forall. intros n Hn. rewrite Hp, list_elem_of_filter in Hn.
    destruct Hn as [_ Hn]. apply list_elem_of_fmap in Hn as ([k n'] & -> & Hn).
    by eapply (up_nodes _ _ _ _ _ _ Hu k), elem_of_map_to_list. }
  set (s1 := St _ _ _ _). assert (updatable cs fuel e c r s1) as Hu1.
  { by apply (updatable_frame _ _ _ _ _ s). }
  assert (serving cs (qe_service e) (registry s1) ns) as Hp1 by (unfold s1; cbn [registry]; by rewrite Hreg).
  pose proof (entry_lb_found cs fuel e c r ns s1 Hu1 Hp1) as Hfound. cbn [idsForNodes fst] in *.
  apply wp_bind. eapply wp_mono; [exact Hfound|]. intros res s2 (Hs2 & Hl2 & lb & -> & Hr & Hc & Hchecks).
  cbn [on_ok]. destruct (up_fuel _ _ _ _ _ _ Hu1) as [Hf Hlen]. unfold same_st_hosts, same_hosts in Hs2.
  apply wp_bind. eapply wp_mono.
  { apply wp_and; [apply (update_lb_hosts fuel _ _ _ lb r); exact Hr|].
    apply (with_lb_accepted fuel _ _ _ c r);
      [by split|exact Hns|rewrite Hs2; apply Hu1|done|by rewrite Hs2|done]. }
  intros res s3 [[Hreg3 Hh3] [[x ->] Hl3]]. cbn [on_ok]. apply wp_ret.
  split; [split; [done|]|by rewrite Hl3, Hl2]. rewrite (Hh3 x eq_refl). exact Hids.
Qed.

(** (C6) Updates come through: when CloudStack accepts the calls for the machines of
    the nodes and of the rule, and the entry that a worker takes has a balancer from
    an Ensure, or CloudStack shows the provider's rule to the lookup ([updatable]:
    a registered node serves the service, the rule's health checks need no update,
    and there is fuel for the pages of the rule's machines), one round brings the rule
    in line: it has exactly the machines of the registered nodes that serve the
    service, the success is recorded, the service has left the queue, no other
    entry has changed, and the worker goes on. *)
Theorem worker_round_converges cs fuel b expired t s e c r
    (Hrest : at_rest s) (Hrules : queued_rules (queue s))
    (Hpop : (pop s).2 = Ok (Some e)) (Hup : updatable cs fuel e c r s) :
  wp (worker_round cs fuel b expired t) (λ res s', res = Ok (Selecting b t) ∧
    hosts_of (genv s') (lbr_Id r) = wanted_machines cs (qe_service e) (registry s) ∧
    queue s' = delete (svcKey (qe_service e)) (queue s) ∧ registry s' = registry s ∧
    ∃ l, elog (genv s') = elog (genv s) ++ l ∧ success_of (qe_service e) ∈ l) s.
Proof.
  destruct (Hrest) as [Hkeyed Hfree]. unfold worker_round. apply wp_bind, wp_try.
  pose proof (pop_wp s Hkeyed) as Hpost. pose proof (pop_hosts s) as Hs1. unfold wp in Hpost |- *.
  rewrite Hpop in *. destruct (pop s) as [s1 res]. cbn [fst snd] in *. cbn [on_ok].
  pose proof Hpost as (Hreg1 & Hl1 & _). apply (updatable_frame _ _ _ _ _ _ s1 Hreg1 Hs1) in Hup as Hup1.
  apply wp_bind, wp_try. assert (inUse (svcLock s1) !! svcKey (qe_service e) = None) as Hfree1 by by rewrite Hl1.
  eapply wp_mono; [apply wp_and; [by eapply processQueueEntry_accepted|by apply (pop_process _ _ _ s)]|].
  intros res2 s2 ([-> Hh] & _ & Ht). destruct (Ht ltac:(done)) as [_ Hq2 Hreg2 _ [l2 Hlog2]]. cbn [on_ok].
  eapply wp_mono; [apply wp_and; [apply record_success_wp|apply (preserves_wp same_st_hosts), record_success_hosts]|].
  intros res3 s3 [(-> & Hreg3 & Hq3 & _ & Hlog3) Hs3]. split; [done|]. split_and!; [|congruence..|].
  - rewrite <- Hreg1, <- Hh. by apply same_hosts_of.
  - rewrite Hlog3, Hlog2, <- app_assoc. eexists. split; [done|]. unfold success_of. set_solver.
Qed.
End round.
