(* ===== verification/Goroutines.v ===== *)
(** * Goroutines of a provider

    The handlers, the workers and the informer run at the same time on one node
    registry, one queue and one table of service locks.  A goroutine is a
    program of atomic steps: a computation on the shared state that the code
    runs under one of its mutexes (or that only talks to the world), the two
    halves of taking a service's lock, and its release.  The steps of all
    goroutines interleave in any order.  This file gives the programs, their
    run without interference, the interleaving system, and the rules by which a
    program is shown to fit into it. *)
From stdpp Require Import base list strings gmap.
From S2P Require Import Prelude GoStd Kube Cloud Config ServiceLock Balancer Nodes Panics State Queue.

(** ** Programs *)

(** The annotation says the service of which entry the goroutine has in its hands:
    taken from the queue, and neither dealt with nor put back yet.  It has no
    influence on the steps. *)
Abbreviation carry := (option Service).

Inductive prog (W R : Type) : Type :=
  | Ret (c : carry) (r : res R)                    (* returned, or died of a panic *)
  | Hang (c : carry)                               (* in a call that does not return *)
  | Do (c : carry) (A : Type) (m : M (state W) A) (k : res A → prog W R)
  | Acq (c : carry) (key : serviceKey) (k : prog W R)
  | Rel (c : carry) (key : serviceKey) (k : res unit → prog W R).
Arguments Ret {W R} _ _.
Arguments Hang {W R} _.
Arguments Do {W R} _ {A} _ _.
Arguments Acq {W R} _ _ _.
Arguments Rel {W R} _ _ _.

Definition carried {W R} (p : prog W R) : carry :=
  match p with Ret c _ | Hang c | Do c _ _ | Acq c _ _ | Rel c _ _ => c end.

(** [p], and then what [f] makes of its result. *)
Fixpoint graft {W A B} (p : prog W A) (f : carry → res A → prog W B) : prog W B :=
  match p with
  | Ret c r => f c r
  | Hang c => Hang c
  | Do c m k => Do c m (λ r, graft (k r) f)
  | Acq c key k => Acq c key (graft k f)
  | Rel c key k => Rel c key (λ r, graft (k r) f)
  end.

#[export] Instance prog_ret {W} : MRet (prog W) := λ A a, Ret None (Ok a).
#[export] Instance prog_bind {W} : MBind (prog W) := λ A B f p,
  graft p (λ c r, match r with
                  | Ok a => f a
                  | Err e => Ret c (Err e)
                  | Panic x => Ret c (Panic x)
                  | Blocked => Hang c
                  end).

(** One atomic step that leaves the carried entry alone. *)
Definition held {W A} (c : carry) (m : M (state W) A) : prog W A := Do c m (λ r, Ret c r).

(** One atomic step after which the goroutine carries what [c'] says of the
    result. *)
Definition handing {W A} (c : carry) (m : M (state W) A) (c' : res A → carry) : prog W A :=
  Do c m (λ r, Ret (c' r) r).

(** [x, err := p] *)
Definition tried {W A} (p : prog W A) : prog W (error + A) :=
  graft p (λ c r, match r with
                  | Ok a => Ret c (Ok (inr a))
                  | Err e => Ret c (Ok (inl e))
                  | Panic x => Ret c (Panic x)
                  | Blocked => Hang c
                  end).

(** [svcLock.Lock(svc); defer svcLock.Unlock(svc)] around a body: the lock is
    given back on return and on panic. *)
Definition locked {W A} (c : carry) (svc : Service) (p : prog W A) : prog W A :=
  Acq c (svcKey svc) (graft p (λ c r,
    match r with
    | Blocked => Hang c
    | _ => Rel c (svcKey svc) (λ u, match u with Panic x => Ret c (Panic x) | _ => Ret c r end)
    end)).

(** What is left of a goroutine that is done: the state of a worker; the result
    of a handler is its caller's. *)
Inductive ending := Done | Worked (wk : worker).

Definition ending_of {W A} (f : A → ending) (p : prog W A) : prog W ending :=
  graft p (λ c r, match r with
                  | Ok a => Ret c (Ok (f a))
                  | Err e => Ret c (Err e)
                  | Panic x => Ret c (Panic x)
                  | Blocked => Hang c
                  end).

(** ** A program that runs alone *)

Fixpoint run_alone {W R} (p : prog W R) : M (state W) R := λ s,
  match p with
  | Ret _ r => (s, r)
  | Hang _ => (s, Blocked)
  | Do _ m k => match m s with
                | (s', Blocked) => (s', Blocked)
                | (s', r) => run_alone (k r) s'
                end
  | Acq _ key k =>
      let '(l, p) := enter key (svcLock s) in
      match acquire p l with
      | Some l => run_alone k (set_svcLock l s)
      | None => (set_svcLock l s, Blocked)
      end
  | Rel _ key k =>
      match release key (svcLock s) with
      | Some l => run_alone (k (Ok tt)) (set_svcLock l s)
      | None => run_alone (k (Panic "sync: unlock of unlocked mutex")) s
      end
  end.

(** ** Programs that run at the same time *)

Record runtime (W : Type) := Runtime { shared : state W; gos : gmap nat (prog W ending * gstate) }.
Arguments Runtime {W} _ _.
Arguments shared {W} _.
Arguments gos {W} _.

(** What is left of a program after a step that ended in [r]. *)
Definition next {W R A} (c : carry) (k : res A → prog W R) (r : res A) : prog W R :=
  match r with Blocked => Hang c | _ => k r end.

(** One step of goroutine [t]; [starts t] are the programs it may be started
    with. *)
Inductive go_step {W} (starts : nat → prog W ending → Prop) (t : nat) : runtime W → runtime W → Prop :=
  | go_start p x :
      gos x !! t = None → starts t p →
      go_step starts t x (Runtime (shared x) (<[t := (p, Idle)]> (gos x)))
  | go_do c A (m : M (state W) A) k g s r x :
      gos x !! t = Some (Do c m k, g) → m (shared x) = (s, r) →
      go_step starts t x (Runtime s (<[t := (next c k r, g)]> (gos x)))
  | go_enter c key k l p x :
      gos x !! t = Some (Acq c key k, Idle) → enter key (svcLock (shared x)) = (l, p) →
      go_step starts t x (Runtime (set_svcLock l (shared x)) (<[t := (Acq c key k, Waiting key p)]> (gos x)))
  | go_acquire c key k p l x :
      gos x !! t = Some (Acq c key k, Waiting key p) → acquire p (svcLock (shared x)) = Some l →
      go_step starts t x (Runtime (set_svcLock l (shared x)) (<[t := (k, Holding key p)]> (gos x)))
  | go_release c key k p l x :
      gos x !! t = Some (Rel c key k, Holding key p) → release key (svcLock (shared x)) = Some l →
      go_step starts t x (Runtime (set_svcLock l (shared x)) (<[t := (k (Ok tt), Idle)]> (gos x)))
  | go_fatal c key k g x :
      gos x !! t = Some (Rel c key k, g) → release key (svcLock (shared x)) = None →
      go_step starts t x (Runtime (shared x)
        (<[t := (k (Panic "sync: unlock of unlocked mutex"), g)]> (gos x))).

(** The next step of goroutine [t], if it can make one. *)
Definition advance {W} (t : nat) (x : runtime W) : option (runtime W) :=
  match gos x !! t with
  | Some (Do c m k, g) =>
      let '(s, r) := m (shared x) in Some (Runtime s (<[t := (next c k r, g)]> (gos x)))
  | Some (Acq c key k, Idle) =>
      let '(l, p) := enter key (svcLock (shared x)) in
      Some (Runtime (set_svcLock l (shared x)) (<[t := (Acq c key k, Waiting key p)]> (gos x)))
  | Some (Acq c key k, Waiting key' p) =>
      if decide (key = key') then
        l ← acquire p (svcLock (shared x));
        Some (Runtime (set_svcLock l (shared x)) (<[t := (k, Holding key p)]> (gos x)))
      else None
  | Some (Rel c key k, Holding key' p) =>
      if decide (key = key') then
        l ← release key (svcLock (shared x));
        Some (Runtime (set_svcLock l (shared x)) (<[t := (k (Ok tt), Idle)]> (gos x)))
      else None
  | _ => None
  end.

(** A schedule: which goroutine moves next. *)
Fixpoint run_schedule {W} (ts : list nat) (x : runtime W) : option (runtime W) :=
  match ts with
  | [] => Some x
  | t :: ts => y ← advance t x; run_schedule ts y
  end.

(** A step of any goroutine. *)
Definition step {W} (starts : nat → prog W ending → Prop) (x y : runtime W) : Prop :=
  ∃ t, go_step starts t x y.

Definition go_init {W} (s : state W) : runtime W := Runtime s ∅.

Lemma advance_step {W} starts t (x y : runtime W) : advance t x = Some y → go_step starts t x y.
Proof.
  unfold advance. intros H. destruct (gos x !! t) as [[p g]|] eqn:Ht; [|done].
  destruct p as [c r|c|c A m k|c key k|c key k]; [done..| | |].
  - destruct (m (shared x)) as [s r] eqn:E. injection H as <-. by eapply go_do.
  - destruct g as [|key' q|key' q]; [|case_decide; [subst key'|done]|done].
    + destruct (enter key (svcLock (shared x))) as [l q] eqn:E. injection H as <-. by eapply go_enter.
    + destruct (acquire q (svcLock (shared x))) as [l|] eqn:E; [|done]. injection H as <-.
      by eapply go_acquire.
  - destruct g as [|key' q|key' q]; [done..|case_decide; [subst key'|done]].
    destruct (release key (svcLock (shared x))) as [l|] eqn:E; [|done]. injection H as <-.
    by eapply go_release.
Qed.

Lemma run_schedule_steps {W} starts ts (x y : runtime W) :
  run_schedule ts x = Some y → rtc (step starts) x y.
Proof.
  revert x. induction ts as [|t ts IH]; intros x; cbn; [by intros [= ->]|].
  destruct (advance t x) as [z|] eqn:Hz; [|done]. intros Hy. eapply rtc_l; [|by apply IH].
  exists t. by apply advance_step.
Qed.

(** ** Running alone is the sequential code *)

Section alone.
Context {W : Type}.

Lemma run_graft {A B} (p : prog W A) (f : carry → res A → prog W B) s :
  (∀ c s, run_alone (f c Blocked) s = (s, Blocked)) →
  ∃ c, run_alone (graft p f) s =
    let '(s', r) := run_alone p s in run_alone (f c r) s'.
Proof.
  intros Hf. revert s. induction p as [c r|c|c A' m k IH|c key k IH|c key k IH]; intros s; cbn.
  - by exists c.
  - exists c. by rewrite Hf.
  - destruct (m s) as [s' [a|e|x|]]; [by apply IH..|]. exists c. by rewrite Hf.
  - destruct (enter key (svcLock s)) as [l p']. destruct (acquire p' l); [by apply IH|].
    exists c. by rewrite Hf.
  - destruct (release key (svcLock s)); by apply IH.
Qed.

#[local] Ltac graft_run p :=
  lazymatch goal with
  | |- context [run_alone (graft p ?f) ?s] =>
      let c := fresh "c" in let E := fresh "E" in
      destruct (run_graft p f s) as [c E]; [done|rewrite E; clear E]
  end.

Lemma run_bind {A B} (p : prog W A) (f : A → prog W B) s :
  run_alone (p ≫= f) s = (run_alone p ≫= (λ a, run_alone (f a))) s.
Proof.
  unfold mbind at 1, prog_bind. graft_run p.
  unfold mbind, M_bind. by destruct (run_alone p s) as [s' []].
Qed.

Lemma run_held {A} c (m : M (state W) A) s : run_alone (held c m) s = m s.
Proof. cbn. by destruct (m s) as [s' []]. Qed.

Lemma run_handing {A} c (m : M (state W) A) c' s : run_alone (handing c m c') s = m s.
Proof. cbn. by destruct (m s) as [s' []]. Qed.

Lemma run_tried {A} (p : prog W A) s : run_alone (tried p) s = try (run_alone p) s.
Proof.
  unfold tried. graft_run p.
  unfold try. by destruct (run_alone p s) as [s' []].
Qed.

Lemma run_locked {A} c svc (p : prog W A) s :
  run_alone (locked c svc p) s = with_lock svc (run_alone p) s.
Proof.
  unfold locked, with_lock, on_svcLock, zoom, Lock, mbind, M_bind. cbn [run_alone].
  destruct (enter (svcKey svc) (svcLock s)) as [l q]. destruct (acquire q l) as [l'|]; [|done].
  graft_run p.
  unfold defer, Unlock. destruct (run_alone p (set_svcLock l' s)) as [s' [a|e|x|]]; [..|done];
    cbn [run_alone]; (destruct (release (svcKey svc) (svcLock s')); [done|by destruct s']).
Qed.

Lemma run_if {A} (b : bool) (p q : prog W A) s :
  run_alone (if b then p else q) s = (if b then run_alone p else run_alone q) s.
Proof. by destruct b. Qed.
End alone.

(** ** Programs that fit together *)

Section safe.
Context {W} `{!Cloud W}.
Context (cs : CSCloud).
Implicit Types s : state W.

(** What every goroutine may rely on, and must keep. *)
Definition shared_ok s : Prop := keyed (queue s) ∧ queued_rules (queue s).

(** Does the goroutine have an entry of this service in hand? *)
Definition carries (c : carry) (k : serviceKey) : Prop := svcKey <$> c = Some k.

(** The service in hand has no node left that is registered and serves it. *)
Definition nodeless (c : carry) (k : serviceKey) s : Prop :=
  ∃ svc, c = Some svc ∧ svcKey svc = k ∧ ¬ served cs (registry s) svc.

(** A step may take an entry in hand, or deal with the one it has; it may not
    drop one. *)
Definition accounted s (c : carry) s' (c' : carry) : Prop :=
  ∀ k, is_Some (queue s !! k) ∨ carries c k →
    is_Some (queue s' !! k) ∨ carries c' k ∨ updated k s s' ∨ nodeless c k s.

(** No call that changes CloudStack. *)
Definition no_change (e : event) : Prop := changes_cloud e = false.

(** What a step from [s] to [s'] with the lock state [lk] and the result [r]
    must respect. *)
Definition step_ok (lk : option serviceKey) (c : carry) s s' (c' : carry) : Prop :=
  svcLock s' = svcLock s ∧ shared_ok s' ∧ (lk = None → st_logs no_change s s') ∧
  accounted s c s' c'.

(** [safe lk p Q]: the program [p], started while the goroutine holds the lock
    of [lk], respects the others in each of its steps, whatever they do in
    between, uses the locks properly, and ends with [Q] of the lock it holds,
    the entry it has in hand and its result. *)
Fixpoint safe {R} (lk : option serviceKey) (p : prog W R)
    (Q : option serviceKey → carry → res R → Prop) : Prop :=
  match p with
  | Ret c r => Q lk c r
  | Hang _ => True
  | Do c m k => ∀ s, shared_ok s →
      step_ok lk c s (m s).1 (carried (next c k (m s).2)) ∧
      match (m s).2 with
      | Blocked => True
      | Ok a => safe lk (k (Ok a)) Q
      | Err e => safe lk (k (Err e)) Q
      | Panic x => safe lk (k (Panic x)) Q
      end
  | Acq c key k => lk = None ∧ carried k = c ∧ safe (Some key) k Q
  | Rel c key k => lk = Some key ∧ carried (k (Ok tt)) = c ∧ safe None (k (Ok tt)) Q
  end.

(** A goroutine of its own ends without a lock, with empty hands, and with a
    result that keeps what was promised of it. *)
Definition finished {R} (P : res R → Prop) (lk : option serviceKey) (c : carry) (r : res R) : Prop :=
  lk = None ∧ c = None ∧ P r.

Lemma safe_mono {R} lk (p : prog W R) (Q Q' : option serviceKey → carry → res R → Prop) :
  safe lk p Q → (∀ lk c r, Q lk c r → Q' lk c r) → safe lk p Q'.
Proof.
  intros Hp HQ. revert lk Hp. induction p as [c r|c|c A m k IH|c key k IH|c key k IH]; intros lk; cbn.
  - apply HQ.
  - done.
  - intros H s Hs. destruct (H s Hs) as [H1 H2]. split; [done|].
    destruct (m s).2; auto.
  - intros (H1 & H2 & H3). auto.
  - intros (H1 & H2 & H3). auto.
Qed.

Lemma carried_graft {A B} lk (p : prog W A) (f : carry → res A → prog W B) Q :
  safe lk p Q → (∀ lk c r, Q lk c r → carried (f c r) = c) → carried (graft p f) = carried p.
Proof. destruct p; cbn; eauto. Qed.

(** A continuation that starts where the program before it ended. *)
Lemma safe_graft {A B} lk (p : prog W A) (f : carry → res A → prog W B) Q Q' :
  safe lk p Q → (∀ lk' c r, Q lk' c r → carried (f c r) = c ∧ safe lk' (f c r) Q') →
  carried (graft p f) = carried p ∧ safe lk (graft p f) Q'.
Proof.
  intros Hp Hf. split; [eapply carried_graft; [done|apply Hf]|].
  revert lk Hp. induction p as [c r|c|c A' m k IH|c key k IH|c key k IH]; intros lk; cbn.
  - apply Hf.
  - done.
  - intros H s Hs. destruct (H s Hs) as [H1 H2].
    destruct (m s) as [s' [a|e|x|]]; cbn [fst snd next] in *; (split; [|by auto]);
      [erewrite carried_graft; [exact H1|exact H2|apply Hf]..|exact H1].
  - intros (H1 & H2 & H3). split_and!; [done| |auto].
    erewrite carried_graft; [exact H2|exact H3|apply Hf].
  - intros (H1 & H2 & H3). split_and!; [done| |auto].
    erewrite carried_graft; [exact H2|exact H3|apply Hf].
Qed.

(** The value of the first program goes on in the second; its errors and
    panics end both. *)
Lemma safe_bind {A B} lk (p : prog W A) (f : A → prog W B) Q Q' :
  safe lk p Q →
  (∀ lk' c a, Q lk' c (Ok a) → carried (f a) = c ∧ safe lk' (f a) Q') →
  (∀ lk' c e, Q lk' c (Err e) → Q' lk' c (Err e)) →
  (∀ lk' c x, Q lk' c (Panic x) → Q' lk' c (Panic x)) →
  carried (p ≫= f) = carried p ∧ safe lk (p ≫= f) Q'.
Proof.
  intros Hp Hok Herr Hpanic. apply (safe_graft lk p _ Q Q' Hp).
  intros lk' c [a|e|x|] HQ; cbn; auto.
Qed.

(** A single step that keeps the entry in hand. *)
Lemma safe_held {A} lk c (m : M (state W) A) Q :
  (∀ s, shared_ok s → wp m (λ r s', svcLock s' = svcLock s ∧ shared_ok s' ∧
     (∀ k, is_Some (queue s !! k) → is_Some (queue s' !! k)) ∧
     (lk = None → st_logs no_change s s') ∧ (r ≠ Blocked → Q lk c r)) s) →
  safe lk (held c m) Q.
Proof.
  intros H s Hs. specialize (H s Hs). unfold wp in H. destruct (m s) as [s' r]. cbn in *.
  destruct H as (H1 & H2 & H3 & H4 & H5). split.
  - split_and!; [done..|]. intros k [Hk|Hk]; [by left; auto|]. right. left. by destruct r.
  - destruct r; try done; by apply H5.
Qed.

(** A single step that takes an entry in hand or deals with the one it has. *)
Lemma safe_handing {A} lk c (m : M (state W) A) c' Q :
  (∀ s, shared_ok s → wp m (λ r s', r ≠ Blocked ∧ step_ok lk c s s' (c' r) ∧ Q lk (c' r) r) s) →
  safe lk (handing c m c') Q.
Proof.
  intros H s Hs. specialize (H s Hs). unfold wp in H. destruct (m s) as [s' r]. cbn in *.
  destruct H as (H1 & H2 & H3). by destruct r.
Qed.

Lemma safe_tried {A} lk (p : prog W A) Q Q' :
  safe lk p Q →
  (∀ lk' c a, Q lk' c (Ok a) → Q' lk' c (Ok (inr a))) →
  (∀ lk' c e, Q lk' c (Err e) → Q' lk' c (Ok (inl e))) →
  (∀ lk' c x, Q lk' c (Panic x) → Q' lk' c (Panic x)) →
  carried (tried p) = carried p ∧ safe lk (tried p) Q'.
Proof.
  intros Hp Hok Herr Hpanic. apply (safe_graft lk p _ Q Q' Hp).
  intros lk' c [a|e|x|] HQ; cbn; auto.
Qed.

Lemma safe_ending {A} (f : A → ending) (p : prog W A) P Q :
  safe None p (finished P) →
  (∀ r, P r → match r with Ok a => Q (Ok (f a)) | Err e => Q (Err e) | Panic x => Q (Panic x)
              | Blocked => True end) →
  safe None (ending_of f p) (finished Q).
Proof.
  intros Hp HQ. eapply safe_graft; [exact Hp|]. intros lk c r (-> & -> & Hr). specialize (HQ r Hr).
  by destruct r.
Qed.

Lemma safe_locked {A} c svc (p : prog W A) Q :
  carried p = c →
  safe (Some (svcKey svc)) p (λ lk c' r, lk = Some (svcKey svc) ∧ c' = c ∧ (r ≠ Blocked → Q r)) →
  safe None (locked c svc p) (λ lk c' r, lk = None ∧ c' = c ∧ Q r).
Proof.
  intros Hc Hp. unfold locked. cbn. split; [done|]. rewrite <- Hc.
  eapply safe_graft; [exact Hp|]. intros lk c' r (-> & -> & HQ). rewrite Hc.
  destruct r; cbn; try (by split_and!; [..|apply HQ]); done.
Qed.
End safe.

(** ** The invariant of the system *)

Definition lock_system {W} (x : runtime W) : system :=
  {| slock := svcLock (shared x); threads := snd <$> gos x |}.

Section system.
Context {W} `{!Cloud W}.
Context (cs : CSCloud) (starts : nat → prog W ending → Prop).
(** What is promised of the result of each goroutine. *)
Context (promised : nat → res ending → Prop).
Context (starts_safe : ∀ t p, starts t p → safe cs None p (finished (promised t))).
Implicit Types (s : state W) (x y : runtime W).

(** What is left of a program, and the state of its goroutine. *)
Definition fits (t : nat) (p : prog W ending) (g : gstate) : Prop :=
  match g with
  | Idle => safe cs None p (finished (promised t))
  | Waiting key _ => ∃ c k, p = Acq c key k ∧ safe cs None p (finished (promised t))
  | Holding key _ => safe cs (Some key) p (finished (promised t))
  end.

Record config_ok x : Prop := {
  cok_shared : shared_ok (shared x);
  cok_lock : lock_inv (lock_system x);
  cok_fits t p g : gos x !! t = Some (p, g) → fits t p g;
}.

Lemma gstate_at x t p g : gos x !! t = Some (p, g) → threads (lock_system x) !! t = Some g.
Proof. intros H. cbn. by rewrite lookup_fmap, H. Qed.

Lemma fits_insert x t p g s :
  config_ok x → fits t p g →
  ∀ t' p' g', gos (Runtime s (<[t := (p, g)]> (gos x))) !! t' = Some (p', g') → fits t' p' g'.
Proof.
  intros Hx Hp t' p' g'. cbn [gos].
  intros [[<- [= <- <-]]|[_ H]]%lookup_insert_Some; [done|by eapply (cok_fits x)].
Qed.

(** The state of the lock in which the head of a program is run. *)
Definition lock_of (g : gstate) : option serviceKey :=
  match g with Holding key _ => Some key | _ => None end.

Lemma fits_do t c A (m : M (state W) A) k g :
  fits t (Do c m k) g → safe cs (lock_of g) (Do c m k) (finished (promised t)).
Proof. destruct g; cbn; [done| |done]. by intros (c' & k' & [=] & _). Qed.

Lemma fits_next t c A (m : M (state W) A) k g s :
  fits t (Do c m k) g → shared_ok s → fits t (next c k (m s).2) g ∧
    step_ok cs (lock_of g) c s (m s).1 (carried (next c k (m s).2)).
Proof.
  intros Hf Hs. destruct (fits_do _ _ _ _ _ _ Hf s Hs) as [H1 H2]. split; [|exact H1].
  destruct (m s) as [s' [a|e|z|]]; cbn in *; destruct g; cbn in *; try done;
    by destruct Hf as (? & ? & [=] & _).
Qed.

(** A release is always of a lock that is held. *)
Lemma fits_release x t c key k g :
  config_ok x → gos x !! t = Some (Rel c key k, g) →
  (∃ p, g = Holding key p) ∧ is_Some (release key (svcLock (shared x))).
Proof.
  intros Hx Ht. pose proof (cok_fits x Hx t _ _ Ht) as Hf.
  destruct g as [|key' p|key' p]; cbn in Hf; [by destruct Hf|by destruct Hf as (? & ? & ? & _)|].
  destruct Hf as ([= <-] & _). split; [by eexists|].
  by apply (holding_release (lock_system x) t key' p), (gstate_at x t _ _ Ht); apply Hx.
Qed.

Lemma step_config_ok t x y : go_step starts t x y → config_ok x → config_ok y.
Proof.
  intros Hstep Hx. pose proof (cok_lock x Hx) as Hl. pose proof (cok_shared x Hx) as Hs.
  inversion Hstep as [p x' Ht Hp|c A m k g s r x' Ht Hm|c key k l p x' Ht He|c key k p l x' Ht Ha
    |c key k p l x' Ht Hr|c key k g x' Ht Hr]; subst x' y.
  - split; [done| |by apply fits_insert; [|apply starts_safe]].
    unfold lock_system. cbn [shared gos]. rewrite fmap_insert. apply (inv_start (lock_system x)); [done|].
    cbn. by rewrite lookup_fmap, Ht.
  - pose proof (cok_fits x Hx _ _ _ Ht) as Hf.
    destruct (fits_next _ _ _ _ _ _ _ Hf Hs) as [Hf' (Hsl & Hs' & _)]. rewrite Hm in Hf', Hsl, Hs'.
    cbn [fst snd] in *. split; [done| |by apply fits_insert].
    unfold lock_system. cbn [shared gos]. rewrite Hsl, fmap_insert. cbn [snd].
    by rewrite insert_id by (by rewrite lookup_fmap, Ht).
  - pose proof (cok_fits x Hx _ _ _ Ht) as Hf. split; [done| |].
    + unfold lock_system. cbn [shared gos svcLock set_svcLock]. rewrite fmap_insert.
      apply (inv_enter (lock_system x)); [done|by eapply gstate_at|done].
    + apply fits_insert; [done|]. by exists c, k.
  - pose proof (cok_fits x Hx _ _ _ Ht) as (c' & k' & [= <- <-] & Hf). split; [done| |].
    + unfold lock_system. cbn [shared gos svcLock set_svcLock]. rewrite fmap_insert.
      apply (inv_acquire (lock_system x)); [done|by eapply gstate_at|done].
    + apply fits_insert; [done|]. by destruct Hf as (_ & _ & Hf).
  - pose proof (cok_fits x Hx _ _ _ Ht) as (_ & _ & Hf). split; [done| |].
    + unfold lock_system. cbn [shared gos svcLock set_svcLock]. rewrite fmap_insert.
      eapply (inv_release (lock_system x)); [done|by eapply gstate_at|done].
    + by apply fits_insert.
  - destruct (fits_release x t c key k g Hx Ht) as [_ [l' Hl']]. by rewrite Hr in Hl'.
Qed.

Lemma steps_config_ok x y : rtc (step starts) x y → config_ok x → config_ok y.
Proof. induction 1 as [|x y z [t Hxy] _ IH]; [done|]. intros Hx. by eapply IH, step_config_ok. Qed.

Lemma init_config_ok e : config_ok (go_init (St e newNodeRegistry ∅ new_serviceLock)).
Proof.
  split; cbn.
  - split; intros k e'; cbn; rewrite lookup_empty; done.
  - exact (inv_init ∅).
  - intros t p g. by rewrite lookup_empty.
Qed.

(** *** Entries *)

(** The service waits in the queue, or a goroutine has its entry in hand. *)
Definition pending k x : Prop :=
  is_Some (queue (shared x) !! k) ∨ ∃ t p g, gos x !! t = Some (p, g) ∧ carries (carried p) k.

(** A goroutine moved from [p] to [p'], and nothing happened to the queue. *)
Lemma pending_move k t p' g' s x :
  queue s = queue (shared x) →
  (∀ p g, gos x !! t = Some (p, g) → carries (carried p) k → carries (carried p') k) →
  pending k x → pending k (Runtime s (<[t := (p', g')]> (gos x))).
Proof.
  intros Hq Hp [Hk|(t' & p & g & Ht & Hc)]; [left; cbn; by rewrite Hq|right].
  destruct (decide (t = t')) as [<-|Hne].
  - exists t, p', g'. cbn. rewrite lookup_insert_eq. eauto.
  - exists t', p, g. cbn. by rewrite lookup_insert_ne.
Qed.

(** The entry of the service was dealt with in a step of goroutine [t]: a
    success was recorded, or [t] had it in hand and the service no node. *)
Definition dealt_with k t x y : Prop :=
  updated k (shared x) (shared y) ∨
  ∃ p g, gos x !! t = Some (p, g) ∧ nodeless cs (carried p) k (shared x).

Lemma step_pending t x y k :
  go_step starts t x y → config_ok x → pending k x → pending k y ∨ dealt_with k t x y.
Proof.
  intros Hstep Hx Hp. pose proof (cok_shared x Hx) as Hs.
  destruct Hstep as [p x Ht _|c A m k' g s r x Ht Hm|c key k' l p x Ht _|c key k' p l x Ht _
    |c key k' p l x Ht _|c key k' g x Ht Hr].
  - left. apply pending_move; [done| |done]. intros p' g. by rewrite Ht.
  - pose proof (cok_fits x Hx _ _ _ Ht) as Hf.
    destruct (fits_next _ _ _ _ _ _ _ Hf Hs) as [_ (_ & _ & _ & Hacc)]. rewrite Hm in Hacc.
    cbn [fst snd] in Hacc. specialize (Hacc k).
    assert (is_Some (queue (shared x) !! k) ∨ carries c k →
      pending k (Runtime s (<[t := (next c k' r, g)]> (gos x))) ∨
      dealt_with k t x (Runtime s (<[t := (next c k' r, g)]> (gos x)))) as Hgo.
    { intros H. destruct (Hacc H) as [Hq|[Hc|[Hu|Hn]]]; [left; by left|left; right|by right; left|right; right].
      - exists t, (next c k' r), g. cbn. by rewrite lookup_insert_eq.
      - by exists (Do c m k'), g. }
    destruct Hp as [Hq|(t' & p & g' & Ht' & Hc)]; [by apply Hgo; left|].
    destruct (decide (t = t')) as [<-|Hne]; [simplify_eq; apply Hgo; by right|].
    left. right. exists t', p, g'. cbn. by rewrite lookup_insert_ne.
  - left. apply pending_move; [done| |done]. intros p' g. rewrite Ht. by intros [= <- <-].
  - left. apply pending_move; [done| |done]. intros p' g. rewrite Ht. intros [= <- <-]. cbn.
    pose proof (cok_fits x Hx _ _ _ Ht) as (c' & k1 & [= <- <-] & _ & Hc & _). congruence.
  - left. apply pending_move; [done| |done]. intros p' g. rewrite Ht. intros [= <- <-]. cbn.
    pose proof (cok_fits x Hx _ _ _ Ht) as (_ & Hc & _). congruence.
  - destruct (fits_release x t c key k' g Hx Ht) as [_ [l' Hl']]. by rewrite Hr in Hl'.
Qed.

Lemma steps_pending x y k : rtc (step starts) x y → config_ok x → pending k x →
  pending k y ∨ ∃ t z z', rtc (step starts) x z ∧ go_step starts t z z' ∧
    rtc (step starts) z' y ∧ dealt_with k t z z'.
Proof.
  intros Hxy. induction Hxy as [|x x' y [t Hstep] Hrest IH]; intros Hx Hp; [by left|].
  destruct (step_pending t x x' k Hstep Hx Hp) as [Hp'|Hdone].
  - destruct (IH (step_config_ok t x x' Hstep Hx) Hp') as [?|(t' & z & z' & H1 & H2 & H3 & H4)]; [by left|right].
    exists t', z, z'. split_and!; [|done..]. eapply rtc_l; [by exists t|done].
  - right. by exists t, x, x'.
Qed.

(** *** Changes of CloudStack *)

(** The service whose lock goroutine [t] holds. *)
Definition holds x t key : Prop := ∃ p q, gos x !! t = Some (p, Holding key q).

Lemma holds_one x t t' key : config_ok x → holds x t key → holds x t' key → t = t'.
Proof.
  intros Hx (p & q & Ht) (p' & q' & Ht').
  by eapply (inv_one _ (cok_lock x Hx)); eapply gstate_at.
Qed.

Lemma step_changes t x y : go_step starts t x y → config_ok x →
  st_logs no_change (shared x) (shared y) ∨ ∃ key, holds x t key ∧ holds y t key.
Proof.
  intros Hstep Hx. pose proof (cok_shared x Hx) as Hs.
  destruct Hstep as [p x Ht _|c A m k' g s r x Ht Hm|c key k' l p x Ht _|c key k' p l x Ht _
    |c key k' p l x Ht _|c key k' g x Ht Hr]; try (left; unfold st_logs; apply logs_refl).
  pose proof (cok_fits x Hx _ _ _ Ht) as Hf.
  destruct (fits_next _ _ _ _ _ _ _ Hf Hs) as [_ (_ & _ & Hlog & _)]. rewrite Hm in Hlog.
  destruct g as [|key p|key p]; [left; by apply Hlog..|right]. exists key. split; [by do 2 eexists|].
  do 2 eexists. cbn. by rewrite lookup_insert_eq.
Qed.

(** *** Progress *)

Definition hangs x t : Prop := ∃ c g, gos x !! t = Some (Hang c, g).
Definition returned x t : Prop := ∃ r, gos x !! t = Some (Ret None r, Idle) ∧ promised t r.
Definition can_move t x : Prop := ∃ y, go_step starts t x y.

(** A goroutine that is past the lock never waits. *)
Lemma holder_moves x t key : config_ok x → holds x t key → hangs x t ∨ can_move t x.
Proof.
  intros Hx (p & q & Ht). pose proof (cok_fits x Hx _ _ _ Ht) as Hf. cbn in Hf.
  destruct p as [c r|c|c A m k|c k' k|c k' k].
  - by destruct Hf.
  - left. by do 2 eexists.
  - right. destruct (m (shared x)) as [s r] eqn:E. eexists. by eapply go_do.
  - by destruct Hf.
  - right. destruct (fits_release x t _ _ _ _ Hx Ht) as [_ [l Hl]].
    destruct Hf as ([= <-] & _). eexists. by eapply go_release.
Qed.

Lemma progress x t p g : config_ok x → gos x !! t = Some (p, g) →
  returned x t ∨ hangs x t ∨ can_move t x ∨
  ∃ t' key, t' ≠ t ∧ (∃ q, g = Waiting key q) ∧ holds x t' key ∧ (hangs x t' ∨ can_move t' x).
Proof.
  intros Hx Ht. pose proof (cok_fits x Hx _ _ _ Ht) as Hf. destruct g as [|key q|key q].
  - cbn in Hf. destruct p as [c r|c|c A m k|c k' k|c k' k].
    + left. destruct Hf as (_ & -> & ?). by exists r.
    + right. left. by do 2 eexists.
    + right. right. left. destruct (m (shared x)) as [s r] eqn:E. eexists. by eapply go_do.
    + right. right. left. destruct (enter k' (svcLock (shared x))) as [l q] eqn:E. eexists. by eapply go_enter.
    + by destruct Hf.
  - destruct Hf as (c & k & -> & Hk & _). right. right.
    destruct (waiting_acquire (lock_system x) t key q (cok_lock x Hx) (gstate_at x t _ _ Ht))
      as [[l Hl]|(t' & q' & Ht')]; [left; eexists; by eapply go_acquire|right].
    cbn in Ht'. rewrite lookup_fmap in Ht'. apply fmap_Some in Ht' as ([p' g'] & Ht' & Hg). cbn in Hg. subst g'.
    assert (holds x t' key) as Hh by (by do 2 eexists).
    exists t', key. split_and!; [|by eexists|done|by apply holder_moves in Hh].
    intros ->. by rewrite Ht in Ht'.
  - assert (holds x t key) as Hh by (by do 2 eexists).
    destruct (holder_moves x t key Hx Hh) as [H|H]; [by right; left|by right; right; left].
Qed.
End system.

(** ** Goroutines that have nothing in hand *)

(** The program takes no entry from the queue. *)
Fixpoint bare {W R} (p : prog W R) : Prop :=
  match p with
  | Ret c _ | Hang c => c = None
  | Do c m k => c = None ∧ ∀ r, bare (k r)
  | Acq c _ k => c = None ∧ bare k
  | Rel c _ k => c = None ∧ ∀ r, bare (k r)
  end.

Section bare.
Context {W : Type}.

Lemma bare_carried {R} (p : prog W R) : bare p → carried p = None.
Proof. by destruct p; cbn; intuition. Qed.

Lemma bare_graft {A B} (p : prog W A) (f : carry → res A → prog W B) :
  bare p → (∀ r, bare (f None r)) → bare (graft p f).
Proof.
  intros Hp Hf. induction p as [c r|c|c A' m k IH|c key k IH|c key k IH]; cbn in *.
  - by subst c.
  - done.
  - destruct Hp as [? Hp]. split; [done|]. intros r. by apply IH.
  - destruct Hp as [? Hp]. split; [done|]. by apply IH.
  - destruct Hp as [? Hp]. split; [done|]. intros r. by apply IH.
Qed.

Lemma bare_bind {A B} (p : prog W A) (f : A → prog W B) :
  bare p → (∀ a, bare (f a)) → bare (p ≫= f).
Proof. intros Hp Hf. apply bare_graft; [done|]. by intros [a|e|x|]; cbn. Qed.

Lemma bare_ret {A} (a : A) : bare (W:=W) (mret a).
Proof. done. Qed.

Lemma bare_held {A} (m : M (state W) A) : bare (held None m).
Proof. done. Qed.

Lemma bare_locked {A} svc (p : prog W A) : bare p → bare (locked None svc p).
Proof.
  intros Hp. split; [done|]. apply bare_graft; [done|].
  intros [a|e|x|]; cbn; try done; (split; [done|]); by intros [].
Qed.

Lemma bare_ending {A} (f : A → ending) (p : prog W A) : bare p → bare (ending_of f p).
Proof. intros Hp. apply bare_graft; [done|]. by intros []. Qed.

(** What only goroutines outside of [P] do. *)
Lemma steps_bare starts (P : nat → Prop) (x y : runtime W) :
  (∀ t p, starts t p → P t → bare p) → rtc (step starts) x y →
  (∀ t p g, gos x !! t = Some (p, g) → P t → bare p) →
  ∀ t p g, gos y !! t = Some (p, g) → P t → bare p.
Proof.
  intros Hstarts Hxy. induction Hxy as [|x x' y [t0 Hstep] _ IH]; [done|]. intros Hx. apply IH.
  assert (∀ p0 g0 s, (P t0 → bare p0) →
    ∀ t p g, gos (Runtime s (<[t0 := (p0, g0)]> (gos x))) !! t = Some (p, g) → P t → bare p) as Hset.
  { intros p0 g0 s H0 t p g. cbn [gos].
    intros [[<- [= <- <-]]|[_ H]]%lookup_insert_Some; [done|by eapply Hx]. }
  destruct Hstep as [p x Ht Hp|c A m k g s r x Ht Hm|c key k l p x Ht He|c key k p l x Ht Ha
    |c key k p l x Ht Hr|c key k g x Ht Hr]; apply Hset; intros HP;
    [by eapply Hstarts|pose proof (Hx _ _ _ Ht HP) as [Hc Hk]..]; try done.
  by destruct r; cbn.
Qed.
End bare.

#[export] Hint Resolve bare_ret bare_held bare_locked bare_ending bare_bind : ccm.
