(* ===== verification/Handlers.v ===== *)
(** * The load balancer interface of the cloud provider (loadbalancer.go)

    GetLoadBalancer, EnsureLoadBalancer, UpdateLoadBalancer and
    EnsureLoadBalancerDeleted, as the service controller calls them: validation,
    the lock of the service, and the steps on the balancer and the queue. *)
From Stdlib Require Import Ascii.
From stdpp Require Import base list strings gmap sets.
From S2P Require Import Prelude GoStd Kube Cloud Config Meta Pages ServiceLock Balancer Ports PublicIP Rule Nodes State Queue.

(** ** The patch for the project label *)

(** rfc6901Encoder: the escape of a segment of a JSON pointer. *)
Fixpoint rfc6901_escape (s : string) : string :=
  match s with
  | "" => ""
  | String "~" s => "~0" +:+ rfc6901_escape s
  | String "/" s => "~1" +:+ rfc6901_escape s
  | String a s => String a (rfc6901_escape s)
  end.

Definition newline : string := String "010" "".
Definition tab : string := String "009" "".

(** The JSON pointer of the patch. *)
Definition label_path (key : string) : string := "/metadata/labels/" +:+ rfc6901_escape key.

Definition createJSONPatchForLabel (key value : string) : string :=
  let member k v := tab +:+ tab +:+ tab +:+ quoted k +:+ ": " +:+ quoted v in
  "[" +:+ newline +:+ tab +:+ tab +:+ "{" +:+ newline
    +:+ member "op" "add" +:+ "," +:+ newline
    +:+ member "path" (label_path key) +:+ "," +:+ newline
    +:+ member "value" value +:+ newline
    +:+ tab +:+ tab +:+ "}" +:+ newline +:+ tab +:+ "]".

Definition set_Labels (l : gmap string string) (s : Service) : Service :=
  {| svc_meta := {| Name := svc_Name s; Namespace := svc_Namespace s; Labels := Some l;
                    Annotations := Annotations (svc_meta s) |};
     Ports := Ports s; SessionAffinity := SessionAffinity s;
     LoadBalancerIP := LoadBalancerIP s; Ingress := Ingress s |}.

(** ** Ensure *)

Definition lb_status (lb : loadBalancer) : LoadBalancerStatus :=
  {| st_Ingress := [ {| ing_IP := address (ip lb); ing_Hostname := lb_name lb |} ] |}.

Section handlers.
Context {W} `{!Cloud W}.

(** The service of a balancer in a project gets the project label when it has
    none: on the object, then in the cluster. *)
Definition needs_project_label (lb : loadBalancer) : Prop :=
  let label := ProjectIDLabel (Global (config (pc_cs (cloud lb)))) in
  projectID (cloud lb) ≠ "" ∧ label ≠ "" ∧ map_get (labels (svc_meta (service lb))) label = "".
#[export] Instance needs_project_label_dec lb : Decision (needs_project_label lb).
Proof. unfold needs_project_label. apply _. Defined.

Definition labelProject : M (lbst W) unit :=
  lb ← the_lb;
  let label := ProjectIDLabel (Global (config (pc_cs (cloud lb)))) in
  let svc := service lb in
  if decide (needs_project_label lb) then
    match Labels (svc_meta svc) with
    | None => panic "assignment to entry in nil map"
    | Some l =>
        modify_lb (set_service (set_Labels (<[label := projectID (cloud lb)]> l) svc)) ;;
        wrap (λ e, Errorf "unable to patch service with project-id label: %v" [Error e])
          (on_env (call_err (PatchService (svc_Namespace svc) (svc_Name svc)
                               (createJSONPatchForLabel label (projectID (cloud lb))))))
    end
  else mret tt.

(** The last step of EnsureLoadBalancer on the balancer: a rule is created when
    there is none to keep. *)
Definition ensureExists (exists_already : bool) : M (lbst W) LoadBalancerStatus :=
  lb ← the_lb;
  let status := lb_status lb in
  (if exists_already then mret tt
   else
     r ← createLoadBalancerRule;
     modify_lb (set_rule (Some r)) ;;
     assignTagsToRule) ;;
  mret status.

(** From the IP to the tags of the rule, for a balancer that may be managed. *)
Definition ensureManaged (fuel : nat) : M (lbst W) LoadBalancerStatus :=
  loadLoadBalancerIP fuel ;;
  lb ← the_lb;
  (if decide (LoadBalancerIP (service lb) ≠ "" ∧ address (ip lb) ≠ LoadBalancerIP (service lb))
   then updateLoadBalancerIP else mret tt) ;;
  result ← checkLoadBalancerRule;
  (if needsUpdate result then updateLoadBalancerRule else mret tt) ;;
  (if needsTags result then assignTagsToRule else mret tt) ;;
  ensureExists (exists_ result).

(** The part of EnsureLoadBalancer that works on the balancer. *)
Definition ensureRule (fuel : nat) : M (lbst W) LoadBalancerStatus :=
  labelProject ;;
  lb ← the_lb;
  setAlgorithm (service lb) ;;
  lb ← the_lb;
  match shouldManageLB lb with
  | Some err => throw err
  | None => ensureManaged fuel
  end.

Context (cs : CSCloud) (fuel : nat).

Definition ensure_locked (svc : Service) (ns : list Node) : M (state W) LoadBalancerStatus :=
  if decide (length (Ports svc) = 0) then throw (Errorf "requested load balancer with no ports" [])
  else
    on_registry (updateNodes cs ns) ;;
    ids ← on_registry (idsForService cs svc);
    let '(_, networkIDs, projectID) := (ids : list string * list string * string) in
    lb ← on_genv (getLoadBalancer cs svc projectID networkIDs);
    ensured ← with_lb lb (ensureRule fuel);
    let '(lb, status) := (ensured : loadBalancer * LoadBalancerStatus) in
    now ← on_genv (call Now);
    push cs {| qe_service := service lb; qe_lb := Some lb; updatePool := true;
               start := now; backoffUntil := zero_time |} ;;
    mret status.

Definition EnsureLoadBalancer (svc : option Service) (ns : list Node) :
    M (state W) LoadBalancerStatus :=
  match svc with
  | None => throw (Errorf "EnsureLoadBalancer: service cannot be nil" [])
  | Some svc => with_lock svc (ensure_locked svc ns)
  end.

(** ** Get *)

(** The status, or [None] for (nil, false). *)
Definition GetLoadBalancer (svc : option Service) : M (state W) (option LoadBalancerStatus) :=
  match svc with
  | None => throw (Errorf "GetLoadBalancer: service cannot be nil" [])
  | Some svc => with_lock svc (
      lb ← on_genv (getLoadBalancer cs svc "" []);
      match rule lb with
      | None => mret None
      | Some _ => mret (Some (lb_status lb))
      end)
  end.

(** ** Update *)

Definition UpdateLoadBalancer (svc : option Service) (ns : list Node) : M (state W) unit :=
  match svc with
  | None => throw (Errorf "UpdateLoadBalancer: service cannot be nil" [])
  | Some svc =>
      on_registry (updateNodes cs ns) ;;
      now ← on_genv (call Now);
      push cs {| qe_service := svc; qe_lb := None; updatePool := false;
                 start := now; backoffUntil := zero_time |}
  end.

(** ** Delete *)

Definition deleteBalancer : M (lbst W) unit :=
  deleteLoadBalancerRule ;;
  lb ← the_lb;
  if decide (id (ip lb) ≠ "") then on_env (releaseIPIfManaged (cloud lb) (ip lb) (service lb))
  else mret tt.

Definition delete_locked (svc : Service) : M (state W) unit :=
  lb ← on_genv (getLoadBalancer cs svc "" []);
  match rule lb with
  | None => mret tt
  | Some _ =>
      if isLBRemovalEnabled lb svc then
        match shouldManageLB lb with
        | Some _ => mret tt
        | None => with_lb lb deleteBalancer ;; mret tt
        end
      else mret tt
  end.

Definition EnsureLoadBalancerDeleted (svc : option Service) : M (state W) unit :=
  match svc with
  | None => throw (Errorf "EnsureLoadBalancerDeleted: service cannot be nil" [])
  | Some svc => with_lock svc (delete_locked svc)
  end.
End handlers.

(** ** The patch *)

(** Reading a segment of a JSON pointer back (RFC 6901). *)
Fixpoint rfc6901_unescape (s : string) : string :=
  match s with
  | "" => ""
  | String "~" (String "0" s) => String "~" (rfc6901_unescape s)
  | String "~" (String "1" s) => String "/" (rfc6901_unescape s)
  | String a s => String a (rfc6901_unescape s)
  end.

Lemma rfc6901_roundtrip s : rfc6901_unescape (rfc6901_escape s) = s.
Proof.
  induction s as [|a s IH]; [done|].
  destruct (decide (a = "~"%char)) as [->|H1].
  { change (String "~" (rfc6901_unescape (rfc6901_escape s)) = String "~" s). by rewrite IH. }
  destruct (decide (a = "/"%char)) as [->|H2].
  { change (String "/" (rfc6901_unescape (rfc6901_escape s)) = String "/" s). by rewrite IH. }
  replace (rfc6901_escape (String a s)) with (String a (rfc6901_escape s))
    by (destruct a as [[] [] [] [] [] [] [] []]; done).
  replace (rfc6901_unescape (String a (rfc6901_escape s)))
    with (String a (rfc6901_unescape (rfc6901_escape s)))
    by (destruct a as [[] [] [] [] [] [] [] []]; done).
  by rewrite IH.
Qed.

Lemma rfc6901_escape_no_slash s : has_byte "/" (rfc6901_escape s) = false.
Proof.
  induction s as [|a s IH]; [done|].
  destruct (decide (a = "~"%char)) as [->|H1]; [done|].
  destruct (decide (a = "/"%char)) as [->|H2]; [done|].
  replace (rfc6901_escape (String a s)) with (String a (rfc6901_escape s))
    by (destruct a as [[] [] [] [] [] [] [] []]; done).
  simpl. by rewrite IH, bool_decide_false.
Qed.

(** The pointer in the patch addresses the label: split at the slashes and
    unescaped, it is the path metadata, labels, key, for every key, those with
    slashes and tildes included. *)
Theorem label_path_addresses (key : string) :
  rfc6901_unescape <$> Split (label_path key) "/" = [""; "metadata"; "labels"; key].
Proof.
  change (label_path key) with
    ("" +:+ String "/" ("metadata" +:+ String "/" ("labels" +:+ String "/" (rfc6901_escape key)))).
  rewrite !Split_app_sep by done. rewrite Split_no_sep by apply rfc6901_escape_no_slash.
  simpl. by rewrite rfc6901_roundtrip.
Qed.

(** ** Delete *)

Section delete_facts.
Context {W} `{!Cloud W}.
Implicit Types (cs : CSCloud) (s : state W).

Lemma deleteBalancer_wp lb r (e : env W) :
  rule lb = Some r →
  wp deleteBalancer (λ res (s' : lbst W), res ≠ Blocked ∧
    match getClient (cloud lb) with
    | inl err => res = Err err ∧ lenv s' = e
    | inr c => ∃ l, elog (lenv s') = elog e ++ deletion lb c r :: l ∧
        Forall (reads_or_releases (ip lb)) l
    end) (LB e lb).
Proof.
  intros Hr. unfold deleteBalancer. apply wp_bind.
  eapply wp_mono; [by apply (deleteLoadBalancerRule_spec (LB e lb) r)|].
  cbn [lobj lenv]. intros res s1 (Hret & Hobj & Hc).
  destruct (getClient (cloud lb)) as [err|c].
  { destruct Hc as [-> He]. by cbn [on_ok]. }
  destruct Hc as (l & Hl & HF).
  assert (Forall (reads_or_releases (ip lb)) l) as HF'.
  { eapply Forall_impl; [exact HF|]. by left. }
  destruct res as [[]|err| |]; cbn [on_ok]; try done; [|by eauto].
  apply wp_bind. unfold wp at 1. cbn [fst snd on_ok the_lb gets]. rewrite Hobj. cbn [ip cloud set_rule service].
  case_decide; [|apply wp_ret; by eauto].
  apply wp_on_env. pose proof (releaseIPIfManaged_logs (cloud lb) (ip lb) (service lb) (lenv s1)) as (l2 & Hl2 & HF2).
  split; [apply releaseIPIfManaged_unblocked|]. exists (l ++ l2). cbn [lenv]. rewrite Hl2, Hl, <- app_assoc.
  split; [done|]. by apply Forall_app.
Qed.

(** (C2) Deleting a balancer, against every behaviour of CloudStack.  It is
    looked up by reading only.  When there is no rule, when removal is not
    enabled for the service or its environment, or when the rule is not the
    provider's, the answer is success and nothing is asked to change.
    Otherwise exactly one deletion is requested, for the rule that was found,
    and after it at most the release of the rule's own IP.  The queue and the
    registry are left alone, and the lock of the service is given back. *)
Theorem EnsureLoadBalancerDeleted_safe cs svc s (Hrest : at_rest s) :
  wp (EnsureLoadBalancerDeleted cs (Some svc)) (λ r s', at_rest s' ∧ registry s' = registry s ∧
    queue s' = queue s ∧
    match (getLoadBalancer cs svc "" [] (genv s)).2 with
    | Ok lb =>
        match rule lb with
        | Some rl =>
            if isLBRemovalEnabled lb svc && bool_decide (shouldManageLB lb = None) then
              ∃ c l1 l2, getClient (cloud lb) = inr c ∧ Forall reads_only l1 ∧
                elog (genv s') = elog (genv s) ++ l1 ++ deletion lb c rl :: l2 ∧
                Forall (reads_or_releases (ip lb)) l2
            else r = Ok tt ∧ st_logs reads_only s s'
        | None => r = Ok tt ∧ st_logs reads_only s s'
        end
    | Err e => r = Err e ∧ st_logs reads_only s s'
    | _ => False
    end) s.
Proof.
  destruct Hrest as [Hkeyed Hfree]. cbn [EnsureLoadBalancerDeleted].
  apply wp_with_lock; [done|]. unfold delete_locked.
  set (s0 := locked_start svc s).
  apply wp_bind, wp_on_genv. change (genv s0) with (genv s). unfold wp at 1.
  pose proof (getLoadBalancer_spec cs svc "" [] (genv s)) as H. unfold wp in H.
  destruct (getLoadBalancer cs svc "" [] (genv s)) as [e1 [lb|err| |]]; cbn [fst snd on_ok] in *;
    destruct H as [Hread Hb]; try done.
  2: { split; [done|]. intros l Hl. unfold at_rest. cbn [set_svcLock set_genv svcLock queue registry genv].
       split_and!; try done. by rewrite Hl. }
  assert (∀ t : state W, svcLock t = svcLock s0 → registry t = registry s0 → queue t = queue s0 →
    ∀ l, inUse l = inUse (svcLock s) → at_rest (set_svcLock l t) ∧
      registry (set_svcLock l t) = registry s ∧ queue (set_svcLock l t) = queue s) as Hend.
  { intros t H1 H2 H3 l Hl. unfold at_rest. cbn [set_svcLock svcLock queue registry].
    rewrite H2, H3, Hl. by split_and!. }
  destruct Hb as (Hb & _). pose proof Hb as (_ & _ & _ & _ & [c Hc] & _).
  destruct (rule lb) as [rl|] eqn:Hrl.
  2: { apply wp_ret. split; [done|]. intros l Hl. by destruct (Hend (set_genv e1 s0) eq_refl eq_refl eq_refl l Hl) as (?&?&?). }
  destruct (isLBRemovalEnabled lb svc) eqn:Hen; cbn [andb].
  2: { apply wp_ret. split; [done|]. intros l Hl. by destruct (Hend (set_genv e1 s0) eq_refl eq_refl eq_refl l Hl) as (?&?&?). }
  destruct (shouldManageLB lb) eqn:Hm.
  { apply wp_ret. split; [done|]. intros l Hl. by destruct (Hend (set_genv e1 s0) eq_refl eq_refl eq_refl l Hl) as (?&?&?). }
  rewrite bool_decide_true by done. destruct Hread as (l1 & Hl1 & HF1).
  apply wp_bind, wp_with_lb. eapply wp_mono; [by apply deleteBalancer_wp|].
  intros r t (Hnb & Ht). rewrite Hc in Ht. destruct Ht as (l2 & Hl2 & HF2).
  assert (∀ l, inUse l = inUse (svcLock s) →
    at_rest (set_svcLock l (set_genv (lenv t) (set_genv e1 s0))) ∧
    registry s = registry s ∧ queue s = queue s ∧
    ∃ c l1 l2, getClient (cloud lb) = inr c ∧ Forall reads_only l1 ∧
      elog (lenv t) = elog (genv s) ++ l1 ++ deletion lb c rl :: l2 ∧
      Forall (reads_or_releases (ip lb)) l2) as Hfin.
  { intros l Hl. destruct (Hend (set_genv (lenv t) (set_genv e1 s0)) eq_refl eq_refl eq_refl l Hl) as (?&?&?).
    split_and!; [done..|]. exists c, l1, l2. cbn [set_genv genv] in Hl2.
    rewrite Hl2, Hl1, <- app_assoc. by split_and!. }
  by destruct r as [[]|err|p|]; cbn [on_ok]; (split; [done|]).
Qed.
End delete_facts.

(** ** Ensure *)

(** What Ensure may ask for, starting from the balancer [lb0] that was found:
    reading; labelling this service; changing the algorithm of, or deleting, the
    rule that was found and no other; setting tags of this service; taking or
    giving back an IP; creating a rule.  The machines of a rule are left to the
    queue. *)
Definition allowed (lb0 : loadBalancer) (e : event) : Prop :=
  ip_event (service lb0) e ∨
  match projT2 e with
  | PatchService ns n _ => ns = svc_Namespace (service lb0) ∧ n = svc_Name (service lb0)
  | UpdateLoadBalancerRule _ i _ => lbr_Id <$> rule lb0 = Some i
  | CustomRequest _ _ _ KCreateRule _ => True
  | CustomRequest _ _ _ KDeleteRule _ => ∃ c r0, rule lb0 = Some r0 ∧ e = deletion lb0 c r0
  | _ => False
  end.

Section ensure_facts.
Context {W} `{!Cloud W}.

Section allowed.
Context (lb0 : loadBalancer).

(** The balancer is for the same service in the same cloud. *)
Definition same_service (lb : loadBalancer) : Prop :=
  cloud lb = cloud lb0 ∧ lb_name lb = lb_name lb0 ∧
  svc_Name (service lb) = svc_Name (service lb0) ∧
  svc_Namespace (service lb) = svc_Namespace (service lb0).

(** And its rule is the one that was found, or none. *)
Definition same_rule (lb : loadBalancer) : Prop :=
  same_service lb ∧ (rule lb = None ∨ lbr_Id <$> rule lb = lbr_Id <$> rule lb0).

Lemma same_tags lb : same_service lb → tagsForService (service lb) = tagsForService (service lb0).
Proof. intros (_ & _ & Hn & Hns). unfold tagsForService. by rewrite Hn, Hns. Qed.

Lemma same_ip_event lb e : same_service lb → ip_event (service lb) e → allowed lb0 e.
Proof.
  intros Hs He. left. unfold ip_event in *. rewrite <- (same_tags lb) by done. exact He.
Qed.

Lemma reads_allowed e : reads_only e → allowed lb0 e.
Proof. intros He. left. by left. Qed.

Lemma serviceToLBPorts_same : guarded (W:=W) same_rule (allowed lb0) serviceToLBPorts.
Proof. apply serviceToLBPorts_guarded; [done|apply reads_allowed]. Qed.

Lemma serviceToLBPorts_service : guarded (W:=W) same_service (allowed lb0) serviceToLBPorts.
Proof. apply serviceToLBPorts_guarded; [done|apply reads_allowed]. Qed.

Lemma guarded_reads {A} I (m : M (env W) A) :
  preserves (logs reads_only) m → guarded I (allowed lb0) (on_env m).
Proof. intros Hm. apply (guarded_mono _ reads_only); [apply reads_allowed|by apply guarded_env]. Qed.

Lemma deleteLoadBalancerRule_same : guarded (W:=W) same_rule (allowed lb0) deleteLoadBalancerRule.
Proof.
  unfold deleteLoadBalancerRule. guarding.
  - apply guarded_call. right. simpl. destruct H as [(Hc & _) [Hn|Hi]]; [congruence|].
    rewrite H0 in Hi. destruct (rule lb0) as [r0|] eqn:Hr0; simplify_eq/=.
    exists a, r0. split; [done|]. unfold deletion. by rewrite Hc, Hi.
  - apply guarded_reads. preserve.
  - apply guarded_modify. intros lb1 [Hs _]. split; [exact Hs|by left].
Qed.

#[local] Hint Resolve serviceToLBPorts_same serviceToLBPorts_service
  deleteLoadBalancerRule_same : ccm.

Lemma checkLoadBalancerRule_same : guarded (W:=W) same_rule (allowed lb0) checkLoadBalancerRule.
Proof.
  unfold checkLoadBalancerRule. guarding.
  apply guarded_modify. intros lb1 [Hs _]. split; [exact Hs|]. simplify_eq.
  destruct H as [_ [Hn|Hi]]; [congruence|]. right. by rewrite <- Hi, E.
Qed.

Lemma updateLoadBalancerRule_same : guarded (W:=W) same_rule (allowed lb0) updateLoadBalancerRule.
Proof.
  unfold updateLoadBalancerRule. guarding. apply guarded_call. right. simpl.
  destruct H as [_ [Hn|Hi]]; [congruence|]. by rewrite <- Hi, H0.
Qed.

Lemma assignTagsToRule_same : guarded (W:=W) same_service (allowed lb0) assignTagsToRule.
Proof.
  unfold assignTagsToRule. guarding. apply guarded_env, setDefaultTags_logs.
  intros e. by apply same_ip_event.
Qed.

Lemma guarded_same_rule {A} (m : M (lbst W) A) P :
  (∀ s, rule (lobj (m s).1) = rule (lobj s)) →
  guarded same_service P m → guarded same_rule P m.
Proof.
  intros Hr Hm s [Hs Hrule]. destruct (Hm s Hs) as [Hs' Hl]. split; [|done].
  split; [done|]. by rewrite Hr.
Qed.

Lemma labelProject_same : guarded (W:=W) same_rule (allowed lb0) labelProject.
Proof.
  unfold labelProject. guarding.
  - apply guarded_modify. intros lb1 [(Hc & Hn & _) Hr]. destruct H as [(_ & _ & Hs & Hns) _].
    by split.
  - apply guarded_call. right. simpl. destruct H as [(_ & _ & Hs & Hns) _]. done.
  - apply guarded_keeps, preserves_panic. apply _.
Qed.

Lemma loadLoadBalancerIP_same fuel : guarded (W:=W) same_rule (allowed lb0) (loadLoadBalancerIP fuel).
Proof.
  unfold loadLoadBalancerIP. guarding; try (apply guarded_modify; by intros lb1 Hs).
  apply guarded_env, (getLoadBalancerIP_logs _ (service lb)).
  intros e. apply same_ip_event, H.
Qed.

Lemma updateLoadBalancerIP_same : guarded (W:=W) same_rule (allowed lb0) updateLoadBalancerIP.
Proof.
  unfold updateLoadBalancerIP. guarding; try (apply guarded_modify; by intros lb1 Hs).
  - apply guarded_reads. preserve.
  - apply guarded_modify. intros lb1 [Hs _]. split; [done|by left].
  - apply guarded_env. intros s. eapply logs_mono; [|apply releaseIPIfManaged_logs].
    intros e [He|He]; left; [by left|]. right. unfold disassociates in He.
    destruct e as [A []]; simpl in *; try done. by destruct k.
Qed.

Lemma setAlgorithm_same svc : guarded (W:=W) same_rule (allowed lb0) (setAlgorithm svc).
Proof.
  unfold setAlgorithm. guarding. apply guarded_modify. by intros lb1 Hs.
Qed.

#[local] Hint Resolve checkLoadBalancerRule_same updateLoadBalancerRule_same assignTagsToRule_same
  labelProject_same loadLoadBalancerIP_same updateLoadBalancerIP_same setAlgorithm_same : ccm.

Lemma createLoadBalancerRule_same :
  guarded (W:=W) same_service (allowed lb0) createLoadBalancerRule.
Proof.
  unfold createLoadBalancerRule. guarding.
  - apply guarded_call. by right.
  - apply guarded_reads, (waitJob_logs _ (k:=KCreateRule)). by split.
Qed.

Lemma ensureManaged_leads fuel :
  leads (W:=W) same_rule same_service (allowed lb0) (ensureManaged fuel).
Proof.
  assert (∀ (m : M (lbst W) unit) (b : bool), guarded same_rule (allowed lb0) m →
    guarded same_rule (allowed lb0) (if b then m else mret tt)) as Hif.
  { intros m [] Hm; [done|apply guarded_ret]. }
  assert (∀ lb, same_rule lb → same_service lb) as HI by (by intros lb []).
  unfold ensureManaged. apply leads_bind; [done|by eauto with ccm|]. intros _.
  apply leads_lb. intros lb Hlb. apply leads_bind; [done|case_decide; [by eauto with ccm|apply guarded_ret]|].
  intros _. apply leads_bind; [done|by eauto with ccm|]. intros result.
  apply leads_bind; [done|by apply Hif; eauto with ccm|]. intros _.
  apply leads_bind; [done| |].
  { apply Hif, guarded_same_rule; [|by eauto with ccm]. intros s.
    assert (preserves (@lb_keeps W (λ _, True)) assignTagsToRule) as Hk; [|by destruct (Hk s) as [-> _]].
    unfold assignTagsToRule. apply preserves_bind; [apply _|by eauto with ccm|]. intros lb1.
    apply preserves_bind; [apply _|by eauto with ccm typeclass_instances|]. intros r.
    apply keeps_on_env, (setDefaultTags_logs _ (service lb1)). done. }
  intros _. apply leads_guarded; [done|].
  unfold ensureExists. apply guarded_lb. intros lb1 H1. apply guarded_bind; [|intros; apply guarded_ret].
  destruct (exists_ result); [apply guarded_ret|].
  apply guarded_bind; [apply createLoadBalancerRule_same|]. intros r.
  apply guarded_bind; [by apply guarded_modify|]. intros _. by eauto with ccm.
Qed.
End allowed.

(** The result of labelling, on every branch. *)
Definition labelled_as (lb : loadBalancer) (l : gmap string string) : loadBalancer :=
  set_service (set_Labels
    (<[ProjectIDLabel (Global (config (pc_cs (cloud lb)))) := projectID (cloud lb)]> l) (service lb)) lb.

Definition labelProject_post (s : lbst W) (r : res unit) (s' : lbst W) : Prop :=
  let lb := lobj s in
  if decide (needs_project_label lb) then
    match Labels (svc_meta (service lb)) with
    | None => r = Panic "assignment to entry in nil map" ∧ s' = s
    | Some l => returns r ∧ lobj s' = labelled_as lb l ∧
        elog (lenv s') = elog (lenv s) ++
          [Ev (PatchService (svc_Namespace (service lb)) (svc_Name (service lb))
                 (createJSONPatchForLabel (ProjectIDLabel (Global (config (pc_cs (cloud lb)))))
                    (projectID (cloud lb))))]
    end
  else r = Ok tt ∧ s' = s.

Lemma labelProject_wp s : wp labelProject (labelProject_post s) s.
Proof.
  unfold labelProject, labelProject_post. apply wp_bind. unfold wp at 1. cbn [fst snd on_ok the_lb gets].
  case_decide; [|done]. destruct (Labels (svc_meta (service (lobj s)))) as [l|]; [|done].
  apply wp_bind. unfold wp at 1. cbn [fst snd on_ok modify_lb modify].
  by apply wp_wrap, wp_on_env, wp_call_err; intros w x Hw.
Qed.

(** (C38) A service of a project gets the project label exactly when it has none
    (an empty one counts as none): the label is written to the object and sent
    to the cluster as one patch of this service, an error of the patch is
    returned, and a service that needs no label is left alone.  A service
    object without any label makes the code panic, before any call. *)
Theorem labelProject_spec s :
  wp labelProject (λ r s', labelProject_post s r s' ∧
    (∀ p, r = Panic p → Labels (svc_meta (service (lobj s))) = None ∧ lenv s' = lenv s) ∧
    (r = Ok tt → ¬ needs_project_label (lobj s'))) s.
Proof.
  eapply wp_mono; [apply labelProject_wp|]. intros r s' H. split; [done|].
  unfold labelProject_post in H. case_decide as Hn.
  - destruct (Labels (svc_meta (service (lobj s)))) as [l|] eqn:Hl.
    + destruct H as (Hret & Hobj & _). split; [by intros p ->|]. intros _ (Hp & Hlab & Hget).
      destruct Hn as (Hp' & _). rewrite Hobj in Hget. unfold labelled_as, labels, map_get in Hget.
      simpl in Hget. rewrite Hobj in Hlab. simpl in Hlab. rewrite lookup_insert_eq in Hget. done.
    + destruct H as [-> ->]. split; [by intros p _|done].
  - destruct H as [-> ->]. by split.
Qed.
End ensure_facts.

(** A call that changes nothing in CloudStack: it reads, or labels the service. *)
Definition harmless (svc : Service) (e : event) : Prop :=
  reads_only e ∨
  match projT2 e with
  | PatchService ns n _ => ns = svc_Namespace svc ∧ n = svc_Name svc
  | _ => False
  end.

Section ensure_rule.
Context {W} `{!Cloud W}.

Lemma shouldManageLB_labelled lb l a :
  shouldManageLB (set_algorithm a (labelled_as lb l)) = shouldManageLB lb.
Proof. done. Qed.

(** A successful check that keeps the rule leaves a rule. *)
Lemma check_keeps_rule (s : lbst W) :
  wp checkLoadBalancerRule (λ r s', ∀ c, r = Ok c → exists_ c = true → is_Some (rule (lobj s'))) s.
Proof.
  unfold checkLoadBalancerRule. apply wp_bind. unfold wp at 1. cbn [fst snd on_ok the_lb gets].
  destruct (rule (lobj s)) as [r|]; [|by intros c [= <-]].
  apply wp_bind_any; [naive_solver|]. intros ps s1. apply wp_bind, wp_ret. cbn [on_ok].
  destruct (comparePorts ps r) as [r' eq]. apply wp_bind. unfold wp at 1. cbn [fst snd on_ok modify_lb modify].
  case_decide; [apply wp_ret; eauto|]. apply wp_bind_any; [naive_solver|].
  intros u s2. apply wp_ret. by intros c [= <-].
Qed.

Lemma keeps_obj {A} P (m : M (lbst W) A) s : preserves (lb_keeps P) m → lobj (m s).1 = lobj s.
Proof. intros Hm. apply (Hm s). Qed.

Lemma assignTagsToRule_keeps : preserves (@lb_keeps W (λ _, True)) assignTagsToRule.
Proof.
  unfold assignTagsToRule. apply preserves_bind; [apply _|by eauto with ccm|]. intros lb1.
  apply preserves_bind; [apply _|by eauto with ccm typeclass_instances|]. intros r.
  apply keeps_on_env, (setDefaultTags_logs _ (service lb1)). done.
Qed.

Lemma updateLoadBalancerRule_keeps : preserves (@lb_keeps W (λ _, True)) updateLoadBalancerRule.
Proof.
  unfold updateLoadBalancerRule. apply preserves_bind; [apply _|by eauto with ccm|]. intros lb1.
  apply preserves_bind; [apply _|by eauto with ccm|]. intros c.
  apply preserves_bind; [apply _|by eauto with ccm typeclass_instances|]. intros r.
  by apply preserves_wrap, keeps_on_env, preserves_call_err.
Qed.

Lemma createLoadBalancerRule_status (s : lbst W) :
  wp createLoadBalancerRule (λ _ s', lb_status (lobj s') = lb_status (lobj s)) s.
Proof.
  assert (guarded (W:=W) (λ lb, lb_status lb = lb_status (lobj s)) (λ _, True) serviceToLBPorts) as Hports.
  { by apply serviceToLBPorts_guarded. }
  assert (guarded (W:=W) (λ lb, lb_status lb = lb_status (lobj s)) (λ _, True) createLoadBalancerRule) as Hc.
  { unfold createLoadBalancerRule.
    apply guarded_bind; [apply guarded_client|]. intros c.
    apply guarded_bind; [exact Hports|]. intros ps. by guarding. }
  by apply Hc.
Qed.

Lemma ensureExists_ok b (s : lbst W) :
  (b = true → is_Some (rule (lobj s))) →
  wp (ensureExists b) (λ r s', ∀ st, r = Ok st →
    is_Some (rule (lobj s')) ∧ st = lb_status (lobj s')) s.
Proof.
  intros Hb. unfold ensureExists. apply wp_bind. unfold wp at 1. cbn [fst snd on_ok the_lb gets].
  destruct b.
  - apply wp_bind, wp_ret. cbn [on_ok]. apply wp_ret. intros st [= <-]. auto.
  - apply wp_bind, wp_bind. eapply wp_mono; [apply createLoadBalancerRule_status|].
    intros [r|e|p|] s1 Hs1; cbn [on_ok]; try done. apply wp_bind.
    unfold wp at 1. cbn [fst snd on_ok modify_lb modify]. unfold wp.
    set (s2 := LB _ _). pose proof (keeps_obj _ assignTagsToRule s2 assignTagsToRule_keeps) as Ho.
    destruct (assignTagsToRule s2) as [s3 [[]|e|p|]]; cbn [fst snd on_ok] in *; try done.
    apply wp_ret. intros st [= <-]. rewrite Ho. unfold s2. simpl. split; [by eexists|].
    unfold lb_status in *. simpl. by rewrite <- Hs1.
Qed.

Lemma ensureManaged_ok fuel (s : lbst W) :
  wp (ensureManaged fuel) (λ r s', ∀ st, r = Ok st →
    is_Some (rule (lobj s')) ∧ st = lb_status (lobj s')) s.
Proof.
  unfold ensureManaged. apply wp_bind_any; [naive_solver|]. intros _ s1.
  apply wp_bind. unfold wp at 1. cbn [fst snd on_ok the_lb gets].
  apply wp_bind_any; [naive_solver|]. intros _ s2.
  apply wp_bind. eapply wp_mono; [apply check_keeps_rule|].
  intros [c|e|p|] s3 Hc; cbn [on_ok]; try done. specialize (Hc c eq_refl).
  apply wp_bind. unfold wp at 1.
  assert (lobj ((if needsUpdate c then updateLoadBalancerRule else mret tt) s3).1 = lobj s3) as H4.
  { destruct (needsUpdate c); [|done]. eapply keeps_obj, updateLoadBalancerRule_keeps. }
  destruct ((if needsUpdate c then updateLoadBalancerRule else mret tt) s3) as [s4 [[]|e|p|]];
    cbn [fst snd on_ok] in *; try done.
  apply wp_bind. unfold wp at 1.
  assert (lobj ((if needsTags c then assignTagsToRule else mret tt) s4).1 = lobj s4) as H5.
  { destruct (needsTags c); [|done]. eapply keeps_obj, assignTagsToRule_keeps. }
  destruct ((if needsTags c then assignTagsToRule else mret tt) s4) as [s5 [[]|e|p|]];
    cbn [fst snd on_ok] in *; try done.
  apply ensureExists_ok. by rewrite H5, H4.
Qed.
Lemma ensureRule_wp fuel (s : lbst W) :
  wp (ensureRule fuel) (λ r s', (lb_logs (harmless (service (lobj s))) s s' ∨
    (shouldManageLB (lobj s) = None ∧ lb_logs (allowed (lobj s)) s s')) ∧
    ∀ st, r = Ok st → is_Some (rule (lobj s')) ∧ st = lb_status (lobj s') ∧
      same_service (lobj s) (lobj s') ∧ shouldManageLB (lobj s) = None) s.
Proof.
  unfold ensureRule. apply wp_bind. eapply wp_mono; [apply labelProject_wp|].
  intros r s1 H1.
  assert (lb_logs (harmless (service (lobj s))) s s1 ∧ lb_logs (allowed (lobj s)) s s1 ∧
    (r = Ok tt → lobj s1 = lobj s ∨ ∃ l, lobj s1 = labelled_as (lobj s) l)) as (Hh & Ha & Hobj).
  { unfold labelProject_post in H1. unfold lb_logs. case_decide.
    - destruct (Labels (svc_meta (service (lobj s)))) as [l|]; [|destruct H1 as [-> ->]; by eauto with ccm].
      destruct H1 as (_ & Ho & Hlog). split_and!; [| |eauto].
      + eexists. split; [exact Hlog|]. apply Forall_singleton. by right.
      + eexists. split; [exact Hlog|]. apply Forall_singleton. by right.
    - destruct H1 as [-> ->]. by eauto with ccm. }
  clear H1. destruct r as [[]|e|p|]; cbn [on_ok]; try (by split; [left|]). specialize (Hobj eq_refl).
  apply wp_bind. unfold wp at 1. cbn [fst snd on_ok the_lb gets].
  apply wp_bind. unfold setAlgorithm.
  destruct (affinity_algorithm (SessionAffinity (service (lobj s1)))) as [a|]; [|by split; [left|]].
  unfold wp at 1. cbn [fst snd on_ok modify_lb modify].
  apply wp_bind. unfold wp at 1. cbn [fst snd on_ok the_lb gets lobj].
  assert (shouldManageLB (set_algorithm a (lobj s1)) = shouldManageLB (lobj s)) as ->.
  { destruct Hobj as [->|[l ->]]; done. }
  destruct (shouldManageLB (lobj s)) eqn:Hm; [by split; [left|]|].
  set (s2 := LB _ _). assert (lb_logs (allowed (lobj s)) s s2) as Ha2 by done.
  assert (same_rule (lobj s) (lobj s2)) as Hsame.
  { unfold same_rule, same_service. destruct Hobj as [Ho|[l Ho]]; unfold s2; simpl; rewrite Ho; simpl; tauto. }
  destruct (ensureManaged_leads (lobj s) fuel s2 Hsame) as [Hsame' Hlog].
  pose proof (ensureManaged_ok fuel s2) as Hok. unfold wp in *.
  destruct (ensureManaged fuel s2) as [s3 r]. cbn [fst snd] in *.
  split; [right; split; [done|by etrans]|]. intros st Hst. destruct (Hok st Hst). by split_and!.
Qed.

(** What holds between two operations of the provider. *)
Definition provider_inv (s : state W) : Prop := at_rest s ∧ queued_rules (queue s).

Lemma push_keeps cs e (s : state W) :
  keyed (queue s) → queued_rules (queue s) →
  (∀ lb, qe_lb e = Some lb → is_Some (rule lb)) →
  wp (push cs e) (λ r s', returns r ∧ keyed (queue s') ∧ queued_rules (queue s') ∧
    svcLock s' = svcLock s ∧ elog (genv s') = elog (genv s) ∧
    (r = Ok tt → is_Some (queue s' !! svcKey (qe_service e)))) s.
Proof.
  intros Hk Hq He. eapply wp_mono; [apply push_wp|]. intros r s' (_ & Hsvc & Hlog & Hr).
  assert (∀ x, svcKey (qe_service x) = svcKey (qe_service e) →
    (∀ lb, qe_lb x = Some lb → is_Some (rule lb)) →
    keyed (<[svcKey (qe_service e) := x]> (queue s)) ∧
    queued_rules (<[svcKey (qe_service e) := x]> (queue s))) as Hins.
  { intros x Hx Hlb. split.
    - intros k e' [[<- <-]|[_ ?]]%lookup_insert_Some; [done|by apply Hk].
    - intros k e' lb [[<- <-]|[_ ?]]%lookup_insert_Some Hl; [by apply Hlb|by eapply Hq]. }
  cbn zeta in Hr. destruct (queue s !! svcKey (qe_service e)) as [old|] eqn:Hold.
  - destruct Hr as [-> Hr]. rewrite Hr. destruct (Hins (with_service (qe_service e) old)); [done..|].
    split_and!; try done. by rewrite lookup_insert_eq.
  - destruct r as [[]|err| |]; try done; destruct Hr as [_ Hr]; rewrite Hr.
    + destruct (Hins e); [done..|]. split_and!; try done. by rewrite lookup_insert_eq.
    + by split_and!.
Qed.

(** The lookup that EnsureLoadBalancer begins with: the nodes are registered,
    and CloudStack is asked for the balancer of the service in the project of
    its nodes. *)
Definition ensure_lookup cs svc ns : M (regst W) loadBalancer :=
  if decide (length (Ports svc) = 0) then throw (Errorf "requested load balancer with no ports" [])
  else
    updateNodes cs ns ;;
    ids ← idsForService cs svc;
    let '(_, networkIDs, projectID) := (ids : list string * list string * string) in
    on_renv (getLoadBalancer cs svc projectID networkIDs).

(** The balancer that CloudStack shows to an Ensure that starts in [s]. *)
Definition ensure_shown cs svc ns (s : state W) : option loadBalancer :=
  match (ensure_lookup cs svc ns (Reg (genv s) (registry s))).2 with Ok lb => Some lb | _ => None end.

(** EnsureLoadBalancer under the lock, up to the balancer: it only reads, and
    goes on with the balancer that was shown. *)
Lemma ensure_locked_found cs fuel svc ns (Q : res LoadBalancerStatus → state W → Prop) s :
  (∀ r s', ensure_shown cs svc ns s = None →
     st_logs reads_only s s' → svcLock s' = svcLock s → queue s' = queue s →
     (∀ st, r ≠ Ok st) → Q r s') →
  (∀ lb s', ensure_shown cs svc ns s = Some lb → built_for cs svc lb →
     st_logs reads_only s s' → svcLock s' = svcLock s → queue s' = queue s →
     wp (ensured ← with_lb lb (ensureRule fuel);
         let '(lb, status) := (ensured : loadBalancer * LoadBalancerStatus) in
         now ← on_genv (call Now);
         push cs {| qe_service := service lb; qe_lb := Some lb; updatePool := true;
                    start := now; backoffUntil := zero_time |} ;;
         mret status) Q s') →
  wp (ensure_locked cs fuel svc ns) Q s.
Proof.
  remember (ensure_shown cs svc ns s) as shown eqn:Hshown.
  unfold ensure_shown, ensure_lookup in Hshown. unfold mbind, M_bind in Hshown.
  intros Hbad Hfound. unfold ensure_locked. case_decide.
  { by apply wp_throw, Hbad. }
  apply wp_bind, wp_on_registry. eapply wp_run; [apply updateNodes_wp|].
  intros r t E1 (_ & H1 & _). rewrite E1 in Hshown. cbn [reg renv] in H1. set (s1 := St _ _ _ _).
  destruct r as [[]|e|p|]; cbn [on_ok]; try (by apply Hbad).
  apply wp_bind, wp_on_registry. destruct t as [e1 g1]. eapply wp_run; [apply idsForService_wp|].
  intros r t2 E2 Hlog2. cbn [reg renv s1 genv registry] in Hlog2, E2. rewrite E2 in Hshown. set (s2 := St _ _ _ _).
  assert (st_logs reads_only s s2) as H2 by (destruct H1 as (l & Hl & HF); exists l; by rewrite <- Hl).
  destruct r as [[[hosts nets] p]|e|p|]; cbn [on_ok]; try (by apply Hbad).
  apply wp_bind, wp_on_genv. eapply wp_run; [apply getLoadBalancer_spec|].
  intros r e3 E3 [Hread3 Hlb]. set (s3 := set_genv e3 s2).
  assert (st_logs reads_only s s3) as H3 by (etrans; [exact H2|exact Hread3]).
  unfold on_renv, zoom in Hshown. change (genv s2) with (renv t2) in E3. rewrite E3 in Hshown.
  destruct r as [lb|e|p'|]; cbn [on_ok]; try (by apply Hbad). apply Hfound; [done|apply Hlb|done..].
Qed.

(** The calls of an Ensure with result [r]: those that the balancer that was
    shown allows. *)
Definition ensure_calls cs svc ns (s : state W) (r : res LoadBalancerStatus) (s' : state W) : Prop :=
  match ensure_shown cs svc ns s with
  | None => st_logs reads_only s s' ∧ ∀ st, r ≠ Ok st
  | Some lb => built_for cs svc lb ∧
      match shouldManageLB lb with
      | None => st_logs (allowed lb) s s'
      | Some _ => st_logs (harmless svc) s s' ∧ ∀ st, r ≠ Ok st
      end
  end.

Lemma harmless_allowed lb e : harmless (service lb) e → allowed lb e.
Proof.
  intros [He|He]; [by apply reads_allowed|]. right. by destruct (projT2 e).
Qed.

(** EnsureLoadBalancer under the lock. *)
Lemma ensure_locked_wp cs fuel svc ns (s : state W) :
  keyed (queue s) → queued_rules (queue s) →
  wp (ensure_locked cs fuel svc ns) (λ r s', svcLock s' = svcLock s ∧
    keyed (queue s') ∧ queued_rules (queue s') ∧ ensure_calls cs svc ns s r s' ∧
    ∀ st, r = Ok st → is_Some (queue s' !! svcKey svc)) s.
Proof.
  intros Hk Hq. apply ensure_locked_found; unfold ensure_calls.
  { intros r s' -> Hlog -> -> Hr. split_and!; [done..|]. by intros st ?%Hr. }
  intros lb s3 -> Hb H3 Hl3 Hq3. pose proof Hb as (_ & Hsvc & _).
  apply wp_bind, wp_with_lb. eapply wp_mono; [apply ensureRule_wp|].
  intros r t4 (Hsafe & Hok). cbn [lobj lenv] in *. set (s4 := set_genv (lenv t4) s3).
  rewrite <- Hl3. rewrite <- Hq3 in Hk, Hq.
  assert (match shouldManageLB lb with None => st_logs (allowed lb) s s4
    | Some _ => st_logs (harmless svc) s s4 ∧ ∀ st, r ≠ Ok st end) as Hcalls.
  { destruct (shouldManageLB lb) eqn:Hm.
    - rewrite Hsvc in Hsafe. destruct Hsafe as [Hh|[[=] _]]. split.
      + etrans; [eapply logs_mono; [|exact H3]; by left|exact Hh].
      + intros st Hst. by destruct (Hok st Hst) as (_ & _ & _ & [=]).
    - etrans; [eapply logs_mono; [apply reads_allowed|exact H3]|].
      destruct Hsafe as [Hh|[_ Ha]]; [|exact Ha]. eapply logs_mono; [apply harmless_allowed|exact Hh]. }
  destruct r as [st|e|p'|]; cbn [on_ok].
  2-4: by (destruct (shouldManageLB lb); split_and!; try apply Hcalls).
  destruct (Hok st eq_refl) as (Hrule & _ & (_ & _ & Hn & Hns) & Hm). rewrite Hm in *.
  apply wp_bind, wp_on_genv, wp_call. intros w now _. cbn [on_ok].
  set (s5 := set_genv _ s4). apply wp_bind.
  eapply wp_mono; [apply push_keeps; [done|done|by intros lb' [= <-]]|].
  intros r s6 (Hret & Hk6 & Hq6 & Hl6 & Hlog6 & Hin). cbn [qe_service] in Hin.
  assert (svcKey (service (lobj t4)) = svcKey svc) as Hkey.
  { unfold svcKey. by rewrite Hn, Hns, Hsvc. }
  rewrite Hkey in Hin.
  assert (st_logs (allowed lb) s s6) as H6.
  { destruct Hcalls as (l & Hl & HF). exists (l ++ [Ev Now]). rewrite Hlog6. unfold s5. cbn [set_genv genv elog].
    rewrite Hl, app_assoc. split; [done|]. apply Forall_app. rewrite Forall_singleton.
    split; [done|by apply reads_allowed]. }
  destruct r as [[]|e|p'|]; cbn [on_ok]; try (by split_and!).
  apply wp_ret. split_and!; [done..|]. intros _ _. by apply Hin.
Qed.

(** Running a body under the lock in a state in which no lock is used. *)
Lemma with_lock_inv {A} svc (m : M (state W) A) (K : res A → state W → Prop) (s : state W) :
  provider_inv s →
  (∀ l r s', K r s' → K r (set_svcLock l s')) →
  wp m (λ r s', svcLock s' = svcLock (locked_start svc s) ∧ keyed (queue s') ∧
    queued_rules (queue s') ∧ K r s') (locked_start svc s) →
  wp (with_lock svc m) (λ r s', (r ≠ Blocked → provider_inv s') ∧ K r s') s.
Proof.
  intros [[Hkeyed Hfree] Hq] HK Hm. apply wp_with_lock; [done|].
  eapply wp_mono; [exact Hm|]. intros r s' (Hl & Hk' & Hq' & Hr). split; [done|].
  assert (∀ l, inUse l = inUse (svcLock s) → provider_inv (set_svcLock l s') ∧ K r (set_svcLock l s')) as Hend.
  { intros l Hin. split; [|by apply HK]. split; [split; [done|]|done].
    intros k. cbn [set_svcLock svcLock]. by rewrite Hin. }
  destruct r; try (intros l Hin; by destruct (Hend l Hin)). by split.
Qed.

(** (C1) EnsureLoadBalancer, from the lookup of the balancer to its status,
    against every behaviour of CloudStack.  The balancer that decides is the one
    that CloudStack shows to the lookup Ensure begins with.  When that lookup
    fails, nothing is changed.  When the balancer it shows has a rule that is
    not the provider's, Ensure fails and nothing is changed in CloudStack (the
    service may get its label).  Otherwise the only rule that is changed or
    deleted is the one that was shown, the only tags created are the three of
    the service, and the machines of the rule are not touched: on success the
    service waits in the queue for that.  The invariant of the provider is kept. *)
Theorem EnsureLoadBalancer_safe cs fuel svc ns (s : state W) (Hinv : provider_inv s) :
  wp (EnsureLoadBalancer cs fuel (Some svc) ns) (λ r s', (r ≠ Blocked → provider_inv s') ∧
    match ensure_shown cs svc ns s with
    | None => st_logs reads_only s s' ∧ ∀ st, r ≠ Ok st
    | Some lb => built_for cs svc lb ∧
        match shouldManageLB lb with
        | None => st_logs (allowed lb) s s'
        | Some _ => st_logs (harmless svc) s s' ∧ ∀ st, r ≠ Ok st
        end
    end ∧
    ∀ st, r = Ok st → is_Some (queue s' !! svcKey svc)) s.
Proof.
  apply (with_lock_inv svc _ (λ r s', ensure_calls cs svc ns s r s' ∧
    ∀ st, r = Ok st → is_Some (queue s' !! svcKey svc))); [done|done|].
  destruct Hinv as [[Hkeyed Hfree] Hq].
  exact (ensure_locked_wp cs fuel svc ns (locked_start svc s) Hkeyed Hq).
Qed.

(** *** The other handlers *)

Lemma GetLoadBalancer_wp cs svc (s : state W) :
  provider_inv s →
  wp (GetLoadBalancer cs (Some svc)) (λ r s', (r ≠ Blocked → provider_inv s') ∧
    (returns r ∧ st_logs reads_only s s' ∧ queue s' = queue s ∧
     match (getLoadBalancer cs svc "" [] (genv s)).2 with
     | Ok lb => r = Ok (if rule lb is Some _ then Some (lb_status lb) else None)
     | Err e => r = Err e
     | _ => False
     end)) s.
Proof.
  intros Hinv. apply with_lock_inv; [done|done|]. destruct Hinv as [[Hkeyed Hfree] Hq].
  set (s0 := locked_start svc s). apply wp_bind, wp_on_genv. change (genv s0) with (genv s).
  pose proof (getLoadBalancer_spec cs svc "" [] (genv s)) as H. unfold wp at 1. unfold wp in H.
  destruct (getLoadBalancer cs svc "" [] (genv s)) as [e1 [lb|err| |]]; cbn [fst snd on_ok] in *;
    destruct H as [Hread Hb]; try done.
  destruct (rule lb); by apply wp_ret.
Qed.

(** Reading the status of a balancer changes nothing, and gives back the
    service's lock: the answer is the address and the name of the balancer when
    CloudStack has a rule for the service, "not found" when it has none, and the
    error of the lookup otherwise. *)
Theorem GetLoadBalancer_spec cs svc (s : state W) (Hinv : provider_inv s) :
  wp (GetLoadBalancer cs (Some svc)) (λ r s', at_rest s' ∧ st_logs reads_only s s' ∧
    queue s' = queue s ∧
    match (getLoadBalancer cs svc "" [] (genv s)).2 with
    | Ok lb => r = Ok (if rule lb is Some _ then Some (lb_status lb) else None)
    | Err e => r = Err e
    | _ => False
    end) s.
Proof.
  eapply wp_mono; [by apply GetLoadBalancer_wp|]. intros r s' (Hinv' & Hret & Hlog & Hq & Hr).
  split_and!; try done. apply Hinv'. by destruct r.
Qed.

Lemma UpdateLoadBalancer_wp cs svc ns (s : state W) :
  provider_inv s →
  wp (UpdateLoadBalancer cs (Some svc) ns) (λ r s', provider_inv s' ∧ returns r ∧
    st_logs reads_only s s' ∧ (r = Ok tt → is_Some (queue s' !! svcKey svc))) s.
Proof.
  intros [[Hkeyed Hfree] Hq]. cbn [UpdateLoadBalancer]. apply wp_bind, wp_on_registry.
  eapply wp_mono; [apply updateNodes_wp|]. intros r t (Hret & Hlog1 & _). cbn [reg renv] in Hlog1.
  destruct r as [[]|e|p|]; cbn [on_ok]; try done.
  apply wp_bind, wp_on_genv, wp_call. intros w now _. cbn [on_ok].
  eapply wp_mono; [by apply push_keeps|].
  intros r s2 (Hret2 & Hk2 & Hq2 & Hl2 & Hlog2 & Hin). split; [|split; [done|split; [|exact Hin]]].
  - split; [split; [done|]|done]. intros k. rewrite Hl2. apply Hfree.
  - destruct Hlog1 as (l & Hl & HF). exists (l ++ [Ev Now]). rewrite Hlog2.
    cbn [set_genv genv elog]. rewrite Hl, app_assoc. split; [done|].
    apply Forall_app. rewrite Forall_singleton. by split.
Qed.

(** UpdateLoadBalancer changes nothing in CloudStack: it refreshes the
    registry and, on success, leaves the service in the queue for a worker. *)
Lemma UpdateLoadBalancer_queues cs svc ns (s : state W) (Hinv : provider_inv s) :
  wp (UpdateLoadBalancer cs (Some svc) ns) (λ r s', provider_inv s' ∧ returns r ∧
    st_logs reads_only s s' ∧ (r = Ok tt → is_Some (queue s' !! svcKey svc))) s.
Proof. by apply UpdateLoadBalancer_wp. Qed.

Lemma delete_keeps cs svc (s : state W) :
  provider_inv s →
  wp (EnsureLoadBalancerDeleted cs (Some svc)) (λ r s', (r ≠ Blocked → provider_inv s') ∧ True) s.
Proof.
  intros Hinv. apply with_lock_inv; [done|done|]. destruct Hinv as [[Hkeyed Hfree] Hq].
  set (s0 := locked_start svc s). unfold delete_locked. apply wp_bind, wp_on_genv.
  assert (∀ (m : M (state W) unit) e, (∀ t, svcLock t = svcLock s0 → queue t = queue s →
      wp m (λ _ s', svcLock s' = svcLock s0 ∧ queue s' = queue s) t) →
    wp m (λ r s', svcLock s' = svcLock s0 ∧ keyed (queue s') ∧ queued_rules (queue s') ∧ True)
      (set_genv e s0)) as Hframe.
  { intros m e Hm. eapply wp_mono; [by apply Hm|]. intros r s' [Hl ->]. by split_and!. }
  unfold wp at 1. destruct (getLoadBalancer cs svc "" [] (genv s0)) as [e1 [lb|err| |]];
    cbn [fst snd on_ok]; try by split_and!.
  apply Hframe. intros t Hl Ht.
  destruct (rule lb); [|done]. destruct (isLBRemovalEnabled lb svc); [|done].
  destruct (shouldManageLB lb); [done|]. apply wp_bind, wp_with_lb. unfold wp at 1.
  by destruct (deleteBalancer (LB (genv t) lb)) as [t' [[]|err|p|]].
Qed.

(** *** Everything the provider does *)

(** One operation of a provider that comes back: a call of the service
    controller, a round of a worker, or an event of the endpoints informer. *)
Inductive provider_step (cs : CSCloud) : state W → state W → Prop :=
  | step_get svc s s' r :
      GetLoadBalancer cs (Some svc) s = (s', r) → returns r → provider_step cs s s'
  | step_ensure fuel svc ns s s' r :
      EnsureLoadBalancer cs fuel (Some svc) ns s = (s', r) → returns r → provider_step cs s s'
  | step_update svc ns s s' r :
      UpdateLoadBalancer cs (Some svc) ns s = (s', r) → returns r → provider_step cs s s'
  | step_delete svc s s' r :
      EnsureLoadBalancerDeleted cs (Some svc) s = (s', r) → returns r → provider_step cs s s'
  | step_worker fuel exitWhenDone expired t s s' r :
      worker_round cs fuel exitWhenDone expired t s = (s', r) → returns r → provider_step cs s s'
  | step_endpoints ev s :
      provider_step cs s (St (genv s) (handleEndpoints ev (registry s)) (queue s) (svcLock s)).

(** The state after start-up. *)
Definition provider_init (e : env W) : state W := St e newNodeRegistry ∅ new_serviceLock.

Lemma provider_step_inv cs s s' : provider_step cs s s' → provider_inv s → provider_inv s'.
Proof.
  assert (∀ A (r : res A), returns r → r ≠ Blocked) as Hret by (by intros A []).
  intros Hstep Hinv. destruct Hstep as [svc s s' r E Hr|fuel svc ns s s' r E Hr|svc ns s s' r E Hr
    |svc s s' r E Hr|fuel b x t s s' r E Hr|ev s].
  - pose proof (GetLoadBalancer_wp cs svc s Hinv) as H. unfold wp in H. rewrite E in H. by apply H, Hret.
  - pose proof (with_lock_inv svc (ensure_locked cs fuel svc ns) (λ _ _, True) s Hinv) as H.
    unfold wp in H. change (EnsureLoadBalancer cs fuel (Some svc) ns s)
      with (with_lock svc (ensure_locked cs fuel svc ns) s) in E.
    rewrite E in H. apply H; [done| |by apply Hret].
    destruct Hinv as [[Hk _] Hq].
    destruct (ensure_locked_wp cs fuel svc ns (locked_start svc s) Hk Hq) as (?&?&?&_). by split_and!.
  - pose proof (UpdateLoadBalancer_wp cs svc ns s Hinv) as H. unfold wp in H. rewrite E in H. apply H.
  - pose proof (delete_keeps cs svc s Hinv) as H. unfold wp in H. rewrite E in H. by apply H, Hret.
  - destruct Hinv as [Hrest Hq]. pose proof (worker_round_wp cs fuel b x t s Hrest Hq) as H.
    unfold wp in H. rewrite E in H. destruct r as [go|err| |]; try done. destruct H as (?&?&_). by split.
  - exact Hinv.
Qed.

(** (C15) Between any two operations of a provider, in every order and against
    every behaviour of CloudStack, each queue entry is under the key of its own
    service, a balancer that waits with its entry has a rule (so no worker
    dereferences a missing one), and the lock table is empty: no operation
    leaves a lock behind. *)
Theorem provider_reachable_inv cs (e : env W) (s : state W)
    (Hreach : rtc (provider_step cs) (provider_init e) s) :
  keyed (queue s) ∧ queued_rules (queue s) ∧ inUse (svcLock s) = ∅.
Proof.
  assert (provider_inv (provider_init e)) as Hinit.
  { split; [split|]; [intros k x Hk|intros k|intros k x lb Hk]; simpl in *;
      by rewrite lookup_empty in *. }
  assert (provider_inv s) as [[Hk Hl] Hq].
  { revert Hinit. induction Hreach as [|x y z Hxy _ IH]; intros Hx; [done|].
    apply IH. by eapply provider_step_inv. }
  split_and!; [done..|]. by apply map_empty.
Qed.

(** (C22) A balancer that is as the service wants it is left alone: when the
    rule is the provider's, has the name, ports, algorithm and tags that the
    service asks for, the IP is the requested one (or none is requested) and the
    project label is set, ensuring it again makes no call at all and returns the
    status of the balancer. *)
Theorem ensureRule_steady fuel (s : lbst W) r proto :
  let lb := lobj s in
  let svc := service lb in
  rule lb = Some r → shouldManageLB lb = None → ¬ needs_project_label lb →
  affinity_algorithm (SessionAffinity svc) = Some (lbr_Algorithm r) →
  isValid (ip lb) = true → (LoadBalancerIP svc = "" ∨ address (ip lb) = LoadBalancerIP svc) →
  has_label (svc_meta svc) lbUseTargetPort = false → single_protocol proto (Ports svc) →
  reusable lb r {| ports := node_port <$> sortPorts (Ports svc); protocol := proto |} →
  hasMissingTags r = false →
  wp (ensureRule fuel) (λ res s', res = Ok (lb_status lb) ∧ lenv s' = lenv s) s.
Proof.
  intros lb svc Hr Hm Hlabel Halg Hip Haddr Htarget Hports Hre Htags.
  unfold ensureRule. apply wp_bind. unfold labelProject. apply wp_bind. unfold wp at 1.
  cbn [fst snd on_ok the_lb gets]. rewrite decide_False by done. apply wp_ret. cbn [on_ok].
  apply wp_bind. unfold wp at 1. cbn [fst snd on_ok the_lb gets]. unfold setAlgorithm.
  fold lb svc. rewrite Halg. apply wp_bind. unfold wp at 1. cbn [fst snd on_ok modify_lb modify].
  apply wp_bind. unfold wp at 1. cbn [fst snd on_ok the_lb gets lobj].
  change (shouldManageLB (set_algorithm (lbr_Algorithm r) (lobj s))) with (shouldManageLB lb).
  rewrite Hm. unfold ensureManaged, loadLoadBalancerIP.
  apply wp_bind, wp_bind. unfold wp at 1. cbn [fst snd on_ok the_lb gets lobj].
  change (ip (set_algorithm (lbr_Algorithm r) (lobj s))) with (ip lb). rewrite Hip.
  apply wp_ret. cbn [on_ok]. apply wp_bind. unfold wp at 1. cbn [fst snd on_ok the_lb gets lobj].
  rewrite decide_False by (intros [? ?]; by destruct Haddr). apply wp_bind, wp_ret. cbn [on_ok].
  apply wp_bind. unfold checkLoadBalancerRule. apply wp_bind. unfold wp at 1.
  cbn [fst snd on_ok the_lb gets lobj]. change (rule (set_algorithm (lbr_Algorithm r) (lobj s))) with (rule lb).
  rewrite Hr. apply wp_bind. unfold wp at 1.
  rewrite (serviceToLBPorts_nodeports _ proto) by done. cbn [fst snd on_ok].
  apply wp_bind, wp_ret. cbn [on_ok].
  set (ps := {| ports := _; protocol := _ |}).
  destruct (comparePorts_iff ps r) as [Hiff Hsort].
  destruct (comparePorts ps r) as [r' eq]. cbn [fst snd] in Hiff, Hsort. subst r'.
  apply wp_bind. unfold wp at 1. cbn [fst snd on_ok modify_lb modify].
  destruct Hre as [Hd Hname].
  rewrite decide_True by (split; [by apply (proj2 Hiff)|exact Hname]).
  apply wp_ret. cbn [on_ok needsUpdate needsTags exists_].
  change (hasMissingTags (sort_rule r)) with (hasMissingTags r). rewrite Htags.
  rewrite bool_decide_false by (intros Hne; by apply Hne).
  apply wp_bind, wp_ret. cbn [on_ok]. apply wp_bind, wp_ret. cbn [on_ok].
  unfold ensureExists. apply wp_bind. unfold wp at 1. cbn [fst snd on_ok the_lb gets lobj].
  apply wp_bind, wp_ret. cbn [on_ok]. by apply wp_ret.
Qed.
End ensure_rule.
