(* ===== verification/Ensure.v ===== *)
(** * What an Ensure that succeeds has done

    EnsureLoadBalancer of Handlers, from the balancer that was found to its status
    and its entry in the queue: the rule is kept or there is a new one, with the
    requests that were made for it, for services whose ports need no endpoints. *)
From stdpp Require Import base list strings gmap sets.
From S2P Require Import Prelude GoStd Kube Cloud Config Meta ServiceLock Balancer Ports PublicIP Rule Nodes State Queue Handlers.

(** ** Requests about rules *)

(** The creation or the deletion of a rule. *)
Definition about_rule (e : event) : Prop :=
  match projT2 e with
  | CustomRequest _ _ _ KCreateRule _ | CustomRequest _ _ _ KDeleteRule _ => True
  | _ => False
  end.
#[export] Instance about_rule_dec e : Decision (about_rule e).
Proof. destruct e as [A []]; try (right; intros []). destruct k; first [by left|right; intros []]. Defined.

Definition no_rule_request (e : event) : Prop := ¬ about_rule e.

(** The creations and deletions of a log, in their order. *)
Definition rule_requests (l : list event) : list event := filter about_rule l.

Lemma rule_requests_app l1 l2 : rule_requests (l1 ++ l2) = rule_requests l1 ++ rule_requests l2.
Proof. apply filter_app. Qed.

Lemma rule_requests_none l : Forall no_rule_request l → rule_requests l = [].
Proof. induction 1 as [|e l He _ IH]; [done|]. unfold rule_requests. by rewrite filter_cons_False. Qed.

Lemma reads_no_request e : reads_only e → no_rule_request e.
Proof. intros [_ He] Ha. destruct e as [A []]; try done. by destruct k. Qed.

Lemma ip_no_request svc e : ip_event svc e → no_rule_request e.
Proof.
  intros [He|He]; [by apply reads_no_request|]. intros Ha. destruct e as [A []]; try done. by destruct k.
Qed.

Lemma releases_no_request i e : reads_or_releases i e → no_rule_request e.
Proof.
  intros [He|He]; [by apply reads_no_request|]. intros Ha. destruct e as [A []]; try done. by destruct k.
Qed.

Lemma reads_requests l : Forall reads_only l → rule_requests l = [].
Proof. intros Hl. apply rule_requests_none. eapply Forall_impl; [exact Hl|apply reads_no_request]. Qed.

(** ** What is wanted of a balancer *)

(** The ports of the rule of a service whose ports all have protocol [proto]. *)
Definition wanted_ports (proto : string) (lb : loadBalancer) : lbPorts :=
  {| ports := node_port <$> sortPorts (Ports (service lb)); protocol := proto |}.

(** The ports of the rule are the node ports of the service, of one protocol. *)
Definition plain_service (proto : string) (svc : Service) : Prop :=
  has_label (svc_meta svc) lbUseTargetPort = false ∧ single_protocol proto (Ports svc).
Definition plain_ports (proto : string) (lb : loadBalancer) : Prop := plain_service proto (service lb).

(** The two balancers are for the same wish: they differ at most in their
    rule, their IP and the order of the ports. *)
Definition same_wish (lb lb' : loadBalancer) : Prop :=
  cloud lb' = cloud lb ∧ lb_name lb' = lb_name lb ∧ algorithm lb' = algorithm lb ∧
  svc_meta (service lb') = svc_meta (service lb) ∧
  LoadBalancerIP (service lb') = LoadBalancerIP (service lb) ∧
  sortPorts (Ports (service lb')) = sortPorts (Ports (service lb)).

#[export] Instance same_wish_preorder : PreOrder same_wish.
Proof.
  split; [by intros lb|]. intros lb1 lb2 lb3 (?&?&?&?&?&?) (?&?&?&?&?&?). split_and!; congruence.
Qed.

Lemma same_wish_ports proto lb lb' : same_wish lb lb' → wanted_ports proto lb' = wanted_ports proto lb.
Proof. intros (_ & _ & _ & _ & _ & Hp). unfold wanted_ports. by rewrite Hp. Qed.

Lemma same_wish_plain proto lb lb' : same_wish lb lb' → plain_ports proto lb → plain_ports proto lb'.
Proof.
  intros (_ & _ & _ & Hm & _ & Hp) (Hl & Hne & Hproto & Hall). split; [by rewrite Hm|].
  assert (Ports (service lb') ≡ₚ Ports (service lb)) as Hperm.
  { rewrite <- (sortPorts_perm (Ports (service lb'))), Hp. apply sortPorts_perm. }
  split_and!; [|done|by rewrite Hperm]. intros Hnil. rewrite Hnil in Hperm.
  by apply Permutation_nil_l in Hperm.
Qed.

Lemma same_wish_service lb lb' : same_wish lb lb' → same_service lb lb'.
Proof.
  intros (Hc & Hn & _ & Hm & _). unfold same_service, svc_Name, svc_Namespace. rewrite Hm. by split_and!.
Qed.

(** The service asks for no address, or for that of the balancer. *)
Definition ip_wanted (lb : loadBalancer) : Prop :=
  LoadBalancerIP (service lb) = "" ∨ address (ip lb) = LoadBalancerIP (service lb).

Definition ip_settled (lb : loadBalancer) : Prop := isValid (ip lb) = true ∧ ip_wanted lb.

Section ensured.
Context {W} `{!Cloud W}.
Context (proto : string) (c : client).

(** The request for the rule of a balancer. *)
Definition creation (lb : loadBalancer) : event :=
  Ev (CustomRequest c "createLoadBalancerRule" (create_params lb (wanted_ports proto lb))
        KCreateRule (rzero KCreateRule)).

(** The rule is the one that CloudStack answered the request with, directly or
    as the result of the job it named. *)
Definition created_by (lb : loadBalancer) (r : loadBalancerRule) : Prop :=
  ∃ w resp, (exec (CustomRequest c "createLoadBalancerRule" (create_params lb (wanted_ports proto lb))
                     KCreateRule (rzero KCreateRule)) w).2 = inr resp ∧
    if decide (cr_JobID resp = "") then r = rule_of_response resp
    else ∃ (e : env W) resp', (waitJob (k:=KCreateRule) c (cr_JobID resp) resp e).2 = Ok resp' ∧
      r = rule_of_response resp'.

(** Each tag of the service was asked for, in a call that CloudStack, at the
    world [w], answers with success or that it has the tag. *)
Definition all_tagged (lb : loadBalancer) (r : loadBalancerRule) (l : list event) : Prop :=
  ∀ k v, tagsForService (service lb) !! k = Some v →
    let request := CreateTags c [lbr_Id r] CloudstackResourceLoadBalancer {[ k := v ]} in
    Ev request ∈ l ∧ ∃ w, content (exec request w).2.

(** The rule of [lb0] was kept, without a creation or a deletion: it is as
    wanted, and what was out of date was asked to change. *)
Definition rule_kept (lb0 lb : loadBalancer) (r : loadBalancerRule) (l : list event) : Prop :=
  ∃ r0, rule lb0 = Some r0 ∧ r = sort_rule r0 ∧ reusable lb r0 (wanted_ports proto lb) ∧
    ip_wanted lb ∧ rule_requests l = [] ∧
    (lbr_Algorithm r0 ≠ algorithm lb → Ev (UpdateLoadBalancerRule c (lbr_Id r0) (algorithm lb)) ∈ l) ∧
    (hasMissingTags r0 = true → all_tagged lb r l).

(** The deletion of the rule that was found, when there is one. *)
Definition deletions (lb0 : loadBalancer) : list event :=
  match rule lb0 with Some r0 => [deletion lb0 c r0] | None => [] end.

(** There is a new rule, created and tagged after the one that was found was
    deleted. *)
Definition rule_created (lb0 lb : loadBalancer) (r : loadBalancerRule) (l : list event) : Prop :=
  rule_requests l = deletions lb0 ++ [creation lb] ∧ created_by lb r ∧ all_tagged lb r l ∧
  ∀ r0, rule lb0 = Some r0 → ip_settled lb0 → ¬ reusable lb0 r0 (wanted_ports proto lb0).

Definition established (lb0 lb : loadBalancer) (l : list event) : Prop :=
  same_service lb0 lb ∧ wanted_ports proto lb = wanted_ports proto lb0 ∧
  ∃ r, rule lb = Some r ∧ (rule_kept lb0 lb r l ∨ rule_created lb0 lb r l).

Lemma all_tagged_mono lb r l l' : l ⊆ l' → all_tagged lb r l → all_tagged lb r l'.
Proof. intros Hl Ht k v Hk. destruct (Ht k v Hk) as [Hin Hok]. split; [by apply Hl|done]. Qed.

(** Calls that are no requests about rules may come before and after. *)
Lemma established_among lb0 lb l0 l l1 :
  rule_requests l0 = [] → rule_requests l1 = [] → established lb0 lb l → established lb0 lb (l0 ++ l ++ l1).
Proof.
  intros Hl0 Hl1 (Hs & Hp & r & Hr & Hl). assert (l ⊆ l0 ++ l ++ l1) as Hsub by set_solver.
  assert (rule_requests (l0 ++ l ++ l1) = rule_requests l) as Hreq.
  { by rewrite !rule_requests_app, Hl0, Hl1, app_nil_r. }
  split; [done|]. split; [done|]. exists r. split; [done|].
  destruct Hl as [(r0 & H1 & H2 & H3 & H4 & Hq & Hu & Ht)|(Hq & H1 & Ht & H2)]; [left|right].
  - exists r0. rewrite Hreq. split_and!; [done..| |].
    + intros Ha. by apply Hsub, Hu.
    + intros Hm. by eapply all_tagged_mono, Ht.
  - unfold rule_created. rewrite Hreq. split_and!; [done..|by eapply all_tagged_mono|done].
Qed.
End ensured.

(** ** The steps *)

Section steps.
Context {W} `{!Cloud W}.
Context (proto : string) (c : client).
Implicit Types s : lbst W.

(** The log grew by some calls, with these requests about rules among them. *)
Definition grew (reqs : list event) s s' : Prop :=
  ∃ l, elog (lenv s') = elog (lenv s) ++ l ∧ rule_requests l = reqs.

Lemma grew_logs (P : event → Prop) s s' :
  (∀ e, P e → no_rule_request e) → lb_logs P s s' → grew [] s s'.
Proof.
  intros HP (l & Hl & HF). exists l. split; [done|]. apply rule_requests_none.
  by eapply Forall_impl.
Qed.

Lemma grew_refl s s' : lenv s' = lenv s → grew [] s s'.
Proof. intros He. exists []. by rewrite He, app_nil_r. Qed.

Lemma grew_trans r1 r2 s1 s2 s3 : grew r1 s1 s2 → grew r2 s2 s3 → grew (r1 ++ r2) s1 s3.
Proof.
  intros (l1 & H1 & <-) (l2 & H2 & <-). exists (l1 ++ l2). by rewrite H2, H1, app_assoc, rule_requests_app.
Qed.

Lemma grew_step r s1 s2 s3 : grew [] s1 s2 → grew r s2 s3 → grew r s1 s3.
Proof. exact (grew_trans [] r s1 s2 s3). Qed.

Lemma grew_end r s1 s2 s3 : grew r s1 s2 → grew [] s2 s3 → grew r s1 s3.
Proof. intros H1 H2. rewrite <- (app_nil_r r). by eapply grew_trans. Qed.

(** *** The IP *)

Lemma loadLoadBalancerIP_ok fuel s :
  wp (loadLoadBalancerIP fuel) (λ res s', res = Ok tt → same_wish (lobj s) (lobj s') ∧
    rule (lobj s') = rule (lobj s) ∧ (isValid (ip (lobj s)) = true → ip (lobj s') = ip (lobj s)) ∧
    grew [] s s') s.
Proof.
  unfold loadLoadBalancerIP. apply wp_bind. unfold wp at 1. cbn [fst snd on_ok the_lb gets].
  destruct (isValid (ip (lobj s))).
  { apply wp_ret. intros _. split_and!; [reflexivity|done..|by apply grew_refl]. }
  apply wp_bind, wp_on_env. set (i := getLoadBalancerIP _ _ _ _).
  assert (preserves (logs (ip_event (service (lobj s)))) i) as Hi by by apply getLoadBalancerIP_logs.
  eapply wp_mono; [apply (preserves_wp _ _ _ Hi)|].
  intros [x|e|p|] e1 Hlog; cbn [on_ok]; try done. apply wp_bind. unfold wp. cbn. intros _.
  split_and!; [by unfold same_wish|done..|]. eapply grew_logs; [apply ip_no_request|exact Hlog].
Qed.

(** *** The deletion *)

Lemma deleteLoadBalancerRule_ok s r :
  rule (lobj s) = Some r → getClient (cloud (lobj s)) = inr c →
  wp deleteLoadBalancerRule (λ res s', res = Ok tt → lobj s' = set_rule None (lobj s) ∧
    grew [deletion (lobj s) c r] s s') s.
Proof.
  intros Hr Hc. eapply wp_mono; [by apply deleteLoadBalancerRule_spec|].
  intros res s' (_ & Ho & Hl) ->. rewrite Hc in Hl. destruct Hl as (l & Hl & HF).
  split; [done|]. eexists. split; [exact Hl|].
  change (deletion (lobj s) c r :: l) with ([deletion (lobj s) c r] ++ l).
  by rewrite rule_requests_app, (reads_requests l HF).
Qed.

Lemma updateLoadBalancerIP_ok s :
  getClient (cloud (lobj s)) = inr c →
  wp updateLoadBalancerIP (λ res s', res = Ok tt → same_wish (lobj s) (lobj s') ∧
    rule (lobj s') = None ∧ grew (deletions c (lobj s)) s s') s.
Proof.
  intros Hc. unfold updateLoadBalancerIP. apply wp_bind. unfold wp at 1. cbn [fst snd on_ok the_lb gets].
  apply wp_bind, wp_on_env. eapply wp_mono; [apply (preserves_wp (logs reads_only)), getPublicIPAddressByIP_reads|].
  intros [i|e|p|] e1 Hlog1; cbn [on_ok]; try done.
  apply wp_bind. unfold wp at 1. cbn [fst snd on_ok modify_lb modify lenv lobj].
  set (s1 := LB e1 (set_ip i (lobj s))).
  assert (grew [] s s1) as H1 by (eapply grew_logs; [apply reads_no_request|exact Hlog1]).
  apply wp_bind. eapply (wp_mono _ (λ res s2, res = Ok tt → same_wish (lobj s) (lobj s2) ∧
    rule (lobj s2) = None ∧ grew (deletions c (lobj s)) s s2)).
  { unfold deletions. destruct (rule (lobj s)) as [r|] eqn:Hr; [|apply wp_ret; intros _; by split_and!].
    apply wp_bind. eapply wp_mono; [by apply (deleteLoadBalancerRule_ok s1 r)|].
    intros [[]|e|p|] s2 H2; cbn [on_ok]; try done. destruct (H2 eq_refl) as [Ho2 Hg2].
    unfold wp. cbn. rewrite Ho2. intros _. split_and!; [done..|]. by eapply grew_step. }
  intros [[]|e|p|] s2 H2; cbn [on_ok]; try done. destruct (H2 eq_refl) as (Hw2 & Hr2 & Hg2).
  destruct (isValid (ip (lobj s))); [|by apply wp_ret].
  apply wp_on_env. eapply wp_mono; [apply (preserves_wp (logs (reads_or_releases (ip (lobj s))))), releaseIPIfManaged_logs|].
  intros res e3 Hlog3 _. split_and!; [done..|]. eapply grew_end; [done|].
  eapply grew_logs; [apply releases_no_request|exact Hlog3].
Qed.
(** *** The check *)

Definition check_ok s (k : checkLBResult) s' : Prop :=
  same_wish (lobj s) (lobj s') ∧ ip (lobj s') = ip (lobj s) ∧
  ((∃ r0, rule (lobj s) = Some r0 ∧ reusable (lobj s) r0 (wanted_ports proto (lobj s)) ∧
      rule (lobj s') = Some (sort_rule r0) ∧ grew [] s s' ∧
      k = {| needsTags := hasMissingTags r0;
             needsUpdate := bool_decide (lbr_Algorithm r0 ≠ algorithm (lobj s)); exists_ := true |}) ∨
   (k = no_result ∧ rule (lobj s') = None ∧ grew (deletions c (lobj s)) s s' ∧
    ∀ r0, rule (lobj s) = Some r0 → ¬ reusable (lobj s) r0 (wanted_ports proto (lobj s)))).

Lemma same_wish_sorted lb :
  same_wish lb (set_service (set_Ports (sortPorts (Ports (service lb))) (service lb)) lb).
Proof. unfold same_wish. simpl. by rewrite sortPorts_idemp. Qed.

Lemma checkLoadBalancerRule_ok s :
  getClient (cloud (lobj s)) = inr c → plain_ports proto (lobj s) →
  wp checkLoadBalancerRule (λ res s', ∀ k, res = Ok k → check_ok s k s') s.
Proof.
  intros Hc [Hlabel Hports]. unfold checkLoadBalancerRule. apply wp_bind. unfold wp at 1.
  cbn [fst snd on_ok the_lb gets]. destruct (rule (lobj s)) as [r|] eqn:Hr.
  2: { apply wp_ret. intros k [= <-]. split_and!; [done..|right]. unfold deletions. rewrite Hr.
       split_and!; [done|done|by apply grew_refl|done]. }
  apply wp_bind. unfold wp at 1. rewrite (serviceToLBPorts_nodeports _ proto) by done. cbn [fst snd on_ok lobj].
  set (lb1 := set_service _ _). pose proof (same_wish_sorted (lobj s)) as Hw. fold lb1 in Hw.
  apply wp_bind, wp_ret. cbn [on_ok]. change {| ports := _; protocol := proto |} with (wanted_ports proto (lobj s)).
  set (ps := wanted_ports proto (lobj s)). destruct (comparePorts_iff ps r) as [Hiff Hsort].
  destruct (comparePorts ps r) as [r' eq]. cbn [fst snd] in Hiff, Hsort. subst r'.
  apply wp_bind. unfold wp at 1. cbn [fst snd on_ok modify_lb modify lenv lobj].
  case_decide as Heq.
  - apply wp_ret. intros k [= <-]. split_and!; [exact Hw|done|left]. exists r.
    destruct Heq as [He Hn]. split_and!; [done|by split; [apply Hiff|]|done|by apply grew_refl|done].
  - apply wp_bind. eapply wp_mono; [by apply (deleteLoadBalancerRule_ok _ (sort_rule r))|].
    intros [[]|e|p|] s2 H2; cbn [on_ok]; try done. destruct (H2 eq_refl) as [Ho2 Hg2].
    apply wp_ret. intros k [= <-]. unfold check_ok. rewrite Ho2. split_and!; [exact Hw|done|right].
    split_and!; [done|done| |].
    + unfold deletions. rewrite Hr. exact Hg2.
    + rewrite Hr. intros r0 [= <-] [Hd Hname]. apply Heq. split; [by apply Hiff|exact Hname].
Qed.

(** *** The requests for a rule that is kept *)

Lemma updateLoadBalancerRule_ok s r :
  rule (lobj s) = Some r → getClient (cloud (lobj s)) = inr c →
  wp updateLoadBalancerRule (λ res s', res = Ok tt → lobj s' = lobj s ∧
    elog (lenv s') = elog (lenv s) ++ [Ev (UpdateLoadBalancerRule c (lbr_Id r) (algorithm (lobj s)))]) s.
Proof.
  intros Hr Hc. unfold updateLoadBalancerRule. apply wp_bind. unfold wp at 1. cbn [fst snd on_ok the_lb gets].
  apply wp_bind, wp_lb_client. rewrite Hc. cbn [on_ok]. rewrite Hr. apply wp_bind, wp_ret. cbn [on_ok].
  by apply wp_wrap, wp_on_env, wp_call_err; intros w x Hx.
Qed.

Lemma assignTagsToRule_ok s r :
  rule (lobj s) = Some r → getClient (cloud (lobj s)) = inr c →
  wp assignTagsToRule (λ res s', res = Ok tt → lobj s' = lobj s ∧
    ∃ l, elog (lenv s') = elog (lenv s) ++ l ∧ rule_requests l = [] ∧ all_tagged c (lobj s) r l) s.
Proof.
  intros Hr Hc. unfold assignTagsToRule. apply wp_bind. unfold wp at 1. cbn [fst snd on_ok the_lb gets].
  rewrite Hr. apply wp_bind, wp_ret. cbn [on_ok]. apply wp_on_env.
  eapply wp_mono; [apply setResourceTags_spec|]. intros res e Hres ->.
  destruct Hres as (c' & Hc' & -> & Hall). rewrite Hc in Hc'. injection Hc' as <-.
  split; [done|]. eexists. split; [reflexivity|]. split.
  - apply rule_requests_none, Forall_fmap, Forall_true. by intros k [].
  - intros k v Hk. cbn zeta. assert (k ∈ tag_keys (tagsForService (service (lobj s)))) as Hin.
    { unfold tag_keys. rewrite sort_Strings_perm. apply list_elem_of_fmap. exists (k, v). by rewrite elem_of_map_to_list. }
    assert (tag_call c CloudstackResourceLoadBalancer (lbr_Id r) (tagsForService (service (lobj s))) k =
      CreateTags c [lbr_Id r] CloudstackResourceLoadBalancer {[ k := v ]}) as Hcall.
    { unfold tag_call, map_get. by rewrite Hk. }
    rewrite <- Hcall. split; [apply list_elem_of_fmap; by exists k|].
    apply list_elem_of_split in Hin as (l1 & l2 & Hl). eexists. by eapply Hall.
Qed.

(** *** A new rule *)

Lemma createLoadBalancerRule_ok s :
  getClient (cloud (lobj s)) = inr c → plain_ports proto (lobj s) →
  wp createLoadBalancerRule (λ res s', ∀ r, res = Ok r → same_wish (lobj s) (lobj s') ∧
    cloud (lobj s') = cloud (lobj s) ∧ created_by proto c (lobj s') r ∧
    grew [creation proto c (lobj s')] s s') s.
Proof.
  intros Hc [Hlabel Hports]. unfold createLoadBalancerRule. apply wp_bind, wp_lb_client. rewrite Hc. cbn [on_ok].
  apply wp_bind. unfold wp at 1. rewrite (serviceToLBPorts_nodeports _ proto) by done. cbn [fst snd on_ok].
  set (lb1 := set_service _ _). pose proof (same_wish_sorted (lobj s)) as Hw. fold lb1 in Hw.
  apply wp_bind. unfold wp at 1. cbn [fst snd on_ok the_lb gets lobj].
  change {| ports := _; protocol := proto |} with (wanted_ports proto (lobj s)).
  rewrite <- (same_wish_ports proto _ _ Hw). set (call := CustomRequest _ _ _ _ _).
  assert (∀ w l, rule_requests l = [] → grew [creation proto c lb1] s (LB (Env w (elog (lenv s) ++ Ev call :: l)) lb1)) as Hg.
  { intros w l Hl. exists (Ev call :: l). split; [done|].
    change (Ev call :: l) with ([Ev call] ++ l). by rewrite rule_requests_app, Hl. }
  apply wp_bind, wp_wrap, wp_on_env, wp_call_err; intros w x Hx; [done|]. cbn [on_ok].
  apply wp_bind. case_decide as Hj.
  - apply wp_wrap, wp_on_env. cbn [lenv lobj]. set (e1 := Env w _).
    pose proof (waitJob_logs reads_only c (cr_JobID x) (k:=KCreateRule) x ltac:(by split) e1) as (l & Hl & HF).
    unfold wp. destruct (waitJob (k:=KCreateRule) c (cr_JobID x) x e1) as [e2 res] eqn:Hjob. cbn [fst snd] in *.
    destruct res as [resp'|err|p|]; cbn [on_ok]; try done. intros r [= <-]. cbn [lobj].
    split_and!; [exact Hw|done| |].
    + exists (ew (lenv s)), x. split; [exact (f_equal snd Hx)|].
      rewrite decide_False by done. exists e1, resp'. by rewrite Hjob.
    + destruct e2 as [w2 l2]. cbn [elog] in Hl. subst l2. unfold e1. cbn [elog lenv].
      rewrite <- app_assoc. apply Hg. by apply reads_requests.
  - apply wp_ret. cbn [on_ok]. apply wp_ret. intros r [= <-]. split_and!; [exact Hw|done| |by apply Hg].
    exists (ew (lenv s)), x. split; [exact (f_equal snd Hx)|].
    by rewrite decide_True.
Qed.
(** ** From the IP to the tags *)

(** After the IP is settled: the rule that was found is there, or it was
    deleted because the service asks for another address. *)
Definition ip_stage s s' : Prop :=
  same_wish (lobj s) (lobj s') ∧
  ((rule (lobj s') = rule (lobj s) ∧ grew [] s s' ∧ ip_wanted (lobj s')) ∨
   (rule (lobj s') = None ∧ grew (deletions c (lobj s)) s s' ∧ ¬ ip_settled (lobj s))).

Lemma ip_stage_ok fuel s :
  getClient (cloud (lobj s)) = inr c →
  wp (lb ← (loadLoadBalancerIP fuel ;; the_lb);
      if decide (LoadBalancerIP (service lb) ≠ "" ∧ address (ip lb) ≠ LoadBalancerIP (service lb))
      then updateLoadBalancerIP else mret tt) (λ res s', res = Ok tt → ip_stage s s') s.
Proof.
  intros Hc. apply wp_bind, wp_bind. eapply wp_mono; [apply loadLoadBalancerIP_ok|].
  intros [[]|e|p|] s1 H1; cbn [on_ok]; try done. destruct (H1 eq_refl) as (Hw1 & Hr1 & Hip1 & Hg1).
  unfold wp at 1. cbn [fst snd on_ok the_lb gets].
  pose proof Hw1 as (Hc1 & _ & _ & _ & Hlip & _).
  case_decide as Hip.
  - eapply wp_mono; [apply updateLoadBalancerIP_ok; by rewrite Hc1|].
    intros res s2 H2 Hok. destruct (H2 Hok) as (Hw2 & Hr2 & Hg2). split; [by etrans|right].
    assert (deletions c (lobj s1) = deletions c (lobj s)) as Hd.
    { unfold deletions, deletion. by rewrite Hr1, Hc1. }
    rewrite Hd in Hg2. split_and!; [done|by eapply grew_step|].
    intros [Hv [Hn|Ha]]; rewrite ?Hlip, ?(Hip1 Hv) in Hip; tauto.
  - apply wp_ret. intros _. split; [done|left]. split_and!; [done..|]. unfold ip_wanted.
    destruct (decide (LoadBalancerIP (service (lobj s1)) = "")); [by left|right].
    apply dec_stable. tauto.
Qed.

(** After the check: what [rule_kept] and [rule_created] need to know. *)
Definition check_stage s (k : checkLBResult) s' : Prop :=
  same_wish (lobj s) (lobj s') ∧
  ((∃ r0, rule (lobj s) = Some r0 ∧ reusable (lobj s') r0 (wanted_ports proto (lobj s')) ∧
      rule (lobj s') = Some (sort_rule r0) ∧ grew [] s s' ∧ ip_wanted (lobj s') ∧
      k = {| needsTags := hasMissingTags r0;
             needsUpdate := bool_decide (lbr_Algorithm r0 ≠ algorithm (lobj s')); exists_ := true |}) ∨
   (k = no_result ∧ rule (lobj s') = None ∧ grew (deletions c (lobj s)) s s' ∧
    ∀ r0, rule (lobj s) = Some r0 → ip_settled (lobj s) →
      ¬ reusable (lobj s) r0 (wanted_ports proto (lobj s)))).

Lemma same_wish_reusable lb lb' r :
  same_wish lb lb' → reusable lb r (wanted_ports proto lb) ↔ reusable lb' r (wanted_ports proto lb').
Proof. intros Hw. rewrite (same_wish_ports proto _ _ Hw). unfold reusable. by destruct Hw as (_ & -> & _). Qed.

Lemma check_stage_ok s s1 :
  getClient (cloud (lobj s)) = inr c → plain_ports proto (lobj s) → ip_stage s s1 →
  wp checkLoadBalancerRule (λ res s', ∀ k, res = Ok k → check_stage s k s') s1.
Proof.
  intros Hc Hplain [Hw1 H1]. pose proof Hw1 as (Hc1 & _).
  eapply wp_mono; [apply checkLoadBalancerRule_ok; [by rewrite Hc1|by eapply same_wish_plain]|].
  intros res s2 Hres k Hok. destruct (Hres k Hok) as (Hw2 & Hip2 & H2).
  pose proof Hw2 as (_ & _ & Ha2 & _ & Hlip2 & _).
  split; [by etrans|].
  destruct H1 as [(Hr1 & Hg1 & Hip1)|(Hr1 & Hg1 & Hip1)].
  - destruct H2 as [(r0 & Hr0 & Hre & Hr2 & Hg2 & ->)|(-> & Hr2 & Hg2 & Hre)]; [left|right].
    + exists r0. rewrite Hr1 in Hr0. split_and!; [done| |done|by eapply grew_step| |by rewrite Ha2].
      * by apply (same_wish_reusable (lobj s1)).
      * unfold ip_wanted. by rewrite Hlip2, Hip2.
    + assert (deletions c (lobj s1) = deletions c (lobj s)) as Hd.
      { unfold deletions, deletion. by rewrite Hr1, Hc1. }
      rewrite Hd in Hg2. split_and!; [done..|by eapply grew_step|].
      intros r0 Hr0 _. rewrite (same_wish_reusable _ _ r0 Hw1). apply Hre. by rewrite Hr1.
  - right. destruct H2 as [(r0 & Hr0 & _)|(-> & Hr2 & Hg2 & _)]; [congruence|].
    unfold deletions in Hg2. rewrite Hr1 in Hg2. split_and!; [done..|by eapply grew_end|]. by intros r0 _ ?.
Qed.

Lemma if_ok (b : bool) (m : M (lbst W) unit) (Q : lbst W → Prop) s :
  (b = false → Q s) → (b = true → wp m (λ res s', res = Ok tt → Q s') s) →
  wp (if b then m else mret tt) (λ res s', res = Ok tt → Q s') s.
Proof. intros Hf Ht. destruct b; [by apply Ht|]. apply wp_ret. intros _. by apply Hf. Qed.

(** A rule that is kept: its algorithm, its tags. *)
Lemma kept_ok s r0 (lb := lobj s) :
  rule lb = Some (sort_rule r0) → getClient (cloud lb) = inr c →
  wp ((if bool_decide (lbr_Algorithm r0 ≠ algorithm lb) then updateLoadBalancerRule else mret tt) ;;
      (if hasMissingTags r0 then assignTagsToRule else mret tt) ;; ensureExists true)
    (λ res s', ∀ st, res = Ok st → st = lb_status (lobj s') ∧ lobj s' = lb ∧
      ∃ l, elog (lenv s') = elog (lenv s) ++ l ∧ rule_requests l = [] ∧
      (lbr_Algorithm r0 ≠ algorithm lb → Ev (UpdateLoadBalancerRule c (lbr_Id r0) (algorithm lb)) ∈ l) ∧
      (hasMissingTags r0 = true → all_tagged c lb (sort_rule r0) l)) s.
Proof.
  intros Hr Hc. apply wp_bind.
  eapply wp_mono; [apply (if_ok _ _ (λ s1, lobj s1 = lb ∧ ∃ l1, elog (lenv s1) = elog (lenv s) ++ l1 ∧
    rule_requests l1 = [] ∧
    (lbr_Algorithm r0 ≠ algorithm lb → Ev (UpdateLoadBalancerRule c (lbr_Id r0) (algorithm lb)) ∈ l1)))|].
  { intros Hb%bool_decide_eq_false. split; [done|]. exists []. by rewrite app_nil_r. }
  { intros _. eapply wp_mono; [by apply (updateLoadBalancerRule_ok s (sort_rule r0))|].
    intros res s1 H1 Hok. destruct (H1 Hok) as [Ho1 Hl1]. split; [done|]. eexists. split; [exact Hl1|].
    split; [done|]. intros _. by left. }
  intros [[]|e|p|] s1 H1; cbn [on_ok]; try done. destruct (H1 eq_refl) as (Ho1 & l1 & Hl1 & Hq1 & Hu1).
  apply wp_bind. eapply wp_mono; [apply (if_ok _ _ (λ s2, lobj s2 = lb ∧ ∃ l2, elog (lenv s2) = elog (lenv s1) ++ l2 ∧
    rule_requests l2 = [] ∧ (hasMissingTags r0 = true → all_tagged c lb (sort_rule r0) l2)))|].
  { intros Hb. split; [done|]. exists []. rewrite app_nil_r. split_and!; [done..|congruence]. }
  { intros _. eapply wp_mono; [apply (assignTagsToRule_ok s1 (sort_rule r0)); by rewrite Ho1|].
    intros res s2 H2 Hok. destruct (H2 Hok) as (Ho2 & l2 & Hl2 & Hq2 & Ht2). rewrite Ho1 in *. split; [done|].
    by exists l2. }
  intros [[]|e|p|] s2 H2; cbn [on_ok]; try done. destruct (H2 eq_refl) as (Ho2 & l2 & Hl2 & Hq2 & Ht2).
  unfold ensureExists. apply wp_bind. unfold wp at 1. cbn [fst snd on_ok the_lb gets].
  apply wp_bind, wp_ret. cbn [on_ok]. apply wp_ret. intros st [= <-]. split; [done|]. split; [done|]. exists (l1 ++ l2).
  rewrite Hl2, Hl1, app_assoc, rule_requests_app, Hq1, Hq2. split_and!; [done..| |].
  - intros Ha. apply elem_of_app. left. by apply Hu1.
  - intros Hm. eapply all_tagged_mono, Ht2; [set_solver|done].
Qed.

(** There is none: a new one with its tags. *)
Lemma created_ok s :
  getClient (cloud (lobj s)) = inr c → plain_ports proto (lobj s) →
  wp (ensureExists false) (λ res s', ∀ st, res = Ok st → st = lb_status (lobj s') ∧ same_wish (lobj s) (lobj s') ∧
    ∃ r l, rule (lobj s') = Some r ∧ elog (lenv s') = elog (lenv s) ++ l ∧
      rule_requests l = [creation proto c (lobj s')] ∧ created_by proto c (lobj s') r ∧
      all_tagged c (lobj s') r l) s.
Proof.
  intros Hc Hplain. unfold ensureExists. apply wp_bind. unfold wp at 1. cbn [fst snd on_ok the_lb gets].
  apply wp_bind, wp_bind. eapply wp_mono.
  { apply wp_and; [by apply createLoadBalancerRule_ok|apply createLoadBalancerRule_status]. }
  intros [r|e|p|] s1 [H1 Hst]; cbn [on_ok]; try done. destruct (H1 r eq_refl) as (Hw1 & Hc1 & Hby & l1 & Hl1 & Hq1).
  apply wp_bind. unfold wp at 1. cbn [fst snd on_ok modify_lb modify].
  set (s2 := LB _ _). eapply wp_mono; [apply (assignTagsToRule_ok s2 r); [done|by cbn; rewrite Hc1]|].
  intros [[]|e|p|] s3 H3; cbn [on_ok]; try done. destruct (H3 eq_refl) as (Ho3 & l3 & Hl3 & Hq3 & Ht3).
  apply wp_ret. intros st [= <-]. rewrite Ho3. split; [by rewrite <- Hst|]. split; [exact Hw1|].
  exists r, (l1 ++ l3). split; [done|]. rewrite Hl3. cbn [lenv s2]. rewrite Hl1, app_assoc, rule_requests_app, Hq1, Hq3.
  split_and!; [done|done|exact Hby|]. eapply all_tagged_mono, Ht3. set_solver.
Qed.

(** Sequencing is associative. *)
Lemma wp_bind_assoc {S A B D} (m : M S A) (f : A → M S B) (g : B → M S D) Q (s : S) :
  wp (x ← (x ← m; f x); g x) Q s → wp (x ← m; y ← f x; g y) Q s.
Proof. unfold wp, mbind, M_bind. by destruct (m s) as [s' []]. Qed.

Lemma ensureManaged_establishes fuel s :
  getClient (cloud (lobj s)) = inr c → plain_ports proto (lobj s) →
  wp (ensureManaged fuel) (λ res s', ∀ st, res = Ok st → st = lb_status (lobj s') ∧
    algorithm (lobj s') = algorithm (lobj s) ∧
    ∃ l, elog (lenv s') = elog (lenv s) ++ l ∧ established proto c (lobj s) (lobj s') l) s.
Proof.
  intros Hc Hplain. unfold ensureManaged. apply (wp_bind_assoc (loadLoadBalancerIP fuel)
    (λ _, the_lb)), wp_bind_assoc.
  apply wp_bind. eapply wp_mono; [by apply ip_stage_ok|].
  intros [[]|e|p|] s1 H1; cbn [on_ok]; try done. specialize (H1 eq_refl).
  apply wp_bind. eapply wp_mono; [by apply (check_stage_ok s)|].
  intros [k|e|p|] s2 H2; cbn [on_ok]; try done. destruct (H2 k eq_refl) as [Hw2 Hk].
  pose proof Hw2 as (Hc2 & _). rewrite <- Hc2 in Hc.
  destruct Hk as [(r0 & Hr0 & Hre & Hr2 & (l1 & Hl1 & Hq1) & Hip & ->)|(-> & Hr2 & (l1 & Hl1 & Hq1) & Hre)].
  - eapply wp_mono; [by apply (kept_ok s2 r0)|]. intros res s3 H3 st Hst.
    destruct (H3 st Hst) as (-> & Ho3 & l2 & Hl2 & Hq2 & Hu & Ht). rewrite Ho3. split; [done|]. split; [apply Hw2|].
    exists (l1 ++ l2). rewrite Hl2, Hl1, app_assoc. split; [done|].
    split; [by apply same_wish_service|]. split; [by apply same_wish_ports|].
    exists (sort_rule r0). split; [done|left]. exists r0. rewrite rule_requests_app, Hq1, Hq2.
    split_and!; [done..| |].
    + intros Ha. apply elem_of_app. right. by apply Hu.
    + intros Hm. eapply all_tagged_mono, Ht; [set_solver|done].
  - cbn [needsUpdate needsTags exists_ no_result]. apply wp_bind, wp_ret. cbn [on_ok].
    apply wp_bind, wp_ret. cbn [on_ok].
    eapply wp_mono; [apply (created_ok s2); [done|by eapply same_wish_plain]|]. intros res s3 H3 st Hst.
    destruct (H3 st Hst) as (-> & Hw3 & r & l2 & Hr3 & Hl2 & Hq2 & Hby & Ht). split; [done|].
    assert (same_wish (lobj s) (lobj s3)) as Hw by by etrans. split; [apply Hw|].
    exists (l1 ++ l2). rewrite Hl2, Hl1, app_assoc. split; [done|].
    split; [by apply same_wish_service|]. split; [by apply same_wish_ports|].
    exists r. split; [done|right]. unfold rule_created. rewrite rule_requests_app, Hq1, Hq2.
    split_and!; [done..| |done]. eapply all_tagged_mono, Ht. set_solver.
Qed.

(** ** ensureRule *)

(** The balancer, or the balancer with the project label on its service. *)
Definition labelled (lb lb1 : loadBalancer) : Prop :=
  lb1 = lb ∨ ∃ l, Labels (svc_meta (service lb)) = Some l ∧ lb1 = labelled_as lb l.

Lemma labelProject_ok s :
  wp labelProject (λ res s', res = Ok tt → labelled (lobj s) (lobj s') ∧ grew [] s s') s.
Proof.
  eapply wp_mono; [apply labelProject_wp|]. intros res s' H ->. unfold labelProject_post in H. case_decide.
  - destruct (Labels (svc_meta (service (lobj s)))) as [l|] eqn:Hl; [|by destruct H].
    destruct H as (_ & Ho & Hlog). split; [right; by exists l|].
    eexists. split; [exact Hlog|]. apply rule_requests_none, Forall_singleton. by intros [].
  - destruct H as [_ ->]. split; [by left|by apply grew_refl].
Qed.

Lemma labelled_plain lb lb1 :
  ProjectIDLabel (Global (config (pc_cs (cloud lb)))) ≠ lbUseTargetPort →
  labelled lb lb1 → plain_ports proto lb → plain_ports proto lb1.
Proof.
  intros Hne [->|(l & Hl & ->)]; [done|]. intros [Hlabel Hports]. split; [|exact Hports].
  revert Hlabel. unfold has_label, getLabelOrAnnotation, labels. cbn. rewrite Hl. cbn.
  by rewrite lookup_insert_ne.
Qed.

(** ensureRule, for a balancer with a client. *)
Lemma ensureRule_establishes fuel s
    (Hc : getClient (cloud (lobj s)) = inr c) (Hplain : plain_ports proto (lobj s))
    (Hlabel : ProjectIDLabel (Global (config (pc_cs (cloud (lobj s))))) ≠ lbUseTargetPort) :
  wp (ensureRule fuel) (λ res s', ∀ st, res = Ok st →
    st = lb_status (lobj s') ∧ shouldManageLB (lobj s) = None ∧
    affinity_algorithm (SessionAffinity (service (lobj s))) = Some (algorithm (lobj s')) ∧
    ∃ l, elog (lenv s') = elog (lenv s) ++ l ∧ established proto c (lobj s) (lobj s') l) s.
Proof.
  unfold ensureRule. apply wp_bind. eapply wp_mono; [apply labelProject_ok|].
  intros [[]|e|p|] s1 H1; cbn [on_ok]; try done. destruct (H1 eq_refl) as [Hlab (l1 & Hl1 & Hq1)].
  apply wp_bind. unfold wp at 1. cbn [fst snd on_ok the_lb gets]. apply wp_bind.
  assert (SessionAffinity (service (lobj s1)) = SessionAffinity (service (lobj s))) as Haff
    by by destruct Hlab as [->|(l & _ & ->)].
  unfold setAlgorithm. rewrite Haff.
  destruct (affinity_algorithm (SessionAffinity (service (lobj s)))) as [a|]; [|done].
  unfold wp at 1. cbn [fst snd on_ok modify_lb modify].
  apply wp_bind. unfold wp at 1. cbn [fst snd on_ok the_lb gets lobj].
  assert (shouldManageLB (set_algorithm a (lobj s1)) = shouldManageLB (lobj s)) as ->
    by by destruct Hlab as [->|(l & _ & ->)].
  destruct (shouldManageLB (lobj s)); [done|]. set (s2 := LB _ _).
  eapply wp_mono; [apply (ensureManaged_establishes fuel s2)|].
  - by destruct Hlab as [Ho|(l & _ & Ho)]; cbn; rewrite Ho.
  - change (plain_ports proto (lobj s1)). by eapply labelled_plain.
  - intros res s3 H3 st Hst. destruct (H3 st Hst) as (-> & Ha3 & l3 & Hl3 & He3). rewrite Ha3.
    split_and!; [done..|]. exists (l1 ++ l3). rewrite Hl3. cbn [s2 lenv]. rewrite Hl1, app_assoc. split; [done|].
    rewrite <- (app_nil_r l3). apply established_among; [done..|].
    unfold s2 in He3. cbn [lobj] in He3. by destruct Hlab as [Ho|(l & _ & Ho)]; rewrite Ho in He3.
Qed.
End steps.

(** ** EnsureLoadBalancer *)

Section handler.
Context {W} `{!Cloud W}.
Context (cs : CSCloud) (proto : string).
Implicit Types s : state W.

(** What an EnsureLoadBalancer that returned [st] has done. *)
Definition ensured svc ns (st : LoadBalancerStatus) s s' : Prop :=
  ∃ c lb0 lb l now, ensure_shown cs svc ns s = Some lb0 ∧ built_for cs svc lb0 ∧ getClient (cloud lb0) = inr c ∧ shouldManageLB lb0 = None ∧
    st = lb_status lb ∧ affinity_algorithm (SessionAffinity svc) = Some (algorithm lb) ∧
    elog (genv s') = elog (genv s) ++ l ∧ established proto c lb0 lb l ∧
    queue s' = <[svcKey svc := match queue s !! svcKey svc with
      | Some waiting => with_service (service lb) waiting
      | None => {| qe_service := service lb; qe_lb := Some lb; updatePool := true; start := now;
                   backoffUntil := zero_time |}
      end]> (queue s).

Lemma ensure_locked_establishes fuel svc ns s :
  plain_service proto svc → ProjectIDLabel (Global (config cs)) ≠ lbUseTargetPort →
  wp (ensure_locked cs fuel svc ns) (λ res s', ∀ st, res = Ok st → ensured svc ns st s s') s.
Proof.
  intros Hplain Hlabel. apply ensure_locked_found; [by intros r s' _ _ _ _ Hr st ?%Hr|].
  intros lb0 s3 Hshown Hb (l0 & Hl0 & HF0) _ Hq3. pose proof Hb as (Hcs & Hsvc & _ & _ & [c Hc] & _).
  apply wp_bind, wp_with_lb. eapply wp_mono; [apply (ensureRule_establishes proto c fuel (LB (genv s3) lb0))|].
  { exact Hc. } { unfold plain_ports. cbn [lobj]. by rewrite Hsvc. } { cbn [lobj]. by rewrite Hcs. }
  intros [st|e|p|] t4 H4; cbn [on_ok]; try done. destruct (H4 st eq_refl) as (-> & Hm & Haff & l & Hl & Hest).
  cbn [lobj lenv] in *. rewrite Hsvc in Haff.
  apply wp_bind, wp_on_genv, wp_call. intros w now _. cbn [on_ok].
  apply wp_bind. eapply wp_mono; [apply push_wp|]. intros res s5 (_ & _ & Hlog5 & Hq5).
  cbn [qe_service set_genv genv elog queue] in *. rewrite Hq3 in Hq5.
  assert (svcKey (service (lobj t4)) = svcKey svc) as Hkey.
  { destruct Hest as ((_ & _ & Hn & Hns) & _). unfold svcKey. by rewrite Hn, Hns, Hsvc. }
  rewrite Hkey in Hq5. destruct res as [[]|e|p|]; cbn [on_ok]; try done. apply wp_ret. intros st [= <-].
  exists c, lb0, (lobj t4), (l0 ++ l ++ [Ev Now]), now. split_and!; try done.
  - rewrite Hlog5, Hl, Hl0, <- !app_assoc. done.
  - apply established_among; [by apply reads_requests|done|done].
  - destruct (queue s !! svcKey svc); apply Hq5.
Qed.

(** (C5) An EnsureLoadBalancer that succeeds, for a service whose rule forwards to
    node ports of one protocol, against every behaviour of CloudStack.  The
    balancer that CloudStack showed to the lookup Ensure begins with had no
    foreign rule.  The one that is left has the algorithm of the service's
    affinity, its status is returned, and it has a rule, in one of two ways.  The
    rule that was shown is kept, without any creation or deletion: it has the name
    and the ports of the service, the address is the one the service asks for, an
    algorithm that is out of date was asked to change, and missing tags were asked
    for and accepted.  Or the rule is the answer to the only creation, with the
    parameters of the service and after the deletion of the rule that was shown,
    and each tag was asked for it and accepted; then the one that was shown was
    not as wanted, or the address had to change.  The balancer is in the queue, for
    its machines and health checks; a service that waited there already keeps its
    entry, with the service object of now. *)
Theorem EnsureLoadBalancer_establishes fuel svc ns s
    (Hplain : plain_service proto svc) (Hlabel : ProjectIDLabel (Global (config cs)) ≠ lbUseTargetPort) :
  wp (EnsureLoadBalancer cs fuel (Some svc) ns) (λ res s', ∀ st, res = Ok st → ensured svc ns st s s') s.
Proof.
  intros st. apply (with_lock_ok svc (ensure_locked cs fuel svc ns) st (ensured svc ns st s)); [done|].
  intros l. exact (ensure_locked_establishes fuel svc ns (set_svcLock l s) Hplain Hlabel st).
Qed.
End handler.
