(* ===== verification/Interleaving.v ===== *)
(** * The provider's goroutines together

    The handlers, the workers and the informer of a provider as programs of
    atomic steps: every access to the registry or the queue is a step of its own,
    as the mutexes of the code make it, and so is a stretch of calls that uses
    neither.  Run alone they are the operations of the other files.  Run together,
    in any interleaving, they lose no update, change CloudStack only under the
    lock of a service, and do not deadlock. *)
From stdpp Require Import base list strings gmap.
From S2P Require Import Prelude GoStd Kube Cloud Config Meta Pages ServiceLock Balancer Ports PublicIP Rule Nodes Panics State Queue Workers Handlers Goroutines.

Section programs.
Context {W} `{!Cloud W}.
Context (cs : CSCloud) (fuel : nat).

(** ** Workers *)

(** processQueueEntry, by a worker that has the entry in hand. *)
Definition processQueueEntry_go (e : queueEntry) : prog W unit :=
  let c := Some (qe_service e) in
  locked c (qe_service e) (
    nodes ← held c (on_registry (nodesForService cs (qe_service e)));
    let '(hostIDs, networkIDs, projectID) := idsForNodes nodes in
    held c (
      lb ← entry_lb cs e networkIDs projectID;
      match lb with
      | None => mret tt
      | Some lb => with_lb lb (update_lb fuel (updatePool e) hostIDs networkIDs) ;; mret tt
      end)).

Definition taken (r : res (option queueEntry)) : carry :=
  match r with Ok (Some e) => Some (qe_service e) | _ => None end.

Definition worker_round_go (exitWhenDone expired : bool) (waitTimer : timer) : prog W worker :=
  item ← tried (handing None pop taken);
  match item with
  | inl _ => mret (Selecting exitWhenDone waitTimer)
  | inr None => mret (nothing_popped exitWhenDone expired waitTimer)
  | inr (Some item) =>
      let c := Some (qe_service item) in
      r ← tried (processQueueEntry_go item);
      match r with
      | inl _ =>
          handing c (pushWithBackoff cs item) (λ _, None) ;;
          held None (on_genv (call (RecordEvent (qe_service item) true eventReasonUpdateFailed))) ;;
          mret (Selecting exitWhenDone waitTimer)
      | inr _ =>
          handing c (on_genv (call (RateLimiterForget (svcKey (qe_service item)))) ;;
                     on_genv (call (RecordEvent (qe_service item) false eventReasonUpdateSuccess)))
            (λ _, None) ;;
          mret (Selecting exitWhenDone waitTimer)
      end
  end.

Definition worker_step_go (w : wakeup) (expired : bool) (wk : worker) : prog W worker :=
  match wk with
  | Selecting exitWhenDone waitTimer =>
      match w with
      | CtxDone => mret Returned
      | StopCh => worker_round_go true expired waitTimer
      | Timer =>
          match receive waitTimer with
          | Some waitTimer => worker_round_go exitWhenDone expired (Timer_Reset waitTimer)
          | None => mret wk
          end
      end
  | Returned | Stuck => mret wk
  end.

Fixpoint worker_loop_go (wk : worker) (wakeups : list (wakeup * bool)) : prog W worker :=
  match wakeups with
  | [] => mret wk
  | (w, expired) :: wakeups => wk ← worker_step_go w expired wk; worker_loop_go wk wakeups
  end.

(** ** Handlers *)

Definition EnsureLoadBalancer_go (svc : Service) (ns : list Node) : prog W LoadBalancerStatus :=
  locked None svc (
    if decide (length (Ports svc) = 0)
    then Ret None (Err (Errorf "requested load balancer with no ports" []))
    else
      held None (on_registry (updateNodes cs ns)) ;;
      ids ← held None (on_registry (idsForService cs svc));
      ensured ← held None (
        let '(_, networkIDs, projectID) := (ids : list string * list string * string) in
        lb ← on_genv (getLoadBalancer cs svc projectID networkIDs);
        ensured ← with_lb lb (ensureRule fuel);
        now ← on_genv (call Now);
        mret (ensured, now));
      let '(lb, status, now) := (ensured : loadBalancer * LoadBalancerStatus * Z) in
      held None (push cs {| qe_service := service lb; qe_lb := Some lb; updatePool := true;
                            start := now; backoffUntil := zero_time |}) ;;
      mret status).

Definition GetLoadBalancer_go (svc : Service) : prog W (option LoadBalancerStatus) :=
  locked None svc (held None (
    lb ← on_genv (getLoadBalancer cs svc "" []);
    match rule lb with
    | None => mret None
    | Some _ => mret (Some (lb_status lb))
    end)).

Definition UpdateLoadBalancer_go (svc : Service) (ns : list Node) : prog W unit :=
  held None (on_registry (updateNodes cs ns)) ;;
  now ← held None (on_genv (call Now));
  held None (push cs {| qe_service := svc; qe_lb := None; updatePool := false;
                        start := now; backoffUntil := zero_time |}).

Definition EnsureLoadBalancerDeleted_go (svc : Service) : prog W unit :=
  locked None svc (held None (delete_locked cs svc)).

(** ** The informer *)

Definition informer_go (evs : list informer_event) : prog W unit :=
  fold_right (λ ev p,
    held None (modify (λ s : state W, St (genv s) (handleEndpoints ev (registry s)) (queue s) (svcLock s))) ;;
    p) (mret tt) evs.
End programs.

(** start() launches goroutines [0], [1], ... as workers, as many as are
    configured. *)
Definition is_worker (cs : CSCloud) (t : nat) : Prop := (Z.of_nat t < workers cs)%Z.
#[export] Instance is_worker_dec cs t : Decision (is_worker cs t).
Proof. unfold is_worker. apply _. Defined.

(** The goroutines of a provider. *)
Inductive provider_go {W} `{!Cloud W} (cs : CSCloud) (t : nat) : prog W ending → Prop :=
  | run_worker fuel wakeups :
      is_worker cs t → provider_go cs t (ending_of Worked (worker_loop_go cs fuel new_worker wakeups))
  | run_ensure fuel svc ns : ¬ is_worker cs t →
      provider_go cs t (ending_of (λ _, Done) (EnsureLoadBalancer_go cs fuel svc ns))
  | run_get svc : ¬ is_worker cs t →
      provider_go cs t (ending_of (λ _, Done) (GetLoadBalancer_go cs svc))
  | run_update svc ns : ¬ is_worker cs t →
      provider_go cs t (ending_of (λ _, Done) (UpdateLoadBalancer_go cs svc ns))
  | run_delete svc : ¬ is_worker cs t →
      provider_go cs t (ending_of (λ _, Done) (EnsureLoadBalancerDeleted_go cs svc))
  | run_informer evs : ¬ is_worker cs t →
      provider_go cs t (ending_of (λ _, Done) (informer_go evs)).

(** A worker does not die of a panic, and can be woken up until it returns. *)
Definition worker_promise (cs : CSCloud) (t : nat) (r : res ending) : Prop :=
  is_worker cs t → ∃ wk, r = Ok (Worked wk) ∧ awake wk.

(** ** A goroutine that runs alone *)

Section alone.
Context {W} `{!Cloud W}.
Context (cs : CSCloud) (fuel : nat).
Implicit Types s : state W.

Lemma bind_ext {A B} (m m' : M (state W) A) (f f' : A → M (state W) B) s :
  m s = m' s → (∀ a s', f a s' = f' a s') → (m ≫= f) s = (m' ≫= f') s.
Proof. intros Hm Hf. unfold mbind, M_bind. rewrite Hm. by destruct (m' s) as [s' []]. Qed.

Lemma bind_assoc {A B C} (m : M (state W) A) (f : A → M (state W) B) (g : B → M (state W) C) s :
  ((m ≫= f) ≫= g) s = (m ≫= (λ a, f a ≫= g)) s.
Proof. unfold mbind, M_bind. by destruct (m s) as [s' []]. Qed.

Lemma ret_bind {A B} (a : A) (f : A → M (state W) B) s : (mret a ≫= f) s = f a s.
Proof. done. Qed.

Lemma with_lock_ext {A} svc (m m' : M (state W) A) s :
  (∀ s', m s' = m' s') → with_lock svc m s = with_lock svc m' s.
Proof. intros Hm. unfold with_lock. apply bind_ext; [done|]. intros [] s'. unfold defer. by rewrite Hm. Qed.

Lemma try_ext {A} (m m' : M (state W) A) s : m s = m' s → try m s = try m' s.
Proof. intros Hm. unfold try. by rewrite Hm. Qed.

(** Peels off one step of a program and of the code. *)
#[local] Ltac peel :=
  repeat first
    [ rewrite run_bind; apply bind_ext; [|intros]
    | rewrite run_held | rewrite run_handing | rewrite run_tried; apply try_ext
    | rewrite run_locked; apply with_lock_ext; intros ?
    | reflexivity
    | case_goal ].

Lemma run_processQueueEntry e s :
  run_alone (processQueueEntry_go cs fuel e) s = processQueueEntry cs fuel e s.
Proof.
  unfold processQueueEntry_go, processQueueEntry. cbv zeta. peel.
Qed.

Lemma run_worker_round b expired t s :
  run_alone (worker_round_go cs fuel b expired t) s = worker_round cs fuel b expired t s.
Proof.
  unfold worker_round_go, worker_round. cbv zeta. rewrite run_bind.
  apply bind_ext; [rewrite run_tried; apply try_ext, run_handing|]. intros [err|[item|]] s1; [done| |done].
  rewrite run_bind. apply bind_ext; [rewrite run_tried; apply try_ext, run_processQueueEntry|].
  intros [err|[]] s2; [by peel|]. rewrite run_bind, <- bind_assoc. by apply bind_ext; [apply run_handing|].
Qed.

Lemma run_worker_step w expired wk s :
  run_alone (worker_step_go cs fuel w expired wk) s = worker_step cs fuel w expired wk s.
Proof.
  destruct wk as [b t| |]; [|done..]. destruct w; cbn [worker_step_go worker_step]; [done|apply run_worker_round|].
  destruct (receive t); [apply run_worker_round|done].
Qed.

Lemma run_worker_loop wk ws s :
  run_alone (worker_loop_go cs fuel wk ws) s = worker_loop cs fuel wk ws s.
Proof.
  revert wk s. induction ws as [|[w expired] ws IH]; intros wk s; cbn [worker_loop_go worker_loop]; [done|].
  rewrite run_bind. apply bind_ext; [apply run_worker_step|]. intros wk' s1. apply IH.
Qed.

Lemma run_Ensure svc ns s :
  run_alone (EnsureLoadBalancer_go cs fuel svc ns) s = EnsureLoadBalancer cs fuel (Some svc) ns s.
Proof.
  unfold EnsureLoadBalancer_go, EnsureLoadBalancer. rewrite run_locked. apply with_lock_ext. intros s1.
  unfold ensure_locked. case_decide; [done|].
  rewrite run_bind. apply bind_ext; [apply run_held|]. intros [] s2.
  rewrite run_bind. apply bind_ext; [apply run_held|]. intros [[hosts nets] p] s3.
  rewrite run_bind. etrans; [apply bind_ext; [apply run_held|reflexivity]|].
  rewrite bind_assoc. apply bind_ext; [done|]. intros lb s4.
  rewrite bind_assoc. apply bind_ext; [done|]. intros [lb' status] s5.
  rewrite bind_assoc. apply bind_ext; [done|]. intros now s6.
  rewrite ret_bind. cbv beta iota. rewrite run_bind.
  by apply bind_ext; [apply run_held|].
Qed.

Lemma run_Get svc s : run_alone (GetLoadBalancer_go cs svc) s = GetLoadBalancer cs (Some svc) s.
Proof. unfold GetLoadBalancer_go, GetLoadBalancer. by peel. Qed.

Lemma run_Update svc ns s :
  run_alone (UpdateLoadBalancer_go cs svc ns) s = UpdateLoadBalancer cs (Some svc) ns s.
Proof. unfold UpdateLoadBalancer_go, UpdateLoadBalancer. by peel. Qed.

Lemma run_Deleted svc s :
  run_alone (EnsureLoadBalancerDeleted_go cs svc) s = EnsureLoadBalancerDeleted cs (Some svc) s.
Proof. unfold EnsureLoadBalancerDeleted_go, EnsureLoadBalancerDeleted. by peel. Qed.
End alone.

(** ** Each goroutine fits in *)

Section fits_in.
Context {W} `{!Cloud W}.
Context (cs : CSCloud) (fuel : nat).
Implicit Types s : state W.

Lemma reads_no_change s s' : st_logs reads_only s s' → st_logs no_change s s'.
Proof. apply logs_mono. by intros e [? _]. Qed.

Lemma same_accounted s c s' : queue s' = queue s → accounted cs s c s' c.
Proof. intros Hq k [Hk|Hk]; [left; by rewrite Hq|right; by left]. Qed.

Lemma log_none (P : event → Prop) s s' : elog (genv s') = elog (genv s) → st_logs P s s'.
Proof. intros Hl. exists []. by rewrite Hl, app_nil_r. Qed.

(** A step under the lock that leaves the queue alone. *)
Lemma safe_frame {A} lk c (m : M (state W) A) (K : res A → Prop) :
  (∀ s, wp m (λ r s', svcLock s' = svcLock s ∧ queue s' = queue s ∧
     (lk = None → st_logs no_change s s') ∧ K r) s) →
  safe cs lk (held c m) (λ lk' c' r, lk' = lk ∧ c' = c ∧ K r).
Proof.
  intros H. apply safe_held. intros s Hs. eapply wp_mono; [apply H|].
  intros r s' (Hl & Hq & Hlog & HK). unfold shared_ok in *. rewrite Hq. destruct Hs. by split_and!.
Qed.

Lemma on_genv_frame {A} (m : M (env W) A) s :
  wp (on_genv m) (λ _ s', svcLock s' = svcLock s ∧ queue s' = queue s) s.
Proof. apply wp_on_genv. by unfold wp. Qed.
Lemma on_registry_frame {A} (m : M (regst W) A) s :
  wp (on_registry m) (λ _ s', svcLock s' = svcLock s ∧ queue s' = queue s) s.
Proof. apply wp_on_registry. by unfold wp. Qed.

(** *** Workers *)

Definition ruled_entry (e : queueEntry) : Prop := ∀ lb, qe_lb e = Some lb → is_Some (rule lb).

Lemma processQueueEntry_fits e : ruled_entry e →
  safe cs None (processQueueEntry_go cs fuel e)
    (λ lk c r, lk = None ∧ c = Some (qe_service e) ∧ no_panic r).
Proof.
  intros He. apply safe_locked; [done|]. cbv zeta.
  eapply safe_bind; [apply (safe_frame _ _ _ no_panic)| |by intros lk c x (-> & -> & _)|].
  - intros s. apply wp_on_registry. eapply wp_mono; [apply nodesForService_spec|].
    intros r t (_ & _ & Hpost). by destruct r.
  - intros lk c nodes (-> & -> & _). destruct (idsForNodes nodes) as [[hosts nets] p]. split; [done|].
    eapply safe_mono; [apply (safe_frame _ _ _ no_panic)|by intros lk c r (-> & -> & ?)].
    intros s. apply wp_bind. eapply wp_mono; [apply entry_lb_spec|].
    intros r s1 (Hret & _ & (_ & Hq & _) & Hl & Hlb).
    destruct r as [[lb|]|err| |]; cbn [on_ok]; try done.
    apply entry_lb_ruled in Hlb as [r Hr]; [|exact He].
    apply wp_bind. eapply wp_mono; [by apply update_lb_spec|].
    intros r' s2 (Hnp & _ & _ & Hq2 & Hl2). destruct r'; cbn [on_ok]; try done;
      try apply wp_ret; split_and!; try done; congruence.
  - by intros lk c x (-> & -> & ?).
Qed.

Lemma pop_fits : safe cs None (handing None (pop (W:=W)) taken) (λ lk c r, lk = None ∧ c = taken r ∧
  match r with Ok (Some e) => ruled_entry e | Ok None => True | _ => False end).
Proof.
  apply safe_handing. intros s [Hkeyed Hrules]. eapply wp_mono; [by apply pop_wp|].
  intros r s' (_ & Hl & Hlog & Hr).
  assert (st_logs no_change s s') as Hnc by (eapply logs_mono; [|exact Hlog]; by intros ? ->).
  destruct r as [[e|]|err| |]; try done; cbn [taken].
  - destruct Hr as (He & Hq & _). set (key := svcKey (qe_service e)) in *.
    split; [done|]. split; [|by split_and!; [| |intros lb; by eapply Hrules]].
    split_and!; [done| |done|].
    + split; intros k x; rewrite Hq; intros; simplify_map_eq; eauto.
      * apply lookup_delete_Some in H as [_ H]. by apply Hkeyed.
      * apply lookup_delete_Some in H as [_ H]. by eapply Hrules.
    + intros k [Hk|[=]]. destruct (decide (k = key)) as [->|Hne]; [right; by left|left].
      by rewrite Hq, lookup_delete_ne.
  - destruct Hr as [Hq _]. split; [done|]. split; [|done].
    split_and!; [done|by split; rewrite Hq|done|by apply same_accounted].
Qed.

Lemma push_logs e : preserves (st_logs no_change) (push (W:=W) cs e).
Proof.
  intros s. apply log_none. pose proof (push_wp cs e s) as (_ & _ & H & _). exact H.
Qed.

Lemma pushWithBackoff_fits e :
  safe cs None (handing (Some (qe_service e)) (pushWithBackoff (W:=W) cs e) (λ _, None))
    (λ lk c r, lk = None ∧ c = None ∧ match r with Ok _ => True | _ => False end).
Proof.
  apply safe_handing. intros s [Hkeyed Hrules].
  assert (preserves (st_logs no_change) (pushWithBackoff (W:=W) cs e)) as Hlogs.
  { pose proof push_logs. unfold pushWithBackoff. preserve; by apply preserves_on_genv, preserves_call. }
  eapply wp_mono; [apply wp_and; [apply pushWithBackoff_wp|apply (preserves_wp _ _ _ Hlogs)]|].
  cbn beta. intros r s' [(Hreg & Hl & _ & d & err & -> & Hok & Hbad & Hnolb & Hother & Hk) Hlog].
  cbn zeta in *. set (key := svcKey (qe_service e)) in *.
  split; [done|]. split; [|done]. split_and!; [done| |done|].
  - split; [by apply Hk|]. intros k x lb Hx Hlb. destruct (decide (k = key)) as [->|Hne].
    + apply Hnolb in Hx as [Hx _]. congruence.
    + rewrite Hother in Hx by done. by eapply Hrules.
  - intros k Hkk. destruct (decide (k = key)) as [->|Hne].
    + destruct err as [err|]; [|left; by apply Hok]. right. right. right.
      exists (qe_service e). split_and!; [done..|]. by apply Hbad.
    + left. rewrite Hother by done. destruct Hkk as [?|[= ?]]; [done|by destruct Hne].
Qed.

Lemma success_fits e :
  safe cs None (handing (Some (qe_service e))
    (on_genv (call (RateLimiterForget (svcKey (qe_service e)))) ;;
     on_genv (call (RecordEvent (qe_service e) false eventReasonUpdateSuccess))) (λ _, None))
    (λ lk c r, lk = None ∧ c = None ∧ match r with Ok _ => True | _ => False end).
Proof.
  apply safe_handing. intros s Hs. apply wp_bind, wp_on_genv, wp_call. intros w [] _. cbn [on_ok].
  apply wp_on_genv, wp_call. intros w' [] _. split; [done|]. split; [|done].
  set (s' := set_genv _ _).
  assert (elog (genv s') = elog (genv s) ++ [Ev (RateLimiterForget (svcKey (qe_service e)));
    Ev (RecordEvent (qe_service e) false eventReasonUpdateSuccess)]) as Hlog.
  { unfold s'. cbn [set_genv genv elog]. by rewrite <- app_assoc. }
  split_and!; [done|exact Hs| |].
  - intros _. eexists. split; [exact Hlog|]. by repeat constructor.
  - intros k [Hk|[= <-]]; [by left|]. right. right. left. do 2 eexists. split_and!; [exact Hlog|done|set_solver].
Qed.

Lemma event_fits svc b reason :
  safe cs None (held None (on_genv (call (RecordEvent svc b reason))))
    (λ lk c r, lk = None ∧ c = None ∧ match r : res unit with Ok _ => True | _ => False end).
Proof.
  apply (safe_frame _ _ _ (λ r, match r with Ok _ => True | _ => False end)). intros s. apply wp_on_genv, wp_call. intros w [] _.
  split_and!; [done..| |done]. intros _. eexists. split; [done|]. by repeat constructor.
Qed.

(** A program that goes on with empty hands, and comes to its last step. *)
Lemma safe_then {A B} lk (p : prog W A) (q : prog W B) P :
  safe cs lk p (λ lk c r, lk = None ∧ c = None ∧ match r with Ok _ => True | _ => False end) →
  carried q = None → safe cs None q (finished P) →
  carried (p ;; q) = carried p ∧ safe cs lk (p ;; q) (finished P).
Proof.
  intros Hp Hc Hq. eapply safe_bind; [exact Hp|..].
  - by intros lk' c a (-> & -> & _).
  - by intros lk' c a (_ & _ & []).
  - by intros lk' c a (_ & _ & []).
Qed.

(** The state in which a round leaves a worker that its timer can wake. *)
Definition awake_result (r : res worker) : Prop := ∃ wk, r = Ok wk ∧ awake wk.

Lemma awake_finished wk : awake wk → finished awake_result None None (Ok wk).
Proof. intros Hwk. repeat split. by exists wk. Qed.

Lemma worker_round_fits b expired t : is_Some (receive t) →
  safe cs None (worker_round_go cs fuel b expired t) (finished awake_result).
Proof.
  intros Ht. unfold worker_round_go.
  destruct (safe_tried cs None (handing None (pop (W:=W)) taken) _
    (λ lk c r, lk = None ∧ ∃ o, r = Ok (inr o) ∧
       match o with Some e => c = Some (qe_service e) ∧ ruled_entry e | None => c = None end) pop_fits)
    as [_ Hpop].
  { intros lk c o (-> & -> & He). split; [done|]. exists o. by destruct o. }
  1-2: by intros lk c x (_ & _ & []).
  eapply safe_bind; [exact Hpop|..]; clear Hpop.
  2-3: by intros lk c x (_ & o & [=] & _).
  intros lk c item (-> & o & [= ->] & He). destruct o as [item|].
  2: { subst c. split; [done|]. apply awake_finished. by apply nothing_popped_post. }
  destruct He as [-> He]. cbv zeta.
  destruct (safe_tried cs None (processQueueEntry_go cs fuel item) _
    (λ lk c r, lk = None ∧ c = Some (qe_service item) ∧ match r with Ok _ => True | _ => False end)
    (processQueueEntry_fits item He)) as [Hc Hs];
    [by intros ??? (->&->&?)..|].
  eapply safe_bind in Hs as [Hc' Hs]; [split; [rewrite Hc'; exact Hc|exact Hs]|..].
  2-3: by intros lk c x (_ & _ & []).
  assert (finished awake_result None None (Ok (Selecting b t))) as Hend by by apply awake_finished.
  intros lk c [err|[]] (-> & -> & _).
  - apply safe_then; [apply pushWithBackoff_fits|done|]. by apply safe_then; [apply event_fits|..].
  - by apply safe_then; [apply success_fits|..].
Qed.

Lemma worker_step_fits w expired wk : awake wk →
  carried (worker_step_go (W:=W) cs fuel w expired wk) = None ∧
  safe cs None (worker_step_go cs fuel w expired wk) (finished awake_result).
Proof.
  destruct wk as [b t| |]; intros Hwk; [|exact (conj eq_refl (awake_finished Returned I))|destruct Hwk].
  destruct w; cbn [worker_step_go].
  - exact (conj eq_refl (awake_finished Returned I)).
  - split; [done|]. by apply worker_round_fits.
  - destruct Hwk as [t' ->]. split; [done|]. apply worker_round_fits, receive_Reset.
Qed.

Lemma worker_loop_fits wk ws : awake wk →
  carried (worker_loop_go (W:=W) cs fuel wk ws) = None ∧
  safe cs None (worker_loop_go cs fuel wk ws) (finished awake_result).
Proof.
  revert wk. induction ws as [|[w expired] ws IH]; intros wk Hwk; cbn [worker_loop_go].
  { exact (conj eq_refl (awake_finished wk Hwk)). }
  destruct (worker_step_fits w expired wk Hwk) as [Hc Hs].
  eapply safe_bind in Hs as [Hc' Hs]; [split; [rewrite Hc'; exact Hc|exact Hs]|..].
  - intros lk c wk' (-> & -> & wk'' & [= <-] & Hwk'). by apply IH.
  - by intros lk c e (_ & _ & wk' & [=] & _).
  - by intros lk c e (_ & _ & wk' & [=] & _).
Qed.

(** *** Handlers *)

(** A push of an entry that nobody has in hand. *)
Lemma push_fits lk e : ruled_entry e →
  safe cs lk (held None (push (W:=W) cs e)) (λ lk' c _, lk' = lk ∧ c = None).
Proof.
  intros He. apply safe_held. intros s [Hk Hr].
  eapply wp_mono; [apply wp_and; [by apply push_keeps|apply push_wp]|]. cbn beta.
  intros r s' [(_ & Hk' & Hr' & Hl & Hlog & _) (_ & _ & _ & Hq)]. cbn zeta in Hq.
  split_and!; [done|by split| |by intros _; apply log_none|done].
  intros k Hin. destruct (queue s !! svcKey (qe_service e)) as [old|].
  - destruct Hq as [_ ->]. rewrite lookup_insert_is_Some. destruct (decide (svcKey (qe_service e) = k)); auto.
  - destruct r as [[]|err| |]; try done; destruct Hq as [_ ->]; [|done].
    rewrite lookup_insert_is_Some. destruct (decide (svcKey (qe_service e) = k)); auto.
Qed.

Lemma updateNodes_fits lk ns :
  safe cs lk (held None (on_registry (updateNodes (W:=W) cs ns))) (λ lk' c _, lk' = lk ∧ c = None).
Proof.
  eapply safe_mono; [apply (safe_frame _ _ _ (λ _, True))|by intros lk' c r (-> & -> & _)].
  intros s. apply wp_on_registry. eapply wp_mono; [apply updateNodes_wp|].
  intros r t (_ & Hlog & _). split_and!; [done..| |done]. intros _. by apply reads_no_change.
Qed.

(** A step under a lock that uses neither the queue nor the table of locks. *)
Lemma calls_fit {A} key (m : M (state W) A) :
  (∀ s, wp m (λ _ s', svcLock s' = svcLock s ∧ queue s' = queue s) s) →
  safe cs (Some key) (held None m) (λ lk c _, lk = Some key ∧ c = None).
Proof.
  intros Hm. eapply safe_mono; [apply (safe_frame _ _ _ (λ _, True))|by intros lk' c r (-> & -> & _)].
  intros s. eapply wp_mono; [apply Hm|]. by intros r s' [? ?].
Qed.

Lemma locked_fits {A} svc (p : prog W A) :
  carried p = None →
  safe cs (Some (svcKey svc)) p (λ lk c _, lk = Some (svcKey svc) ∧ c = None) →
  safe cs None (locked None svc p) (finished (λ _, True)).
Proof.
  intros Hc Hp. eapply safe_mono; [apply (safe_locked cs None svc p (λ _, True) Hc)|].
  - eapply safe_mono; [exact Hp|]. by intros lk c r [-> ->].
  - by intros lk c r (-> & -> & _).
Qed.

(** Programs whose steps end with empty hands and the same lock follow each other. *)
Lemma safe_seq {A B} lk (p : prog W A) (f : A → prog W B) :
  safe cs lk p (λ lk' c _, lk' = lk ∧ c = None) →
  (∀ a, carried (f a) = None ∧ safe cs lk (f a) (λ lk' c _, lk' = lk ∧ c = None)) →
  safe cs lk (p ≫= f) (λ lk' c _, lk' = lk ∧ c = None).
Proof.
  intros Hp Hf. eapply safe_bind; [exact Hp|..].
  - intros lk' c a [-> ->]. apply Hf.
  - by intros lk' c e [-> ->].
  - by intros lk' c e [-> ->].
Qed.

Lemma with_lb_frame {A} lb (m : M (lbst W) A) s :
  wp (with_lb lb m) (λ _ s', svcLock s' = svcLock s ∧ queue s' = queue s) s.
Proof. apply wp_with_lb. by unfold wp. Qed.

(** The calls of EnsureLoadBalancer leave the queue alone, and the balancer they
    end with has a rule. *)
Lemma ensured_fits svc key (ids : list string * list string * string) :
  safe cs (Some key) (held None (
    let '(_, networkIDs, projectID) := ids in
    lb ← on_genv (getLoadBalancer (W:=W) cs svc projectID networkIDs);
    ensured ← with_lb lb (ensureRule fuel);
    now ← on_genv (call Now);
    mret (ensured, now)))
    (λ lk c r, lk = Some key ∧ c = None ∧ ∀ lb st now, r = Ok (lb, st, now) → is_Some (rule lb)).
Proof.
  apply (safe_frame _ _ _ (λ r, ∀ lb st now, r = Ok (lb, st, now) → is_Some (rule lb))).
  intros s. destruct ids as [[hosts nets] p].
  apply wp_bind, wp_on_genv. eapply wp_mono; [apply getLoadBalancer_spec|].
  intros [lb|e|x|] e1 _; cbn [on_ok]; try done.
  apply wp_bind, wp_with_lb. eapply wp_mono; [apply ensureRule_wp|].
  intros [st|e|x|] t [_ Hok]; cbn [on_ok]; try done.
  apply wp_bind, wp_on_genv, wp_call. intros w now _. cbn [on_ok]. apply wp_ret.
  split_and!; [done..|]. intros lb' st' now' [= <- <- <-]. by apply (Hok st).
Qed.

Lemma Ensure_fits svc ns : safe cs None (EnsureLoadBalancer_go cs fuel svc ns) (finished (λ _, True)).
Proof.
  apply locked_fits; [by case_decide|]. case_decide; [done|].
  apply safe_seq; [apply updateNodes_fits|]. intros []. split; [done|].
  apply safe_seq; [apply calls_fit; intros s; apply on_registry_frame|]. intros ids. split; [done|].
  eapply safe_bind; [apply ensured_fits|..].
  - intros lk c [[lb st] now] (-> & -> & Hrule). split; [done|].
    apply safe_seq; [|done]. apply push_fits. intros lb' [= <-]. by eapply Hrule.
  - by intros lk c e (-> & -> & _).
  - by intros lk c e (-> & -> & _).
Qed.

Lemma Get_fits svc : safe cs None (GetLoadBalancer_go (W:=W) cs svc) (finished (λ _, True)).
Proof.
  apply locked_fits; [done|]. apply calls_fit. intros s. apply wp_bind.
  eapply wp_mono; [apply on_genv_frame|]. intros [lb|e|x|] s' [? ?]; cbn [on_ok]; try done.
  destruct (rule lb); by apply wp_ret.
Qed.

Lemma Update_fits svc ns : safe cs None (UpdateLoadBalancer_go (W:=W) cs svc ns) (λ lk c _, lk = None ∧ c = None).
Proof.
  apply safe_seq; [apply updateNodes_fits|]. intros []. split; [done|]. apply safe_seq.
  - eapply safe_mono; [apply (safe_frame _ _ _ (λ _, True))|by intros lk' c r (-> & -> & _)].
    intros s. apply wp_on_genv, wp_call. intros w now _. split_and!; [done..| |done].
    intros _. eexists. split; [done|]. by repeat constructor.
  - intros now. split; [done|]. by apply push_fits.
Qed.

Lemma Deleted_fits svc : safe cs None (EnsureLoadBalancerDeleted_go (W:=W) cs svc) (finished (λ _, True)).
Proof.
  apply locked_fits; [done|]. apply calls_fit. intros s. unfold delete_locked. apply wp_bind.
  eapply wp_mono; [apply on_genv_frame|]. intros [lb|e|x|] s1 [Hl Hq]; cbn [on_ok]; try done.
  destruct (rule lb); [|done]. destruct (isLBRemovalEnabled lb svc); [|done].
  destruct (shouldManageLB lb); [done|]. apply wp_bind.
  eapply wp_mono; [apply with_lb_frame|]. intros r s2 [Hl2 Hq2].
  destruct r; cbn [on_ok]; try apply wp_ret; split; congruence.
Qed.

Lemma informer_fits evs : carried (informer_go (W:=W) evs) = None ∧
  safe cs None (informer_go (W:=W) evs) (λ lk c _, lk = None ∧ c = None).
Proof.
  induction evs as [|ev evs [IHc IH]]; [done|]. cbn [informer_go fold_right]. split; [done|].
  apply safe_seq; [|done].
  eapply safe_mono; [apply (safe_frame _ _ _ (λ _, True))|by intros lk' c r (-> & -> & _)].
  intros s. split_and!; [done..| |done]. intros _. by apply log_none.
Qed.

End fits_in.

(** ** start and stopWait *)

Section stop.
Context {W} `{!Cloud W}.
Context (cs : CSCloud).
Implicit Types (x y : runtime W).

(** start(): the worker goroutines, each with the wake-ups that it gets. *)
Definition start_workers (fuel : nat) (wakeups : nat → list (wakeup * bool)) x : runtime W :=
  foldl (λ x t, Runtime (shared x)
      (<[t := (ending_of Worked (worker_loop_go cs fuel new_worker (wakeups t)), Idle)]> (gos x)))
    x (seq 0 (Z.to_nat (workers cs))).

(** stopWait() closes the channel that the wake-up [StopCh] is received from, and
    comes back when every worker has returned. *)
Definition stopWait_returns x : Prop :=
  ∀ t, is_worker cs t → ∃ c g, gos x !! t = Some (Ret c (Ok (Worked Returned)), g).

Lemma start_workers_steps fuel wakeups x :
  (∀ t, is_worker cs t → gos x !! t = None) →
  rtc (step (provider_go cs)) x (start_workers fuel wakeups x).
Proof.
  intros Hx. unfold start_workers.
  assert (∀ n m x, (∀ t, n ≤ t → t < n + m → is_worker cs t ∧ gos x !! t = None) →
    rtc (step (provider_go cs)) x (foldl (λ x t, Runtime (shared x)
      (<[t := (ending_of Worked (worker_loop_go cs fuel new_worker (wakeups t)), Idle)]> (gos x)))
      x (seq n m))) as Hgo.
  { clear x Hx. intros n m. revert n. induction m as [|m IH]; intros n x Hx; cbn [seq foldl]; [done|].
    destruct (Hx n) as [Hw Hn]; [lia..|]. eapply rtc_l; [exists n; by apply go_start, run_worker|].
    apply IH. intros t Hnt Htm. destruct (Hx t) as [? Ht]; [lia..|]. split; [done|].
    cbn [gos]. by rewrite lookup_insert_ne by lia. }
  apply Hgo. intros t _ Ht. assert (is_worker cs t) by (unfold is_worker; lia). auto.
Qed.

(** Handlers and the informer take nothing from the queue. *)
Lemma provider_go_bare t (p : prog W ending) : provider_go cs t p → ¬ is_worker cs t → bare p.
Proof.
  intros [fuel ws Ht|fuel svc ns _|svc _|svc ns _|svc _|evs _] Hn; [done|..]; apply bare_ending.
  - apply bare_locked. case_decide; [done|].
    do 3 (apply bare_bind; [apply bare_held|intros ?]). destruct a1 as [[lb st] now].
    apply bare_bind; [apply bare_held|intros ?; apply bare_ret].
  - apply bare_locked, bare_held.
  - do 2 (apply bare_bind; [apply bare_held|intros ?]). apply bare_held.
  - apply bare_locked, bare_held.
  - induction evs as [|ev evs IH]; [done|]. apply bare_bind; [apply bare_held|done].
Qed.

(** When stopWait has come back, no update is in anybody's hands. *)
Lemma stopped_pending x k :
  (∀ t p g, gos x !! t = Some (p, g) → ¬ is_worker cs t → bare p) →
  config_ok cs (worker_promise cs) x →
  stopWait_returns x → pending k x → is_Some (queue (shared x) !! k).
Proof.
  intros Hbare Hok Hstop [Hk|(t & p & g & Ht & Hc)]; [done|]. exfalso.
  assert (carried p = None) as Hnone.
  { destruct (decide (Z.of_nat t < workers cs)%Z) as [Hw|Hw].
    - destruct (Hstop t Hw) as (c' & g' & Ht'). simplify_eq.
      pose proof (cok_fits _ _ x Hok t _ _ Ht) as Hf.
      destruct g as [|key q|key q]; cbn in Hf; [by destruct Hf as (_ & ? & _)
        |by destruct Hf as (? & ? & [=] & _)|by destruct Hf].
    - eapply bare_carried, Hbare; [done|exact Hw]. }
  unfold carries in Hc. by rewrite Hnone in Hc.
Qed.
End stop.

(** ** Theorems *)

Section theorems.
Context {W} `{!Cloud W}.
Context (cs : CSCloud).
Implicit Types (s : state W) (x y : runtime W).

Lemma provider_go_safe t (p : prog W ending) :
  provider_go cs t p → safe cs None p (finished (worker_promise cs t)).
Proof.
  intros [fuel ws _|fuel svc ns Ht|svc Ht|svc ns Ht|svc Ht|evs Ht].
  { eapply safe_ending; [by apply worker_loop_fits; eexists|].
    intros r (wk & -> & Hwk) _. by exists wk. }
  all: apply (safe_ending cs _ _ (λ _, True)); [|intros [a|e|x|] _; [intros Hw; by destruct (Ht Hw)..|exact I]].
  - apply Ensure_fits.
  - apply Get_fits.
  - eapply safe_mono; [apply Update_fits|]. by intros lk c r [-> ->].
  - apply Deleted_fits.
  - eapply safe_mono; [apply informer_fits|]. by intros lk c r [-> ->].
Qed.

(** The states that the goroutines of a provider can bring about. *)
Definition go_reachable (e : env W) x : Prop := rtc (step (provider_go cs)) (go_init (provider_init e)) x.

Lemma go_reachable_ok e x : go_reachable e x → config_ok cs (worker_promise cs) x.
Proof.
  intros Hx. apply (steps_config_ok cs (provider_go cs) _ provider_go_safe _ _ Hx). apply init_config_ok.
Qed.

(** The two models of the handlers and of the loop of a worker agree: a
    goroutine that nobody interferes with does what the sequential operation
    does. *)
Lemma goroutines_alone fuel s :
  (∀ wk ws, run_alone (worker_loop_go cs fuel wk ws) s = worker_loop cs fuel wk ws s) ∧
  (∀ svc ns, run_alone (EnsureLoadBalancer_go cs fuel svc ns) s = EnsureLoadBalancer cs fuel (Some svc) ns s) ∧
  (∀ svc, run_alone (GetLoadBalancer_go cs svc) s = GetLoadBalancer cs (Some svc) s) ∧
  (∀ svc ns, run_alone (UpdateLoadBalancer_go cs svc ns) s = UpdateLoadBalancer cs (Some svc) ns s) ∧
  (∀ svc, run_alone (EnsureLoadBalancerDeleted_go cs svc) s = EnsureLoadBalancerDeleted cs (Some svc) s).
Proof.
  split_and!; intros; [apply run_worker_loop|apply run_Ensure|apply run_Get|apply run_Update|apply run_Deleted].
Qed.

(** (C7) No update is lost, however handlers, workers and the informer
    interleave: a service that waits in the queue, or whose entry a worker has in
    hand, is in one of these places at every later time, unless in some step in
    between its update was recorded as a success, or the goroutine that made the
    step had the entry in hand and no registered node serves its service.  When
    stopWait has come back nobody has an entry in hand: it waits in the queue. *)
Theorem no_update_lost e x y k (Hx : go_reachable e x) (Hxy : rtc (step (provider_go cs)) x y)
    (Hk : pending k x) :
  (pending k y ∧ (stopWait_returns cs y → is_Some (queue (shared y) !! k))) ∨
  ∃ t z z', rtc (step (provider_go cs)) x z ∧ go_step (provider_go cs) t z z' ∧
    rtc (step (provider_go cs)) z' y ∧ dealt_with cs k t z z'.
Proof.
  pose proof (go_reachable_ok e x Hx) as Hok.
  destruct (steps_pending cs (provider_go cs) _ provider_go_safe x y k Hxy Hok Hk) as [Hp|?]; [left|by right].
  split; [done|]. intros Hstop. apply (stopped_pending cs);
    [|exact (steps_config_ok cs _ _ provider_go_safe x y Hxy Hok)|done..].
  apply (steps_bare (provider_go cs) (λ t, ¬ is_worker cs t) (go_init (provider_init e)));
    [apply provider_go_bare|by etrans|].
  intros t p g. cbn. by rewrite lookup_empty.
Qed.

(** (C8) CloudStack is changed only under the lock of a service: a step that
    makes a changing call belongs to a goroutine that holds a service and keeps
    it in this step, and no other goroutine holds the same service. *)
Theorem changes_under_lock e x y t (Hx : go_reachable e x) (Hstep : go_step (provider_go cs) t x y) :
  st_logs no_change (shared x) (shared y) ∨
  ∃ key, holds x t key ∧ holds y t key ∧ ∀ t', holds x t' key ∨ holds y t' key → t' = t.
Proof.
  pose proof (go_reachable_ok e x Hx) as Hok.
  destruct (step_changes cs (provider_go cs) _ t x y Hstep Hok) as [?|(key & H1 & H2)]; [by left|right].
  exists key. split_and!; [done..|].
  pose proof (step_config_ok cs (provider_go cs) _ provider_go_safe t x y Hstep Hok) as Hok'.
  intros t' [H|H]; [by apply (holds_one cs _ x t' t key Hok)|by apply (holds_one cs _ y t' t key Hok')].
Qed.

(** (C10) There is no deadlock, and no lock is misused: in every reachable state
    each goroutine has returned, or is in a call that does not return, or can
    make its next step, or waits for a service whose holder can make its next
    step or is in such a call; and a goroutine that gives a lock back holds it. *)
Theorem goroutines_progress e x t p g (Hx : go_reachable e x) (Ht : gos x !! t = Some (p, g)) :
  (returned (worker_promise cs) x t ∨ hangs x t ∨ can_move (provider_go cs) t x ∨
   ∃ t' key, t' ≠ t ∧ (∃ q, g = Waiting key q) ∧ holds x t' key ∧
     (hangs x t' ∨ can_move (provider_go cs) t' x)) ∧
  (∀ c key k, p = Rel c key k → holds x t key ∧ is_Some (release key (svcLock (shared x)))).
Proof.
  apply go_reachable_ok in Hx. split; [by eapply progress|].
  intros c key k ->. destruct (fits_release cs _ x t c key k g Hx Ht) as [[q ->] ?].
  split; [by do 2 eexists|done].
Qed.

(** (C11) Workers survive: whatever CloudStack answers and however the goroutines
    interleave, a goroutine that start() launched never ends with a panic and
    never waits for a timer that has no expiry ahead.  When it is not in the
    middle of a round it has returned, or it is at its select statement and its
    timer will wake it up; and it holds no lock and no entry. *)
Theorem workers_survive e x t c r g (Hx : go_reachable e x) (Ht : is_worker cs t)
    (Hgo : gos x !! t = Some (Ret c r, g)) :
  c = None ∧ g = Idle ∧
  (r = Ok (Worked Returned) ∨ ∃ b timer, r = Ok (Worked (Selecting b timer)) ∧ is_Some (receive timer)).
Proof.
  apply go_reachable_ok in Hx. pose proof (cok_fits _ _ x Hx t _ _ Hgo) as Hf.
  destruct g as [|key q|key q]; cbn in Hf; [|by destruct Hf as (? & ? & [=] & _)|by destruct Hf].
  destruct Hf as (_ & -> & Hr). destruct (Hr Ht) as (wk & -> & Hwk). split_and!; [done..|].
  destruct wk as [b timer| |]; [right; eauto|by left|by destruct Hwk].
Qed.
End theorems.
