(* ===== verification/Startup.v ===== *)
(** * From the configuration to a running provider (cloudstack.go)

    Initialize and SetInformers, on the goroutines of Interleaving: what runs when
    the controller manager has set the provider up. *)
From stdpp Require Import base list strings gmap.
From S2P Require Import Prelude GoStd Kube Cloud Config ServiceLock Nodes State Queue Workers Goroutines Handlers Interleaving.

Section startup.
Context {W} `{!Cloud W}.

(** The client of the Kubernetes API and the recorder of events are values of
    client-go; the builder makes the former from a name, a broadcaster the latter
    from it and the name of the component. *)
Context {kubernetes EventRecorder : Type}.
Context (ClientOrDie : string → kubernetes) (NewRecorder : kubernetes → string → EventRecorder).

(** A provider with its goroutines. *)
Record provider := Provider {
  settings : CSCloud;
  kubeClient : option kubernetes;
  recorder : option EventRecorder;
  running : runtime W;
}.

(** What newCSCloud returns: nothing runs yet. *)
Definition new_provider (cs : CSCloud) (e : env W) : provider :=
  Provider cs None None (go_init (provider_init e)).

(** The client and the recorder are there before the workers start.  The goroutine
    that cancels the context of the workers when [stop] is closed keeps no state of
    the provider: its effect is the wake-up [CtxDone]. *)
Definition Initialize (fuel : nat) (wakeups : nat → list (wakeup * bool)) (p : provider) : provider :=
  let c := ClientOrDie ProviderName in
  Provider (settings p) (Some c) (Some (NewRecorder c "csccm"))
    (start_workers (settings p) fuel wakeups (running p)).

(** The handler is registered with the informer of the endpoints, whose goroutine
    [t] calls it for the events [evs]. *)
Definition SetInformers (t : nat) (evs : list informer_event) (p : provider) : provider :=
  Provider (settings p) (kubeClient p) (recorder p)
    (Runtime (shared (running p))
       (<[t := (ending_of (λ _, Done) (informer_go evs), Idle)]> (gos (running p)))).

(** ** What runs *)

(** start() launches as many workers as are configured, and nothing else. *)
Lemma start_workers_gos cs fuel wakeups (x : runtime W) t :
  shared (start_workers cs fuel wakeups x) = shared x ∧
  (is_worker cs t → gos (start_workers cs fuel wakeups x) !! t =
     Some (ending_of Worked (worker_loop_go cs fuel new_worker (wakeups t)), Idle)) ∧
  (¬ is_worker cs t → gos (start_workers cs fuel wakeups x) !! t = gos x !! t).
Proof.
  unfold start_workers.
  assert (∀ n m x, let y := foldl (λ x t, Runtime (shared x)
      (<[t := (ending_of Worked (worker_loop_go cs fuel new_worker (wakeups t)), Idle)]> (gos x))) x (seq n m) in
    shared y = shared x ∧
    (n ≤ t < n + m → gos y !! t = Some (ending_of Worked (worker_loop_go cs fuel new_worker (wakeups t)), Idle)) ∧
    (¬ n ≤ t < n + m → gos y !! t = gos x !! t)) as Hgo.
  { clear x. intros n m. revert n. induction m as [|m IH]; intros n x; cbn [seq foldl].
    { split_and!; [done|lia|done]. }
    destruct (IH (S n) (Runtime (shared x)
      (<[n := (ending_of Worked (worker_loop_go cs fuel new_worker (wakeups n)), Idle)]> (gos x)))) as (Hs & Hin & Hout).
    split; [exact Hs|]. cbn [gos] in *. split; intros Ht.
    - destruct (decide (t = n)) as [->|Hne]; [|apply Hin; lia].
      rewrite Hout by lia. by rewrite lookup_insert_eq.
    - rewrite Hout by lia. by rewrite lookup_insert_ne by lia. }
  destruct (Hgo 0 (Z.to_nat (workers cs)) x) as (Hs & Hin & Hout). unfold is_worker.
  split_and!; [exact Hs|intros; apply Hin; lia|intros; apply Hout; lia].
Qed.

(** The set-up of a provider: the client and the recorder are there, the workers
    of the configuration are at their select statement, the informer runs, nothing
    else does, and the queue is empty.  It is a reachable state of Interleaving, so what
    is proved there holds for every provider that is started this way. *)
Theorem startup cs (e : env W) fuel wakeups t evs (Ht : ¬ is_worker cs t) :
  let p := SetInformers t evs (Initialize fuel wakeups (new_provider cs e)) in
  go_reachable cs e (running p) ∧ is_Some (kubeClient p) ∧ is_Some (recorder p) ∧
  queue (shared (running p)) = ∅ ∧
  ∀ t', gos (running p) !! t' =
    if decide (is_worker cs t') then Some (ending_of Worked (worker_loop_go cs fuel new_worker (wakeups t')), Idle)
    else if decide (t' = t) then Some (ending_of (λ _, Done) (informer_go evs), Idle) else None.
Proof.
  cbn zeta. cbn [Initialize SetInformers new_provider running kubeClient recorder settings shared gos].
  set (x0 := go_init (provider_init e)).
  destruct (start_workers_gos cs fuel wakeups x0 t) as (Hs & _ & Hout).
  split_and!; [|by eexists|by eexists|by rewrite Hs|].
  - unfold go_reachable. eapply rtc_r; [apply start_workers_steps; by intros t' _|].
    exists t. apply go_start; [by rewrite Hout|by apply run_informer].
  - intros t'. destruct (start_workers_gos cs fuel wakeups x0 t') as (_ & Hin' & Hout').
    case_decide as Hw.
    + rewrite lookup_insert_ne by (intros ->; done). by apply Hin'.
    + case_decide as Htt; [subst; by rewrite lookup_insert_eq|]. rewrite lookup_insert_ne by done. by apply Hout'.
Qed.
End startup.
