(* ===== verification/HandlerPanics.v ===== *)
(** * Panics of the handlers

    When CloudStack's answers fit together (a list without pages that counts
    something holds something, an object that was found is there), no handler panics, unless a
    project label must be written to a service that has no labels. *)
From stdpp Require Import base list strings gmap sets.
From S2P Require Import Prelude GoStd Kube Cloud Config Meta Pages ServiceLock Balancer Ports PublicIP Rule Nodes Panics State Queue Handlers.

(** What the code relies on when it indexes and dereferences an answer. *)
Record coherent (W : Type) `{!Cloud W} : Prop := {
  coherent_list c p (w : W) l :
    lp_Page p = None →
    (exec (ListPublicIpAddresses c p) w).2 = inr l → Count l ≠ 0%Z → Items l ≠ [];
  coherent_network c n p (w : W) :
    g_err (exec (GetNetworkByID c n p) w).2 = None →
    is_Some (g_obj (exec (GetNetworkByID c n p) w).2);
}.

Section coherent_calls.
Context {W} `{!Cloud W} (HW : coherent W).
Implicit Types pc : projectCloud.

(** Code that goes on with a list of public IPs. *)
Lemma list_calm {A} c p g (f : page PublicIpAddress → M (env W) A) :
  lp_Page p = None →
  (∀ l, (Count l ≠ 0%Z → Items l ≠ []) → calm (f l)) →
  calm (l ← wrap g (call_err (ListPublicIpAddresses c p)); f l).
Proof using HW.
  intros Hp Hf s.
  change (wp (l ← wrap g (call_err (ListPublicIpAddresses c p)); f l) (λ r _, no_panic r) s).
  apply wp_bind, wp_wrap, wp_call_err; intros w l Hl; cbn [on_ok]; [done|].
  apply Hf. apply (coherent_list W HW c p (ew s)); [done|by rewrite Hl].
Qed.

Lemma index_calm {A} (l : list A) : l ≠ [] → calm (S:=env W) (index l 0).
Proof using Type. by destruct l. Qed.

Lemma getPublicIPAddressByID_calm pc i : calm (getPublicIPAddressByID (W:=W) pc i).
Proof using HW.
  unfold getPublicIPAddressByID. apply calm_bind; [by calming|intros c].
  apply list_calm; [done|]. intros l Hl. do 2 (case_decide; [by calming|]). by apply index_calm, Hl.
Qed.

Lemma getPublicIPAddressByIP_calm pc i : calm (getPublicIPAddressByIP (W:=W) pc i).
Proof using HW.
  unfold getPublicIPAddressByIP. apply calm_bind; [by calming|intros c].
  apply list_calm; [done|]. intros l Hl. do 2 (case_decide; [by calming|]).
  apply calm_bind; [by apply index_calm, Hl|by calming].
Qed.

Lemma network_calm {A} c n p (f : got Network → M (env W) A) :
  (∀ x, (g_err x = None → is_Some (g_obj x)) → calm (f x)) →
  calm (x ← call (GetNetworkByID c n p); f x).
Proof using HW.
  intros Hf s. change (wp (x ← call (GetNetworkByID c n p); f x) (λ r _, no_panic r) s).
  apply wp_bind, wp_call; intros w x Hx; cbn [on_ok]. apply Hf.
  intros He. pose proof (coherent_network W HW c n p (ew s)) as H. rewrite Hx in H. by apply H.
Qed.

Lemma associatePublicIPAddress_calm pc svc net : calm (associatePublicIPAddress (W:=W) pc svc net).
Proof using HW.
  pose proof (waitJob_calm (W:=W) (k:=KAssociate)) as Hwait.
  unfold associatePublicIPAddress. apply calm_bind; [by calming|intros c].
  apply network_calm. intros n Hn. destruct (g_err n) as [err|]; [by calming|].
  destruct (Hn eq_refl) as [network ->]. apply calm_bind; [apply calm_ret|intros v].
  apply calm_bind; [by calming|intros result].
  case_decide; [|by calming]. apply calm_bind; [apply Hwait|by calming].
Qed.

Lemma releaseLoadBalancerIP_calm pc i : calm (releaseLoadBalancerIP (W:=W) pc i).
Proof using Type. unfold releaseLoadBalancerIP. calming. Qed.

Lemma releaseIPIfManaged_calm pc i svc : calm (releaseIPIfManaged (W:=W) pc i svc).
Proof using HW.
  pose proof getPublicIPAddressByID_calm. pose proof releaseLoadBalancerIP_calm.
  unfold releaseIPIfManaged. calming.
Qed.

Lemma getLoadBalancerIP_calm fuel pc svc net : calm (getLoadBalancerIP (W:=W) fuel pc svc net).
Proof using HW.
  pose proof getPublicIPAddressByIP_calm. pose proof releaseLoadBalancerIP_calm.
  pose proof associatePublicIPAddress_calm.
  unfold getLoadBalancerIP, tryPublicIPAddressByTags, listAllIPPages, tag_or_release, assignTagsToIP.
  calming.
Qed.
End coherent_calls.

(** ** The steps of EnsureLoadBalancer on a balancer *)

Section ensure_steps.
Context {W} `{!Cloud W} (HW : coherent W).

Definition has_labels (lb : loadBalancer) : Prop := is_Some (Labels (svc_meta (service lb))).

Lemma labelProject_triple : triple (W:=W) has_labels (λ _ _, True) labelProject.
Proof using Type.
  unfold labelProject. apply triple_lb. intros lb [l Hl]. case_decide; [|by intros s].
  rewrite Hl. eapply (triple_bind _ (λ _ _, True)); [by apply triple_modify|intros []].
  apply triple_wrap, triple_env, calm_call_err.
Qed.

Lemma loadLoadBalancerIP_triple fuel : triple (W:=W) (λ _, True) (λ _ _, True) (loadLoadBalancerIP fuel).
Proof using HW.
  unfold loadLoadBalancerIP. apply triple_lb. intros lb _. destruct (isValid (ip lb)); [by intros s|].
  eapply (triple_bind _ (λ _ _, True)).
  { eapply triple_weaken; [by apply triple_env, getLoadBalancerIP_calm|exact (λ _ H, H)|done]. }
  intros i. eapply (triple_bind _ (λ _ _, True)); [by apply triple_modify|intros []].
  by apply triple_modify.
Qed.

Lemma updateLoadBalancerIP_triple : triple (W:=W) (λ _, True) (λ _ _, True) updateLoadBalancerIP.
Proof using HW.
  unfold updateLoadBalancerIP. apply triple_lb. intros lb _.
  eapply (triple_bind _ (λ _ lb', rule lb' = rule lb)).
  { eapply triple_weaken; [by apply triple_env, getPublicIPAddressByIP_calm|exact (λ _ H, H)|].
    by intros _ lb' [-> _]. }
  intros i. eapply (triple_bind _ (λ _ lb', rule lb' = rule lb)); [by apply triple_modify|intros []].
  eapply (triple_bind _ (λ _ _, True)).
  - destruct (rule lb) as [r|] eqn:Hr; [|by intros s].
    eapply (triple_bind _ (λ _ _, True)).
    + eapply triple_weaken; [apply deleteLoadBalancerRule_triple| |done]. intros lb' Hlb'. by exists r.
    + intros []. by apply triple_modify.
  - intros []. destruct (isValid (ip lb)); [|by intros s].
    by apply triple_env, releaseIPIfManaged_calm.
Qed.

Lemma ensureExists_triple b : triple (W:=W) (λ _, True) (λ _ _, True) (ensureExists b).
Proof using Type.
  unfold ensureExists. apply triple_lb. intros lb _. eapply (triple_bind _ (λ _ _, True)); [|by intros [] s].
  destruct b; [by intros s|].
  eapply (triple_bind _ (λ _ _, True)).
  { eapply triple_weaken; [by apply (createLoadBalancerRule_triple (λ _, True))|done|done]. }
  intros r. eapply (triple_bind _ (λ _, ruled)); [apply triple_modify; intros; by eexists|intros []].
  eapply triple_weaken; [apply assignTagsToRule_triple|done|done].
Qed.

(** A step that is only taken when the check asks for it. *)
Lemma actionable_step (b : bool) res (m : M (lbst W) unit) :
  (b = true → needsUpdate res = true ∨ needsTags res = true) →
  triple ruled (λ _, ruled) m →
  triple (actionable res) (λ _, actionable res) (if b then m else mret tt).
Proof using Type.
  intros Hb Hm. destruct b; [|by intros s].
  eapply triple_weaken; [exact Hm| |].
  - intros lb Ha. apply Ha. destruct (Hb eq_refl) as [H|H]; auto.
  - by intros a lb Hr Hneed.
Qed.

Lemma ensureManaged_triple fuel : triple (W:=W) (λ _, True) (λ _ _, True) (ensureManaged fuel).
Proof using HW.
  unfold ensureManaged.
  eapply triple_bind; [apply loadLoadBalancerIP_triple|intros []; cbn beta].
  apply triple_lb. intros lb _.
  eapply (triple_bind _ (λ _ _, True)).
  { case_decide; [|by intros s].
    eapply triple_weaken; [apply updateLoadBalancerIP_triple|done|done]. }
  intros []. eapply triple_bind; [apply checkLoadBalancerRule_triple|intros res].
  eapply triple_bind; [apply actionable_step; [auto|apply updateLoadBalancerRule_triple]|intros []].
  eapply triple_bind; [apply actionable_step; [auto|apply assignTagsToRule_triple]|intros []].
  eapply triple_weaken; [apply ensureExists_triple|done|done].
Qed.

Lemma ensureRule_triple fuel : triple (W:=W) has_labels (λ _ _, True) (ensureRule fuel).
Proof using HW.
  unfold ensureRule. eapply triple_bind; [apply labelProject_triple|intros []].
  apply triple_lb. intros lb _. eapply (triple_bind _ (λ _ _, True)).
  { unfold setAlgorithm. destruct (affinity_algorithm _); [by apply triple_modify|by intros s]. }
  intros []. apply triple_lb. intros lb' _. destruct (shouldManageLB lb'); [by intros s|].
  eapply triple_weaken; [apply ensureManaged_triple|done|done].
Qed.

Lemma deleteBalancer_triple : triple (W:=W) ruled (λ _ _, True) deleteBalancer.
Proof using HW.
  unfold deleteBalancer. eapply triple_bind; [apply deleteLoadBalancerRule_triple|intros []].
  apply triple_lb. intros lb _. case_decide; [|by intros s].
  eapply triple_weaken; [by apply triple_env, releaseIPIfManaged_calm|exact (λ _ H, H)|done].
Qed.
End ensure_steps.

(** ** The handlers *)

Section handlers_calm.
Context {W} `{!Cloud W} (HW : coherent W).
Implicit Types (cs : CSCloud) (s : state W).

Lemma push_calm cs e : calm (push (W:=W) cs e).
Proof using Type. unfold push, modify_queue, on_registry. calming. Qed.

Lemma with_lb_triple {A} lb (m : M (lbst W) A) P Q s :
  triple P Q m → P lb → no_panic (with_lb lb m s).2.
Proof using Type.
  intros Hm Hlb. unfold with_lb. pose proof (Hm (LB (genv s) lb) Hlb) as H.
  by destruct (m _) as [t []].
Qed.

Lemma ensure_locked_calm cs fuel svc ns :
  is_Some (Labels (svc_meta svc)) → calm (ensure_locked (W:=W) cs fuel svc ns).
Proof using HW.
  intros Hlabels. pose proof push_calm. unfold ensure_locked. case_decide; [by calming|].
  apply calm_bind; [by apply calm_zoom, updateNodes_calm|intros []].
  apply calm_bind; [by apply calm_zoom, idsForService_calm|intros [[hosts nets] p]].
  intros s.
  match goal with |- no_panic (?m s).2 => change (wp m (λ r _, no_panic r) s) end.
  apply wp_bind, wp_on_genv. eapply wp_mono; [apply getLoadBalancer_spec|].
  intros r e [_ Hlb]. destruct r as [lb|err| |]; cbn [on_ok]; try done.
  destruct Hlb as [(_ & Hsvc & _) _].
  match goal with |- wp ?m _ ?t => enough (no_panic (m t).2) by done end.
  assert (no_panic (with_lb lb (ensureRule fuel) (set_genv e s)).2) as Hnp.
  { eapply with_lb_triple; [by apply ensureRule_triple|]. unfold has_labels. by rewrite Hsvc. }
  unfold mbind at 1, M_bind at 1.
  destruct (with_lb lb (ensureRule fuel) (set_genv e s)) as [s1 [[lb' st]|err|p'|]]; try done.
  match goal with |- no_panic (?m s1).2 => enough (calm m) as Hm by apply Hm end.
  apply calm_bind; [by apply calm_zoom, calm_call|intros now]. by calming.
Qed.

Lemma delete_locked_calm cs svc : calm (delete_locked (W:=W) cs svc).
Proof using HW.
  unfold delete_locked. apply calm_bind; [by apply calm_zoom, getLoadBalancer_calm|intros lb].
  destruct (rule lb) as [r|] eqn:Hr; [|by calming].
  destruct (isLBRemovalEnabled lb svc); [|by calming].
  destruct (shouldManageLB lb); [by calming|].
  apply calm_bind; [|by calming]. intros s. eapply with_lb_triple; [by apply deleteBalancer_triple|].
  by exists r.
Qed.

Lemma with_lock_calm {A} svc (m : M (state W) A) s :
  provider_inv s → calm m → svcLock (m (locked_start svc s)).1 = svcLock (locked_start svc s) →
  no_panic (with_lock svc m s).2.
Proof using Type.
  intros [[_ Hfree] _] Hm Hl.
  assert (wp (with_lock svc m) (λ r _, no_panic r) s) as H; [|exact H].
  apply wp_with_lock; [apply Hfree|]. unfold wp. split; [done|].
  pose proof (Hm (locked_start svc s)). by destruct (m (locked_start svc s)) as [s' []].
Qed.

Lemma delete_locked_lock cs svc s : svcLock (delete_locked (W:=W) cs svc s).1 = svcLock s.
Proof using Type.
  unfold delete_locked, mbind, M_bind, on_genv, zoom.
  destruct (getLoadBalancer cs svc "" [] (genv s)) as [e [lb|err|p|]]; try done.
  destruct (rule lb); [|done]. destruct (isLBRemovalEnabled lb svc); [|done].
  destruct (shouldManageLB lb); [done|]. unfold with_lb. cbn [genv set_genv].
  by destruct (deleteBalancer (LB e lb)) as [t [[]|err|p|]].
Qed.

(** (C12) Against a CloudStack whose answers fit together, none of the handlers
    panics, from any state the provider can be in between two operations; for
    EnsureLoadBalancer as long as the service object has a map of labels.  That
    exception is real ([labelProject_spec]). *)
Theorem handlers_never_panic cs fuel svc ns s (Hinv : provider_inv s) :
  (is_Some (Labels (svc_meta svc)) → no_panic (EnsureLoadBalancer cs fuel (Some svc) ns s).2) ∧
  no_panic (GetLoadBalancer cs (Some svc) s).2 ∧
  no_panic (UpdateLoadBalancer cs (Some svc) ns s).2 ∧
  no_panic (EnsureLoadBalancerDeleted cs (Some svc) s).2.
Proof using HW.
  split_and!.
  - intros Hlabels. apply with_lock_calm; [done|by apply ensure_locked_calm|].
    destruct Hinv as [[Hk _] Hq]. by destruct (ensure_locked_wp cs fuel svc ns (locked_start svc s) Hk Hq).
  - apply with_lock_calm; [done| |].
    + apply calm_bind; [by apply calm_zoom, getLoadBalancer_calm|]. by calming.
    + unfold mbind, M_bind, on_genv, zoom.
      destruct (getLoadBalancer cs svc "" [] _) as [e [lb|err|p|]]; try done. by destruct (rule lb).
  - pose proof push_calm. unfold UpdateLoadBalancer, on_registry, on_genv.
    apply calm_bind; [by apply calm_zoom, updateNodes_calm|by calming].
  - apply with_lock_calm; [done|by apply delete_locked_calm|apply delete_locked_lock].
Qed.
End handlers_calm.
