(* ===== verification/Instances.v ===== *)
(** * Instances and zones (instances.go, zones.go)

    From Kubernetes nodes and provider IDs to CloudStack machines, and what the
    cloud provider interface reports about them: addresses, types, existence,
    shutdown and zone. *)
From Stdlib Require Import Ascii.
From stdpp Require Import base list strings gmap sets.
From S2P Require Import Prelude GoStd Kube Cloud Config Meta.

(** ** Nodes and provider IDs *)

Record node := { n_projectID : string; n_name : string; n_environment : string; n_vmID : string }.

Definition toProviderID (n : node) : string :=
  Join [n_environment n; n_projectID n; n_vmID n] "/".

Definition providerPrefix : string := ProviderName +:+ "://".

Definition parseProviderID (instanceID : string) : error + node :=
  match Split (TrimPrefix instanceID providerPrefix) "/" with
  | [env; project; vm] =>
      inr {| n_projectID := project; n_name := ""; n_environment := env; n_vmID := vm |}
  | _ => inl (Errorf "error parsing providerID: %q - %#v" [instanceID])
  end.

Definition newNode (cs : CSCloud) (kubeNode : Node) : error + node :=
  let meta := node_meta kubeNode in
  let name := default (Name meta) (getLabelOrAnnotation meta (NodeNameLabel (Global (config cs)))) in
  let environment := environmentForMeta cs meta in
  match projectForMeta cs meta environment with
  | inl err => inl (Errorf "error processing node %#v: %v" [Name meta; Error err])
  | inr project =>
      inr {| n_projectID := project; n_name := name; n_environment := environment;
             n_vmID := ProviderID kubeNode |}
  end.

(** Errors other than InstanceNotFound are wrapped. *)
Definition unless_not_found (f : error → error) (e : error) : error :=
  match e with InstanceNotFound => InstanceNotFound | _ => f e end.

(** The states in which a machine counts as shut down; [None] is an error. *)
Definition shutdown_state (s : string) : option bool :=
  if decide (s ∈ ["Stopping"; "Stopped"; "Destroyed"; "Expunging"; "Shutdowned"; "Error"])
  then Some true
  else if decide (s = "Unknown") then None else Some false.

Section instances.
Context {W} `{!Cloud W}.
Context (cs : CSCloud).

Definition getNodeByName (name : string) : M (env W) node :=
  kubeNode ← call_err (GetNode name); of_sum (newNode cs kubeNode).

Definition getInstanceForNode (n : node) : M (env W) VirtualMachine :=
  c ← of_sum (clientForEnvironment cs (n_environment n));
  r ← call (GetVirtualMachineByName c (n_name n) (n_projectID n));
  match g_err r with
  | Some err =>
      if decide (g_count r = 0%Z) then throw InstanceNotFound
      else throw (Errorf "error instance for node %v: %v" [n_name n; Error err])
  | None => deref (g_obj r)
  end.

(** The pointer may be nil without an error; the callers that use the machine
    dereference it. *)
Definition instanceByProviderID (providerID : string) : M (env W) (option VirtualMachine) :=
  n ← of_sum (parseProviderID providerID);
  c ← of_sum (clientForEnvironment cs (n_environment n));
  r ← call (GetVirtualMachineByID c (n_vmID n) (n_projectID n));
  if decide (g_count r = 0%Z) then throw InstanceNotFound
  else
    match g_err r with
    | Some err => throw (Errorf "error retrieving instance: %v" [Error err])
    | None => mret (g_obj r)
    end.

(** The names whose address records lead back to [addr]. *)
Fixpoint confirmed_names (addr : string) (names : list string) : M (env W) (list string) :=
  match names with
  | [] => mret []
  | name :: names =>
      ips ← call (LookupHost name);
      rest ← confirmed_names addr names;
      mret (if decide (addr ∈ ips) then name :: rest else rest)
  end.

Definition internal_index (nics : list Nic) : Z :=
  let i := InternalIPIndex (Global (config cs)) in
  if decide (i < 0 ∨ Z.of_nat (length nics) ≤ i)%Z then 0%Z else i.

Definition nodeAddresses (instance : VirtualMachine) : M (env W) (list NodeAddress) :=
  let nics := vm_Nic instance in
  match nics with
  | [] => throw (Errorf "instance does not have an internal IP" [])
  | _ =>
      let internalIndex := internal_index nics in
      nic ← index nics (Z.to_nat internalIndex);
      let internalAddr := nic_Ipaddress nic in
      names ←
        (if decide (Hostname instance ≠ "") then mret [Hostname instance]
         else
           names ← call (LookupAddr internalAddr); confirmed_names internalAddr names);
      let externalIndex := ExternalIPIndex (Global (config cs)) in
      external ←
        (if decide (externalIndex ≠ internalIndex ∧ (0 ≤ externalIndex < Z.of_nat (length nics)))%Z
         then nic ← index nics (Z.to_nat externalIndex); mret [nic_Ipaddress nic]
         else mret []);
      let public := if decide (vm_Publicip instance ≠ "") then [vm_Publicip instance] else [] in
      mret ({| addr_Type := NodeInternalIP; Address := internalAddr |} ::
            ((λ a, {| addr_Type := NodeHostName; Address := a |}) <$> names) ++
            ((λ a, {| addr_Type := NodeExternalIP; Address := a |}) <$> (external ++ public)))
  end.

(** The node of a name and its machine, with the error texts of the callers. *)
Definition node_and_instance (name what : string) : M (env W) (node * VirtualMachine) :=
  n ← wrap (λ e, Errorf "error retrieving node by name %q: %v" [name; Error e]) (getNodeByName name);
  instance ← wrap (unless_not_found (λ e, Errorf what [Error e])) (getInstanceForNode n);
  mret (n, instance).

Definition NodeAddresses (name : string) : M (env W) (list NodeAddress) :=
  ni ← node_and_instance name "error retrieving node addresses: %v";
  nodeAddresses ni.2.

Definition NodeAddressesByProviderID (providerID : string) : M (env W) (list NodeAddress) :=
  if decide (providerID = "") then throw (Errorf "empty providerID" [])
  else
    instance ← instanceByProviderID providerID;
    instance ← deref instance;
    nodeAddresses instance.

Definition InstanceID (name : string) : M (env W) string :=
  ni ← node_and_instance name "error retrieving instance ID: %v";
  let '(n, instance) := (ni : node * VirtualMachine) in
  mret (toProviderID {| n_projectID := n_projectID n; n_name := n_name n;
                        n_environment := n_environment n; n_vmID := vm_Id instance |}).

Definition InstanceType (name : string) : M (env W) string :=
  ni ← node_and_instance name "error retrieving instance type: %v";
  mret (Serviceofferingid ni.2).

Definition InstanceTypeByProviderID (providerID : string) : M (env W) string :=
  if decide (providerID = "") then throw (Errorf "empty providerID" [])
  else
    instance ← instanceByProviderID providerID;
    instance ← deref instance;
    mret (Serviceofferingname instance).

Definition AddSSHKeyToAllInstances : M (env W) unit :=
  throw (Errorf "AddSSHKeyToAllInstances not implemented" []).

Definition CurrentNodeName (hostname : string) : string := hostname.

Definition InstanceExistsByProviderID (providerID : string) : M (env W) bool :=
  if decide (providerID = "") then throw (Errorf "empty providerID" [])
  else
    r ← try (instanceByProviderID providerID);
    match r with
    | inl InstanceNotFound => mret false
    | inl err => throw err
    | inr _ => mret true
    end.

Definition InstanceShutdownByProviderID (providerID : string) : M (env W) bool :=
  if decide (providerID = "") then throw (Errorf "empty providerID" [])
  else
    instance ← instanceByProviderID providerID;
    instance ← deref instance;
    match shutdown_state (vm_State instance) with
    | Some b => mret b
    | None => throw (Errorf "unknown vm state in cloudstack" [])
    end.

(** ** Zones *)

Definition GetZone : Zone := {| FailureDomain := ""; Region := "" |}.

Definition zone_of (instance : VirtualMachine) : Zone :=
  {| FailureDomain := Zonename instance; Region := Zonename instance |}.

Definition GetZoneByProviderID (providerID : string) : M (env W) Zone :=
  if decide (providerID = "") then throw (Errorf "empty providerID" [])
  else
    instance ← instanceByProviderID providerID;
    instance ← deref instance;
    mret (zone_of instance).

Definition GetZoneByNodeName (name : string) : M (env W) Zone :=
  if decide (name = "") then throw (Errorf "empty providerID" [])
  else
    ni ← node_and_instance name "error retrieving zone: %v";
    mret (zone_of ni.2).
End instances.

(** ** Provider IDs *)

Lemma Split_Join_three c a b d :
  has_byte c a = false → has_byte c b = false → has_byte c d = false →
  Split (Join [a; b; d] (String c "")) c = [a; b; d].
Proof. intros. apply Split_Join; [done|]. by repeat constructor. Qed.

Lemma Join_Split c s : Join (Split s c) (String c "") = s.
Proof.
  induction s as [|a s IH]; [done|]. simpl. destruct (Split s c) as [|w ws] eqn:Hs.
  { by apply Split_not_nil in Hs. }
  case_decide as Ha.
  - subst a. change (Join ("" :: w :: ws) (String c "")) with ("" +:+ (String c "" +:+ Join (w :: ws) (String c ""))).
    rewrite IH. done.
  - destruct ws as [|w' ws].
    + simpl in *. by rewrite IH.
    + change (Join (String a w :: w' :: ws) (String c "")) with
        (String a w +:+ (String c "" +:+ Join (w' :: ws) (String c ""))).
      rewrite app_cons_str. f_equal. exact IH.
Qed.

Definition no_slash (n : node) : Prop :=
  has_byte "/" (n_environment n) = false ∧ has_byte "/" (n_projectID n) = false ∧
  has_byte "/" (n_vmID n) = false.

(** What is read back: the name is not part of a provider ID. *)
Definition anonymous (n : node) : node :=
  {| n_projectID := n_projectID n; n_name := ""; n_environment := n_environment n;
     n_vmID := n_vmID n |}.

Lemma parse_join n : no_slash n → ∀ id, TrimPrefix id providerPrefix = toProviderID n →
  parseProviderID id = inr (anonymous n).
Proof.
  intros (He & Hp & Hv) id Hid. unfold parseProviderID. rewrite Hid. unfold toProviderID.
  by rewrite Split_Join_three.
Qed.

(** The only IDs that have the prefix by accident. *)
Lemma accidental_prefix n :
  no_slash n →
  is_Some (drop_prefix providerPrefix (toProviderID n)) ↔
  n_environment n = "custom-cloudstack:" ∧ n_projectID n = "".
Proof.
  intros (He & Hp & Hv). unfold toProviderID.
  change (Join [n_environment n; n_projectID n; n_vmID n] "/") with
    (n_environment n +:+ String "/" (n_projectID n +:+ String "/" (n_vmID n))).
  split.
  - intros [rest Hrest]. apply drop_prefix_Some in Hrest.
    change (providerPrefix +:+ rest) with ("custom-cloudstack:" +:+ String "/" ("" +:+ String "/" rest)) in Hrest.
    apply sep_inj in Hrest as [-> Hrest]; [|done|done].
    apply sep_inj in Hrest as [-> _]; done.
  - intros [-> ->]. eexists. apply (drop_prefix_app providerPrefix (n_vmID n)).
Qed.

(** (C39) Provider IDs without slashes in their parts are read back as they were
    written, with the prefix "custom-cloudstack://" that Kubernetes puts in front
    or without it; the one exception is an ID without the prefix whose environment
    is named "custom-cloudstack:" and whose project is empty, which is refused.
    And whatever is read is what was written: the ID is the text of its parts,
    after the prefix if there is one. *)
Theorem providerID_roundtrip (n : node) (Hslash : no_slash n) :
  parseProviderID (providerPrefix +:+ toProviderID n) = inr (anonymous n) ∧
  (parseProviderID (toProviderID n) = inr (anonymous n) ↔
     ¬ (n_environment n = "custom-cloudstack:" ∧ n_projectID n = "")) ∧
  ∀ id m, parseProviderID id = inr m →
    id = toProviderID m ∨ id = providerPrefix +:+ toProviderID m.
Proof.
  split_and!.
  - apply parse_join; [done|]. apply TrimPrefix_app.
  - rewrite <- (accidental_prefix n) by done. unfold TrimPrefix. split.
    + intros Hparse [rest Hrest]. unfold parseProviderID, TrimPrefix in Hparse.
      rewrite Hrest in Hparse. simpl in Hparse.
      destruct (proj1 (accidental_prefix n Hslash)) as [He Hp]; [eauto|].
      apply drop_prefix_Some in Hrest. unfold toProviderID in Hrest. rewrite He, Hp in Hrest.
      change (Join ["custom-cloudstack:"; ""; n_vmID n] "/") with (providerPrefix +:+ n_vmID n) in Hrest.
      apply append_inj_l in Hrest as <-. destruct Hslash as (_ & _ & Hv).
      by rewrite Split_no_sep in Hparse.
    + intros Hno. apply parse_join; [done|]. unfold TrimPrefix.
      destruct (drop_prefix providerPrefix (toProviderID n)) eqn:Hd; [|done]. destruct Hno. eauto.
  - intros id m Hparse. unfold parseProviderID in Hparse.
    pose proof (Join_Split "/" (TrimPrefix id providerPrefix)) as Hj.
    destruct (Split (TrimPrefix id providerPrefix) "/") as [|e [|p [|v [|]]]]; simplify_eq.
    unfold TrimPrefix in Hj. destruct (drop_prefix providerPrefix id) as [rest|] eqn:Hd.
    + right. apply drop_prefix_Some in Hd as ->. f_equal. simpl in Hj. by rewrite <- Hj.
    + left. simpl in Hj. by rewrite <- Hj.
Qed.

(** ** Looking machines up *)

Section instance_facts.
Context {W} `{!Cloud W}.
Implicit Types (cs : CSCloud) (s : env W) (vm : VirtualMachine).

(** The machine was CloudStack's answer to a lookup by name. *)
Definition found_by_name cs (n : node) vm : Prop :=
  ∃ c w, clientForEnvironment cs (n_environment n) = inr c ∧
    g_err (exec (GetVirtualMachineByName c (n_name n) (n_projectID n)) w).2 = None ∧
    g_obj (exec (GetVirtualMachineByName c (n_name n) (n_projectID n)) w).2 = Some vm.

Lemma node_and_instance_wp cs name what s :
  wp (node_and_instance cs name what) (λ r _, ∀ n vm, r = Ok (n, vm) →
    (∃ w kn, (exec (GetNode name) w).2 = inr kn ∧ newNode cs kn = inr n) ∧ found_by_name cs n vm) s.
Proof.
  unfold node_and_instance, getNodeByName. apply wp_bind, wp_wrap, wp_bind, wp_call_err;
    intros w kn Hkn; simpl; [done|].
  unfold wp at 1. destruct (newNode cs kn) as [e|n] eqn:Hn; simpl; [done|].
  apply wp_bind, wp_wrap. unfold getInstanceForNode. apply wp_bind.
  destruct (clientForEnvironment cs (n_environment n)) as [e|c] eqn:Hc; simpl; [done|].
  apply wp_ret. simpl. apply wp_bind, wp_call. intros w' a Ha. simpl.
  destruct (g_err a) as [err|] eqn:Herr; [by case_decide|].
  destruct (g_obj a) as [vm|] eqn:Hvm; [|done]. apply wp_ret. simpl. apply wp_ret.
  intros n' vm' [= <- <-]. split.
  - eexists _, kn. by rewrite Hkn.
  - eexists c, _. by rewrite Ha.
Qed.

(** The provider ID of a node names the machine that CloudStack found
    under the node's name, in the node's environment and project: read back, it
    has these three parts (unless one of them has a slash). *)
Lemma InstanceID_names_machine cs name s :
  wp (InstanceID cs name) (λ r _, ∀ id, r = Ok id →
    ∃ n vm, (∃ w kn, (exec (GetNode name) w).2 = inr kn ∧ newNode cs kn = inr n) ∧
      found_by_name cs n vm ∧
      let m := {| n_projectID := n_projectID n; n_name := ""; n_environment := n_environment n;
                  n_vmID := vm_Id vm |} in
      id = toProviderID m ∧ (no_slash m → parseProviderID (providerPrefix +:+ id) = inr m)) s.
Proof.
  unfold InstanceID. apply wp_bind. eapply wp_mono; [apply node_and_instance_wp|].
  intros [[n vm]|e|p|] s1 H; cbn [on_ok]; try done.
  destruct (H n vm eq_refl) as [Hn Hvm]. apply wp_ret. intros id [= <-].
  exists n, vm. split_and!; [done..|]. intros Hslash.
  set (m := {| n_projectID := n_projectID n; n_name := ""; n_environment := n_environment n;
               n_vmID := vm_Id vm |}) in *.
  change (parseProviderID (providerPrefix +:+ toProviderID m) = inr (anonymous m)).
  apply parse_join; [done|]. apply TrimPrefix_app.
Qed.

(** The two ways to ask for the type of an instance disagree: by node name
    the answer is the identifier of the machine's service offering, by provider
    ID it is the name of the service offering. *)
Theorem InstanceType_answers cs name id s :
  wp (InstanceType cs name) (λ r _, ∀ t, r = Ok t →
    ∃ n vm, found_by_name cs n vm ∧ t = Serviceofferingid vm) s ∧
  wp (InstanceTypeByProviderID cs id) (λ r _, ∀ t, r = Ok t →
    ∃ n c w vm, parseProviderID id = inr n ∧ clientForEnvironment cs (n_environment n) = inr c ∧
      g_obj (exec (GetVirtualMachineByID c (n_vmID n) (n_projectID n)) w).2 = Some vm ∧
      t = Serviceofferingname vm) s.
Proof.
  split.
  - unfold InstanceType. apply wp_bind. eapply wp_mono; [apply node_and_instance_wp|].
    intros [[n vm]|e|p|] s1 H; cbn [on_ok]; try done.
    destruct (H n vm eq_refl) as [_ Hvm]. apply wp_ret. intros t [= <-]. eauto.
  - unfold InstanceTypeByProviderID, instanceByProviderID. case_decide; [done|].
    apply wp_bind, wp_bind. destruct (parseProviderID id) as [e|n] eqn:Hn; simpl; [done|].
    apply wp_ret. simpl. apply wp_bind.
    destruct (clientForEnvironment cs (n_environment n)) as [e|c] eqn:Hc; simpl; [done|].
    apply wp_ret. simpl. apply wp_bind, wp_call. intros w a Ha. simpl.
    case_decide; [done|]. destruct (g_err a) eqn:Herr; [done|]. apply wp_ret. simpl.
    destruct (g_obj a) as [vm|] eqn:Hvm; [|done]. apply wp_bind, wp_ret. simpl. apply wp_ret.
    intros t [= <-]. eexists n, c, _, vm. by rewrite Ha.
Qed.

(** Existence and shutdown of an instance come from one lookup of its
    identifier in its project: it does not exist exactly when CloudStack counts
    no machine, and then asking for its shutdown is "instance not found"; it is
    shut down exactly when the machine is in one of the six final or stopping
    states; an unknown state and a failed lookup are errors of both kinds. *)
Theorem instance_exists_shutdown cs id n c s
    (Hid : id ≠ "") (Hn : parseProviderID id = inr n)
    (Hc : clientForEnvironment cs (n_environment n) = inr c) :
  let lookup := GetVirtualMachineByID c (n_vmID n) (n_projectID n) in
  let answer := (exec lookup (ew s)).2 in
  wp (InstanceExistsByProviderID cs id) (λ r s', elog s' = elog s ++ [Ev lookup] ∧
    (r = Ok false ↔ g_count answer = 0%Z) ∧
    (r = Ok true ↔ g_count answer ≠ 0%Z ∧ g_err answer = None)) s ∧
  wp (InstanceShutdownByProviderID cs id) (λ r s', elog s' = elog s ++ [Ev lookup] ∧
    (r = Err InstanceNotFound ↔ g_count answer = 0%Z) ∧
    (∀ b, r = Ok b ↔ g_count answer ≠ 0%Z ∧ g_err answer = None ∧
       ∃ vm, g_obj answer = Some vm ∧ vm_State vm ≠ "Unknown" ∧
         (b = true ↔ vm_State vm ∈
            ["Stopping"; "Stopped"; "Destroyed"; "Expunging"; "Shutdowned"; "Error"]))) s.
Proof.
  intros lookup answer.
  assert (∀ (Q : res (option VirtualMachine) → env W → Prop),
    (∀ w, Q (if decide (g_count answer = 0%Z) then Err InstanceNotFound
             else match g_err answer with
                  | Some err => Err (Errorf "error retrieving instance: %v" [Error err])
                  | None => Ok (g_obj answer)
                  end) (Env w (elog s ++ [Ev lookup]))) →
    wp (instanceByProviderID cs id) Q s) as Hinst.
  { intros Q HQ. unfold instanceByProviderID. rewrite Hn. apply wp_bind, wp_ret. simpl.
    rewrite Hc. apply wp_bind, wp_ret. simpl. apply wp_bind, wp_call. intros w a Ha. simpl.
    specialize (HQ w). unfold answer, lookup in HQ. rewrite Ha in HQ. simpl in HQ.
    case_decide; [done|]. by destruct (g_err a). }
  split.
  - unfold InstanceExistsByProviderID. rewrite decide_False by done.
    apply wp_bind, wp_try, Hinst. intros w. case_decide; simpl; [apply wp_ret; split_and!; naive_solver|].
    destruct (g_err answer) as [err|]; simpl; [apply wp_throw|apply wp_ret]; split_and!; naive_solver.
  - unfold InstanceShutdownByProviderID. rewrite decide_False by done.
    apply wp_bind, Hinst. intros w. case_decide; simpl; [split_and!; naive_solver|].
    destruct (g_err answer) as [err|]; simpl; [split_and!; naive_solver|].
    destruct (g_obj answer) as [vm|]; [|unfold wp; simpl; split_and!; naive_solver].
    apply wp_bind, wp_ret. simpl. unfold shutdown_state.
    case_decide as Hs; [apply wp_ret|case_decide as Hu; [apply wp_throw|apply wp_ret]]; simpl.
    + split_and!; [done|naive_solver|]. intros b. split; [|naive_solver].
      intros [= <-]. split_and!; [done..|]. exists vm. split_and!; [done| |done].
      intros Hu. rewrite Hu in Hs. set_solver.
    + split_and!; [done|naive_solver|naive_solver].
    + split_and!; [done|naive_solver|]. intros b. split; [|].
      * intros [= <-]. naive_solver.
      * intros (_ & _ & vm' & [= <-] & _ & Hb). f_equal. destruct b; [|done]. naive_solver.
Qed.

(** *** Addresses *)

Lemma confirmed_names_wp addr names s :
  wp (confirmed_names addr names) (λ r _, ∃ l, r = Ok l ∧
    ∀ n, n ∈ l → ∃ w, addr ∈ (exec (LookupHost n) w).2) s.
Proof.
  revert s. induction names as [|name names IH]; intros s; cbn [confirmed_names].
  { apply wp_ret. exists []. split; [done|]. set_solver. }
  apply wp_bind, wp_call. intros w ips Hips. cbn [on_ok]. apply wp_bind.
  eapply wp_mono; [apply IH|]. intros r s1 (l & -> & Hl). cbn [on_ok]. apply wp_ret.
  eexists. split; [done|]. intros n Hn. case_decide as Haddr; [|by apply Hl].
  apply elem_of_cons in Hn as [->|Hn]; [|by apply Hl]. exists (ew s). by rewrite Hips.
Qed.

(** Where an address that is reported may come from. *)
Definition justified cs vm (nic : Nic) (a : NodeAddress) : Prop :=
  match addr_Type a with
  | NodeInternalIP => Address a = nic_Ipaddress nic
  | NodeHostName =>
      (Hostname vm ≠ "" ∧ Address a = Hostname vm) ∨
      (Hostname vm = "" ∧ ∃ w, nic_Ipaddress nic ∈ (exec (LookupHost (Address a)) w).2)
  | NodeExternalIP =>
      (vm_Publicip vm ≠ "" ∧ Address a = vm_Publicip vm) ∨
      (∃ nic', ExternalIPIndex (Global (config cs)) ≠ internal_index cs (vm_Nic vm) ∧
         vm_Nic vm !! Z.to_nat (ExternalIPIndex (Global (config cs))) = Some nic' ∧
         Address a = nic_Ipaddress nic')
  end.

Lemma internal_index_bound cs nics : nics ≠ [] → Z.to_nat (internal_index cs nics) < length nics.
Proof.
  intros Hne. unfold internal_index. destruct nics as [|n l]; [done|]. simpl. case_decide; lia.
Qed.

Definition is_internal (a : NodeAddress) : bool := bool_decide (addr_Type a = NodeInternalIP).

(** (C40) The addresses of a machine with a network interface are never empty
    and never a panic, whatever the configured indexes: the first one is the
    internal address, of the configured interface or of the first when there is
    no such interface; it is the only internal one.  A host name is the
    machine's own, or, when it has none, one whose address records lead back to
    the internal address; an external address is the machine's public IP or that
    of the configured external interface, never the internal one's.  Without
    interfaces the answer is an error. *)
Theorem nodeAddresses_spec cs vm s :
  wp (nodeAddresses cs vm) (λ r _,
    match r with
    | Ok l => ∃ nic rest,
        vm_Nic vm !! Z.to_nat (internal_index cs (vm_Nic vm)) = Some nic ∧
        l = {| addr_Type := NodeInternalIP; Address := nic_Ipaddress nic |} :: rest ∧
        Forall (λ a, is_internal a = false) rest ∧ Forall (justified cs vm nic) l
    | Err _ => vm_Nic vm = []
    | _ => False
    end) s.
Proof.
  unfold nodeAddresses. destruct (vm_Nic vm) as [|nic0 nics0] eqn:Hnics; [done|].
  rewrite <- Hnics. assert (vm_Nic vm ≠ []) as Hne by (by rewrite Hnics).
  pose proof (internal_index_bound cs _ Hne) as Hi.
  apply wp_bind. unfold index at 1.
  destruct (vm_Nic vm !! Z.to_nat (internal_index cs (vm_Nic vm))) as [nic|] eqn:Hnic;
    [|apply lookup_ge_None in Hnic; lia].
  apply wp_ret. cbn [on_ok]. apply wp_bind.
  match goal with |- wp ?m _ _ => apply (wp_mono m (λ r _, ∃ l, r = Ok l ∧
    ∀ n, n ∈ l → justified cs vm nic {| addr_Type := NodeHostName; Address := n |})) end.
  { case_decide as Hhost.
    - apply wp_ret. eexists. split; [done|]. intros n ->%list_elem_of_singleton. by left.
    - apply wp_bind, wp_call. intros w names _. cbn [on_ok].
      eapply wp_mono; [apply confirmed_names_wp|]. intros r s1 (l & -> & Hl). exists l.
      split; [done|]. intros n Hn. right. split; [done|]. by apply Hl. }
  intros r s1 (names & -> & Hnames). cbn [on_ok]. apply wp_bind.
  match goal with |- wp ?m _ _ => apply (wp_mono m (λ r _, ∃ l, r = Ok l ∧
    ∀ n, n ∈ l → justified cs vm nic {| addr_Type := NodeExternalIP; Address := n |})) end.
  { case_decide as Hext.
    - apply wp_bind. unfold index. destruct Hext as [Hneq Hrange].
      destruct (vm_Nic vm !! Z.to_nat (ExternalIPIndex (Global (config cs)))) as [nic'|] eqn:Hnic';
        [|apply lookup_ge_None in Hnic'; lia].
      apply wp_ret. cbn [on_ok]. apply wp_ret. eexists. split; [done|].
      intros n ->%list_elem_of_singleton. right. exists nic'. by rewrite Hnic'.
    - apply wp_ret. exists []. split; [done|]. set_solver. }
  intros r s2 (external & -> & Hexternal). cbn [on_ok]. apply wp_ret.
  eexists nic, _. split_and!; [done|done| |].
  - apply Forall_app. split; apply Forall_fmap, Forall_true; done.
  - constructor; [done|]. apply Forall_app. split; apply Forall_fmap, Forall_forall; [done|].
    intros n [Hn|Hn]%elem_of_app; [by apply Hexternal|].
    case_decide; [|set_solver]. apply list_elem_of_singleton in Hn as ->. by left.
Qed.
End instance_facts.
