(* ===== verification/Fake.v ===== *)
(** * The test server (fake/cloudstack.go)

    An HTTP server that stands for CloudStack in the tests: it keeps rules, IPs,
    tags and the machines of rules, answers one request at a time, and defers
    most changes to jobs that run when their result is queried.  A reply is the
    Go value that the code marshals; the encoding as JSON is not modelled. *)
From Stdlib Require Import Ascii.
From stdpp Require Import base list strings gmap sets.
From S2P Require Import Prelude GoStd Kube Cloud.

(** ** Requests *)

(** url.Values, and FormValue: the first value, or "". *)
Abbreviation values := (gmap string (list string)).
Definition FormValue (form : values) (k : string) : string := default "" (head (default [] (form !! k))).

Record MockAPICall := { call_Command : string; call_Params : values }.

(** strconv.ParseUint on decimal digits: it stops at the first prefix that is
    too large for 64 bits, with the largest value; [None] is a syntax error. *)
Fixpoint ParseUint (s : string) (n : Z) : option Z :=
  match s with
  | "" => Some n
  | String a s =>
      match digit a with
      | None => None
      | Some d => if decide (n * 10 + d < 2 ^ 64)%Z then ParseUint s (n * 10 + d)%Z
                  else Some (2 ^ 64 - 1)%Z
      end
  end.

(** strconv.Atoi with its error ignored: a number out of range is cut to the
    nearest int, anything else that is not a number is 0. *)
Definition AtoiValue (s : string) : Z :=
  let '(neg, body) := match s with
                      | String "-" body => (true, body)
                      | String "+" body => (false, body)
                      | _ => (false, s)
                      end in
  match body, ParseUint body 0 with
  | "", _ | _, None => 0
  | _, Some n => if (neg : bool) then Z.max (- 2 ^ 63) (- n) else Z.min (2 ^ 63 - 1) n
  end%Z.

(** The longest run of digits at the start of a string, and what follows. *)
Fixpoint span_digits (s : string) : string * string :=
  match s with
  | String a rest =>
      match digit a with
      | Some _ => let '(ds, rest') := span_digits rest in (String a ds, rest')
      | None => ("", s)
      end
  | "" => ("", "")
  end.

(** A match of the expression tags, number in brackets, dot, key or value, at
    the start of a string: the number, and whether it is a key. *)
Definition tag_at (s : string) : option (string * bool) :=
  match drop_prefix "tags[" s with
  | None => None
  | Some s =>
      match span_digits s with
      | ("", _) => None
      | (ds, rest) =>
          match drop_prefix "]." rest with
          | None => None
          | Some rest =>
              if HasPrefix rest "key" then Some (ds, true)
              else if HasPrefix rest "value" then Some (ds, false) else None
          end
      end
  end.

(** The first match in a string. *)
Fixpoint find_tag (s : string) : option (string * bool) :=
  match tag_at s with
  | Some m => Some m
  | None => match s with "" => None | String _ s => find_tag s end
  end.

(** The expression (.* )(\d+): the last digit of the first line that has one. *)
Fixpoint last_digit (s : string) : option Z :=
  match s with
  | "" => None
  | String a s => match last_digit s with Some d => Some d | None => digit a end
  end.

Definition vm_number (name : string) : Z :=
  match omap last_digit (Split name "010") with d :: _ => d | [] => 1%Z end.

(** ** State *)

(** The values of the map of a rule: those that the server stores, and the map
    of strings that tests store. *)
Inductive rval :=
  | RStr (s : string) | RBool (b : bool) | RList (l : list string) | RTags (l : list Tags)
  | RMap (m : gmap string string).

Record LoadBalancerRule := {
  Rule : gmap string rval;
  Pools : list globoNetworkPool;
  fake_createLBPool : bool;
}.

(** The value that a reply marshals. *)
Inductive reply :=
  | ErrorReply (status : Z) (cmd msg : string)
  | VMsReply (vms : list (string * string * string))      (* name, id, network *)
  | RulesReply (count : nat) (l : list (gmap string rval))
  | PoolsReply (count : nat) (l : list globoNetworkPool)
  | NetworksReply (ids : list string)
  | IPsReply (count : nat) (l : list PublicIpAddress)
  | IPReply (jobid : string) (i : PublicIpAddress)        (* AssociateIpAddressResponse *)
  | RuleReply (r : gmap string rval)                      (* the map of a rule *)
  | LBReply (r : LoadBalancerRule)                        (* a *LoadBalancerRule *)
  | JobReply (jobid : string) (success : bool)            (* a response with its job *)
  | TagsReply (count : nat) (l : list Tags)
  | InstancesReply (count : nat) (ids : list string)
  | ResultReply (jobstatus : Z) (result : reply).

(** What a job does when its result is queried: the closures of ServeHTTP with
    the variables they capture. *)
Inductive job :=
  | JobAssociate (id jobid networkid : string) (ipIdx : Z)
  | JobDisassociate (jobid ipID : string)
  | JobUpdateRule (lbName algorithm : string)
  | JobUpdatePool (lbName : string) (idx : nat) (protocol type expected : string)
  | JobCreateRule (lbname : string) (obj : nat)
  | JobAssignNetwork (jobid : string)
  | JobCreateTags (jobid resource key value : string)
  | JobDeleteTags (jobid : string) (ids : list string)
  | JobAssign (jobid ruleId : string) (vmIDs : list string)
  | JobRemove (jobid ruleId : string) (vmIDSet : gset string)
  | JobDeleteRule (jobid lbID : string)
  | JobReturns (answer : reply).        (* registered by a test *)

(** Rules are shared by pointer: [lbRules] holds addresses of [rules]. *)
Record CloudstackServer := {
  Calls : list MockAPICall;
  idx : gmap string Z;
  Jobs : gmap string job;
  srv_tags : gmap string (list Tags);
  lbRules : gmap string nat;
  rules : gmap nat LoadBalancerRule;
  ips : gmap string PublicIpAddress;
  vms : gmap string (list string);
}.

Definition NewCloudstackServer : CloudstackServer :=
  {| Calls := []; idx := ∅; Jobs := ∅; srv_tags := ∅; lbRules := ∅; rules := ∅; ips := ∅; vms := ∅ |}.

Definition set_Calls x s := {| Calls := x; idx := idx s; Jobs := Jobs s; srv_tags := srv_tags s;
  lbRules := lbRules s; rules := rules s; ips := ips s; vms := vms s |}.
Definition set_idx x s := {| Calls := Calls s; idx := x; Jobs := Jobs s; srv_tags := srv_tags s;
  lbRules := lbRules s; rules := rules s; ips := ips s; vms := vms s |}.
Definition set_Jobs x s := {| Calls := Calls s; idx := idx s; Jobs := x; srv_tags := srv_tags s;
  lbRules := lbRules s; rules := rules s; ips := ips s; vms := vms s |}.
Definition set_tags x s := {| Calls := Calls s; idx := idx s; Jobs := Jobs s; srv_tags := x;
  lbRules := lbRules s; rules := rules s; ips := ips s; vms := vms s |}.
Definition set_lbRules x s := {| Calls := Calls s; idx := idx s; Jobs := Jobs s; srv_tags := srv_tags s;
  lbRules := x; rules := rules s; ips := ips s; vms := vms s |}.
Definition set_rules x s := {| Calls := Calls s; idx := idx s; Jobs := Jobs s; srv_tags := srv_tags s;
  lbRules := lbRules s; rules := x; ips := ips s; vms := vms s |}.
Definition set_ips x s := {| Calls := Calls s; idx := idx s; Jobs := Jobs s; srv_tags := srv_tags s;
  lbRules := lbRules s; rules := rules s; ips := x; vms := vms s |}.
Definition set_vms x s := {| Calls := Calls s; idx := idx s; Jobs := Jobs s; srv_tags := srv_tags s;
  lbRules := lbRules s; rules := rules s; ips := ips s; vms := x |}.

(** ** Methods *)

Section server.
(** The order in which Go iterates over a map. *)
Context (order : ∀ A, list A → list A).

(** [x.(string)]: a type assertion. *)
Definition as_string {S} (x : option rval) : M S string :=
  match x with Some (RStr s) => mret s | _ => panic "interface conversion" end.

Definition newID (cmd : string) : M CloudstackServer Z :=
  s ← get;
  let n := (default 0 (idx s !! cmd) + 1)%Z in
  modify (set_idx (<[cmd := n]> (idx s))) ;; mret n.

(** The rules in the order of the iteration, with their names. *)
Definition range_rules (s : CloudstackServer) : list (string * nat * LoadBalancerRule) :=
  omap (λ kp, (λ r, (kp.1, kp.2, r)) <$> rules s !! kp.2) (order _ (map_to_list (lbRules s))).

Definition has_id (lbID : string) (x : string * nat * LoadBalancerRule) : Prop :=
  Rule x.2 !! "id" = Some (RStr lbID).
#[export] Instance rval_eq_dec : EqDecision rval. Proof using Type. solve_decision. Defined.
#[export] Instance has_id_dec lbID x : Decision (has_id lbID x).
Proof using Type. unfold has_id. apply _. Defined.

Definition lbNameByID (lbID : string) : M CloudstackServer string :=
  s ← get;
  mret match filter (has_id lbID) (range_rules s) with (k, _, _) :: _ => k | [] => "" end.

(** [s.lbRules[lbName]], a pointer that may be nil, dereferenced. *)
Definition rule_of (lbName : string) : M CloudstackServer (nat * LoadBalancerRule) :=
  s ← get;
  p ← deref (lbRules s !! lbName);
  r ← deref (rules s !! p);
  mret (p, r).

Definition put_rule (p : nat) (r : LoadBalancerRule) : M CloudstackServer unit :=
  modify (λ s, set_rules (<[p := r]> (rules s)) s).

Definition new_rule (r : LoadBalancerRule) : M CloudstackServer nat :=
  s ← get;
  let p := fresh (dom (rules s)) in
  modify (set_rules (<[p := r]> (rules s))) ;; mret p.

Definition AddIP (ip : PublicIpAddress) : M CloudstackServer unit :=
  modify (λ s, set_ips (<[ip_Id ip := ip]> (ips s)) s).

Definition AddLBRule (lbName : string) (lbRule : LoadBalancerRule) : M CloudstackServer unit :=
  p ← new_rule lbRule; modify (λ s, set_lbRules (<[lbName := p]> (lbRules s)) s).

Definition AddTags (resourceid : string) (tags : list Tags) : M CloudstackServer unit :=
  modify (λ s, set_tags (<[resourceid := tags]> (srv_tags s)) s).

Definition DeleteTags (resourceid : string) (tagKeys : list string) : M CloudstackServer unit :=
  modify (λ s, set_tags (<[resourceid :=
    filter (λ tag, Key tag ∉ tagKeys) (default [] (srv_tags s !! resourceid))]> (srv_tags s)) s).

Definition set_pools (l : list globoNetworkPool) (r : LoadBalancerRule) : LoadBalancerRule :=
  {| Rule := Rule r; Pools := l; fake_createLBPool := fake_createLBPool r |}.
Definition set_Rule_entry (k : string) (v : rval) (r : LoadBalancerRule) : LoadBalancerRule :=
  {| Rule := <[k := v]> (Rule r); Pools := Pools r; fake_createLBPool := fake_createLBPool r |}.

Definition SetDefaultLBPoolCreation (lbId : string) : M CloudstackServer unit :=
  lbName ← lbNameByID lbId;
  x ← rule_of lbName;
  let '(p, r) := (x : nat * LoadBalancerRule) in
  put_rule p {| Rule := Rule r; Pools := Pools r; fake_createLBPool := negb (fake_createLBPool r) |}.

Definition default_pool (i vip dst : Z) : globoNetworkPool :=
  {| pool_Port := dst; VipPort := vip; HealthCheckType := "TCP"; HealthCheck := "";
     HealthCheckExpected := ""; pool_Id := i |}.

(** The pools of the additional ports; pairs without a colon are skipped. *)
Definition additional_pools (portMap : list string) : list globoNetworkPool :=
  omap (λ ip, let '(i, portPair) := (ip : nat * string) in
    if Contains portPair ":" then
      match Split portPair ":" with
      | vip :: dst :: _ => Some (default_pool (Z.of_nat i + 1) (AtoiValue vip) (AtoiValue dst))
      | _ => None
      end
    else None) (imap pair portMap).

Definition createDefaultLBPools (lbId : string) : M CloudstackServer unit :=
  lbName ← lbNameByID lbId;
  x ← rule_of lbName;
  let '(p, r) := (x : nat * LoadBalancerRule) in
  publicport ← as_string (Rule r !! "publicport");
  privateport ← as_string (Rule r !! "privateport");
  let publicPort := AtoiValue publicport in
  let privatePort := AtoiValue privateport in
  if negb (fake_createLBPool r) then mret tt
  else if decide (Exists (λ pool, pool_Port pool = privatePort ∧ VipPort pool = publicPort) (Pools r))
  then mret tt
  else
    let more := match Rule r !! "additionalportmap" with
                | Some (RList l) => additional_pools l
                | _ => []
                end in
    put_rule p (set_pools (Pools r ++ [default_pool 0 publicPort privatePort] ++ more) r).

(** The tags of a form: keys and values with the same number are paired, a
    missing value is empty; of two equal keys one wins. *)
Definition parseTags (form : values) : gmap string string :=
  let entries := order _ (map_to_list form) in
  let numbered (is_key : bool) :=
    omap (λ kv : string * list string,
            match find_tag kv.1 with
            | Some (n, b) => if decide (b = is_key) then Some (n, default "" (head kv.2)) else None
            | None => None
            end) entries in
  let keys : gmap string string := list_to_map (reverse (numbered true)) in
  let vals : gmap string string := list_to_map (reverse (numbered false)) in
  list_to_map (reverse ((λ nk, (nk.2, default "" (vals !! nk.1))) <$> order _ (map_to_list keys))).

(** [for _, x := range l] with an [append] to a result. *)
Fixpoint collect {S A B} (f : A → M S (list B)) (l : list A) : M S (list B) :=
  match l with
  | [] => mret []
  | x :: l => r ← f x; rs ← collect f l; mret (r ++ rs)
  end.

(** Does a stored tag have the value that a query asks for?  A key that the
    query does not have counts as the empty value. *)
Definition asked_tag (query : gmap string string) (t : Tags) : bool :=
  bool_decide (default "" (query !! Key t) = Value t).

Definition error_reply (status : Z) (cmd msg : string) : M CloudstackServer reply :=
  mret (ErrorReply status cmd msg).

(** *** One definition per command of ServeHTTP *)

Definition serve_listVirtualMachines (form : values) : M CloudstackServer reply :=
  let name := FormValue form "name" in
  if decide (name = "notfound") then mret (VMsReply [])
  else let number := Itoa (vm_number name) in
       mret (VMsReply [(name, "vm" +:+ number, "net" +:+ number)]).

Definition list_rule (keyword : string) (queryTags : gmap string string) (np : string * nat) :
    M CloudstackServer (list (gmap string rval)) :=
  s ← get;
  lb ← deref (rules s !! np.2);
  lbID ← as_string (Rule lb !! "id");
  let lbTags := default [] (srv_tags s !! lbID) in
  matched ← (if existsb (asked_tag queryTags) lbTags then mret true
             else if decide (keyword = "") then mret false
             else name ← as_string (Rule lb !! "name");
                  mret (Contains name keyword || Contains lbID keyword));
  if (matched : bool) then
    put_rule np.2 (set_Rule_entry "tags" (RTags lbTags) lb) ;;
    mret [<["tags" := RTags lbTags]> (Rule lb)]
  else mret [].

Definition serve_listLoadBalancerRules (form : values) : M CloudstackServer reply :=
  s ← get;
  lbs ← collect (list_rule (FormValue form "keyword") (parseTags form))
          (order _ (map_to_list (lbRules s)));
  mret (RulesReply (length lbs) lbs).

Definition serve_listGloboNetworkPools (form : values) : M CloudstackServer reply :=
  let lbruleid := FormValue form "lbruleid" in
  createDefaultLBPools lbruleid ;;
  s ← get;
  mret match filter (has_id lbruleid) (range_rules s) with
       | (_, _, lb) :: _ => PoolsReply (length (Pools lb)) (Pools lb)
       | [] => PoolsReply 0 []
       end.

Definition serve_listNetworks : M CloudstackServer reply := mret (NetworksReply ["net1"]).

Definition list_ip (addr ipid : string) (tags : gmap string string) (kip : string * PublicIpAddress) :
    M CloudstackServer (list PublicIpAddress) :=
  let ip := kip.2 in
  if decide (addr ≠ "" ∧ Ipaddress ip ≠ addr) then mret []
  else if decide (ipid ≠ "" ∧ ip_Id ip ≠ ipid) then mret []
  else
    s ← get;
    let stored := default [] (srv_tags s !! ip_Id ip) in
    let ip' := {| ip_Id := ip_Id ip; Ipaddress := Ipaddress ip; ip_Networkid := ip_Networkid ip;
                  ip_Tags := ip_Tags ip ++ stored |} in
    modify (λ s, set_ips (<[kip.1 := ip']> (ips s)) s) ;;
    mret (if decide (tags = ∅) then [ip'] else if existsb (asked_tag tags) stored then [ip'] else []).

Definition serve_listPublicIpAddresses (form : values) : M CloudstackServer reply :=
  if decide (1 < AtoiValue (FormValue form "page"))%Z then mret (IPsReply 0 [])
  else
    s ← get;
    l ← collect (list_ip (FormValue form "ipaddress") (FormValue form "id") (parseTags form))
          (order _ (map_to_list (ips s)));
    mret (IPsReply (length l) l).

(** The deferred part of a command is registered under the identifier of its job. *)
Definition start_job (jobid : string) (j : job) : M CloudstackServer unit :=
  modify (λ s, set_Jobs (<[jobid := j]> (Jobs s)) s).

(** A command whose reply names a new job and does nothing else. *)
Definition deferred (cmd prefix : string) (mk : string → job) : M CloudstackServer reply :=
  n ← newID cmd;
  let jobid := prefix +:+ Itoa n in
  start_job jobid (mk jobid) ;; mret (JobReply jobid false).

Definition serve_associateIpAddress (cmd : string) (form : values) : M CloudstackServer reply :=
  ipIdx ← newID cmd;
  let ipID := "ip-" +:+ Itoa ipIdx in
  let jobid := "job-ip-" +:+ Itoa ipIdx in
  let networkid := FormValue form "networkid" in
  start_job jobid (JobAssociate ipID jobid networkid ipIdx) ;;
  mret (IPReply jobid {| ip_Id := ipID; Ipaddress := ""; ip_Networkid := networkid; ip_Tags := [] |}).

Definition serve_disassociateIpAddress (cmd : string) (form : values) : M CloudstackServer reply :=
  let ipID := FormValue form "id" in
  s ← get;
  match ips s !! ipID with
  | None => error_reply 404 "disassociateIpAddressResponse" ("ip not found: " +:+ quoted ipID)
  | Some _ => deferred cmd "job-ip-disassociate-" (λ jobid, JobDisassociate jobid ipID)
  end.

Definition serve_updateLoadBalancerRule (cmd : string) (form : values) : M CloudstackServer reply :=
  let lbID := FormValue form "id" in
  lbName ← lbNameByID lbID;
  if decide (lbName = "") then
    error_reply 404 "updateLoadBalancerRuleResponse" ("lb not found with id " +:+ lbID)
  else deferred cmd "job-lbrule-update-" (λ _, JobUpdateRule lbName (FormValue form "algorithm")).

Definition serve_updateGloboNetworkPool (cmd : string) (form : values) : M CloudstackServer reply :=
  let lbRuleID := FormValue form "lbruleid" in
  let poolID := AtoiValue (FormValue form "poolids") in
  lbName ← lbNameByID lbRuleID;
  if decide (lbName = "") then
    error_reply 404 "updateGloboNetworkPoolResponse" ("lb not found with id " +:+ lbRuleID)
  else
    x ← rule_of lbName;
    match list_find (λ pool, pool_Id pool = poolID) (Pools x.2) with
    | None => error_reply 404 "updateGloboNetworkPoolResponse"
                ("pool " +:+ lbRuleID +:+ " for lb " +:+ lbName +:+ " not found")
    | Some (i, _) =>
        deferred cmd "job-lbrule-pool-update-" (λ _, JobUpdatePool lbName i
          (FormValue form "healthcheck") (FormValue form "healthchecktype")
          (FormValue form "expectedhealthcheck"))
    end.

(** The entries of a new rule. *)
Definition new_entries (form : values) (ruleIdx : Z) (address : string) : gmap string rval :=
  let text k := RStr (FormValue form k) in
  let base : gmap string rval := list_to_map [
    ("id", RStr ("lbrule-" +:+ Itoa ruleIdx)); ("jobid", RStr ("job-lbrule-" +:+ Itoa ruleIdx));
    ("algorithm", text "algorithm"); ("name", text "name"); ("privateport", text "privateport");
    ("publicport", text "publicport"); ("networkid", text "networkid");
    ("publicipid", text "publicipid"); ("protocol", text "protocol");
    ("openfirewall", RBool (default false (ParseBool (FormValue form "openfirewall"))));
    ("publicip", RStr address)] in
  let additionalPorts := FormValue form "additionalportmap" in
  if decide (additionalPorts = "") then base
  else <["additionalportmap" := RList (Split additionalPorts ",")]> base.

Definition serve_createLoadBalancerRule (cmd : string) (form : values) : M CloudstackServer reply :=
  let lbname := FormValue form "name" in
  s ← get;
  match lbRules s !! lbname with
  | Some _ => error_reply 409 "createLoadBalancerRuleResponse" ("lb already exists with name " +:+ lbname)
  | None =>
      ruleIdx ← newID cmd;
      let jobid := "job-lbrule-" +:+ Itoa ruleIdx in
      let publicipid := FormValue form "publicipid" in
      ipObj ← deref (ips s !! publicipid);
      if decide (ip_Id ipObj = "") then
        error_reply 500 (cmd +:+ "Response") ("ip id not found: " +:+ publicipid)
      else
        obj ← new_rule {| Rule := new_entries form ruleIdx (Ipaddress ipObj); Pools := [];
                          fake_createLBPool := true |};
        start_job jobid (JobCreateRule lbname obj) ;;
        mret (RuleReply (list_to_map [("id", RStr ("lbrule-" +:+ Itoa ruleIdx)); ("jobid", RStr jobid)]))
  end.

(** The machines that a form names. *)
Definition form_vms (form : values) : list string :=
  let vms := FormValue form "virtualmachineids" in
  if decide (vms = "") then [] else Split vms ",".

Definition serve_assignToLoadBalancerRule (cmd : string) (form : values) : M CloudstackServer reply :=
  deferred cmd "job-host-assign-" (λ jobid, JobAssign jobid (FormValue form "id") (form_vms form)).

Definition serve_removeFromLoadBalancerRule (cmd : string) (form : values) : M CloudstackServer reply :=
  deferred cmd "job-host-remove-"
    (λ jobid, JobRemove jobid (FormValue form "id") (list_to_set (form_vms form))).

Definition serve_createTags (cmd : string) (form : values) : M CloudstackServer reply :=
  deferred cmd "job-tags-" (λ jobid, JobCreateTags jobid (FormValue form "resourceids")
    (FormValue form "tags[0].key") (FormValue form "tags[0].value")).

Definition serve_deleteTags (cmd : string) (form : values) : M CloudstackServer reply :=
  deferred cmd "job-delete-tags-" (λ jobid, JobDeleteTags jobid (default [] (form !! "resourceids"))).

Definition serve_listTags (form : values) : M CloudstackServer reply :=
  s ← get;
  let keyFilter := FormValue form "key" in
  let l := filter (λ tag, keyFilter = "" ∨ Key tag = keyFilter)
             (default [] (srv_tags s !! FormValue form "resourceid")) in
  mret (TagsReply (length l) l).

Definition serve_listLoadBalancerRuleInstances (form : values) : M CloudstackServer reply :=
  if decide (1 < AtoiValue (FormValue form "page"))%Z then mret (InstancesReply 0 [])
  else
    s ← get;
    let l := default [] (vms s !! FormValue form "id") in
    mret (InstancesReply (length l) l).

(** *** Jobs *)

Definition run_associate (ipID jobid networkid : string) (ipIdx : Z) : M CloudstackServer reply :=
  let ip := {| ip_Id := ipID; Ipaddress := "10.0.0." +:+ Itoa ipIdx; ip_Networkid := networkid;
               ip_Tags := [] |} in
  modify (λ s, set_ips (<[ipID := ip]> (ips s)) s) ;; mret (IPReply jobid ip).

Definition run_disassociate (jobid ipID : string) : M CloudstackServer reply :=
  modify (λ s, set_ips (delete ipID (ips s)) s) ;; mret (JobReply jobid true).

Definition run_update_rule (lbName algorithm : string) : M CloudstackServer reply :=
  x ← rule_of lbName;
  let r := set_Rule_entry "algorithm" (RStr algorithm) x.2 in
  put_rule x.1 r ;; mret (LBReply r).

Definition run_update_pool (lbName : string) (i : nat) (protocol type expected : string) :
    M CloudstackServer reply :=
  x ← rule_of lbName;
  pool ← index (Pools x.2) i;
  let pool' := {| pool_Port := pool_Port pool; VipPort := VipPort pool; HealthCheckType := type;
                  HealthCheck := protocol; HealthCheckExpected := expected;
                  pool_Id := pool_Id pool |} in
  let r := set_pools (<[i := pool']> (Pools x.2)) x.2 in
  put_rule x.1 r ;; mret (LBReply r).

Definition run_create_rule (lbname : string) (obj : nat) : M CloudstackServer reply :=
  modify (λ s, set_lbRules (<[lbname := obj]> (lbRules s)) s) ;;
  s ← get; r ← deref (rules s !! obj); mret (RuleReply (Rule r)).

Definition run_create_tags (jobid resource key value : string) : M CloudstackServer reply :=
  modify (λ s, set_tags (<[resource := default [] (srv_tags s !! resource) ++
    [{| Key := key; Value := value |}]]> (srv_tags s)) s) ;; mret (JobReply jobid false).

Definition run_delete_tags (jobid : string) (ids : list string) : M CloudstackServer reply :=
  modify (λ s, set_tags (foldl (λ m i, delete i m) (srv_tags s) ids) s) ;;
  mret (JobReply jobid true).

Definition run_assign (jobid ruleId : string) (vmIDs : list string) : M CloudstackServer reply :=
  modify (λ s, set_vms (foldl (λ m vmID, <[ruleId := default [] (m !! ruleId) ++ [vmID]]> m)
    (vms s) vmIDs) s) ;; mret (JobReply jobid false).

Definition run_remove (jobid ruleId : string) (vmIDSet : gset string) : M CloudstackServer reply :=
  modify (λ s, set_vms (<[ruleId := filter (λ vm, vm ∉ vmIDSet) (default [] (vms s !! ruleId))]>
    (vms s)) s) ;; mret (JobReply jobid false).

Definition run_delete_rule (jobid lbID : string) : M CloudstackServer reply :=
  lbName ← lbNameByID lbID;
  modify (λ s, set_tags (delete lbID (srv_tags s)) (set_lbRules (delete lbName (lbRules s)) s)) ;;
  mret (JobReply jobid false).

Definition run_job (j : job) : M CloudstackServer reply :=
  match j with
  | JobAssociate ipID jobid networkid ipIdx => run_associate ipID jobid networkid ipIdx
  | JobDisassociate jobid ipID => run_disassociate jobid ipID
  | JobUpdateRule lbName algorithm => run_update_rule lbName algorithm
  | JobUpdatePool lbName i protocol type expected => run_update_pool lbName i protocol type expected
  | JobCreateRule lbname obj => run_create_rule lbname obj
  | JobAssignNetwork jobid => mret (JobReply jobid false)
  | JobCreateTags jobid resource key value => run_create_tags jobid resource key value
  | JobDeleteTags jobid ids => run_delete_tags jobid ids
  | JobAssign jobid ruleId vmIDs => run_assign jobid ruleId vmIDs
  | JobRemove jobid ruleId vmIDSet => run_remove jobid ruleId vmIDSet
  | JobDeleteRule jobid lbID => run_delete_rule jobid lbID
  | JobReturns answer => mret answer
  end.

Definition serve_queryAsyncJobResult (form : values) : M CloudstackServer reply :=
  let jobID := FormValue form "jobid" in
  s ← get;
  match Jobs s !! jobID with
  | None => error_reply 404 "queryAsyncJobResultResponse" ("job id " +:+ quoted jobID +:+ " not found")
  | Some j => r ← run_job j; mret (ResultReply 1 r)
  end.

(** *** Requests *)

(** A request: the parameters of its URL, and those with the ones of its body. *)
Record http_request := { URL_Query : values; Form : values }.

(** The function that a test may install; it may answer the request itself. *)
Context (Hook : option (http_request → M CloudstackServer (option reply))).

Definition dispatch (cmd : string) (form : values) : M CloudstackServer reply :=
  if decide (cmd = "listVirtualMachines") then serve_listVirtualMachines form
  else if decide (cmd = "listLoadBalancerRules") then serve_listLoadBalancerRules form
  else if decide (cmd = "listGloboNetworkPools") then serve_listGloboNetworkPools form
  else if decide (cmd = "listNetworks") then serve_listNetworks
  else if decide (cmd = "listPublicIpAddresses") then serve_listPublicIpAddresses form
  else if decide (cmd = "associateIpAddress") then serve_associateIpAddress cmd form
  else if decide (cmd = "disassociateIpAddress") then serve_disassociateIpAddress cmd form
  else if decide (cmd = "updateLoadBalancerRule") then serve_updateLoadBalancerRule cmd form
  else if decide (cmd = "updateGloboNetworkPool") then serve_updateGloboNetworkPool cmd form
  else if decide (cmd = "createLoadBalancerRule") then serve_createLoadBalancerRule cmd form
  else if decide (cmd = "assignNetworkToLBRule") then deferred cmd "job-net-assign-" JobAssignNetwork
  else if decide (cmd = "createTags") then serve_createTags cmd form
  else if decide (cmd = "deleteTags") then serve_deleteTags cmd form
  else if decide (cmd = "assignToLoadBalancerRule") then serve_assignToLoadBalancerRule cmd form
  else if decide (cmd = "removeFromLoadBalancerRule") then serve_removeFromLoadBalancerRule cmd form
  else if decide (cmd = "listTags") then serve_listTags form
  else if decide (cmd = "deleteLoadBalancerRule") then
    deferred cmd "job-delete-lb-" (λ jobid, JobDeleteRule jobid (FormValue form "id"))
  else if decide (cmd = "listLoadBalancerRuleInstances") then serve_listLoadBalancerRuleInstances form
  else if decide (cmd = "queryAsyncJobResult") then serve_queryAsyncJobResult form
  else error_reply 500 (cmd +:+ "Response") ("fake call for " +:+ quoted cmd +:+ " not implemented").

Definition ServeHTTP (r : http_request) : M CloudstackServer reply :=
  let cmd := FormValue (Form r) "command" in
  modify (λ s, set_Calls (Calls s ++ [{| call_Command := cmd; call_Params := URL_Query r |}]) s) ;;
  handled ← match Hook with None => mret None | Some h => h r end;
  match handled with Some answer => mret answer | None => dispatch cmd (Form r) end.
End server.

(** ** The assertion on the calls *)

(** An expected call; [None] stands for a parameter that may have any value. *)
Record ExpectedCall := { exp_Command : string; exp_Params : gmap string (option (list string)) }.

(** Does the assertion hold? *)
Definition expected (call : MockAPICall) (e : ExpectedCall) : Prop :=
  call_Command call = exp_Command e ∧
  map_Forall (λ k v, match v with
                     | None => is_Some (call_Params call !! k)
                     | Some v => call_Params call !! k = Some v
                     end) (exp_Params e).
#[export] Instance expected_dec call e : Decision (expected call e).
Proof. unfold expected. apply and_dec; [apply _|]. apply map_Forall_dec. intros k []; apply _. Defined.

Definition HasCalls (s : CloudstackServer) (calls : list ExpectedCall) : bool :=
  bool_decide (Forall2 expected (Calls s) calls).
