(* ===== verification/FakeSafety.v ===== *)
(** * What the test server keeps

    The states that the server of fake/cloudstack.go can reach, by requests, by
    the methods that tests call and by the fields they set, between requests and
    from a Hook.  A test may add any rule, so what holds of a rule depends on who
    made it: rules made by requests have entries of the Go types that the code
    asserts, and identifiers of their own; rules that tests add keep their entries
    but for the tags and the algorithm.  A request panics only in the cases listed
    in [breaks]. *)
From stdpp Require Import base list strings gmap sets.
From S2P Require Import Prelude GoStd Kube Cloud Fake.

(** ** The invariant *)

(** The Go type of each entry of a rule, and the entries that every rule has. *)
Definition entry_type (k : string) (v : rval) : Prop :=
  match v with
  | RBool _ => k = "openfirewall"
  | RList _ => k = "additionalportmap"
  | RTags _ => k = "tags"
  | RMap _ => False
  | RStr _ => k ∉ ["openfirewall"; "additionalportmap"; "tags"]
  end.

Definition typed (m : gmap string rval) : Prop :=
  map_Forall entry_type m ∧ ∀ k, k ∈ ["id"; "name"; "publicport"; "privateport"] → is_Some (m !! k).

(** The entry is there, as a string. *)
Definition is_text (m : gmap string rval) (k : string) : Prop := ∃ v, m !! k = Some (RStr v).

(** Equal but for the entries that requests change. *)
Definition same_entries (m m' : gmap string rval) : Prop :=
  ∀ k, k ≠ "tags" → k ≠ "algorithm" → m !! k = m' !! k.

#[export] Instance same_entries_preorder : PreOrder same_entries.
Proof. split; [done|]. intros m1 m2 m3 H1 H2 k Ht Ha. by rewrite H1, H2. Qed.

Definition rule_id (n : Z) : string := "lbrule-" +:+ Itoa n.

(** The entries with which tests added rules, by the address of the rule. *)
Abbreviation added_rules := (gmap nat (gmap string rval)).

(** There is a rule at an address; a rule that a request made has this name. *)
Definition stored (added : added_rules) (s : CloudstackServer) (k : string) (p : nat) : Prop :=
  ∃ r, rules s !! p = Some r ∧ (added !! p = None → Rule r !! "name" = Some (RStr k)).

(** The rule called [k] has the identifier [i]. *)
Definition named (s : CloudstackServer) (i k : string) : Prop :=
  ∃ p r, lbRules s !! k = Some p ∧ rules s !! p = Some r ∧ Rule r !! "id" = Some (RStr i).

(** What a look-up by identifier may give: the name of a rule that has it, and
    the empty name when there is none. *)
Definition looked_up (s : CloudstackServer) (i k : string) : Prop :=
  named s i k ∨ (∀ k', ¬ named s i k') ∧ k = "".

Record server_ok (added : added_rules) (s : CloudstackServer) : Prop := {
  ok_added : ∀ p m, added !! p = Some m → ∃ r, rules s !! p = Some r ∧ same_entries (Rule r) m;
  ok_typed : ∀ p r, rules s !! p = Some r → added !! p = None → typed (Rule r);
  ok_own : ∀ p r, rules s !! p = Some r → added !! p = None →
    ∃ n, Rule r !! "id" = Some (RStr (rule_id n)) ∧
      (1 ≤ n ≤ default 0 (idx s !! "createLoadBalancerRule"))%Z;
  ok_unique : ∀ p q r r', rules s !! p = Some r → rules s !! q = Some r' →
    added !! p = None → added !! q = None → Rule r !! "id" = Rule r' !! "id" → p = q;
  ok_named : ∀ k p, lbRules s !! k = Some p → stored added s k p;
  ok_jobs : ∀ j k p, Jobs s !! j = Some (JobCreateRule k p) → stored added s k p;
  ok_ips : ∀ k a, ips s !! k = Some a → ip_Id a = k;
  ok_count : (0 ≤ default 0 (idx s !! "createLoadBalancerRule"))%Z;
}.

(** ** The requests that panic *)

Definition job_breaks (s : CloudstackServer) (j : job) : Prop :=
  match j with
  | JobUpdateRule k _ => lbRules s !! k = None
  | JobUpdatePool k i _ _ _ =>
      ∀ p r, lbRules s !! k = Some p → rules s !! p = Some r → length (Pools r) ≤ i
  | _ => False
  end.

(** A rule cannot be listed: its identifier is no string, or its name is none and
    is asked for, because there is a keyword and no tag of the rule is queried. *)
Definition unlistable (s : CloudstackServer) (keyword : string) (query : gmap string string)
    (m : gmap string rval) : Prop :=
  ¬ is_text m "id" ∨
  ¬ is_text m "name" ∧ keyword ≠ "" ∧
    ∀ i, m !! "id" = Some (RStr i) → existsb (asked_tag query) (default [] (srv_tags s !! i)) = false.

(** The default pools of the rule called [k] cannot be made: there is no such
    rule, or a port of it is no string. *)
Definition poolless (s : CloudstackServer) (k : string) : Prop :=
  ∀ p r, lbRules s !! k = Some p → rules s !! p = Some r →
    ¬ is_text (Rule r) "publicport" ∨ ¬ is_text (Rule r) "privateport".

(** The requests that panic, where [k] is the name found for the rule whose
    pools are asked for. *)
Definition breaks (order : ∀ A, list A → list A) (s : CloudstackServer) (k cmd : string) (form : values) : Prop :=
  if decide (cmd = "listLoadBalancerRules") then
    ∃ name p r, lbRules s !! name = Some p ∧ rules s !! p = Some r ∧
      unlistable s (FormValue form "keyword") (parseTags order form) (Rule r)
  else if decide (cmd = "createLoadBalancerRule") then
    lbRules s !! FormValue form "name" = None ∧ ips s !! FormValue form "publicipid" = None
  else if decide (cmd = "listGloboNetworkPools") then poolless s k
  else if decide (cmd = "queryAsyncJobResult") then
    ∃ j, Jobs s !! FormValue form "jobid" = Some j ∧ job_breaks s j
  else False.

(** The outcome of a request that panics exactly when [B]. *)
Definition outcome (added : added_rules) (B : Prop) {A} (r : res A) (s : CloudstackServer) : Prop :=
  server_ok added s ∧ match r with Ok _ => ¬ B | Panic _ => B | _ => False end.

(** ** The updates of the state keep the invariant *)

Section keeps.
Context (added : added_rules).
Implicit Types s : CloudstackServer.

Lemma ok_Calls s x : server_ok added s → server_ok added (set_Calls x s).
Proof using Type. by intros []; split. Qed.
Lemma ok_tags s x : server_ok added s → server_ok added (set_tags x s).
Proof using Type. by intros []; split. Qed.
Lemma ok_vms s x : server_ok added s → server_ok added (set_vms x s).
Proof using Type. by intros []; split. Qed.

Lemma ok_idx s cmd : server_ok added s →
  server_ok added (set_idx (<[cmd := (default 0 (idx s !! cmd) + 1)%Z]> (idx s)) s).
Proof using Type.
  intros [].
  assert (default 0 (idx s !! "createLoadBalancerRule") ≤
    default 0 (<[cmd := (default 0 (idx s !! cmd) + 1)%Z]> (idx s) !! "createLoadBalancerRule"))%Z as Hup.
  { destruct (decide (cmd = "createLoadBalancerRule")) as [->|Hne].
    - rewrite lookup_insert_eq. simpl. lia.
    - by rewrite lookup_insert_ne. }
  split; try done; simpl; [|lia]. intros p r Hr Hp. destruct (ok_own0 p r Hr Hp) as (n & Hn & Hle).
  exists n. split; [done|]. lia.
Qed.

Lemma ok_start_job s jobid j : server_ok added s →
  (∀ k p, j = JobCreateRule k p → stored added s k p) →
  server_ok added (set_Jobs (<[jobid := j]> (Jobs s)) s).
Proof using Type.
  intros [] Hj; split; try done; simpl. intros i k p [[<- ->]|[_ H]]%lookup_insert_Some; [by apply Hj|].
  by apply (ok_jobs0 i).
Qed.

Lemma ok_add_ip s k a : server_ok added s → ip_Id a = k → server_ok added (set_ips (<[k := a]> (ips s)) s).
Proof using Type.
  intros [] Ha; split; try done; simpl. intros k' a' [[<- <-]|[_ H]]%lookup_insert_Some; [done|].
  by apply ok_ips0.
Qed.
Lemma ok_delete_ip s k : server_ok added s → server_ok added (set_ips (delete k (ips s)) s).
Proof using Type.
  intros []; split; try done; simpl. intros k' a' [_ H]%lookup_delete_Some. by apply ok_ips0.
Qed.

Lemma ok_name_rule s k p : server_ok added s → stored added s k p →
  server_ok added (set_lbRules (<[k := p]> (lbRules s)) s).
Proof using Type.
  intros [] Hp; split; try done; simpl. intros k' p' [[<- <-]|[_ H]]%lookup_insert_Some; [done|].
  by apply ok_named0.
Qed.
Lemma ok_delete_rule s k : server_ok added s → server_ok added (set_lbRules (delete k (lbRules s)) s).
Proof using Type.
  intros []; split; try done; simpl. intros k' p' [_ H]%lookup_delete_Some. by apply ok_named0.
Qed.

(** A rule that is changed keeps its entries. *)
Lemma ok_put_rule s p r r' : server_ok added s → rules s !! p = Some r →
  (typed (Rule r) → typed (Rule r')) → same_entries (Rule r') (Rule r) →
  server_ok added (set_rules (<[p := r']> (rules s)) s).
Proof using Type.
  intros [] Hr Ht Hsame.
  assert (∀ q r1, <[p := r']> (rules s) !! q = Some r1 →
    ∃ r2, rules s !! q = Some r2 ∧ same_entries (Rule r1) (Rule r2) ∧ (typed (Rule r2) → typed (Rule r1))) as Hold.
  { intros q r1 [[<- <-]|[_ H]]%lookup_insert_Some; [by exists r|by exists r1]. }
  assert (∀ q r1, rules s !! q = Some r1 →
    ∃ r2, <[p := r']> (rules s) !! q = Some r2 ∧ same_entries (Rule r2) (Rule r1)) as Hnew.
  { intros q r1 H1. destruct (decide (p = q)) as [<-|Hne].
    - simplify_eq. exists r'. by rewrite lookup_insert_eq.
    - exists r1. by rewrite lookup_insert_ne. }
  assert (∀ k q, stored added s k q → stored added (set_rules (<[p := r']> (rules s)) s) k q) as Hst.
  { intros k q (r1 & H1 & H2). destruct (Hnew q r1 H1) as (r2 & H3 & H4). exists r2. split; [done|].
    intros Hq. by rewrite H4, H2. }
  split; cbn [rules set_rules lbRules Jobs ips idx]; eauto.
  - intros q m Hq. destruct (ok_added0 q m Hq) as (r1 & H1 & H2), (Hnew q r1 H1) as (r2 & H3 & H4).
    exists r2. split; [done|]. by etrans.
  - intros q r1 (r2 & H2 & _ & H3)%Hold Hq. eauto.
  - intros q r1 (r2 & H2 & H3 & _)%Hold Hq. rewrite H3 by done. eauto.
  - intros q q' r1 r2 (r1' & H1 & E1 & _)%Hold (r2' & H2 & E2 & _)%Hold Hq Hq' E.
    apply (ok_unique0 q q' r1' r2' H1 H2); [done..|]. by rewrite <- E1, <- E2.
Qed.

(** The address of a new rule is new. *)
Lemma fresh_rule s : rules s !! fresh (dom (rules s)) = None.
Proof using Type. apply not_elem_of_dom, is_fresh. Qed.

Lemma fresh_not_added s : server_ok added s → added !! fresh (dom (rules s)) = None.
Proof using Type.
  intros []. destruct (added !! _) as [m|] eqn:Hm; [|done].
  destruct (ok_added0 _ m Hm) as (r & Hr & _). by rewrite fresh_rule in Hr.
Qed.

(** A rule that a request makes has the next identifier. *)
Lemma ok_new_rule s r n : server_ok added s → typed (Rule r) →
  Rule r !! "id" = Some (RStr (rule_id n)) → (1 ≤ n)%Z →
  idx s !! "createLoadBalancerRule" = Some n →
  (∀ q r', rules s !! q = Some r' → added !! q = None → Rule r' !! "id" ≠ Some (RStr (rule_id n))) →
  server_ok added (set_rules (<[fresh (dom (rules s)) := r]> (rules s)) s).
Proof using Type.
  intros [] Ht Hid Hn Hidx Hnew. pose proof (fresh_rule s) as Hp. set (p := fresh (dom (rules s))) in *.
  assert (∀ q r1, rules s !! q = Some r1 → <[p := r]> (rules s) !! q = Some r1) as Hkeep.
  { intros q r1 H1. rewrite lookup_insert_ne; [done|]. by intros <-; simplify_eq. }
  assert (∀ k q, stored added s k q → stored added (set_rules (<[p := r]> (rules s)) s) k q) as Hst.
  { intros k q (r1 & H1 & H2). exists r1. split; [by apply Hkeep|done]. }
  split; cbn [rules set_rules lbRules Jobs ips idx]; eauto.
  - intros q m Hq. destruct (ok_added0 q m Hq) as (r1 & H1 & H2). eauto.
  - intros q r1 [[<- <-]|[_ H]]%lookup_insert_Some; eauto.
  - intros q r1 [[<- <-]|[_ H]]%lookup_insert_Some Hq; [|eauto].
    exists n. rewrite Hidx. simpl. split; [done|lia].
  - intros q q' r1 r2 [[<- <-]|[Hq H1]]%lookup_insert_Some [[<- <-]|[Hq' H2]]%lookup_insert_Some A1 A2 E; eauto.
    + destruct (Hnew _ _ H2 A2). by rewrite <- E.
    + destruct (Hnew _ _ H1 A1). by rewrite E.
Qed.

Lemma typed_set m k v : typed m → entry_type k v → typed (<[k := v]> m).
Proof using Type.
  intros [H1 H2] Hv. split; [by apply map_Forall_insert_2|].
  intros k' Hk. destruct (decide (k = k')) as [<-|Hne].
  - by rewrite lookup_insert_eq.
  - rewrite lookup_insert_ne by done. by apply H2.
Qed.

(** The assertion on an entry that every rule has. *)
Lemma typed_string m k : typed m → k ∈ ["id"; "name"; "publicport"; "privateport"] → is_text m k.
Proof using Type.
  intros [H1 H2] Hk. destruct (H2 k Hk) as [v Hv]. pose proof (H1 k v Hv) as Ht.
  destruct v; [by eexists|..]; simpl in Ht; [subst k; exfalso; set_solver..|done].
Qed.
End keeps.

Lemma ok_new : server_ok ∅ NewCloudstackServer.
Proof. split; set_solver. Qed.

(** A rule that a test adds: any entries under any name. *)
Lemma ok_test_rule added s k r : server_ok added s →
  let p := fresh (dom (rules s)) in
  server_ok (<[p := Rule r]> added) (set_lbRules (<[k := p]> (lbRules s)) (set_rules (<[p := r]> (rules s)) s)).
Proof.
  intros Hs p. pose proof (fresh_rule s) as Hp. fold p in Hp. destruct Hs.
  assert (∀ q r1, rules s !! q = Some r1 → p ≠ q) as Hne by (by intros q r1 H1 <-; simplify_eq).
  assert (∀ k' q, stored added s k' q →
    stored (<[p := Rule r]> added) (set_lbRules (<[k := p]> (lbRules s)) (set_rules (<[p := r]> (rules s)) s)) k' q) as Hst.
  { intros k' q (r1 & H1 & H2). exists r1. cbn [rules set_lbRules set_rules].
    rewrite !lookup_insert_ne by by eapply Hne. done. }
  assert (∀ q r1, <[p := r]> (rules s) !! q = Some r1 → (<[p := Rule r]> added) !! q = None →
    rules s !! q = Some r1 ∧ added !! q = None) as Hold.
  { intros q r1 H1 H2. apply lookup_insert_None in H2 as [H2 Hq]. by rewrite lookup_insert_ne in H1. }
  split; cbn [rules set_rules set_lbRules lbRules Jobs ips idx]; eauto.
  - intros q m [[<- <-]|[Hq Hm]]%lookup_insert_Some.
    + exists r. by rewrite lookup_insert_eq.
    + destruct (ok_added0 q m Hm) as (r1 & H1 & H2). exists r1. by rewrite lookup_insert_ne.
  - intros q r1 H1 H2. destruct (Hold q r1 H1 H2). eauto.
  - intros q r1 H1 H2. destruct (Hold q r1 H1 H2). eauto.
  - intros q q' r1 r2 H1 H2 A1 A2. destruct (Hold q r1 H1 A1), (Hold q' r2 H2 A2). eauto.
  - intros k' q [[<- <-]|[_ Hq]]%lookup_insert_Some; [|by apply Hst, ok_named0].
    exists r. cbn [rules set_lbRules set_rules]. rewrite lookup_insert_eq. split; [done|]. by rewrite lookup_insert_eq.
Qed.

#[export] Hint Resolve ok_Calls ok_tags ok_vms ok_idx ok_add_ip ok_delete_ip ok_name_rule
  ok_delete_rule : ccm.

(** ** Outcomes *)

Section wp_steps.
Context {S : Type}.

Lemma wp_get {A} (f : S → M S A) Q s : wp (f s) Q s → wp (get ≫= f) Q s.
Proof. done. Qed.
Lemma wp_modify {A} (g : S → S) (f : unit → M S A) Q s : wp (f tt) Q (g s) → wp (modify g ≫= f) Q s.
Proof. done. Qed.
Lemma wp_deref {A B} (o : option A) (f : A → M S B) Q s :
  (∀ a, o = Some a → wp (f a) Q s) → (o = None → Q (Panic "nil pointer dereference") s) →
  wp (deref o ≫= f) Q s.
Proof. intros H1 H2. destruct o; [by apply H1|by apply H2]. Qed.
Lemma wp_index {A B} (l : list A) i (f : A → M S B) Q s :
  (∀ a, l !! i = Some a → wp (f a) Q s) → (l !! i = None → Q (Panic "index out of range") s) →
  wp (index l i ≫= f) Q s.
Proof. intros H1 H2. unfold index. destruct (l !! i) eqn:E; [by apply H1|by apply H2]. Qed.

(** The loop calls [f] once per element, and its results are put together. *)
Lemma wp_collect {A B} (I : S → Prop) (R : A → list B → Prop) (f : A → M S (list B))
    (l : list A) (Q : res (list B) → S → Prop) s :
  I s →
  (∀ x s', x ∈ l → I s' → wp (f x) (λ r s'', I s'' ∧ ∃ bs, r = Ok bs ∧ R x bs) s') →
  (∀ bss s', I s' → Forall2 R l bss → Q (Ok (concat bss)) s') →
  wp (collect f l) Q s.
Proof.
  revert Q s. induction l as [|x l IH]; intros Q s HI Hf HQ; cbn [collect].
  - apply wp_ret, (HQ []); [done|constructor].
  - apply wp_bind. eapply wp_mono; [by apply Hf; [left|]|].
    intros r s1 [HI1 (bs & -> & HR)]. cbn [on_ok]. apply wp_bind. apply IH; [done| |].
    + intros y s' Hy. apply Hf. by right.
    + intros bss s' HI' HF. cbn [on_ok]. apply wp_ret, (HQ (bs :: bss)); [done|by constructor].
Qed.

(** The loop panics when [f] does for some element, and [f] does for those that
    are [bad]. *)
Lemma wp_collect_outcome {A B} (I : S → Prop) (bad : A → Prop) (f : A → M S (list B)) (l : list A) s :
  I s →
  (∀ x s', x ∈ l → I s' → wp (f x) (λ r s'', I s'' ∧
     match r with Ok _ => ¬ bad x | Panic _ => bad x | _ => False end) s') →
  wp (collect f l) (λ r s', I s' ∧
    match r with Ok _ => ¬ Exists bad l | Panic _ => Exists bad l | _ => False end) s.
Proof.
  revert s. induction l as [|x l IH]; intros s HI Hf; cbn [collect].
  - apply wp_ret. split; [done|]. by intros ?%Exists_nil.
  - apply wp_bind. eapply wp_mono; [by apply Hf; [left|]|].
    intros [bs|e|p|] s1 [HI1 Hx]; cbn [on_ok]; try done; [|by split; [|left]].
    apply wp_bind. eapply wp_mono; [apply IH; [done|]; intros y s' Hy; apply Hf; by right|].
    intros [bs'|e|p|] s2 [HI2 Hl]; cbn [on_ok]; try done; [|by split; [|right]].
    apply wp_ret. split; [done|]. by rewrite Exists_cons; intros [?|?].
Qed.
End wp_steps.

#[local] Ltac step := first [apply wp_get | apply wp_modify].

(** *** The entries of a new rule *)

Lemma new_entries_typed (form : values) n a : typed (new_entries form n a).
Proof.
  unfold new_entries. cbv zeta. case_decide; [|apply typed_set; [|done]]; split;
    try (intros k Hk; repeat (apply elem_of_cons in Hk as [->|Hk]; [by eexists|]);
         by apply elem_of_nil in Hk);
    cbn [list_to_map fst snd]; repeat (apply map_Forall_insert_2; [cbn; set_solver|]); apply map_Forall_empty.
Qed.

Lemma new_entries_id (form : values) n a : new_entries form n a !! "id" = Some (RStr (rule_id n)).
Proof. unfold new_entries. cbv zeta. by case_decide. Qed.
Lemma new_entries_name (form : values) n a : new_entries form n a !! "name" = Some (RStr (FormValue form "name")).
Proof. unfold new_entries. cbv zeta. by case_decide. Qed.

Lemma rule_id_inj n m : rule_id n = rule_id m → n = m.
Proof. intros H%append_inj_l. by apply Itoa_inj. Qed.

Section outcomes.
Context (order : ∀ A, list A → list A).
Context (order_perm : ∀ A (l : list A), order A l ≡ₚ l).
Context (added : added_rules).
Implicit Types (s : CloudstackServer) (form : values).

Lemma outcome_ok s {A} (a : A) (B : Prop) : server_ok added s → ¬ B → outcome added B (Ok a) s.
Proof using Type. by split. Qed.
Lemma outcome_fine s {A} (a : A) : server_ok added s → outcome added False (Ok a) s.
Proof using Type. intros Hs. split; [done|tauto]. Qed.

Lemma newID_wp {A} cmd (f : Z → M CloudstackServer A) Q s :
  (let n := (default 0 (idx s !! cmd) + 1)%Z in
   wp (f n) Q (set_idx (<[cmd := n]> (idx s)) s)) →
  wp (newID cmd ≫= f) Q s.
Proof using Type. done. Qed.

Lemma as_string_wp {A} (m : gmap string rval) k (f : string → M CloudstackServer A) Q s :
  (∀ v, m !! k = Some (RStr v) → wp (f v) Q s) →
  (¬ is_text m k → Q (Panic "interface conversion") s) → wp (as_string (m !! k) ≫= f) Q s.
Proof using Type.
  intros Hf Hno. unfold is_text in Hno. destruct (m !! k) as [[v| | | |]|]; [by apply Hf|..];
    (change (Q (Panic "interface conversion") s); apply Hno; intros [v' Hv]; discriminate Hv).
Qed.

Lemma deferred_outcome cmd prefix mk (B : Prop) s :
  server_ok added s → ¬ B → (∀ jobid k p, mk jobid ≠ JobCreateRule k p) →
  wp (deferred cmd prefix mk) (outcome added B) s.
Proof using Type.
  intros Hs HB Hmk. apply newID_wp. cbv zeta. unfold start_job. step. apply wp_ret.
  apply outcome_ok; [|done]. apply (ok_start_job added (set_idx _ s)); [by apply ok_idx|].
  intros k p H. by destruct (Hmk _ _ _ H).
Qed.

Lemma in_range k p r s :
  (k, p, r) ∈ range_rules order s ↔ lbRules s !! k = Some p ∧ rules s !! p = Some r.
Proof using order_perm.
  unfold range_rules. rewrite list_elem_of_omap. split.
  - intros ([k' p'] & Hin & Hr). rewrite order_perm, elem_of_map_to_list in Hin.
    apply fmap_Some in Hr as (r' & Hr & Heq). simpl in *. by simplify_eq.
  - intros [Hk Hr]. exists (k, p). rewrite order_perm, elem_of_map_to_list. simpl. by rewrite Hr.
Qed.

(** The code looks a rule up by its identifier. *)
Lemma lbNameByID_wp {A} i (f : string → M CloudstackServer A) Q s :
  (∀ k, looked_up s i k → wp (f k) Q s) → wp (lbNameByID order i ≫= f) Q s.
Proof using order_perm.
  intros H. unfold lbNameByID. apply wp_bind. step. apply wp_ret. cbn [on_ok].
  destruct (filter _ _) as [|[[k p] r] l] eqn:E; apply H.
  - right. split; [|done]. intros k (p & r & Hk & Hr & Hi). rewrite list_filter_nil_iff, Forall_forall in E.
    apply (E (k, p, r)); [by apply in_range|done].
  - left. assert ((k, p, r) ∈ filter (has_id i) (range_rules order s)) as Hin.
    { rewrite E. by left. }
    apply list_elem_of_filter in Hin as [Hid [Hk Hr]%in_range]. by exists p, r.
Qed.

Lemma looked_up_exists s i : ∃ k, looked_up s i k.
Proof using order_perm.
  pose proof (lbNameByID_wp i (λ k, mret k) (λ r _, ∃ k, r = Ok k ∧ looked_up s i k) s) as H.
  unfold wp in H. destruct H as (k & _ & Hk); [|by exists k]. intros k Hk. by exists k.
Qed.

Lemma rule_of_wp {A} k (f : nat * LoadBalancerRule → M CloudstackServer A) Q s :
  server_ok added s → (∀ p r, lbRules s !! k = Some p → rules s !! p = Some r → wp (f (p, r)) Q s) →
  (lbRules s !! k = None → Q (Panic "nil pointer dereference") s) → wp (rule_of k ≫= f) Q s.
Proof using Type.
  intros [] H1 H2. unfold rule_of. apply wp_bind. step. destruct (lbRules s !! k) as [p|] eqn:Hk.
  - destruct (ok_named0 k p Hk) as (r & Hr & _). apply wp_bind, wp_ret. cbn [on_ok].
    rewrite Hr. apply wp_bind, wp_ret. cbn [on_ok]. by apply wp_ret, H1.
  - by apply wp_bind, H2.
Qed.

(** A rule is listed with the tags that are stored for it, or passed over; a
    rule whose name contains the keyword is listed. *)
Lemma list_rule_wp kw q k p s r : rules s !! p = Some r →
  wp (list_rule kw q (k, p)) (λ res s',
    let tagged tags := set_Rule_entry "tags" (RTags tags) r in
    match res with
    | Ok bs => ¬ unlistable s kw q (Rule r) ∧
        ((∃ tags, s' = set_rules (<[p := tagged tags]> (rules s)) s ∧ bs = [Rule (tagged tags)]) ∨
         s' = s ∧ bs = [] ∧ (kw = "" ∨ ∀ n, Rule r !! "name" = Some (RStr n) → Contains n kw = false))
    | Panic _ => unlistable s kw q (Rule r) ∧ s' = s
    | _ => False
    end) s.
Proof using Type.
  clear order_perm order added. intros Hr. unfold list_rule. step.
  simpl. rewrite Hr. apply wp_deref; [|done]. intros _ [= <-].
  apply as_string_wp; [|by intros Hid; split; [left|]]. intros i Hi. cbv zeta.
  assert (∀ b n, (¬ unlistable s kw q (Rule r)) →
    (b = false → kw = "" ∨ ∀ n, Rule r !! "name" = Some (RStr n) → Contains n kw = false) → n = b →
    wp (if n : bool then
          put_rule p (set_Rule_entry "tags" (RTags (default [] (srv_tags s !! i))) r) ;;
          mret [<["tags" := RTags (default [] (srv_tags s !! i))]> (Rule r)]
        else mret [])
      (λ res s',
    let tagged tags := set_Rule_entry "tags" (RTags tags) r in
    match res with
    | Ok bs => ¬ unlistable s kw q (Rule r) ∧
        ((∃ tags, s' = set_rules (<[p := tagged tags]> (rules s)) s ∧ bs = [Rule (tagged tags)]) ∨
         s' = s ∧ bs = [] ∧ (kw = "" ∨ ∀ n, Rule r !! "name" = Some (RStr n) → Contains n kw = false))
    | Panic _ => unlistable s kw q (Rule r) ∧ s' = s
    | _ => False
    end) s) as Hend.
  { intros b n Hu Hb ->. destruct b; cbv iota.
    - unfold put_rule. apply wp_modify, wp_ret. split; [done|]. left. by eexists.
    - apply wp_ret. split; [done|]. right. auto. }
  destruct (existsb _ _) eqn:Hex.
  { apply wp_bind, wp_ret. cbn [on_ok]. apply (Hend true true); [|done..].
    intros [Hno|(_ & _ & Htags)]; [by apply Hno; exists i|]. by rewrite (Htags i Hi) in Hex. }
  case_decide as Hkw.
  { apply wp_bind, wp_ret. cbn [on_ok]. apply (Hend false false); [|by left|done].
    intros [Hno|(_ & Hne & _)]; [by apply Hno; exists i|done]. }
  apply wp_bind, as_string_wp.
  - intros n Hn. apply wp_ret. cbn [on_ok]. eapply (Hend _ (Contains n kw || Contains i kw)); [|intros Hb; right|reflexivity].
    + intros [Hno|(Hno & _)]; [by apply Hno; exists i|by apply Hno; exists n].
    + intros n' Hn'. simplify_eq. by apply orb_false_iff in Hb as [-> _].
  - intros Hno. cbn [on_ok]. split; [|done]. right. split_and!; [done..|]. intros i' Hi'. by simplify_eq.
Qed.

Lemma tagged_ok s p r tags : server_ok added s → rules s !! p = Some r →
  server_ok added (set_rules (<[p := set_Rule_entry "tags" (RTags tags) r]> (rules s)) s).
Proof using Type.
  intros Hs Hr. apply (ok_put_rule added s p r); [done..| |].
  - intros Ht. by apply typed_set.
  - intros k Hk _. simpl. by rewrite lookup_insert_ne.
Qed.

(** While rules are listed: only their tags differ from those of [s]. *)
Definition listing_of s s' : Prop :=
  server_ok added s' ∧ lbRules s' = lbRules s ∧ srv_tags s' = srv_tags s ∧
  ∀ p r, rules s !! p = Some r → ∃ r', rules s' !! p = Some r' ∧ same_entries (Rule r') (Rule r).

Lemma unlistable_same s s' kw q m m' : srv_tags s' = srv_tags s → same_entries m' m →
  unlistable s' kw q m' ↔ unlistable s kw q m.
Proof using Type.
  clear order_perm order added. intros Ht Hm. unfold unlistable, is_text. by rewrite Ht, !Hm by done.
Qed.

Lemma list_rule_listing kw q k p r s s' :
  lbRules s !! k = Some p → rules s !! p = Some r → listing_of s s' →
  wp (list_rule kw q (k, p)) (λ res s'', listing_of s s'' ∧
    match res with
    | Ok bs => ¬ unlistable s kw q (Rule r) ∧
        (kw ≠ "" → (∃ n, Rule r !! "name" = Some (RStr n) ∧ Contains n kw = true) →
         ∃ m, m ∈ bs ∧ ∀ k, k ≠ "tags" → k ≠ "algorithm" → m !! k = Rule r !! k)
    | Panic _ => unlistable s kw q (Rule r)
    | _ => False
    end) s'.
Proof using Type.
  clear order_perm order. intros Hk Hr (Hs' & Heq & Htags & Hsame). destruct (Hsame p r Hr) as (r' & Hr' & Hm).
  assert (listing_of s s') as Hl by done.
  pose proof (unlistable_same s s' kw q (Rule r) (Rule r') Htags Hm) as Hu.
  eapply wp_mono; [by apply list_rule_wp|]. cbv zeta.
  intros [bs|e|x|] s2; try done; [|by intros [?%Hu ->]].
  intros [Hno Hbs]. rewrite Hu in Hno. destruct Hbs as [(tags & -> & ->)|(-> & -> & Hpass)].
  - assert (same_entries (Rule (set_Rule_entry "tags" (RTags tags) r')) (Rule r)) as Hnew.
    { intros x Hx Ha. simpl. rewrite lookup_insert_ne by done. by apply Hm. }
    split.
    + split_and!; [by apply tagged_ok|done|done|]. intros p' r1 H1. cbn [rules set_rules].
      destruct (decide (p' = p)) as [->|Hp]; [|rewrite lookup_insert_ne by done; by apply Hsame].
      simplify_eq. eexists. by rewrite lookup_insert_eq.
    + split; [done|]. intros _ _. eexists. split; [by left|exact Hnew].
  - split; [done|]. split; [done|]. intros Hkw (n & Hn & Hc). exfalso.
    destruct Hpass as [|Hpass]; [done|]. rewrite Hm in Hpass by done. by rewrite (Hpass n Hn) in Hc.
Qed.

Lemma listing_refl s : server_ok added s → listing_of s s.
Proof using Type. intros Hs. split_and!; [done..|]. intros p r Hr. by exists r. Qed.

Lemma listLoadBalancerRules_outcome k form s : server_ok added s →
  wp (serve_listLoadBalancerRules order form) (outcome added (breaks order s k "listLoadBalancerRules" form)) s.
Proof using order_perm.
  intros Hs. unfold serve_listLoadBalancerRules. step. apply wp_bind.
  set (q := parseTags order form). set (kw := FormValue form "keyword").
  set (bad := λ np : string * nat, ∃ r, rules s !! np.2 = Some r ∧ unlistable s kw q (Rule r)).
  assert (Exists bad (order _ (map_to_list (lbRules s))) ↔ breaks order s k "listLoadBalancerRules" form) as Hbad.
  { rewrite Exists_exists. unfold breaks. rewrite decide_True by done. split.
    - intros ([n p] & Hin & r & Hr & Hu). rewrite order_perm, elem_of_map_to_list in Hin. by exists n, p, r.
    - intros (n & p & r & Hn & Hr & Hu). exists (n, p). rewrite order_perm, elem_of_map_to_list.
      split; [done|]. by exists r. }
  eapply wp_mono; [apply (wp_collect_outcome (listing_of s) bad); [by apply listing_refl|]|].
  - intros [n p] s' Hin Hs'. rewrite order_perm, elem_of_map_to_list in Hin.
    destruct (ok_named _ _ Hs n p Hin) as (r & Hr & _).
    eapply wp_mono; [by eapply list_rule_listing|]. intros res s2 [Hl Hres]. split; [done|].
    destruct res as [bs|e|x|]; try done; [|by exists r].
    destruct Hres as [Hno _]. intros (r' & Hr' & Hu). simpl in Hr'. by simplify_eq.
  - intros [lbs|e|x|] s' [(Hs' & _) Hres]; cbn [on_ok]; try done.
    + apply wp_ret, outcome_ok; [done|]. by rewrite <- Hbad.
    + split; [done|]. by apply Hbad.
Qed.

(** A change of the pools of a rule. *)
Lemma pools_ok s p r l : server_ok added s → rules s !! p = Some r →
  server_ok added (set_rules (<[p := set_pools l r]> (rules s)) s).
Proof using Type. intros Hs Hr. by apply (ok_put_rule added s p r). Qed.

(** The default pools are made for the rule that the look-up gives. *)
Lemma createDefaultLBPools_wp i s : server_ok added s →
  wp (createDefaultLBPools order i) (λ res s', ∃ k, looked_up s i k ∧ outcome added (poolless s k) res s') s.
Proof using order_perm.
  intros Hs. unfold createDefaultLBPools. apply lbNameByID_wp. intros k Hk.
  eapply wp_mono; [|intros res s' H; exists k; split; [exact Hk|exact H]].
  apply rule_of_wp; [done| |].
  2: { intros Hnone. split; [done|]. intros p r Hp. by rewrite Hnone in Hp. }
  intros p r Hp Hr. cbv beta iota.
  assert (∀ (B : Prop), (poolless s k → B) → (B → ¬ is_text (Rule r) "publicport" ∨ ¬ is_text (Rule r) "privateport") →
    poolless s k ↔ B) as _ by (intros B H1 H2; split; [done|]; intros Hb p' r' Hp' Hr'; simplify_eq; auto).
  assert (¬ is_text (Rule r) "publicport" ∨ ¬ is_text (Rule r) "privateport" → poolless s k) as Hpanic.
  { intros Hb p' r' Hp' Hr'. by simplify_eq. }
  apply as_string_wp; [|by intros Hno; split; [done|apply Hpanic; left]]. intros v Hv.
  apply as_string_wp; [|by intros Hno; split; [done|apply Hpanic; right]]. intros w Hw. cbv zeta.
  assert (¬ poolless s k) as Hno.
  { intros Hb. destruct (Hb p r Hp Hr) as [Hb'|Hb']; apply Hb'; by eexists. }
  case_match; [by apply wp_ret, outcome_ok|]. case_decide; [by apply wp_ret, outcome_ok|].
  split; [by apply pools_ok|done].
Qed.

Lemma listGloboNetworkPools_outcome form s : server_ok added s →
  wp (serve_listGloboNetworkPools order form) (λ res s', ∃ k, looked_up s (FormValue form "lbruleid") k ∧
    outcome added (breaks order s k "listGloboNetworkPools" form) res s') s.
Proof using order_perm.
  intros Hs. unfold serve_listGloboNetworkPools. apply wp_bind.
  eapply wp_mono; [by apply createDefaultLBPools_wp|].
  intros res s1 (k & Hk & Hs1 & H). destruct res as [[]|e|p|]; try done; cbn [on_ok].
  - step. apply wp_ret. exists k. split; [done|]. by apply outcome_ok.
  - by exists k.
Qed.

Lemma listPublicIpAddresses_outcome form s : server_ok added s →
  wp (serve_listPublicIpAddresses order form) (outcome added False) s.
Proof using order_perm.
  intros Hs. unfold serve_listPublicIpAddresses. case_decide; [by apply wp_ret, outcome_fine|].
  step. apply wp_bind.
  apply (wp_collect (server_ok added) (λ _ _, True)); [done| |].
  - intros [k a] s' Hin Hs'. rewrite order_perm, elem_of_map_to_list in Hin.
    unfold list_ip. do 2 (case_decide; [by apply wp_ret; eauto|]). step. cbv zeta. step.
    apply wp_ret. split; [|by eexists]. apply ok_add_ip; [done|]. exact (ok_ips _ _ Hs k a Hin).
  - intros bss s' Hs' _. cbn [on_ok]. by apply wp_ret, outcome_fine.
Qed.

Lemma associateIpAddress_outcome cmd form s : server_ok added s →
  wp (serve_associateIpAddress cmd form) (outcome added False) s.
Proof using Type.
  intros Hs. apply newID_wp. cbv zeta. unfold start_job. step. apply wp_ret, outcome_fine.
  apply (ok_start_job added (set_idx _ s)); [by apply ok_idx|done].
Qed.

Lemma disassociateIpAddress_outcome cmd form s : server_ok added s →
  wp (serve_disassociateIpAddress cmd form) (outcome added False) s.
Proof using Type.
  intros Hs. unfold serve_disassociateIpAddress. cbv zeta. step. destruct (ips s !! _).
  - by apply deferred_outcome; [|tauto|].
  - by apply wp_ret, outcome_fine.
Qed.

Lemma updateLoadBalancerRule_outcome cmd form s : server_ok added s →
  wp (serve_updateLoadBalancerRule order cmd form) (outcome added False) s.
Proof using order_perm.
  intros Hs. unfold serve_updateLoadBalancerRule. cbv zeta.
  apply lbNameByID_wp; intros; case_decide; try (by apply wp_ret, outcome_fine);
    by apply deferred_outcome; [|tauto|].
Qed.

Lemma updateGloboNetworkPool_outcome cmd form s : server_ok added s →
  wp (serve_updateGloboNetworkPool order cmd form) (outcome added False) s.
Proof using order_perm.
  intros Hs. unfold serve_updateGloboNetworkPool. cbv zeta.
  apply lbNameByID_wp. intros k Hk. case_decide as Hne; [by apply wp_ret, outcome_fine|].
  destruct Hk as [(p & r & Hk & Hr & _)|[_ ->]]; [|done].
  apply rule_of_wp; [done| |by rewrite Hk]. intros p' r' _ _. cbn [snd].
  destruct (list_find _ _) as [[i pool]|]; [|by apply wp_ret, outcome_fine].
  by apply deferred_outcome; [|tauto|].
Qed.

Lemma createLoadBalancerRule_outcome k form s : server_ok added s →
  wp (serve_createLoadBalancerRule "createLoadBalancerRule" form)
    (outcome added (breaks order s k "createLoadBalancerRule" form)) s.
Proof using order_perm.
  intros Hs. pose proof (ok_count _ _ Hs) as Hidx. unfold serve_createLoadBalancerRule. cbv zeta. step.
  destruct (lbRules s !! FormValue form "name") as [p0|] eqn:Hname.
  { apply wp_ret, outcome_ok; [done|]. intros [H _]. by rewrite Hname in H. }
  apply newID_wp. cbv zeta. set (n := (default 0 (idx s !! _) + 1)%Z).
  set (s1 := set_idx _ s). assert (server_ok added s1) as Hs1 by by apply ok_idx.
  apply wp_deref; [|by intros]. intros a Ha.
  assert (¬ breaks order s k "createLoadBalancerRule" form) as HB.
  { intros [_ H]. by rewrite Ha in H. }
  case_decide; [by apply wp_ret, outcome_ok|]. unfold new_rule. apply wp_bind. step.
  cbv zeta. step. apply wp_ret. cbn [on_ok]. unfold start_job. step. apply wp_ret, outcome_ok; [|done].
  set (r := {| Rule := _; Pools := _; fake_createLBPool := _ |}).
  set (s2 := set_rules _ s1).
  assert (server_ok added s2) as Hs2.
  { apply (ok_new_rule added s1 r n); [done|apply new_entries_typed|apply new_entries_id|lia| |].
    - cbn [idx s1 set_idx]. by rewrite lookup_insert_eq.
    - intros q r' Hq Hadd Heq. destruct (ok_own _ _ Hs q r' Hq Hadd) as (m & Hm & Hle).
      assert (rule_id n = rule_id m) as <-%rule_id_inj by congruence. subst n. lia. }
  apply (ok_start_job added s2); [done|]. intros k' p [= <- <-]. exists r. split.
  - cbn [rules s2 set_rules]. by rewrite lookup_insert_eq.
  - intros _. apply new_entries_name.
Qed.

(** *** Jobs *)

Lemma algorithm_ok s p r v : server_ok added s → rules s !! p = Some r →
  server_ok added (set_rules (<[p := set_Rule_entry "algorithm" (RStr v) r]> (rules s)) s).
Proof using order_perm.
  intros Hs Hr. apply (ok_put_rule added s p r); [done..| |].
  - intros Ht. apply typed_set; [done|]. cbn. set_solver.
  - intros k _ Hk. simpl. by rewrite lookup_insert_ne.
Qed.

Lemma run_job_outcome s j : server_ok added s → (∀ k p, j = JobCreateRule k p → stored added s k p) →
  wp (run_job order j) (outcome added (job_breaks s j)) s.
Proof using order_perm.
  intros Hs Hj. destruct j; cbn [run_job job_breaks run_associate run_disassociate run_update_rule run_update_pool run_create_rule
    run_create_tags run_delete_tags run_assign run_remove run_delete_rule]; cbv zeta.
  - step. by apply wp_ret, outcome_fine, ok_add_ip.
  - step. by apply wp_ret, outcome_fine, ok_delete_ip.
  - apply rule_of_wp; [done| |done]. intros p r Hk Hr. cbn [fst snd]. unfold put_rule. step.
    apply wp_ret, outcome_ok; [|by rewrite Hk]. by apply algorithm_ok.
  - apply rule_of_wp; [done| |]; cycle 1.
    { intros Hk. split; [done|]. intros p r Hk'. by rewrite Hk in Hk'. }
    intros p r Hk Hr. cbn [fst snd]. apply wp_index.
    + intros pool Hpool. unfold put_rule. step. apply wp_ret, outcome_ok.
      * by apply pools_ok.
      * intros H. specialize (H p r Hk Hr). apply lookup_lt_Some in Hpool. lia.
    + intros Hpool. split; [done|]. intros p' r' Hk' Hr'. simplify_eq.
      by apply lookup_ge_None_1.
  - destruct (Hj _ _ eq_refl) as (r & Hr & Hn). step. step. cbn [rules set_lbRules].
    apply wp_deref; [|by rewrite Hr]. intros r' _. apply wp_ret, outcome_fine, ok_name_rule; [done|].
    by exists r.
  - by apply wp_ret, outcome_fine.
  - step. by apply wp_ret, outcome_fine, ok_tags.
  - step. by apply wp_ret, outcome_fine, ok_tags.
  - step. by apply wp_ret, outcome_fine, ok_vms.
  - step. by apply wp_ret, outcome_fine, ok_vms.
  - apply lbNameByID_wp; intros; step; by apply wp_ret, outcome_fine, ok_tags, ok_delete_rule.
  - by apply wp_ret, outcome_fine.
Qed.

Lemma queryAsyncJobResult_outcome k form s : server_ok added s →
  wp (serve_queryAsyncJobResult order form) (outcome added (breaks order s k "queryAsyncJobResult" form)) s.
Proof using order_perm.
  intros Hs. unfold serve_queryAsyncJobResult. cbv zeta. step.
  destruct (Jobs s !! _) as [j|] eqn:Hj.
  - apply wp_bind. eapply wp_mono; [apply run_job_outcome; [done|]|].
    { intros k' p ->. by apply (ok_jobs _ _ Hs (FormValue form "jobid")). }
    intros [a|e|p|] s' [Hs' H]; try done; cbn [on_ok].
    + apply wp_ret, outcome_ok; [done|]. intros (j' & Hj' & Hb). by simplify_eq.
    + split; [done|]. by exists j.
  - apply wp_ret, outcome_ok; [done|]. intros (j & Hj' & _). by rewrite Hj in Hj'.
Qed.

Lemma dispatch_outcome cmd form s : server_ok added s →
  wp (dispatch order cmd form) (λ res s', ∃ k, looked_up s (FormValue form "lbruleid") k ∧
    outcome added (breaks order s k cmd form) res s') s.
Proof using order_perm.
  intros Hs. destruct (looked_up_exists s (FormValue form "lbruleid")) as [k Hk].
  destruct (decide (cmd = "listGloboNetworkPools")) as [->|Hpools].
  { by apply listGloboNetworkPools_outcome. }
  eapply wp_mono; [|intros res s' H; exists k; split; [exact Hk|exact H]]. unfold dispatch.
  repeat (case_decide; [subst cmd|]); try done.
  all: unfold serve_createTags, serve_deleteTags, serve_assignToLoadBalancerRule,
    serve_removeFromLoadBalancerRule; lazymatch goal with
    | |- wp (deferred _ _ _) _ _ => by apply deferred_outcome; [|intros Hb; exact Hb|]
    | _ => idtac end.
  - unfold serve_listVirtualMachines. case_decide; by apply wp_ret, outcome_fine.
  - by apply listLoadBalancerRules_outcome.
  - by apply wp_ret, outcome_fine.
  - by apply listPublicIpAddresses_outcome.
  - by apply associateIpAddress_outcome.
  - by apply disassociateIpAddress_outcome.
  - by apply updateLoadBalancerRule_outcome.
  - by apply updateGloboNetworkPool_outcome.
  - by apply createLoadBalancerRule_outcome.
  - unfold serve_listTags. step. by apply wp_ret, outcome_fine.
  - unfold serve_listLoadBalancerRuleInstances. case_decide; [|step]; by apply wp_ret, outcome_fine.
  - by apply queryAsyncJobResult_outcome.
  - apply wp_ret, outcome_ok; [done|]. unfold breaks. rewrite !decide_False by done. tauto.
Qed.

(** What a look-up gives that is known to be of a rule. *)
Lemma SetDefaultLBPoolCreation_wp i s : server_ok added s →
  wp (SetDefaultLBPoolCreation order i) (λ res s', server_ok added s' ∧ ∃ k, looked_up s i k ∧
    match res with
    | Ok _ => is_Some (lbRules s !! k)
    | Panic _ => lbRules s !! k = None
    | _ => False
    end) s.
Proof using order_perm.
  intros Hs. unfold SetDefaultLBPoolCreation. apply lbNameByID_wp. intros k Hk.
  apply rule_of_wp; [done| |by intros Hnone; split; [|exists k]].
  intros p r Hp Hr. unfold put_rule.
  split; [by apply (ok_put_rule added s p r)|]. exists k. split; [done|]. by eexists.
Qed.
End outcomes.

(** ** Reachable states *)

(** What a test can do to the server, before, between and during requests: call
    an exported method, or set an exported field.  A job that a test registers
    returns a value. *)
Inductive test_op :=
  | TAddIP (a : PublicIpAddress)
  | TAddLBRule (lbName : string) (r : LoadBalancerRule)
  | TAddTags (resourceid : string) (tags : list Tags)
  | TDeleteTags (resourceid : string) (tagKeys : list string)
  | TSetDefaultLBPoolCreation (lbId : string)
  | TSetCalls (l : list MockAPICall)
  | TSetJob (jobid : string) (answer : reply).

Section tests.
Context (order : ∀ A, list A → list A).

Definition run_op (op : test_op) : M CloudstackServer unit :=
  match op with
  | TAddIP a => AddIP a
  | TAddLBRule k r => AddLBRule k r
  | TAddTags i l => AddTags i l
  | TDeleteTags i l => DeleteTags i l
  | TSetDefaultLBPoolCreation i => SetDefaultLBPoolCreation order i
  | TSetCalls l => modify (set_Calls l)
  | TSetJob jobid answer => modify (λ s, set_Jobs (<[jobid := JobReturns answer]> (Jobs s)) s)
  end.

(** A Hook: for each request, operations and then perhaps the answer. *)
Abbreviation test_hook := (http_request → list test_op * option reply).

Definition Hook_of (h : test_hook) (r : http_request) : M CloudstackServer (option reply) :=
  for_each (h r).1 run_op ;; mret (h r).2.

(** The rules that operations add. *)
Definition added_by (op : test_op) (s : CloudstackServer) (added : added_rules) : added_rules :=
  match op with
  | TAddLBRule _ r => <[fresh (dom (rules s)) := Rule r]> added
  | _ => added
  end.

Fixpoint added_by_all (ops : list test_op) (s : CloudstackServer) (added : added_rules) : added_rules :=
  match ops with
  | [] => added
  | op :: ops =>
      let '(s', r) := run_op op s in
      match r with
      | Ok _ => added_by_all ops s' (added_by op s added)
      | _ => added_by op s added
      end
  end.
End tests.

(** A request is noted before the Hook runs. *)
Definition noted (r : http_request) (s : CloudstackServer) : CloudstackServer :=
  set_Calls (Calls s ++ [{| call_Command := FormValue (Form r) "command"; call_Params := URL_Query r |}]) s.

Definition added_by_hook order (h : option (http_request → list test_op * option reply)) r s added :=
  match h with
  | None => added
  | Some h => added_by_all order (h r).1 (noted r s) added
  end.

(** The server answers a request, with or without a Hook, or a test changes
    what it keeps; each time Go may iterate over maps in another order. *)
Inductive fake_step : added_rules * CloudstackServer → added_rules * CloudstackServer → Prop :=
  | step_request order h r added s :
      (∀ A (l : list A), order A l ≡ₚ l) →
      fake_step (added, s)
        (added_by_hook order h r s added, (ServeHTTP order (Hook_of order <$> h) r s).1)
  | step_test order op added s :
      (∀ A (l : list A), order A l ≡ₚ l) →
      fake_step (added, s) (added_by op s added, (run_op order op s).1).

Definition fake_reachable (added : added_rules) (s : CloudstackServer) : Prop :=
  rtc fake_step (∅, NewCloudstackServer) (added, s).

Lemma run_op_ok order op added s : (∀ A (l : list A), order A l ≡ₚ l) → server_ok added s →
  wp (run_op order op) (λ res s', server_ok (added_by op s added) s' ∧ match res with Ok _ | Panic _ => True | _ => False end) s.
Proof.
  intros Ho Hs. destruct op; cbn [run_op added_by].
  - split; [by apply ok_add_ip|done].
  - split; [exact (ok_test_rule added s lbName r Hs)|done].
  - split; [by apply ok_tags|done].
  - split; [by apply ok_tags|done].
  - eapply wp_mono; [by apply (SetDefaultLBPoolCreation_wp order Ho added)|].
    intros res s' (Hs' & k & _ & Hres). split; [done|]. by destruct res.
  - split; [by apply ok_Calls|done].
  - split; [|done]. by apply ok_start_job.
Qed.

Lemma run_ops_ok order ops added s : (∀ A (l : list A), order A l ≡ₚ l) → server_ok added s →
  wp (for_each ops (run_op order)) (λ res s', server_ok (added_by_all order ops s added) s' ∧
    match res with Ok _ | Panic _ => True | _ => False end) s.
Proof.
  intros Ho. revert added s. induction ops as [|op ops IH]; intros added s Hs; cbn [for_each added_by_all]; [done|].
  apply wp_bind. eapply wp_run; [by apply run_op_ok|]. intros [u|e|p|] s1 E [Hs1 Hres]; rewrite E; cbn [on_ok]; try done.
  by apply IH.
Qed.

(** A request, with its Hook. *)
Lemma ServeHTTP_outcome order h r added s : (∀ A (l : list A), order A l ≡ₚ l) → server_ok added s →
  wp (ServeHTTP order (Hook_of order <$> h) r) (λ res s',
    server_ok (added_by_hook order h r s added) s' ∧
    match h with
    | None => ∃ k, looked_up s (FormValue (Form r) "lbruleid") k ∧
        outcome added (breaks order (noted r s) k (FormValue (Form r) "command") (Form r)) res s'
    | Some h =>
        match Hook_of order h r (noted r s) with
        | (s1, Ok None) => ∃ k, looked_up s1 (FormValue (Form r) "lbruleid") k ∧
            match res with
            | Ok _ => ¬ breaks order s1 k (FormValue (Form r) "command") (Form r)
            | Panic _ => breaks order s1 k (FormValue (Form r) "command") (Form r)
            | _ => False
            end
        | (_, Ok (Some answer)) => res = Ok answer
        | (_, Panic p) => res = Panic p
        | _ => False
        end
    end) s.
Proof.
  intros Ho Hs. unfold ServeHTTP. step. fold (noted r s).
  assert (server_ok added (noted r s)) as Hn by by apply ok_Calls.
  destruct h as [h|]; cbn [fmap option_fmap option_map added_by_hook]; apply wp_bind.
  2: { apply wp_ret. cbn [on_ok]. eapply wp_mono; [by apply (dispatch_outcome order Ho added)|].
       intros res s' (k & Hk & Hs' & Hres). split; [done|]. by exists k. }
  unfold Hook_of at 1. destruct (h r) as [ops answer] eqn:Hh. cbn [fst snd].
  set (added' := added_by_all order ops (noted r s) added).
  eapply (wp_run _ (λ res s', server_ok added' s' ∧ match res with Ok _ | Panic _ => True | _ => False end)).
  { apply wp_bind. eapply wp_mono; [by apply (run_ops_ok order ops added)|].
    intros [u|e|p|] s1 [Hs1 Hres]; cbn [on_ok]; done. }
  intros res s1 E [Hs1 Hres].
  assert (Hook_of order h r (noted r s) = (s1, res)) as HE by by unfold Hook_of; rewrite Hh.
  rewrite HE. destruct res as [[a|]|e|p|]; cbn [on_ok]; try done.
  eapply wp_mono; [by apply (dispatch_outcome order Ho added')|].
  intros res s' (k & Hk & Hs' & Hr). split; [done|]. by exists k.
Qed.

Lemma fake_step_ok x y : fake_step x y → server_ok x.1 x.2 → server_ok y.1 y.2.
Proof.
  intros [order h r added s Ho|order op added s Ho] Hs; cbn [fst snd] in *.
  - apply (ServeHTTP_outcome order h r added s Ho Hs).
  - apply (run_op_ok order op added s Ho Hs).
Qed.

Lemma fake_reachable_ok added s : fake_reachable added s → server_ok added s.
Proof.
  intros H. assert (∀ x y, rtc fake_step x y → server_ok x.1 x.2 → server_ok y.1 y.2) as Hind.
  { clear. intros x y H. induction H; eauto using fake_step_ok. }
  exact (Hind _ _ H ok_new).
Qed.

(** (C37) In every state the test server can reach, whatever rules tests add and
    whatever their Hooks do: a rule that a request made has the entries of a
    rule, of the Go types that the code asserts, an identifier numbered by the
    counter of creations, which no other such rule has, and is only ever found
    under its own name; a rule that a test added still has the entries it was
    added with, but for the tags and the algorithm. *)
Theorem fake_rules_typed added s (Hs : fake_reachable added s) :
  (∀ p r, rules s !! p = Some r → added !! p = None → typed (Rule r) ∧
     ∃ n, Rule r !! "id" = Some (RStr (rule_id n)) ∧
       (1 ≤ n ≤ default 0 (idx s !! "createLoadBalancerRule"))%Z) ∧
  (∀ p q r r', rules s !! p = Some r → rules s !! q = Some r' →
     added !! p = None → added !! q = None → Rule r !! "id" = Rule r' !! "id" → p = q) ∧
  (∀ k p, lbRules s !! k = Some p → ∃ r, rules s !! p = Some r ∧
     (added !! p = None → Rule r !! "name" = Some (RStr k))) ∧
  ∀ p m, added !! p = Some m → ∃ r, rules s !! p = Some r ∧
    ∀ k, k ≠ "tags" → k ≠ "algorithm" → Rule r !! k = m !! k.
Proof. apply fake_reachable_ok in Hs as []. split_and!; [by split; eauto|done..]. Qed.

(** (C36) In every state the test server can reach, whatever tests have added and
    set, it answers every request that no Hook sees, except the ones of
    [breaks], which end in a panic: rules are listed and one of them has no
    string as its identifier, or as the name that is compared with the keyword; a
    rule is created for an unknown IP; the pools of an unknown rule are listed,
    or those of a rule whose ports are no strings; and an update is carried out
    when its rule or its pool is gone. *)
Theorem ServeHTTP_panics order r added s (Ho : ∀ A (l : list A), order A l ≡ₚ l)
    (Hs : fake_reachable added s) :
  ∃ k, looked_up s (FormValue (Form r) "lbruleid") k ∧
  match (ServeHTTP order None r s).2 with
  | Ok _ => ¬ breaks order s k (FormValue (Form r) "command") (Form r)
  | Panic _ => breaks order s k (FormValue (Form r) "command") (Form r)
  | _ => False
  end.
Proof.
  apply fake_reachable_ok, (ServeHTTP_outcome order None r added s Ho) in Hs as (_ & k & Hk & _ & H).
  by exists k.
Qed.
