(* ===== verification/FakeClient.v ===== *)
(** * The provider and the test server

    The server of fake/cloudstack.go does what the theorems on the provider ask
    of CloudStack: a rule that is created through it is listed as one that the
    provider keeps, and its machines are those that the provider's calls add up
    to.  The requests are those of the client library, which is not code of the
    repository: what it puts into them is a hypothesis. *)
From Stdlib Require Import Ascii.
From stdpp Require Import base list strings gmap sets.
From S2P Require Import Prelude GoStd Kube Cloud Balancer Ports PublicIP Rule Fake FakeSafety.

(** ** The entries of a listed rule, read as the provider's structure *)

Definition rstr (m : gmap string rval) (k : string) : string :=
  match m !! k with Some (RStr v) => v | _ => "" end.

Definition decode (m : gmap string rval) : loadBalancerRule := {|
  lbr_Id := rstr m "id"; lbr_Name := rstr m "name"; lbr_Algorithm := rstr m "algorithm";
  lbr_Cidrlist := rstr m "cidrlist"; lbr_Networkid := rstr m "networkid";
  Privateport := rstr m "privateport"; Publicport := rstr m "publicport";
  Publicip := rstr m "publicip"; Publicipid := rstr m "publicipid"; Zoneid := rstr m "zoneid";
  lbr_Protocol := rstr m "protocol";
  lbr_Tags := match m !! "tags" with Some (RTags l) => l | _ => [] end;
  AdditionalPortMap := match m !! "additionalportmap" with Some (RList l) => l | _ => [] end |}.

(** The form carries a command, and the text of these parameters. *)
Definition sends (form : values) (cmd : string) (p : params) : Prop :=
  FormValue form "command" = cmd ∧
  ∀ k, k ∈ ["name"; "protocol"; "privateport"; "publicport"; "additionalportmap"; "publicipid"] →
    FormValue form k = param_text p k.

(** ** The machines of a rule *)

Definition machines (s : CloudstackServer) (rid : string) : list string := default [] (vms s !! rid).

(** The form of a call that assigns or removes machines. *)
Definition host_form (form : values) (cmd rid : string) (ids : list string) : Prop :=
  FormValue form "command" = cmd ∧ FormValue form "id" = rid ∧
  FormValue form "virtualmachineids" = Join ids "," ∧
  Forall (λ i, i ≠ "" ∧ has_byte "," i = false) ids.

Definition host_request (e : event) (form : values) : Prop :=
  match projT2 e with
  | AssignToLoadBalancerRule _ rid ids => host_form form "assignToLoadBalancerRule" rid ids
  | RemoveFromLoadBalancerRule _ rid ids => host_form form "removeFromLoadBalancerRule" rid ids
  | _ => False
  end.

(** A request that carries out neither an assignment nor a removal. *)
Definition no_host_job (s : CloudstackServer) (form : values) : Prop :=
  FormValue form "command" = "queryAsyncJobResult" →
  ∀ j, Jobs s !! FormValue form "jobid" = Some j →
    match j with JobAssign _ _ _ | JobRemove _ _ _ => False | _ => True end.

(** The server takes part in the calls of a log: an assignment or a removal is
    a request, which names a job, and the query of the job; any other requests,
    of other calls or of other clients, may come in between. *)
Inductive carried_out (order : ∀ A, list A → list A) :
    CloudstackServer → list event → CloudstackServer → Prop :=
  | carried_done s : carried_out order s [] s
  | carried_host e r q jobid s l s' :
      host_request e (Form r) →
      (ServeHTTP order None r s).2 = Ok (JobReply jobid false) →
      FormValue (Form q) "command" = "queryAsyncJobResult" → FormValue (Form q) "jobid" = jobid →
      carried_out order (ServeHTTP order None q (ServeHTTP order None r s).1).1 l s' →
      carried_out order s (e :: l) s'
  | carried_quiet r s l s' :
      no_host_job s (Form r) → carried_out order (ServeHTTP order None r s).1 l s' → carried_out order s l s'
  | carried_other e s l s' :
      ¬ host_call e → carried_out order s l s' → carried_out order s (e :: l) s'.

(** ** Creating and listing *)

Lemma Contains_refl s : Contains s s = true.
Proof.
  destruct s as [|a s]; [done|]. cbn [Contains]. apply orb_true_iff. left.
  change (HasPrefix (String a s) (String a s) = true). apply HasPrefix_spec. exists "". pose proof (drop_prefix_app (String a s) "") as H.
  by rewrite app_nil_r_str in H.
Qed.

Section listing.
Context (order : ∀ A, list A → list A).
Context (order_perm : ∀ A (l : list A), order A l ≡ₚ l).

(** No rule that the server would list lacks its identifier or its name. *)
Definition listable (s : CloudstackServer) : Prop :=
  ∀ k p r, lbRules s !! k = Some p → rules s !! p = Some r → is_text (Rule r) "id" ∧ is_text (Rule r) "name".

(** They can be listed when those that tests added under other names can. *)
Lemma listable_intro added k p r s :
  server_ok added s → lbRules s !! k = Some p → rules s !! p = Some r →
  is_text (Rule r) "id" ∧ is_text (Rule r) "name" →
  (∀ k' p' m, k' ≠ k → lbRules s !! k' = Some p' → added !! p' = Some m → is_text m "id" ∧ is_text m "name") →
  listable s.
Proof using Type.
  clear order_perm order. intros Hs Hk Hr Ht Hadd k' p' r' Hk' Hr'. destruct (decide (k' = k)) as [->|Hne]; [by simplify_eq|].
  destruct (added !! p') as [m|] eqn:Hm.
  - specialize (Hadd k' p' m Hne Hk' Hm). destruct (ok_added _ _ Hs p' m Hm) as (r1 & H1 & H2).
    simplify_eq. unfold is_text. by rewrite !H2.
  - pose proof (ok_typed _ _ Hs p' r' Hr' Hm). by split; apply typed_string; [|set_solver| |set_solver].
Qed.

Lemma list_by_name added k p r form s :
  server_ok added s → listable s → lbRules s !! k = Some p → rules s !! p = Some r →
  Rule r !! "name" = Some (RStr k) → FormValue form "keyword" = k → k ≠ "" →
  wp (serve_listLoadBalancerRules order form) (λ res _,
    ∃ l m, res = Ok (RulesReply (length l) l) ∧ m ∈ l ∧ same_entries m (Rule r)) s.
Proof using order_perm.
  intros Hs Hlist Hk Hr Hn Hkw Hne. unfold serve_listLoadBalancerRules. apply wp_get. rewrite Hkw. apply wp_bind.
  apply (wp_collect (listing_of added s) (λ x bs, x = (k, p) → ∃ m, m ∈ bs ∧ same_entries m (Rule r))).
  - by apply listing_refl.
  - intros [k' p'] s' Hin Hl. rewrite order_perm, elem_of_map_to_list in Hin.
    destruct (ok_named _ _ Hs k' p' Hin) as (r1 & Hr1 & _), (Hlist k' p' r1 Hin Hr1) as [Hid Hname].
    eapply wp_mono; [by eapply list_rule_listing|]. intros res s2 [Hl2 Hres]. split; [done|].
    destruct res as [bs|e|x|]; try done; [|destruct Hres as [?|[? _]]; done].
    destruct Hres as [_ Hm]. exists bs. split; [done|]. intros [= -> ->]. simplify_eq.
    apply Hm; [done|]. eexists. by rewrite Contains_refl.
  - intros bss s' _ HF. cbn [on_ok]. apply wp_ret.
    assert ((k, p) ∈ order _ (map_to_list (lbRules s))) as Hin by by rewrite order_perm, elem_of_map_to_list.
    apply list_elem_of_lookup_1 in Hin as [i Hi].
    destruct (Forall2_lookup_l _ _ _ _ _ HF Hi) as (bs & Hbs & HR).
    destruct (HR eq_refl) as (m & Hm & Hb). exists (concat bss), m. split_and!; [done| |done].
    apply list_elem_of_In, in_concat. exists bs. rewrite <- !list_elem_of_In.
    split; [by eapply list_elem_of_lookup_2|done].
Qed.
End listing.

(** *** A rule that is created *)

Lemma Join_not_nil (l : list string) : l ≠ [] → Forall (λ w, w ≠ "") l → Join l "," ≠ "".
Proof.
  intros Hl HF. destruct l as [|w l]; [done|]. apply Forall_cons in HF as [Hw _].
  destruct w; [done|]. by destruct l.
Qed.

Lemma additionalPorts_not_nil ps : Forall (λ w, w ≠ "") (additionalPorts ps).
Proof.
  rewrite additionalPorts_perm. apply Forall_fmap, Forall_true. intros p Hp.
  assert (has_byte ":" (port_pair p) = true) as H; [|by rewrite Hp in H].
  unfold port_pair. rewrite !has_byte_app. by destruct (has_byte ":" (Itoa _)).
Qed.

Lemma new_entries_text form n a k : k ∈ ["name"; "protocol"; "privateport"; "publicport"] →
  new_entries form n a !! k = Some (RStr (FormValue form k)).
Proof.
  intros Hk. unfold new_entries. cbv zeta.
  repeat (apply elem_of_cons in Hk as [->|Hk]; [by case_decide|]). by apply elem_of_nil in Hk.
Qed.

(** The entries of a rule made from the parameters of a balancer describe it. *)
Lemma entries_reusable lb ps form n a m
    (Hover : Forall (not_overridden (service lb))
               ["name"; "protocol"; "privateport"; "publicport"; "additionalportmap"])
    (Hform : sends form "createLoadBalancerRule" (create_params lb ps))
    (Hm : same_entries m (new_entries form n a)) :
  reusable lb (decode m) ps.
Proof.
  destruct (create_params_entries lb ps Hover) as (E1 & E2 & E3 & E4 & E5).
  destruct Hform as [_ Hform]. unfold param_text in Hform.
  pose proof (Hform "name" ltac:(set_solver)) as F1. rewrite E1 in F1.
  pose proof (Hform "protocol" ltac:(set_solver)) as F2. rewrite E2 in F2.
  pose proof (Hform "privateport" ltac:(set_solver)) as F3. rewrite E3 in F3.
  pose proof (Hform "publicport" ltac:(set_solver)) as F4. rewrite E4 in F4.
  pose proof (Hform "additionalportmap" ltac:(set_solver)) as F5. rewrite E5 in F5.
  apply reusable_intro; cbn [decode lbr_Name lbr_Protocol Privateport Publicport AdditionalPortMap];
    unfold rstr; rewrite Hm by done.
  1-4: rewrite new_entries_text by set_solver; congruence.
  unfold new_entries. cbv zeta. rewrite F5.
  destruct (decide (additionalPorts ps = [])) as [->|Hne]; [done|].
  rewrite decide_False by (by apply Join_not_nil, additionalPorts_not_nil).
  rewrite lookup_insert_eq. by rewrite additional_ports_roundtrip.
Qed.

Lemma serve_cmd order r s cmd : FormValue (Form r) "command" = cmd →
  ServeHTTP order None r s =
    dispatch order cmd (Form r) (set_Calls (Calls s ++ [{| call_Command := cmd; call_Params := URL_Query r |}]) s).
Proof. by intros <-. Qed.

(** The query of a job that does not panic. *)
Lemma query_job order r s j s' a :
  FormValue (Form r) "command" = "queryAsyncJobResult" → Jobs s !! FormValue (Form r) "jobid" = Some j →
  (let s1 := set_Calls (Calls s ++
     [{| call_Command := "queryAsyncJobResult"; call_Params := URL_Query r |}]) s in
   run_job order j s1 = (s', Ok a)) →
  ServeHTTP order None r s = (s', Ok (ResultReply 1 a)).
Proof.
  intros Hcmd Hj Hrun. rewrite (serve_cmd order r s _ Hcmd). cbv zeta in Hrun.
  revert Hrun. set (s1 := set_Calls _ s). intros Hrun.
  change (dispatch order "queryAsyncJobResult" (Form r) s1) with
    (serve_queryAsyncJobResult order (Form r) s1).
  unfold serve_queryAsyncJobResult, mbind, M_bind, get. change (Jobs s1) with (Jobs s).
  by rewrite Hj, Hrun.
Qed.

Lemma run_JobCreateRule order k p r s : rules s !! p = Some r →
  run_job order (JobCreateRule k p) s =
    (set_lbRules (<[k := p]> (lbRules s)) s, Ok (RuleReply (Rule r))).
Proof.
  intros Hr. cbn [run_job]. unfold run_create_rule. unfold mbind, M_bind, modify, get. cbn [rules set_lbRules]. by rewrite Hr.
Qed.

(** A successful creation: the reply names a job, and the job knows the rule. *)
Lemma create_wp form s a :
  lbRules s !! FormValue form "name" = None → ips s !! FormValue form "publicipid" = Some a →
  ip_Id a ≠ "" →
  wp (serve_createLoadBalancerRule "createLoadBalancerRule" form) (λ res s', ∃ m p n,
    res = Ok (RuleReply m) ∧
    Jobs s' !! rstr m "jobid" = Some (JobCreateRule (FormValue form "name") p) ∧
    Rule <$> rules s' !! p = Some (new_entries form n (Ipaddress a)) ∧
    lbRules s' = lbRules s) s.
Proof.
  intros Hfree Ha Hid. unfold serve_createLoadBalancerRule. cbv zeta. apply wp_get. rewrite Hfree.
  apply newID_wp. cbv zeta. apply wp_deref; [|by rewrite Ha]. intros a' Ha'. simplify_eq.
  rewrite decide_False by done. unfold new_rule. apply wp_bind, wp_get. cbv zeta. apply wp_modify, wp_ret.
  cbn [on_ok]. unfold start_job. apply wp_modify, wp_ret. do 3 eexists. split; [done|].
  cbn. split; [by apply lookup_insert_eq|]. rewrite lookup_insert_eq. by split.
Qed.

(** (C20) The test server does what the check of rules relies on: a rule that is
    created with the parameters of a balancer is, once its job has been queried,
    listed under the balancer's name as one that the check keeps.  Of the rules
    that tests have added it asks no more than that they can be listed: that
    their identifiers and names are strings. *)
Theorem server_creates_reusable order lb ps added s a create
    (Ho : ∀ A (l : list A), order A l ≡ₚ l) (Hs : fake_reachable added s)
    (Hlisted : ∀ k p m, lbRules s !! k = Some p → added !! p = Some m → is_text m "id" ∧ is_text m "name")
    (Hover : Forall (not_overridden (service lb))
       ["name"; "protocol"; "privateport"; "publicport"; "additionalportmap"])
    (Hip : not_overridden (service lb) "publicipid")
    (Hname : lb_name lb ≠ "") (Hfree : lbRules s !! lb_name lb = None)
    (Ha : ips s !! id (ip lb) = Some a) (Hid : id (ip lb) ≠ "")
    (Hcreate : sends (Form create) "createLoadBalancerRule" (create_params lb ps)) :
  ∃ m, (ServeHTTP order None create s).2 = Ok (RuleReply m) ∧
  let s1 := (ServeHTTP order None create s).1 in
  ∀ query, FormValue (Form query) "command" = "queryAsyncJobResult" →
    FormValue (Form query) "jobid" = rstr m "jobid" →
  let s2 := (ServeHTTP order None query s1).1 in
  ∀ listing, FormValue (Form listing) "command" = "listLoadBalancerRules" →
    FormValue (Form listing) "keyword" = lb_name lb →
  ∃ l m', (ServeHTTP order None listing s2).2 = Ok (RulesReply (length l) l) ∧ m' ∈ l ∧
    reusable lb (decode m') ps.
Proof.
  destruct (create_params_entries lb ps Hover) as (E1 & _).
  destruct Hcreate as [Hcmd Hform].
  assert (FormValue (Form create) "name" = lb_name lb) as Fn.
  { rewrite Hform by set_solver. unfold param_text. by rewrite E1. }
  assert (FormValue (Form create) "publicipid" = id (ip lb)) as Fi.
  { rewrite Hform by set_solver. unfold param_text. by rewrite (create_params_ip lb ps Hip). }
  pose proof (fake_reachable_ok added s Hs) as Hok.
  assert (ip_Id a = id (ip lb)) as Hida by (by apply (ok_ips added s Hok)).
  pose proof (proj1 (ServeHTTP_outcome order None create added s Ho Hok)) as Hok1.
  cbn [fmap option_fmap option_map added_by_hook] in Hok1.
  rewrite (serve_cmd order create s _ Hcmd) in Hok1 |- *.
  set (s0 := set_Calls _ s) in *.
  change (dispatch order "createLoadBalancerRule" (Form create) s0) with
    (serve_createLoadBalancerRule "createLoadBalancerRule" (Form create) s0) in *.
  pose proof (create_wp (Form create) s0 a) as Hwp.
  rewrite Fn, Fi in Hwp. specialize (Hwp Hfree Ha ltac:(by rewrite Hida)).
  unfold wp in Hwp. revert Hwp Hok1.
  generalize (serve_createLoadBalancerRule "createLoadBalancerRule" (Form create) s0).
  intros [s1 res]. cbn [fst snd]. intros (m & p & n & -> & Hjob & Hrule & Hrules) Hok1.
  exists m. split; [done|]. intros query Hq Hjobid.
  pose proof (proj1 (ServeHTTP_outcome order None query added s1 Ho Hok1)) as Hok2.
  cbn [fmap option_fmap option_map added_by_hook] in Hok2.
  apply fmap_Some in Hrule as (r & Hr & Hent). rewrite <- Hjobid in Hjob.
  rewrite (query_job order query s1 _ _ _ Hq Hjob (run_JobCreateRule order _ p r (set_Calls _ s1) Hr)) in Hok2 |- *.
  cbn [fst snd lbRules set_Calls] in *.
  intros listing Hl Hkw. rewrite (serve_cmd order listing _ _ Hl).
  change (dispatch order "listLoadBalancerRules" ?f ?x) with (serve_listLoadBalancerRules order f x).
  pose proof (new_entries_name (Form create) n (Ipaddress a)) as Hn. rewrite Fn, Hent in Hn.
  edestruct (list_by_name order Ho added (lb_name lb) p r (Form listing)) as (l & m' & Hres & Hm' & Hb);
    [by apply ok_Calls| |by apply lookup_insert_eq|done..|].
  - apply (listable_intro added (lb_name lb) p r); [by apply ok_Calls|by apply lookup_insert_eq|done| |].
    + split; [|by eexists]. rewrite <- Hent. eexists. apply new_entries_id.
    + intros k' p' m'. cbn [lbRules set_Calls set_lbRules]. intros Hne. rewrite lookup_insert_ne, Hrules by done.
      apply Hlisted.
  - exists l, m'. split_and!; [exact Hres|exact Hm'|].
    eapply entries_reusable; [done|by split|]. by rewrite Hent.
Qed.

(** *** The machines of a rule *)

Lemma form_vms_ids form cmd rid ids : host_form form cmd rid ids → form_vms form = ids.
Proof.
  intros (_ & _ & Hids & HF). unfold form_vms. rewrite Hids.
  destruct (decide (ids = [])) as [->|Hne]; [done|].
  rewrite decide_False by (apply Join_not_nil; [done|]; eapply Forall_impl; [exact HF|naive_solver]).
  apply Split_Join; [done|]. eapply Forall_impl; [exact HF|naive_solver].
Qed.

Lemma assigned_lookup (ids : list string) (m : gmap string (list string)) rid rid' :
  default [] (foldl (λ m i, <[rid := default [] (m !! rid) ++ [i]]> m) m ids !! rid') =
    default [] (m !! rid') ++ if decide (rid = rid') then ids else [].
Proof.
  revert m. induction ids as [|i ids IH]; intros m; simpl.
  - case_decide; by rewrite app_nil_r.
  - rewrite IH. case_decide as Hr.
    + subst rid'. rewrite lookup_insert_eq. simpl. by rewrite <- app_assoc.
    + by rewrite lookup_insert_ne.
Qed.

Section hosts_carried.
Context (order : ∀ A, list A → list A).

Lemma deferred_run cmd prefix mk s : ∃ s1 jobid,
  deferred cmd prefix mk s = (s1, Ok (JobReply jobid false)) ∧
  Jobs s1 !! jobid = Some (mk jobid) ∧ vms s1 = vms s.
Proof.
  unfold deferred, newID, start_job, mbind, M_bind, get, modify, mret, M_ret. cbv beta iota zeta.
  do 2 eexists. split; [reflexivity|]. split; [by apply lookup_insert_eq|done].
Qed.

(** The request registers the job, and its query carries it out. *)
Lemma serve_deferred s r q jobid mk prefix cmd (P : CloudstackServer → Prop) :
  FormValue (Form r) "command" = cmd →
  (∀ s, dispatch order cmd (Form r) s = deferred cmd prefix mk s) →
  (ServeHTTP order None r s).2 = Ok (JobReply jobid false) →
  FormValue (Form q) "command" = "queryAsyncJobResult" → FormValue (Form q) "jobid" = jobid →
  (∀ s', vms s' = vms s → ∃ s'' a, run_job order (mk jobid) s' = (s'', Ok a) ∧ P s'') →
  P (ServeHTTP order None q (ServeHTTP order None r s).1).1.
Proof.
  intros Hcmd Hdef. rewrite (serve_cmd order r s cmd Hcmd), Hdef.
  destruct (deferred_run cmd prefix mk (set_Calls (Calls s ++
    [{| call_Command := cmd; call_Params := URL_Query r |}]) s)) as (s1 & j & -> & Hj & Hvms).
  cbn [fst snd]. intros [= ->] Hq Hjob Hrun. rewrite <- Hjob in Hj at 1.
  edestruct (Hrun (set_Calls (Calls s1 ++
     [{| call_Command := "queryAsyncJobResult"; call_Params := URL_Query q |}]) s1))
    as (s2 & a & Hs2 & HP); [exact Hvms|].
  by rewrite (query_job order q s1 (mk jobid) s2 a Hq Hj Hs2).
Qed.

Lemma host_step_carried e r q jobid s rid :
  host_request e (Form r) → (ServeHTTP order None r s).2 = Ok (JobReply jobid false) →
  FormValue (Form q) "command" = "queryAsyncJobResult" → FormValue (Form q) "jobid" = jobid →
  (list_to_set (machines (ServeHTTP order None q (ServeHTTP order None r s).1).1 rid) : gset string) =
    host_step rid (list_to_set (machines s rid)) e.
Proof.
  unfold host_request, host_step. destruct e as [A []]; simpl; try done;
    intros Hf Hr Hq Hjob; pose proof (form_vms_ids _ _ _ _ Hf) as Hids;
    destruct Hf as (Hcmd & Hid & _).
  - apply (serve_deferred s r q jobid (λ j, JobAssign j id vms) "job-host-assign-" _
             (λ s', list_to_set (machines s' rid) = _) Hcmd); [|done..|].
    { intros s0. by rewrite <- Hid, <- Hids. }
    intros s' Hvms. do 2 eexists. split; [done|]. unfold machines. cbn [Fake.vms set_vms].
    rewrite Hvms, assigned_lookup, list_to_set_app_L. case_decide; set_solver.
  - apply (serve_deferred s r q jobid (λ j, JobRemove j id (list_to_set vms)) "job-host-remove-" _
             (λ s', list_to_set (machines s' rid) = _) Hcmd); [|done..|].
    { intros s0. by rewrite <- Hid, <- Hids. }
    intros s' Hvms. do 2 eexists. split; [done|]. unfold machines. cbn [Fake.vms set_vms].
    rewrite Hvms. case_decide as Hrid.
    + subst rid. rewrite lookup_insert_eq. simpl. apply set_eq. intros i.
      rewrite elem_of_list_to_set, list_elem_of_filter. set_solver.
    + by rewrite lookup_insert_ne.
Qed.
End hosts_carried.

(** Everything but those two jobs leaves the machines alone. *)
Definition same_vms (s s' : CloudstackServer) : Prop := vms s' = vms s.

#[local] Instance same_vms_preorder : PreOrder same_vms.
Proof. split; [done|]. unfold same_vms. intros s1 s2 s3. congruence. Qed.

Lemma keep_modify (f : CloudstackServer → CloudstackServer) :
  (∀ s, vms (f s) = vms s) → preserves same_vms (modify f).
Proof. intros Hf s. apply Hf. Qed.

Lemma keep_collect {A B} (f : A → M CloudstackServer (list B)) l :
  (∀ x, preserves same_vms (f x)) → preserves same_vms (collect f l).
Proof. intros Hf. induction l; cbn [collect]; preserve. Qed.

#[local] Hint Resolve keep_modify keep_collect : ccm.
Lemma put_rule_keeps p r : preserves same_vms (put_rule p r).
Proof. by apply keep_modify. Qed.
Lemma start_job_keeps i j : preserves same_vms (start_job i j).
Proof. by apply keep_modify. Qed.
Lemma rule_of_keeps k : preserves same_vms (rule_of k).
Proof. unfold rule_of. preserve. Qed.
Lemma as_string_keeps x : preserves same_vms (as_string x).
Proof. unfold as_string. preserve. Qed.
Lemma newID_keeps cmd : preserves same_vms (newID cmd).
Proof. unfold newID. preserve. Qed.
Lemma lbNameByID_keeps order i : preserves same_vms (lbNameByID order i).
Proof. unfold lbNameByID. preserve. Qed.
#[local] Hint Resolve put_rule_keeps start_job_keeps rule_of_keeps as_string_keeps newID_keeps
  lbNameByID_keeps : ccm.

Lemma deferred_keeps cmd prefix mk : preserves same_vms (deferred cmd prefix mk).
Proof. unfold deferred. preserve. Qed.
#[local] Hint Resolve deferred_keeps : ccm.

Lemma run_job_keeps order j :
  match j with JobAssign _ _ _ | JobRemove _ _ _ => False | _ => True end →
  preserves same_vms (run_job order j).
Proof. intros Hj. destruct j; try done; cbn [run_job run_associate run_disassociate run_update_rule run_update_pool run_create_rule
    run_create_tags run_delete_tags run_assign run_remove run_delete_rule]; preserve. Qed.

Lemma list_rule_keeps kw q np : preserves same_vms (list_rule kw q np).
Proof. unfold list_rule. preserve. Qed.
Lemma list_ip_keeps a i q np : preserves same_vms (list_ip a i q np).
Proof. unfold list_ip. preserve. Qed.
Lemma createDefaultLBPools_keeps order i : preserves same_vms (createDefaultLBPools order i).
Proof. unfold createDefaultLBPools. preserve. Qed.
Lemma create_keeps cmd form : preserves same_vms (serve_createLoadBalancerRule cmd form).
Proof. unfold serve_createLoadBalancerRule, new_rule, error_reply. preserve. Qed.
#[local] Hint Resolve list_rule_keeps list_ip_keeps createDefaultLBPools_keeps create_keeps : ccm.

Lemma dispatch_keeps order cmd form :
  cmd ≠ "queryAsyncJobResult" → preserves same_vms (dispatch order cmd form).
Proof.
  intros Hcmd. unfold dispatch. repeat (case_decide; [|]); try done.
  all: unfold serve_listVirtualMachines, serve_listLoadBalancerRules, serve_listGloboNetworkPools,
    serve_listNetworks, serve_listPublicIpAddresses, serve_associateIpAddress,
    serve_disassociateIpAddress, serve_updateLoadBalancerRule, serve_updateGloboNetworkPool,
    serve_createTags, serve_deleteTags, serve_assignToLoadBalancerRule,
    serve_removeFromLoadBalancerRule, serve_listTags, serve_listLoadBalancerRuleInstances, error_reply;
    preserve.
Qed.

Lemma no_host_job_keeps order r s : no_host_job s (Form r) → vms (ServeHTTP order None r s).1 = vms s.
Proof.
  intros Hq. destruct (decide (FormValue (Form r) "command" = "queryAsyncJobResult")) as [Hc|Hc].
  - rewrite (serve_cmd order r s _ Hc). set (s1 := set_Calls _ s).
    change (vms s) with (vms s1).
    change (same_vms s1 (serve_queryAsyncJobResult order (Form r) s1).1).
    unfold serve_queryAsyncJobResult. cbv zeta. unfold mbind at 1, M_bind at 1, get.
    destruct (Jobs s1 !! _) as [j|] eqn:Hj; [|done].
    apply preserves_bind; [apply _| |by preserve]. apply run_job_keeps. by apply (Hq Hc).
  - rewrite (serve_cmd order r s _ eq_refl). exact (dispatch_keeps order _ (Form r) Hc _).
Qed.

(** (C35) The machines that the test server keeps for a rule are those that the
    assignments and removals of the log add up to: the reading of a log of calls
    that the theorems on synchronisation use is the server's own. *)
Theorem server_machines order s l s' rid (Hcarried : carried_out order s l s') :
  (list_to_set (machines s' rid) : gset string) =
    hosts_after rid (list_to_set (machines s rid)) l.
Proof.
  induction Hcarried as [s|e r q jobid s l s' He Hr Hq Hjob _ IH|r s l s' Hr _ IH|e s l s' He _ IH]; [done|..].
  - cbn. rewrite IH. f_equal. by eapply host_step_carried.
  - rewrite IH. unfold machines. by rewrite no_host_job_keeps.
  - cbn. by rewrite IH, host_step_other.
Qed.
