(* ===== verification/FakeWorld.v ===== *)
(** * The test server as a CloudStack

    A world in which the calls on the machines of rules are requests to the
    server of fake/cloudstack.go, one request per call and, for a change, the
    query of its job; all other calls go to a world of their own.  The server
    keeps what [RuleHosts] and [Obliging] ask of CloudStack.  The requests are those of a client
    for the interface, which is not code of the repository; it refuses
    identifiers that its encoding would not bring across. *)
From Stdlib Require Import Ascii.
From stdpp Require Import base list strings gmap sets.
From S2P Require Import Prelude GoStd Kube Cloud Balancer Pages PublicIP Rule Hosts Converge Fake FakeSafety FakeClient.

Section world.
Context {B} (base : Cloud B) (order : ∀ A, list A → list A).

Definition request (l : list (string * string)) : http_request :=
  let form : values := list_to_map ((λ kv, (kv.1, [kv.2])) <$> l) in
  {| URL_Query := form; Form := form |}.

Definition refused : error := ApiError "refused".

Definition plain (i : string) : Prop := i ≠ "" ∧ has_byte "," i = false.

(** A change: the request, and the query of the job that it names. *)
Definition host_exec (cmd rid : string) (ids : list string) (s : CloudstackServer) :
    CloudstackServer * (error + unit) :=
  if decide (Forall plain ids) then
    let '(s1, r) := ServeHTTP order None
      (request [("command", cmd); ("id", rid); ("virtualmachineids", Join ids ",")]) s in
    match r with
    | Ok (JobReply jobid _) =>
        ((ServeHTTP order None (request [("command", "queryAsyncJobResult"); ("jobid", jobid)]) s1).1, inr tt)
    | _ => (s1, inl refused)
    end
  else (s, inl refused).

Definition machine (i : string) : VirtualMachine := {|
  vm_Id := i; vm_Name := ""; Hostname := ""; vm_Nic := []; vm_Publicip := ""; Zonename := "";
  vm_State := ""; Serviceofferingid := ""; Serviceofferingname := "" |}.

Definition list_exec (p : ListLoadBalancerRuleInstancesParams) (s : CloudstackServer) :
    CloudstackServer * (error + page VirtualMachine) :=
  let '(s1, r) := ServeHTTP order None
    (request [("command", "listLoadBalancerRuleInstances"); ("id", li_Id p);
              ("page", Itoa (default 1%Z (li_Page p)))]) s in
  (s1, match r with
       | Ok (InstancesReply n ids) => inr {| Count := Z.of_nat n; Items := machine <$> ids |}
       | _ => inl refused
       end).

Definition server_exec {A} (e : ev A) (w : CloudstackServer * B) : CloudstackServer * B * A :=
  match e in ev A return ev A → CloudstackServer * B * A with
  | ListLoadBalancerRuleInstances _ p => λ _, let '(s, a) := list_exec p w.1 in ((s, w.2), a)
  | AssignToLoadBalancerRule _ rid ids => λ _,
      let '(s, a) := host_exec "assignToLoadBalancerRule" rid ids w.1 in ((s, w.2), a)
  | RemoveFromLoadBalancerRule _ rid ids => λ _,
      let '(s, a) := host_exec "removeFromLoadBalancerRule" rid ids w.1 in ((s, w.2), a)
  | _ => λ e, let '(b, a) := @exec B base _ e w.2 in ((w.1, b), a)
  end e.

Definition server_shuffle {A} (l : list A) (w : CloudstackServer * B) : CloudstackServer * B * list A :=
  let '(b, l') := @shuffle B base _ l w.2 in ((w.1, b), l').

Lemma server_shuffle_perm A (l : list A) w : (server_shuffle l w).2 ≡ₚ l.
Proof.
  unfold server_shuffle. pose proof (@shuffle_perm B base _ l w.2) as H.
  by destruct (@shuffle B base _ l w.2).
Qed.

Definition server_world : Cloud (CloudstackServer * B) := {|
  exec := @server_exec; shuffle := @server_shuffle; shuffle_perm := server_shuffle_perm;
  Unmarshal := @Unmarshal B base;
|}.

(** ** The server keeps its word *)

(** A change is answered with a job. *)
Lemma host_job cmd r s :
  FormValue (Form r) "command" = cmd → cmd = "assignToLoadBalancerRule" ∨ cmd = "removeFromLoadBalancerRule" →
  ∃ s1 jobid, ServeHTTP order None r s = (s1, Ok (JobReply jobid false)).
Proof.
  intros Hcmd Hhost. rewrite (serve_cmd order r s cmd Hcmd). set (s0 := set_Calls _ s).
  destruct Hhost as [->| ->].
  - change (dispatch order "assignToLoadBalancerRule" (Form r) s0) with
      (deferred "assignToLoadBalancerRule" "job-host-assign-"
        (λ jobid, JobAssign jobid (FormValue (Form r) "id") (form_vms (Form r))) s0).
    destruct (deferred_run "assignToLoadBalancerRule" "job-host-assign-"
      (λ jobid, JobAssign jobid (FormValue (Form r) "id") (form_vms (Form r))) s0) as (s1 & j & -> & _).
    by exists s1, j.
  - change (dispatch order "removeFromLoadBalancerRule" (Form r) s0) with
      (deferred "removeFromLoadBalancerRule" "job-host-remove-"
        (λ jobid, JobRemove jobid (FormValue (Form r) "id") (list_to_set (form_vms (Form r)))) s0).
    destruct (deferred_run "removeFromLoadBalancerRule" "job-host-remove-"
      (λ jobid, JobRemove jobid (FormValue (Form r) "id") (list_to_set (form_vms (Form r)))) s0) as (s1 & j & -> & _).
    by exists s1, j.
Qed.

Lemma host_exec_ok cmd rid ids s :
  cmd = "assignToLoadBalancerRule" ∨ cmd = "removeFromLoadBalancerRule" → Forall plain ids →
  ∃ s', host_exec cmd rid ids s = (s', inr tt).
Proof.
  intros Hcmd Hplain. unfold host_exec. rewrite decide_True by done. set (r := request _).
  destruct (host_job cmd r s eq_refl Hcmd) as (s1 & jobid & ->). by eexists.
Qed.

Lemma host_exec_machines cmd rid ids s s' (e : event) rid' :
  (∀ form, host_form form cmd rid ids → host_request e form) →
  host_exec cmd rid ids s = (s', inr tt) →
  cmd = "assignToLoadBalancerRule" ∨ cmd = "removeFromLoadBalancerRule" →
  (list_to_set (machines s' rid') : gset string) = host_step rid' (list_to_set (machines s rid')) e.
Proof.
  intros He Hexec Hcmd. unfold host_exec in Hexec. case_decide as Hplain; [|done].
  set (r := request _) in Hexec.
  assert (host_form (Form r) cmd rid ids) as Hform by (split_and!; [done..|exact Hplain]).
  destruct (host_job cmd r s eq_refl Hcmd) as (s1 & jobid & E). rewrite E in Hexec.
  injection Hexec as <-.
  pose proof (host_step_carried order e r (request [("command", "queryAsyncJobResult"); ("jobid", jobid)])
    jobid s rid' (He _ Hform)) as H. rewrite E in H. by apply H.
Qed.

Lemma list_exec_ok p s : ∃ s' pg, list_exec p s = (s', inr pg).
Proof.
  unfold list_exec. set (r := request _).
  rewrite (serve_cmd order r s "listLoadBalancerRuleInstances" eq_refl). set (s0 := set_Calls _ s).
  change (dispatch order "listLoadBalancerRuleInstances" (Form r) s0) with
    (serve_listLoadBalancerRuleInstances (Form r) s0).
  unfold serve_listLoadBalancerRuleInstances. case_decide; by do 2 eexists.
Qed.

Lemma list_exec_machines p s s' pg n m :
  list_exec p s = (s', inr pg) → li_Page p = Some n → page_of false n m (machines s (li_Id p)) pg.
Proof.
  unfold list_exec, page_of. intros Hexec Hn ->. rewrite Hn in Hexec. cbn [default] in Hexec.
  set (r := request _) in Hexec.
  rewrite (serve_cmd order r s "listLoadBalancerRuleInstances" eq_refl) in Hexec.
  set (s0 := set_Calls _ s) in Hexec.
  change (dispatch order "listLoadBalancerRuleInstances" (Form r) s0) with
    (serve_listLoadBalancerRuleInstances (Form r) s0) in Hexec.
  assert (FormValue (Form r) "page" = "1") as Hpage by by vm_compute.
  assert (FormValue (Form r) "id" = li_Id p) as Hid by done.
  unfold serve_listLoadBalancerRuleInstances in Hexec. rewrite Hpage, Hid in Hexec.
  rewrite decide_False in Hexec by by vm_compute.
  injection Hexec as _ <-. cbn [Count Items]. split; [done|].
  rewrite <- list_fmap_compose. apply list_fmap_id.
Qed.

Lemma list_exec_vms p s : vms (list_exec p s).1 = vms s.
Proof.
  unfold list_exec. set (r := request _).
  assert (no_host_job s (Form r)) as H by done. apply (no_host_job_keeps order) in H.
  by destruct (ServeHTTP order None r s) as [s1 a].
Qed.

(** What the interface asks for. *)
Definition server_hosts : @RuleHosts (CloudstackServer * B) server_world.
Proof.
  refine (@Build_RuleHosts _ server_world (λ w rid, machines w.1 rid) false _ _ _ _ _).
  - intros c p w w' pg n m Hexec Hn _ _ _. cbn in Hexec.
    destruct (list_exec p w.1) as [s a] eqn:E. injection Hexec as _ ->. by eapply list_exec_machines.
  - intros c i ids w w' rid Hexec. cbn in Hexec. destruct (host_exec _ i ids w.1) as [s a] eqn:E.
    injection Hexec as <- ->. eapply host_exec_machines; [|exact E|by left]. by intros form.
  - intros c i ids w w' rid Hexec. cbn in Hexec. destruct (host_exec _ i ids w.1) as [s a] eqn:E.
    injection Hexec as <- ->. eapply host_exec_machines; [|exact E|by right]. by intros form.
  - intros A e [s b] Hh Hd.
    destruct e; try (exfalso; exact (Hh I)); cbn;
      lazymatch goal with
      | |- context [list_exec _ _] => idtac
      | |- context [match ?x with (_, _) => _ end] => by destruct x
      end.
    pose proof (list_exec_vms p s) as Hv. destruct (list_exec p s) as [s' a]. unfold machines. cbn in *. by rewrite Hv.
  - intros A l [s b]. cbn. unfold server_shuffle. cbn [snd fst]. destruct (shuffle l b). done.
Defined.

(** The server accepts the calls of an update, for plain identifiers, where the
    other world accepts networks and their jobs. *)
Definition server_obliging
    (Hnetworks : ∀ c cmd p r w, ∃ w' j, @exec B base _ (CustomRequest c cmd p KJob r) w = (w', inr j))
    (Hjobs : ∀ c j t w, ∃ w' d, @exec B base _ (GetAsyncJobResult c j t) w = (w', inr d)) :
  @Obliging (CloudstackServer * B) server_world.
Proof.
  refine (@Build_Obliging _ server_world plain _ _ _ _ _).
  - intros c p [s b]. destruct (list_exec_ok p s) as (s' & pg & H). exists (s', b), pg. cbn. by rewrite H.
  - intros c i ids [s b] Hids. destruct (host_exec_ok "assignToLoadBalancerRule" i ids s) as [s' H]; [by left|done|].
    exists (s', b). cbn. by rewrite H.
  - intros c i ids [s b] Hids. destruct (host_exec_ok "removeFromLoadBalancerRule" i ids s) as [s' H]; [by right|done|].
    exists (s', b). cbn. by rewrite H.
  - intros c cmd p r [s b]. destruct (Hnetworks c cmd p r b) as (b' & j & H). exists (s, b'), j.
    change ((let '(b1, a) := @exec B base _ (CustomRequest c cmd p KJob r) b in ((s, b1), a)) = ((s, b'), inr j)).
    by rewrite H.
  - intros c j t [s b]. destruct (Hjobs c j t b) as (b' & d & H). exists (s, b'), d. cbn. by rewrite H.
Defined.
End world.
