(* ===== verification/Demo.v ===== *)
(** * A small cluster

    A concrete configuration, service, rule and CloudStack, on which the
    definitions of the other files are run: each lemma applies one theorem of the
    development at a concrete input, where all its hypotheses hold. *)
From stdpp Require Import base list strings gmap sets.
From S2P Require Import Prelude GoStd Kube Cloud Config Meta Pages ServiceLock Balancer Ports PublicIP Rule Nodes Panics State Queue Workers Goroutines Handlers Interleaving HandlerPanics Instances Fake FakeSafety FakeClient Hosts Converge FakeWorld Ensure.

(** ** The cluster *)

Definition demo_client : client :=
  {| apiURL := "https://cs"; apiKey := "key"; secretKey := "secret"; verifySSL := true |}.

Definition demo_config : CSConfig := {|
  Global := Build_globalConfig "" "" "node-name" "project-id" "environment" 0 1 0;
  Environment := {[ "prod" := Build_environmentConfig "https://cs" "key" "secret" "7"
                                "cs.example.com" "proj" false true ]};
  Command := Build_commandConfig "acquireIP" "" "assignNetworks" "deleteRule";
  CommandArgs := ∅ |}.

Definition demo_cs : CSCloud := {|
  environments := {[ "prod" := {| env_client := Some demo_client;
                       env_manager := Some {| mgr_client := demo_client |};
                       lbEnvironmentID := "7"; lbDomain := "cs.example.com";
                       removeLBs := true |} ]};
  config := demo_config |}.

Definition demo_pc : projectCloud :=
  {| pc_cs := demo_cs; projectID := "proj"; environment := "prod" |}.

Definition demo_port (name proto : string) (port node_port : Z) : ServicePort :=
  {| sp_Name := name; sp_Protocol := proto; sp_Port := port;
     sp_TargetPort := FromInt 8080; sp_NodePort := node_port |}.

Definition demo_svc : Service := {|
  svc_meta := {| Name := "web"; Namespace := "shop";
                 Labels := Some {[ "environment" := "prod"; "project-id" := "proj" ]};
                 Annotations := ∅ |};
  Ports := [demo_port "https" "TCP" 443 30443; demo_port "http" "TCP" 80 30080];
  SessionAffinity := "None"; LoadBalancerIP := ""; Ingress := [] |}.

Definition demo_tags : list Tags :=
  [ {| Key := cloudProviderTag; Value := ProviderName |};
    {| Key := serviceTag; Value := "web" |}; {| Key := namespaceTag; Value := "shop" |} ].

Definition demo_rule : loadBalancerRule := {|
  lbr_Id := "rule-1"; lbr_Name := "web.cs.example.com"; lbr_Algorithm := "roundrobin";
  lbr_Cidrlist := ""; lbr_Networkid := "net-1"; Privateport := "30080"; Publicport := "80";
  Publicip := "10.0.0.9"; Publicipid := "ip-1"; Zoneid := "zone-1"; lbr_Protocol := "TCP";
  lbr_Tags := demo_tags; AdditionalPortMap := ["443:30443"] |}.

Definition demo_lb : loadBalancer := {|
  cloud := demo_pc; lb_name := "web.cs.example.com"; algorithm := "roundrobin";
  mainNetworkID := "net-1"; ip := {| id := "ip-1"; address := "10.0.0.9"; networkid := "net-1" |};
  rule := Some demo_rule; service := demo_svc |}.

Definition demo_ip (n : string) : PublicIpAddress :=
  {| ip_Id := n; Ipaddress := "10.0.0.9"; ip_Networkid := "net-1"; ip_Tags := demo_tags |}.

Definition demo_vm (n : string) : VirtualMachine := {|
  vm_Id := n; vm_Name := n; Hostname := n;
  vm_Nic := [{| nic_Networkid := "net-1"; nic_Ipaddress := "10.1.1.1" |}];
  vm_Publicip := ""; Zonename := "zone"; vm_State := "Running";
  Serviceofferingid := "offering-1"; Serviceofferingname := "small" |}.

Definition demo_node (n : string) : nodeInfo := {|
  ni_name := n; vmID := n; networkID := "net-1"; hostName := n; ni_projectID := "proj";
  environmentID := "prod"; filterValue := ""; ni_revision := 1 |}.

(** CloudStack has the rule, with machine "vm-1" behind it, three public IPs of
    the service in pages of two, and answers every change with success. *)
Definition demo_ips : list PublicIpAddress := [demo_ip "ip-1"; demo_ip "ip-2"; demo_ip "ip-1"].

Definition demo_pools : list globoNetworkPool :=
  [Build_globoNetworkPool 30053 53 "HTTP" "/" "" 1; Build_globoNetworkPool 30054 54 "HTTP" "/" "" 2].

Definition demo_answer (A : Type) (e : ev A) : A :=
  match e in ev A return A → A with
  | CustomRequest _ _ _ k r => λ _,
      match k return rtype k → error + rtype k with
      | KListRules => λ _, inr (1%Z, [demo_rule])
      | KListPools => λ _, inr (2%Z, demo_pools)
      | _ => inr
      end r
  | ListPublicIpAddresses _ p => λ _,
      match lp_Id p with
      | Some id => inr {| Count := 1; Items := [demo_ip id] |}
      | None =>
          let start := (Z.to_nat (default 1%Z (lp_Page p)) - 1) * 2 in
          inr {| Count := 3; Items := take 2 (drop start demo_ips) |}
      end
  | ListLoadBalancerRuleInstances _ _ => λ _, inr {| Count := 1; Items := [demo_vm "vm-1"] |}
  | ListVirtualMachines _ name _ => λ _, inr [demo_vm name]
  | GetVirtualMachineByID _ id _ => λ _, Build_got (Some (demo_vm id)) 1 None
  | GetNetworkByID _ id _ => λ _, Build_got (Some {| net_Id := id; Vpcid := "" |}) 1 None
  | UpdateLoadBalancerRule _ _ _ | AssignToLoadBalancerRule _ _ _
  | RemoveFromLoadBalancerRule _ _ _ | CreateTags _ _ _ _ | PatchService _ _ _ => λ _, inr tt
  | GetAsyncJobResult _ _ _ => λ _, inr JNull
  | Now => λ _, 1000%Z
  | _ => λ a, a
  end (no_answer e).

#[local] Instance demo_world : Cloud unit := oracle demo_answer.

Definition demo_env : env unit := Env tt [].
Definition demo_lbst : lbst unit := LB demo_env demo_lb.
Definition demo_registry : nodeRegistry := {|
  nodes := {[ "n1" := demo_node "vm-1"; "n2" := demo_node "vm-2" ]};
  svcNodes := {[ svcKey demo_svc := {[ "n1"; "n2" ]} ]}; revision := 1 |}.
Definition demo_entry : queueEntry := {|
  qe_service := demo_svc; qe_lb := Some demo_lb; updatePool := true; start := 10;
  backoffUntil := zero_time |}.
Definition demo_state : state unit :=
  St demo_env demo_registry {[ svcKey demo_svc := demo_entry ]} new_serviceLock.

Lemma demo_keyed : keyed (queue demo_state).
Proof.
  intros k e Hk. cbn [queue demo_state] in Hk. by apply lookup_singleton_Some in Hk as [<- <-].
Qed.

Lemma demo_rest : at_rest demo_state.
Proof. by split; [apply demo_keyed|]. Qed.

Lemma demo_rules : queued_rules (queue demo_state).
Proof.
  intros k e lb Hk Hlb. cbn [queue demo_state] in Hk.
  apply lookup_singleton_Some in Hk as [<- <-]. injection Hlb as <-. by eexists.
Qed.

Lemma demo_inv : provider_inv demo_state.
Proof. split; [apply demo_rest|apply demo_rules]. Qed.

(** ** Searches *)

Lemma listAllPagesUnsafe_complete_witness :
  ∃ l, (listAllPagesUnsafe 2 demo_client 2 NewListPublicIpAddressesParams demo_env).2 = Ok l ∧
    NoDup (ip_Id <$> l) ∧ l ⊆+ demo_ips ∧ ∀ x, x ∈ demo_ips → ip_Id x ∈ ip_Id <$> l.
Proof.
  assert (serves_pages (W:=unit) demo_client (SetPagesize 2 NewListPublicIpAddressesParams) 2 demo_ips)
    as Hserve.
  { intros k w. cbn. by replace (Z.to_nat (Z.of_nat k + 1) - 1) with k by lia. }
  exact (listAllPagesUnsafe_complete demo_client NewListPublicIpAddressesParams 2 demo_ips 2 demo_env
           ltac:(lia) Hserve ltac:(lia) ltac:(simpl; lia)).
Defined.

Definition demo_requested : Service := {|
  svc_meta := svc_meta demo_svc; Ports := Ports demo_svc; SessionAffinity := "None";
  LoadBalancerIP := "10.0.0.9"; Ingress := [] |}.

Lemma getLoadBalancerIP_requested_witness :
  LoadBalancerIP demo_requested ≠ "" ∧
  logs reads_only demo_env (getLoadBalancerIP 3 demo_pc demo_requested "net-1" demo_env).1.
Proof.
  split; [done|].
  exact (proj1 (getLoadBalancerIP_requested 3 demo_pc demo_requested "net-1" demo_env ltac:(done))).
Defined.

(** ** Tags *)

Lemma matchAllTags_counts_foreign_tags_witness :
  matchAllTags [ {| Key := serviceTag; Value := "web" |}; {| Key := "team"; Value := "" |};
                 {| Key := "stage"; Value := "" |} ] (tagsForService demo_svc) = true.
Proof.
  apply (matchAllTags_counts_foreign_tags demo_svc "team" "stage");
    first [by vm_compute|by apply (bool_decide_unpack _); vm_compute].
Defined.

Lemma shouldManageIP_spec_witness :
  shouldManageIP (demo_ip "ip-1") demo_svc = true ∧
  has_all (tagsForService demo_svc) (ip_Tags (demo_ip "ip-1")).
Proof.
  split; [by vm_compute|].
  apply (shouldManageIP_spec (demo_ip "ip-1") demo_svc);
    [by apply (bool_decide_unpack _); vm_compute| |by vm_compute].
  intros t Ht. repeat (apply elem_of_cons in Ht as [->|Ht]; [done|]). by apply elem_of_nil in Ht.
Defined.

(** ** Ports and rules *)

Lemma serviceToLBPorts_spec_witness :
  ∃ lp, (serviceToLBPorts demo_lbst).2 = Ok lp ∧ single_protocol (protocol lp) (Ports demo_svc) ∧
    publicPort <$> ports lp = [80; 443]%Z.
Proof.
  destruct (serviceToLBPorts_spec demo_lbst eq_refl) as (_ & _ & H). revert H.
  destruct (serviceToLBPorts demo_lbst).2 as [lp|err|p|] eqn:E.
  - intros (Hp & Hl & _). exists lp. split_and!; [done..|]. rewrite Hl. by vm_compute.
  - intros H. exfalso. apply (H "TCP"). split_and!; [done|by left|by repeat constructor].
  - done.
  - done.
Defined.

Definition demo_ports : lbPorts :=
  {| ports := [{| publicPort := 80; privatePort := 30080; lpi_name := "http" |};
               {| publicPort := 443; privatePort := 30443; lpi_name := "https" |}];
     protocol := "TCP" |}.

(** The ports of another service object, whose names differ. *)
Definition demo_unnamed : lbPorts :=
  {| ports := (λ p, {| publicPort := publicPort p; privatePort := privatePort p; lpi_name := "" |}) <$> ports demo_ports;
     protocol := "TCP" |}.

Lemma comparePorts_spec_witness :
  describes demo_rule demo_ports ∧
  port_numbers <$> tail (ports demo_ports) ≡ₚ port_numbers <$> tail (ports demo_unnamed).
Proof.
  destruct (comparePorts_spec demo_ports demo_rule) as (Hiff & _ & H). split.
  - apply Hiff. by vm_compute.
  - apply (H demo_unnamed); [done|done|by vm_compute..].
Defined.

Lemma created_rule_reusable_witness : reusable demo_lb demo_rule demo_ports.
Proof.
  apply (created_rule_reusable demo_lb demo_ports demo_rule).
  - by repeat constructor.
  - by split_and!; vm_compute.
Defined.

Lemma syncNodes_spec_witness :
  rule demo_lb = Some demo_rule ∧
  ∃ l, elog (lenv (syncNodes 1 ["vm-1"; "vm-2"] [] demo_lbst).1) = l ∧
    hosts_after (lbr_Id demo_rule) {[ "vm-1" ]} l = {[ "vm-1"; "vm-2" ]}.
Proof.
  split; [done|].
  destruct (syncNodes_spec 1 ["vm-1"; "vm-2"] [] demo_lbst demo_client demo_rule eq_refl eq_refl)
    as (_ & l & Hl & H).
  exists l. split; [exact Hl|].
  apply (proj1 (proj2 (proj2 H))). by vm_compute.
Defined.

(** A UDP service with a port that asks for a TCP check by its name, and its
    rule. *)
Definition udp_svc : Service := {|
  svc_meta := svc_meta demo_svc;
  Ports := [demo_port "dns" "UDP" 53 30053; demo_port "tcp-alive" "UDP" 54 30054];
  SessionAffinity := "None"; LoadBalancerIP := ""; Ingress := [] |}.
Definition udp_rule : loadBalancerRule := {|
  lbr_Id := "rule-2"; lbr_Name := "web.cs.example.com"; lbr_Algorithm := "roundrobin";
  lbr_Cidrlist := ""; lbr_Networkid := "net-1"; Privateport := "30053"; Publicport := "53";
  Publicip := "10.0.0.9"; Publicipid := "ip-1"; Zoneid := "zone-1"; lbr_Protocol := "UDP";
  lbr_Tags := demo_tags; AdditionalPortMap := ["54:30054"] |}.
Definition udp_lb : loadBalancer := set_rule (Some udp_rule) (set_service udp_svc demo_lb).
Definition udp_lbst : lbst unit := LB demo_env udp_lb.
Definition udp_ports : lbPorts := {| ports := node_port <$> Ports udp_svc; protocol := "UDP" |}.

Lemma updateLoadBalancerPool_requests_witness :
  (updateLoadBalancerPool udp_lbst).2 = Ok tt ∧
  ∃ listing, lb_logs (wanted_update udp_rule udp_ports udp_svc demo_pools)
    (LB (Env tt [listing]) udp_lb) (updateLoadBalancerPool udp_lbst).1.
Proof.
  split; [by vm_compute|]. eexists.
  exact (proj2 (updateLoadBalancerPool_requests udp_lbst demo_client udp_rule eq_refl eq_refl)).
Defined.

(** The update of the port with the TCP check is sent as a UDP one. *)
Definition demo_pool : globoNetworkPool := Build_globoNetworkPool 30053 53 "UDP" "" "" 1.

Definition udp_log : list event :=
  elog (update_pools demo_client udp_lb udp_rule udp_ports (tail (ports udp_ports))
          demo_pools (pool_params udp_rule demo_pool ∅) (rzero KUpdatePool) demo_env).1.

Lemma update_pools_keeps_udp_witness :
  length udp_log = 1 ∧ Forall (update_with "healthchecktype" (PStr "TCP")) udp_log ∧
  Forall (update_with "l4protocol" (PStr "UDP")) udp_log.
Proof.
  split_and!; [by vm_compute|by vm_compute; repeat constructor|].
  destruct (update_pools_keeps_udp demo_client udp_lb udp_rule udp_ports (tail (ports udp_ports))
              demo_pools ∅ (rzero KUpdatePool) demo_pool eq_refl demo_env) as (l & Hl & HF).
  change (udp_log = l) in Hl. rewrite Hl. eapply Forall_impl; [exact HF|]. by intros e (?&_).
Defined.

(** ** The queue *)

Lemma pop_spec_witness :
  ∃ e, (pop demo_state).2 = Ok (Some e) ∧
    queue (pop demo_state).1 = delete (svcKey (qe_service e)) (queue demo_state).
Proof.
  destruct (pop_spec demo_state demo_keyed) as (_ & _ & _ & H). revert H.
  assert ((pop demo_state).2 = Ok (Some demo_entry)) as -> by by vm_compute.
  intros (_ & Hq & _). exists demo_entry. split; [reflexivity|exact Hq].
Defined.

(** UpdateLoadBalancer pushes the service again while it waits: the pool flag
    of the waiting entry stays. *)
Definition demo_again : queueEntry := {|
  qe_service := demo_requested; qe_lb := None; updatePool := false; start := 1000;
  backoffUntil := zero_time |}.

Lemma push_spec_witness :
  ∃ new, queue (push demo_cs demo_again demo_state).1 !! svcKey demo_svc = Some new ∧
    qe_service new = demo_requested ∧ updatePool new = true ∧ start new = 10%Z.
Proof.
  destruct (push_spec demo_cs demo_again demo_state demo_keyed) as (_ & _ & _ & _ & H). revert H.
  assert (queue demo_state !! svcKey (qe_service demo_again) = Some demo_entry) as -> by by vm_compute.
  assert ((push demo_cs demo_again demo_state).2 = Ok tt) as -> by by vm_compute.
  intros (new & Hnew & Hs & _ & Hp & Hst & _). exists new.
  split_and!; [exact Hnew|exact Hs|exact Hp|exact Hst].
Defined.

(** An entry without a balancer: CloudStack shows it, and its rule is updated. *)
Lemma processQueueEntry_safe_witness :
  qe_lb demo_again = None ∧
  st_logs (touches "rule-1") demo_state (processQueueEntry demo_cs 5 demo_again demo_state).1 ∧
  Exists (λ e, ¬ reads_only e) (elog (genv (processQueueEntry demo_cs 5 demo_again demo_state).1)).
Proof.
  split; [done|]. split.
  2: { assert (last (elog (genv (processQueueEntry demo_cs 5 demo_again demo_state).1)) =
         Some (Ev (AssignToLoadBalancerRule demo_client "rule-1" ["vm-2"]))) as Hl by by vm_compute.
       apply Exists_exists. eexists. split; [by apply list_last_In, Hl|]. by intros []. }
  destruct (processQueueEntry_safe demo_cs 5 demo_again demo_state demo_rest
    ltac:(intros lb [=])) as (_ & H & _).
  unfold touched_managed in H.
  assert (lbr_Id <$> (entry_shown demo_cs demo_again demo_state ≫= entry_rule demo_again) = Some "rule-1") as Hr
    by by vm_compute.
  destruct (entry_shown demo_cs demo_again demo_state ≫= entry_rule demo_again) as [r|]; [|discriminate Hr].
  injection Hr as <-. exact H.
Defined.

Lemma worker_round_loses_nothing_witness :
  (worker_round demo_cs 5 false false NewTimer demo_state).2 = Ok (Selecting false NewTimer) ∧
  at_rest (worker_round demo_cs 5 false false NewTimer demo_state).1.
Proof.
  split; [by vm_compute|].
  pose proof (worker_round_loses_nothing demo_cs 5 false false NewTimer demo_state demo_rest demo_rules) as H.
  unfold wp, round_post in H.
  assert ((worker_round demo_cs 5 false false NewTimer demo_state).2 = Ok (Selecting false NewTimer)) as Hr
    by by vm_compute.
  rewrite Hr in H. apply H.
Defined.

(** Told to stop, the worker updates the service and ends. *)
Definition demo_wakeups : list (wakeup * bool) := [(StopCh, false); (Timer, true); (StopCh, false)].
Definition demo_stopped : state unit * res worker :=
  worker_loop demo_cs 5 (Selecting true NewTimer) demo_wakeups demo_state.

Lemma worker_drains_witness :
  demo_stopped.2 = Ok Returned ∧ at_rest demo_stopped.1 ∧
  (is_Some (queue demo_stopped.1 !! svcKey demo_svc) ∨ updated (svcKey demo_svc) demo_state demo_stopped.1 ∨
   ¬ served demo_cs demo_registry demo_svc).
Proof.
  pose proof (worker_drains demo_cs 5 demo_wakeups NewTimer demo_state demo_rest demo_rules
                ltac:(by eexists)) as H.
  assert (demo_stopped.2 = Ok Returned) as Hr by by vm_compute.
  split; [exact Hr|]. unfold wp in H. fold demo_stopped in H. rewrite Hr in H.
  destruct H as (Hrest & _ & _ & Hk & _). split; [exact Hrest|].
  exact (Hk (svcKey demo_svc) demo_entry ltac:(by vm_compute)).
Defined.

(** ** The load balancer interface *)

Lemma EnsureLoadBalancerDeleted_safe_witness :
  (EnsureLoadBalancerDeleted demo_cs (Some demo_svc) demo_state).2 = Ok tt ∧
  at_rest (EnsureLoadBalancerDeleted demo_cs (Some demo_svc) demo_state).1 ∧
  queue (EnsureLoadBalancerDeleted demo_cs (Some demo_svc) demo_state).1 = queue demo_state.
Proof.
  split; [by vm_compute|].
  destruct (EnsureLoadBalancerDeleted_safe demo_cs demo_svc demo_state demo_rest) as (H1 & _ & H2 & _).
  split; [exact H1|exact H2].
Defined.

Definition demo_k8s_node : Node := {|
  node_meta := {| Name := "vm-3"; Namespace := ""; Labels := None; Annotations := ∅ |};
  ProviderID := "" |}.

Lemma EnsureLoadBalancer_safe_witness :
  (EnsureLoadBalancer demo_cs 5 (Some demo_svc) [demo_k8s_node] demo_state).2 = Ok (lb_status demo_lb) ∧
  is_Some (queue (EnsureLoadBalancer demo_cs 5 (Some demo_svc) [demo_k8s_node] demo_state).1
             !! svcKey demo_svc).
Proof.
  assert ((EnsureLoadBalancer demo_cs 5 (Some demo_svc) [demo_k8s_node] demo_state).2
          = Ok (lb_status demo_lb)) as Hr by by vm_compute.
  split; [exact Hr|].
  exact (proj2 (proj2 (EnsureLoadBalancer_safe demo_cs 5 demo_svc [demo_k8s_node] demo_state demo_inv)) _ Hr).
Defined.

Lemma GetLoadBalancer_spec_witness :
  (GetLoadBalancer demo_cs (Some demo_svc) demo_state).2 = Ok (Some (lb_status demo_lb)) ∧
  st_logs reads_only demo_state (GetLoadBalancer demo_cs (Some demo_svc) demo_state).1.
Proof.
  destruct (GetLoadBalancer_spec demo_cs demo_svc demo_state demo_inv) as (_ & Hl & _ & H).
  split; [|exact Hl]. revert H.
  by assert ((getLoadBalancer demo_cs demo_svc "" [] (genv demo_state)).2 = Ok (set_algorithm "" demo_lb))
    as -> by by vm_compute.
Defined.

(** A provider that has just started gets a node and the endpoints of the
    service, and ensures it. *)
Definition demo_endpoints : Endpoints := {|
  ep_meta := {| Name := "web"; Namespace := "shop"; Labels := None; Annotations := ∅ |};
  Subsets := [{| Addresses := [{| NodeName := Some "vm-3" |}]; ep_Ports := [] |}] |}.
Definition demo_informed : state unit :=
  St demo_env (handleEndpoints (AddFunc (ObjEndpoints demo_endpoints)) newNodeRegistry) ∅ new_serviceLock.
Definition demo_ensured : state unit :=
  (EnsureLoadBalancer demo_cs 5 (Some demo_svc) [demo_k8s_node] demo_informed).1.

Lemma provider_reachable_inv_witness :
  is_Some (queue demo_ensured !! svcKey demo_svc) ∧
  queued_rules (queue demo_ensured) ∧ inUse (svcLock demo_ensured) = ∅.
Proof.
  split; [by vm_compute; eexists|].
  apply (provider_reachable_inv demo_cs demo_env demo_ensured).
  eapply rtc_l; [exact (step_endpoints demo_cs (AddFunc (ObjEndpoints demo_endpoints)) (provider_init demo_env))|].
  eapply rtc_l; [|apply rtc_refl].
  eapply (step_ensure demo_cs 5 demo_svc [demo_k8s_node] demo_informed demo_ensured (Ok (lb_status demo_lb)));
    [|done].
  assert ((EnsureLoadBalancer demo_cs 5 (Some demo_svc) [demo_k8s_node] demo_informed).2
          = Ok (lb_status demo_lb)) as Hr by by vm_compute.
  rewrite <- Hr. exact (surjective_pairing _).
Defined.

Lemma ensureRule_steady_witness :
  (ensureRule 5 demo_lbst).2 = Ok (lb_status demo_lb) ∧
  elog (lenv (ensureRule 5 demo_lbst).1) = [].
Proof.
  assert (¬ needs_project_label demo_lb) as Hlabel by (intros (_ & _ & H); vm_compute in H; discriminate H).
  assert (single_protocol "TCP" (Ports demo_svc)) as Hports
    by (split_and!; [done|by left|by repeat constructor]).
  assert (reusable demo_lb demo_rule
            {| ports := node_port <$> sortPorts (Ports demo_svc); protocol := "TCP" |}) as Hre
    by (unfold reusable, describes; split_and!; vm_compute; reflexivity).
  destruct (ensureRule_steady 5 demo_lbst demo_rule "TCP" eq_refl eq_refl Hlabel eq_refl eq_refl
              (or_introl eq_refl) eq_refl Hports Hre eq_refl) as [Hr He].
  split; [exact Hr|rewrite He; reflexivity].
Defined.

(** A port of the service was dropped: its rule is replaced. *)
Definition changed_svc : Service := {|
  svc_meta := svc_meta demo_svc; Ports := [demo_port "http" "TCP" 80 30080]; SessionAffinity := "None";
  LoadBalancerIP := ""; Ingress := [] |}.
Definition demo_changed : state unit * res LoadBalancerStatus :=
  EnsureLoadBalancer demo_cs 5 (Some changed_svc) [demo_k8s_node] demo_informed.

Lemma EnsureLoadBalancer_establishes_witness :
  length (rule_requests (elog (genv demo_changed.1))) = 2 ∧
  ∃ c lb r, qe_lb <$> queue demo_changed.1 !! svcKey demo_svc = Some (Some lb) ∧ rule lb = Some r ∧
    created_by "TCP" c lb r ∧ all_tagged c lb r (elog (genv demo_changed.1)).
Proof.
  assert (length (rule_requests (elog (genv demo_changed.1))) = 2) as Hlen by by vm_compute.
  assert (plain_service "TCP" changed_svc) as Hports
    by (split; [done|split_and!; [done|by left|by repeat constructor]]).
  pose proof (EnsureLoadBalancer_establishes demo_cs "TCP" 5 changed_svc [demo_k8s_node] demo_informed Hports
    ltac:(intros H; vm_compute in H; discriminate H)) as H.
  unfold wp in H. fold demo_changed in H.
  assert (demo_changed.2 = Ok (lb_status demo_lb)) as Hr by by vm_compute.
  destruct (H _ Hr) as (c & lb0 & lb & l & now & _ & _ & _ & _ & _ & _ & Hl & (_ & _ & r & Hrule & Hcase) & Hq).
  change (elog (genv demo_changed.1) = l) in Hl. rewrite Hl in *. split; [exact Hlen|].
  destruct Hcase as [(_ & _ & _ & _ & _ & Hreq & _)|(_ & Hby & Ht & _)].
  - rewrite Hreq in Hlen. discriminate Hlen.
  - exists c, lb, r. split; [|exact (conj Hrule (conj Hby Ht))].
    rewrite Hq. rewrite lookup_insert_eq. reflexivity.
Defined.

Lemma demo_coherent : coherent unit.
Proof.
  split; [|done]. intros c p w l Hp Hl Hc. cbn in Hl. rewrite Hp in Hl.
  destruct (lp_Id p); by injection Hl as <-.
Qed.

Lemma handlers_never_panic_witness :
  no_panic (EnsureLoadBalancer demo_cs 5 (Some demo_svc) [] demo_state).2 ∧
  no_panic (EnsureLoadBalancerDeleted demo_cs (Some demo_svc) demo_state).2.
Proof.
  destruct (handlers_never_panic demo_coherent demo_cs 5 demo_svc [] demo_state demo_inv) as (H1 & _ & _ & H4).
  split; [apply H1; by eexists|exact H4].
Defined.

(** ** Instances *)

Definition demo_machine : node :=
  {| n_projectID := "proj"; n_name := "node"; n_environment := "prod"; n_vmID := "vm-1" |}.

Lemma providerID_roundtrip_witness :
  parseProviderID "custom-cloudstack://prod/proj/vm-1" = inr (anonymous demo_machine).
Proof.
  apply (proj1 (providerID_roundtrip demo_machine ltac:(by vm_compute))).
Defined.

Lemma instance_exists_shutdown_witness :
  (InstanceExistsByProviderID demo_cs "prod/proj/vm-1" demo_env).2 = Ok true ∧
  (InstanceShutdownByProviderID demo_cs "prod/proj/vm-1" demo_env).2 = Ok false.
Proof.
  destruct (instance_exists_shutdown demo_cs "prod/proj/vm-1" (anonymous demo_machine) demo_client demo_env)
    as [(_ & _ & He) (_ & _ & Hs)]; [done|by vm_compute|by vm_compute|].
  split.
  - by apply He.
  - apply Hs. split_and!; [done|done|]. exists (demo_vm "vm-1"). split_and!; [done|done|].
    split; [done|]. cbn [vm_State demo_vm]. intros H. exfalso. set_solver.
Defined.

(** ** The test server *)

Definition demo_form (l : list (string * string)) : values := list_to_map ((λ kv, (kv.1, [kv.2])) <$> l).
Definition demo_request (l : list (string * string)) : http_request :=
  {| URL_Query := demo_form l; Form := demo_form l |}.
Definition in_order (A : Type) (l : list A) : list A := l.
Lemma in_order_perm A (l : list A) : in_order A l ≡ₚ l.
Proof. reflexivity. Qed.

Definition demo_server : CloudstackServer := (AddIP (demo_ip "ip-1") NewCloudstackServer).1.
Lemma demo_server_reachable : fake_reachable ∅ demo_server.
Proof. apply rtc_once, (step_test in_order (TAddIP (demo_ip "ip-1"))), in_order_perm. Qed.

Definition demo_create : http_request :=
  let p := create_params demo_lb demo_ports in
  demo_request (("command", "createLoadBalancerRule") ::
    ((λ k, (k, param_text p k)) <$>
       ["name"; "protocol"; "privateport"; "publicport"; "additionalportmap"; "publicipid"])).

Definition demo_serve (l : list (string * string)) (s : CloudstackServer) : CloudstackServer :=
  (ServeHTTP in_order None (demo_request l) s).1.
Definition demo_query (jobid : string) : list (string * string) :=
  [("command", "queryAsyncJobResult"); ("jobid", jobid)].

(** The server with the rule of the balancer. *)
Definition demo_server_rule : CloudstackServer :=
  demo_serve (demo_query "job-lbrule-1") (ServeHTTP in_order None demo_create demo_server).1.

(** A test then adds a rule without ports, under another name than its own. *)
Definition demo_portless : LoadBalancerRule := {|
  Rule := list_to_map [("id", RStr "lbrule-0"); ("name", RStr "svc1.test.com");
    ("publicip", RStr "10.0.0.1"); ("publicipid", RStr "ip-1"); ("networkid", RStr "1234")];
  Pools := []; fake_createLBPool := false |}.
Definition demo_added : added_rules := {[ 1%nat := Rule demo_portless ]}.
Definition demo_server_added : CloudstackServer :=
  (AddLBRule "svc1.test.gom" demo_portless demo_server_rule).1.

Lemma demo_server_added_reachable : fake_reachable demo_added demo_server_added.
Proof.
  eapply rtc_l; [apply (step_test in_order (TAddIP (demo_ip "ip-1"))), in_order_perm|].
  eapply rtc_l; [apply (step_request in_order None demo_create), in_order_perm|].
  eapply rtc_l; [apply (step_request in_order None (demo_request (demo_query "job-lbrule-1"))), in_order_perm|].
  apply rtc_once.
  exact (step_test in_order (TAddLBRule "svc1.test.gom" demo_portless) ∅ demo_server_rule in_order_perm).
Qed.

Lemma fake_rules_typed_witness :
  (∃ p r, lbRules demo_server_added !! "web.cs.example.com" = Some p ∧
    rules demo_server_added !! p = Some r ∧ typed (Rule r) ∧
    Rule r !! "id" = Some (RStr "lbrule-1")) ∧
  ∃ p r, lbRules demo_server_added !! "svc1.test.gom" = Some p ∧
    rules demo_server_added !! p = Some r ∧ Rule r !! "publicport" = None.
Proof.
  destruct (fake_rules_typed demo_added demo_server_added demo_server_added_reachable) as (Ht & _ & Hn & Hadd).
  split.
  - destruct (Hn "web.cs.example.com" 0%nat ltac:(vm_compute; reflexivity)) as (r & Hr & _).
    exists 0%nat, r. split_and!; [by vm_compute|exact Hr|exact (proj1 (Ht _ _ Hr eq_refl))|].
    vm_compute in Hr. injection Hr as <-. by vm_compute.
  - destruct (Hadd 1%nat (Rule demo_portless) eq_refl) as (r & Hr & Hsame).
    exists 1%nat, r. split_and!; [by vm_compute|exact Hr|]. by rewrite (Hsame "publicport") by done.
Defined.

(** The pools of the rule without ports. *)
Definition demo_pools_request : http_request :=
  demo_request [("command", "listGloboNetworkPools"); ("lbruleid", "lbrule-0")].

Lemma ServeHTTP_panics_witness :
  ∃ k, looked_up demo_server_added "lbrule-0" k ∧
    breaks in_order demo_server_added k "listGloboNetworkPools" (Form demo_pools_request).
Proof.
  exact (ServeHTTP_panics in_order demo_pools_request demo_added demo_server_added in_order_perm
    demo_server_added_reachable).
Defined.

Lemma server_creates_reusable_witness :
  ∃ m, (ServeHTTP in_order None demo_create demo_server).2 = Ok (RuleReply m) ∧
  rstr m "jobid" = "job-lbrule-1" ∧
  ∃ l m', (ServeHTTP in_order None
      (demo_request [("command", "listLoadBalancerRules"); ("keyword", lb_name demo_lb)])
      demo_server_rule).2 = Ok (RulesReply (length l) l) ∧ m' ∈ l ∧
    reusable demo_lb (decode m') demo_ports.
Proof.
  destruct (server_creates_reusable in_order demo_lb demo_ports ∅ demo_server (demo_ip "ip-1") demo_create
    in_order_perm demo_server_reachable ltac:(intros ? ? ? _; by rewrite lookup_empty)
    ltac:(by repeat constructor) ltac:(by split)
    ltac:(done) ltac:(by vm_compute) ltac:(by vm_compute) ltac:(done)) as (m & Hm & H).
  { split; [by vm_compute|]. intros k Hk.
    repeat (apply elem_of_cons in Hk as [->|Hk]; [by vm_compute|]). by apply elem_of_nil in Hk. }
  exists m. split; [exact Hm|].
  assert (rstr m "jobid" = "job-lbrule-1") as Hjob.
  { vm_compute in Hm. injection Hm as <-. by vm_compute. }
  split; [exact Hjob|].
  exact (H (demo_request (demo_query "job-lbrule-1")) ltac:(by vm_compute)
    ltac:(by rewrite Hjob; vm_compute)
    (demo_request [("command", "listLoadBalancerRules"); ("keyword", lb_name demo_lb)])
    ltac:(by vm_compute) ltac:(by vm_compute)).
Defined.

Definition demo_hosts (cmd ids : string) : list (string * string) :=
  [("command", cmd); ("id", "lbrule-1"); ("virtualmachineids", ids)].

Definition demo_hosts_log : list event :=
  [Ev (AssignToLoadBalancerRule demo_client "lbrule-1" ["vm-1"; "vm-2"]); Ev Now;
   Ev (RemoveFromLoadBalancerRule demo_client "lbrule-1" ["vm-1"])].

Definition demo_server_hosts : CloudstackServer :=
  demo_serve (demo_query "job-host-remove-1") (demo_serve (demo_hosts "removeFromLoadBalancerRule" "vm-1")
    (demo_serve [("command", "listNetworks")]
       (demo_serve (demo_query "job-host-assign-1")
          (demo_serve (demo_hosts "assignToLoadBalancerRule" "vm-1,vm-2") demo_server_rule)))).

Lemma server_machines_witness :
  machines demo_server_hosts "lbrule-1" = ["vm-2"] ∧
  (list_to_set (machines demo_server_hosts "lbrule-1") : gset string) =
    hosts_after "lbrule-1" ∅ demo_hosts_log.
Proof.
  split; [by vm_compute|].
  apply (server_machines in_order demo_server_rule demo_hosts_log demo_server_hosts "lbrule-1").
  eapply (carried_host in_order _ (demo_request (demo_hosts "assignToLoadBalancerRule" "vm-1,vm-2"))
            (demo_request (demo_query "job-host-assign-1")) "job-host-assign-1").
  { split_and!; try by vm_compute. by repeat constructor. }
  1-3: by vm_compute.
  eapply (carried_quiet in_order (demo_request [("command", "listNetworks")])); [intros H; exfalso; vm_compute in H; discriminate H|].
  eapply carried_other; [exact (λ H, H)|].
  eapply (carried_host in_order _ (demo_request (demo_hosts "removeFromLoadBalancerRule" "vm-1"))
            (demo_request (demo_query "job-host-remove-1")) "job-host-remove-1").
  { split_and!; try by vm_compute. by repeat constructor. }
  1-3: by vm_compute.
  apply carried_done.
Defined.

(** ** The provider against the test server *)

(** The server has the rule of the balancer with machine "vm-0"; the service
    waits in the queue, and is served by machines "vm-1" and "vm-2". *)
Definition demo_stale_server : CloudstackServer :=
  demo_serve (demo_query "job-host-assign-1")
    (demo_serve (demo_hosts "assignToLoadBalancerRule" "vm-0") demo_server_rule).

Definition demo_pair : Cloud (CloudstackServer * unit) := server_world demo_world in_order.
Definition demo_pair_hosts : @RuleHosts _ demo_pair := server_hosts demo_world in_order.

Definition demo_server_lb : loadBalancer := set_rule (Some {|
  lbr_Id := "lbrule-1"; lbr_Name := "web.cs.example.com"; lbr_Algorithm := "roundrobin";
  lbr_Cidrlist := ""; lbr_Networkid := "net-1"; Privateport := "30080"; Publicport := "80";
  Publicip := "10.0.0.9"; Publicipid := "ip-1"; Zoneid := "zone-1"; lbr_Protocol := "TCP";
  lbr_Tags := demo_tags; AdditionalPortMap := ["443:30443"] |}) demo_lb.

Definition demo_server_state : state (CloudstackServer * unit) :=
  St (Env (demo_stale_server, tt) []) demo_registry
     {[ svcKey demo_svc := {| qe_service := demo_svc; qe_lb := Some demo_server_lb; updatePool := true;
                              start := 10; backoffUntil := zero_time |} ]} new_serviceLock.

Lemma demo_server_rest : at_rest demo_server_state.
Proof.
  split; [|done]. intros k e Hk. cbn [queue demo_server_state] in Hk.
  by apply lookup_singleton_Some in Hk as [<- <-].
Qed.

Lemma demo_server_rules : queued_rules (queue demo_server_state).
Proof.
  intros k e lb Hk Hlb. cbn [queue demo_server_state] in Hk.
  apply lookup_singleton_Some in Hk as [<- <-]. injection Hlb as <-. by eexists.
Qed.

Definition demo_server_round : state (CloudstackServer * unit) * res worker :=
  @worker_round _ demo_pair demo_cs 5 false false NewTimer demo_server_state.

Lemma recorded_success_witness :
  machines demo_stale_server "lbrule-1" = ["vm-0"] ∧
  success_of demo_svc ∈ elog (genv demo_server_round.1) ∧
  @hosts_of _ demo_pair demo_pair_hosts (genv demo_server_round.1) "lbrule-1" = {[ "vm-1"; "vm-2" ]}.
Proof.
  assert (demo_server_round.2 = Ok (Selecting false NewTimer)) as Hr by by vm_compute.
  assert (success_of demo_svc ∈ elog (genv demo_server_round.1)) as Hlog.
  { apply (list_elem_of_lookup_2 _ (pred (length (elog (genv demo_server_round.1))))). by vm_compute. }
  split; [by vm_compute|]. split; [exact Hlog|].
  pose proof (@recorded_success _ demo_pair demo_pair_hosts demo_cs 5 false false NewTimer demo_server_state
    demo_server_rest demo_server_rules) as H.
  unfold wp in H. fold demo_server_round in H. rewrite Hr in H.
  destruct (H ltac:(intros [=])) as (l & Hl & Hin). change (elog (genv demo_server_round.1) = l) in Hl.
  destruct (Hin demo_svc ltac:(rewrite <- Hl; exact Hlog)) as (e & _ & He & _ & Hline).
  cbn [queue demo_server_state] in He. apply lookup_singleton_Some in He as [_ <-].
  unfold brought_in_line in Hline.
  match type of Hline with context [@entry_shown ?W ?C ?cs ?e ?s] =>
    assert (@entry_shown W C cs e s = Some demo_server_lb) as Hs by by vm_compute end.
  rewrite Hs in Hline. cbn in Hline. destruct Hline as [_ Hh]. etrans; [exact Hh|by vm_compute].
Defined.

Definition demo_server_entry : queueEntry := {|
  qe_service := demo_svc; qe_lb := Some demo_server_lb; updatePool := true; start := 10;
  backoffUntil := zero_time |}.
Definition demo_obliging : @Obliging _ demo_pair.
Proof.
  refine (server_obliging demo_world in_order _ _); intros; exists w; by eexists.
Defined.

Lemma demo_updatable : ∃ r, lbr_Id r = "lbrule-1" ∧
  @updatable _ demo_pair demo_pair_hosts demo_obliging demo_cs 5 demo_server_entry demo_client r demo_server_state.
Proof.
  eexists. split; [|split; [split_and!; [reflexivity|by vm_compute|intros _; split; by vm_compute]| | | |]]; [done|..].
  - exists "n1", (demo_node "vm-1"). split; [by vm_compute|]. apply (bool_decide_unpack _). by vm_compute.
  - intros k n Hk. cbn [registry demo_server_state demo_registry nodes] in Hk.
    apply lookup_insert_Some in Hk as [[_ <-]|[_ [_ <-]%lookup_singleton_Some]]; by split.
  - change (Forall plain (machines demo_stale_server "lbrule-1")).
    assert (machines demo_stale_server "lbrule-1" = ["vm-0"]) as -> by by vm_compute.
    apply Forall_singleton. by split.
  - split; [lia|]. apply (bool_decide_unpack _). by vm_compute.
Qed.

(** The same for an entry whose balancer has to be looked up. *)
Lemma demo_found p nets (en : env (CloudstackServer * unit)) :
  (@getLoadBalancer _ demo_pair demo_cs demo_requested p nets en).2 = Ok {|
    cloud := {| pc_cs := demo_cs; projectID := if decide (p = "") then "proj" else p; environment := "prod" |};
    lb_name := "web.cs.example.com"; algorithm := ""; mainNetworkID := "net-1"; ip := ip demo_lb;
    rule := Some demo_rule; service := demo_requested |}.
Proof. destruct p, en as [[sv []] l]; reflexivity. Qed.

Lemma demo_shown : @shown _ demo_pair demo_pair_hosts demo_cs demo_again demo_client demo_rule demo_server_state.
Proof.
  intros ns en _ _. cbn [idsForNodes]. eexists. split; [apply demo_found|].
  split; [split_and!; [done|by vm_compute|intros [=]]|by vm_compute].
Qed.

Lemma worker_round_converges_witness :
  machines demo_stale_server "lbrule-1" = ["vm-0"] ∧ demo_server_round.2 = Ok (Selecting false NewTimer) ∧
  @hosts_of _ demo_pair demo_pair_hosts (genv demo_server_round.1) "lbrule-1" = {[ "vm-1"; "vm-2" ]} ∧
  queue demo_server_round.1 = ∅.
Proof.
  split; [by vm_compute|]. destruct demo_updatable as (r & Hid & Hup).
  assert ((@pop _ demo_pair demo_server_state).2 = Ok (Some demo_server_entry)) as Hpop by by vm_compute.
  destruct (@worker_round_converges _ demo_pair demo_pair_hosts demo_obliging demo_cs 5 false false NewTimer
    demo_server_state demo_server_entry demo_client r demo_server_rest demo_server_rules Hpop Hup)
    as (Hr & Hh & Hq & _).
  rewrite Hid in Hh. split; [exact Hr|]. split; [etrans; [exact Hh|by vm_compute]|].
  etrans; [exact Hq|by vm_compute].
Defined.

(** ** Goroutines *)

(** An UpdateLoadBalancer puts the service into the queue; a worker is started
    and takes it. *)
Definition demo_spawn (t : nat) (p : prog unit ending) (x : runtime unit) : runtime unit :=
  Runtime (shared x) (<[t := (p, Idle)]> (gos x)).
Definition demo_scheduled (ts : list nat) (x : runtime unit) : runtime unit :=
  default x (run_schedule ts x).

Definition demo_queued : runtime unit :=
  demo_scheduled [7; 7; 7]%nat
    (demo_spawn 7 (ending_of (λ _, Done) (UpdateLoadBalancer_go demo_cs demo_svc [demo_k8s_node]))
       (go_init (provider_init demo_env))).
Definition demo_working : runtime unit :=
  demo_spawn 1 (ending_of Worked (worker_loop_go demo_cs 5 new_worker [(Timer, false)])) demo_queued.

Lemma demo_is_worker : is_worker demo_cs 1.
Proof. vm_compute. reflexivity. Qed.
Lemma demo_is_handler : ¬ is_worker demo_cs 7.
Proof. vm_compute. discriminate. Qed.
(** The worker has taken the entry, then waits for the lock, then has read the
    registry under it, then has brought the machines in line. *)
Definition demo_taken : runtime unit := demo_scheduled [1]%nat demo_working.
Definition demo_waiting : runtime unit := demo_scheduled [1]%nat demo_taken.
Definition demo_locked : runtime unit := demo_scheduled [1; 1]%nat demo_waiting.
Definition demo_synced : runtime unit := demo_scheduled [1]%nat demo_locked.

Lemma demo_scheduled_steps ts x : rtc (step (provider_go demo_cs)) x (demo_scheduled ts x).
Proof.
  unfold demo_scheduled. destruct (run_schedule ts x) as [y|] eqn:E; [|constructor].
  by apply (run_schedule_steps _ ts).
Qed.

Lemma demo_queued_reachable : go_reachable demo_cs demo_env demo_queued.
Proof.
  eapply rtc_l; [|apply demo_scheduled_steps]. exists 7%nat.
  apply go_start; [reflexivity|apply run_update, demo_is_handler].
Qed.

Lemma demo_working_reachable : go_reachable demo_cs demo_env demo_working.
Proof.
  eapply rtc_r; [apply demo_queued_reachable|]. exists 1%nat.
  apply go_start; [vm_compute; reflexivity|apply run_worker, demo_is_worker].
Qed.

Lemma demo_locked_reachable : go_reachable demo_cs demo_env demo_locked.
Proof.
  unfold go_reachable. etrans; [apply demo_working_reachable|]. do 2 (etrans; [apply demo_scheduled_steps|]).
  apply demo_scheduled_steps.
Qed.

Lemma no_update_lost_witness :
  queue (shared demo_taken) = ∅ ∧
  ((pending (svcKey demo_svc) demo_taken ∧
    (stopWait_returns demo_cs demo_taken → is_Some (queue (shared demo_taken) !! svcKey demo_svc))) ∨
   ∃ t z z', rtc (step (provider_go demo_cs)) demo_queued z ∧
    go_step (provider_go demo_cs) t z z' ∧ rtc (step (provider_go demo_cs)) z' demo_taken ∧
    dealt_with demo_cs (svcKey demo_svc) t z z').
Proof.
  split; [vm_compute; reflexivity|].
  apply (no_update_lost demo_cs demo_env demo_queued demo_taken (svcKey demo_svc) demo_queued_reachable).
  - eapply rtc_l; [|apply demo_scheduled_steps]. exists 1%nat.
    apply go_start; [vm_compute; reflexivity|apply run_worker, demo_is_worker].
  - left. apply (bool_decide_unpack _). vm_compute. exact I.
Defined.

Lemma demo_synced_step : advance 1 demo_locked = Some demo_synced.
Proof.
  assert (is_Some (advance 1 demo_locked)) as [y Hy] by (apply (bool_decide_unpack _); vm_compute; exact I).
  unfold demo_synced, demo_scheduled, run_schedule. by rewrite Hy.
Qed.

Lemma changes_under_lock_witness :
  st_logs no_change (shared demo_locked) (shared demo_synced) ∨
  ∃ key, holds demo_locked 1 key ∧ holds demo_synced 1 key ∧
    ∀ t', holds demo_locked t' key ∨ holds demo_synced t' key → t' = 1%nat.
Proof.
  apply (changes_under_lock demo_cs demo_env demo_locked demo_synced 1 demo_locked_reachable).
  apply advance_step. exact demo_synced_step.
Defined.

Lemma goroutines_progress_witness :
  holds demo_locked 1 (svcKey demo_svc) ∧
  (hangs demo_locked 1 ∨ can_move (provider_go demo_cs) 1 demo_locked ∨ returned (worker_promise demo_cs) demo_locked 1 ∨
   ∃ t' key, t' ≠ 1%nat ∧ holds demo_locked t' key).
Proof.
  assert (snd <$> gos demo_locked !! 1%nat = Some (Holding (svcKey demo_svc) 0)) as Hg
    by (vm_compute; reflexivity).
  apply fmap_Some in Hg as ([p g] & E & Hg). cbn [snd] in Hg.
  destruct (goroutines_progress demo_cs demo_env demo_locked 1 p g demo_locked_reachable E)
    as [[H|[H|[H|(t' & key & Hne & _ & Hh & _)]]] _].
  - split; [|by right; right; left]. by exists p, 0%nat; rewrite Hg.
  - split; [|by left]. by exists p, 0%nat; rewrite Hg.
  - split; [|by right; left]. by exists p, 0%nat; rewrite Hg.
  - split; [|right; right; right; exact (ex_intro _ t' (ex_intro _ key (conj Hne Hh)))]. by exists p, 0%nat; rewrite Hg.
Defined.

(** The worker at the end of its wake-ups. *)
Definition demo_idle : runtime unit := demo_scheduled [1; 1]%nat demo_synced.

Lemma demo_idle_reachable : go_reachable demo_cs demo_env demo_idle.
Proof.
  unfold go_reachable. etrans; [apply demo_locked_reachable|]. etrans; apply demo_scheduled_steps.
Qed.

(** What a program has come to. *)
Definition result_of {A} (p : prog unit A) : option (res A) :=
  match p with Ret _ r => Some r | _ => None end.

Lemma workers_survive_witness :
  (∃ p g, gos demo_idle !! 1%nat = Some (p, g) ∧
     result_of p = Some (Ok (Worked (Selecting false NewTimer)))) ∧
  snd <$> gos demo_idle !! 1%nat = Some Idle.
Proof.
  assert ((λ x, result_of x.1) <$> gos demo_idle !! 1%nat = Some (Some (Ok (Worked (Selecting false NewTimer)))))
    as Hr by (vm_compute; reflexivity).
  apply fmap_Some in Hr as ([p g] & E & Hr). cbn [fst] in Hr.
  split; [exists p, g; split; [exact E|symmetry; exact Hr]|].
  destruct p as [c r|c|c A m k|c key k|c key k]; [|discriminate Hr..].
  destruct (workers_survive demo_cs demo_env demo_idle 1 c r g demo_idle_reachable demo_is_worker E)
    as (_ & -> & _).
  rewrite E. reflexivity.
Defined.
